(* ===== verification/_CoqProject ===== *)
-Q . S2P
Prelude.v
StdMap.v
ChunkGeometry.v
SliceHistory.v
DirtyRanges.v
InodeTypes.v
Acl.v
InodeOps.v
Codec.v
Records.v
Decimal.v
RedisKey.v
RedisKv.v
ChunkMeta.v
MetaTxn.v
MetaEffects.v
LockRecords.v
Locks.v
MetaEngine.v
Namespace.v
NamespaceEffects.v
VolumeTree.v
SliceChunk.v
SliceLocal.v
SlicePublished.v
SliceMemory.v
SliceRead.v
SliceInv.v
SliceFlush.v
SliceGroup.v
SliceDurable.v
SliceFrame.v
StateIo.v
CowChunk.v
CowLocal.v
CowPublished.v
CowFlush.v
CowSession.v
CowMemory.v
CowDurable.v
ChunkFactory.v
CowOpen.v
ChunkBoundary.v
CowFrame.v
FileRw.v
FileSize.v
FileData.v
FileSlices.v
FileCommit.v
CowFiles.v
InodeFence.v
DirListing.v
DirPlus.v
CowCleanup.v
CowGc.v
