(* ===== verification/Prelude.v ===== *)
(** * SwordFS verification library

    SwordFS is a FUSE file system whose metadata lives in Redis and whose data lives in an
    object store.  This library models its core in Rocq and proves what makes it correct.
    The root file holds this overview and the shared prelude.

    ** The program

    - A FUSE front end (src/src/fuse) calls the VFS (src/src/vfs), which keeps open handles
      and splits file ranges into chunks.
    - A chunk session (src/src/chunk) buffers the writes of one chunk of one file, serves
      its reads and publishes it.  A slice chunk publishes each generation of writes as an
      immutable object and appends a record to the index of the chunk; the newest record
      that covers a byte wins.  A COW chunk publishes a whole new object and swings the head
      of the chunk to it.  The chunk factory opens a session of the kind the mapping names,
      keeps one publication gate per inode and cuts a chunk at a new end of file.  Objects
      that are not needed any more are deleted by background workers of any mount.
    - The metadata engine (src/src/metadata/redis) keeps inodes, directories, the mapping of
      chunk indices to chunks, slice indices, COW heads, deferred work, owner leases and
      advisory locks in Redis.  Every mutation is an optimistic transaction: WATCH, reads,
      MULTI, queued writes, EXEC.
    - Objects are written once under fresh identities and read by range (src/src/storage).

    ** Files

    - Prelude: statuses and results ([Status], [result]), machine integers, byte strings.
    - StdMap: [std::map] as a sorted association list.
    - ChunkGeometry (metadata/types/Chunk.cpp, metadata/ChunkSizePlan.cpp): offsets, EOF
      layout, the plan of a size change and its validation.
    - SliceHistory (chunk/slice/SliceRecord.cpp): record validation and [ResolveRange].
    - DirtyRanges (chunk/slice/SliceChunk.cpp): the interval map of buffered writes.
    - InodeTypes, Acl, InodeOps (metadata/types/Inode.cpp, PosixAcl.cpp, Utils.cpp):
      attributes, permissions, ACLs, extended attributes, setattr.
    - Codec, Records, Decimal, RedisKey (metadata/types, redis/RedisKey.cpp): the stored
      records and key names.
    - RedisKv (redis/RedisKvTxn.cpp, RedisMetaClient.cpp): transaction callbacks as programs
      [kvprog], run atomically or interleaved with other clients, and the retry loop.
    - ChunkMeta (redis/RedisSliceChunkMetadata.cpp, RedisCOWChunkMetadata.cpp): identity
      counters, the slice index, the COW head.
    - MetaTxn, MetaEffects (redis/RedisMetaTxn.cpp): the metadata transactions, and their
      effect on the stored records.
    - LockRecords, Locks (redis/RedisLockAuthority.cpp, RedisOwnerLease.cpp): advisory locks
      and leases.
    - MetaEngine (redis/RedisMetaImpl.cpp, RedisMetaOps.cpp): the POSIX operations, as the
      callbacks of whole transactions.
    - Namespace, NamespaceEffects, VolumeTree: the namespace as an abstract tree with the
      link counts of its directories, each operation as a move on it, and the system of all
      mounts.
    - SliceChunk, SliceLocal (chunk/slice/SliceChunk.cpp): the slice chunk session and its
      local invariant.
    - SlicePublished, SliceMemory: what a session relies on of its backend, as laws over the
      published state, and an in-memory backend that meets them.
    - SliceRead, SliceInv, SliceFlush, SliceGroup, SliceDurable: reads; the invariant that
      ties a session to its published history; publication; window coalescing; and the flush
      from end to end, for every state a session can reach.  SliceFrame: what of a store
      the sessions of other chunks leave alone.
    - StateIo: the state monad of the later files, with its precondition calculus.
    - CowChunk, CowLocal (chunk/cow/COWChunk.cpp, WriteBuf.cpp): the COW chunk session and
      the lemmas of its buffer.
    - CowPublished, CowMemory: the laws a COW session relies on, and an in-memory backend
      with scripted faults that meets them.
    - CowFlush, CowSession, CowDurable, CowFrame: the stages of a publication; the
      invariant of a session and each operation against it; whole runs of a session; frame.
    - ChunkFactory, CowOpen, ChunkBoundary (chunk/ChunkFactory.cpp, chunk/cow and
      chunk/slice boundary code): opening a chunk, publication gates, cutting a chunk at a
      new end of file.
    - FileRw, FileSize, FileData, FileCommit (vfs/FileReadWriter.cpp): the file read/write
      path over the interface [FileLaws] of a chunk session; FileSlices and CowFiles
      discharge that interface for slice and COW sessions.
    - InodeFence (vfs/InodeHandle.cpp, FileHandle.cpp, OrphanReclaimer.cpp): the descriptors
      of an inode and its reclaim fence, as fibers that interleave at critical sections.
    - DirListing, DirPlus (redis/RedisDirIterator.cpp, vfs/DirHandle.cpp): directory streams
      over HSCAN, without and with attributes.
    - CowCleanup, CowGc (chunk/cow/COWCleanup.cpp, chunk/internal/ChunkGcWorker.cpp): the
      queued cleanup records and their workers, and the workers beside mounts that write.

    ** Modelling conventions

    Code that returns [Status] returns [result]; output parameters are results; null outputs
    are not modelled.  Integers are [Z] with the wrap-around written where the code can
    wrap.  Object state is a record passed explicitly.  Redis, folly and the object store
    are classes of operations with their documented laws; instances show that the laws can
    be met.  Concurrency between clients is interleaving of Redis commands; concurrency
    between fibers of one session is interleaving at backend calls.

    ** What the theorems show

    - Namespace: whatever mounts do and however their transactions interleave, a volume
      stays a tree; a file's link count is the number of its names and a directory's is two
      plus the number of its subdirectories.  The calls are made with values of their C++
      types, times with nanoseconds below a second, and no file gets 2^64 links.
    - Transactions: a committed transaction equals its atomic run; the callback of every
      engine operation is one; a server that stops inside EXEC leaves safe states (size
      commits, attach).
    - Data: range resolution, dirty intervals and the slice session implement
      last-writer-wins byte maps; the slice index refines an append-only log; a COW head
      only advances until a cleanup erases it.
    - Flush: a successful flush makes what the session showed durable; any flush, also a
      failed one, changes what readers see only by the writes that arrive meanwhile; on a
      backend that never failed it succeeds.  Nothing is claimed about success after a
      failure: a lost reply of the index creation makes later flushes of the session fail.
      The run [truncated_record_resurfaces] shows where truncation does not reach.
    - COW chunks: a session refines a byte map, with flushes that apply exactly the writes
      that arrived; a flush publishes all or nothing.  The run [cow_flush_stuck] shows a
      session whose flushes fail for ever.
    - Boundaries: cutting a chunk keeps the bytes below the cut and no byte above it, for
      both kinds of chunk; all sessions of one inode share its publication gate.
    - Files: reads and writes through the path are those of one byte map over all chunks,
      the sizes it reports cover the accepted writes, and a size change takes place, or does
      not, or closes the inode.
    - Descriptors: the open count is exact, no CHECK fails and a claimed reclaim fence
      excludes descriptors; a close that overlaps another can lose a write
      ([overlapped_close_loses_write]).
    - Directory streams: a listing has exactly the entries of the hash, each once when HSCAN
      repeats no field, with offsets that continue it; readdirplus replies are exact.
    - Garbage collection: no worker deletes an object that a mount may still read or
      publish, and cleanup records decode to what was frozen.
    - Locks: mutual exclusion between live owners under every interleaving.
    - Geometry, records, ACLs: exact arithmetic, round trips, validation.

    ** Fuel and bounds

    [CoverGaps] takes the number of gaps, [write_parts] the number of bytes, scans the
    number of pages; ancestor walks and chunk scans take fuel that is shown to suffice where
    termination is claimed.  Retry loops keep the bounds of the code (8 publication
    attempts, 4 window installs, 3 finalization attempts, 3 lock attempts).  Cutting a COW
    chunk loops in the code until its compare-and-swap lands, without a bound: what is shown
    of it holds after any number of rounds, and it returns if the compare-and-swap is
    answered with a retryable error only finitely often ([finite_retries]).

    ** Not modelled

    The FUSE reply plumbing, the AWS SDK calls, configuration parsing, commands and process
    start-up, thread pools and logging have no logic of their own to verify.  The dispatch,
    the handle tables and the lookup cache of the VFS, the worker threads with their scans
    of the queues, and the timer of the owner lease are not modelled. *)

From stdpp Require Export base tactics list list_numbers sorting numbers.
From stdpp Require Export strings.
From Stdlib Require Export Ascii ZArith Lia.

#[global] Open Scope Z_scope.

(** ** Status: the error type every layer returns (utils/Status.hpp).

    The message carried by a [Status] is only ever logged; the model keeps the
    code.  [OK] is [kOk]; the other constructors are named after the factories. *)
Inductive Status :=
  | OK
  | NotFound
  | EndOfDirectory
  | AlreadyExists
  | NotDirectory
  | IsDirectory
  | NotEmpty
  | InvalidArgument
  | Malformed
  | NotSupported
  | OperationNotSupported
  | NotTty
  | NoData
  | IOError
  | Unavailable
  | OutcomeUnknown
  | Busy
  | WouldBlock
  | Interrupted
  | NoLocks
  | NotPermitted
  | Permission
  | NoMemory
  | NameTooLong
  | Range
  | Internal.

#[export] Instance Status_eq_dec : EqDecision Status.
Proof. solve_decision. Defined.

Definition ok (s : Status) : bool :=
  match s with OK => true | _ => false end.
Definition IsNotFound (s : Status) : bool :=
  match s with NotFound => true | _ => false end.
Definition IsUnavailable (s : Status) : bool :=
  match s with Unavailable => true | _ => false end.
Definition IsOutcomeUnknown (s : Status) : bool :=
  match s with OutcomeUnknown => true | _ => false end.

(** Linux errno values used by [Status::ToErrno]. *)
Definition EPERM : Z := 1.
Definition ENOENT : Z := 2.
Definition EINTR : Z := 4.
Definition EIO : Z := 5.
Definition EAGAIN : Z := 11.
Definition ENOMEM : Z := 12.
Definition EACCES : Z := 13.
Definition EBUSY : Z := 16.
Definition EEXIST : Z := 17.
Definition ENOTDIR : Z := 20.
Definition EISDIR : Z := 21.
Definition EINVAL : Z := 22.
Definition ENOTTY : Z := 25.
Definition ERANGE : Z := 34.
Definition ENAMETOOLONG : Z := 36.
Definition ENOLCK : Z := 37.
Definition ENOSYS : Z := 38.
Definition ENOTEMPTY : Z := 39.
Definition ENODATA : Z := 61.
Definition EOPNOTSUPP : Z := 95.

Definition ToErrno (s : Status) : Z :=
  if IsUnavailable s || IsOutcomeUnknown s then EIO else
  match s with
  | OK => 0
  | NotFound => ENOENT
  | AlreadyExists => EEXIST
  | NotDirectory => ENOTDIR
  | IsDirectory => EISDIR
  | InvalidArgument => EINVAL
  | NotSupported => ENOSYS
  | OperationNotSupported => EOPNOTSUPP
  | NotTty => ENOTTY
  | NoData => ENODATA
  | Busy => EBUSY
  | WouldBlock => EAGAIN
  | NoLocks => ENOLCK
  | Interrupted => EINTR
  | NotEmpty => ENOTEMPTY
  | NotPermitted => EPERM
  | Permission => EACCES
  | NoMemory => ENOMEM
  | NameTooLong => ENAMETOOLONG
  | Range => ERANGE
  | _ => EIO
  end.

(** ** Results: a [Status]-returning function with an output parameter.

    [Ok a] is "returns OK and stores [a] through the output pointer";
    [Err s] is "returns [s], output untouched". *)
Inductive result (A : Type) :=
  | Ok (a : A)
  | Err (s : Status).
Arguments Ok {A} _.
Arguments Err {A} _.

#[export] Instance result_ret : MRet result := λ A a, Ok a.
#[export] Instance result_bind : MBind result := λ A B f r,
  match r with Ok a => f a | Err s => Err s end.

(** [if (!status.ok()) return status;] *)
Definition check (s : Status) : result unit :=
  if ok s then Ok tt else Err s.
(** [if (b) return s;] *)
Definition fail_if (b : bool) (s : Status) : result unit :=
  if b then Err s else Ok tt.

(** [if (b) { a = f(a); }] *)
Definition when {A} (b : bool) (f : A → A) (a : A) : A := if b then f a else a.

Lemma when_keeps {A B} (g : A → B) b f a : (∀ x, g (f x) = g x) → g (when b f a) = g a.
Proof. destruct b; cbn; auto. Qed.

Definition status_of {A} (r : result A) : Status :=
  match r with Ok _ => OK | Err s => s end.

Lemma bind_Ok {A B} (r : result A) (f : A → result B) b :
  r ≫= f = Ok b ↔ ∃ a, r = Ok a ∧ f a = Ok b.
Proof.
  destruct r; cbn; split; [eauto| |done|]; intros (?&?&?); by simplify_eq.
Qed.

Lemma check_Ok s u : check s = Ok u ↔ s = OK.
Proof. destruct u; unfold check; destruct s; cbn; split; congruence. Qed.

Lemma fail_if_Ok b s u : fail_if b s = Ok u ↔ b = false.
Proof. destruct u, b; cbn; split; congruence. Qed.

Lemma fail_if_Err {b s} u : fail_if b s = Err u → b = true ∧ u = s.
Proof. destruct b; cbn; intros; by simplify_eq. Qed.

(** Inversion of a successful monadic chain: every guard becomes a fact. *)
Ltac inv_result :=
  repeat match goal with
  | H : _ ≫= _ = Ok _ |- _ =>
      let a := fresh "a" in
      apply bind_Ok in H as [a [? H]]
  | H : check _ = Ok _ |- _ => apply check_Ok in H
  | H : fail_if _ _ = Ok _ |- _ => apply fail_if_Ok in H
  | H : Ok _ = Ok _ |- _ => injection H as H
  | H : Err _ = Ok _ |- _ => discriminate H
  | H : Ok _ = Err _ |- _ => discriminate H
  | H : _ || _ = false |- _ => apply orb_false_iff in H as [? ?]
  | H : _ && _ = true |- _ => apply andb_true_iff in H as [? ?]
  | H : negb _ = false |- _ => apply negb_false_iff in H
  | H : negb _ = true |- _ => apply negb_true_iff in H
  end.

(** ** Machine integers: unsigned [w]-bit values are [Z] with explicit wrap-around. *)
Definition wrap (w : Z) (z : Z) : Z := z mod 2 ^ w.
Abbreviation u8 := (wrap 8).
Abbreviation u16 := (wrap 16).
Abbreviation u32 := (wrap 32).
Abbreviation u64 := (wrap 64).
Definition UINT32_MAX : Z := 4294967295.
Definition UINT64_MAX : Z := 18446744073709551615.
Definition INT32_MAX : Z := 2147483647.
Definition INT64_MAX : Z := 9223372036854775807.

Definition in_range (w : Z) (z : Z) : Prop := 0 ≤ z < 2 ^ w.
Definition in_range_signed (w : Z) (z : Z) : Prop := - 2 ^ (w - 1) ≤ z < 2 ^ (w - 1).
#[export] Instance in_range_dec w z : Decision (in_range w z).
Proof. unfold in_range. apply _. Defined.
#[export] Instance in_range_signed_dec w z : Decision (in_range_signed w z).
Proof. unfold in_range_signed. apply _. Defined.

(** Two's complement: a signed [w]-bit value as its unsigned bit pattern, and back. *)
Definition to_signed (w : Z) (z : Z) : Z :=
  if z <? 2 ^ (w - 1) then z else z - 2 ^ w.

Lemma wrap_id w z : 0 ≤ w → in_range w z → wrap w z = z.
Proof. intros _ H. by apply Z.mod_small. Qed.

Lemma wrap_range w z : 0 ≤ w → in_range w (wrap w z).
Proof. intros ?. apply Z.mod_pos_bound, Z.pow_pos_nonneg; lia. Qed.

Lemma to_signed_wrap w z :
  0 < w → in_range_signed w z → to_signed w (wrap w z) = z.
Proof.
  unfold in_range_signed, to_signed, wrap. intros Hw [Hl Hu].
  assert (2 ^ w = 2 * 2 ^ (w - 1)) as Hp.
  { rewrite <- Z.pow_succ_r by lia. f_equal; lia. }
  assert (0 < 2 ^ (w - 1)) by (apply Z.pow_pos_nonneg; lia).
  destruct (Z.lt_ge_cases z 0) as [Hn|Hn].
  - assert (z mod 2 ^ w = z + 2 ^ w) as ->.
    { symmetry. apply Zmod_unique with (-1); lia. }
    destruct (Z.ltb_spec (z + 2 ^ w) (2 ^ (w - 1))); lia.
  - rewrite Z.mod_small by lia.
    destruct (Z.ltb_spec z (2 ^ (w - 1))); lia.
Qed.

(** Boolean comparisons to propositions, everywhere. *)
Ltac zify_bools :=
  repeat match goal with
  | H : (_ <? _) = true |- _ => apply Z.ltb_lt in H
  | H : (_ <? _) = false |- _ => apply Z.ltb_ge in H
  | H : (_ <=? _) = true |- _ => apply Z.leb_le in H
  | H : (_ <=? _) = false |- _ => apply Z.leb_gt in H
  | H : (_ =? _) = true |- _ => apply Z.eqb_eq in H
  | H : (_ =? _) = false |- _ => apply Z.eqb_neq in H
  | H : (_ >? _) = _ |- _ => rewrite Z.gtb_ltb in H
  | H : (_ >=? _) = _ |- _ => rewrite Z.geb_leb in H
  end.
Ltac zlia := zify_bools; lia.

(** ** Byte strings: [std::string] and [std::string_view] as lists of 8-bit characters. *)
Abbreviation bytes := (list ascii).
Definition lit (s : string) : bytes := String.list_ascii_of_string s.
Definition zlen {A} (l : list A) : Z := Z.of_nat (length l).

Lemma zlen_nonneg {A} (l : list A) : 0 ≤ zlen l.
Proof. unfold zlen; lia. Qed.
Lemma zlen_app {A} (l k : list A) : zlen (l ++ k) = zlen l + zlen k.
Proof. unfold zlen. rewrite length_app. lia. Qed.
Lemma zlen_cons {A} (x : A) l : zlen (x :: l) = zlen l + 1.
Proof. unfold zlen; cbn; lia. Qed.

Definition byte_of_Z (z : Z) : ascii := ascii_of_N (Z.to_N (z mod 256)).
Definition Z_of_byte (c : ascii) : Z := Z.of_N (N_of_ascii c).

Lemma Z_of_byte_range c : 0 ≤ Z_of_byte c < 256.
Proof. unfold Z_of_byte. pose proof (N_ascii_bounded c). lia. Qed.

Lemma Z_of_byte_of_Z z : Z_of_byte (byte_of_Z z) = z mod 256.
Proof.
  unfold Z_of_byte, byte_of_Z. pose proof (Z.mod_pos_bound z 256).
  rewrite N_ascii_embedding; lia.
Qed.

Lemma byte_of_Z_of_byte c : byte_of_Z (Z_of_byte c) = c.
Proof.
  unfold byte_of_Z. rewrite Z.mod_small by apply Z_of_byte_range.
  unfold Z_of_byte. rewrite N2Z.id. apply ascii_N_embedding.
Qed.

(** Little-endian layout of an [n]-byte integer. *)
Fixpoint le_bytes (n : nat) (z : Z) : bytes :=
  match n with
  | O => []
  | S n => byte_of_Z z :: le_bytes n (z / 256)
  end.

Fixpoint le_value (l : bytes) : Z :=
  match l with
  | [] => 0
  | c :: l => Z_of_byte c + 256 * le_value l
  end.

Lemma length_le_bytes n z : length (le_bytes n z) = n.
Proof. revert z. induction n; intros; cbn; auto. Qed.

Lemma zlen_le_bytes n z : zlen (le_bytes n z) = Z.of_nat n.
Proof. unfold zlen. by rewrite length_le_bytes. Qed.

Lemma le_value_le_bytes n z : le_value (le_bytes n z) = z mod 256 ^ Z.of_nat n.
Proof.
  revert z. induction n as [|n IH]; intros z; cbn [le_bytes le_value].
  - by rewrite Z.mod_1_r.
  - rewrite IH, Z_of_byte_of_Z, Nat2Z.inj_succ, Z.pow_succ_r by lia.
    rewrite Z.rem_mul_r by (try apply Z.pow_pos_nonneg; lia). lia.
Qed.

Lemma le_value_range l : 0 ≤ le_value l < 256 ^ zlen l.
Proof.
  unfold zlen. induction l as [|c l IH]; cbn [le_value length]; [lia|].
  pose proof (Z_of_byte_range c). rewrite Nat2Z.inj_succ, Z.pow_succ_r by lia. lia.
Qed.

Lemma le_bytes_le_value l : le_bytes (length l) (le_value l) = l.
Proof.
  induction l as [|c l IH]; cbn [le_value length le_bytes]; [done|].
  pose proof (Z_of_byte_range c) as Hc.
  assert ((Z_of_byte c + 256 * le_value l) / 256 = le_value l) as ->.
  { symmetry. apply Z.div_unique_pos with (Z_of_byte c); lia. }
  rewrite IH. f_equal. unfold byte_of_Z.
  replace ((Z_of_byte c + 256 * le_value l) mod 256) with (Z_of_byte c mod 256).
  - apply byte_of_Z_of_byte.
  - rewrite (Z.mul_comm 256), Z_mod_plus_full. done.
Qed.

(** Raw memory copies: [memcpy (dst.data() + off, src.data(), src.size())]. *)
Definition memcpy (dst : bytes) (off : Z) (src : bytes) : bytes :=
  take (Z.to_nat off) dst ++ src ++ drop (Z.to_nat off + length src) dst.
Definition zeros (n : Z) : bytes := replicate (Z.to_nat n) Ascii.zero.
Definition substr (s : bytes) (off n : Z) : bytes :=
  take (Z.to_nat n) (drop (Z.to_nat off) s).
(** [s.resize(n)]: cut, or pad with NUL characters. *)
Definition resize (s : bytes) (n : Z) : bytes :=
  take (Z.to_nat n) s ++ zeros (n - zlen s).
Definition byte_at (s : bytes) (i : Z) : option ascii :=
  if i <? 0 then None else s !! Z.to_nat i.

Lemma byte_at_Some s i c : byte_at s i = Some c → 0 ≤ i < zlen s.
Proof.
  unfold byte_at, zlen. destruct (Z.ltb_spec i 0); [done|].
  intros ?%lookup_lt_Some. lia.
Qed.

Lemma byte_at_inside s i : 0 ≤ i < zlen s → is_Some (byte_at s i).
Proof.
  unfold byte_at, zlen. intros. destruct (Z.ltb_spec i 0); [lia|].
  apply lookup_lt_is_Some_2. lia.
Qed.

Lemma byte_at_outside s i : i < 0 ∨ zlen s ≤ i → byte_at s i = None.
Proof.
  unfold byte_at, zlen. intros. destruct (Z.ltb_spec i 0); [done|].
  apply lookup_ge_None_2. lia.
Qed.

Lemma byte_at_app s t i :
  byte_at (s ++ t) i = if i <? zlen s then byte_at s i else byte_at t (i - zlen s).
Proof.
  unfold byte_at, zlen.
  destruct (Z.ltb_spec i 0), (Z.ltb_spec i (Z.of_nat (length s))); try done; try lia.
  - rewrite lookup_app_l; [done|lia].
  - destruct (Z.ltb_spec (i - Z.of_nat (length s)) 0); [lia|].
    rewrite lookup_app_r by lia. f_equal. lia.
Qed.

Lemma byte_at_take s n i : byte_at (take (Z.to_nat n) s) i = if i <? n then byte_at s i else None.
Proof.
  unfold byte_at. destruct (Z.ltb_spec i 0), (Z.ltb_spec i n); try done.
  - apply lookup_take_lt. lia.
  - apply lookup_take_ge. lia.
Qed.

Lemma byte_at_drop s n i : 0 ≤ n → 0 ≤ i → byte_at (drop (Z.to_nat n) s) i = byte_at s (n + i).
Proof.
  unfold byte_at. intros. destruct (Z.ltb_spec i 0), (Z.ltb_spec (n + i) 0); try lia.
  rewrite lookup_drop. f_equal. lia.
Qed.

Lemma zlen_memcpy dst off src :
  0 ≤ off → off + zlen src ≤ zlen dst → zlen (memcpy dst off src) = zlen dst.
Proof.
  unfold zlen, memcpy. intros. rewrite !length_app, length_take, length_drop. lia.
Qed.

Lemma byte_at_memcpy dst off src i :
  0 ≤ off → off + zlen src ≤ zlen dst →
  byte_at (memcpy dst off src) i =
    if (off <=? i) && (i <? off + zlen src) then byte_at src (i - off) else byte_at dst i.
Proof.
  intros Ho Hl. unfold memcpy. pose proof (zlen_nonneg src).
  assert (zlen (take (Z.to_nat off) dst) = off) as Ht
    by (unfold zlen in *; rewrite length_take; lia).
  rewrite !byte_at_app, Ht, byte_at_take.
  destruct (Z.ltb_spec i off), (Z.leb_spec off i), (Z.ltb_spec i (off + zlen src)); cbn; try lia; try done.
  - by destruct (Z.ltb_spec (i - off) (zlen src)); [|lia].
  - destruct (Z.ltb_spec (i - off) (zlen src)); [lia|].
    replace (Z.to_nat off + length src)%nat with (Z.to_nat (off + zlen src)) by (unfold zlen; lia).
    rewrite byte_at_drop by lia. f_equal. lia.
Qed.

Lemma zlen_zeros n : 0 ≤ n → zlen (zeros n) = n.
Proof. intros. unfold zlen, zeros. rewrite length_replicate. lia. Qed.

Lemma byte_at_zeros n i : byte_at (zeros n) i = if (0 <=? i) && (i <? n) then Some Ascii.zero else None.
Proof.
  unfold byte_at, zeros. destruct (Z.ltb_spec i 0), (Z.leb_spec 0 i), (Z.ltb_spec i n); cbn; try done; try lia.
  - apply lookup_replicate_2. lia.
  - apply lookup_replicate_None. lia.
Qed.

Lemma resize_cut s n : n ≤ zlen s → resize s n = take (Z.to_nat n) s.
Proof.
  intros Hn. unfold resize, zeros. rewrite (Z2Nat.nonpos (n - zlen s)) by lia. apply app_nil_r.
Qed.

Lemma zlen_substr s off n :
  0 ≤ off → 0 ≤ n → off + n ≤ zlen s → zlen (substr s off n) = n.
Proof. unfold zlen, substr. intros. rewrite length_take, length_drop. lia. Qed.

Lemma byte_at_substr s off n i :
  0 ≤ off → byte_at (substr s off n) i = if (0 <=? i) && (i <? n) then byte_at s (off + i) else None.
Proof.
  intros. unfold substr. rewrite byte_at_take.
  destruct (Z.ltb_spec i n), (Z.leb_spec 0 i); cbn; try done.
  - by apply byte_at_drop.
  - apply byte_at_outside; lia.
Qed.

Lemma bytes_ext (s t : bytes) : (∀ i, 0 ≤ i → byte_at s i = byte_at t i) → s = t.
Proof.
  intros H. apply list_eq. intros i. specialize (H (Z.of_nat i) ltac:(lia)).
  unfold byte_at in H. destruct (Z.ltb_spec (Z.of_nat i) 0); [lia|].
  by rewrite !Nat2Z.id in H.
Qed.

Create HintDb zlen.
#[export] Hint Rewrite @zlen_app @zlen_cons : zlen.

(** ** [std::sort] with a comparison on an integer key. *)
Section SortBy.
Context {A : Type} (key : A → Z).
Definition key_le (a b : A) : Prop := key a ≤ key b.
#[local] Instance key_le_dec a b : Decision (key_le a b) := Z_le_dec _ _.
#[local] Instance key_le_trans : Transitive key_le.
Proof. intros a b c. unfold key_le. lia. Qed.
#[local] Instance key_le_total : Total key_le.
Proof. intros a b. unfold key_le. lia. Qed.

Definition sort_by (l : list A) : list A := merge_sort key_le l.

Lemma sort_by_Permutation l : sort_by l ≡ₚ l.
Proof. apply merge_sort_Permutation. Qed.

Lemma sort_by_StronglySorted l : StronglySorted key_le (sort_by l).
Proof. apply StronglySorted_merge_sort; apply _. Qed.

(** With distinct keys the sorted order is unique, so the model's choice of
    algorithm is not observable. *)
Lemma sorted_by_unique l1 l2 :
  StronglySorted key_le l1 → StronglySorted key_le l2 → l1 ≡ₚ l2 →
  NoDup (key <$> l1) → l1 = l2.
Proof.
  revert l2. induction l1 as [|a l1 IH]; intros l2 S1 S2 P N.
  { by apply Permutation_nil_l in P. }
  destruct l2 as [|b l2]; [by apply Permutation_nil_r in P|].
  inversion S1 as [|?? S1' F1]; inversion S2 as [|?? S2' F2]; subst.
  cbn in N. apply NoDup_cons in N as [Na N].
  assert (a = b) as ->.
  { assert (b ∈ a :: l1) as Hb by (rewrite P; left).
    assert (a ∈ b :: l2) as Ha by (rewrite <- P; left).
    apply elem_of_cons in Hb as [|Hb]; [done|].
    apply elem_of_cons in Ha as [|Ha]; [done|].
    rewrite Forall_forall in F1, F2.
    specialize (F1 b Hb).
    specialize (F2 a Ha).
    unfold key_le in *. destruct Na.
    replace (key a) with (key b) by lia. by apply list_elem_of_fmap_2. }
  f_equal. apply IH; try done. by apply Permutation_cons_inv in P.
Qed.
End SortBy.

(** ** Byte maps under writes: a write at [x.1] that fits in [cs] bytes replaces what it covers. *)
Definition fits (cs : Z) (x : Z * bytes) : bool := negb ((x.1 >? cs) || (zlen x.2 >? cs - x.1)).
Definition write_over {A : Type} (cs : Z) (inj : ascii → A) (x : Z * bytes) (v : Z → A) (k : Z) : A :=
  if fits cs x && (x.1 <=? k) && (k <? x.1 + zlen x.2)
  then match byte_at x.2 (k - x.1) with Some c => inj c | None => v k end else v k.
(** Contents after a sequence of writes. *)
Definition written {A : Type} (cs : Z) (inj : ascii → A) (ws : list (Z * bytes)) (v : Z → A) : Z → A :=
  foldl (λ v x, write_over cs inj x v) v ws.

Lemma written_ext {A : Type} cs (inj : ascii → A) ws (u u' : Z → A) :
  (∀ k, u k = u' k) → ∀ k, written cs inj ws u k = written cs inj ws u' k.
Proof.
  revert u u'. induction ws as [|x ws IH]; intros u u' Hu k; cbn; [done|]. apply IH. intros k'. unfold write_over. by rewrite Hu.
Qed.
Lemma write_over_Some cs x v k : is_Some (v k) → is_Some (write_over cs Some x v k).
Proof. unfold write_over. intros. destruct (_ && _); [|done]. by destruct (byte_at _ _). Qed.
Lemma written_Some cs ws v k : is_Some (v k) → is_Some (written cs Some ws v k).
Proof. revert v. induction ws as [|x ws IH]; intros v Hv; cbn; [done|]. apply IH. by apply write_over_Some. Qed.
(** Writes to the projection are writes to what is seen through it. *)
Lemma written_default cs ws v p k :
  default (p k) (written cs Some ws v k) = written cs id ws (λ k, default (p k) (v k)) k.
Proof.
  revert v. induction ws as [|x ws IH]; intros v; [done|]. unfold written in *. cbn [foldl]. rewrite IH.
  apply (written_ext cs id ws). intros k'. unfold write_over. destruct (_ && _); [|done]. by destruct (byte_at _ _).
Qed.
