(* ===== verification/StdMap.v ===== *)
(** * [std::map] as the code uses it

    An ordered associative container: a list of bindings sorted strictly by key.  An
    iterator into the map is the split of the list at its position, so
    [std::prev(it)] is the last binding of the first half. *)

From S2P Require Import Prelude.

(** The comparison a container is instantiated with ([std::less<K>]). *)
Class KeyOrder (K : Type) := key_ltb : K → K → bool.

Class KeyOrderOk (K : Type) `{KeyOrder K} : Prop := {
  key_ltb_irrefl : ∀ k, key_ltb k k = false;
  key_ltb_trans : ∀ a b c, key_ltb a b = true → key_ltb b c = true → key_ltb a c = true;
  key_ltb_total : ∀ a b, key_ltb a b = false → key_ltb b a = false → a = b;
}.

#[export] Instance Z_key : KeyOrder Z := Z.ltb.
#[export] Instance Z_key_ok : KeyOrderOk Z.
Proof. split; unfold key_ltb, Z_key; intros; zlia. Qed.

(** [std::string] compares its characters as unsigned bytes, shorter prefix first. *)
Fixpoint bytes_ltb (a b : bytes) : bool :=
  match a, b with
  | [], [] => false
  | [], _ :: _ => true
  | _ :: _, [] => false
  | x :: a, y :: b =>
      (Z_of_byte x <? Z_of_byte y) || ((Z_of_byte x =? Z_of_byte y) && bytes_ltb a b)
  end.
#[export] Instance bytes_key : KeyOrder bytes := bytes_ltb.
#[export] Instance bytes_key_ok : KeyOrderOk bytes.
Proof.
  split; unfold key_ltb, bytes_key.
  - induction k as [|x k IH]; cbn; [done|].
    by rewrite Z.ltb_irrefl, Z.eqb_refl, IH.
  - intros a b. revert a. induction b as [|y b IH]; intros [|x a] [|z c]; cbn; try done.
    intros H1 H2. apply orb_true_iff in H1 as [H1|H1], H2 as [H2|H2];
      apply orb_true_iff; inv_result; zify_bools; [left; lia..|right].
    rewrite andb_true_iff, Z.eqb_eq. split; [lia|eauto].
  - induction a as [|x a IH]; intros [|y b]; cbn; try done.
    intros H1 H2. apply orb_false_iff in H1 as [H1 H1'], H2 as [H2 H2']. zify_bools.
    assert (Z_of_byte x = Z_of_byte y) as Hxy by lia. rewrite Hxy, Z.eqb_refl in *.
    rewrite andb_true_l in *. rewrite (IH b) by done. f_equal.
    rewrite <- (byte_of_Z_of_byte x), Hxy. apply byte_of_Z_of_byte.
Qed.

Section StdMap.
Context {K V : Type} `{KeyOrder K} `{!KeyOrderOk K}.
Implicit Types (k : K) (v : V) (m : list (K * V)).

Definition key_eqb (a b : K) : bool := negb (key_ltb a b) && negb (key_ltb b a).

(** ** Operations *)
Fixpoint map_find (k : K) (m : list (K * V)) : option V :=
  match m with
  | [] => None
  | (k', v') :: m => if key_eqb k k' then Some v' else map_find k m
  end.

(** [m.emplace(k, v)] and [try_emplace]: no effect when the key is present. *)
Fixpoint map_emplace (k : K) (v : V) (m : list (K * V)) : list (K * V) :=
  match m with
  | [] => [(k, v)]
  | (k', v') :: m' =>
      if key_ltb k k' then (k, v) :: m
      else if key_ltb k' k then (k', v') :: map_emplace k v m' else m
  end.

(** [m[k] = v]. *)
Fixpoint map_assign (k : K) (v : V) (m : list (K * V)) : list (K * V) :=
  match m with
  | [] => [(k, v)]
  | (k', v') :: m' =>
      if key_ltb k k' then (k, v) :: m
      else if key_ltb k' k then (k', v') :: map_assign k v m' else (k, v) :: m'
  end.

(** [m.erase(k)]. *)
Fixpoint map_erase (k : K) (m : list (K * V)) : list (K * V) :=
  match m with
  | [] => []
  | (k', v') :: m' => if key_eqb k k' then m' else (k', v') :: map_erase k m'
  end.

(** Bindings before and from the first key that is not less than [k]. *)
Fixpoint map_lower_bound (k : K) (m : list (K * V)) : list (K * V) * list (K * V) :=
  match m with
  | [] => ([], [])
  | (k', v') :: m' =>
      if key_ltb k' k then let '(b, a) := map_lower_bound k m' in ((k', v') :: b, a)
      else ([], m)
  end.

(** Bindings before and from the first key greater than [k]. *)
Fixpoint map_upper_bound (k : K) (m : list (K * V)) : list (K * V) * list (K * V) :=
  match m with
  | [] => ([], [])
  | (k', v') :: m' =>
      if key_ltb k k' then ([], m)
      else let '(b, a) := map_upper_bound k m' in ((k', v') :: b, a)
  end.

(** ** The container invariant *)
Definition key_lt (a b : K * V) : Prop := key_ltb a.1 b.1 = true.
Definition map_sorted (m : list (K * V)) : Prop := StronglySorted key_lt m.

Lemma key_eqb_eq a b : key_eqb a b = true ↔ a = b.
Proof.
  unfold key_eqb. split.
  - intros [Ha Hb]%andb_true_iff. apply negb_true_iff in Ha, Hb. by apply key_ltb_total.
  - intros ->. by rewrite key_ltb_irrefl.
Qed.
Lemma key_eqb_neq a b : key_eqb a b = false ↔ a ≠ b.
Proof. rewrite <- not_true_iff_false, key_eqb_eq. done. Qed.
Lemma key_eqb_refl a : key_eqb a a = true.
Proof. by apply key_eqb_eq. Qed.

Lemma key_ltb_neq a b : key_ltb a b = true → a ≠ b.
Proof. intros Hl ->. by rewrite key_ltb_irrefl in Hl. Qed.

(** ** Lemmas *)
Lemma find_before k m : Forall (λ b, key_ltb k b.1 = true) m → map_find k m = None.
Proof.
  induction 1 as [|[k' v'] m Hk _ IH]; cbn in *; [done|].
  rewrite (proj2 (key_eqb_neq k k')); [done|]. by apply key_ltb_neq.
Qed.

Lemma sorted_cons k v m :
  map_sorted ((k, v) :: m) ↔ Forall (λ b, key_ltb k b.1 = true) m ∧ map_sorted m.
Proof. split; [by inversion 1|]. intros [? ?]. by constructor. Qed.

Lemma Forall_ltb_trans k k' m :
  key_ltb k k' = true → Forall (λ b : K * V, key_ltb k' b.1 = true) m →
  Forall (λ b, key_ltb k b.1 = true) m.
Proof. intros ? Hf. eapply Forall_impl; [exact Hf|]. eauto using key_ltb_trans. Qed.

Lemma map_find_assign k v m k' :
  map_sorted m → map_find k' (map_assign k v m) = if key_eqb k' k then Some v else map_find k' m.
Proof.
  induction m as [|[k1 v1] m IH]; cbn; [done|]. intros [Hf Hs]%sorted_cons.
  destruct (key_ltb k k1) eqn:E1; [done|]. destruct (key_ltb k1 k) eqn:E2; cbn.
  - rewrite IH by done. destruct (key_eqb k' k1) eqn:E3, (key_eqb k' k) eqn:E4; try done.
    apply key_eqb_eq in E3, E4. subst. by rewrite key_ltb_irrefl in E2.
  - rewrite (key_ltb_total k k1) by done. by destruct (key_eqb k' k1).
Qed.

Lemma map_assign_Forall (P : K * V → Prop) k v m :
  P (k, v) → Forall P m → Forall P (map_assign k v m).
Proof.
  intros Hk. induction 1 as [|[k1 v1] m Hm Hf IH]; cbn; [by repeat constructor|].
  repeat case_match; repeat constructor; auto.
Qed.

Lemma map_assign_sorted k v m : map_sorted m → map_sorted (map_assign k v m).
Proof.
  induction m as [|[k1 v1] m IH]; cbn; intros Hs; [by repeat constructor|].
  pose proof Hs as [Hf Hs']%sorted_cons.
  destruct (key_ltb k k1) eqn:E1.
  { apply sorted_cons. split; [|done]. constructor; [done|]. by eapply Forall_ltb_trans. }
  destruct (key_ltb k1 k) eqn:E2; apply sorted_cons.
  - split; [|auto]. by apply map_assign_Forall.
  - by rewrite (key_ltb_total k k1) by done.
Qed.

Lemma map_emplace_absent k v m : map_find k m = None → map_emplace k v m = map_assign k v m.
Proof.
  induction m as [|[k1 v1] m IH]; cbn; [done|].
  destruct (key_eqb k k1) eqn:E; [done|]. intros Hn. rewrite IH by done.
  destruct (key_ltb k k1) eqn:E1; [done|]. destruct (key_ltb k1 k) eqn:E2; [done|].
  unfold key_eqb in E. by rewrite E1, E2 in E.
Qed.

Lemma map_erase_Forall (P : K * V → Prop) k m : Forall P m → Forall P (map_erase k m).
Proof.
  induction 1 as [|[k1 v1] m Hm Hf IH]; cbn; [done|]. case_match; [done|]. by constructor.
Qed.

Lemma map_erase_sorted k m : map_sorted m → map_sorted (map_erase k m).
Proof.
  induction m as [|[k1 v1] m IH]; cbn; [done|]. intros [Hf Hs]%sorted_cons.
  case_match; [done|]. apply sorted_cons. split; [by apply map_erase_Forall|auto].
Qed.

Lemma map_find_erase k m k' :
  map_sorted m → map_find k' (map_erase k m) = if key_eqb k' k then None else map_find k' m.
Proof.
  induction m as [|[k1 v1] m IH]; cbn; [by destruct (key_eqb k' k)|].
  intros [Hf Hs]%sorted_cons. destruct (key_eqb k k1) eqn:E.
  - apply key_eqb_eq in E; subst. destruct (key_eqb k' k1) eqn:E'; [|done].
    apply key_eqb_eq in E'; subst. by apply find_before.
  - cbn. rewrite IH by done. destruct (key_eqb k' k1) eqn:E1, (key_eqb k' k) eqn:E2; try done.
    apply key_eqb_eq in E1, E2; subst. by rewrite key_eqb_refl in E.
Qed.

Lemma map_emplace_last k v m :
  Forall (λ b, key_ltb b.1 k = true) m → map_emplace k v m = m ++ [(k, v)].
Proof.
  induction 1 as [|[k1 v1] m Hk Hf IH]; cbn; [done|]. cbn in Hk. rewrite Hk, IH.
  destruct (key_ltb k k1) eqn:E; [|done].
  pose proof (key_ltb_trans _ _ _ E Hk) as F. by rewrite key_ltb_irrefl in F.
Qed.

Lemma map_find_None_Forall k m : Forall (λ b, key_ltb b.1 k = true) m → map_find k m = None.
Proof.
  induction 1 as [|[k1 v1] m Hk Hf IH]; cbn; [done|]. cbn in Hk.
  rewrite (proj2 (key_eqb_neq k k1)); [done|]. intros ->. by rewrite key_ltb_irrefl in Hk.
Qed.

Lemma map_sorted_app_cons m k v m' :
  map_sorted (m ++ (k, v) :: m') → Forall (λ b, key_ltb b.1 k = true) m.
Proof.
  induction m as [|[k1 v1] m IH]; cbn; [constructor|]. intros [Hf Hs]%sorted_cons. constructor; [|auto].
  rewrite Forall_app, Forall_cons in Hf. cbn in *. tauto.
Qed.

Lemma map_assign_zlen k v m : map_find k m = None → zlen (map_assign k v m) = zlen m + 1.
Proof.
  induction m as [|[k1 v1] m IH]; cbn; [done|]. destruct (key_eqb k k1) eqn:E; [done|]. intros Hn.
  destruct (key_ltb k k1) eqn:E1; [rewrite !zlen_cons; lia|].
  destruct (key_ltb k1 k) eqn:E2; [rewrite !zlen_cons, IH by done; lia|].
  unfold key_eqb in E. by rewrite E1, E2 in E.
Qed.

Lemma map_find_Forall (P : K * V → Prop) k v m : Forall P m → map_find k m = Some v → ∃ k', P (k', v).
Proof. induction 1 as [|[k1 v1] m Hm _ IH]; cbn; [done|]. case_match; [intros [= ->]; eauto|done]. Qed.

Lemma map_find_elem k v m : map_find k m = Some v → k ∈ m.*1.
Proof.
  induction m as [|[k1 v1] m IH]; cbn; [done|]. destruct (key_eqb k k1) eqn:E.
  - apply key_eqb_eq in E as ->. by left.
  - intros. right. auto.
Qed.

Lemma map_sorted_NoDup m : map_sorted m → NoDup (m.*1).
Proof.
  induction m as [|[k1 v1] m IH]; cbn; [constructor|]. intros [Hf Hs]%sorted_cons.
  apply NoDup_cons. split; [|auto]. intros ([k v] & Hk & Hin)%list_elem_of_fmap; cbn in Hk; subst.
  rewrite Forall_forall in Hf. specialize (Hf _ Hin). cbn in Hf. by rewrite key_ltb_irrefl in Hf.
Qed.

(** Two maps with the same lookups are the same container. *)
Lemma map_sorted_ext m1 m2 :
  map_sorted m1 → map_sorted m2 → (∀ k, map_find k m1 = map_find k m2) → m1 = m2.
Proof.
  revert m2. induction m1 as [|[k1 v1] m1 IH]; intros [|[k2 v2] m2] S1 S2 E; [done|..].
  - specialize (E k2). cbn in E. by rewrite key_eqb_refl in E.
  - specialize (E k1). cbn in E. by rewrite key_eqb_refl in E.
  - apply sorted_cons in S1 as [F1 S1], S2 as [F2 S2].
    assert (k1 = k2) as ->.
    { destruct (key_ltb k1 k2) eqn:L1; [|destruct (key_ltb k2 k1) eqn:L2].
      - specialize (E k1). cbn in E. rewrite key_eqb_refl in E.
        rewrite (proj2 (key_eqb_neq k1 k2)) in E by by apply key_ltb_neq.
        by rewrite find_before in E by by eapply Forall_ltb_trans.
      - specialize (E k2). cbn in E. rewrite key_eqb_refl in E.
        rewrite (proj2 (key_eqb_neq k2 k1)) in E by by apply key_ltb_neq.
        by rewrite find_before in E by by eapply Forall_ltb_trans.
      - by apply key_ltb_total. }
    pose proof (E k2) as Ev. cbn in Ev. rewrite !key_eqb_refl in Ev. simplify_eq.
    f_equal. apply IH; try done. intros k. specialize (E k). cbn in E.
    destruct (key_eqb k k2) eqn:Ek; [|done]. apply key_eqb_eq in Ek; subst.
    by rewrite !find_before.
Qed.

(** Iterators split the map. *)
Lemma map_lower_bound_spec k m b a :
  map_sorted m → map_lower_bound k m = (b, a) →
  m = b ++ a ∧ Forall (λ p, key_ltb p.1 k = true) b ∧ Forall (λ p, key_ltb p.1 k = false) a.
Proof.
  revert b a. induction m as [|[k1 v1] m IH]; cbn; intros b a Hs Hb; [by simplify_eq|].
  apply sorted_cons in Hs as [Hf Hs]. destruct (key_ltb k1 k) eqn:E.
  - destruct (map_lower_bound k m) as [b' a'] eqn:Hm. simplify_eq.
    destruct (IH b' a) as (-> & ? & ?); [done..|]. split; [done|]. by split; [constructor|].
  - simplify_eq. split; [done|]. split; [done|]. constructor; [done|].
    eapply Forall_impl; [exact Hf|]. intros [k2 v2]; cbn. intros Hk.
    apply not_true_is_false. intros Hk2. rewrite (key_ltb_trans _ _ _ Hk Hk2) in E. done.
Qed.

Lemma map_upper_bound_spec k m b a :
  map_sorted m → map_upper_bound k m = (b, a) →
  m = b ++ a ∧ Forall (λ p, key_ltb k p.1 = false) b ∧ Forall (λ p, key_ltb k p.1 = true) a.
Proof.
  revert b a. induction m as [|[k1 v1] m IH]; cbn; intros b a Hs Hb; [by simplify_eq|].
  apply sorted_cons in Hs as [Hf Hs]. destruct (key_ltb k k1) eqn:E.
  - simplify_eq. split; [done|]. split; [done|]. constructor; [done|].
    by eapply Forall_ltb_trans.
  - destruct (map_upper_bound k m) as [b' a'] eqn:Hm. simplify_eq.
    destruct (IH b' a) as (-> & ? & ?); [done..|]. split; [done|]. by split; [constructor|].
Qed.
End StdMap.

(** On integer keys, inserting between a smaller and a larger part of the map. *)
Lemma map_emplace_middle {V} (k : Z) (v : V) b a :
  Forall (λ p : Z * V, p.1 < k) b → Forall (λ p : Z * V, k < p.1) a →
  map_emplace k v (b ++ a) = b ++ (k, v) :: a.
Proof.
  induction 1 as [|[k1 v1] b Hk Hb IH]; intros Ha; cbn in *.
  - destruct a as [|[k2 v2] a]; [done|]. inversion Ha; subst; cbn in *.
    unfold key_ltb, Z_key. by destruct (Z.ltb_spec k k2); [|lia].
  - unfold key_ltb, Z_key in *. destruct (Z.ltb_spec k k1), (Z.ltb_spec k1 k); try lia.
    by rewrite IH.
Qed.

Lemma map_erase_middle {V} (k : Z) (v : V) b a :
  Forall (λ p : Z * V, p.1 < k) b → map_erase k (b ++ (k, v) :: a) = b ++ a.
Proof.
  induction 1 as [|[k1 v1] b Hk Hb IH]; cbn in *.
  - by rewrite key_eqb_refl.
  - rewrite (proj2 (key_eqb_neq k k1)) by lia. by rewrite IH.
Qed.

Lemma map_lower_bound_middle {V} (k : Z) (b a : list (Z * V)) :
  Forall (λ p : Z * V, p.1 < k) b → Forall (λ p : Z * V, k ≤ p.1) a →
  map_lower_bound k (b ++ a) = (b, a).
Proof.
  induction 1 as [|[k1 v1] b Hk Hb IH]; intros Ha; cbn in *.
  - destruct a as [|[k2 v2] a]; [done|]. inversion Ha; subst; cbn in *.
    unfold key_ltb, Z_key. by destruct (Z.ltb_spec k2 k); [lia|].
  - unfold key_ltb, Z_key in *. destruct (Z.ltb_spec k1 k); [|lia]. by rewrite IH.
Qed.
