(* ===== verification/ChunkGeometry.v ===== *)
(** * Chunk geometry and EOF planning

    The arithmetic that maps file offsets to chunks (src/src/metadata/types/Chunk.cpp)
    and the classification of a size change against the attached chunk mappings
    (src/src/metadata/ChunkSizePlan.cpp).  Null output pointers are not modelled: an
    output parameter is the value of the result.  All quantities are 64-bit unsigned
    unless said otherwise, and the products and sums are written with their wrap. *)

From S2P Require Import Prelude.

Definition kMaxSupportedFileSize : Z := INT64_MAX.
Definition kMaxChunkIDValue : Z := INT64_MAX.
Definition kInvalidChunkID : Z := 0.

(** ** Types (types/Chunk.hpp, ChunkSizePlan.hpp).  A [ChunkID] is its 64-bit value. *)
Record ChunkPosition := mkChunkPosition {
  cp_index : Z;
  cp_start_offset : Z;
  cp_offset_in_chunk : Z;
}.

Record ChunkSizeBoundary := mkChunkSizeBoundary {
  csb_index : Z;
  csb_visible_prefix : Z;
}.

Record ChunkSizeLayout := mkChunkSizeLayout {
  first_detached_index : Z;
  layout_boundary : option ChunkSizeBoundary;
}.

Record ChunkMapping := mkChunkMapping {
  cm_index : Z;
  cm_chunk_id : Z;
}.

Record ChunkBoundarySnapshot := mkChunkBoundarySnapshot {
  cbs_index : Z;
  cbs_chunk_id : option Z;
  cbs_visible_prefix : Z;
}.

Record RetainedChunkBoundary := mkRetainedChunkBoundary {
  rcb_index : Z;
  rcb_chunk_id : Z;
  rcb_visible_prefix : Z;
}.

Record FileSizePrecondition := mkFileSizePrecondition {
  fsp_eof : Z;
  fsp_boundary : option ChunkBoundarySnapshot;
}.

Record ChunkSizePlan := mkChunkSizePlan {
  target_eof : Z;
  expected_old_state : FileSizePrecondition;
  plan_boundary : option RetainedChunkBoundary;
  detached_chunk_ids : list Z;
}.

#[export] Instance ChunkBoundarySnapshot_eq_dec : EqDecision ChunkBoundarySnapshot.
Proof. solve_decision. Defined.

(** ** Offsets (types/Chunk.cpp) *)

Definition CalculateChunkPosition (file_offset chunk_size : Z) : result ChunkPosition :=
  if (file_offset <? 0) || (chunk_size =? 0) then Err InvalidArgument else
  let offset := u64 file_offset in
  let index := offset / chunk_size in
  let start_offset := u64 (index * chunk_size) in
  Ok (mkChunkPosition index start_offset (u64 (offset - start_offset))).

Definition CalculateFileRangeEnd (file_offset length : Z) : result Z :=
  if file_offset <? 0 then Err InvalidArgument else
  let start := u64 file_offset in
  if length >? u64 (kMaxSupportedFileSize - start) then Err InvalidArgument else
  Ok (u64 (start + length)).

Definition CalculateChunkStartOffset (index chunk_size : Z) : result Z :=
  if chunk_size =? 0 then Err InvalidArgument else
  if negb (index =? 0) && (chunk_size >? kMaxSupportedFileSize / index)
  then Err InvalidArgument
  else Ok (u64 (index * chunk_size)).

(** ** Size planning (ChunkSizePlan.cpp) *)

Definition ShouldDetach (layout : ChunkSizeLayout) (index : Z) : bool :=
  index >=? first_detached_index layout.

Definition IsValidChunkID (chunk_id : Z) : bool :=
  negb (chunk_id =? kInvalidChunkID) && (chunk_id <=? kMaxChunkIDValue).

Definition PlanChunkSizeLayout (eof chunk_size : Z) : result ChunkSizeLayout :=
  if (chunk_size =? 0) || (eof >? kMaxSupportedFileSize) then Err InvalidArgument else
  let visible_prefix := eof mod chunk_size in
  let boundary_index := eof / chunk_size in
  Ok (mkChunkSizeLayout
        (u64 (boundary_index + (if visible_prefix =? 0 then 0 else 1)))
        (if visible_prefix =? 0 then None
         else Some (mkChunkSizeBoundary boundary_index visible_prefix))).

(** The validation loop over the sorted mappings; [prev] is [sorted[i - 1]]. *)
Fixpoint CheckMappings (chunk_size : Z) (prev : option ChunkMapping)
    (sorted : list ChunkMapping) : Status :=
  match sorted with
  | [] => OK
  | mapping :: rest =>
      if negb (IsValidChunkID (cm_chunk_id mapping)) then InvalidArgument else
      match CalculateChunkStartOffset (cm_index mapping) chunk_size with
      | Err s => s
      | Ok _ =>
          if match prev with Some p => cm_index p =? cm_index mapping | None => false end
          then Malformed
          else CheckMappings chunk_size (Some mapping) rest
      end
  end.

Definition NormalizeMappings (chunk_size : Z) (mappings : list ChunkMapping)
    : result (list ChunkMapping) :=
  let sorted := sort_by cm_index mappings in
  _ ← check (CheckMappings chunk_size None sorted); Ok sorted.

(** [std::lower_bound] on a range sorted by index. *)
Fixpoint LowerBound (mappings : list ChunkMapping) (index : Z) : list ChunkMapping :=
  match mappings with
  | [] => []
  | m :: rest => if cm_index m <? index then LowerBound rest index else mappings
  end.

Definition FindChunkID (mappings : list ChunkMapping) (index : Z) : option Z :=
  match LowerBound mappings index with
  | [] => None
  | it :: _ => if cm_index it =? index then Some (cm_chunk_id it) else None
  end.

Definition MakeBoundarySnapshot (boundary : option ChunkSizeBoundary)
    (mappings : list ChunkMapping) : option ChunkBoundarySnapshot :=
  match boundary with
  | None => None
  | Some b => Some (mkChunkBoundarySnapshot (csb_index b) (FindChunkID mappings (csb_index b))
                      (csb_visible_prefix b))
  end.

Definition MakeRetainedBoundary (boundary : option ChunkSizeBoundary)
    (mappings : list ChunkMapping) : option RetainedChunkBoundary :=
  match MakeBoundarySnapshot boundary mappings with
  | Some (mkChunkBoundarySnapshot i (Some id) p) => Some (mkRetainedChunkBoundary i id p)
  | _ => None
  end.

Definition ValidateFileChunkWrite (index chunk_id end_ chunk_size : Z) : Status :=
  if negb (IsValidChunkID chunk_id) || (chunk_size =? 0) || (end_ >? kMaxSupportedFileSize)
  then InvalidArgument else
  match CalculateChunkStartOffset index chunk_size with
  | Err _ => InvalidArgument
  | Ok start_offset =>
      if (end_ <=? start_offset) || (u64 (end_ - start_offset) >? chunk_size)
      then InvalidArgument else OK
  end.

Definition ValidateFileSizePrecondition (expected : FileSizePrecondition) (chunk_size : Z)
    : Status :=
  match PlanChunkSizeLayout (fsp_eof expected) chunk_size with
  | Err s => s
  | Ok layout =>
      match layout_boundary layout, fsp_boundary expected with
      | None, None => OK
      | Some lb, Some b =>
          if negb (cbs_index b =? csb_index lb)
             || negb (cbs_visible_prefix b =? csb_visible_prefix lb)
             || match cbs_chunk_id b with Some id => negb (IsValidChunkID id) | None => false end
          then InvalidArgument else OK
      | _, _ => InvalidArgument
      end
  end.

Definition PlanChunkSizeChange (old_size new_size chunk_size : Z)
    (mappings : list ChunkMapping) : result ChunkSizePlan :=
  if (chunk_size =? 0) || (old_size >? kMaxSupportedFileSize)
     || (new_size >? kMaxSupportedFileSize) then Err InvalidArgument else
  sorted ← NormalizeMappings chunk_size mappings;
  old_layout ← PlanChunkSizeLayout old_size chunk_size;
  let old_state := mkFileSizePrecondition old_size
                     (MakeBoundarySnapshot (layout_boundary old_layout) sorted) in
  if new_size <? old_size then
    new_layout ← PlanChunkSizeLayout new_size chunk_size;
    Ok (mkChunkSizePlan new_size old_state
          (MakeRetainedBoundary (layout_boundary new_layout) sorted)
          (cm_chunk_id <$> List.filter (λ m, ShouldDetach new_layout (cm_index m)) sorted))
  else if new_size >? old_size then
    Ok (mkChunkSizePlan new_size old_state
          (MakeRetainedBoundary (layout_boundary old_layout) sorted) [])
  else Ok (mkChunkSizePlan new_size old_state None []).

(** On the last failure ([AlreadyExists], boundary) [*current] has been written; every
    caller drops it, so the model returns no plan. *)
Definition ValidateSizeCommitPlan (requested : ChunkSizePlan) (actual_eof chunk_size : Z)
    (mappings : list ChunkMapping) (is_shrink : bool) : result ChunkSizePlan :=
  if (if is_shrink then target_eof requested >=? fsp_eof (expected_old_state requested)
      else target_eof requested <=? fsp_eof (expected_old_state requested))
  then Err InvalidArgument else
  _ ← check (ValidateFileSizePrecondition (expected_old_state requested) chunk_size);
  if negb (actual_eof =? fsp_eof (expected_old_state requested)) then Err AlreadyExists else
  current ← PlanChunkSizeChange actual_eof (target_eof requested) chunk_size mappings;
  if bool_decide (fsp_boundary (expected_old_state requested) =
                  fsp_boundary (expected_old_state current))
  then Ok current else Err AlreadyExists.

(** ** Offset arithmetic: exactness and bounds *)

Lemma kMax_bounds : 0 < kMaxSupportedFileSize ∧ kMaxSupportedFileSize < 2 ^ 63.
Proof. by vm_compute. Qed.

Lemma u64_id z : 0 ≤ z < 2 ^ 64 → u64 z = z.
Proof. intros. apply wrap_id; [lia|done]. Qed.

(** C14: for every non-negative 64-bit file offset and non-zero chunk size,
    [CalculateChunkPosition] succeeds without wrap-around, the chunk contains the
    offset, and the chunk start it reports is the one [CalculateChunkStartOffset]
    computes for the index (the two directions of the layout agree). *)
Theorem CalculateChunkPosition_exact off cs :
  0 ≤ off ≤ INT64_MAX → 0 < cs < 2 ^ 64 →
  ∃ p, CalculateChunkPosition off cs = Ok p ∧
    cp_start_offset p = cp_index p * cs ∧
    cp_start_offset p + cp_offset_in_chunk p = off ∧
    0 ≤ cp_offset_in_chunk p < cs ∧
    CalculateChunkStartOffset (cp_index p) cs = Ok (cp_start_offset p).
Proof.
  intros Ho Hc. unfold INT64_MAX in Ho. unfold CalculateChunkPosition.
  destruct (Z.ltb_spec off 0), (Z.eqb_spec cs 0); try lia. cbn.
  rewrite (u64_id off) by lia.
  pose proof (Z.div_mod off cs ltac:(lia)). pose proof (Z.mod_pos_bound off cs ltac:(lia)).
  pose proof (Z.div_pos off cs ltac:(lia) ltac:(lia)).
  assert (off / cs * cs ≤ off) by nia.
  eexists; split; [done|]; cbn.
  rewrite !(u64_id (off / cs * cs)) by lia. rewrite u64_id by lia.
  split_and!; [done|lia|lia|lia|].
  unfold CalculateChunkStartOffset. destruct (Z.eqb_spec cs 0); [lia|].
  destruct (Z.eqb_spec (off / cs) 0) as [->|]; cbn; [done|].
  rewrite Z.gtb_ltb. destruct (Z.ltb_spec (kMaxSupportedFileSize / (off / cs)) cs) as [Hlt|].
  - exfalso. assert (cs ≤ kMaxSupportedFileSize / (off / cs)); [|lia].
    apply Z.div_le_lower_bound; [lia|]. unfold kMaxSupportedFileSize, INT64_MAX. nia.
  - by rewrite u64_id by lia.
Qed.

Lemma CalculateChunkPosition_exact_witness :
  ∃ p, CalculateChunkPosition 200000000 67108864 = Ok p ∧
    cp_start_offset p = cp_index p * 67108864 ∧
    cp_start_offset p + cp_offset_in_chunk p = 200000000 ∧
    0 ≤ cp_offset_in_chunk p < 67108864 ∧
    CalculateChunkStartOffset (cp_index p) 67108864 = Ok (cp_start_offset p).
Proof. apply (CalculateChunkPosition_exact 200000000 67108864); unfold INT64_MAX; lia. Defined.

(** [CalculateChunkStartOffset] succeeds exactly when the true product is
    representable as a file offset, and then it is the true product. *)
Lemma CalculateChunkStartOffset_spec i cs :
  0 ≤ i → 0 < cs →
  CalculateChunkStartOffset i cs =
    if i * cs <=? kMaxSupportedFileSize then Ok (i * cs) else Err InvalidArgument.
Proof.
  intros Hi Hc. unfold CalculateChunkStartOffset. pose proof kMax_bounds as [? ?].
  destruct (Z.eqb_spec cs 0); [lia|].
  destruct (Z.eqb_spec i 0) as [->|]; cbn [negb andb].
  { destruct (Z.leb_spec (0 * cs) kMaxSupportedFileSize); [by rewrite u64_id by lia|lia]. }
  rewrite Z.gtb_ltb. destruct (Z.ltb_spec (kMaxSupportedFileSize / i) cs) as [Hlt|Hge];
    destruct (Z.leb_spec (i * cs) kMaxSupportedFileSize) as [Hle|Hgt]; try done.
  - exfalso. assert (cs ≤ kMaxSupportedFileSize / i) by (apply Z.div_le_lower_bound; lia). lia.
  - by rewrite u64_id by lia.
  - exfalso. pose proof (Z.mul_div_le kMaxSupportedFileSize i ltac:(lia)). nia.
Qed.

Lemma CalculateChunkStartOffset_Ok i cs s :
  0 ≤ i → 0 < cs → CalculateChunkStartOffset i cs = Ok s →
  s = i * cs ∧ i * cs ≤ kMaxSupportedFileSize.
Proof.
  intros ?? H. rewrite CalculateChunkStartOffset_spec in H by done.
  destruct (Z.leb_spec (i * cs) kMaxSupportedFileSize); by simplify_eq.
Qed.

(** [CalculateFileRangeEnd] is total on non-negative offsets: it returns the exact
    end when that is a supported file size and [InvalidArgument] otherwise; no
    wrapped value ever escapes. *)
Theorem CalculateFileRangeEnd_exact off len :
  0 ≤ off ≤ INT64_MAX → 0 ≤ len < 2 ^ 64 →
  CalculateFileRangeEnd off len =
    if off + len <=? kMaxSupportedFileSize then Ok (off + len) else Err InvalidArgument.
Proof.
  intros Ho Hl. unfold CalculateFileRangeEnd, kMaxSupportedFileSize, INT64_MAX in *.
  destruct (Z.ltb_spec off 0); [lia|].
  rewrite !(u64_id off), (u64_id (_ - off)), Z.gtb_ltb by lia.
  destruct (Z.ltb_spec (9223372036854775807 - off) len),
           (Z.leb_spec (off + len) 9223372036854775807); try lia; [done|].
  by rewrite u64_id by lia.
Qed.

Lemma CalculateFileRangeEnd_exact_witness :
  CalculateFileRangeEnd 9223372036854775800 7 = Ok 9223372036854775807 ∧
  CalculateFileRangeEnd 9223372036854775800 8 = Err InvalidArgument.
Proof.
  split.
  - rewrite (CalculateFileRangeEnd_exact 9223372036854775800 7); unfold INT64_MAX; [reflexivity|lia|lia].
  - rewrite (CalculateFileRangeEnd_exact 9223372036854775800 8); unfold INT64_MAX; [reflexivity|lia|lia].
Defined.

(** ** EOF layouts *)

Lemma PlanChunkSizeLayout_Ok eof cs l :
  0 ≤ eof → 0 < cs →
  PlanChunkSizeLayout eof cs = Ok l →
  eof ≤ kMaxSupportedFileSize ∧
  first_detached_index l = eof / cs + (if eof mod cs =? 0 then 0 else 1) ∧
  layout_boundary l =
    if eof mod cs =? 0 then None else Some (mkChunkSizeBoundary (eof / cs) (eof mod cs)).
Proof.
  intros He Hc H. unfold PlanChunkSizeLayout in H. pose proof kMax_bounds as [? ?].
  destruct (Z.eqb_spec cs 0); [lia|]. cbn in H. rewrite Z.gtb_ltb in H.
  destruct (Z.ltb_spec kMaxSupportedFileSize eof); simplify_eq/=.
  split; [done|]. split; [|done]. apply u64_id.
  pose proof (Z.div_pos eof cs ltac:(lia) ltac:(lia)).
  assert (eof / cs ≤ eof) by (apply Z.div_le_upper_bound; nia).
  destruct (_ =? 0); lia.
Qed.

Lemma layout_spec eof cs l :
  0 ≤ eof → 0 < cs < 2 ^ 64 → PlanChunkSizeLayout eof cs = Ok l →
  (∀ i, 0 ≤ i → ShouldDetach l i = true ↔ eof ≤ i * cs) ∧
  match layout_boundary l with
  | None => eof mod cs = 0
  | Some b => csb_index b * cs + csb_visible_prefix b = eof ∧ 0 < csb_visible_prefix b < cs
              ∧ ShouldDetach l (csb_index b) = false
  end.
Proof.
  intros He Hc H. apply PlanChunkSizeLayout_Ok in H as (_ & Hf & Hb); [|lia..].
  pose proof (Z.div_mod eof cs ltac:(lia)) as Hdm.
  pose proof (Z.mod_pos_bound eof cs ltac:(lia)) as Hm.
  assert (∀ i, 0 ≤ i → ShouldDetach l i = true ↔ eof ≤ i * cs) as Hd.
  { intros i Hi. unfold ShouldDetach. rewrite Hf, Z.geb_leb, Z.leb_le.
    destruct (Z.eqb_spec (eof mod cs) 0); nia. }
  split; [done|]. rewrite Hb. destruct (Z.eqb_spec (eof mod cs) 0); cbn; [done|].
  split_and!; [lia|lia|lia|]. apply not_true_is_false. rewrite Hd by (apply Z.div_pos; lia). nia.
Qed.

(** a layout detaches exactly the chunks that start at or after the target EOF, and
    its boundary is present exactly for an interior EOF, naming the chunk that holds
    the last byte and how many of its bytes stay visible. *)
Theorem PlanChunkSizeLayout_classifies eof cs l :
  0 ≤ eof → 0 < cs < 2 ^ 64 → PlanChunkSizeLayout eof cs = Ok l →
  (∀ i, 0 ≤ i → ShouldDetach l i = true ↔ eof ≤ i * cs) ∧
  match layout_boundary l with
  | None => eof mod cs = 0
  | Some b => csb_index b * cs + csb_visible_prefix b = eof ∧ 0 < csb_visible_prefix b < cs
              ∧ ShouldDetach l (csb_index b) = false
  end.
Proof. apply layout_spec. Qed.

Lemma PlanChunkSizeLayout_classifies_witness :
  ShouldDetach (mkChunkSizeLayout 3 (Some (mkChunkSizeBoundary 2 5))) 3 = true ↔ 25 ≤ 3 * 10.
Proof.
  destruct (PlanChunkSizeLayout_classifies 25 10
    (mkChunkSizeLayout 3 (Some (mkChunkSizeBoundary 2 5)))) as [H _];
    [lia|lia|reflexivity|]. apply H. lia.
Defined.

(** ** Mappings *)

Definition mapping_lt (a b : ChunkMapping) : Prop := cm_index a < cm_index b.

(** What a mapping must satisfy to be attached. *)
Definition mapping_ok (cs : Z) (m : ChunkMapping) : Prop :=
  IsValidChunkID (cm_chunk_id m) = true ∧ is_Some (match CalculateChunkStartOffset (cm_index m) cs with
                                                  | Ok s => Some s | Err _ => None end).

Lemma CalculateChunkStartOffset_Err i cs s :
  CalculateChunkStartOffset i cs = Err s → s = InvalidArgument.
Proof. unfold CalculateChunkStartOffset. repeat case_match; by intros; simplify_eq. Qed.

Lemma CheckMappings_OK cs prev l :
  StronglySorted (key_le cm_index) (from_option (λ p, [p]) [] prev ++ l) →
  CheckMappings cs prev l = OK →
  Forall (mapping_ok cs) l ∧ StronglySorted mapping_lt (from_option (λ p, [p]) [] prev ++ l).
Proof.
  revert prev. induction l as [|m l IH]; intros prev Hs Hc; cbn in Hc.
  { destruct prev; cbn; repeat constructor. }
  destruct (IsValidChunkID (cm_chunk_id m)) eqn:Hv; [|done]; cbn in Hc.
  destruct (CalculateChunkStartOffset _ _) as [s|] eqn:Ho;
    [|apply CalculateChunkStartOffset_Err in Ho; congruence].
  assert (StronglySorted (key_le cm_index) (m :: l)) as Hs'.
  { destruct prev; [by inversion Hs|done]. }
  destruct prev as [p|]; cbn in *.
  - destruct (Z.eqb_spec (cm_index p) (cm_index m)); [done|].
    destruct (IH (Some m) Hs' Hc) as [Hf Hl]; cbn in Hl.
    split; [constructor; [split; [done|by rewrite Ho]|done]|].
    constructor; [done|]. inversion Hs as [|?? _ Hall]; subst.
    inversion Hl as [|?? _ Hml]; subst. inversion Hall as [|?? Hpm Hpl]; subst.
    constructor; [unfold mapping_lt, key_le in *; lia|].
    eapply Forall_impl; [exact Hml|]. intros x. unfold mapping_lt, key_le in *. lia.
  - destruct (IH (Some m) Hs' Hc) as [Hf Hl]; cbn in Hl.
    split; [constructor; [split; [done|by rewrite Ho]|done]|done].
Qed.

Lemma NormalizeMappings_Ok cs ms sorted :
  NormalizeMappings cs ms = Ok sorted →
  sorted ≡ₚ ms ∧ Forall (mapping_ok cs) sorted ∧ StronglySorted mapping_lt sorted.
Proof.
  unfold NormalizeMappings. intros H. inv_result. subst.
  destruct (CheckMappings_OK cs None (sort_by cm_index ms)) as [Hf Hl]; try done.
  - apply sort_by_StronglySorted.
  - split; [apply sort_by_Permutation|done].
Qed.

Lemma FindChunkID_Some ms i id :
  StronglySorted mapping_lt ms →
  FindChunkID ms i = Some id ↔ mkChunkMapping i id ∈ ms.
Proof.
  unfold FindChunkID. induction ms as [|m ms IH]; intros Hs; cbn.
  { split; [done|]. intros H. by apply elem_of_nil in H. }
  inversion Hs as [|?? Hs' Hall]; subst. rewrite Forall_forall in Hall.
  destruct (Z.ltb_spec (cm_index m) i).
  - rewrite IH by done. rewrite elem_of_cons. split; [by right|].
    intros [<-|?]; [cbn in *; lia|done].
  - destruct m as [mi mid]; cbn in *. destruct (Z.eqb_spec mi i).
    + subst. rewrite elem_of_cons. split; intros Heq; simplify_eq; [by left|].
      destruct Heq as [Heq|Hin]; [by simplify_eq|].
      apply Hall in Hin. unfold mapping_lt in Hin. cbn in Hin. lia.
    + split; [done|]. rewrite elem_of_cons. intros [Heq|Hin]; [by simplify_eq|].
      apply Hall in Hin. unfold mapping_lt in Hin; cbn in Hin. lia.
Qed.

(** ** Plans *)

Lemma PlanChunkSizeChange_inv old new cs ms plan :
  PlanChunkSizeChange old new cs ms = Ok plan →
  ∃ sorted ol, cs ≠ 0 ∧ old ≤ kMaxSupportedFileSize ∧ new ≤ kMaxSupportedFileSize ∧
    NormalizeMappings cs ms = Ok sorted ∧ PlanChunkSizeLayout old cs = Ok ol ∧
    target_eof plan = new ∧
    expected_old_state plan = mkFileSizePrecondition old (MakeBoundarySnapshot (layout_boundary ol) sorted) ∧
    (old < new → plan_boundary plan = MakeRetainedBoundary (layout_boundary ol) sorted) ∧
    (old ≤ new → detached_chunk_ids plan = []) ∧
    (new < old → ∃ nl, PlanChunkSizeLayout new cs = Ok nl ∧
       plan_boundary plan = MakeRetainedBoundary (layout_boundary nl) sorted ∧
       detached_chunk_ids plan =
         cm_chunk_id <$> List.filter (λ m, ShouldDetach nl (cm_index m)) sorted).
Proof.
  unfold PlanChunkSizeChange. intros H.
  destruct (_ || _ || _) eqn:Hg; [done|]. inv_result. zify_bools.
  rename a into sorted, a0 into ol. exists sorted, ol.
  destruct (Z.ltb_spec new old).
  - inv_result. subst. cbn. split_and!; try done; try lia. intros _. eauto.
  - rewrite Z.gtb_ltb in H. destruct (Z.ltb_spec old new); inv_result; subst; cbn;
      split_and!; try done; try lia.
Qed.

Lemma MakeRetainedBoundary_Some b ms r :
  StronglySorted mapping_lt ms →
  MakeRetainedBoundary b ms = Some r ↔
    b = Some (mkChunkSizeBoundary (rcb_index r) (rcb_visible_prefix r)) ∧
    mkChunkMapping (rcb_index r) (rcb_chunk_id r) ∈ ms.
Proof.
  intros Hs. unfold MakeRetainedBoundary, MakeBoundarySnapshot.
  destruct b as [[bi bp]|]; cbn; [|split; [done|by intros [? _]]].
  destruct (FindChunkID ms bi) as [id|] eqn:Hf; split.
  - intros ?; simplify_eq/=. split; [done|]. by apply FindChunkID_Some.
  - intros [? Hin]. destruct r as [ri rid rp]; simplify_eq/=.
    apply FindChunkID_Some in Hin; [|done]. by simplify_eq.
  - done.
  - intros [? Hin]. destruct r as [ri rid rp]; simplify_eq/=.
    apply FindChunkID_Some in Hin; [|done]. by simplify_eq.
Qed.

(** The attached chunk holding an interior EOF: its index, the id attached there and
    the bytes of it that stay visible. *)
Definition eof_attachment (eof cs : Z) (ms : list ChunkMapping) (r : RetainedChunkBoundary) : Prop :=
  mkChunkMapping (rcb_index r) (rcb_chunk_id r) ∈ ms ∧
  rcb_index r * cs + rcb_visible_prefix r = eof ∧ 0 < rcb_visible_prefix r < cs.

Lemma retained_eof_attachment eof cs l ms sorted r :
  0 ≤ eof → 0 < cs < 2 ^ 64 → PlanChunkSizeLayout eof cs = Ok l →
  sorted ≡ₚ ms → StronglySorted mapping_lt sorted →
  MakeRetainedBoundary (layout_boundary l) sorted = Some r ↔ eof_attachment eof cs ms r.
Proof.
  intros He Hc Hl Hp Hs. rewrite MakeRetainedBoundary_Some by done. unfold eof_attachment.
  rewrite Hp. apply PlanChunkSizeLayout_Ok in Hl as (_ & _ & ->); [|lia..].
  pose proof (Z.div_mod eof cs ltac:(lia)). pose proof (Z.mod_pos_bound eof cs ltac:(lia)).
  destruct (Z.eqb_spec (eof mod cs) 0) as [Hz|Hz].
  - split; [by intros [? _]|]. intros (_ & Heq & ?). exfalso. rewrite <- Heq in Hz.
    rewrite Z.add_comm, Z_mod_plus_full, Z.mod_small in Hz; lia.
  - destruct r as [ri rid rp]; cbn. split.
    + intros [? ?]; simplify_eq. split_and!; try done; lia.
    + intros (? & Heq & ?). split; [|done]. do 2 f_equal.
      * symmetry. apply Z.div_unique_pos with rp; lia.
      * symmetry. apply Z.mod_unique_pos with ri; lia.
Qed.

Lemma shrink_spec old new cs ms plan :
  0 < cs < 2 ^ 64 → 0 ≤ new < old → Forall (λ m, 0 ≤ cm_index m) ms →
  PlanChunkSizeChange old new cs ms = Ok plan →
  detached_chunk_ids plan ≡ₚ cm_chunk_id <$> List.filter (λ m, new <=? cm_index m * cs) ms ∧
  ∀ r, plan_boundary plan = Some r ↔ eof_attachment new cs ms r.
Proof.
  intros Hc Hn Hm H.
  apply PlanChunkSizeChange_inv in H as (s & ol & _ & _ & _ & Hnm & _ & _ & _ & _ & _ & Hsh).
  destruct (Hsh ltac:(lia)) as (nl & Hnl & -> & ->).
  apply NormalizeMappings_Ok in Hnm as (Hp & _ & Hs). split.
  - assert (List.filter (λ m, ShouldDetach nl (cm_index m)) s
            = List.filter (λ m, new <=? cm_index m * cs) s) as ->.
    { apply filter_ext_in. intros m Hin. apply eq_true_iff_eq.
      destruct (layout_spec new cs nl) as [Hd _]; [lia|lia|done|].
      rewrite Z.leb_le. apply Hd. rewrite Forall_forall in Hm. apply Hm.
      rewrite <- Hp. by apply list_elem_of_In. }
    apply fmap_Permutation. clear -Hp.
    induction Hp; cbn; repeat case_match; eauto using Permutation.
  - intros r. apply (retained_eof_attachment new cs nl ms s r); [lia|lia|done..].
Qed.

(** shrinking.  The plan detaches exactly the attachments that start at or beyond
    the new EOF (as a multiset, whatever order the snapshot lists them in), keeps
    every other one, and retains for clamping precisely the attached chunk that holds
    an interior new EOF. *)
Theorem PlanChunkSizeChange_shrink old new cs ms plan :
  0 < cs < 2 ^ 64 → 0 ≤ new < old → Forall (λ m, 0 ≤ cm_index m) ms →
  PlanChunkSizeChange old new cs ms = Ok plan →
  detached_chunk_ids plan ≡ₚ cm_chunk_id <$> List.filter (λ m, new <=? cm_index m * cs) ms ∧
  ∀ r, plan_boundary plan = Some r ↔ eof_attachment new cs ms r.
Proof. apply shrink_spec. Qed.

Lemma PlanChunkSizeChange_shrink_witness :
  let ms := [mkChunkMapping 3 13; mkChunkMapping 0 10; mkChunkMapping 2 12] in
  PlanChunkSizeChange 40 25 10 ms =
    Ok (mkChunkSizePlan 25 (mkFileSizePrecondition 40 None)
          (Some (mkRetainedChunkBoundary 2 12 5)) [13]) ∧
  [13] ≡ₚ cm_chunk_id <$> List.filter (λ m, 25 <=? cm_index m * 10) ms.
Proof.
  cbn zeta. split; [vm_compute; reflexivity|].
  apply (PlanChunkSizeChange_shrink 40 25 10
    [mkChunkMapping 3 13; mkChunkMapping 0 10; mkChunkMapping 2 12]
    (mkChunkSizePlan 25 (mkFileSizePrecondition 40 None)
          (Some (mkRetainedChunkBoundary 2 12 5)) [13])); [lia|lia| |vm_compute; reflexivity].
  repeat constructor; cbn; lia.
Defined.

(** growing.  No attachment is detached; the retained boundary, to be sanitised
    before the larger EOF becomes visible, is precisely the attached chunk that holds
    the old interior EOF. *)
Theorem PlanChunkSizeChange_grow old new cs ms plan :
  0 < cs < 2 ^ 64 → 0 ≤ old < new →
  PlanChunkSizeChange old new cs ms = Ok plan →
  detached_chunk_ids plan = [] ∧ ∀ r, plan_boundary plan = Some r ↔ eof_attachment old cs ms r.
Proof.
  intros Hc Hn H.
  apply PlanChunkSizeChange_inv in H as (s & ol & _ & _ & _ & Hnm & Hol & _ & _ & Hg & Hd & _).
  split; [apply Hd; lia|]. intros r. rewrite Hg by lia.
  apply NormalizeMappings_Ok in Hnm as (Hp & _ & Hs).
  apply (retained_eof_attachment old cs ol ms s r); [lia|lia|done..].
Qed.

Lemma PlanChunkSizeChange_grow_witness :
  let plan := mkChunkSizePlan 95 (mkFileSizePrecondition 25 (Some (mkChunkBoundarySnapshot 2 (Some 12) 5)))
                (Some (mkRetainedChunkBoundary 2 12 5)) [] in
  PlanChunkSizeChange 25 95 10 [mkChunkMapping 2 12] = Ok plan ∧ detached_chunk_ids plan = [].
Proof.
  cbn zeta. split; [vm_compute; reflexivity|].
  refine (proj1 (PlanChunkSizeChange_grow 25 95 10 [mkChunkMapping 2 12] _ _ _ _));
    [lia|lia|vm_compute; reflexivity].
Defined.

Lemma NormalizeMappings_valid_id cs ms sorted i id :
  NormalizeMappings cs ms = Ok sorted → FindChunkID sorted i = Some id → IsValidChunkID id = true.
Proof.
  intros (_ & Hf & Hs)%NormalizeMappings_Ok Hfind.
  apply FindChunkID_Some in Hfind; [|done]. rewrite Forall_forall in Hf.
  by destruct (Hf _ Hfind).
Qed.

(** A plan's claimed old state always passes the precondition check. *)
Lemma planned_precondition_valid old new cs ms plan :
  PlanChunkSizeChange old new cs ms = Ok plan →
  ValidateFileSizePrecondition (expected_old_state plan) cs = OK.
Proof.
  intros H.
  apply PlanChunkSizeChange_inv in H as (s & ol & _ & _ & _ & Hnm & Hol & _ & -> & _).
  unfold ValidateFileSizePrecondition; cbn. rewrite Hol.
  destruct (layout_boundary ol) as [[bi bp]|]; cbn; [|done].
  rewrite !Z.eqb_refl; cbn. destruct (FindChunkID s bi) as [id|] eqn:Hf; [|done].
  by rewrite (NormalizeMappings_valid_id _ _ _ _ _ Hnm Hf).
Qed.

(** a plan computed from a snapshot is accepted at commit time when the snapshot is
    still current, and the validated plan is the plan itself. *)
Theorem ValidateSizeCommitPlan_current old new cs ms plan :
  new ≠ old → PlanChunkSizeChange old new cs ms = Ok plan →
  ValidateSizeCommitPlan plan old cs ms (new <? old) = Ok plan.
Proof.
  intros Hne H. pose proof (planned_precondition_valid _ _ _ _ _ H) as Hv.
  pose proof H as (s & ol & _ & _ & _ & _ & _ & Ht & He & _)%PlanChunkSizeChange_inv.
  unfold ValidateSizeCommitPlan. rewrite Hv, Ht, He. cbn [fsp_eof].
  rewrite Z.eqb_refl, Z.geb_leb. cbn [check ok negb].
  destruct (Z.ltb_spec new old), (Z.leb_spec old new), (Z.leb_spec new old); try lia; cbn;
    rewrite H; cbn; rewrite He; by rewrite bool_decide_eq_true_2.
Qed.

Lemma ValidateSizeCommitPlan_current_witness :
  let plan := mkChunkSizePlan 25 (mkFileSizePrecondition 40 None)
                (Some (mkRetainedChunkBoundary 2 12 5)) [13] in
  ValidateSizeCommitPlan plan 40 10
    [mkChunkMapping 3 13; mkChunkMapping 0 10; mkChunkMapping 2 12] (25 <? 40) = Ok plan.
Proof. cbn zeta. apply ValidateSizeCommitPlan_current; [lia|vm_compute; reflexivity]. Defined.

(** a commit is accepted only against the state it was planned for.  If a shrink
    planned from ([old], [ms]) validates against ([eof'], [ms']), the EOF is unchanged,
    the attachment at the old EOF boundary is unchanged, and the detached ids are
    recomputed from [ms']: no attachment beyond the target made since planning is
    missed. *)
Theorem ValidateSizeCommitPlan_stale old new cs ms plan eof' ms' cur :
  0 < cs < 2 ^ 64 → 0 ≤ new < old → Forall (λ m, 0 ≤ cm_index m) ms' →
  PlanChunkSizeChange old new cs ms = Ok plan →
  ValidateSizeCommitPlan plan eof' cs ms' true = Ok cur →
  eof' = old ∧ expected_old_state cur = expected_old_state plan ∧ target_eof cur = new ∧
  detached_chunk_ids cur ≡ₚ cm_chunk_id <$> List.filter (λ m, new <=? cm_index m * cs) ms'.
Proof.
  intros Hc Hn Hm H HV.
  pose proof H as (s & ol & _ & _ & _ & _ & _ & Ht & He & _)%PlanChunkSizeChange_inv.
  unfold ValidateSizeCommitPlan in HV. rewrite Ht, He in HV. cbn [fsp_eof] in HV.
  destruct (_ >=? _); [done|]. inv_result.
  destruct (Z.eqb_spec eof' old) as [->|]; [|done]. cbn in HV. inv_result.
  case_bool_decide as Hb; [|done]. inv_result. subst a0. rename H1 into Hcur.
  pose proof Hcur as (s' & ol' & _ & _ & _ & _ & _ & Ht' & He' & _)%PlanChunkSizeChange_inv.
  split; [done|]. split.
  - rewrite He' in Hb. rewrite He, He'. cbn in Hb. by rewrite Hb.
  - split; [done|]. by apply (shrink_spec old new cs ms' cur).
Qed.

Lemma ValidateSizeCommitPlan_stale_witness :
  let ms' := [mkChunkMapping 5 15; mkChunkMapping 3 13; mkChunkMapping 2 12] in
  [13; 15] ≡ₚ cm_chunk_id <$> List.filter (λ m, 25 <=? cm_index m * 10) ms'.
Proof.
  cbn zeta.
  apply (ValidateSizeCommitPlan_stale 40 25 10
    [mkChunkMapping 3 13; mkChunkMapping 2 12]
    (mkChunkSizePlan 25 (mkFileSizePrecondition 40 None) (Some (mkRetainedChunkBoundary 2 12 5)) [13])
    40 [mkChunkMapping 5 15; mkChunkMapping 3 13; mkChunkMapping 2 12]
    (mkChunkSizePlan 25 (mkFileSizePrecondition 40 None) (Some (mkRetainedChunkBoundary 2 12 5)) [13; 15]));
    [lia|lia|repeat constructor; cbn; lia|vm_compute; reflexivity|vm_compute; reflexivity].
Defined.

(** An accepted chunk write lies inside its chunk and inside the supported file. *)
Lemma ValidateFileChunkWrite_OK index id end_ cs :
  0 ≤ index → 0 < cs < 2 ^ 64 → 0 ≤ end_ < 2 ^ 64 →
  ValidateFileChunkWrite index id end_ cs = OK ↔
    IsValidChunkID id = true ∧ index * cs < end_ ≤ index * cs + cs ∧ end_ ≤ kMaxSupportedFileSize.
Proof.
  intros Hi Hc He. unfold ValidateFileChunkWrite. rewrite CalculateChunkStartOffset_spec by lia.
  destruct (IsValidChunkID id), (Z.eqb_spec cs 0); try lia; cbn; try (split; [done|]; by intros [? _]).
  rewrite Z.gtb_ltb. pose proof kMax_bounds.
  destruct (Z.ltb_spec kMaxSupportedFileSize end_), (Z.leb_spec (index * cs) kMaxSupportedFileSize);
    cbn; try (split; [done|lia]).
  destruct (Z.leb_spec end_ (index * cs)); cbn; [split; [done|lia]|].
  rewrite u64_id, Z.gtb_ltb by lia.
  destruct (Z.ltb_spec cs (end_ - index * cs)); (split; [|lia || done]); [done|]. lia.
Qed.
