(* ===== verification/SliceHistory.v ===== *)
(** * Slice histories: resolving an ordered overwrite log

    src/src/chunk/slice/SliceRecord.{hpp,cpp}.  A chunk's committed content is a list of
    records in publication order, each overlaying the earlier ones; [ResolveRange]
    turns a byte range into disjoint spans naming the object bytes to fetch.  The
    reference it is proved against is the byte-wise definition [visible]: the last
    record covering a position supplies it, and an uncovered position is a hole. *)

From S2P Require Import Prelude StdMap.

(** A [SliceID] is its 64-bit value; 0 denotes a zero-cover. *)
Record SliceRecord := mkSliceRecord {
  sr_pos : Z;
  sr_id : Z;
  sr_size : Z;
  sr_off : Z;
  sr_len : Z;
}.

Record ResolvedSlice := mkResolvedSlice {
  rs_pos : Z;
  rs_id : Z;
  rs_off : Z;
  rs_len : Z;
}.

#[export] Instance SliceRecord_eq_dec : EqDecision SliceRecord.
Proof. solve_decision. Defined.

(** ** Operations *)

Definition ValidateRecord (r : SliceRecord) (chunk_size : Z) : Status :=
  if (sr_len r =? 0) || (sr_pos r >=? chunk_size) || (sr_len r >? u32 (chunk_size - sr_pos r))
  then Malformed else
  if sr_id r =? 0 then
    if negb (sr_size r =? 0) || negb (sr_off r =? 0) then Malformed else OK
  else
  if (sr_id r >? INT64_MAX) || (sr_size r =? 0) || (sr_off r >? sr_size r)
     || (sr_len r >? u32 (sr_size r - sr_off r))
  then Malformed else OK.

Definition AppendCoalesced (out : list ResolvedSlice) (span : ResolvedSlice) : list ResolvedSlice :=
  match last out with
  | Some l =>
      if (u32 (rs_pos l + rs_len l) =? rs_pos span) && (rs_id l =? rs_id span)
         && ((rs_id span =? 0) || (u32 (rs_off l + rs_len l) =? rs_off span))
      then removelast out ++ [mkResolvedSlice (rs_pos l) (rs_id l) (rs_off l)
                                (u32 (rs_len l + rs_len span))]
      else out ++ [span]
  | None => out ++ [span]
  end.

(** The iterator the scan of one record starts from: the first gap starting after the
    record's position, or the gap before it when that one extends past the position. *)
Definition FirstGap (pos : Z) (uncovered : list (Z * Z)) : list (Z * Z) * list (Z * Z) :=
  let '(before, gap) := map_upper_bound pos uncovered in
  match last before with
  | Some p => if p.2 >? pos then (removelast before, p :: gap) else (before, gap)
  | None => (before, gap)
  end.

(** The [while (gap != uncovered.end() && gap->first < record_end)] loop.  The iterator
    [gap] is the split [before ++ gap] of the map.  Each iteration consumes one gap, so
    the number of gaps bounds the iterations; [None] is running out of [fuel]. *)
Fixpoint CoverGaps (fuel : nat) (r : SliceRecord) (before gap : list (Z * Z))
    (resolved : list ResolvedSlice) : option (list (Z * Z) * list ResolvedSlice) :=
  let record_end := u32 (sr_pos r + sr_len r) in
  match gap with
  | [] => Some (before ++ gap, resolved)
  | (gap_start, gap_end) :: _ =>
      if gap_start <? record_end then
        match fuel with
        | O => None
        | S fuel =>
            let cover_start := Z.max (sr_pos r) gap_start in
            let cover_end := Z.min record_end gap_end in
            let m := map_erase gap_start (before ++ gap) in
            let m := if gap_start <? cover_start then map_emplace gap_start cover_start m else m in
            let m := if cover_end <? gap_end then map_emplace cover_end gap_end m else m in
            let span := mkResolvedSlice cover_start (sr_id r)
                          (if sr_id r =? 0 then 0
                           else u32 (sr_off r + u32 (cover_start - sr_pos r)))
                          (u32 (cover_end - cover_start)) in
            let '(before, gap) := map_lower_bound cover_end m in
            CoverGaps fuel r before gap (resolved ++ [span])
        end
      else Some (before ++ gap, resolved)
  end.

(** The loop over the records, newest first, while anything is uncovered. *)
Fixpoint OverlayRecords (newest : list SliceRecord) (uncovered : list (Z * Z))
    (resolved : list ResolvedSlice) : option (list (Z * Z) * list ResolvedSlice) :=
  match newest with
  | [] => Some (uncovered, resolved)
  | r :: older =>
      match uncovered with
      | [] => Some (uncovered, resolved)
      | _ :: _ =>
          let '(before, gap) := FirstGap (sr_pos r) uncovered in
          match CoverGaps (length uncovered) r before gap resolved with
          | None => None
          | Some (uncovered, resolved) => OverlayRecords older uncovered resolved
          end
      end
  end.

Fixpoint ValidateRecords (records : list SliceRecord) (chunk_size : Z) : Status :=
  match records with
  | [] => OK
  | r :: rest => if ok (ValidateRecord r chunk_size) then ValidateRecords rest chunk_size
                 else ValidateRecord r chunk_size
  end.

Definition ResolveRange (records : list SliceRecord) (chunk_size pos len : Z)
    : result (list ResolvedSlice) :=
  if (chunk_size =? 0) || (pos >? chunk_size) || (len >? u32 (chunk_size - pos))
  then Err InvalidArgument else
  _ ← check (ValidateRecords records chunk_size);
  if len =? 0 then Ok [] else
  match OverlayRecords (reverse records) [(pos, u32 (pos + len))] [] with
  | None => Err Internal
  | Some (uncovered, resolved) =>
      let resolved := resolved ++ ((λ g, mkResolvedSlice g.1 0 0 (u32 (g.2 - g.1))) <$> uncovered) in
      Ok (foldl AppendCoalesced [] (sort_by rs_pos resolved))
  end.

(** ** Reference semantics *)

Definition covers (p : Z) (r : SliceRecord) : bool :=
  (sr_pos r <=? p) && (p <? sr_pos r + sr_len r).

(** The object byte a record supplies at [p]: (object, offset); (0, 0) is a zero byte. *)
Definition record_source (r : SliceRecord) (p : Z) : Z * Z :=
  if sr_id r =? 0 then (0, 0) else (sr_id r, sr_off r + (p - sr_pos r)).

Definition newest_source (newest : list SliceRecord) (p : Z) : Z * Z :=
  match List.find (covers p) newest with
  | Some r => record_source r p
  | None => (0, 0)
  end.

Definition visible (records : list SliceRecord) (p : Z) : Z * Z :=
  newest_source (reverse records) p.

Definition span_source (s : ResolvedSlice) (p : Z) : Z * Z :=
  if rs_id s =? 0 then (0, 0) else (rs_id s, rs_off s + (p - rs_pos s)).

(** [spans] tile [[lo, hi)] in address order, without holes or overlap. *)
Fixpoint tiles (lo hi : Z) (spans : list ResolvedSlice) : Prop :=
  match spans with
  | [] => lo = hi
  | s :: rest => rs_pos s = lo ∧ 0 < rs_len s ∧ tiles (lo + rs_len s) hi rest
  end.

Example resolve_small :
  ResolveRange [mkSliceRecord 0 7 10 0 10; mkSliceRecord 4 8 3 0 3; mkSliceRecord 5 0 0 0 1] 16 2 12
  = Ok [mkResolvedSlice 2 7 2 2; mkResolvedSlice 4 8 0 1; mkResolvedSlice 5 0 0 1;
        mkResolvedSlice 6 8 2 1; mkResolvedSlice 7 7 7 3; mkResolvedSlice 10 0 0 4].
Proof. vm_compute. reflexivity. Qed.

(** ** Counting how often a position is hit by a family of intervals *)

Definition hit (i : Z * Z) (p : Z) : Z := if (i.1 <=? p) && (p <? i.2) then 1 else 0.
Fixpoint hits (l : list (Z * Z)) (p : Z) : Z :=
  match l with [] => 0 | i :: l => hit i p + hits l p end.
Definition ivl (s : ResolvedSlice) : Z * Z := (rs_pos s, rs_pos s + rs_len s).

Lemma hit_cases i p : (i.1 ≤ p < i.2 ∧ hit i p = 1) ∨ (¬ (i.1 ≤ p < i.2) ∧ hit i p = 0).
Proof.
  unfold hit. destruct (Z.leb_spec i.1 p), (Z.ltb_spec p i.2); cbn; [left|right..]; lia.
Qed.
Lemma hits_nonneg l p : 0 ≤ hits l p.
Proof. induction l as [|i l IH]; cbn; [lia|]. destruct (hit_cases i p); lia. Qed.
Lemma hits_app l k p : hits (l ++ k) p = hits l p + hits k p.
Proof. induction l as [|i l IH]; cbn; lia. Qed.
Lemma hits_Permutation l k p : l ≡ₚ k → hits l p = hits k p.
Proof. induction 1; cbn; lia. Qed.
Lemma hits_zero l p : hits l p = 0 ↔ Forall (λ i, ¬ (i.1 ≤ p < i.2)) l.
Proof.
  induction l as [|i l IH]; cbn; [split; [by constructor|done]|].
  pose proof (hits_nonneg l p). rewrite Forall_cons, <- IH.
  destruct (hit_cases i p) as [[? ->]|[? ->]]; lia.
Qed.
Lemma hits_elem l i p : i ∈ l → i.1 ≤ p < i.2 → 0 < hits l p.
Proof.
  intros Hi Hp. pose proof (hits_nonneg l p).
  destruct (Z.eq_dec (hits l p) 0) as [H0|]; [|lia].
  apply hits_zero in H0. rewrite Forall_forall in H0. by destruct (H0 i Hi).
Qed.
Lemma hits_pos l p : 0 < hits l p → ∃ i, i ∈ l ∧ i.1 ≤ p < i.2.
Proof.
  induction l as [|i l IH]; cbn; [lia|].
  destruct (hit_cases i p) as [[? ->]|[? ->]]; intros.
  - exists i. split; [by left|done].
  - destruct IH as (j & ? & ?); [lia|]. exists j. split; [by right|done].
Qed.

(** ** The gap map *)

Definition gap_before (g h : Z * Z) : Prop := g.2 ≤ h.1.
Definition gaps_ok (u : list (Z * Z)) : Prop :=
  StronglySorted gap_before u ∧ Forall (λ g, g.1 < g.2) u.

Lemma gaps_ok_app l k :
  gaps_ok (l ++ k) ↔ gaps_ok l ∧ gaps_ok k ∧ (∀ g h, g ∈ l → h ∈ k → g.2 ≤ h.1).
Proof.
  unfold gaps_ok. rewrite Forall_app. split.
  - intros [Hs [Hl Hk]]. split_and!; try done.
    + by eapply StronglySorted_app_1_l.
    + by eapply StronglySorted_app_1_r.
    + intros. by eapply (StronglySorted_app_1_elem_of gap_before l k).
  - intros ([Hl ?] & [Hk ?] & Hlk). split; [|done].
    by apply StronglySorted_app_2.
Qed.

Lemma gaps_ok_sorted u : gaps_ok u → map_sorted u.
Proof.
  intros [Hs Hf]. induction Hs as [|g u Hs IH Hg]; [constructor|].
  inversion Hf; subst. constructor; [by apply IH|].
  rewrite Forall_forall in Hg |- *. intros h Hh. unfold key_lt, key_ltb, Z_key.
  apply Z.ltb_lt. pose proof (Hg h Hh). unfold gap_before in *. lia.
Qed.

Lemma gaps_keys_before g l k : gaps_ok (l ++ g :: k) → Forall (λ p, p.1 < g.1) l.
Proof.
  intros ([_ Hl] & _ & Hlk)%gaps_ok_app. rewrite Forall_forall in Hl |- *.
  intros p Hp. pose proof (Hl p Hp). pose proof (Hlk p g Hp ltac:(left)). cbn in *. lia.
Qed.
Lemma gaps_keys_after g l k : gaps_ok (l ++ g :: k) → Forall (λ p, g.2 ≤ p.1) k.
Proof.
  intros (_ & [Hs _] & _)%gaps_ok_app. by inversion Hs.
Qed.

Definition gap_if (a b : Z) : list (Z * Z) := if a <? b then [(a, b)] else [].

Lemma Forall_gap_if (P : Z * Z → Prop) a b : (a < b → P (a, b)) → Forall P (gap_if a b).
Proof.
  intros HP. unfold gap_if. destruct (Z.ltb_spec a b); [|constructor].
  constructor; [auto|constructor].
Qed.

Lemma gaps_ok_split b gs ge a cs ce :
  gaps_ok (b ++ (gs, ge) :: a) → gs ≤ cs → cs < ce → ce ≤ ge →
  gaps_ok ((b ++ gap_if gs cs) ++ gap_if ce ge ++ a).
Proof.
  intros Hg ? ? ?. rewrite <- app_assoc.
  pose proof (gaps_keys_after _ _ _ Hg) as Ha. cbn in Ha.
  apply gaps_ok_app in Hg as (Hb & [Hga Fga] & Hba).
  inversion Hga; inversion Fga; subst.
  assert (gaps_ok (gap_if ce ge ++ a)) as Hr.
  { unfold gap_if. destruct (Z.ltb_spec ce ge); [|by split].
    split; constructor; cbn; try lia; try done. }
  assert (∀ h, h ∈ gap_if ce ge ++ a → ce ≤ h.1) as Hrk.
  { intros h [Hh|Hh]%elem_of_app.
    - unfold gap_if in Hh. destruct (_ <? _); [|by apply elem_of_nil in Hh].
      apply list_elem_of_singleton in Hh; subst; cbn; lia.
    - rewrite Forall_forall in Ha. pose proof (Ha h Hh). lia. }
  assert (gaps_ok (gap_if gs cs ++ gap_if ce ge ++ a)) as Hm.
  { apply gaps_ok_app. split_and!; [|done|].
    - split; [|apply Forall_gap_if; cbn; lia].
      unfold gap_if. destruct (_ <? _); repeat constructor.
    - intros g h Hg Hh. apply Hrk in Hh. unfold gap_if in Hg.
      destruct (_ <? _); [|by apply elem_of_nil in Hg].
      apply list_elem_of_singleton in Hg; subst; cbn; lia. }
  apply gaps_ok_app. split_and!; [done..|].
  intros g h Hg [Hh|Hh]%elem_of_app; pose proof (Hba g (gs, ge) Hg ltac:(left)); cbn in *.
  - unfold gap_if in Hh. destruct (_ <? _); [|by apply elem_of_nil in Hh].
    apply list_elem_of_singleton in Hh; subst; cbn; lia.
  - apply Hrk in Hh. lia.
Qed.

Lemma hits_gap_if a b p : hits (gap_if a b) p = hit (a, b) p.
Proof.
  unfold gap_if. destruct (Z.ltb_spec a b); cbn; [lia|].
  destruct (hit_cases (a, b) p); cbn in *; lia.
Qed.

(** ** One record *)

Definition record_ok (cs : Z) (r : SliceRecord) : Prop :=
  0 ≤ sr_pos r ∧ 0 < sr_len r ∧ sr_pos r + sr_len r ≤ cs ∧
  (sr_id r ≠ 0 → 0 ≤ sr_off r ∧ sr_off r + sr_len r ≤ sr_size r ∧ sr_size r < 2 ^ 32).

(** The spans a record contributes: inside the record, with the record's bytes. *)
Definition span_ok (cs : Z) (s : ResolvedSlice) : Prop :=
  0 ≤ rs_pos s ∧ 0 < rs_len s ∧ rs_pos s + rs_len s ≤ cs ∧
  0 ≤ rs_off s ∧ rs_off s + rs_len s < 2 ^ 32 ∧ (rs_id s = 0 → rs_off s = 0).
Definition span_from (cs : Z) (r : SliceRecord) (s : ResolvedSlice) : Prop :=
  span_ok cs s ∧ sr_pos r ≤ rs_pos s ∧ rs_pos s + rs_len s ≤ sr_pos r + sr_len r ∧
  ∀ p, span_source s p = record_source r p.

(** Splitting one gap: the three map updates of an iteration, at the iterator. *)
Lemma cover_gap_map b gs ge a cs ce :
  gaps_ok (b ++ (gs, ge) :: a) → gs ≤ cs → cs < ce → ce ≤ ge →
  let m := map_erase gs (b ++ (gs, ge) :: a) in
  let m := if gs <? cs then map_emplace gs cs m else m in
  let m := if ce <? ge then map_emplace ce ge m else m in
  map_lower_bound ce m = (b ++ gap_if gs cs, gap_if ce ge ++ a).
Proof.
  intros Hg ? ? ? m1 m2 m3.
  pose proof (gaps_keys_before _ _ _ Hg) as Hb. pose proof (gaps_keys_after _ _ _ Hg) as Ha.
  cbn in Hb, Ha.
  assert (m1 = b ++ a) as E1 by (by apply map_erase_middle).
  assert (m2 = (b ++ gap_if gs cs) ++ a) as E2.
  { unfold m2, gap_if. rewrite E1. destruct (Z.ltb_spec gs cs); [|by rewrite app_nil_r].
    rewrite <- app_assoc. apply map_emplace_middle; [done|].
    eapply Forall_impl; [exact Ha|]. cbn. lia. }
  assert (Forall (λ p, p.1 < ce) (b ++ gap_if gs cs)) as Hbc.
  { apply Forall_app. split.
    - eapply Forall_impl; [exact Hb|]. cbn. lia.
    - apply Forall_gap_if. cbn. lia. }
  assert (m3 = (b ++ gap_if gs cs) ++ gap_if ce ge ++ a) as E3.
  { unfold m3. rewrite E2. change (gap_if ce ge) with (if ce <? ge then [(ce, ge)] else []).
    destruct (Z.ltb_spec ce ge); [|done].
    apply map_emplace_middle; [done|]. eapply Forall_impl; [exact Ha|]. cbn. lia. }
  rewrite E3. apply map_lower_bound_middle; [done|]. apply Forall_app. split.
  - apply Forall_gap_if. cbn. lia.
  - eapply Forall_impl; [exact Ha|]. cbn. lia.
Qed.

Lemma CoverGaps_spec fuel cs r b a resolved :
  cs < 2 ^ 32 → record_ok cs r → (length a ≤ fuel)%nat → gaps_ok (b ++ a) →
  Forall (λ g, g.2 ≤ sr_pos r) b → Forall (λ g, sr_pos r < g.2) a →
  ∃ u spans, CoverGaps fuel r b a resolved = Some (u, resolved ++ spans) ∧
    gaps_ok u ∧ Forall (span_from cs r) spans ∧
    (∀ p, hits u p + hits (ivl <$> spans) p = hits (b ++ a) p) ∧
    (∀ p, covers p r = true → hits u p = 0).
Proof.
  intros Hcs Hr. revert b a resolved.
  destruct Hr as (Hp & Hl & He & Ho).
  assert (u32 (sr_pos r + sr_len r) = sr_pos r + sr_len r) as Hend
    by (apply wrap_id; unfold in_range; lia).
  induction fuel as [|fuel IH]; intros b a resolved Hfuel Hok Hb Ha.
  - destruct a; [|cbn in Hfuel; lia]. exists b, []. cbn. rewrite !app_nil_r in *.
    split_and!; try done; [intros; lia|].
    intros p [? ?]%andb_true_iff. apply hits_zero.
    eapply Forall_impl; [exact Hb|]. cbn. zlia.
  - destruct a as [|[gs ge] a].
    { exists b, []. cbn. rewrite !app_nil_r in *. split_and!; try done; [intros; lia|].
      intros p [? ?]%andb_true_iff. apply hits_zero.
      eapply Forall_impl; [exact Hb|]. cbn. zlia. }
    cbn [CoverGaps]. rewrite Hend. inversion Ha as [|?? Hge Ha']; subst. cbn in Hge.
    destruct (Z.ltb_spec gs (sr_pos r + sr_len r)) as [Hgs|Hgs].
    2:{ exists (b ++ (gs, ge) :: a), []. rewrite app_nil_r.
        split_and!; try done; [intros; cbn; lia|].
        intros p [? ?]%andb_true_iff. zify_bools. apply hits_zero, Forall_app. split.
        - eapply Forall_impl; [exact Hb|]. cbn. lia.
        - constructor; [cbn; lia|]. pose proof (gaps_keys_after _ _ _ Hok) as Hka.
          assert (gs < ge) by (apply gaps_ok_app in Hok as (_ & [_ Hf] & _); by inversion Hf).
          eapply Forall_impl; [exact Hka|]. cbn. lia. }
    assert (gs < ge) as Hg by (apply gaps_ok_app in Hok as (_ & [_ Hf] & _); by inversion Hf).
    set (c0 := Z.max (sr_pos r) gs). set (c1 := Z.min (sr_pos r + sr_len r) ge).
    assert (gs ≤ c0 ∧ c0 < c1 ∧ c1 ≤ ge) as (H0 & H1 & H2) by lia.
    rewrite (cover_gap_map b gs ge a c0 c1 Hok H0 H1 H2).
    set (span := mkResolvedSlice c0 _ _ _).
    pose proof (gaps_ok_split b gs ge a c0 c1 Hok H0 H1 H2) as Hok'.
    assert (span_from cs r span ∧ ivl span = (c0, c1)) as [Hspan Hivl].
    { unfold span_from, span_ok, span_source, record_source, ivl, span; cbn.
      rewrite (wrap_id 32 (c1 - c0)) by (unfold in_range; lia).
      split; [|f_equal; lia]. destruct (Z.eqb_spec (sr_id r) 0); [split_and!; try done; lia|].
      specialize (Ho ltac:(done)). rewrite (wrap_id 32 (c0 - sr_pos r)) by (unfold in_range; lia).
      rewrite wrap_id by (unfold in_range; lia). split_and!; try done; try lia.
      intros p. f_equal. lia. }
    assert (∀ p, hit (gs, c0) p + hit (c0, c1) p + hit (c1, ge) p = hit (gs, ge) p) as Hsplit.
    { intros p. unfold hit; cbn.
      destruct (Z.leb_spec gs p), (Z.leb_spec c0 p), (Z.leb_spec c1 p),
        (Z.ltb_spec p c0), (Z.ltb_spec p c1), (Z.ltb_spec p ge); cbn; lia. }
    assert (Forall (λ g, g.2 ≤ sr_pos r) (b ++ gap_if gs c0)) as Hb'.
    { apply Forall_app. split; [done|]. apply Forall_gap_if. cbn. lia. }
    destruct (Z.ltb_spec c1 ge) as [Hc1|Hc1].
    + (* the gap outlives the record: the next test stops the loop *)
      assert (c1 = sr_pos r + sr_len r) as Hc by lia.
      assert (gap_if c1 ge = [(c1, ge)]) as Eg by (unfold gap_if; by destruct (Z.ltb_spec c1 ge); [|lia]).
      rewrite Eg in *. exists ((b ++ gap_if gs c0) ++ (c1, ge) :: a), [span].
      split_and!; [|done|by constructor| |].
      * destruct fuel; cbn [CoverGaps app]; rewrite Hend, Hc, Z.ltb_irrefl; done.
      * intros p. cbn. rewrite Hivl, !hits_app, hits_gap_if. cbn. specialize (Hsplit p). lia.
      * intros p [? ?]%andb_true_iff. zify_bools. apply hits_zero, Forall_app. split.
        -- eapply Forall_impl; [exact Hb'|]. cbn. lia.
        -- constructor; [cbn; lia|]. pose proof (gaps_keys_after _ _ _ Hok') as Hka.
           eapply Forall_impl; [exact Hka|]. cbn. lia.
    + assert (gap_if c1 ge = []) as Eg by (unfold gap_if; by destruct (Z.ltb_spec c1 ge); [lia|]).
      rewrite Eg in *. cbn [app] in *.
      destruct (IH (b ++ gap_if gs c0) a (resolved ++ [span])) as (u & spans & -> & Hu & Hsp & Hh & Hcov);
        [cbn in Hfuel; lia|done..|].
      exists u, (span :: spans). rewrite <- app_assoc. split_and!; [done|done|by constructor| |done].
      intros p. cbn. rewrite Hivl. specialize (Hh p). rewrite !hits_app, hits_gap_if in *. cbn.
      specialize (Hsplit p). assert (hit (c1, ge) p = 0) by (destruct (hit_cases (c1, ge) p); cbn in *; lia).
      lia.
Qed.

Lemma FirstGap_spec pos u b a :
  gaps_ok u → FirstGap pos u = (b, a) →
  u = b ++ a ∧ Forall (λ g, g.2 ≤ pos) b ∧ Forall (λ g, pos < g.2) a.
Proof.
  intros Hok. unfold FirstGap.
  destruct (map_upper_bound pos u) as [b0 a0] eqn:Hub.
  apply map_upper_bound_spec in Hub as (-> & Hb & Ha); [|by apply gaps_ok_sorted].
  assert (Forall (λ g, pos < g.2) a0) as Ha'.
  { apply gaps_ok_app in Hok as (_ & [_ Hpos] & _). rewrite Forall_forall in Ha, Hpos |- *.
    intros g Hg. specialize (Ha g Hg). specialize (Hpos g Hg).
    unfold key_ltb, Z_key in Ha. zlia. }
  destruct (last b0) as [g|] eqn:Hlast.
  - apply last_Some in Hlast as [b1 ->]. rewrite removelast_last.
    assert (Forall (λ h, h.2 ≤ pos) b1) as Hb1.
    { rewrite <- app_assoc in Hok. pose proof Hok as Hok'.
      apply gaps_ok_app in Hok' as (_ & _ & Hsep).
      rewrite Forall_forall in Hb |- *. intros h Hh.
      specialize (Hb g ltac:(apply elem_of_app; right; left)).
      specialize (Hsep h g Hh ltac:(left)). unfold key_ltb, Z_key in Hb. zlia. }
    rewrite Z.gtb_ltb. destruct (Z.ltb_spec pos g.2); intros ?; simplify_eq.
    + split; [by rewrite <- app_assoc|]. split; [done|]. by constructor.
    + split; [done|]. split; [|done]. apply Forall_app. split; [done|]. by repeat constructor.
  - intros ?; simplify_eq. apply last_None in Hlast. by subst.
Qed.

(** ** The whole history *)

Lemma newest_source_head newer r older p :
  Forall (λ q, covers p q = false) newer → covers p r = true →
  newest_source (newer ++ r :: older) p = record_source r p.
Proof.
  unfold newest_source. intros Hn Hc. induction Hn as [|q newer Hq _ IH]; cbn.
  - by rewrite Hc.
  - by rewrite Hq.
Qed.

Lemma newest_source_none newest p :
  Forall (λ q, covers p q = false) newest → newest_source newest p = (0, 0).
Proof. unfold newest_source. induction 1 as [|q l Hq _ IH]; cbn; [done|]. by rewrite Hq. Qed.

(** The state between two records: what [newer] records left uncovered, and the spans
    resolved from them, together tile the request, and each span carries the bytes the
    whole history [newer ++ older] makes visible. *)
Definition resolving (cs lo hi : Z) (newer older : list SliceRecord)
    (u : list (Z * Z)) (spans : list ResolvedSlice) : Prop :=
  gaps_ok u ∧ Forall (span_ok cs) spans ∧
  (∀ p, hits u p + hits (ivl <$> spans) p = hit (lo, hi) p) ∧
  (∀ p, 0 < hits u p → Forall (λ r, covers p r = false) newer) ∧
  (∀ s p, s ∈ spans → rs_pos s ≤ p < rs_pos s + rs_len s →
     span_source s p = newest_source (newer ++ older) p).

Lemma resolving_step cs lo hi newer r older u spans u' spans' :
  resolving cs lo hi newer (r :: older) u spans →
  gaps_ok u' → Forall (span_from cs r) spans' →
  (∀ p, hits u' p + hits (ivl <$> spans') p = hits u p) →
  (∀ p, covers p r = true → hits u' p = 0) →
  resolving cs lo hi (newer ++ [r]) older u' (spans ++ spans').
Proof.
  intros (Hu & Hsp & Hh & Hun & Hsrc) Hu' Hsp' Hh' Hc'. unfold resolving. split_and!; [done|..].
  - apply Forall_app. split; [done|]. eapply Forall_impl; [exact Hsp'|]. by intros s [? _].
  - intros p. rewrite fmap_app, hits_app. specialize (Hh p). specialize (Hh' p). lia.
  - intros p Hp. apply Forall_app. split.
    + apply Hun. specialize (Hh' p). pose proof (hits_nonneg (ivl <$> spans') p). lia.
    + constructor; [|done]. apply not_true_is_false. intros Hc. apply Hc' in Hc. lia.
  - intros s p Hs Hp. rewrite <- app_assoc. cbn. apply elem_of_app in Hs as [Hs|Hs]; [by apply Hsrc|].
    rewrite Forall_forall in Hsp'. destruct (Hsp' s Hs) as (Hok & H1 & H2 & ->).
    symmetry. apply newest_source_head.
    + apply Hun. specialize (Hh' p). pose proof (hits_nonneg u' p).
      assert (0 < hits (ivl <$> spans') p); [|lia].
      apply (hits_elem _ (ivl s)); [by apply list_elem_of_fmap_2|done].
    + unfold covers. apply andb_true_iff. rewrite Z.leb_le, Z.ltb_lt. lia.
Qed.

Lemma OverlayRecords_spec cs lo hi newer older u spans :
  cs < 2 ^ 32 → Forall (record_ok cs) older → resolving cs lo hi newer older u spans →
  ∃ u' spans', OverlayRecords older u spans = Some (u', spans') ∧
    resolving cs lo hi (newer ++ older) [] u' spans'.
Proof.
  intros Hcs Hf. revert newer u spans. induction Hf as [|r older Hr Hf IH]; intros newer u spans HI.
  { exists u, spans. by rewrite app_nil_r. }
  cbn [OverlayRecords]. destruct u as [|g u'] eqn:Eu.
  { exists [], spans. split; [done|]. destruct HI as (? & ? & ? & ? & ?).
    unfold resolving. rewrite !app_nil_r. split_and!; try done. }
  rewrite <- Eu in *. clear Eu g u'. pose proof HI as (Hok & _).
  destruct (FirstGap (sr_pos r) u) as [b a] eqn:Hg.
  apply FirstGap_spec in Hg as (-> & Hb & Ha); [|done].
  destruct (CoverGaps_spec (length (b ++ a)) cs r b a spans) as (u' & s' & -> & ? & ? & ? & ?);
    [done|done|rewrite length_app; lia|done..|].
  destruct (IH (newer ++ [r]) u' (spans ++ s')) as (u'' & s'' & E & HR).
  { by apply (resolving_step cs lo hi newer r older (b ++ a) spans). }
  exists u'', s''. split; [done|]. by rewrite <- app_assoc in HR.
Qed.

(** ** From counting to tiling *)

Lemma tiles_of_hits lo hi l :
  lo ≤ hi → StronglySorted (key_le rs_pos) l → Forall (λ s, 0 < rs_len s) l →
  (∀ p, hits (ivl <$> l) p = hit (lo, hi) p) → tiles lo hi l.
Proof.
  revert lo. induction l as [|s l IH]; intros lo Hlh Hs Hl Hh; cbn.
  - specialize (Hh lo). cbn in Hh. destruct (hit_cases (lo, hi) lo); cbn in *; lia.
  - inversion Hs as [|?? Hs' Hle]; subst. inversion Hl as [|?? Hl0 Hl']; subst.
    assert (∀ p, rs_pos s ≤ p < rs_pos s + rs_len s → lo ≤ p < hi ∧ hits (ivl <$> l) p = 0) as Hin.
    { intros p Hp. specialize (Hh p). cbn in Hh. pose proof (hits_nonneg (ivl <$> l) p).
      destruct (hit_cases (ivl s) p) as [[? E]|[? E]]; cbn in *; [|lia].
      destruct (hit_cases (lo, hi) p); cbn in *; lia. }
    assert (rs_pos s = lo) as Hpos.
    { destruct (Hin (rs_pos s)) as [Hb _]; [lia|].
      assert (0 < hits (ivl <$> s :: l) lo) as (i & Hi & Hlo)%hits_pos.
      { rewrite Hh. destruct (hit_cases (lo, hi) lo); cbn in *; lia. }
      apply list_elem_of_fmap in Hi as (t & -> & Ht). cbn in Hlo.
      apply elem_of_cons in Ht as [->|Ht]; [lia|].
      rewrite Forall_forall in Hle. pose proof (Hle t Ht). unfold key_le in *. lia. }
    split; [done|]. split; [done|]. apply IH; [|done..|].
    + destruct (Hin (rs_pos s + rs_len s - 1)); lia.
    + intros p. specialize (Hh p). cbn in Hh.
      destruct (hit_cases (ivl s) p) as [[? E]|[? E]], (hit_cases (lo, hi) p) as [[? E']|[? E']],
        (hit_cases (lo + rs_len s, hi) p) as [[? E'']|[? E'']]; cbn in *; try lia.
      specialize (Hin p ltac:(lia)). lia.
Qed.

Lemma tiles_app lo hi l k : tiles lo hi (l ++ k) ↔ ∃ mid, tiles lo mid l ∧ tiles mid hi k.
Proof.
  revert lo. induction l as [|s l IH]; intros lo; cbn.
  - split; [intros; by exists lo|]. by intros (? & -> & ?).
  - rewrite IH. split.
    + intros (? & ? & mid & ? & ?). exists mid. by split_and!.
    + intros (mid & (? & ? & ?) & ?). split_and!; try done. by exists mid.
Qed.

(** ** Coalescing *)

Definition joinable (s t : ResolvedSlice) : bool :=
  (rs_id s =? rs_id t) && ((rs_id t =? 0) || (rs_off s + rs_len s =? rs_off t)).

(** No two neighbours could still be merged into one fetch. *)
Definition coalesced (l : list ResolvedSlice) : Prop :=
  ∀ pre s t post, l = pre ++ s :: t :: post → joinable s t = false.

Lemma coalesced_snoc l s t :
  coalesced (l ++ [s]) → joinable s t = false → coalesced ((l ++ [s]) ++ [t]).
Proof.
  intros Hc Hj pre s' t' post E. destruct (decide (post = [])) as [->|Hne].
  - rewrite <- app_assoc in E. change (pre ++ [s'; t']) with (pre ++ [s'] ++ [t']) in E.
    rewrite app_assoc, (app_assoc pre) in E. apply app_inj_tail in E as [E ->].
    by apply app_inj_tail in E as [_ ->].
  - destruct (exists_last Hne) as (post' & x & ->).
    rewrite !app_comm_cons, (app_assoc pre) in E. apply app_inj_tail in E as [E _].
    by eapply Hc.
Qed.

Lemma coalesced_last_change l s s' :
  coalesced (l ++ [s]) → rs_id s' = rs_id s → rs_off s' = rs_off s → coalesced (l ++ [s']).
Proof.
  intros Hc Hid Hoff pre a b post E. destruct (decide (post = [])) as [->|Hne].
  - change (pre ++ [a; b]) with (pre ++ [a] ++ [b]) in E. rewrite app_assoc in E.
    apply app_inj_tail in E as [-> ->]. specialize (Hc pre a s []).
    unfold joinable in *. rewrite Hid, Hoff. apply Hc. by rewrite <- app_assoc.
  - destruct (exists_last Hne) as (post' & x & ->).
    rewrite !app_comm_cons, (app_assoc pre) in E. apply app_inj_tail in E as [-> _].
    eapply (Hc pre a b (post' ++ [s])). by rewrite <- app_assoc.
Qed.

(** A list of well-formed spans tiling a range, each carrying the source [f]. *)
Definition resolved (cs : Z) (f : Z → Z * Z) (lo hi : Z) (l : list ResolvedSlice) : Prop :=
  tiles lo hi l ∧ Forall (span_ok cs) l ∧
  ∀ s p, s ∈ l → rs_pos s ≤ p < rs_pos s + rs_len s → span_source s p = f p.

Lemma resolved_app cs f lo hi l k :
  resolved cs f lo hi (l ++ k) ↔ ∃ mid, resolved cs f lo mid l ∧ resolved cs f mid hi k.
Proof.
  unfold resolved. rewrite tiles_app, Forall_app. setoid_rewrite elem_of_app. split.
  - intros ((mid & ? & ?) & [? ?] & Hs). exists mid. split_and!; try done; intros; apply Hs; auto.
  - intros (mid & (? & ? & Hs1) & (? & ? & Hs2)). split_and!; try done; [by exists mid|].
    intros s p [?|?] ?; [by apply Hs1|by apply Hs2].
Qed.

Lemma AppendCoalesced_resolved cs f lo mid hi out s :
  cs < 2 ^ 32 → resolved cs f lo mid out → resolved cs f mid hi [s] → coalesced out →
  resolved cs f lo hi (AppendCoalesced out s) ∧ coalesced (AppendCoalesced out s).
Proof.
  intros Hcs Hout Hs Hc. unfold AppendCoalesced. destruct (last out) as [l|] eqn:Hlast.
  2:{ apply last_None in Hlast. subst. cbn. split.
      - apply (resolved_app cs f lo hi [] [s]). by exists mid.
      - intros pre a b post E. by destruct pre as [|? [|]]. }
  apply last_Some in Hlast as [pre ->]. rewrite removelast_last.
  pose proof Hout as (m0 & Hpre & (Tl & Fl & Sl))%resolved_app.
  pose proof Hs as (Ts & Fs & Ss). cbn in Tl, Ts. destruct Tl as (? & ? & ?), Ts as (? & ? & ?).
  inversion Fl as [|?? Hlok _]; inversion Fs as [|?? Hsok _]; subst.
  destruct Hlok as (?&?&?&?&?&Hl0), Hsok as (?&?&?&?&?&Hs0).
  rewrite (wrap_id 32 (rs_pos l + rs_len l)), (wrap_id 32 (rs_off l + rs_len l)) by (unfold in_range; lia).
  destruct (Z.eqb_spec (rs_pos l + rs_len l) (rs_pos s)); [|lia]. cbn [andb].
  fold (joinable l s). destruct (joinable l s) eqn:Hj.
  - apply andb_true_iff in Hj as [Hid Hoff]. apply Z.eqb_eq in Hid.
    rewrite (wrap_id 32) by (unfold in_range; lia).
    assert (rs_id s = 0 ∨ (rs_id s ≠ 0 ∧ rs_off l + rs_len l = rs_off s)) as Hcase.
    { apply orb_true_iff in Hoff as [Hz|Hz]; zify_bools; lia. }
    split; [|by eapply coalesced_last_change].
    apply resolved_app. exists (rs_pos l). split; [done|]. split_and!.
    + cbn. split_and!; try done; lia.
    + constructor; [|done]. unfold span_ok; cbn. split_and!; try done; try lia.
    + intros x p ->%list_elem_of_singleton Hp. cbn in Hp.
      destruct (decide (p < rs_pos s)) as [Hlt|Hge].
      * rewrite <- (Sl l p) by (try left; lia). done.
      * rewrite <- (Ss s p) by (try left; lia). unfold span_source; cbn. rewrite Hid.
        destruct Hcase as [Hz|[Hz ?]].
        -- by rewrite Hz.
        -- destruct (Z.eqb_spec (rs_id s) 0); [done|]. f_equal. lia.
  - split; [|by apply coalesced_snoc]. apply resolved_app. eexists. split; [exact Hout|exact Hs].
Qed.

Lemma foldl_AppendCoalesced cs f lo mid hi out l :
  cs < 2 ^ 32 → resolved cs f lo mid out → resolved cs f mid hi l → coalesced out →
  resolved cs f lo hi (foldl AppendCoalesced out l) ∧ coalesced (foldl AppendCoalesced out l).
Proof.
  intros Hcs. revert mid out. induction l as [|s l IH]; intros mid out Hout Hl Hc; cbn.
  - destruct Hl as (E & _). cbn in E. by subst.
  - apply (resolved_app cs f mid hi [s] l) in Hl as (m1 & Hs & Hl).
    destruct (AppendCoalesced_resolved cs f lo mid m1 out s) as [? ?]; [done..|].
    by apply (IH m1).
Qed.

(** ** Validity *)

(** The fields have the widths the struct declares. *)
Definition record_fields (r : SliceRecord) : Prop :=
  in_range 32 (sr_pos r) ∧ in_range 64 (sr_id r) ∧ in_range 32 (sr_size r) ∧
  in_range 32 (sr_off r) ∧ in_range 32 (sr_len r).
#[export] Instance record_fields_dec r : Decision (record_fields r).
Proof. unfold record_fields. apply _. Defined.

Lemma ValidateRecord_OK r cs :
  record_fields r → 0 ≤ cs < 2 ^ 32 → ValidateRecord r cs = OK → record_ok cs r.
Proof.
  intros (Hp & Hi & Hs & Ho & Hl) Hcs. unfold in_range in *. unfold ValidateRecord, record_ok.
  destruct (_ || _) eqn:E1; [done|]. inv_result. zify_bools.
  rewrite wrap_id in * by (unfold in_range; lia).
  destruct (Z.eqb_spec (sr_id r) 0); [intros _; split_and!; try done; lia|].
  destruct (_ || _) eqn:E2; [done|]. intros _. inv_result. zify_bools.
  rewrite wrap_id in * by (unfold in_range; lia). split_and!; intros; lia.
Qed.

Lemma ValidateRecords_OK records cs :
  ValidateRecords records cs = OK ↔ Forall (λ r, ValidateRecord r cs = OK) records.
Proof.
  induction records as [|r l IH]; cbn; [by split; [constructor|]|].
  rewrite Forall_cons. destruct (ValidateRecord r cs) eqn:E; cbn; rewrite ?IH; naive_solver.
Qed.

Lemma ValidateRecord_cases r cs : ValidateRecord r cs = OK ∨ ValidateRecord r cs = Malformed.
Proof. unfold ValidateRecord. repeat case_match; auto. Qed.

Lemma ValidateRecords_Malformed records cs :
  Exists (λ r, ValidateRecord r cs ≠ OK) records → ValidateRecords records cs = Malformed.
Proof.
  induction 1 as [r l Hr|r l Hr IH]; cbn;
    destruct (ValidateRecord_cases r cs) as [E|E]; rewrite E in *; done.
Qed.

(** ** Correctness of [ResolveRange] *)

Lemma resolving_start cs lo hi newest :
  lo < hi → resolving cs lo hi [] newest [(lo, hi)] [].
Proof.
  intros Hlt. unfold resolving. split_and!; try done.
  - split; repeat constructor. cbn. lia.
  - intros p. cbn. lia.
  - intros s p Hs. by apply elem_of_nil in Hs.
Qed.

(** Once every record is processed, the remaining gaps read as zero-covers. *)
Lemma resolving_finish cs lo hi newest u spans :
  cs < 2 ^ 32 → 0 ≤ lo ≤ hi → hi ≤ cs → resolving cs lo hi newest [] u spans →
  resolved cs (newest_source newest) lo hi
    (sort_by rs_pos (spans ++ ((λ g, mkResolvedSlice g.1 0 0 (u32 (g.2 - g.1))) <$> u))).
Proof.
  intros Hcs Hlo Hhi ((Hgs & Hgp) & Hsp & Hh & Hun & Hsrc). rewrite app_nil_r in Hsrc.
  assert (∀ g, g ∈ u → lo ≤ g.1 ∧ g.1 < g.2 ∧ g.2 ≤ hi) as Hgb.
  { intros g Hg. rewrite Forall_forall in Hgp. pose proof (Hgp g Hg).
    assert (∀ p, g.1 ≤ p < g.2 → lo ≤ p < hi) as Hb.
    { intros p Hp. specialize (Hh p). pose proof (hits_elem u g p Hg Hp).
      pose proof (hits_nonneg (ivl <$> spans) p). destruct (hit_cases (lo, hi) p); cbn in *; lia. }
    pose proof (Hb g.1). pose proof (Hb (g.2 - 1)). lia. }
  set (zero := λ g : Z * Z, mkResolvedSlice g.1 0 0 (u32 (g.2 - g.1))).
  assert (∀ g, g ∈ u → rs_len (zero g) = g.2 - g.1) as Hz.
  { intros g Hg. destruct (Hgb g Hg) as (?&?&?). cbn. apply wrap_id; [lia|]. unfold in_range. lia. }
  assert (Forall (span_ok cs) (spans ++ (zero <$> u))) as Hf.
  { apply Forall_app. split; [done|]. apply Forall_fmap, Forall_forall. intros g Hg.
    destruct (Hgb g Hg) as (?&?&?). unfold compose, span_ok. rewrite (Hz g Hg). cbn.
    split_and!; try done; lia. }
  assert (∀ p, hits (ivl <$> (zero <$> u)) p = hits u p) as Hhz.
  { intros p. clear -Hz. induction u as [|g u IH]; cbn [fmap list_fmap hits]; [done|].
    rewrite IH by (intros; apply Hz; by right). f_equal. unfold ivl.
    rewrite (Hz g) by left. cbn. by replace (g.1 + (g.2 - g.1)) with g.2 by lia. }
  unfold resolved. split_and!; [|by rewrite sort_by_Permutation|].
  - apply tiles_of_hits; [lia|apply sort_by_StronglySorted| |].
    + rewrite sort_by_Permutation. eapply Forall_impl; [exact Hf|]. by intros ? (?&?&_).
    + intros p. rewrite (hits_Permutation _ (ivl <$> (spans ++ (zero <$> u))))
        by (apply fmap_Permutation, sort_by_Permutation).
      rewrite fmap_app, hits_app, Hhz. specialize (Hh p). lia.
  - intros s p Hs Hp. rewrite sort_by_Permutation in Hs.
    apply elem_of_app in Hs as [Hs|Hs]; [by apply Hsrc|].
    apply list_elem_of_fmap in Hs as (g & -> & Hg). rewrite (Hz g Hg) in Hp. cbn in Hp.
    rewrite newest_source_none; [done|]. apply Hun, (hits_elem u g); [done|lia].
Qed.

Lemma ResolveRange_spec records cs pos len :
  0 < cs < 2 ^ 32 → 0 ≤ pos → 0 ≤ len → pos + len ≤ cs →
  Forall record_fields records → Forall (λ r, ValidateRecord r cs = OK) records →
  ∃ spans, ResolveRange records cs pos len = Ok spans ∧ tiles pos (pos + len) spans ∧
    coalesced spans ∧
    ∀ s p, s ∈ spans → rs_pos s ≤ p < rs_pos s + rs_len s → span_source s p = visible records p.
Proof.
  intros Hcs Hp Hl Hpl Hfields Hvalid. unfold ResolveRange.
  rewrite (wrap_id 32 (cs - pos)) by (unfold in_range; lia). rewrite !Z.gtb_ltb.
  destruct (Z.eqb_spec cs 0), (Z.ltb_spec cs pos), (Z.ltb_spec (cs - pos) len); try lia. cbn [orb].
  rewrite (proj2 (ValidateRecords_OK records cs) Hvalid). cbn.
  destruct (Z.eqb_spec len 0) as [->|].
  { exists []. split; [done|]. split; [cbn; lia|]. split; [intros [|] ??? ?; done|].
    intros s p Hs. by apply elem_of_nil in Hs. }
  rewrite wrap_id by (unfold in_range; lia).
  assert (Forall (record_ok cs) (reverse records)) as Hok.
  { apply Forall_reverse, Forall_forall. intros r Hr. rewrite Forall_forall in Hfields, Hvalid.
    apply ValidateRecord_OK; [auto|lia|auto]. }
  destruct (OverlayRecords_spec cs pos (pos + len) [] (reverse records) [(pos, pos + len)] [])
    as (u & spans & -> & HR); [lia|done|by apply resolving_start; lia|].
  apply resolving_finish in HR; [|lia..].
  eexists. split; [done|].
  destruct (foldl_AppendCoalesced cs (newest_source ([] ++ reverse records)) pos pos (pos + len) []
    (sort_by rs_pos (spans ++ ((λ g, mkResolvedSlice g.1 0 0 (u32 (g.2 - g.1))) <$> u))))
    as [(Ht & _ & Hs) Hc]; [lia| |done|by intros [|] ???|].
  { split_and!; [done..|]. intros s p Hs. by apply elem_of_nil in Hs. }
  by split_and!.
Qed.

(** C8: [ResolveRange] is total and exact on valid histories.  For every request inside
    the chunk the gap-splitting algorithm terminates within its bound and returns
    spans that tile the request in address order; at every byte the span names exactly
    the object byte of the newest record covering it (or a zero byte where no record
    does, or where the newest one is a zero-cover). *)
Theorem ResolveRange_last_writer_wins records cs pos len :
  0 < cs < 2 ^ 32 → 0 ≤ pos → 0 ≤ len → pos + len ≤ cs →
  Forall record_fields records → Forall (λ r, ValidateRecord r cs = OK) records →
  ∃ spans, ResolveRange records cs pos len = Ok spans ∧ tiles pos (pos + len) spans ∧
    coalesced spans ∧
    ∀ s p, s ∈ spans → rs_pos s ≤ p < rs_pos s + rs_len s → span_source s p = visible records p.
Proof. apply ResolveRange_spec. Qed.

Lemma ResolveRange_last_writer_wins_witness :
  ∃ spans, ResolveRange [mkSliceRecord 0 7 10 0 10; mkSliceRecord 4 8 3 0 3] 16 2 12 = Ok spans ∧
    tiles 2 14 spans ∧ coalesced spans ∧
    ∀ s p, s ∈ spans → rs_pos s ≤ p < rs_pos s + rs_len s →
      span_source s p = visible [mkSliceRecord 0 7 10 0 10; mkSliceRecord 4 8 3 0 3] p.
Proof.
  apply (ResolveRange_last_writer_wins
    [mkSliceRecord 0 7 10 0 10; mkSliceRecord 4 8 3 0 3] 16 2 12); [lia|lia|lia|lia| |].
  - apply (bool_decide_unpack _). vm_compute. exact I.
  - apply (bool_decide_unpack _). vm_compute. exact I.
Defined.

(** the error contract.  A bad request is [InvalidArgument]; otherwise any invalid
    record of the history, even one outside the requested range, is reported as
    [Malformed]; these are the only failures. *)
Theorem ResolveRange_errors records cs pos len s :
  0 ≤ cs < 2 ^ 32 → 0 ≤ pos < 2 ^ 32 → 0 ≤ len < 2 ^ 32 → Forall record_fields records →
  ResolveRange records cs pos len = Err s ↔
    (s = InvalidArgument ∧ (cs = 0 ∨ cs < pos + len)) ∨
    (s = Malformed ∧ 0 < cs ∧ pos + len ≤ cs ∧ Exists (λ r, ValidateRecord r cs ≠ OK) records).
Proof.
  intros Hcs Hp Hl Hf.
  assert (cs ≠ 0 → pos + len ≤ cs → (∃ sp, ResolveRange records cs pos len = Ok sp) ∨
          Exists (λ r, ValidateRecord r cs ≠ OK) records) as Hcase.
  { intros. destruct (decide (Forall (λ r, ValidateRecord r cs = OK) records)) as [Hv|Hv].
    - left. destruct (ResolveRange_spec records cs pos len) as (sp & ? & _);
        [lia..|done|done|by exists sp].
    - right. by apply not_Forall_Exists in Hv; [|apply _]. }
  unfold ResolveRange in *. rewrite !Z.gtb_ltb in *.
  destruct (Z.eqb_spec cs 0); cbn [orb] in *.
  { split; [intros; simplify_eq; left; split; [done|by left]|]. intros [[-> _]|?]; [done|lia]. }
  destruct (Z.ltb_spec cs pos); cbn [orb] in *.
  { split; [intros; simplify_eq; left; split; [done|lia]|]. intros [[-> _]|?]; [done|lia]. }
  rewrite (wrap_id 32 (cs - pos)) in * by (unfold in_range; lia).
  destruct (Z.ltb_spec (cs - pos) len); cbn [orb] in *.
  { split; [intros; simplify_eq; left; split; [done|lia]|]. intros [[-> _]|?]; [done|lia]. }
  pose proof (ValidateRecords_Malformed records cs) as Hm.
  destruct Hcase as [[sp Hsp]|He]; [done|lia| |].
  - rewrite Hsp. split; [done|]. intros [[_ ?]|(_ & _ & _ & He)]; [lia|].
    rewrite (Hm He) in Hsp. done.
  - rewrite (Hm He). cbn. split; [intros; simplify_eq; right; split_and!; try done; lia|].
    intros [[_ ?]|[-> _]]; [lia|done].
Qed.

Lemma ResolveRange_errors_witness :
  ResolveRange [mkSliceRecord 0 7 10 0 10; mkSliceRecord 20 7 4 0 4] 16 2 3 = Err Malformed.
Proof.
  apply (ResolveRange_errors [mkSliceRecord 0 7 10 0 10; mkSliceRecord 20 7 4 0 4] 16 2 3 Malformed);
    [lia|lia|lia|apply (bool_decide_unpack _); vm_compute; exact I|].
  right. split; [done|]. split; [lia|]. split; [lia|].
  right. left. vm_compute. discriminate.
Defined.
