(* ===== verification/DirtyRanges.v ===== *)
(** * Dirty intervals of a Slice chunk

    [AcceptWrite] and [ClipRanges] of src/src/chunk/slice/SliceChunk.cpp: a
    [std::map<size_t, std::string>] of non-touching written intervals.  The reference
    is the byte view [dirty_at]: a partial function from positions to bytes.
    [size_t] sums need no wrap here: [SliceChunk::Write] admits a write only when
    [offset + size] is at most the chunk size. *)

From S2P Require Import Prelude StdMap.

Abbreviation DirtyRanges := (list (Z * bytes)).

Definition range_end (r : Z * bytes) : Z := r.1 + zlen r.2.

(** The merging loop of [AcceptWrite]: [kept] are the ranges the iterator has passed,
    [it] those from the iterator on, [previous] the ranges moved out of the map. *)
Fixpoint MergeTouching (kept it : DirtyRanges) (start end_ : Z) (previous : DirtyRanges)
    : DirtyRanges * DirtyRanges * Z * Z * DirtyRanges :=
  match it with
  | [] => (kept, it, start, end_, previous)
  | r :: it' =>
      if range_end r <? start then MergeTouching (kept ++ [r]) it' start end_ previous
      else if r.1 >? end_ then (kept, it, start, end_, previous)
      else MergeTouching kept it' (Z.min start r.1) (Z.max end_ (range_end r)) (previous ++ [r])
  end.

Definition total_bytes (rs : DirtyRanges) : Z := foldr (λ r acc, zlen r.2 + acc) 0 rs.

Definition MergeWrite (kept it : DirtyRanges) (offset : Z) (bs : bytes) : DirtyRanges * Z :=
  let '(kept, it, start, end_, previous) :=
    MergeTouching kept it offset (offset + zlen bs) [] in
  let previous_bytes := total_bytes previous in
  let merged := foldl (λ m r, memcpy m (r.1 - start) r.2) (zeros (end_ - start)) previous in
  let merged := memcpy merged (offset - start) bs in
  (map_emplace start merged (kept ++ it), zlen merged - previous_bytes).

(** Returns the new ranges and the number of newly covered bytes. *)
Definition AcceptWrite (ranges : DirtyRanges) (offset : Z) (bs : bytes) : DirtyRanges * Z :=
  let end_ := offset + zlen bs in
  let '(before, it) := map_lower_bound offset ranges in
  let starts_after limit := match it with [] => true | r :: _ => r.1 >? limit end in
  if starts_after end_ && match last before with None => true | Some p => range_end p <? offset end
  then (map_emplace offset bs ranges, zlen bs)
  else match last before with
  | Some p =>
      let previous_end := range_end p in
      if (previous_end >=? offset) && starts_after (Z.max end_ previous_end) then
        if end_ <=? previous_end
        then (removelast before ++ (p.1, memcpy p.2 (offset - p.1) bs) :: it, 0)
        else (removelast before ++ (p.1, resize p.2 (offset - p.1) ++ bs) :: it,
              end_ - previous_end)
      else MergeWrite (removelast before) (p :: it) offset bs
  | None => MergeWrite before it offset bs
  end.

Definition ClipRanges (ranges : DirtyRanges) (size : Z) : DirtyRanges :=
  let '(before, _) := map_lower_bound size ranges in
  match last before with
  | None => before
  | Some r => if range_end r >? size
              then removelast before ++ [(r.1, resize r.2 (size - r.1))] else before
  end.

(** ** Reference view and invariant *)

Definition in_range_of (r : Z * bytes) (p : Z) : bool := (r.1 <=? p) && (p <? range_end r).

Fixpoint dirty_at (rs : DirtyRanges) (p : Z) : option ascii :=
  match rs with
  | [] => None
  | r :: rs => if in_range_of r p then byte_at r.2 (p - r.1) else dirty_at rs p
  end.

(** Sorted, pairwise separated (touching ranges have been merged), non-empty. *)
Definition range_before (r s : Z * bytes) : Prop := range_end r < s.1.
Definition range_ok (r : Z * bytes) : Prop := 0 ≤ r.1 ∧ 0 < zlen r.2.
Definition ranges_ok (rs : DirtyRanges) : Prop :=
  StronglySorted range_before rs ∧ Forall range_ok rs.

Example accept_small :
  AcceptWrite [(0, lit "abc"); (5, lit "xy"); (9, lit "z")] 2 (lit "1234")
  = ([(0, lit "ab1234y"); (9, lit "z")], 2).
Proof. reflexivity. Qed.

Example accept_overwrite :
  AcceptWrite [(4, lit "abcdef"); (12, lit "z")] 6 (lit "XY") = ([(4, lit "abXYef"); (12, lit "z")], 0)
  ∧ AcceptWrite [(4, lit "abcdef"); (12, lit "z")] 9 (lit "XY") = ([(4, lit "abcdeXY"); (12, lit "z")], 1).
Proof. split; reflexivity. Qed.

(** ** Basic facts *)

Lemma in_range_of_true r p : in_range_of r p = true ↔ r.1 ≤ p < range_end r.
Proof. unfold in_range_of. rewrite andb_true_iff, Z.leb_le, Z.ltb_lt. done. Qed.

Lemma in_range_of_cases r p :
  (r.1 ≤ p < range_end r ∧ in_range_of r p = true) ∨ (¬ (r.1 ≤ p < range_end r) ∧ in_range_of r p = false).
Proof.
  destruct (in_range_of r p) eqn:E; [left|right]; rewrite <- in_range_of_true; [done|].
  split; congruence.
Qed.

Lemma dirty_at_cons_inside r rs p :
  r.1 ≤ p < range_end r → ∃ c, dirty_at (r :: rs) p = Some c ∧ byte_at r.2 (p - r.1) = Some c.
Proof.
  intros Hp. destruct (byte_at_inside r.2 (p - r.1)) as [c Hc]; [unfold range_end in *; lia|].
  exists c. cbn. by rewrite (proj2 (in_range_of_true r p) Hp).
Qed.

Lemma dirty_at_app rs rs' p :
  dirty_at (rs ++ rs') p = match dirty_at rs p with Some c => Some c | None => dirty_at rs' p end.
Proof.
  induction rs as [|r rs IH]; cbn; [done|]. destruct (in_range_of_cases r p) as [[Hp E]|[_ E]]; rewrite E.
  - destruct (byte_at_inside r.2 (p - r.1)) as [c ->]; [unfold range_end in *; lia|done].
  - apply IH.
Qed.

Lemma dirty_at_None rs p : Forall (λ r, ¬ (r.1 ≤ p < range_end r)) rs → dirty_at rs p = None.
Proof.
  induction 1 as [|r rs Hr _ IH]; cbn; [done|].
  by destruct (in_range_of_cases r p) as [[? _]|[_ ->]].
Qed.

Lemma dirty_at_Some_inv rs p c :
  dirty_at rs p = Some c → ∃ r, r ∈ rs ∧ r.1 ≤ p < range_end r.
Proof.
  induction rs as [|r rs IH]; cbn; [done|]. destruct (in_range_of_cases r p) as [[Hp E]|[_ E]]; rewrite E.
  - intros _. exists r. split; [left|done].
  - intros (s & ? & ?)%IH. exists s. split; [by right|done].
Qed.

Lemma ranges_ok_app l k :
  ranges_ok (l ++ k) ↔ ranges_ok l ∧ ranges_ok k ∧ (∀ r s, r ∈ l → s ∈ k → range_end r < s.1).
Proof.
  unfold ranges_ok. rewrite Forall_app, StronglySorted_app. unfold range_before. naive_solver.
Qed.

Lemma ranges_ok_sorted rs : ranges_ok rs → map_sorted rs.
Proof.
  intros [Hs Hf]. induction Hs as [|r rs Hs IH Hr]; [constructor|].
  inversion Hf as [|?? [? ?] ?]; subst. constructor; [by apply IH|].
  rewrite Forall_forall in Hr |- *. intros s Hs'. unfold key_lt, key_ltb, Z_key.
  apply Z.ltb_lt. specialize (Hr s Hs'). unfold range_before, range_end in *. lia.
Qed.

Lemma total_bytes_app l k : total_bytes (l ++ k) = total_bytes l + total_bytes k.
Proof.
  induction l as [|r l IH]; [done|].
  change (total_bytes ((r :: l) ++ k)) with (zlen r.2 + total_bytes (l ++ k)).
  change (total_bytes (r :: l)) with (zlen r.2 + total_bytes l). lia.
Qed.

(** Ranges that all end below, or all start above, a position do not hold it. *)
Lemma dirty_at_below l p x : (∀ r, r ∈ l → range_end r ≤ x) → x ≤ p → dirty_at l p = None.
Proof. intros Hl ?. apply dirty_at_None, Forall_forall. intros r Hr. specialize (Hl r Hr). lia. Qed.
Lemma dirty_at_above l p x : (∀ r, r ∈ l → x ≤ r.1) → p < x → dirty_at l p = None.
Proof. intros Hl ?. apply dirty_at_None, Forall_forall. intros r Hr. specialize (Hl r Hr). lia. Qed.

(** ** Replacing a middle segment of the map by one range *)

(** The shape every branch of [AcceptWrite] produces: the ranges [mid] become the single
    range [(start, data)], whose bytes are the write on top of [mid]. *)
Lemma replace_segment l mid r start data offset bs :
  ranges_ok (l ++ mid ++ r) → 0 ≤ start → 0 < zlen bs →
  (∀ s, s ∈ l → range_end s < start) → (∀ s, s ∈ r → start + zlen data < s.1) →
  (∀ s, s ∈ mid → start ≤ s.1 ∧ range_end s ≤ start + zlen data) →
  start ≤ offset → offset + zlen bs ≤ start + zlen data →
  (∀ p, start ≤ p < start + zlen data →
     byte_at data (p - start) =
       if (offset <=? p) && (p <? offset + zlen bs) then byte_at bs (p - offset) else dirty_at mid p) →
  let rs' := l ++ (start, data) :: r in
  ranges_ok rs' ∧
  ∀ p, dirty_at rs' p =
    if (offset <=? p) && (p <? offset + zlen bs) then byte_at bs (p - offset)
    else dirty_at (l ++ mid ++ r) p.
Proof.
  intros Hok Hst Hbs Hl Hr Hmid Hso Hoe Hdata rs'.
  apply ranges_ok_app in Hok as (Hokl & Hokmr & _).
  apply ranges_ok_app in Hokmr as (Hokm & Hokr & _).
  split.
  - apply ranges_ok_app. split; [done|]. split.
    + destruct Hokr as [Hs Hf]. split; constructor; try done.
      * apply Forall_forall. intros s Hs'. by apply Hr.
      * unfold range_ok. cbn. lia.
    + intros a b Ha [->|Hb]%elem_of_cons; [by apply Hl|].
      specialize (Hl a Ha). specialize (Hr b Hb). lia.
  - intros p. unfold rs'. rewrite !dirty_at_app. cbn [dirty_at].
    destruct (in_range_of_cases (start, data) p) as [[Hp E]|[Hp E]]; rewrite E; unfold range_end in Hp; cbn in Hp.
    + rewrite (dirty_at_below l p start) by (try (intros s Hs; specialize (Hl s Hs)); lia).
      cbn [fst snd]. rewrite Hdata by lia. destruct (_ && _); [done|].
      destruct (dirty_at mid p); [done|].
      rewrite (dirty_at_above r p (start + zlen data)); [done| |lia].
      intros s Hs. specialize (Hr s Hs). lia.
    + destruct ((offset <=? p) && (p <? offset + zlen bs)) eqn:Ew.
      { apply andb_true_iff in Ew as [? ?]. zify_bools. lia. }
      rewrite (dirty_at_None mid p); [done|]. apply Forall_forall. intros s Hs.
      specialize (Hmid s Hs). lia.
Qed.

(** ** The merging path *)

Definition merging (offset : Z) (bs : bytes) (kept it : DirtyRanges) (start end_ : Z)
    (prev : DirtyRanges) : Prop :=
  ranges_ok (kept ++ prev ++ it) ∧ (∀ r, r ∈ kept → range_end r < start) ∧
  0 ≤ start ≤ offset ∧ offset + zlen bs ≤ end_ ∧
  (∀ r, r ∈ prev → start ≤ r.1 ∧ range_end r ≤ end_) ∧
  (∀ p, start ≤ p < end_ → offset ≤ p < offset + zlen bs ∨ is_Some (dirty_at prev p)).

Lemma merging_skip offset bs kept r it start end_ prev :
  merging offset bs kept (r :: it) start end_ prev → range_end r < start →
  prev = [] ∧ merging offset bs (kept ++ [r]) it start end_ [].
Proof.
  intros (Hok & Hk & Hs & He & Hp & Hc) Hlt.
  assert (prev = []) as ->.
  { destruct prev as [|q prev]; [done|]. exfalso.
    apply ranges_ok_app in Hok as (_ & Hok & _). apply ranges_ok_app in Hok as (_ & [_ Hf] & Hsep).
    inversion Hf as [|?? [? ?] ?]; subst.
    destruct (Hp q) as [? ?]; [left|]. pose proof (Hsep q r ltac:(left) ltac:(left)).
    unfold range_end in *. pose proof (zlen_nonneg q.2). lia. }
  split; [done|]. unfold merging. split_and!; try done; try lia; [by rewrite <- app_assoc|].
  intros q [?| ->%list_elem_of_singleton]%elem_of_app; [by apply Hk|done].
Qed.

Lemma merging_step offset bs kept r it start end_ prev :
  merging offset bs kept (r :: it) start end_ prev → start ≤ range_end r → r.1 ≤ end_ →
  merging offset bs kept it (Z.min start r.1) (Z.max end_ (range_end r)) (prev ++ [r]).
Proof.
  intros (Hok & Hk & Hs & He & Hp & Hc) H1 H2.
  assert (0 ≤ r.1 ∧ ∀ k, k ∈ kept → range_end k < r.1) as [Hr0 Hkr].
  { apply ranges_ok_app in Hok as (_ & Hok & Hsep). split.
    - apply ranges_ok_app in Hok as (_ & [_ Hf] & _). by inversion Hf as [|?? [? ?] ?].
    - intros k Hkk. apply Hsep; [done|]. apply elem_of_app. right. left. }
  unfold merging. split_and!; try lia; [by rewrite <- app_assoc| | |].
  - intros k Hkk. specialize (Hk k Hkk). specialize (Hkr k Hkk). lia.
  - intros q [Hq| ->%list_elem_of_singleton]%elem_of_app; [specialize (Hp q Hq)|]; lia.
  - intros p Hpp. destruct (decide (start ≤ p < end_)) as [Hin|Hout].
    + destruct (Hc p Hin) as [?|[c Hd]]; [by left|right]. exists c. by rewrite dirty_at_app, Hd.
    + right. rewrite dirty_at_app. destruct (dirty_at prev p) as [c|]; [by exists c|].
      destruct (dirty_at_cons_inside r [] p) as (c & -> & _); [lia|]. by exists c.
Qed.

Lemma MergeTouching_spec offset bs kept it start end_ prev kept' it' start' end' prev' :
  MergeTouching kept it start end_ prev = (kept', it', start', end', prev') →
  merging offset bs kept it start end_ prev →
  merging offset bs kept' it' start' end' prev' ∧ kept' ++ prev' ++ it' = kept ++ prev ++ it ∧
  ∀ r, r ∈ it' → end' < r.1.
Proof.
  revert kept start end_ prev. induction it as [|r it IH]; intros kept start end_ prev; cbn.
  { intros ? ?; simplify_eq. split_and!; try done. intros r Hr. by apply elem_of_nil in Hr. }
  intros HE HI. destruct (Z.ltb_spec (range_end r) start).
  - destruct (merging_skip _ _ _ _ _ _ _ _ HI) as [-> HI']; [done|].
    destruct (IH _ _ _ _ HE HI') as (? & E & ?). split_and!; try done.
    rewrite E. by rewrite <- app_assoc.
  - rewrite Z.gtb_ltb in HE. destruct (Z.ltb_spec end_ r.1).
    + simplify_eq. split; [done|]. split; [done|].
      destruct HI as (Hok & _). apply ranges_ok_app in Hok as (_ & Hok & _).
      apply ranges_ok_app in Hok as (_ & [Hs Hf] & _). inversion Hs as [|?? _ Hall]; subst.
      inversion Hf as [|?? [? ?] ?]; subst. rewrite Forall_forall in Hall.
      intros q [->|Hq]%elem_of_cons; [lia|]. specialize (Hall q Hq).
      unfold range_before, range_end in Hall. lia.
    + destruct (IH _ _ _ _ HE (merging_step _ _ _ _ _ _ _ _ HI H ltac:(lia))) as (? & E & ?).
      split_and!; try done. rewrite E. by rewrite <- app_assoc.
Qed.

Lemma foldl_memcpy_spec prev start init :
  ranges_ok prev → (∀ r, r ∈ prev → start ≤ r.1 ∧ range_end r ≤ start + zlen init) →
  let out := foldl (λ m r, memcpy m (r.1 - start) r.2) init prev in
  zlen out = zlen init ∧
  ∀ p, start ≤ p → byte_at out (p - start) =
    match dirty_at prev p with Some c => Some c | None => byte_at init (p - start) end.
Proof.
  revert init. induction prev as [|r prev IH]; intros init Hok Hb; cbn; [done|].
  destruct (Hb r) as [? ?]; [left|]. unfold range_end in *.
  assert (zlen (memcpy init (r.1 - start) r.2) = zlen init) as El by (apply zlen_memcpy; lia).
  apply (ranges_ok_app [r] prev) in Hok as (_ & Hok & Hsep).
  destruct (IH (memcpy init (r.1 - start) r.2)) as [Hl Hbytes]; [done| |].
  { rewrite El. intros s Hs. apply Hb. by right. }
  split; [by rewrite Hl|]. intros p Hp. rewrite Hbytes by done.
  rewrite byte_at_memcpy by lia.
  destruct (in_range_of_cases r p) as [[Hin E]|[Hin E]]; rewrite E; unfold range_end in Hin.
  - rewrite (dirty_at_above prev p (range_end r)).
    + destruct (byte_at_inside r.2 (p - r.1)) as [c Hc]; [lia|]. rewrite Hc.
      destruct (Z.leb_spec (r.1 - start) (p - start)), (Z.ltb_spec (p - start) (r.1 - start + zlen r.2)); try lia.
      cbn. by replace (p - start - (r.1 - start)) with (p - r.1) by lia.
    + intros s Hs. specialize (Hsep r s ltac:(left) Hs). unfold range_end in *. lia.
    + unfold range_end. lia.
  - destruct (dirty_at prev p); [done|].
    destruct (Z.leb_spec (r.1 - start) (p - start)), (Z.ltb_spec (p - start) (r.1 - start + zlen r.2)); cbn; lia || done.
Qed.

(** What every path of [AcceptWrite] establishes. *)
Definition accepted (rs : DirtyRanges) (offset : Z) (bs : bytes) (out : DirtyRanges * Z) : Prop :=
  ranges_ok out.1 ∧
  (∀ p, dirty_at out.1 p =
     if (offset <=? p) && (p <? offset + zlen bs) then byte_at bs (p - offset) else dirty_at rs p) ∧
  out.2 = total_bytes out.1 - total_bytes rs.

Lemma MergeWrite_spec kept it offset bs :
  0 < zlen bs → 0 ≤ offset → ranges_ok (kept ++ it) → (∀ r, r ∈ kept → range_end r < offset) →
  accepted (kept ++ it) offset bs (MergeWrite kept it offset bs).
Proof.
  intros Hbs Ho Hok Hk. unfold MergeWrite.
  destruct (MergeTouching _ _ _ _ _) as [[[[kept' it'] start] end_] prev] eqn:HM.
  apply (MergeTouching_spec offset bs) in HM as (HI & E & Hit).
  2:{ unfold merging. split_and!; try done; try lia; intros x Hx;
      by (left || apply elem_of_nil in Hx). }
  destruct HI as (Hok' & Hk' & Hs & He & Hp & Hc). cbn [app] in E. pose proof (zlen_nonneg bs).
  pose proof Hok' as (_ & (Hokp & _ & _)%ranges_ok_app & _)%ranges_ok_app.
  destruct (foldl_memcpy_spec prev start (zeros (end_ - start))) as [Hl Hb]; [done| |].
  { rewrite zlen_zeros by lia. intros r Hr. destruct (Hp r Hr). lia. }
  set (m0 := foldl _ _ _) in *. set (m := memcpy m0 (offset - start) bs).
  rewrite zlen_zeros in Hl by lia.
  assert (zlen m = end_ - start) as Hm by (unfold m; rewrite zlen_memcpy; lia).
  assert (map_emplace start m (kept' ++ it') = kept' ++ (start, m) :: it') as Ee.
  { pose proof Hok' as ([_ Hfk] & _ & _)%ranges_ok_app. apply map_emplace_middle; apply Forall_forall; intros r Hr.
    - specialize (Hk' r Hr). rewrite Forall_forall in Hfk. destruct (Hfk r Hr). unfold range_end in *. lia.
    - specialize (Hit r Hr). lia. }
  rewrite Ee. rewrite <- E in *. unfold accepted; cbn [fst snd].
  destruct (replace_segment kept' prev it' start m offset bs) as [Hr1 Hr2]; try done; try lia.
  - rewrite Hm. intros s Hs'. specialize (Hit s Hs'). lia.
  - rewrite Hm. intros s Hs'. destruct (Hp s Hs'). lia.
  - rewrite Hm. intros p Hpp. unfold m. rewrite byte_at_memcpy, Hb by lia.
    destruct (Z.leb_spec (offset - start) (p - start)), (Z.ltb_spec (p - start) (offset - start + zlen bs)),
      (Z.leb_spec offset p), (Z.ltb_spec p (offset + zlen bs)); try lia; cbn.
    + by replace (p - start - (offset - start)) with (p - offset) by lia.
    + destruct (Hc p) as [?|[c ->]]; [lia|lia|done].
    + destruct (Hc p) as [?|[c ->]]; [lia|lia|done].
  - split_and!; [done..|]. rewrite !total_bytes_app. cbn [total_bytes foldr]. fold (total_bytes it'). cbn. lia.
Qed.

(** ** [AcceptWrite] and [ClipRanges] *)

Lemma lower_bound_split offset rs b a :
  ranges_ok rs → map_lower_bound offset rs = (b, a) →
  rs = b ++ a ∧ (∀ r, r ∈ b → r.1 < offset) ∧ (∀ r, r ∈ a → offset ≤ r.1).
Proof.
  intros Hok HL. apply map_lower_bound_spec in HL as (-> & Hb & Ha); [|by apply ranges_ok_sorted].
  split; [done|]. rewrite Forall_forall in Hb, Ha. unfold key_ltb, Z_key in *.
  split; intros r Hr; [specialize (Hb r Hr)|specialize (Ha r Hr)]; zlia.
Qed.

(** The head of a sorted tail decides for the whole tail. *)
Lemma starts_after_spec it limit :
  ranges_ok it → (match it with [] => true | r :: _ => r.1 >? limit end) = true →
  ∀ r, r ∈ it → limit < r.1.
Proof.
  intros [Hs Hf] H r Hr. destruct it as [|q it]; [by apply elem_of_nil in Hr|].
  inversion Hs as [|?? _ Hall]; inversion Hf as [|?? [? ?] ?]; subst. rewrite Forall_forall in Hall.
  rewrite Z.gtb_ltb in H. apply Z.ltb_lt in H.
  apply elem_of_cons in Hr as [->|Hr]; [lia|]. specialize (Hall r Hr).
  unfold range_before, range_end in *. lia.
Qed.

Lemma accept_fresh b a offset bs :
  0 < zlen bs → 0 ≤ offset → ranges_ok (b ++ a) → (∀ r, r ∈ b → range_end r < offset) →
  (∀ r, r ∈ a → offset + zlen bs < r.1) →
  accepted (b ++ a) offset bs (map_emplace offset bs (b ++ a), zlen bs).
Proof.
  intros Hbs Ho Hok Hb Ha.
  rewrite (map_emplace_middle offset bs b a).
  2:{ pose proof Hok as ([_ Hf] & _)%ranges_ok_app. rewrite Forall_forall in Hf |- *.
      intros r Hr. specialize (Hb r Hr). destruct (Hf r Hr). unfold range_end in *. lia. }
  2:{ apply Forall_forall. intros r Hr. specialize (Ha r Hr). lia. }
  destruct (replace_segment b [] a offset bs offset bs) as [H1 H2]; try done; try lia.
  - intros r Hr. by apply elem_of_nil in Hr.
  - intros p Hp. destruct (Z.leb_spec offset p), (Z.ltb_spec p (offset + zlen bs)); try lia. done.
  - unfold accepted; cbn [fst snd]. split_and!; [done..|].
    rewrite !total_bytes_app. cbn [total_bytes foldr]. fold (total_bytes a). cbn. lia.
Qed.

Lemma accept_into_previous b p a offset bs data n :
  0 < zlen bs → 0 ≤ offset → ranges_ok ((b ++ [p]) ++ a) → p.1 < offset ≤ range_end p →
  (∀ r, r ∈ a → Z.max (offset + zlen bs) (range_end p) < r.1) →
  zlen data = Z.max (offset + zlen bs) (range_end p) - p.1 → n = zlen data - zlen p.2 →
  (∀ q, p.1 ≤ q < p.1 + zlen data → byte_at data (q - p.1) =
     if (offset <=? q) && (q <? offset + zlen bs) then byte_at bs (q - offset) else byte_at p.2 (q - p.1)) →
  accepted ((b ++ [p]) ++ a) offset bs (b ++ (p.1, data) :: a, n).
Proof.
  intros Hbs Ho Hok Hp Ha Hl -> Hd. rewrite <- app_assoc in *.
  pose proof Hok as (_ & (Hokp & _)%ranges_ok_app & Hsep)%ranges_ok_app.
  destruct Hokp as [_ Hf]. inversion Hf as [|?? [Hp0 Hpl] _]; subst.
  destruct (replace_segment b [p] a p.1 data offset bs) as [H1 H2]; try done; try lia.
  - intros s Hs. apply Hsep; [done|]. apply elem_of_app. left. by left.
  - intros s Hs. specialize (Ha s Hs). lia.
  - intros s ->%list_elem_of_singleton. lia.
  - intros q Hq. rewrite Hd by done. destruct (_ && _) eqn:E; [done|]. cbn.
    destruct (in_range_of_cases p q) as [[? Ei]|[Hn Ei]]; rewrite Ei; [done|].
    apply byte_at_outside. unfold range_end in *.
    destruct (Z.leb_spec offset q), (Z.ltb_spec q (offset + zlen bs)); try done; lia.
  - unfold accepted; cbn [fst snd]. split_and!; [done..|].
    rewrite !total_bytes_app. cbn [total_bytes foldr]. fold (total_bytes a). cbn. lia.
Qed.

(** Overwrite inside the previous range. *)
Lemma accept_within b p a offset bs :
  0 < zlen bs → 0 ≤ offset → ranges_ok ((b ++ [p]) ++ a) → p.1 < offset →
  offset + zlen bs ≤ range_end p → (∀ r, r ∈ a → Z.max (offset + zlen bs) (range_end p) < r.1) →
  accepted ((b ++ [p]) ++ a) offset bs (b ++ (p.1, memcpy p.2 (offset - p.1) bs) :: a, 0).
Proof.
  intros ?? Hok Hp Hl Ha. assert (zlen p.2 = range_end p - p.1) as Hpl by (unfold range_end; lia).
  apply (accept_into_previous b p a); try done; try lia.
  - rewrite zlen_memcpy; lia.
  - rewrite zlen_memcpy by lia. lia.
  - intros q Hq. rewrite byte_at_memcpy by lia.
    replace (q - p.1 - (offset - p.1)) with (q - offset) by lia.
    destruct (Z.leb_spec (offset - p.1) (q - p.1)), (Z.ltb_spec (q - p.1) (offset - p.1 + zlen bs)),
      (Z.leb_spec offset q), (Z.ltb_spec q (offset + zlen bs)); try lia; done.
Qed.

(** Extension of the previous range's tail. *)
Lemma accept_extend b p a offset bs :
  0 < zlen bs → 0 ≤ offset → ranges_ok ((b ++ [p]) ++ a) → p.1 < offset ≤ range_end p →
  range_end p < offset + zlen bs → (∀ r, r ∈ a → Z.max (offset + zlen bs) (range_end p) < r.1) →
  accepted ((b ++ [p]) ++ a) offset bs
    (b ++ (p.1, resize p.2 (offset - p.1) ++ bs) :: a, offset + zlen bs - range_end p).
Proof.
  intros ?? Hok Hp Hl Ha. assert (zlen p.2 = range_end p - p.1) as Hpl by (unfold range_end; lia).
  rewrite resize_cut by lia.
  assert (zlen (take (Z.to_nat (offset - p.1)) p.2) = offset - p.1) as Ht
    by (unfold zlen in *; rewrite length_take; lia).
  apply (accept_into_previous b p a); try done; try lia; rewrite ?zlen_app, ?Ht; try lia.
  intros q Hq. rewrite byte_at_app, Ht, byte_at_take.
  replace (q - p.1 - (offset - p.1)) with (q - offset) by lia.
  destruct (Z.ltb_spec (q - p.1) (offset - p.1)), (Z.leb_spec offset q), (Z.ltb_spec q (offset + zlen bs));
    try lia; done.
Qed.

Lemma AcceptWrite_spec rs offset bs :
  ranges_ok rs → 0 ≤ offset → 0 < zlen bs → accepted rs offset bs (AcceptWrite rs offset bs).
Proof.
  intros Hok Ho Hbs. unfold AcceptWrite.
  destruct (map_lower_bound offset rs) as [b a] eqn:HL.
  apply lower_bound_split in HL as (-> & Hb & Ha); [|done].
  pose proof Hok as (Hokb & Hoka & _)%ranges_ok_app.
  destruct (last b) as [p|] eqn:Hlast.
  2:{ apply last_None in Hlast as ->. destruct (_ && true) eqn:E.
      - apply andb_true_iff in E as [E _]. apply accept_fresh; try done.
        + intros r Hr. by apply elem_of_nil in Hr.
        + by apply starts_after_spec.
      - apply MergeWrite_spec; try done. intros r Hr. by apply elem_of_nil in Hr. }
  apply last_Some in Hlast as [b0 ->]. rewrite removelast_last.
  pose proof Hokb as (_ & _ & Hb0)%ranges_ok_app.
  assert (p.1 < offset) as Hp by (apply Hb, elem_of_app; right; by left).
  assert (∀ r, r ∈ b0 → range_end r < offset) as Hb0o.
  { intros r Hr. specialize (Hb0 r p Hr ltac:(by left)). lia. }
  destruct (_ && (range_end p <? offset)) eqn:E1.
  { apply andb_true_iff in E1 as [E1 E2]. apply Z.ltb_lt in E2. apply accept_fresh; try done.
    - intros r [Hr| ->%list_elem_of_singleton]%elem_of_app; [by apply Hb0o|done].
    - by apply starts_after_spec. }
  destruct ((range_end p >=? offset) && _) eqn:E2.
  - apply andb_true_iff in E2 as [E2 E3]. rewrite Z.geb_leb in E2. apply Z.leb_le in E2.
    pose proof (starts_after_spec a _ Hoka E3) as Ha'.
    destruct (Z.leb_spec (offset + zlen bs) (range_end p)).
    + apply accept_within; try done; lia.
    + apply accept_extend; try done; lia.
  - rewrite <- app_assoc in *. cbn [app] in *. by apply MergeWrite_spec.
Qed.

(** [AcceptWrite] is exactly "overwrite these bytes" on the byte view, whatever
    branch it takes (fresh range, in-place overwrite, tail extension, merge of every
    touched range); it keeps the ranges sorted, non-empty and non-touching, and returns
    the number of bytes newly covered. *)
Theorem AcceptWrite_overwrites rs offset bs :
  ranges_ok rs → 0 ≤ offset → 0 < zlen bs → accepted rs offset bs (AcceptWrite rs offset bs).
Proof. apply AcceptWrite_spec. Qed.

Lemma AcceptWrite_overwrites_witness :
  accepted [(0, lit "abc"); (5, lit "xy")] 2 (lit "1234")
    ([(0, lit "ab1234y")], 2).
Proof.
  apply (AcceptWrite_overwrites [(0, lit "abc"); (5, lit "xy")] 2 (lit "1234")); [|lia|vm_compute; reflexivity].
  split; repeat constructor; vm_compute; congruence.
Defined.

Lemma ClipRanges_spec rs size :
  ranges_ok rs → 0 ≤ size →
  ranges_ok (ClipRanges rs size) ∧
  ∀ p, dirty_at (ClipRanges rs size) p = if p <? size then dirty_at rs p else None.
Proof.
  intros Hok Hs. unfold ClipRanges. destruct (map_lower_bound size rs) as [b a] eqn:HL.
  apply lower_bound_split in HL as (-> & Hb & Ha); [|done].
  pose proof Hok as (Hokb & Hoka & _)%ranges_ok_app.
  assert (∀ p, p < size → dirty_at (b ++ a) p = dirty_at b p) as Hlow.
  { intros p Hp. rewrite dirty_at_app, (dirty_at_above a p size) by done. by destruct (dirty_at b p). }
  destruct (last b) as [r|] eqn:Hlast.
  2:{ apply last_None in Hlast as ->. split; [done|]. intros p. destruct (Z.ltb_spec p size); [|done].
      by rewrite Hlow. }
  apply last_Some in Hlast as [b0 ->]. rewrite removelast_last.
  pose proof Hokb as (Hok0 & [_ Hf] & Hsep)%ranges_ok_app. inversion Hf as [|?? [? ?] _]; subst.
  assert (r.1 < size) as Hr by (apply Hb, elem_of_app; right; by left).
  assert (∀ q, q ∈ b0 → range_end q < r.1) as Hq by (intros q Hq'; apply Hsep; [done|by left]).
  rewrite Z.gtb_ltb. destruct (Z.ltb_spec size (range_end r)) as [Hlt|Hge].
  - assert (resize r.2 (size - r.1) = take (Z.to_nat (size - r.1)) r.2) as ->.
    { apply resize_cut. unfold range_end in *. lia. }
    assert (zlen (take (Z.to_nat (size - r.1)) r.2) = size - r.1) as Ht
      by (unfold range_end, zlen in *; rewrite length_take; lia).
    split.
    + apply ranges_ok_app. split; [done|]. split.
      * split; repeat constructor; cbn; lia.
      * intros q s Hq' ->%list_elem_of_singleton. by apply Hq.
    + intros p. rewrite dirty_at_app. cbn [dirty_at]. unfold in_range_of, range_end; cbn. rewrite Ht.
      destruct (Z.ltb_spec p size) as [Hp|Hp].
      * rewrite Hlow, dirty_at_app by done. cbn. unfold in_range_of, range_end in *.
        rewrite byte_at_take. destruct (dirty_at b0 p); [done|].
        destruct (Z.leb_spec r.1 p), (Z.ltb_spec p (r.1 + (size - r.1))), (Z.ltb_spec p (r.1 + zlen r.2)),
          (Z.ltb_spec (p - r.1) (size - r.1)); cbn; try lia; done.
      * rewrite (dirty_at_below b0 p r.1); [|intros q Hq'; specialize (Hq q Hq'); lia|lia].
        destruct (Z.leb_spec r.1 p), (Z.ltb_spec p (r.1 + (size - r.1))); cbn; try lia; done.
  - split; [done|]. intros p. destruct (Z.ltb_spec p size); [by rewrite Hlow|].
    apply (dirty_at_below _ p size); [|done].
    intros q [Hq'| ->%list_elem_of_singleton]%elem_of_app; [specialize (Hq q Hq')|]; lia.
Qed.

(** [ClipRanges] removes exactly the bytes at or beyond the new size and keeps
    every earlier byte; no empty range is left behind. *)
Theorem ClipRanges_truncates rs size :
  ranges_ok rs → 0 ≤ size →
  ranges_ok (ClipRanges rs size) ∧
  ∀ p, dirty_at (ClipRanges rs size) p = if p <? size then dirty_at rs p else None.
Proof. apply ClipRanges_spec. Qed.

Lemma ClipRanges_truncates_witness :
  ClipRanges [(0, lit "abc"); (5, lit "xy")] 6 = [(0, lit "abc"); (5, lit "x")] ∧
  ranges_ok [(0, lit "abc"); (5, lit "x")].
Proof.
  split; [reflexivity|].
  refine (proj1 (ClipRanges_truncates [(0, lit "abc"); (5, lit "xy")] 6 _ _)); [|lia].
  split; repeat constructor; vm_compute; congruence.
Defined.
