(* ===== verification/InodeTypes.v ===== *)
(** * Inode attributes, records and policy

    src/src/metadata/types/{Common.hpp,Inode.hpp,Inode.cpp}, InodePolicy.hpp and the pure
    helpers of src/src/metadata/Utils.cpp.  The clock ([::time(nullptr)]) is an argument
    [now] of the operations that read it. *)

From S2P Require Import Prelude StdMap.

(** ** File modes (sys/stat.h) *)
Definition S_IFMT : Z := 61440.
Definition S_IFSOCK : Z := 49152.
Definition S_IFLNK : Z := 40960.
Definition S_IFREG : Z := 32768.
Definition S_IFBLK : Z := 24576.
Definition S_IFDIR : Z := 16384.
Definition S_IFCHR : Z := 8192.
Definition S_IFIFO : Z := 4096.
Definition S_ISUID : Z := 2048.
Definition S_ISGID : Z := 1024.
Definition S_ISVTX : Z := 512.
Definition S_IXGRP : Z := 8.

Definition S_ISDIR (mode : Z) : bool := Z.land mode S_IFMT =? S_IFDIR.
Definition S_ISREG (mode : Z) : bool := Z.land mode S_IFMT =? S_IFREG.
Definition S_ISLNK (mode : Z) : bool := Z.land mode S_IFMT =? S_IFLNK.
Definition S_ISBLK (mode : Z) : bool := Z.land mode S_IFMT =? S_IFBLK.
Definition S_ISCHR (mode : Z) : bool := Z.land mode S_IFMT =? S_IFCHR.
Definition S_ISFIFO (mode : Z) : bool := Z.land mode S_IFMT =? S_IFIFO.
Definition S_ISSOCK (mode : Z) : bool := Z.land mode S_IFMT =? S_IFSOCK.

(** [a & ~b] on unsigned values. *)
Definition clear_bits (a b : Z) : Z := Z.ldiff a b.
Definition has_bits (a b : Z) : bool := negb (Z.land a b =? 0).

(** ** Common.hpp *)
Definition kRootInodeId : Z := 1.
Definition kMaxXAttrNameLength : Z := 255.
Definition kMaxXAttrValueSize : Z := 65536.
Definition kMaxXAttrListSize : Z := 65536.

(** [SetAttrField] bit sets. *)
Definition kMode : Z := 1.
Definition kUid : Z := 2.
Definition kGid : Z := 4.
Definition kSize : Z := 8.
Definition kAtime : Z := 16.
Definition kMtime : Z := 32.
Definition kAtimeNow : Z := 128.
Definition kMtimeNow : Z := 256.
Definition kCtime : Z := 1024.
Definition kKillSuidGid : Z := 2048.
Definition HasSetAttrField (fields field : Z) : bool := has_bits fields field.

(** [InodeFlag] bit sets. *)
Definition kImmutable : Z := 1.
Definition kAppendOnly : Z := 2.
Definition kSupportedInodeFlagBits : Z := Z.lor kImmutable kAppendOnly.
Definition HasInodeFlag (flags flag : Z) : bool := has_bits flags flag.
Definition HasOnlySupportedInodeFlags (flags : Z) : bool :=
  clear_bits flags kSupportedInodeFlagBits =? 0.

Inductive XAttrSetMode := kUpsert | kCreateOnly | kReplaceOnly.

(** [RenameFlag] bit sets. *)
Definition kNoReplace : Z := 1.
Definition kExchange : Z := 2.
Definition HasRenameFlag (flags flag : Z) : bool := has_bits flags flag.

(** ** SwordFsAttr *)
Record SwordFsAttr := mkAttr {
  dev : Z; attr_ino : Z; mode : Z; nlink : Z; uid : Z; gid : Z; rdev : Z;
  size : Z; blksize : Z; blocks : Z;
  atime : Z; atime_nsec : Z; mtime : Z; mtime_nsec : Z;
  ctime : Z; ctime_nsec : Z; btime : Z; btime_nsec : Z;
  inode_flags : Z;
}.

#[export] Instance SwordFsAttr_eq_dec : EqDecision SwordFsAttr.
Proof. solve_decision. Defined.

Definition set_mode (v : Z) (a : SwordFsAttr) : SwordFsAttr :=
  mkAttr (dev a) (attr_ino a) v (nlink a) (uid a) (gid a) (rdev a) (size a) (blksize a) (blocks a)
    (atime a) (atime_nsec a) (mtime a) (mtime_nsec a) (ctime a) (ctime_nsec a)
    (btime a) (btime_nsec a) (inode_flags a).
Definition set_nlink (v : Z) (a : SwordFsAttr) : SwordFsAttr :=
  mkAttr (dev a) (attr_ino a) (mode a) v (uid a) (gid a) (rdev a) (size a) (blksize a) (blocks a)
    (atime a) (atime_nsec a) (mtime a) (mtime_nsec a) (ctime a) (ctime_nsec a)
    (btime a) (btime_nsec a) (inode_flags a).
Definition set_uid (v : Z) (a : SwordFsAttr) : SwordFsAttr :=
  mkAttr (dev a) (attr_ino a) (mode a) (nlink a) v (gid a) (rdev a) (size a) (blksize a) (blocks a)
    (atime a) (atime_nsec a) (mtime a) (mtime_nsec a) (ctime a) (ctime_nsec a)
    (btime a) (btime_nsec a) (inode_flags a).
Definition set_gid (v : Z) (a : SwordFsAttr) : SwordFsAttr :=
  mkAttr (dev a) (attr_ino a) (mode a) (nlink a) (uid a) v (rdev a) (size a) (blksize a) (blocks a)
    (atime a) (atime_nsec a) (mtime a) (mtime_nsec a) (ctime a) (ctime_nsec a)
    (btime a) (btime_nsec a) (inode_flags a).
Definition set_rdev (v : Z) (a : SwordFsAttr) : SwordFsAttr :=
  mkAttr (dev a) (attr_ino a) (mode a) (nlink a) (uid a) (gid a) v (size a) (blksize a) (blocks a)
    (atime a) (atime_nsec a) (mtime a) (mtime_nsec a) (ctime a) (ctime_nsec a)
    (btime a) (btime_nsec a) (inode_flags a).
Definition set_size (v : Z) (a : SwordFsAttr) : SwordFsAttr :=
  mkAttr (dev a) (attr_ino a) (mode a) (nlink a) (uid a) (gid a) (rdev a) v (blksize a) (blocks a)
    (atime a) (atime_nsec a) (mtime a) (mtime_nsec a) (ctime a) (ctime_nsec a)
    (btime a) (btime_nsec a) (inode_flags a).
Definition set_atime (v ns : Z) (a : SwordFsAttr) : SwordFsAttr :=
  mkAttr (dev a) (attr_ino a) (mode a) (nlink a) (uid a) (gid a) (rdev a) (size a) (blksize a) (blocks a)
    v ns (mtime a) (mtime_nsec a) (ctime a) (ctime_nsec a) (btime a) (btime_nsec a) (inode_flags a).
Definition set_mtime (v ns : Z) (a : SwordFsAttr) : SwordFsAttr :=
  mkAttr (dev a) (attr_ino a) (mode a) (nlink a) (uid a) (gid a) (rdev a) (size a) (blksize a) (blocks a)
    (atime a) (atime_nsec a) v ns (ctime a) (ctime_nsec a) (btime a) (btime_nsec a) (inode_flags a).
Definition set_ctime (v ns : Z) (a : SwordFsAttr) : SwordFsAttr :=
  mkAttr (dev a) (attr_ino a) (mode a) (nlink a) (uid a) (gid a) (rdev a) (size a) (blksize a) (blocks a)
    (atime a) (atime_nsec a) (mtime a) (mtime_nsec a) v ns (btime a) (btime_nsec a) (inode_flags a).
Definition set_inode_flags (v : Z) (a : SwordFsAttr) : SwordFsAttr :=
  mkAttr (dev a) (attr_ino a) (mode a) (nlink a) (uid a) (gid a) (rdev a) (size a) (blksize a) (blocks a)
    (atime a) (atime_nsec a) (mtime a) (mtime_nsec a) (ctime a) (ctime_nsec a)
    (btime a) (btime_nsec a) v.

Definition zero_attr : SwordFsAttr := mkAttr 0 0 0 0 0 0 0 0 0 0 0 0 0 0 0 0 0 0 0.

(** [SwordFsAttr(ino, mode, uid, gid)]. *)
Definition new_attr (now ino mode uid gid : Z) : SwordFsAttr :=
  mkAttr 0 ino mode (if S_ISDIR mode then 2 else 1) uid gid 0
    (if S_ISDIR mode then 4096 else 0) 4096 0
    now 0 now 0 now 0 now 0 0.

Definition ClearSetidForKillPriv (a : SwordFsAttr) : SwordFsAttr :=
  let m := clear_bits (mode a) S_ISUID in
  set_mode (if has_bits m S_IXGRP then clear_bits m S_ISGID else m) a.

Definition ProjectedPosixBlocks (a : SwordFsAttr) : Z :=
  if S_ISREG (mode a) && (blocks a =? 0) && negb (size a =? 0) then 1 else blocks a.

(** ** SwordFsInode *)
Record SwordFsInode := mkInode {
  ino : Z;
  attr : SwordFsAttr;
  parent_ino : Z;
  symlink_target : bytes;
  xattrs : list (bytes * bytes);   (* std::map<std::string, std::string> *)
}.

Definition new_inode (ino : Z) (a : SwordFsAttr) (parent : Z) (target : bytes) : SwordFsInode :=
  mkInode ino a parent target [].
Definition set_attr (a : SwordFsAttr) (i : SwordFsInode) : SwordFsInode :=
  mkInode (ino i) a (parent_ino i) (symlink_target i) (xattrs i).
Definition set_parent_ino (p : Z) (i : SwordFsInode) : SwordFsInode :=
  mkInode (ino i) (attr i) p (symlink_target i) (xattrs i).
Definition set_xattrs (x : list (bytes * bytes)) (i : SwordFsInode) : SwordFsInode :=
  mkInode (ino i) (attr i) (parent_ino i) (symlink_target i) x.

Definition touch_attr (now fields : Z) (a : SwordFsAttr) : SwordFsAttr :=
  let a := if HasSetAttrField fields kAtime then set_atime now 0 a else a in
  let a := if HasSetAttrField fields kMtime then set_mtime now 0 a else a in
  if HasSetAttrField fields kCtime then set_ctime now 0 a else a.
Definition Touch (now fields : Z) (i : SwordFsInode) : SwordFsInode :=
  set_attr (touch_attr now fields (attr i)) i.

Definition IsDir (i : SwordFsInode) : bool := S_ISDIR (mode (attr i)).
Definition IsRegular (i : SwordFsInode) : bool := S_ISREG (mode (attr i)).
Definition IsSymlink (i : SwordFsInode) : bool := S_ISLNK (mode (attr i)).

Definition CheckStickyDelete (dir : SwordFsInode) (caller : Z) (target : SwordFsInode) : bool :=
  if negb (has_bits (mode (attr dir)) S_ISVTX) then true
  else (caller =? 0) || (caller =? uid (attr dir)) || (caller =? uid (attr target)).

(** ** InodePolicy.hpp *)
Definition IsImmutable (a : SwordFsAttr) : bool := HasInodeFlag (inode_flags a) kImmutable.
Definition IsAppendOnly (a : SwordFsAttr) : bool := HasInodeFlag (inode_flags a) kAppendOnly.
Definition HasRestrictiveInodePolicy (a : SwordFsAttr) : bool := IsImmutable a || IsAppendOnly a.

Definition CheckSetAttrPolicy (a : SwordFsAttr) (fields : Z) : Status :=
  if IsImmutable a then NotPermitted else
  if negb (IsAppendOnly a) then OK else
  let kAlwaysForbidden := Z.lor (Z.lor (Z.lor kMode kUid) kGid) kSize in
  let explicit_atime := HasSetAttrField fields kAtime && negb (HasSetAttrField fields kAtimeNow) in
  let explicit_mtime := HasSetAttrField fields kMtime && negb (HasSetAttrField fields kMtimeNow) in
  if has_bits fields kAlwaysForbidden || explicit_atime || explicit_mtime then NotPermitted else OK.

Definition CheckContentMetadataMutationPolicy (a : SwordFsAttr) : Status :=
  if HasRestrictiveInodePolicy a then NotPermitted else OK.
Definition CheckDirectoryAdditionPolicy (parent : SwordFsAttr) : Status :=
  if IsImmutable parent then NotPermitted else OK.
Definition CheckDirectoryRemovalPolicy (parent : SwordFsAttr) : Status :=
  if HasRestrictiveInodePolicy parent then NotPermitted else OK.

(** ** Utils.cpp: pure helpers *)
Definition DT_UNKNOWN : Z := 0.
Definition DT_FIFO : Z := 1.
Definition DT_CHR : Z := 2.
Definition DT_DIR : Z := 4.
Definition DT_BLK : Z := 6.
Definition DT_REG : Z := 8.
Definition DT_LNK : Z := 10.
Definition DT_SOCK : Z := 12.

Definition ModeToDt (mode : Z) : Z :=
  if S_ISDIR mode then DT_DIR else
  if S_ISREG mode then DT_REG else
  if S_ISLNK mode then DT_LNK else
  if S_ISBLK mode then DT_BLK else
  if S_ISCHR mode then DT_CHR else
  if S_ISFIFO mode then DT_FIFO else
  if S_ISSOCK mode then DT_SOCK else DT_UNKNOWN.

(** Returns the inherited group and mode. *)
Definition ResolveCreateInheritance (caller_gid : Z) (parent : SwordFsAttr) (child_mode : Z) : Z * Z :=
  if has_bits (mode parent) S_ISGID
  then (gid parent, if S_ISDIR child_mode then Z.lor child_mode S_ISGID else child_mode)
  else (caller_gid, child_mode).

Definition kMaxNameLength : Z := 255.
Definition ValidateNameComponent (name : bytes) : Status :=
  if zlen name >? kMaxNameLength then NameTooLong else OK.

Definition ValidateMknodMode (mode : Z) : Status :=
  let t := Z.land mode S_IFMT in
  if (t =? S_IFREG) || (t =? S_IFIFO) || (t =? S_IFCHR) || (t =? S_IFBLK) || (t =? S_IFSOCK)
  then OK else InvalidArgument.

Definition NormalizeMknodRdev (mode rdev : Z) : Z :=
  if S_ISCHR mode || S_ISBLK mode then rdev else 0.
