(* ===== verification/Acl.v ===== *)
(** * POSIX ACL extended attributes

    src/src/metadata/PosixAcl.cpp: the binary ACL format, its validator, the projection
    between an access ACL and the permission bits of the mode, and create-time
    inheritance.  Every function here fails before it mutates the inode, so an operation
    on [SwordFsInode *] is a function to [result SwordFsInode]. *)

From stdpp Require Import gmap.
From S2P Require Import Prelude StdMap InodeTypes.

(** ** Data *)
Definition kAclXattrVersion : Z := 2.
Definition kAclUserObj : Z := 1.
Definition kAclUser : Z := 2.
Definition kAclGroupObj : Z := 4.
Definition kAclGroup : Z := 8.
Definition kAclMask : Z := 16.
Definition kAclOther : Z := 32.
Definition kAclPermMask : Z := 7.
Definition kAclUndefinedId : Z := UINT32_MAX.
Definition kAclHeaderSize : Z := 4.
Definition kAclEntrySize : Z := 8.

Record AclEntry := mkAclEntry { tag : Z; perm : Z; id : Z }.

#[export] Instance AclEntry_eq_dec : EqDecision AclEntry.
Proof. solve_decision. Defined.

(** [static_cast<uint8_t>(data[offset])]; every caller stays inside [data]. *)
Definition octet (data : bytes) (offset : Z) : Z :=
  from_option Z_of_byte 0 (byte_at data offset).

Definition ReadLe16 (data : bytes) (offset : Z) : Z :=
  Z.lor (octet data offset) (Z.shiftl (octet data (offset + 1)) 8).

Definition ReadLe32 (data : bytes) (offset : Z) : Z :=
  Z.lor (Z.lor (Z.lor (octet data offset) (Z.shiftl (octet data (offset + 1)) 8))
               (Z.shiftl (octet data (offset + 2)) 16))
        (Z.shiftl (octet data (offset + 3)) 24).

Definition AppendLe16 (out : bytes) (value : Z) : bytes :=
  out ++ [byte_of_Z (Z.land value 255)] ++ [byte_of_Z (Z.land (Z.shiftr value 8) 255)].

Definition AppendLe32 (out : bytes) (value : Z) : bytes :=
  out ++ [byte_of_Z (Z.land value 255)] ++ [byte_of_Z (Z.land (Z.shiftr value 8) 255)]
      ++ [byte_of_Z (Z.land (Z.shiftr value 16) 255)] ++ [byte_of_Z (Z.land (Z.shiftr value 24) 255)].

(** ** class PosixAcl: a vector of entries *)
Abbreviation PosixAcl := (list AclEntry).

(** The validator's automaton ([enum class State] and the loop's locals).  [kGroupObj]
    and [kMask] are declared by the source and never entered. *)
Inductive State := kStUserObj | kStUsers | kStGroupObj | kStGroups | kStMask | kStOther | kStDone.

#[export] Instance State_eq_dec : EqDecision State.
Proof. solve_decision. Defined.

Record Validator := mkValidator {
  state : State;
  user_ids : gset Z;
  group_ids : gset Z;
  has_named : bool;
  has_mask : bool;
}.

Definition initial : Validator := mkValidator kStUserObj ∅ ∅ false false.

(** One iteration of the loop of [Validate]. *)
Definition ValidateEntry (v : Validator) (e : AclEntry) : result Validator :=
  let '(mkValidator st users groups named mask) := v in
  _ ← fail_if (negb (clear_bits (perm e) kAclPermMask =? 0)) InvalidArgument;
  _ ← (if (tag e =? kAclUser) || (tag e =? kAclGroup)
       then fail_if (id e =? kAclUndefinedId) InvalidArgument
       else fail_if (negb (id e =? kAclUndefinedId)) InvalidArgument);
  if tag e =? kAclUserObj then
    _ ← fail_if (bool_decide (st ≠ kStUserObj)) InvalidArgument;
    Ok (mkValidator kStUsers users groups named mask)
  else if tag e =? kAclUser then
    _ ← fail_if (bool_decide (st ≠ kStUsers)) InvalidArgument;
    _ ← fail_if (bool_decide (id e ∈ users)) InvalidArgument;
    Ok (mkValidator st ({[ id e ]} ∪ users) groups true mask)
  else if tag e =? kAclGroupObj then
    _ ← fail_if (bool_decide (st ≠ kStUsers)) InvalidArgument;
    Ok (mkValidator kStGroups users groups named mask)
  else if tag e =? kAclGroup then
    _ ← fail_if (bool_decide (st ≠ kStGroups)) InvalidArgument;
    _ ← fail_if (bool_decide (id e ∈ groups)) InvalidArgument;
    Ok (mkValidator st users ({[ id e ]} ∪ groups) true mask)
  else if tag e =? kAclMask then
    _ ← fail_if (bool_decide (st ≠ kStGroups)) InvalidArgument;
    Ok (mkValidator kStOther users groups named true)
  else if tag e =? kAclOther then
    _ ← fail_if (bool_decide (st ≠ kStGroups) && bool_decide (st ≠ kStOther)) InvalidArgument;
    Ok (mkValidator kStDone users groups named mask)
  else Err InvalidArgument.

(** The loop and the checks after it. *)
Fixpoint ValidateFrom (v : Validator) (entries : PosixAcl) : Status :=
  match entries with
  | [] =>
      if bool_decide (state v ≠ kStDone) then InvalidArgument else
      if has_named v && negb (has_mask v) then InvalidArgument else OK
  | e :: rest =>
      match ValidateEntry v e with
      | Ok v' => ValidateFrom v' rest
      | Err s => s
      end
  end.

Definition Validate (entries : PosixAcl) : Status :=
  if zlen entries <? 3 then InvalidArgument else ValidateFrom initial entries.

Definition ReadEntry (data : bytes) (i : Z) : AclEntry :=
  let offset := kAclHeaderSize + i * kAclEntrySize in
  mkAclEntry (ReadLe16 data offset) (ReadLe16 data (offset + 2)) (ReadLe32 data (offset + 4)).

Definition Parse (data : bytes) : result PosixAcl :=
  _ ← fail_if ((zlen data <? kAclHeaderSize)
               || negb ((zlen data - kAclHeaderSize) mod kAclEntrySize =? 0)) InvalidArgument;
  _ ← fail_if (negb (ReadLe32 data 0 =? kAclXattrVersion)) InvalidArgument;
  let count := (zlen data - kAclHeaderSize) / kAclEntrySize in
  let parsed := ReadEntry data <$> seqZ 0 count in
  _ ← check (Validate parsed);
  Ok parsed.

Definition AppendEntry (value : bytes) (e : AclEntry) : bytes :=
  AppendLe32 (AppendLe16 (AppendLe16 value (tag e)) (perm e)) (id e).
Definition Serialize (entries : PosixAcl) : bytes :=
  foldl AppendEntry (AppendLe32 [] kAclXattrVersion) entries.

Definition IsMinimal (entries : PosixAcl) : bool :=
  match entries with
  | [a; b; c] => (tag a =? kAclUserObj) && (tag b =? kAclGroupObj) && (tag c =? kAclOther)
  | _ => false
  end.

Definition Find (t : Z) (entries : PosixAcl) : option AclEntry :=
  List.find (λ e, tag e =? t) entries.

(** [FindMutable(t)->perm = f(FindMutable(t)->perm)].  The source dereferences without
    a null check; [Validate_entries_present] shows that the entry exists. *)
Fixpoint update_perm (t : Z) (f : Z → Z) (entries : PosixAcl) : PosixAcl :=
  match entries with
  | [] => []
  | e :: rest => if tag e =? t then mkAclEntry (tag e) (f (perm e)) (id e) :: rest
                 else e :: update_perm t f rest
  end.

Definition perm_of (t : Z) (entries : PosixAcl) : Z := from_option perm 0 (Find t entries).

(** The tag that [group_class] points at. *)
Definition group_class (entries : PosixAcl) : Z :=
  match Find kAclMask entries with Some _ => kAclMask | None => kAclGroupObj end.

Definition PermissionsMode (entries : PosixAcl) : Z :=
  Z.lor (Z.lor (Z.shiftl (perm_of kAclUserObj entries) 6)
               (Z.shiftl (perm_of (group_class entries) entries) 3))
        (perm_of kAclOther entries).

Definition ApplyMode (mode : Z) (entries : PosixAcl) : PosixAcl :=
  let l := update_perm kAclUserObj (λ _, Z.land (Z.shiftr mode 6) kAclPermMask) entries in
  let l := update_perm (group_class l) (λ _, Z.land (Z.shiftr mode 3) kAclPermMask) l in
  update_perm kAclOther (λ _, Z.land mode kAclPermMask) l.

Definition RestrictToMode (mode : Z) (entries : PosixAcl) : PosixAcl :=
  let l := update_perm kAclUserObj (λ p, Z.land p (Z.land (Z.shiftr mode 6) kAclPermMask)) entries in
  let l := update_perm (group_class l) (λ p, Z.land p (Z.land (Z.shiftr mode 3) kAclPermMask)) l in
  update_perm kAclOther (λ p, Z.land p (Z.land mode kAclPermMask)) l.

(** ** Operations on inodes *)
Definition kPosixAclAccessXAttr : bytes := lit "system.posix_acl_access".
Definition kPosixAclDefaultXAttr : bytes := lit "system.posix_acl_default".
Arguments kPosixAclAccessXAttr : simpl never.
Arguments kPosixAclDefaultXAttr : simpl never.
Definition IsPosixAclXAttrName (name : bytes) : bool :=
  bool_decide (name = kPosixAclAccessXAttr) || bool_decide (name = kPosixAclDefaultXAttr).

Definition has_xattr (inode : SwordFsInode) (name : bytes) : bool :=
  bool_decide (is_Some (map_find name (xattrs inode))).

Definition CheckSetMode (inode : SwordFsInode) (name : bytes) (m : XAttrSetMode) : Status :=
  match m with
  | kUpsert => OK
  | kCreateOnly => if has_xattr inode name then AlreadyExists else OK
  | kReplaceOnly => if has_xattr inode name then OK else NoData
  end.

(** [list_bytes] after the loop over the stored names. *)
Definition list_bytes (name : bytes) (xs : list (bytes * bytes)) : Z :=
  foldl (λ acc x, acc + (zlen x.1 + 1)) (zlen name + 1) xs.

Definition CheckInsertListSize (inode : SwordFsInode) (name : bytes) : Status :=
  if has_xattr inode name then OK else
  if list_bytes name (xattrs inode) >? kMaxXAttrListSize then Range else OK.

Definition ParseStoredAcl (value : bytes) : result PosixAcl :=
  match Parse value with Ok acl => Ok acl | Err _ => Err Malformed end.

(** [(mode & ~0777) | perms]. *)
Definition with_permissions (mode perms : Z) : Z := Z.lor (clear_bits mode 511) perms.

Definition SetPosixAclXAttr (now : Z) (inode : SwordFsInode) (name value : bytes) (m : XAttrSetMode)
    : result SwordFsInode :=
  _ ← fail_if (negb (IsPosixAclXAttrName name)) InvalidArgument;
  _ ← fail_if (IsSymlink inode) OperationNotSupported;
  _ ← fail_if (bool_decide (name = kPosixAclDefaultXAttr) && negb (IsDir inode)) Permission;
  _ ← fail_if (zlen value >? kMaxXAttrValueSize) Range;
  _ ← check (CheckSetMode inode name m);
  acl ← Parse value;
  _ ← (if bool_decide (name = kPosixAclDefaultXAttr) || negb (IsMinimal acl)
       then check (CheckInsertListSize inode name) else Ok tt);
  let inode :=
    if bool_decide (name = kPosixAclAccessXAttr) then
      let inode := set_attr (set_mode (with_permissions (mode (attr inode)) (PermissionsMode acl))
                               (attr inode)) inode in
      if IsMinimal acl then set_xattrs (map_erase name (xattrs inode)) inode
      else set_xattrs (map_assign name (Serialize acl) (xattrs inode)) inode
    else set_xattrs (map_assign name (Serialize acl) (xattrs inode)) inode in
  Ok (Touch now kCtime inode).

Definition RemovePosixAclXAttr (now : Z) (inode : SwordFsInode) (name : bytes) : result SwordFsInode :=
  _ ← fail_if (negb (IsPosixAclXAttrName name)) InvalidArgument;
  _ ← fail_if (IsSymlink inode) OperationNotSupported;
  _ ← fail_if (bool_decide (name = kPosixAclDefaultXAttr) && negb (IsDir inode)) Permission;
  match map_find name (xattrs inode) with
  | None => Err NoData
  | Some _ => Ok (Touch now kCtime (set_xattrs (map_erase name (xattrs inode)) inode))
  end.

Definition SyncPosixAccessAclForMode (inode : SwordFsInode) (mode : Z) : result SwordFsInode :=
  match map_find kPosixAclAccessXAttr (xattrs inode) with
  | None => Ok inode
  | Some stored =>
      acl ← ParseStoredAcl stored;
      Ok (set_xattrs (map_assign kPosixAclAccessXAttr (Serialize (ApplyMode mode acl)) (xattrs inode)) inode)
  end.

Definition ApplyPosixAclCreateInheritance (parent : SwordFsInode) (umask : Z) (child : SwordFsInode)
    : result SwordFsInode :=
  if IsSymlink child then Ok child else
  match map_find kPosixAclDefaultXAttr (xattrs parent) with
  | None =>
      let m := mode (attr child) in
      Ok (set_attr (set_mode (with_permissions m (clear_bits (Z.land m 511) umask)) (attr child)) child)
  | Some default =>
      acl ← ParseStoredAcl default;
      let acl := RestrictToMode (mode (attr child)) acl in
      let child := set_attr (set_mode (with_permissions (mode (attr child)) (PermissionsMode acl))
                               (attr child)) child in
      let child := if IsMinimal acl then child
                   else set_xattrs (map_assign kPosixAclAccessXAttr (Serialize acl) (xattrs child)) child in
      Ok (if IsDir child
          then set_xattrs (map_assign kPosixAclDefaultXAttr default (xattrs child)) child
          else child)
  end.

(** ** The binary format *)

Lemma lor_shiftl a b n : 0 ≤ n → 0 ≤ a < 2 ^ n → Z.lor a (Z.shiftl b n) = a + b * 2 ^ n.
Proof.
  intros Hn Ha. rewrite <- Z.shiftl_mul_pow2 by done. symmetry. apply Z.add_nocarry_lor.
  apply Z.bits_inj'. intros i Hi. rewrite Z.land_spec, Z.bits_0, Z.shiftl_spec by done.
  destruct (Z.lt_ge_cases i n).
  - by rewrite (Z.testbit_neg_r b) by lia; rewrite andb_false_r.
  - rewrite <- (Z.mod_small a (2 ^ n)) by done. by rewrite Z.mod_pow2_bits_high by lia.
Qed.

Lemma octet_app p l k : 0 ≤ k → octet (p ++ l) (zlen p + k) = octet l k.
Proof.
  intros. unfold octet. rewrite byte_at_app. destruct (Z.ltb_spec (zlen p + k) (zlen p)); [lia|].
  by replace (zlen p + k - zlen p) with k by lia.
Qed.

Lemma octet_nth l k : octet l (Z.of_nat k) = Z_of_byte (nth k l Ascii.zero).
Proof.
  unfold octet, byte_at. destruct (Z.ltb_spec (Z.of_nat k) 0); [lia|]. rewrite Nat2Z.id.
  clear. revert k. induction l as [|c l IH]; intros [|k]; try done. apply IH.
Qed.

Lemma byte_land z : byte_of_Z (Z.land z 255) = byte_of_Z z.
Proof.
  unfold byte_of_Z. change 255 with (Z.ones 8). rewrite Z.land_ones by lia.
  by rewrite Zmod_mod.
Qed.

Lemma AppendLe16_spec out v : AppendLe16 out v = out ++ le_bytes 2 v.
Proof. unfold AppendLe16. rewrite !byte_land, Z.shiftr_div_pow2 by lia. done. Qed.

Lemma AppendLe32_spec out v : AppendLe32 out v = out ++ le_bytes 4 v.
Proof.
  unfold AppendLe32. rewrite !byte_land, !Z.shiftr_div_pow2 by lia. cbn [le_bytes].
  rewrite !Zdiv.Zdiv_Zdiv by lia. done.
Qed.

Lemma ReadLe16_mid p v rest : ReadLe16 (p ++ le_bytes 2 v ++ rest) (zlen p) = v mod 2 ^ 16.
Proof.
  unfold ReadLe16. rewrite <- (Z.add_0_r (zlen p)) at 1. rewrite !octet_app by lia.
  rewrite (octet_nth _ 0), (octet_nth _ 1). cbn [nth le_bytes app].
  pose proof (Z_of_byte_range (byte_of_Z v)). rewrite lor_shiftl by lia.
  change (2 ^ 16) with (256 ^ Z.of_nat 2). rewrite <- le_value_le_bytes. cbn [le_value le_bytes]. lia.
Qed.

Lemma ReadLe32_mid p v rest : ReadLe32 (p ++ le_bytes 4 v ++ rest) (zlen p) = v mod 2 ^ 32.
Proof.
  unfold ReadLe32. rewrite <- (Z.add_0_r (zlen p)) at 1. rewrite !octet_app by lia.
  rewrite (octet_nth _ 0), (octet_nth _ 1), (octet_nth _ 2), (octet_nth _ 3). cbn [nth le_bytes app].
  pose proof (Z_of_byte_range (byte_of_Z v)). pose proof (Z_of_byte_range (byte_of_Z (v / 256))).
  pose proof (Z_of_byte_range (byte_of_Z (v / 256 / 256))).
  rewrite (lor_shiftl (Z_of_byte _) _ 8), (lor_shiftl _ _ 16), (lor_shiftl _ _ 24) by lia.
  change (2 ^ 32) with (256 ^ Z.of_nat 4). rewrite <- le_value_le_bytes. cbn [le_value le_bytes]. lia.
Qed.

Definition entry_bytes (e : AclEntry) : bytes :=
  le_bytes 2 (tag e) ++ le_bytes 2 (perm e) ++ le_bytes 4 (id e).
Definition entry_fields (e : AclEntry) : Prop :=
  in_range 16 (tag e) ∧ in_range 16 (perm e) ∧ in_range 32 (id e).
#[export] Instance entry_fields_dec e : Decision (entry_fields e).
Proof. unfold entry_fields. apply _. Defined.

Definition acl_header : bytes := le_bytes 4 kAclXattrVersion.

Lemma Serialize_spec acl : Serialize acl = acl_header ++ concat (entry_bytes <$> acl).
Proof.
  unfold Serialize. rewrite AppendLe32_spec. cbn [app]. fold acl_header. generalize acl_header.
  induction acl as [|e acl IH]; intros out; cbn [foldl fmap list_fmap concat]; [by rewrite app_nil_r|].
  rewrite IH. unfold AppendEntry, entry_bytes. rewrite AppendLe32_spec, !AppendLe16_spec.
  by rewrite <- !app_assoc.
Qed.

Lemma zlen_entry_bytes e : zlen (entry_bytes e) = 8.
Proof. reflexivity. Qed.

Lemma zlen_entries acl : zlen (concat (entry_bytes <$> acl)) = 8 * zlen acl.
Proof.
  induction acl as [|e acl IH]; cbn [fmap list_fmap concat]; [done|].
  rewrite zlen_app, zlen_entry_bytes, IH, zlen_cons. lia.
Qed.

Lemma ReadEntry_spec p acl i e :
  zlen p = kAclHeaderSize → Forall entry_fields acl → acl !! i = Some e →
  ReadEntry (p ++ concat (entry_bytes <$> acl)) (Z.of_nat i) = e.
Proof.
  intros Hp Hf Hi. pose proof (Forall_lookup_1 _ _ _ _ Hf Hi) as (Ht & Hpm & Hid).
  pose proof (lookup_lt_Some _ _ _ Hi) as Hlt.
  rewrite <- (take_drop_middle acl i e Hi), fmap_app, concat_app, app_assoc.
  set (q := p ++ concat _). cbn [fmap list_fmap concat].
  assert (kAclHeaderSize + Z.of_nat i * kAclEntrySize = zlen q) as Hq.
  { unfold q. rewrite zlen_app, Hp, zlen_entries. unfold zlen. rewrite length_take.
    unfold kAclEntrySize. lia. }
  unfold ReadEntry. rewrite Hq. unfold entry_bytes. rewrite <- !app_assoc.
  rewrite ReadLe16_mid.
  rewrite (app_assoc q), (eq_refl : zlen q + 2 = zlen q + zlen (le_bytes 2 (tag e))), <- zlen_app.
  rewrite ReadLe16_mid, (app_assoc (_ ++ _)).
  replace (zlen q + 4) with (zlen ((q ++ le_bytes 2 (tag e)) ++ le_bytes 2 (perm e)))
    by (rewrite !zlen_app, !zlen_le_bytes; lia).
  rewrite ReadLe32_mid, !Z.mod_small by done. by destruct e.
Qed.

Lemma ReadEntries_spec p acl :
  zlen p = kAclHeaderSize → Forall entry_fields acl →
  ReadEntry (p ++ concat (entry_bytes <$> acl)) <$> seqZ 0 (zlen acl) = acl.
Proof.
  intros Hp Hf. apply list_eq. intros i. rewrite list_lookup_fmap.
  destruct (acl !! i) as [e|] eqn:Hi.
  - pose proof (lookup_lt_Some _ _ _ Hi). rewrite lookup_seqZ_lt, Z.add_0_l by (unfold zlen; lia).
    apply (f_equal Some). by apply ReadEntry_spec.
  - apply lookup_ge_None in Hi. rewrite lookup_seqZ_ge by (unfold zlen; lia). done.
Qed.

(** Any block of whole entries is the layout of some entry list. *)
Lemma entries_of_bytes n l :
  length l = (8 * n)%nat →
  ∃ acl, length acl = n ∧ Forall entry_fields acl ∧ concat (entry_bytes <$> acl) = l.
Proof.
  revert l. induction n as [|n IH]; intros l Hl.
  { exists []. by destruct l. }
  do 8 (destruct l as [|? l]; [cbn in Hl; lia|]).
  destruct (IH l) as (acl & <- & Hf & <-); [cbn in Hl; lia|].
  pose proof (le_value_range [a; a0]) as R1. pose proof (le_value_range [a1; a2]) as R2.
  pose proof (le_value_range [a3; a4; a5; a6]) as R3.
  exists (mkAclEntry (le_value [a; a0]) (le_value [a1; a2]) (le_value [a3; a4; a5; a6]) :: acl).
  split; [done|]. split; [by constructor|]. cbn [fmap list_fmap concat]. unfold entry_bytes; cbn [tag perm id].
  pose proof (le_bytes_le_value [a; a0]) as E1. pose proof (le_bytes_le_value [a1; a2]) as E2.
  pose proof (le_bytes_le_value [a3; a4; a5; a6]) as E3. cbn [length] in E1, E2, E3.
  by rewrite E1, E2, E3.
Qed.

Lemma ReadLe32_header h rest :
  length h = 4%nat → ReadLe32 (h ++ rest) 0 = kAclXattrVersion ↔ h = acl_header.
Proof.
  intros Hh. rewrite <- (le_bytes_le_value h), Hh at 1.
  pose proof (ReadLe32_mid [] (le_value h) rest) as E. cbn [app] in E.
  change (zlen []) with 0 in E. rewrite E.
  pose proof (le_value_range h) as R. unfold zlen in R. rewrite Hh in R.
  rewrite Z.mod_small by exact R. split.
  - intros Hv. rewrite <- (le_bytes_le_value h), Hh, Hv. done.
  - intros ->. reflexivity.
Qed.

Lemma Parse_iff data acl :
  Parse data = Ok acl ↔
  data = Serialize acl ∧ Validate acl = OK ∧ Forall entry_fields acl.
Proof.
  rewrite Serialize_spec. unfold Parse. split.
  - intros H. inv_result. subst. zify_bools. unfold kAclHeaderSize, kAclEntrySize in *.
    assert (length (take 4 data) = 4%nat) as Hh by (unfold zlen in *; rewrite length_take; lia).
    revert Hh. generalize (take 4 data) (drop 4 data) (take_drop 4 data). intros h l <- Hh.
    rewrite zlen_app in *. assert (zlen h = 4) as Hz by (unfold zlen; lia).
    rewrite Hz in *. replace (4 + zlen l - 4) with (zlen l) in * by lia.
    apply (ReadLe32_header h l Hh) in H1 as ->.
    destruct (entries_of_bytes (Z.to_nat (zlen l / 8)) l) as (acl & Hn & Hf & <-).
    { pose proof (Z.div_mod (zlen l) 8). pose proof (zlen_nonneg l). unfold zlen in *. lia. }
    rewrite zlen_entries, (Z.mul_comm 8), Z.div_mul in * by lia.
    rewrite (ReadEntries_spec acl_header acl) in * by done. done.
  - intros (-> & Hv & Hf). rewrite zlen_app, zlen_entries.
    change (zlen acl_header) with 4. unfold kAclHeaderSize, kAclEntrySize.
    replace (4 + 8 * zlen acl - 4) with (zlen acl * 8) by lia.
    rewrite Z.mod_mul, Z.div_mul, (ReadEntries_spec acl_header acl) by done.
    rewrite (proj2 (ReadLe32_header acl_header _ eq_refl) eq_refl), Hv.
    pose proof (zlen_nonneg acl). by destruct (Z.ltb_spec (4 + 8 * zlen acl) 4); [lia|].
Qed.

(** C15: parsing and serialising ACLs are inverse, and the format has one encoding per
    ACL.  A byte string parses to [acl] exactly when it is [Serialize acl] and [acl] is a
    valid ACL of 16/16/32-bit fields; in particular [Parse (Serialize acl) = Ok acl]. *)
Theorem Parse_Serialize data acl :
  Parse data = Ok acl ↔
  data = Serialize acl ∧ Validate acl = OK ∧ Forall entry_fields acl.
Proof. apply Parse_iff. Qed.

(** ** The validator accepts exactly the ACL grammar *)

Definition entry_ok (t : Z) (e : AclEntry) : Prop :=
  tag e = t ∧ clear_bits (perm e) kAclPermMask = 0 ∧
  (id e = kAclUndefinedId ↔ t ≠ kAclUser ∧ t ≠ kAclGroup).

(** [user::, user:id:*, group::, group:id:*, mask?, other::] with distinct ids in each
    named block and a mask whenever a named entry is present. *)
Definition acl_tail (named : bool) (seen : gset Z) (l : PosixAcl) : Prop :=
  ∃ groups mask other, l = groups ++ mask ++ [other] ∧
    Forall (entry_ok kAclGroup) groups ∧ NoDup (id <$> groups) ∧
    Forall (λ e, id e ∉ seen) groups ∧
    Forall (entry_ok kAclMask) mask ∧ (length mask ≤ 1)%nat ∧ entry_ok kAclOther other ∧
    (named = true ∨ groups ≠ [] → mask ≠ []).

Definition acl_grammar (acl : PosixAcl) : Prop :=
  ∃ owner users group rest, acl = owner :: users ++ group :: rest ∧
    entry_ok kAclUserObj owner ∧ Forall (entry_ok kAclUser) users ∧ NoDup (id <$> users) ∧
    entry_ok kAclGroupObj group ∧ acl_tail (bool_decide (users ≠ [])) ∅ rest.

(** The six productions of one iteration. *)
Definition entry_step (v : Validator) (e : AclEntry) (v' : Validator) : Prop :=
  let '(mkValidator st users groups named mask) := v in
  (entry_ok kAclUserObj e ∧ st = kStUserObj ∧ v' = mkValidator kStUsers users groups named mask) ∨
  (entry_ok kAclUser e ∧ st = kStUsers ∧ id e ∉ users ∧
     v' = mkValidator st ({[ id e ]} ∪ users) groups true mask) ∨
  (entry_ok kAclGroupObj e ∧ st = kStUsers ∧ v' = mkValidator kStGroups users groups named mask) ∨
  (entry_ok kAclGroup e ∧ st = kStGroups ∧ id e ∉ groups ∧
     v' = mkValidator st users ({[ id e ]} ∪ groups) true mask) ∨
  (entry_ok kAclMask e ∧ st = kStGroups ∧ v' = mkValidator kStOther users groups named true) ∨
  (entry_ok kAclOther e ∧ (st = kStGroups ∨ st = kStOther) ∧ v' = mkValidator kStDone users groups named mask).

Lemma ValidateEntry_spec v e v' : ValidateEntry v e = Ok v' ↔ entry_step v e v'.
Proof.
  destruct v as [st users groups named mask], e as [t p i]. unfold ValidateEntry, entry_step, entry_ok.
  cbn [tag perm id].
  destruct (Z.eqb_spec (clear_bits p kAclPermMask) 0) as [Hp|Hp]; cbn [negb fail_if mbind result_bind];
    [|split; [done|tauto]].
  unfold kAclUserObj, kAclUser, kAclGroupObj, kAclGroup, kAclMask, kAclOther in *.
  destruct (Z.eqb_spec i kAclUndefinedId) as [Hi|Hi];
  destruct (Z.eqb_spec t 1) as [->|]; [|destruct (Z.eqb_spec t 2) as [->|];
    [|destruct (Z.eqb_spec t 4) as [->|]; [|destruct (Z.eqb_spec t 8) as [->|];
    [|destruct (Z.eqb_spec t 16) as [->|]; [|destruct (Z.eqb_spec t 32) as [->|]]]]]| |
    destruct (Z.eqb_spec t 2) as [->|];
    [|destruct (Z.eqb_spec t 4) as [->|]; [|destruct (Z.eqb_spec t 8) as [->|];
    [|destruct (Z.eqb_spec t 16) as [->|]; [|destruct (Z.eqb_spec t 32) as [->|]]]]]];
  cbn; repeat case_bool_decide; cbn; split; intros; simplify_eq/=; try tauto; naive_solver.
Qed.

Lemma ValidateEntry_InvalidArgument v e s : ValidateEntry v e = Err s → s = InvalidArgument.
Proof.
  destruct v. unfold ValidateEntry, fail_if. repeat case_match; cbn; by intros; simplify_eq.
Qed.

Ltac inv_step H :=
  unfold entry_step in H; destruct_or!; destruct_and?; destruct_or?; try done.

Lemma ValidateFrom_cons v e l :
  ValidateFrom v (e :: l) = OK ↔ ∃ v', entry_step v e v' ∧ ValidateFrom v' l = OK.
Proof.
  cbn [ValidateFrom]. setoid_rewrite <- ValidateEntry_spec.
  destruct (ValidateEntry v e) as [v'|s] eqn:E; split.
  - eauto.
  - intros (? & ? & ?). by simplify_eq.
  - apply ValidateEntry_InvalidArgument in E as ->. done.
  - intros (? & ? & ?). by simplify_eq.
Qed.

Lemma ValidateFrom_done U G hn hm l :
  ValidateFrom (mkValidator kStDone U G hn hm) l = OK ↔ l = [] ∧ (hn = true → hm = true).
Proof.
  destruct l as [|e l].
  - cbn. destruct hn, hm; cbn; intuition done.
  - rewrite ValidateFrom_cons. split; [|by intros [? _]].
    intros (v' & H & _). inv_step H.
Qed.

Lemma ValidateFrom_other U G hn l :
  ValidateFrom (mkValidator kStOther U G hn true) l = OK ↔ ∃ e, l = [e] ∧ entry_ok kAclOther e.
Proof.
  destruct l as [|e l].
  - cbn. split; [done|]. by intros (? & ? & _).
  - rewrite ValidateFrom_cons. split.
    + intros (v' & H & Hv). inv_step H. subst v'.
      apply ValidateFrom_done in Hv as [-> _]. by exists e.
    + intros (e' & ? & Hok). simplify_eq. exists (mkValidator kStDone U G hn true).
      split; [cbn; eauto 10|by apply ValidateFrom_done].
Qed.

Lemma acl_tail_other named seen e : entry_ok kAclOther e → named = false → acl_tail named seen [e].
Proof.
  intros He ->. exists [], [], e. split_and!; try done; try constructor; cbn; [lia|by intros [?|?]].
Qed.

Lemma acl_tail_mask named seen m e :
  entry_ok kAclMask m → entry_ok kAclOther e → acl_tail named seen [m; e].
Proof.
  intros Hm He. exists [], [m], e. split_and!; try done; constructor; done.
Qed.

Lemma acl_tail_group named seen g l :
  entry_ok kAclGroup g → id g ∉ seen →
  acl_tail true ({[ id g ]} ∪ seen) l → acl_tail named seen (g :: l).
Proof.
  intros Hg Hs (gs & m & o & -> & ? & Hn & Hsn & ? & ? & ? & Him).
  exists (g :: gs), m, o. split_and!; try done.
  - by constructor.
  - apply NoDup_cons. split; [|done]. intros (x & Hx & Hin)%list_elem_of_fmap.
    rewrite Forall_forall in Hsn. specialize (Hsn x Hin). set_solver.
  - constructor; [done|]. eapply Forall_impl; [exact Hsn|]. set_solver.
  - intros _. apply Him. by left.
Qed.

Lemma entry_ok_tag t t' e : entry_ok t e → entry_ok t' e → t = t'.
Proof. by intros [<- _] [<- _]. Qed.

Lemma acl_tail_cons named seen e l :
  acl_tail named seen (e :: l) →
  (entry_ok kAclGroup e ∧ id e ∉ seen ∧ acl_tail true ({[ id e ]} ∪ seen) l) ∨
  (entry_ok kAclMask e ∧ ∃ o, l = [o] ∧ entry_ok kAclOther o) ∨
  (entry_ok kAclOther e ∧ l = [] ∧ named = false).
Proof.
  intros (gs & m & o & Heq & Hg & Hn & Hs & Hm & Hl & Ho & Him).
  destruct gs as [|g gs]; simplify_eq/=.
  - right. destruct m as [|x m]; simplify_eq/=.
    + right. split_and!; try done. destruct named; [|done]. by destruct Him; [left|].
    + left. destruct m; [|cbn in Hl; lia]. inversion Hm; subst. eauto.
  - left. inversion Hg as [|?? Hge Hgs]; inversion Hs as [|?? Hse Hss]; subst.
    apply NoDup_cons in Hn as [Hne Hn]. split_and!; [done|done|].
    exists gs, m, o. split_and!; try done.
    + apply Forall_forall. intros x Hx. rewrite Forall_forall in Hss.
      assert (id x ≠ id g) by (intros E; apply Hne; rewrite <- E; by apply list_elem_of_fmap_2).
      specialize (Hss x Hx). set_solver.
    + intros _. apply Him. by right.
Qed.

Lemma ValidateFrom_groups U G hn l :
  ValidateFrom (mkValidator kStGroups U G hn false) l = OK ↔ acl_tail hn G l.
Proof.
  revert G hn. induction l as [|e l IH]; intros G hn.
  { cbn. split; [done|]. intros (gs & m & o & Heq & _).
    apply (f_equal length) in Heq. rewrite !length_app in Heq. cbn in Heq. lia. }
  rewrite ValidateFrom_cons. split.
  - intros (v' & H & Hv). inv_step H; subst v'.
    + apply acl_tail_group; [done|done|]. by apply IH.
    + apply ValidateFrom_other in Hv as (o & -> & Ho). by apply acl_tail_mask.
    + apply ValidateFrom_done in Hv as [-> Hh]. apply acl_tail_other; [done|].
      destruct hn; [|done]. by specialize (Hh eq_refl).
  - intros [(He & Hs & Ht)|[(He & o & -> & Ho)|(He & -> & ->)]]%acl_tail_cons;
      (eexists; split; [cbn; eauto 10|]).
    + by apply IH.
    + apply ValidateFrom_other. eauto.
    + by apply ValidateFrom_done.
Qed.

Definition users_tail (named : bool) (seen : gset Z) (l : PosixAcl) : Prop :=
  ∃ users group rest, l = users ++ group :: rest ∧
    Forall (entry_ok kAclUser) users ∧ NoDup (id <$> users) ∧ Forall (λ e, id e ∉ seen) users ∧
    entry_ok kAclGroupObj group ∧ acl_tail (named || bool_decide (users ≠ [])) ∅ rest.

Lemma ValidateFrom_users U hn l :
  ValidateFrom (mkValidator kStUsers U ∅ hn false) l = OK ↔ users_tail hn U l.
Proof.
  revert U hn. induction l as [|e l IH]; intros U hn.
  { cbn. split; [done|]. intros ([|??] & g & rest & Heq & _); done. }
  rewrite ValidateFrom_cons. split.
  - intros (v' & H & Hv). inv_step H; subst v'.
    + apply IH in Hv as (us & g & rest & -> & Hu & Hn & Hs & Hg & Ht).
      exists (e :: us), g, rest. split_and!; try done.
      * by constructor.
      * apply NoDup_cons. split; [|done]. intros (x & Hx & Hin)%list_elem_of_fmap.
        rewrite Forall_forall in Hs. specialize (Hs x Hin). set_solver.
      * constructor; [done|]. eapply Forall_impl; [exact Hs|]. set_solver.
      * rewrite bool_decide_eq_true_2 by done. by rewrite orb_true_r.
    + apply ValidateFrom_groups in Hv. exists [], e, l. split_and!; try done; try constructor.
      by rewrite orb_false_r.
  - intros ([|u us] & g & rest & Heq & Hu & Hn & Hs & Hg & Ht); simplify_eq/=.
    + eexists. split; [cbn; eauto 10|]. apply ValidateFrom_groups. by rewrite orb_false_r in Ht.
    + inversion Hu; inversion Hs; subst. apply NoDup_cons in Hn as [Hne Hn].
      eexists. split; [cbn; eauto 10|]. apply IH. exists us, g, rest. split_and!; try done.
      * apply Forall_forall. intros x Hx. match goal with H : Forall (λ e, id e ∉ U) us |- _ =>
          rewrite Forall_forall in H; specialize (H x Hx) end.
        assert (id x ≠ id u) by (intros E; apply Hne; rewrite <- E; by apply list_elem_of_fmap_2).
        set_solver.
      * by rewrite orb_true_r in Ht.
Qed.

Lemma Validate_iff acl : Validate acl = OK ↔ acl_grammar acl.
Proof.
  unfold Validate, acl_grammar. split.
  - destruct (_ <? 3); [done|]. destruct acl as [|e l]; [done|]. unfold initial.
    rewrite ValidateFrom_cons. intros (v' & H & Hv).
    inv_step H; subst v'.
    apply ValidateFrom_users in Hv as (us & g & rest & -> & ? & ? & _ & ? & ?).
    exists e, us, g, rest. by split_and!.
  - intros (o & us & g & rest & -> & Ho & Hu & Hn & Hg & Ht).
    destruct (Z.ltb_spec (zlen (o :: us ++ g :: rest)) 3) as [Hlt|_].
    { destruct Ht as (gs & m & ot & -> & _). unfold zlen in Hlt. cbn in Hlt.
      rewrite length_app in Hlt. cbn in Hlt. rewrite !length_app in Hlt. cbn in Hlt. lia. }
    unfold initial. apply ValidateFrom_cons. eexists. split; [cbn; eauto|].
    apply ValidateFrom_users. exists us, g, rest. split_and!; try done.
    apply Forall_forall. set_solver.
Qed.

(** the one-pass automaton of [Validate] accepts exactly the well-formed ACLs: owner,
    distinct named users, owning group, distinct named groups, at most one mask, other,
    in this order, with 3-bit permissions, ids present exactly on named entries, and a
    mask whenever there is a named entry. *)
Theorem Validate_accepts_grammar acl : Validate acl = OK ↔ acl_grammar acl.
Proof. apply Validate_iff. Qed.

(** ** Bits *)

Lemma bits_ext a b : (∀ i, 0 ≤ i → Z.testbit a i = Z.testbit b i) → a = b.
Proof. apply Z.bits_inj'. Qed.

Lemma perm_ok_land p : clear_bits p kAclPermMask = 0 ↔ Z.land p kAclPermMask = p.
Proof.
  unfold clear_bits. split; intros H.
  - rewrite <- (Z.lor_ldiff_and p kAclPermMask) at 2. by rewrite H.
  - rewrite <- H. apply bits_ext. intros i Hi. rewrite Z.ldiff_spec, Z.land_spec, Z.bits_0.
    destruct (Z.testbit p i), (Z.testbit kAclPermMask i); done.
Qed.

Lemma land_shiftl a m n : 0 ≤ n → Z.land (Z.shiftl a n) m = Z.shiftl (Z.land a (Z.shiftr m n)) n.
Proof.
  intros Hn. apply bits_ext. intros i Hi.
  rewrite Z.land_spec, !Z.shiftl_spec, Z.land_spec by done.
  destruct (Z.lt_ge_cases i n).
  - by rewrite !(Z.testbit_neg_r _ (i - n)) by lia.
  - rewrite Z.shiftr_spec by lia. do 2 f_equal. lia.
Qed.

(** A mode projected from three permission triples. *)
Definition mode_bits (u g o : Z) : Z := Z.lor (Z.lor (Z.shiftl u 6) (Z.shiftl g 3)) o.

Lemma mode_bits_land u g o m :
  Z.land (mode_bits u g o) m =
    mode_bits (Z.land u (Z.shiftr m 6)) (Z.land g (Z.shiftr m 3)) (Z.land o m).
Proof. unfold mode_bits. by rewrite !Z.land_lor_distr_l, !land_shiftl by lia. Qed.

Lemma mode_bits_perms u g o :
  Z.land u 7 = u → Z.land g 7 = g → Z.land o 7 = o → Z.land (mode_bits u g o) 511 = mode_bits u g o.
Proof.
  intros Hu Hg Ho. rewrite mode_bits_land. change (Z.shiftr 511 6) with 7. change (Z.shiftr 511 3) with 63.
  assert (∀ x k, Z.land x 7 = x → Z.land 7 k = 7 → Z.land x k = x) as H.
  { intros x k Hx Hk. rewrite <- Hx at 1. by rewrite <- Z.land_assoc, Hk. }
  by rewrite Hu, (H g 63), (H o 511).
Qed.

Lemma mode_bits_of m :
  mode_bits (Z.land (Z.shiftr m 6) 7) (Z.land (Z.shiftr m 3) 7) (Z.land m 7) = Z.land m 511.
Proof.
  change 511 with (mode_bits 7 7 7). rewrite (Z.land_comm m (mode_bits 7 7 7)).
  rewrite mode_bits_land. f_equal; [by rewrite Z.land_comm..].
Qed.

Lemma with_permissions_land m p k :
  Z.land p 511 = p → Z.land 511 k = 0 → Z.land (with_permissions m p) k = Z.land m k.
Proof.
  intros Hp Hk. unfold with_permissions, clear_bits. apply bits_ext. intros i Hi.
  apply (f_equal (λ z, Z.testbit z i)) in Hp, Hk.
  rewrite Z.land_spec in Hp, Hk. rewrite Z.bits_0 in Hk.
  rewrite !Z.land_spec, Z.lor_spec, Z.ldiff_spec.
  destruct (Z.testbit m i), (Z.testbit p i), (Z.testbit 511 i), (Z.testbit k i); done.
Qed.

Lemma with_permissions_perms m p : Z.land p 511 = p → Z.land (with_permissions m p) 511 = p.
Proof.
  intros Hp. unfold with_permissions, clear_bits. apply bits_ext. intros i Hi.
  apply (f_equal (λ z, Z.testbit z i)) in Hp. rewrite Z.land_spec in *.
  rewrite Z.lor_spec, Z.ldiff_spec.
  destruct (Z.testbit m i), (Z.testbit p i), (Z.testbit 511 i); done.
Qed.

(** ** Entries of a valid ACL *)

Lemma Find_app t l1 l2 :
  Find t (l1 ++ l2) = match Find t l1 with Some e => Some e | None => Find t l2 end.
Proof. induction l1 as [|e l1 IH]; cbn; [done|]. by destruct (_ =? _). Qed.

Lemma Find_block t t' l : Forall (entry_ok t') l → t ≠ t' → Find t l = None.
Proof.
  induction 1 as [|e l [He _] _ IH]; intros; cbn; [done|].
  destruct (Z.eqb_spec (tag e) t); [congruence|auto].
Qed.

Lemma Find_Some t l e : Find t l = Some e → e ∈ l ∧ tag e = t.
Proof.
  intros [Hi He%Z.eqb_eq]%List.find_some. split; [|done]. by apply list_elem_of_In.
Qed.

Lemma Find_here t e l : entry_ok t e → Find t (e :: l) = Some e.
Proof. intros [He _]. cbn. by rewrite (proj2 (Z.eqb_eq _ _) He). Qed.

(** Every entry dereferenced by [PermissionsMode], [ApplyMode] and [RestrictToMode] exists. *)
Lemma Validate_entries_present acl :
  Validate acl = OK →
  is_Some (Find kAclUserObj acl) ∧ is_Some (Find (group_class acl) acl) ∧ is_Some (Find kAclOther acl).
Proof.
  intros (o & us & g & rest & -> & Ho & Hu & _ & Hg & gs & m & ot & -> & Hgs & _ & _ & Hm & _ & Hot & _)%Validate_iff.
  assert (∀ l, is_Some (Find kAclOther (l ++ [ot]))) as Hoth.
  { intros l. rewrite Find_app, (Find_here kAclOther ot []) by done. by destruct (Find _ l); eexists. }
  split_and!.
  - rewrite (Find_here kAclUserObj) by done. by eexists.
  - unfold group_class. destruct (Find kAclMask _) eqn:E; [rewrite E; by eexists|].
    rewrite app_comm_cons, Find_app, (Find_here kAclGroupObj g) by done. by destruct (Find kAclGroupObj (o :: us)); eexists.
  - specialize (Hoth (o :: us ++ g :: gs ++ m)). cbn [app] in Hoth.
    rewrite <- !app_assoc in Hoth. cbn [app] in Hoth. by rewrite <- !app_assoc in Hoth.
Qed.

Lemma Validate_perms acl e : Validate acl = OK → e ∈ acl → Z.land (perm e) kAclPermMask = perm e.
Proof.
  rewrite <- perm_ok_land. unfold Validate. destruct (_ <? 3); [done|].
  generalize initial. induction acl as [|a acl IH]; intros v Hv; [by intros ?%elem_of_nil|].
  apply ValidateFrom_cons in Hv as (v' & Hs & Hv). intros [->|Hin]%elem_of_cons; [|by apply (IH v')].
  destruct v. unfold entry_ok, entry_step in Hs. unfold entry_ok in Hs. destruct_or!; by destruct_and?.
Qed.

Lemma perm_of_ok acl t :
  Validate acl = OK → Z.land (perm_of t acl) kAclPermMask = perm_of t acl.
Proof.
  intros Hv. unfold perm_of. destruct (Find t acl) as [e|] eqn:E; [|done].
  apply Find_Some in E as [E _]. by apply (Validate_perms acl).
Qed.

Lemma PermissionsMode_bits acl : Validate acl = OK → Z.land (PermissionsMode acl) 511 = PermissionsMode acl.
Proof. intros Hv. apply mode_bits_perms; by apply perm_of_ok. Qed.

(** ** Updating permissions in place *)

Lemma Find_update_perm t t' f l :
  Find t (update_perm t' f l) =
    if t =? t' then (λ e, mkAclEntry (tag e) (f (perm e)) (id e)) <$> Find t l else Find t l.
Proof.
  induction l as [|e l IH]; cbn; [by destruct (_ =? _)|].
  destruct (Z.eqb_spec (tag e) t') as [<-|Hne]; cbn.
  - destruct (Z.eqb_spec (tag e) t) as [<-|Hne].
    + by rewrite Z.eqb_refl.
    + destruct (Z.eqb_spec t (tag e)); [congruence|done].
  - destruct (Z.eqb_spec (tag e) t) as [<-|].
    + by destruct (Z.eqb_spec (tag e) t').
    + apply IH.
Qed.

Lemma perm_of_update t t' f l :
  perm_of t (update_perm t' f l) =
    if (t =? t') && bool_decide (is_Some (Find t l)) then f (perm_of t l) else perm_of t l.
Proof.
  unfold perm_of. rewrite Find_update_perm. destruct (t =? t'); [|done]. by destruct (Find t l).
Qed.

Lemma group_class_update t f l : group_class (update_perm t f l) = group_class l.
Proof.
  unfold group_class. rewrite Find_update_perm. destruct (_ =? _); [|done]. by destruct (Find _ l).
Qed.

Lemma Find_update_is_Some t t' f l :
  is_Some (Find t (update_perm t' f l)) ↔ is_Some (Find t l).
Proof. rewrite Find_update_perm. destruct (_ =? _); [|done]. apply fmap_is_Some. Qed.

Lemma tags_update t f l : tag <$> update_perm t f l = tag <$> l.
Proof.
  induction l as [|e l IH]; cbn; [done|]. destruct (_ =? t); cbn; [done|]. by f_equal.
Qed.

Lemma length_update_perm t f l : length (update_perm t f l) = length l.
Proof. by rewrite <- (length_fmap tag), tags_update, length_fmap. Qed.

Lemma IsMinimal_tags l : IsMinimal l = true ↔ tag <$> l = [kAclUserObj; kAclGroupObj; kAclOther].
Proof.
  destruct l as [|a [|b [|c [|d l]]]]; cbn; try done.
  rewrite !andb_true_iff, !Z.eqb_eq. split; [by intros [[-> ->] ->]|by intros [= -> -> ->]].
Qed.

Lemma IsMinimal_update t f l : IsMinimal (update_perm t f l) = IsMinimal l.
Proof. apply eq_true_iff_eq. by rewrite !IsMinimal_tags, tags_update. Qed.

(** The validator only looks at tags, ids and whether permissions are three bits. *)
Lemma ValidateFrom_update t f l v :
  (∀ p, Z.land p kAclPermMask = p → Z.land (f p) kAclPermMask = f p) →
  ValidateFrom v l = OK → ValidateFrom v (update_perm t f l) = OK.
Proof.
  intros Hf. revert v. induction l as [|e l IH]; intros v; [done|]. cbn [update_perm].
  intros (v' & Hs & Hv)%ValidateFrom_cons. destruct (_ =? t); apply ValidateFrom_cons; exists v';
    (split; [|by try apply IH]); [|done].
  destruct v. unfold entry_step, entry_ok in *. cbn [tag perm id].
  assert (clear_bits (perm e) kAclPermMask = 0 → clear_bits (f (perm e)) kAclPermMask = 0).
  { rewrite !perm_ok_land. apply Hf. }
  tauto.
Qed.

Lemma Validate_update t f l :
  (∀ p, Z.land p kAclPermMask = p → Z.land (f p) kAclPermMask = f p) →
  Validate l = OK → Validate (update_perm t f l) = OK.
Proof.
  intros Hf. unfold Validate.
  assert (zlen (update_perm t f l) = zlen l) as ->.
  { unfold zlen. f_equal. induction l as [|e l IH]; cbn; [done|]. destruct (_ =? t); cbn; lia. }
  destruct (_ <? 3); [done|]. by apply ValidateFrom_update.
Qed.

Lemma entry_fields_update t f l :
  (∀ p, Z.land p kAclPermMask = p → Z.land (f p) kAclPermMask = f p) →
  Validate l = OK → Forall entry_fields l → Forall entry_fields (update_perm t f l).
Proof.
  intros Hf Hv%(Validate_update t f); [|done]. intros Hl.
  assert (∀ x, x ∈ update_perm t f l → Z.land (perm x) kAclPermMask = perm x) as Hp
    by (intros x Hx; by apply (Validate_perms (update_perm t f l))).
  clear Hv. revert Hp. induction Hl as [|e l (Ht & Hpm & Hi) Hl IH]; cbn; intros Hp; [done|].
  destruct (_ =? t); constructor; try done.
  - split; [done|]. split; [|done]. cbn. specialize (Hp _ ltac:(by left)). cbn in Hp.
    change kAclPermMask with (Z.ones 3) in Hp. rewrite Z.land_ones in Hp by lia.
    pose proof (Z.mod_pos_bound (f (perm e)) (2 ^ 3)). unfold in_range. lia.
  - apply IH. intros x Hx. apply Hp. by right.
Qed.

(** ** Projecting a mode into an ACL *)

Definition keeps_perm (f : Z → Z) : Prop := ∀ p, Z.land p kAclPermMask = p → Z.land (f p) kAclPermMask = f p.

Definition update_classes (fu fg fo : Z → Z) (l : PosixAcl) : PosixAcl :=
  let l := update_perm kAclUserObj fu l in
  let l := update_perm (group_class l) fg l in
  update_perm kAclOther fo l.

Lemma update_classes_spec fu fg fo l :
  keeps_perm fu → keeps_perm fg → keeps_perm fo →
  Validate l = OK → Forall entry_fields l →
  Validate (update_classes fu fg fo l) = OK ∧ Forall entry_fields (update_classes fu fg fo l) ∧
  IsMinimal (update_classes fu fg fo l) = IsMinimal l ∧
  PermissionsMode (update_classes fu fg fo l) =
    mode_bits (fu (perm_of kAclUserObj l)) (fg (perm_of (group_class l) l)) (fo (perm_of kAclOther l)).
Proof.
  intros Hu Hg Ho Hv Hf. unfold update_classes. cbn zeta.
  split_and!; [by repeat apply Validate_update|by repeat (apply entry_fields_update || apply Validate_update)
              |by rewrite !IsMinimal_update|].
  pose proof (Validate_entries_present l Hv) as (Hs1 & Hs2 & Hs3).
  unfold PermissionsMode. rewrite !group_class_update. fold (mode_bits
    (perm_of kAclUserObj (update_perm kAclOther fo (update_perm (group_class l) fg (update_perm kAclUserObj fu l))))
    (perm_of (group_class l) (update_perm kAclOther fo (update_perm (group_class l) fg (update_perm kAclUserObj fu l))))
    (perm_of kAclOther (update_perm kAclOther fo (update_perm (group_class l) fg (update_perm kAclUserObj fu l))))).
  assert (group_class l = kAclMask ∨ group_class l = kAclGroupObj) as Hgc
    by (unfold group_class; case_match; auto).
  rewrite !perm_of_update.
  assert (∀ t, kAclUserObj =? t = bool_decide (t = kAclUserObj)) as E1.
  { intros t. case_bool_decide; [by apply Z.eqb_eq|by apply Z.eqb_neq]. }
  destruct Hgc as [Hgc|Hgc]; rewrite Hgc in *;
    rewrite !bool_decide_eq_true_2 by (rewrite ?Find_update_is_Some; done); done.
Qed.

Lemma ApplyMode_spec m l :
  Validate l = OK → Forall entry_fields l →
  Validate (ApplyMode m l) = OK ∧ Forall entry_fields (ApplyMode m l) ∧
  IsMinimal (ApplyMode m l) = IsMinimal l ∧ PermissionsMode (ApplyMode m l) = Z.land m 511.
Proof.
  intros Hv Hf. rewrite <- mode_bits_of. apply update_classes_spec; try done;
    intros p _; by rewrite <- Z.land_assoc.
Qed.

Lemma RestrictToMode_spec m l :
  Validate l = OK → Forall entry_fields l →
  Validate (RestrictToMode m l) = OK ∧ Forall entry_fields (RestrictToMode m l) ∧
  IsMinimal (RestrictToMode m l) = IsMinimal l ∧
  PermissionsMode (RestrictToMode m l) = Z.land (PermissionsMode l) m.
Proof.
  intros Hv Hf.
  destruct (update_classes_spec (λ p, Z.land p (Z.land (Z.shiftr m 6) kAclPermMask))
    (λ p, Z.land p (Z.land (Z.shiftr m 3) kAclPermMask)) (λ p, Z.land p (Z.land m kAclPermMask)) l)
    as (? & ? & ? & Hp); try done; [intros p _; by rewrite <- !Z.land_assoc..|].
  split_and!; try done. etransitivity; [exact Hp|].
  change (PermissionsMode l) with
    (mode_bits (perm_of kAclUserObj l) (perm_of (group_class l) l) (perm_of kAclOther l)).
  rewrite mode_bits_land.
  assert (∀ t k, Z.land (perm_of t l) (Z.land k kAclPermMask) = Z.land (perm_of t l) k) as E.
  { intros t k. by rewrite Z.land_comm, <- Z.land_assoc, (Z.land_comm _ (perm_of t l)), perm_of_ok, Z.land_comm. }
  by rewrite !E.
Qed.

(** ** The inode-level contract *)

(** An inode's ACL attributes are synchronised with its mode: the access ACL is stored
    only when it says more than the mode, and then its owner, group-class and other
    permissions are the mode's; a default ACL exists only on directories; symlinks have
    neither. *)
Record acl_synced (i : SwordFsInode) : Prop := {
  synced_sorted : map_sorted (xattrs i);
  synced_access v : map_find kPosixAclAccessXAttr (xattrs i) = Some v →
    IsSymlink i = false ∧
    ∃ acl, Parse v = Ok acl ∧ IsMinimal acl = false ∧ PermissionsMode acl = Z.land (mode (attr i)) 511;
  synced_default v : map_find kPosixAclDefaultXAttr (xattrs i) = Some v →
    IsDir i = true ∧ ∃ acl, Parse v = Ok acl;
}.

Lemma Parse_of_Serialize acl :
  Validate acl = OK → Forall entry_fields acl → Parse (Serialize acl) = Ok acl.
Proof. intros. by apply Parse_iff. Qed.

Lemma acl_names_differ :
  key_eqb kPosixAclAccessXAttr kPosixAclDefaultXAttr = false ∧
  key_eqb kPosixAclDefaultXAttr kPosixAclAccessXAttr = false.
Proof. done. Qed.

Lemma mode_Touch now f i : mode (attr (Touch now f i)) = mode (attr i).
Proof. unfold Touch, touch_attr. cbn. by repeat case_match. Qed.

Lemma IsDir_with_permissions m p : Z.land p 511 = p → S_ISDIR (with_permissions m p) = S_ISDIR m.
Proof. intros Hp. unfold S_ISDIR. by rewrite with_permissions_land. Qed.
Lemma IsSymlink_with_permissions m p : Z.land p 511 = p → S_ISLNK (with_permissions m p) = S_ISLNK m.
Proof. intros Hp. unfold S_ISLNK. by rewrite with_permissions_land. Qed.

(** Only the mode and the extended attributes matter. *)
Lemma acl_synced_ext i j :
  mode (attr i) = mode (attr j) → xattrs i = xattrs j → acl_synced i → acl_synced j.
Proof.
  intros Hm Hx [S A D]. unfold IsSymlink, IsDir in *. rewrite Hx, Hm in *.
  constructor; unfold IsSymlink, IsDir; eauto.
Qed.

Lemma acl_synced_Touch now f i : acl_synced i → acl_synced (Touch now f i).
Proof. apply acl_synced_ext; [by rewrite mode_Touch|done]. Qed.

(** Storing an access ACL together with the mode it projects to. *)
Lemma acl_synced_store_access i acl :
  acl_synced i → IsSymlink i = false → Validate acl = OK → Forall entry_fields acl →
  acl_synced (let i := set_attr (set_mode (with_permissions (mode (attr i)) (PermissionsMode acl)) (attr i)) i in
              if IsMinimal acl then set_xattrs (map_erase kPosixAclAccessXAttr (xattrs i)) i
              else set_xattrs (map_assign kPosixAclAccessXAttr (Serialize acl) (xattrs i)) i).
Proof.
  intros [S A D] Hl Hv Hf. pose proof (PermissionsMode_bits acl Hv) as Hp. cbn zeta.
  destruct (IsMinimal acl) eqn:Hm; constructor; unfold IsSymlink, IsDir in *; cbn.
  - by apply map_erase_sorted.
  - intros v. by rewrite map_find_erase, key_eqb_refl by done.
  - intros v. rewrite map_find_erase, IsDir_with_permissions by done.
    rewrite (proj2 acl_names_differ). apply D.
  - by apply map_assign_sorted.
  - intros v. rewrite map_find_assign, IsSymlink_with_permissions, with_permissions_perms by done.
    rewrite key_eqb_refl. intros; simplify_eq. split; [done|]. exists acl.
    by rewrite Parse_of_Serialize.
  - intros v. rewrite map_find_assign, IsDir_with_permissions by done.
    rewrite (proj2 acl_names_differ). apply D.
Qed.

Lemma acl_synced_store_default i v :
  acl_synced i → IsDir i = true → (∃ acl, Parse v = Ok acl) →
  acl_synced (set_xattrs (map_assign kPosixAclDefaultXAttr v (xattrs i)) i).
Proof.
  intros [S A D] Hd Hv. constructor; unfold IsSymlink, IsDir in *; cbn.
  - by apply map_assign_sorted.
  - intros w. rewrite map_find_assign by done.
    rewrite (proj1 acl_names_differ). apply A.
  - intros w. rewrite map_find_assign, key_eqb_refl by done. intros; by simplify_eq.
Qed.

Lemma acl_synced_erase i name : acl_synced i → acl_synced (set_xattrs (map_erase name (xattrs i)) i).
Proof.
  intros [S A D]. constructor; unfold IsSymlink, IsDir in *; cbn.
  - by apply map_erase_sorted.
  - intros v. rewrite map_find_erase by done. case_match; [done|apply A].
  - intros v. rewrite map_find_erase by done. case_match; [done|apply D].
Qed.

Lemma acl_synced_assign_other i name v :
  IsPosixAclXAttrName name = false → acl_synced i →
  acl_synced (set_xattrs (map_assign name v (xattrs i)) i).
Proof.
  unfold IsPosixAclXAttrName. intros [N1 N2]%orb_false_iff [S A D].
  apply bool_decide_eq_false in N1, N2.
  constructor; unfold IsSymlink, IsDir in *; cbn; [by apply map_assign_sorted|..];
    intros w; rewrite map_find_assign by done;
    destruct (key_eqb _ name) eqn:E; [apply key_eqb_eq in E; congruence|apply A
                                     |apply key_eqb_eq in E; congruence|apply D].
Qed.

Lemma SetPosixAclXAttr_synced now i name value m i' :
  acl_synced i → SetPosixAclXAttr now i name value m = Ok i' → acl_synced i'.
Proof.
  intros Hi H. unfold SetPosixAclXAttr in H. inv_result. subst. apply acl_synced_Touch.
  match goal with H : Parse _ = Ok ?x |- _ => rename x into acl; pose proof H as (_ & Hv & Hf)%Parse_iff end.
  destruct (decide (name = kPosixAclAccessXAttr)) as [->|Ha].
  - rewrite bool_decide_eq_true_2 by done. by apply acl_synced_store_access.
  - rewrite (bool_decide_eq_false_2 _ Ha). unfold IsPosixAclXAttrName in *.
    rewrite (bool_decide_eq_false_2 (name = kPosixAclAccessXAttr) Ha) in *. cbn [orb] in *.
    case_bool_decide; [subst name|done].
    apply acl_synced_store_default; [done| |by rewrite Parse_of_Serialize; eauto].
    by destruct (IsDir i).
Qed.

Lemma RemovePosixAclXAttr_synced now i name i' :
  acl_synced i → RemovePosixAclXAttr now i name = Ok i' → acl_synced i'.
Proof.
  intros Hi H. unfold RemovePosixAclXAttr in H. inv_result. case_match; inv_result; subst.
  by apply acl_synced_Touch, acl_synced_erase.
Qed.

(** chmod: the access ACL follows the new permission bits. *)
Lemma SyncPosixAccessAclForMode_spec i m i' :
  map_sorted (xattrs i) → SyncPosixAccessAclForMode i m = Ok i' →
  attr i' = attr i ∧ map_sorted (xattrs i') ∧
  (∀ name, name ≠ kPosixAclAccessXAttr → map_find name (xattrs i') = map_find name (xattrs i)) ∧
  match map_find kPosixAclAccessXAttr (xattrs i) with
  | None => i' = i
  | Some old => ∃ acl, Parse old = Ok acl ∧
      map_find kPosixAclAccessXAttr (xattrs i') = Some (Serialize (ApplyMode m acl))
  end.
Proof.
  intros Hs H. unfold SyncPosixAccessAclForMode in H. case_match; inv_result; subst; [|done].
  unfold ParseStoredAcl in *. destruct (Parse _) as [acl|] eqn:Hp; simplify_eq.
  split_and!; [done|by apply map_assign_sorted| |].
  - intros name Hn. cbn. rewrite map_find_assign by done.
    by rewrite (proj2 (key_eqb_neq name kPosixAclAccessXAttr) Hn).
  - eexists. split; [done|]. cbn. by rewrite map_find_assign, key_eqb_refl.
Qed.

Lemma SyncPosixAccessAclForMode_synced i a m i' :
  acl_synced i → Z.land (mode a) S_IFMT = Z.land (mode (attr i)) S_IFMT →
  Z.land (mode a) 511 = Z.land m 511 →
  SyncPosixAccessAclForMode (set_attr a i) m = Ok i' → acl_synced i'.
Proof.
  intros [S A D] Ht Hm H.
  apply SyncPosixAccessAclForMode_spec in H as (Ha & Hs & Ho & Hx); [|done].
  unfold IsSymlink, IsDir, S_ISLNK, S_ISDIR in *. cbn [xattrs set_attr attr] in *.
  constructor; unfold IsSymlink, IsDir, S_ISLNK, S_ISDIR; rewrite ?Ha, ?Ht; cbn [attr]; try done.
  - intros v Hv. destruct (map_find _ (xattrs i)) as [old|] eqn:E.
    + destruct Hx as (acl & Hp & Hx). rewrite Hx in Hv. simplify_eq.
      destruct (A old) as (Hl & acl' & ? & ? & _); [done|]. assert (acl' = acl) as -> by congruence.
      pose proof Hp as (_ & Hvl & Hf)%Parse_iff.
      destruct (ApplyMode_spec m acl) as (? & ? & Hmin & Hperm); try done.
      split; [done|]. exists (ApplyMode m acl).
      rewrite Parse_of_Serialize, Hmin, Hperm by done. by split_and!.
    + subst i'. cbn in Hv. congruence.
  - intros v. rewrite Ho; [apply D|]. intros E. by apply (f_equal (λ n, key_eqb n kPosixAclAccessXAttr)) in E.
Qed.

(** setting an access ACL on success replaces exactly the nine permission bits of the
    mode by the ACL's projection, keeps type, set-id and sticky bits, and stores the ACL
    when it says more than the mode (reading it back gives the same ACL) or drops the
    stored one when it does not; every other extended attribute is untouched. *)
Theorem SetPosixAclXAttr_access now i value m i' :
  map_sorted (xattrs i) →
  SetPosixAclXAttr now i kPosixAclAccessXAttr value m = Ok i' →
  ∃ acl, Parse value = Ok acl ∧
    Z.land (mode (attr i')) 511 = PermissionsMode acl ∧
    Z.ldiff (mode (attr i')) 511 = Z.ldiff (mode (attr i)) 511 ∧
    map_find kPosixAclAccessXAttr (xattrs i') = (if IsMinimal acl then None else Some value) ∧
    ∀ name, name ≠ kPosixAclAccessXAttr → map_find name (xattrs i') = map_find name (xattrs i).
Proof.
  intros Hs H. unfold SetPosixAclXAttr in H. inv_result. subst i'.
  match goal with H : Parse _ = Ok ?x |- _ =>
    exists x; split; [exact H|]; pose proof H as (Hser & Hv & Hf)%Parse_iff; rename x into acl end.
  pose proof (PermissionsMode_bits acl Hv) as Hp. rewrite mode_Touch.
  assert (∀ name, name ≠ kPosixAclAccessXAttr → key_eqb name kPosixAclAccessXAttr = false) as Hne
    by (intros; by apply key_eqb_neq).
  split_and!.
  - by destruct (IsMinimal acl); cbn; rewrite with_permissions_perms.
  - assert (Z.ldiff (with_permissions (mode (attr i)) (PermissionsMode acl)) 511 = Z.ldiff (mode (attr i)) 511)
      as E; [|by destruct (IsMinimal acl)].
    unfold with_permissions, clear_bits. rewrite <- Hp. apply bits_ext. intros k Hk.
    rewrite !Z.ldiff_spec, Z.lor_spec, Z.ldiff_spec, Z.land_spec.
    destruct (Z.testbit 511 k); by rewrite ?andb_false_r, ?orb_false_r, ?andb_true_r.
  - destruct (IsMinimal acl); cbn; rewrite ?map_find_erase, ?map_find_assign, key_eqb_refl by done; congruence.
  - intros name Hn. by destruct (IsMinimal acl); cbn; rewrite ?map_find_erase, ?map_find_assign, Hne.
Qed.

(** A sample extended ACL [u::rw-,u:7:r--,g::r--,m::r--,o::---] and a regular file. *)
Definition sample_acl : PosixAcl :=
  [mkAclEntry 1 6 UINT32_MAX; mkAclEntry 2 4 7; mkAclEntry 4 4 UINT32_MAX;
   mkAclEntry 16 4 UINT32_MAX; mkAclEntry 32 0 UINT32_MAX].
Definition sample_inode (mode : Z) : SwordFsInode := new_inode 9 (new_attr 100 9 mode 1000 1000) 1 [].

Lemma SetPosixAclXAttr_access_witness :
  ∃ i' acl, SetPosixAclXAttr 5 (sample_inode (Z.lor S_IFREG 2511)) kPosixAclAccessXAttr
              (Serialize sample_acl) kUpsert = Ok i' ∧
    Parse (Serialize sample_acl) = Ok acl ∧ Z.land (mode (attr i')) 511 = PermissionsMode acl.
Proof.
  destruct (SetPosixAclXAttr 5 (sample_inode (Z.lor S_IFREG 2511)) kPosixAclAccessXAttr
    (Serialize sample_acl) kUpsert) as [i'|s] eqn:E; [|vm_compute in E; discriminate E].
  destruct (SetPosixAclXAttr_access 5 (sample_inode (Z.lor S_IFREG 2511)) (Serialize sample_acl) kUpsert i')
    as (acl & Hp & Hm & _); [constructor|exact E|].
  exists i', acl. split; [reflexivity|]. split; [exact Hp|exact Hm].
Defined.

Lemma inherit_spec parent umask child child' :
  IsSymlink child = false →
  ApplyPosixAclCreateInheritance parent umask child = Ok child' →
  match map_find kPosixAclDefaultXAttr (xattrs parent) with
  | None => mode (attr child') = with_permissions (mode (attr child)) (Z.ldiff (Z.land (mode (attr child)) 511) umask) ∧
            xattrs child' = xattrs child
  | Some default => ∃ acl, Parse default = Ok acl ∧
      let acl' := RestrictToMode (mode (attr child)) acl in
      let p := Z.land (PermissionsMode acl) (mode (attr child)) in
      PermissionsMode acl' = p ∧ mode (attr child') = with_permissions (mode (attr child)) p ∧
      xattrs child' =
        (let x := if IsMinimal acl then xattrs child
                  else map_assign kPosixAclAccessXAttr (Serialize acl') (xattrs child) in
         if IsDir child then map_assign kPosixAclDefaultXAttr default x else x)
  end.
Proof.
  intros Hl H. unfold ApplyPosixAclCreateInheritance in H. rewrite Hl in H.
  case_match eqn:Hd; [|by inv_result; subst].
  unfold ParseStoredAcl in H. destruct (Parse _) as [acl|] eqn:Hp; [|done]. cbn [mbind result_bind] in H.
  injection H as <-. exists acl. split; [done|]. cbn zeta. pose proof Hp as (_ & Hv & Hf)%Parse_iff.
  destruct (RestrictToMode_spec (mode (attr child)) acl Hv Hf) as (Hv' & _ & Hmin & Hperm).
  rewrite Hmin, Hperm. pose proof (PermissionsMode_bits _ Hv') as Hb. rewrite Hperm in Hb.
  split; [done|]. unfold IsDir.
  destruct (IsMinimal acl); cbn [attr set_attr set_xattrs mode set_mode xattrs];
    rewrite IsDir_with_permissions by done; by destruct (S_ISDIR _).
Qed.

Lemma land_perms_sub p m : Z.land p 511 = p → Z.land (Z.land p m) 511 = Z.land p m.
Proof. intros Hp. by rewrite <- Z.land_assoc, (Z.land_comm m), Z.land_assoc, Hp. Qed.

Lemma ldiff_perms_sub m u : Z.land (Z.ldiff (Z.land m 511) u) 511 = Z.ldiff (Z.land m 511) u.
Proof.
  apply bits_ext. intros k Hk. rewrite Z.land_spec, Z.ldiff_spec, Z.land_spec.
  destruct (Z.testbit 511 k); by rewrite ?andb_false_r, ?andb_true_r.
Qed.

(** create-time inheritance never grants a permission the caller did not ask for.
    The permission bits of the created inode are the requested ones masked by the umask
    (no default ACL on the parent) or by the parent's default ACL (umask ignored); the
    file type is unchanged; a directory receives the parent's default ACL unchanged and
    nothing else does. *)
Theorem inheritance_restricts parent umask child child' :
  acl_synced parent → IsSymlink child = false → xattrs child = [] →
  ApplyPosixAclCreateInheritance parent umask child = Ok child' →
  Z.land (Z.land (mode (attr child')) 511) (mode (attr child)) = Z.land (mode (attr child')) 511 ∧
  Z.land (mode (attr child')) S_IFMT = Z.land (mode (attr child)) S_IFMT ∧
  map_find kPosixAclDefaultXAttr (xattrs child') =
    (if IsDir child then map_find kPosixAclDefaultXAttr (xattrs parent) else None) ∧
  Z.land (mode (attr child')) 511 =
    match map_find kPosixAclDefaultXAttr (xattrs parent) with
    | None => Z.ldiff (Z.land (mode (attr child)) 511) umask
    | Some v => match Parse v with
                | Ok acl => Z.land (PermissionsMode acl) (mode (attr child))
                | Err _ => 0
                end
    end.
Proof.
  intros [_ _ Hpd] Hl Hx H. apply inherit_spec in H; [|done].
  destruct (map_find kPosixAclDefaultXAttr (xattrs parent)) as [v|] eqn:Hd.
  - destruct H as (acl & Hp & _ & Hm & Hxs). rewrite Hp. pose proof Hp as (_ & Hv & _)%Parse_iff.
    pose proof (land_perms_sub _ (mode (attr child)) (PermissionsMode_bits acl Hv)) as Hb.
    rewrite Hm, with_permissions_perms, with_permissions_land by done.
    split_and!; [by rewrite <- Z.land_assoc, Z.land_diag|done| |done].
    rewrite Hxs, Hx. destruct (IsMinimal acl), (IsDir child); done.
  - destruct H as [Hm Hxs]. pose proof (ldiff_perms_sub (mode (attr child)) umask) as Hb.
    rewrite Hm, with_permissions_perms, with_permissions_land, Hxs, Hx by done.
    split_and!; [|done|by destruct (IsDir child)|done].
    apply bits_ext. intros k Hk. rewrite Z.land_spec, Z.ldiff_spec, Z.land_spec.
    destruct (Z.testbit (mode (attr child)) k); by rewrite ?andb_false_r, ?andb_true_r.
Qed.

Definition sample_parent : SwordFsInode :=
  set_xattrs [(kPosixAclDefaultXAttr, Serialize sample_acl)] (sample_inode (Z.lor S_IFDIR 493)).

Lemma sample_parent_synced : acl_synced sample_parent.
Proof.
  constructor.
  - repeat constructor.
  - intros v Hv. vm_compute in Hv. discriminate Hv.
  - intros v Hv. split; [reflexivity|]. exists sample_acl.
    assert (v = Serialize sample_acl) as -> by (vm_compute in Hv |- *; congruence).
    vm_compute. reflexivity.
Qed.

Lemma inheritance_restricts_witness :
  ∃ child', ApplyPosixAclCreateInheritance sample_parent 18 (sample_inode (Z.lor S_IFREG 438)) = Ok child' ∧
    Z.land (Z.land (mode (attr child')) 511) (Z.lor S_IFREG 438) = Z.land (mode (attr child')) 511.
Proof.
  destruct (ApplyPosixAclCreateInheritance sample_parent 18 (sample_inode (Z.lor S_IFREG 438))) as [c|s] eqn:E;
    [|vm_compute in E; discriminate E].
  exists c. split; [reflexivity|].
  refine (proj1 (inheritance_restricts sample_parent 18 (sample_inode (Z.lor S_IFREG 438)) c _ _ _ E));
    [apply sample_parent_synced|reflexivity|reflexivity].
Defined.

Lemma inherit_synced parent umask child child' :
  acl_synced parent → xattrs child = [] →
  ApplyPosixAclCreateInheritance parent umask child = Ok child' → acl_synced child'.
Proof.
  intros Hps Hx H. assert (∀ c, xattrs c = [] → acl_synced c) as Hnil.
  { intros c Hc. constructor; rewrite Hc; [constructor|done|done]. }
  destruct (IsSymlink child) eqn:Hl.
  { unfold ApplyPosixAclCreateInheritance in H. rewrite Hl in H. simplify_eq. auto. }
  pose proof H as Hi%inherit_spec; [|done].
  destruct (map_find _ _) as [v|] eqn:Hd; [|destruct Hi as [_ E]; apply Hnil; congruence].
  destruct Hi as (acl & Hp & Hperm & Hm & Hxs). pose proof Hp as (_ & Hv & Hf)%Parse_iff.
  destruct (RestrictToMode_spec (mode (attr child)) acl Hv Hf) as (Hv' & Hf' & Hmin & _).
  set (acl' := RestrictToMode (mode (attr child)) acl) in *.
  pose proof (acl_synced_store_access child acl' (Hnil _ Hx) Hl Hv' Hf') as Hs. cbn zeta in Hs.
  assert (IsDir child' = IsDir child) as HD.
  { unfold IsDir. rewrite Hm. apply IsDir_with_permissions. rewrite <- Hperm. by apply PermissionsMode_bits. }
  rewrite Hmin, Hperm in Hs. cbn [xattrs set_attr] in Hs. rewrite Hx in *.
  assert (acl_synced (set_xattrs (if IsMinimal acl then [] else
            map_assign kPosixAclAccessXAttr (Serialize acl') []) child')) as Hs'.
  { destruct (IsMinimal acl); (eapply acl_synced_ext; [| |exact Hs]); cbn; done. }
  destruct (IsDir child).
  - eapply acl_synced_ext; [| |apply (acl_synced_store_default _ v Hs' HD); by exists acl]; done.
  - eapply acl_synced_ext; [| |exact Hs']; done.
Qed.
