(* ===== verification/InodeOps.v ===== *)
(** * Inode-local operations

    Extended attributes (src/src/metadata/types/Inode.cpp) and the setattr mutation
    (src/src/metadata/Utils.cpp), with the invariant of an inode record they keep.
    As in [Acl], every operation fails before it changes the inode. *)

From S2P Require Import Prelude StdMap InodeTypes Acl.

Definition SetXAttr (now : Z) (i : SwordFsInode) (name value : bytes) (m : XAttrSetMode)
    : result SwordFsInode :=
  if IsPosixAclXAttrName name then SetPosixAclXAttr now i name value m else
  _ ← fail_if (zlen name =? 0) InvalidArgument;
  _ ← fail_if (zlen name >? kMaxXAttrNameLength) Range;
  _ ← fail_if (zlen value >? kMaxXAttrValueSize) Range;
  let it := map_find name (xattrs i) in
  _ ← match m with
      | kUpsert => Ok tt
      | kCreateOnly => match it with Some _ => Err AlreadyExists | None => Ok tt end
      | kReplaceOnly => match it with Some _ => Ok tt | None => Err NoData end
      end;
  _ ← match it with
      | None => fail_if (list_bytes name (xattrs i) >? kMaxXAttrListSize) Range
      | Some _ => Ok tt
      end;
  let i := match it with
           | None => set_xattrs (map_emplace name value (xattrs i)) i
           | Some _ => set_xattrs (map_assign name value (xattrs i)) i
           end in
  Ok (Touch now kCtime i).

Definition GetXAttr (i : SwordFsInode) (name : bytes) : result bytes :=
  _ ← fail_if (zlen name >? kMaxXAttrNameLength) Range;
  match map_find name (xattrs i) with
  | None => Err NoData
  | Some v => Ok v
  end.

Definition ListXAttrs (i : SwordFsInode) : list bytes := fst <$> xattrs i.

Definition RemoveXAttr (now : Z) (i : SwordFsInode) (name : bytes) : result SwordFsInode :=
  if IsPosixAclXAttrName name then RemovePosixAclXAttr now i name else
  _ ← fail_if (zlen name >? kMaxXAttrNameLength) Range;
  match map_find name (xattrs i) with
  | None => Err NoData
  | Some _ => Ok (Touch now kCtime (set_xattrs (map_erase name (xattrs i)) i))
  end.

(** The attribute part of [PrepareSetAttrMutation], field by field in source order. *)
Definition mutate_attr (now : Z) (requested : SwordFsAttr) (fields : Z) (a : SwordFsAttr) : SwordFsAttr :=
  let has := HasSetAttrField fields in
  let size_changed := has kSize && negb (size requested =? size a) in
  let a := when (has kMode)
             (λ a, set_mode (Z.lor (Z.land (mode a) S_IFMT) (Z.land (mode requested) 4095)) a) a in
  let a := when (has kUid) (set_uid (uid requested)) a in
  let a := when (has kGid) (set_gid (gid requested)) a in
  let a := when (has kSize) (set_size (size requested)) a in
  let a := when (has kAtime) (set_atime (atime requested) (atime_nsec requested)) a in
  let a := when (has kMtime) (set_mtime (mtime requested) (mtime_nsec requested)) a in
  let a := when (has kAtimeNow) (touch_attr now kAtime) a in
  let a := when (has kMtimeNow) (touch_attr now kMtime) a in
  let a := when (has kCtime) (set_ctime (ctime requested) (ctime_nsec requested)) a in
  let a := when (has kKillSuidGid) ClearSetidForKillPriv a in
  let a := when (size_changed && negb (has kMtime) && negb (has kMtimeNow)) (touch_attr now kMtime) a in
  when (negb (has kCtime)) (touch_attr now kCtime) a.

Definition PrepareSetAttrMutation (now : Z) (current : SwordFsInode) (requested : SwordFsAttr) (fields : Z)
    : result SwordFsInode :=
  _ ← check (CheckSetAttrPolicy (attr current) fields);
  let next := set_attr (mutate_attr now requested fields (attr current)) current in
  if HasSetAttrField fields kMode then SyncPosixAccessAclForMode next (mode (attr next)) else Ok next.

(** ** The invariant of an inode record *)

(** Names are non-empty and bounded, values bounded, and the NUL-separated name list
    fits the kernel's limit. *)
Record xattr_limits (x : list (bytes * bytes)) : Prop := {
  limit_entries : Forall (λ e, 0 < zlen e.1 ≤ kMaxXAttrNameLength ∧ zlen e.2 ≤ kMaxXAttrValueSize) x;
  limit_list : foldr (λ e acc, zlen e.1 + 1 + acc) 0 x ≤ kMaxXAttrListSize;
}.

Definition inode_ok (i : SwordFsInode) : Prop := acl_synced i ∧ xattr_limits (xattrs i).

Definition name_bytes (x : list (bytes * bytes)) : Z := foldr (λ e acc, zlen e.1 + 1 + acc) 0 x.

Lemma name_bytes_cons e x : name_bytes (e :: x) = zlen e.1 + 1 + name_bytes x.
Proof. done. Qed.

Lemma list_bytes_spec name x : list_bytes name x = zlen name + 1 + name_bytes x.
Proof.
  unfold list_bytes. generalize (zlen name + 1). induction x as [|e x IH]; intros a.
  - change (name_bytes []) with 0. cbn. lia.
  - cbn [foldl]. rewrite IH, name_bytes_cons. lia.
Qed.

Lemma name_bytes_assign k v x :
  map_sorted x →
  name_bytes (map_assign k v x) =
    match map_find k x with Some _ => name_bytes x | None => zlen k + 1 + name_bytes x end.
Proof.
  induction x as [|[k1 v1] x IH]; [done|]. intros [Hf Hs]%sorted_cons. cbn [map_assign map_find].
  destruct (key_eqb k k1) eqn:E.
  - apply key_eqb_eq in E as ->. by rewrite key_ltb_irrefl.
  - destruct (key_ltb k k1) eqn:E1.
    + rewrite find_before; [done|]. by eapply Forall_ltb_trans.
    + destruct (key_ltb k1 k) eqn:E2.
      * rewrite !name_bytes_cons, IH by done. destruct (map_find k x); cbn [fst]; lia.
      * apply key_eqb_neq in E. by rewrite (key_ltb_total k k1) in E.
Qed.

Lemma name_bytes_erase k x : name_bytes (map_erase k x) ≤ name_bytes x.
Proof.
  induction x as [|[k1 v1] x IH]; cbn [map_erase]; [done|]. pose proof (zlen_nonneg k1).
  destruct (key_eqb k k1); rewrite !name_bytes_cons; cbn [fst]; lia.
Qed.

Lemma limits_assign k v x :
  map_sorted x → xattr_limits x → 0 < zlen k ≤ kMaxXAttrNameLength → zlen v ≤ kMaxXAttrValueSize →
  (map_find k x = None → list_bytes k x ≤ kMaxXAttrListSize) → xattr_limits (map_assign k v x).
Proof.
  intros Hs [He Hl] Hk Hv Hn. rewrite list_bytes_spec in Hn.
  split; [by apply map_assign_Forall|]. fold (name_bytes (map_assign k v x)). fold (name_bytes x) in Hl.
  rewrite name_bytes_assign by done. destruct (map_find k x); auto.
Qed.

Lemma limits_erase k x : xattr_limits x → xattr_limits (map_erase k x).
Proof.
  intros [He Hl]. split; [by apply map_erase_Forall|].
  pose proof (name_bytes_erase k x). unfold name_bytes in *. lia.
Qed.

Lemma limits_Forall_find x k v : xattr_limits x → map_find k x = Some v → zlen v ≤ kMaxXAttrValueSize.
Proof.
  intros [He _]. induction He as [|[k1 v1] x [_ Hv] _ IH]; cbn; [done|].
  case_match; [intros; by simplify_eq|auto].
Qed.

Lemma acl_name_limits name : IsPosixAclXAttrName name = true → 0 < zlen name ≤ kMaxXAttrNameLength.
Proof. unfold IsPosixAclXAttrName. repeat case_bool_decide; subst; [done..|]. done. Qed.

Lemma CheckInsertListSize_OK i name :
  CheckInsertListSize i name = OK → map_find name (xattrs i) = None →
  list_bytes name (xattrs i) ≤ kMaxXAttrListSize.
Proof.
  unfold CheckInsertListSize, has_xattr. intros H Hn. rewrite Hn in H.
  rewrite bool_decide_eq_false_2 in H by (by intros [? ?]).
  rewrite Z.gtb_ltb in H. by destruct (Z.ltb_spec kMaxXAttrListSize (list_bytes name (xattrs i))).
Qed.

Lemma SetPosixAclXAttr_limits now i name value m i' :
  map_sorted (xattrs i) → xattr_limits (xattrs i) →
  SetPosixAclXAttr now i name value m = Ok i' → xattr_limits (xattrs i').
Proof.
  intros Hs Hl H. unfold SetPosixAclXAttr in H. inv_result. subst i'.
  match goal with H : Parse _ = Ok ?x |- _ => rename x into acl; pose proof H as (-> & _)%Parse_iff end.
  rewrite Z.gtb_ltb in *. zify_bools.
  assert (bool_decide (name = kPosixAclDefaultXAttr) || negb (IsMinimal acl) = true →
          xattr_limits (map_assign name (Serialize acl) (xattrs i))) as Hst.
  { intros Hb. rewrite Hb in *. inv_result. apply limits_assign; try done.
    - by apply acl_name_limits.
    - by apply CheckInsertListSize_OK. }
  cbn [xattrs Touch set_attr]. destruct (decide (name = kPosixAclAccessXAttr)) as [->|Ha].
  - rewrite bool_decide_eq_true_2 by done. destruct (IsMinimal acl); cbn; [by apply limits_erase|]. apply Hst. by rewrite orb_true_r.
  - unfold IsPosixAclXAttrName in *. rewrite (bool_decide_eq_false_2 _ Ha) in *. cbn [orb] in *.
    apply Hst. match goal with H : bool_decide _ = true |- _ => by rewrite H end.
Qed.

(** The ACL rewritten by chmod is as long as the stored one. *)
Lemma zlen_Serialize acl : zlen (Serialize acl) = 4 + 8 * zlen acl.
Proof. rewrite Serialize_spec, zlen_app, zlen_entries. done. Qed.

Lemma zlen_ApplyMode m acl : zlen (ApplyMode m acl) = zlen acl.
Proof.
  unfold ApplyMode, zlen. cbn zeta. by rewrite !length_update_perm.
Qed.

Lemma zlen_RestrictToMode m acl : zlen (RestrictToMode m acl) = zlen acl.
Proof. unfold RestrictToMode, zlen. cbn zeta. by rewrite !length_update_perm. Qed.

Lemma SyncPosixAccessAclForMode_limits i m i' :
  map_sorted (xattrs i) → xattr_limits (xattrs i) →
  SyncPosixAccessAclForMode i m = Ok i' → xattr_limits (xattrs i').
Proof.
  intros Hs Hl H. unfold SyncPosixAccessAclForMode in H.
  destruct (map_find kPosixAclAccessXAttr (xattrs i)) as [old|] eqn:Hf; [|by simplify_eq].
  unfold ParseStoredAcl in H. destruct (Parse old) as [acl|] eqn:Hp; [|done].
  injection H as <-. apply Parse_iff in Hp as (-> & _). apply limits_assign; try done.
  - rewrite zlen_Serialize, zlen_ApplyMode, <- zlen_Serialize. by eapply limits_Forall_find.
  - by rewrite Hf.
Qed.

Lemma land_lor_type m r : Z.land (Z.lor (Z.land m S_IFMT) (Z.land r 4095)) S_IFMT = Z.land m S_IFMT.
Proof.
  rewrite Z.land_lor_distr_l, <- !Z.land_assoc. change (Z.land S_IFMT S_IFMT) with S_IFMT.
  change (Z.land 4095 S_IFMT) with 0. by rewrite Z.land_0_r, Z.lor_0_r.
Qed.

Lemma clear_bits_land m b k : Z.land b k = 0 → Z.land (clear_bits m b) k = Z.land m k.
Proof.
  intros Hb. unfold clear_bits. apply bits_ext. intros i Hi. apply (f_equal (λ z, Z.testbit z i)) in Hb.
  rewrite Z.land_spec, Z.bits_0 in Hb. rewrite !Z.land_spec, Z.ldiff_spec.
  destruct (Z.testbit m i), (Z.testbit b i), (Z.testbit k i); done.
Qed.

Lemma ClearSetid_land a k :
  Z.land S_ISUID k = 0 → Z.land S_ISGID k = 0 →
  Z.land (mode (ClearSetidForKillPriv a)) k = Z.land (mode a) k.
Proof. intros. unfold ClearSetidForKillPriv. cbn. case_match; rewrite !clear_bits_land; done. Qed.

Lemma mode_touch now f a : mode (touch_attr now f a) = mode a.
Proof. unfold touch_attr. by repeat case_match. Qed.

(** The mode after a setattr: type kept, requested permission and set-id bits, then the
    kill-privilege clearing. *)
Lemma mutate_attr_mode now r f a :
  mode (mutate_attr now r f a) =
    let m := if HasSetAttrField f kMode then Z.lor (Z.land (mode a) S_IFMT) (Z.land (mode r) 4095) else mode a in
    if HasSetAttrField f kKillSuidGid then mode (ClearSetidForKillPriv (set_mode m a)) else m.
Proof.
  unfold mutate_attr. cbn zeta. rewrite !(when_keeps mode _ (touch_attr now _)) by (intros; apply mode_touch).
  assert (∀ x y, mode x = mode y → mode (ClearSetidForKillPriv x) = mode (ClearSetidForKillPriv y)) as Hc
    by (intros x y E; unfold ClearSetidForKillPriv; cbn; by rewrite E).
  match goal with |- mode (when _ _ ?x) = _ => set (y := x) end.
  assert (mode y = if HasSetAttrField f kMode
                   then Z.lor (Z.land (mode a) S_IFMT) (Z.land (mode r) 4095) else mode a) as Hy.
  { subst y. rewrite (when_keeps mode _ (set_ctime _ _)), !(when_keeps mode _ (touch_attr now _)),
      (when_keeps mode _ (set_mtime _ _)), (when_keeps mode _ (set_atime _ _)), (when_keeps mode _ (set_size _)),
      (when_keeps mode _ (set_gid _)), (when_keeps mode _ (set_uid _)) by (intros; by rewrite ?mode_touch).
    by destruct (HasSetAttrField f kMode). }
  unfold when. destruct (HasSetAttrField f kKillSuidGid); [by apply Hc|done].
Qed.

Lemma mutate_attr_type now r f a : Z.land (mode (mutate_attr now r f a)) S_IFMT = Z.land (mode a) S_IFMT.
Proof.
  rewrite mutate_attr_mode. cbn zeta. do 2 case_match; rewrite ?ClearSetid_land by done;
    cbn [mode set_mode]; by rewrite ?land_lor_type.
Qed.

Lemma mutate_attr_perms now r f a :
  HasSetAttrField f kMode = false → Z.land (mode (mutate_attr now r f a)) 511 = Z.land (mode a) 511.
Proof.
  intros Hm. rewrite mutate_attr_mode, Hm. cbn zeta. case_match; by rewrite ?ClearSetid_land.
Qed.

(** ** Preservation *)

Lemma acl_synced_set_attr i a :
  acl_synced i → Z.land (mode a) S_IFMT = Z.land (mode (attr i)) S_IFMT →
  Z.land (mode a) 511 = Z.land (mode (attr i)) 511 → acl_synced (set_attr a i).
Proof.
  intros [S A D] Ht Hp. constructor; unfold IsSymlink, IsDir, S_ISLNK, S_ISDIR in *; cbn; rewrite ?Ht, ?Hp; auto.
Qed.

Lemma SetXAttr_ok now i name value m i' :
  inode_ok i → SetXAttr now i name value m = Ok i' → inode_ok i'.
Proof.
  intros [Ha Hl] H. pose proof (synced_sorted _ Ha) as Hs. unfold SetXAttr in H.
  destruct (IsPosixAclXAttrName name) eqn:Hn.
  { split; [by eapply SetPosixAclXAttr_synced|by eapply SetPosixAclXAttr_limits]. }
  inv_result. rewrite !Z.gtb_ltb in *. zify_bools. pose proof (zlen_nonneg name).
  assert (i' = Touch now kCtime (set_xattrs (map_assign name value (xattrs i)) i)) as ->.
  { subst i'. destruct (map_find name (xattrs i)) eqn:Hf; [done|]. by rewrite map_emplace_absent. }
  split; [by apply acl_synced_Touch, acl_synced_assign_other|].
  apply limits_assign; try done; [lia|]. intros Hf. rewrite Hf in *. inv_result. by zify_bools.
Qed.

Lemma RemoveXAttr_ok now i name i' : inode_ok i → RemoveXAttr now i name = Ok i' → inode_ok i'.
Proof.
  intros [Ha Hl] H. unfold RemoveXAttr in H. destruct (IsPosixAclXAttrName name).
  - split; [by eapply RemovePosixAclXAttr_synced|]. unfold RemovePosixAclXAttr in H. inv_result.
    case_match; inv_result; subst. by apply limits_erase.
  - inv_result. case_match; inv_result; subst.
    split; [by apply acl_synced_Touch, acl_synced_erase|by apply limits_erase].
Qed.

Lemma PrepareSetAttrMutation_ok now i r f i' :
  inode_ok i → PrepareSetAttrMutation now i r f = Ok i' → inode_ok i'.
Proof.
  intros [Ha Hl] H. pose proof (synced_sorted _ Ha) as Hs. unfold PrepareSetAttrMutation in H. inv_result.
  pose proof (mutate_attr_type now r f (attr i)) as Ht.
  destruct (HasSetAttrField f kMode) eqn:Hm; inv_result.
  - split; [by eapply SyncPosixAccessAclForMode_synced; [exact Ha|exact Ht| |exact H]|].
    by eapply SyncPosixAccessAclForMode_limits; [| |exact H].
  - subst i'. split; [|done]. apply acl_synced_set_attr; [done|done|by apply mutate_attr_perms].
Qed.

(** The inode-local operations of the metadata engine. *)
Inductive inode_op :=
  | OpSetXAttr (name value : bytes) (m : XAttrSetMode)
  | OpRemoveXAttr (name : bytes)
  | OpSetAttr (requested : SwordFsAttr) (fields : Z).

Definition apply_op (now : Z) (i : SwordFsInode) (op : inode_op) : result SwordFsInode :=
  match op with
  | OpSetXAttr name value m => SetXAttr now i name value m
  | OpRemoveXAttr name => RemoveXAttr now i name
  | OpSetAttr r f => PrepareSetAttrMutation now i r f
  end.

(** A history: failed operations leave the inode as it was. *)
Inductive inode_reaches : SwordFsInode → SwordFsInode → Prop :=
  | reaches_refl i : inode_reaches i i
  | reaches_step i j k now op : inode_reaches i j → apply_op now j op = Ok k → inode_reaches i k
  | reaches_fail i j now op s : inode_reaches i j → apply_op now j op = Err s → inode_reaches i j.

(** C13: the inode invariant.  From a freshly created inode (whose attributes are the ones
    create-time inheritance gave it) no sequence of setxattr, removexattr and setattr,
    whatever their arguments, leaves the access ACL out of step with the mode, stores a
    malformed or superfluous ACL, a default ACL on a non-directory or an ACL on a
    symlink, or exceeds the name, value and list limits; and the inode number, parent
    and symlink target never change. *)
Theorem inode_history_ok i i' :
  inode_ok i → inode_reaches i i' →
  inode_ok i' ∧ ino i' = ino i ∧ parent_ino i' = parent_ino i ∧ symlink_target i' = symlink_target i ∧
  Z.land (mode (attr i')) S_IFMT = Z.land (mode (attr i)) S_IFMT.
Proof.
  intros Hi. induction 1 as [i|i j k now op Hr IH Hop|]; [done| |auto].
  destruct (IH Hi) as (Hj & E1 & E2 & E3 & E4). split.
  { destruct op; cbn in Hop; eauto using SetXAttr_ok, RemoveXAttr_ok, PrepareSetAttrMutation_ok. }
  rewrite <- E1, <- E2, <- E3, <- E4. clear -Hop. destruct op as [name value m|name|r f]; cbn in Hop.
  - unfold SetXAttr, SetPosixAclXAttr in Hop. destruct (IsPosixAclXAttrName name); inv_result; subst k;
      rewrite mode_Touch; [|by repeat case_match].
    repeat case_match; split_and!; try done; apply with_permissions_land; try done;
      apply PermissionsMode_bits; by match goal with H : Parse _ = Ok _ |- _ => apply Parse_iff in H as (_ & ? & _) end.
  - unfold RemoveXAttr, RemovePosixAclXAttr in Hop. destruct (IsPosixAclXAttrName name); inv_result;
      case_match; inv_result; subst k; by rewrite mode_Touch.
  - unfold PrepareSetAttrMutation in Hop. inv_result. pose proof (mutate_attr_type now r f (attr j)).
    destruct (HasSetAttrField f kMode); inv_result; [|by subst k].
    unfold SyncPosixAccessAclForMode in Hop. case_match; inv_result; by subst k.
Qed.

Lemma inode_ok_nil i : xattrs i = [] → inode_ok i.
Proof.
  intros Hx. split; [constructor; rewrite Hx; [constructor|done|done]|].
  rewrite Hx. split; [constructor|]. cbn. unfold kMaxXAttrListSize. lia.
Qed.

Lemma inode_history_ok_witness :
  ∃ i', inode_reaches (sample_inode (Z.lor S_IFREG 420)) i' ∧ inode_ok i' ∧
    map_find kPosixAclAccessXAttr (xattrs i') = Some (Serialize (ApplyMode 448 sample_acl)).
Proof.
  destruct (apply_op 5 (sample_inode (Z.lor S_IFREG 420))
    (OpSetXAttr kPosixAclAccessXAttr (Serialize sample_acl) kCreateOnly)) as [j|s] eqn:E1;
    [|vm_compute in E1; discriminate E1].
  destruct (apply_op 6 j (OpSetAttr (set_mode 448 zero_attr) kMode)) as [k|s] eqn:E2;
    [|vm_compute in E1; injection E1 as <-; vm_compute in E2; discriminate E2].
  assert (inode_reaches (sample_inode (Z.lor S_IFREG 420)) k) as Hr
    by (eapply reaches_step; [eapply reaches_step; [apply reaches_refl|exact E1]|exact E2]).
  exists k. split; [exact Hr|]. split.
  - refine (proj1 (inode_history_ok (sample_inode (Z.lor S_IFREG 420)) k _ Hr)). apply inode_ok_nil. reflexivity.
  - vm_compute in E1. injection E1 as <-. vm_compute in E2. injection E2 as <-. vm_compute. reflexivity.
Defined.

(** Create-time inheritance starts every history from a valid inode. *)
Lemma inherit_ok parent umask child child' :
  inode_ok parent → xattrs child = [] →
  ApplyPosixAclCreateInheritance parent umask child = Ok child' → inode_ok child'.
Proof.
  intros [Hp Hl] Hx H. split; [by eapply inherit_synced|].
  destruct (IsSymlink child) eqn:Hsl.
  { unfold ApplyPosixAclCreateInheritance in H. rewrite Hsl in H. simplify_eq. by apply inode_ok_nil. }
  apply inherit_spec in H; [|done].
  destruct (map_find kPosixAclDefaultXAttr (xattrs parent)) as [v|] eqn:Hd;
    [|destruct H as [_ ->]; by apply inode_ok_nil].
  destruct H as (acl & Hpv & _ & _ & ->). cbn zeta. rewrite Hx.
  assert (zlen v ≤ kMaxXAttrValueSize) as Hv by (by eapply limits_Forall_find).
  assert (zlen (Serialize (RestrictToMode (mode (attr child)) acl)) = zlen v) as Hv'.
  { apply Parse_iff in Hpv as (-> & _). by rewrite !zlen_Serialize, zlen_RestrictToMode. }
  assert (xattr_limits (if IsMinimal acl then [] else
    map_assign kPosixAclAccessXAttr (Serialize (RestrictToMode (mode (attr child)) acl)) [])) as Hl1.
  { destruct (IsMinimal acl); [split; [constructor|done]|].
    apply limits_assign; [constructor|split; [constructor|done]|done|lia|done]. }
  destruct (IsDir child); [|done].
  apply limits_assign; [destruct (IsMinimal acl); [constructor|by repeat constructor]|done|done|done|].
  intros _. by destruct (IsMinimal acl).
Qed.

(** ** Extended attributes as a map *)

(** setxattr/getxattr round trip.  A successful set makes exactly that name read back
    exactly that value, leaves every other name as it was, keeps mode and type, and adds
    the name to the listing without duplicates; create-only and replace-only are honoured. *)
Theorem SetXAttr_GetXAttr now i name value m i' :
  inode_ok i → IsPosixAclXAttrName name = false →
  SetXAttr now i name value m = Ok i' →
  (∀ n, GetXAttr i' n = if bool_decide (n = name) then Ok value else GetXAttr i n) ∧
  mode (attr i') = mode (attr i) ∧ name ∈ ListXAttrs i' ∧ NoDup (ListXAttrs i') ∧
  (m = kCreateOnly → map_find name (xattrs i) = None) ∧
  (m = kReplaceOnly → is_Some (map_find name (xattrs i))).
Proof.
  intros Hi Hn H. pose proof (SetXAttr_ok _ _ _ _ _ _ Hi H) as [[Hs' _ _] _].
  destruct Hi as [[Hs _ _] _]. unfold SetXAttr in H. rewrite Hn in H. inv_result.
  rewrite Z.gtb_ltb in *. zify_bools.
  assert (xattrs i' = map_assign name value (xattrs i)) as Hx.
  { subst i'. destruct (map_find name (xattrs i)) eqn:Hf; [done|]. cbn. by rewrite map_emplace_absent. }
  assert (∀ n, map_find n (xattrs i') = if key_eqb n name then Some value else map_find n (xattrs i)) as Hf
    by (intros n; by rewrite Hx, map_find_assign).
  split_and!.
  - intros n. unfold GetXAttr. rewrite Hf. case_bool_decide as E.
    + subst n. rewrite key_eqb_refl, Z.gtb_ltb. by destruct (Z.ltb_spec kMaxXAttrNameLength (zlen name)); [lia|].
    + by rewrite (proj2 (key_eqb_neq n name) E).
  - subst i'. rewrite mode_Touch. by case_match.
  - apply (map_find_elem name value). by rewrite Hf, key_eqb_refl.
  - by apply map_sorted_NoDup.
  - intros ->. by destruct (map_find name (xattrs i)).
  - intros ->. destruct (map_find name (xattrs i)); [by eexists|done].
Qed.

Lemma SetXAttr_GetXAttr_witness :
  ∃ i', SetXAttr 5 (sample_inode S_IFREG) (lit "user.k") (lit "v") kCreateOnly = Ok i' ∧
    ∀ n, GetXAttr i' n = if bool_decide (n = lit "user.k") then Ok (lit "v") else GetXAttr (sample_inode S_IFREG) n.
Proof.
  destruct (SetXAttr 5 (sample_inode S_IFREG) (lit "user.k") (lit "v") kCreateOnly) as [i'|s] eqn:E;
    [|vm_compute in E; discriminate E].
  exists i'. split; [reflexivity|].
  refine (proj1 (SetXAttr_GetXAttr 5 (sample_inode S_IFREG) (lit "user.k") (lit "v") kCreateOnly i' _ _ E));
    [apply inode_ok_nil; reflexivity|vm_compute; reflexivity].
Defined.

(** ** setattr *)

(** The fields a setattr may write, from the request, the clock and the old value. *)
Definition new_time (fields set_now set_explicit now old requested : Z) : Z :=
  if HasSetAttrField fields set_now then now
  else if HasSetAttrField fields set_explicit then requested else old.

Lemma touch_fields now a :
  touch_attr now kAtime a = set_atime now 0 a ∧ touch_attr now kMtime a = set_mtime now 0 a ∧
  touch_attr now kCtime a = set_ctime now 0 a.
Proof. done. Qed.

Lemma CheckSetAttrPolicy_cases a f :
  CheckSetAttrPolicy a f = OK ∨ CheckSetAttrPolicy a f = NotPermitted.
Proof. unfold CheckSetAttrPolicy. repeat case_match; auto. Qed.

(** Each step of [mutate_attr] writes one field; [solve_field] reads a field through them. *)
Ltac solve_field g :=
  try unfold mutate_attr; cbn zeta;
  repeat first
    [ rewrite (when_keeps g) by (intros; done)
    | match goal with |- context [g (when ?b _ _)] => destruct b; cbn [when]; [done|] end ];
  done.

Lemma mutate_attr_ids now r f a :
  let a' := mutate_attr now r f a in
  dev a' = dev a ∧ attr_ino a' = attr_ino a ∧ nlink a' = nlink a ∧ rdev a' = rdev a ∧ blksize a' = blksize a ∧
  blocks a' = blocks a ∧ btime a' = btime a ∧ btime_nsec a' = btime_nsec a ∧ inode_flags a' = inode_flags a.
Proof.
  cbn zeta. split_and!;
    [solve_field dev|solve_field attr_ino|solve_field nlink|solve_field rdev|solve_field blksize
    |solve_field blocks|solve_field btime|solve_field btime_nsec|solve_field inode_flags].
Qed.

Lemma mutate_attr_owner now r f a :
  let a' := mutate_attr now r f a in
  uid a' = (if HasSetAttrField f kUid then uid r else uid a) ∧
  gid a' = (if HasSetAttrField f kGid then gid r else gid a) ∧
  size a' = (if HasSetAttrField f kSize then size r else size a).
Proof. cbn zeta. split_and!; [solve_field uid|solve_field gid|solve_field size]. Qed.

Lemma mutate_attr_times now r f a :
  let a' := mutate_attr now r f a in
  atime a' = new_time f kAtimeNow kAtime now (atime a) (atime r) ∧
  mtime a' = (if HasSetAttrField f kSize && negb (size r =? size a) && negb (HasSetAttrField f kMtime)
              then now else new_time f kMtimeNow kMtime now (mtime a) (mtime r)) ∧
  ctime a' = (if HasSetAttrField f kCtime then ctime r else now).
Proof.
  cbn zeta. unfold new_time. split_and!; [solve_field atime| |].
  2:{ unfold mutate_attr. destruct (HasSetAttrField f kCtime); cbn [negb when]; solve_field ctime. }
  unfold mutate_attr. cbn zeta. rewrite (when_keeps mtime _ (touch_attr now kCtime)) by done.
  destruct (HasSetAttrField f kMtime) eqn:E1, (HasSetAttrField f kMtimeNow) eqn:E2,
    (HasSetAttrField f kSize && _) eqn:E3; cbn [andb negb];
    cbn [when]; try done; repeat (rewrite (when_keeps mtime) by (intros; done)); done.
Qed.

(** setattr writes exactly what was requested.  On an inode whose flags allow it,
    owner, group and size follow the request bits, the mode keeps its type and takes the
    requested permission bits (then the kill-privilege rule), explicit and "now"
    timestamps, the implied mtime of a size change and the implied ctime are applied,
    nothing else of the attributes changes, and the access ACL follows the new mode. *)
Theorem PrepareSetAttrMutation_spec now i r f i' :
  inode_ok i → PrepareSetAttrMutation now i r f = Ok i' →
  let a := attr i in let a' := attr i' in
  uid a' = (if HasSetAttrField f kUid then uid r else uid a) ∧
  gid a' = (if HasSetAttrField f kGid then gid r else gid a) ∧
  size a' = (if HasSetAttrField f kSize then size r else size a) ∧
  atime a' = new_time f kAtimeNow kAtime now (atime a) (atime r) ∧
  mtime a' = (if HasSetAttrField f kSize && negb (size r =? size a) && negb (HasSetAttrField f kMtime)
              then now else new_time f kMtimeNow kMtime now (mtime a) (mtime r)) ∧
  ctime a' = (if HasSetAttrField f kCtime then ctime r else now) ∧
  (HasSetAttrField f kMode = true → Z.land (mode a') 511 = Z.land (mode r) 511) ∧
  nlink a' = nlink a ∧ inode_flags a' = inode_flags a ∧
  ∀ n, n ≠ kPosixAclAccessXAttr → map_find n (xattrs i') = map_find n (xattrs i).
Proof.
  intros [[Hs _ _] _] H. cbn zeta. unfold PrepareSetAttrMutation in H. inv_result.
  assert (attr i' = mutate_attr now r f (attr i) ∧
          ∀ n, n ≠ kPosixAclAccessXAttr → map_find n (xattrs i') = map_find n (xattrs i)) as [-> Hx].
  { destruct (HasSetAttrField f kMode); [|by inv_result; subst].
    apply SyncPosixAccessAclForMode_spec in H as (-> & _ & Hx & _); done. }
  pose proof (mutate_attr_owner now r f (attr i)) as (-> & -> & ->).
  pose proof (mutate_attr_times now r f (attr i)) as (-> & -> & ->).
  pose proof (mutate_attr_ids now r f (attr i)) as (_ & _ & -> & _ & _ & _ & _ & _ & ->).
  split_and!; try done. intros Hm. rewrite mutate_attr_mode, Hm. cbn zeta.
  assert (Z.land (Z.lor (Z.land (mode (attr i)) S_IFMT) (Z.land (mode r) 4095)) 511 = Z.land (mode r) 511) as E.
  { rewrite Z.land_lor_distr_l, <- !Z.land_assoc. change (Z.land S_IFMT 511) with 0.
    change (Z.land 4095 511) with 511. by rewrite Z.land_0_r. }
  destruct (HasSetAttrField f kKillSuidGid); [rewrite ClearSetid_land by done|]; exact E.
Qed.

Lemma PrepareSetAttrMutation_spec_witness :
  ∃ i', PrepareSetAttrMutation 50 (sample_inode (Z.lor S_IFREG 420)) (set_size 7 zero_attr) kSize = Ok i' ∧
    uid (attr i') = 1000.
Proof.
  destruct (PrepareSetAttrMutation 50 (sample_inode (Z.lor S_IFREG 420)) (set_size 7 zero_attr) kSize)
    as [i'|s] eqn:E; [|vm_compute in E; discriminate E].
  exists i'. split; [reflexivity|].
  refine (eq_trans (proj1 (PrepareSetAttrMutation_spec 50 (sample_inode (Z.lor S_IFREG 420))
    (set_size 7 zero_attr) kSize i' _ E)) _); [apply inode_ok_nil; reflexivity|reflexivity].
Defined.
