(* ===== verification/Codec.v ===== *)
(** * Binary record codec

    src/src/metadata/types/BufCodec.{hpp,cpp}: [BufEncoder] and [BufDecoder], thin wrappers
    around folly's [io::Appender] and [io::Cursor].  folly is not part of the repository:
    its two classes are the operations of [FollyIO], and what the codec relies on is
    [FollyIOLaws], the documented behaviour of those operations.  [ListIO] is an instance,
    so the laws can be met and the codec runs. *)

From S2P Require Import Prelude StdMap InodeTypes.

(** ** folly::io *)
Class FollyIO := {
  Cursor : Type;
  wrapBuffer : bytes → Cursor;
  (** [cursor.tryReadLE(value)] for an [n]-byte integer: success, the bit pattern left in
      [value] (unspecified after a failure) and the moved cursor. *)
  tryReadLE : nat → Cursor → bool * Z * Cursor;
  canAdvance : Z → Cursor → bool;
  readFixedString : Z → Cursor → bytes * Cursor;
  isAtEnd : Cursor → bool;
  Appender : Type;
  create : Appender;
  writeLE : nat → Z → Appender → Appender;
  push : bytes → Appender → Appender;
  appendTo : Appender → bytes;
}.

(** A cursor has some bytes left; reads take a prefix of them and never move backwards. *)
Class FollyIOLaws `{FollyIO} := {
  remaining : Cursor → bytes;
  remaining_wrapBuffer s : remaining (wrapBuffer s) = s;
  tryReadLE_spec n c :
    let '(ok, v, c') := tryReadLE n c in
    ok = (Z.of_nat n <=? zlen (remaining c)) ∧
    (if ok then v = le_value (take n (remaining c)) ∧ remaining c' = drop n (remaining c)
     else zlen (remaining c') ≤ zlen (remaining c));
  canAdvance_spec n c : canAdvance n c = (n <=? zlen (remaining c));
  readFixedString_spec n c :
    0 ≤ n ≤ zlen (remaining c) →
    (readFixedString n c).1 = take (Z.to_nat n) (remaining c) ∧
    remaining (readFixedString n c).2 = drop (Z.to_nat n) (remaining c);
  isAtEnd_spec c : isAtEnd c = (zlen (remaining c) =? 0);
  appendTo_create : appendTo create = [];
  appendTo_writeLE n z a : appendTo (writeLE n z a) = appendTo a ++ le_bytes n z;
  appendTo_push s a : appendTo (push s a) = appendTo a ++ s;
}.

(** ** The codec *)
Section Codec.
Context `{FollyIO}.

Inductive RecordType := kVolume | kInode | kEntry | kReclaim | kPendingDelete | kCowTypedCleanup.
Definition RecordType_value (t : RecordType) : Z :=
  match t with
  | kVolume => 1 | kInode => 2 | kEntry => 3 | kReclaim => 5 | kPendingDelete => 6 | kCowTypedCleanup => 8
  end.

Definition kMagic : bytes := lit "SWFSMETA".
Definition kSchemaVersion : Z := 1.

(** *** BufEncoder *)
Definition enc_U32 (value : Z) (e : Appender) : Appender := writeLE 4 value e.
Definition enc_U64 (value : Z) (e : Appender) : Appender := writeLE 8 value e.
Definition enc_I64 (value : Z) (e : Appender) : Appender := writeLE 8 value e.
Definition enc_String (value : bytes) (e : Appender) : Appender := push value (enc_U64 (zlen value) e).

Definition enc_Attr (a : SwordFsAttr) (e : Appender) : Appender :=
  let e := enc_U64 (dev a) e in
  let e := enc_U64 (attr_ino a) e in
  let e := enc_U32 (mode a) e in
  let e := enc_U64 (nlink a) e in
  let e := enc_U64 (uid a) e in
  let e := enc_U64 (gid a) e in
  let e := enc_U64 (rdev a) e in
  let e := enc_U64 (size a) e in
  let e := enc_U64 (blksize a) e in
  let e := enc_U64 (blocks a) e in
  let e := enc_I64 (atime a) e in
  let e := enc_I64 (atime_nsec a) e in
  let e := enc_I64 (mtime a) e in
  let e := enc_I64 (mtime_nsec a) e in
  let e := enc_I64 (ctime a) e in
  let e := enc_I64 (ctime_nsec a) e in
  let e := enc_I64 (btime a) e in
  let e := enc_I64 (btime_nsec a) e in
  enc_U32 (inode_flags a) e.

Definition enc_Header (t : RecordType) (e : Appender) : Appender :=
  let e := enc_String kMagic e in
  let e := enc_U32 kSchemaVersion e in
  enc_U32 (RecordType_value t) e.

Definition Finish (e : Appender) : bytes := appendTo e.

(** *** BufDecoder *)
Record BufDecoder := mkDecoder { cursor : Cursor; failed : bool }.
Definition new_decoder (data : bytes) : BufDecoder := mkDecoder (wrapBuffer data) false.

(** A read: the returned bool, what the output variable holds afterwards, the decoder. *)
Definition dec (A : Type) : Type := BufDecoder → bool * A * BufDecoder.

Definition dec_fixed (n : nat) : dec Z := λ d,
  let '(ok, v, c) := tryReadLE n (cursor d) in (ok, v, mkDecoder c (failed d || negb ok)).
Definition dec_U32 : dec Z := dec_fixed 4.
Definition dec_U64 : dec Z := dec_fixed 8.
Definition dec_I64 : dec Z := λ d,
  let '(ok, v, d) := dec_fixed 8 d in (ok, to_signed 64 v, d).

Definition dec_String : dec bytes := λ d,
  let '(ok, length, d) := dec_U64 d in
  if negb ok || negb (canAdvance length (cursor d)) then (false, [], mkDecoder (cursor d) true) else
  let '(s, c) := readFixedString length (cursor d) in
  (true, s, mkDecoder c (failed d)).

(** [a || b || ...] of failed reads inside [Attr] and [Header]: stop at the first failure. *)
Definition decM (A : Type) : Type := BufDecoder → option A * BufDecoder.
#[local] Instance decM_ret : MRet decM := λ A a d, (Some a, d).
#[local] Instance decM_bind : MBind decM := λ A B f m d,
  match m d with (Some a, d') => f a d' | (None, d') => (None, d') end.
Definition try_read {A} (p : dec A) : decM A := λ d,
  let '(ok, v, d) := p d in (if ok then Some v else None, d).
(** [if (b) { failed_ = true; return false; }] *)
Definition reject (b : bool) : decM unit := λ d,
  if b then (None, mkDecoder (cursor d) true) else (Some tt, d).
(** On failure [Attr] leaves a partly written struct behind, which no caller reads. *)
Definition finish_with {A} (dflt : A) (m : decM A) : dec A := λ d,
  match m d with (Some a, d') => (true, a, d') | (None, d') => (false, dflt, d') end.

Definition nsec_bad (v : Z) : bool := (v <? 0) || (v >=? 1000000000).

Definition dec_Attr : dec SwordFsAttr := finish_with zero_attr (
  dev ← try_read dec_U64;
  ino ← try_read dec_U64;
  mode ← try_read dec_U32;
  nlink ← try_read dec_U64;
  uid ← try_read dec_U64;
  gid ← try_read dec_U64;
  rdev ← try_read dec_U64;
  size ← try_read dec_U64;
  blksize ← try_read dec_U64;
  blocks ← try_read dec_U64;
  atime ← try_read dec_I64;
  atime_nsec ← try_read dec_I64;
  mtime ← try_read dec_I64;
  mtime_nsec ← try_read dec_I64;
  ctime ← try_read dec_I64;
  ctime_nsec ← try_read dec_I64;
  btime ← try_read dec_I64;
  btime_nsec ← try_read dec_I64;
  flags ← try_read dec_U32;
  _ ← reject (negb (clear_bits flags kSupportedInodeFlagBits =? 0));
  _ ← reject (nsec_bad atime_nsec || nsec_bad mtime_nsec || nsec_bad ctime_nsec || nsec_bad btime_nsec);
  mret (mkAttr dev ino mode nlink uid gid rdev size blksize blocks
          atime atime_nsec mtime mtime_nsec ctime ctime_nsec btime btime_nsec flags)).

Definition dec_Header (t : RecordType) : dec unit := finish_with tt (
  magic ← try_read dec_String;
  _ ← reject (bool_decide (magic ≠ kMagic));
  version ← try_read dec_U32;
  _ ← reject (negb (version =? kSchemaVersion));
  ty ← try_read dec_U32;
  reject (negb (ty =? RecordType_value t))).

Definition Done (d : BufDecoder) : bool := negb (failed d) && isAtEnd (cursor d).


(** ** Reading back what was written *)
Context `{!FollyIOLaws}.

Definition rem (d : BufDecoder) : bytes := remaining (cursor d).

(** [m] reads exactly the layout [lay] of the values satisfying [wf]: it succeeds on a
    layout followed by anything, what it accepts is a layout, and a failure is sticky. *)
Record reads {A} (m : decM A) (lay : A → bytes) (wf : A → Prop) : Prop := {
  reads_accepts a d rest : wf a → rem d = lay a ++ rest →
    ∃ d', m d = (Some a, d') ∧ rem d' = rest ∧ failed d' = failed d;
  reads_exact d a d' : m d = (Some a, d') → wf a ∧ rem d = lay a ++ rem d' ∧ failed d' = failed d;
  reads_fails d d' : m d = (None, d') → failed d' = true ∧ zlen (rem d') ≤ zlen (rem d);
}.

Lemma reads_ret {A} (x : A) : reads (mret x) (λ _, []) (λ a, a = x).
Proof.
  split; unfold mret, decM_ret.
  - intros a d rest -> Hr. by exists d.
  - intros d a d' [= <- <-]. done.
  - done.
Qed.

Lemma reads_reject b : reads (reject b) (λ _, []) (λ _, b = false).
Proof.
  unfold reject. split.
  - intros [] d rest -> Hr. by exists d.
  - intros d a d'. destruct b; [done|]. by intros [= <- <-].
  - intros d d'. destruct b; [|done]. by intros [= <-].
Qed.

(** Sequencing; [π] recovers the first value from the final one. *)
Lemma reads_bind {A B} (π : B → A) (m : decM A) (f : A → decM B) layA wfA layB wfB :
  reads m layA wfA → (∀ a, reads (f a) (layB a) (wfB a)) → (∀ a b, wfB a b → π b = a) →
  reads (m ≫= f) (λ b, layA (π b) ++ layB (π b) b) (λ b, wfA (π b) ∧ wfB (π b) b).
Proof.
  intros Hm Hf Hπ. split; unfold mbind, decM_bind.
  - intros b d rest [Ha Hb] Hr. rewrite <- app_assoc in Hr.
    destruct (reads_accepts _ _ _ Hm _ _ _ Ha Hr) as (d1 & -> & Hr1 & Hf1).
    destruct (reads_accepts _ _ _ (Hf _) _ _ _ Hb Hr1) as (d2 & -> & Hr2 & Hf2).
    exists d2. split_and!; congruence.
  - intros d b d' E. destruct (m d) as [[a|] d1] eqn:E1; [|done].
    destruct (reads_exact _ _ _ Hm _ _ _ E1) as (Ha & Hr1 & Hf1).
    destruct (reads_exact _ _ _ (Hf a) _ _ _ E) as (Hb & Hr2 & Hf2).
    rewrite (Hπ a b Hb), <- app_assoc. split_and!; congruence.
  - intros d d' E. destruct (m d) as [[a|] d1] eqn:E1; [|simplify_eq; by eapply reads_fails].
    destruct (reads_exact _ _ _ Hm _ _ _ E1) as (Ha & Hr1 & Hf1).
    destruct (reads_fails _ _ _ (Hf a) _ _ E) as [? ?]. split; [done|].
    rewrite Hr1, zlen_app. pose proof (zlen_nonneg (layA a)). lia.
Qed.

Lemma reads_ext {A} (m : decM A) lay lay' wf wf' :
  reads m lay wf → (∀ a, wf a ↔ wf' a) → (∀ a, wf a → lay a = lay' a) → reads m lay' wf'.
Proof.
  intros Hm Hw Hl. split.
  - intros a d rest Ha Hr. apply Hw in Ha. rewrite <- Hl in Hr by done. by eapply reads_accepts.
  - intros d a d' E. destruct (reads_exact _ _ _ Hm _ _ _ E) as (Ha & ? & ?).
    rewrite <- Hl by done. split_and!; [by apply Hw|done..].
  - by eapply reads_fails.
Qed.

Lemma reads_fixed n : reads (try_read (dec_fixed n)) (le_bytes n) (in_range (8 * Z.of_nat n)).
Proof.
  assert (∀ z, in_range (8 * Z.of_nat n) z ↔ 0 ≤ z < 256 ^ Z.of_nat n) as Hrange.
  { intros z. unfold in_range. by rewrite Z.pow_mul_r by lia. }
  split; unfold try_read, dec_fixed, rem;
    [intros a d rest Hw Hrd|intros d a d' E|intros d d' E].
  - pose proof (tryReadLE_spec n (cursor d)) as Hs. destruct (tryReadLE n (cursor d)) as [[ok v] c].
    destruct Hs as [Hok Hs]. rewrite Hrd in *.
    rewrite (proj2 (Z.leb_le (Z.of_nat n) _)) in Hok by (rewrite zlen_app, zlen_le_bytes; pose proof (zlen_nonneg rest); lia).
    subst ok. destruct Hs as [-> Hr]. apply Hrange in Hw.
    rewrite drop_app_length' in Hr by (by rewrite length_le_bytes).
    rewrite take_app_length', le_value_le_bytes, Z.mod_small by (done || by rewrite length_le_bytes).
    eexists. split; [done|]. cbn. by rewrite orb_false_r.
  - pose proof (tryReadLE_spec n (cursor d)) as Hs. destruct (tryReadLE n (cursor d)) as [[ok v] c].
    destruct Hs as [Hok Hs]. destruct ok; simplify_eq/=. destruct Hs as [-> Hr]. symmetry in Hok. apply Z.leb_le in Hok.
    assert (length (take n (remaining (cursor d))) = n) as Hl by (unfold zlen in Hok; rewrite length_take; lia).
    pose proof (le_value_range (take n (remaining (cursor d)))) as Hv. unfold zlen in Hv. rewrite Hl in Hv.
    split; [by apply Hrange|]. rewrite <- Hl at 1. rewrite le_bytes_le_value, Hr, take_drop, orb_false_r. done.
  - pose proof (tryReadLE_spec n (cursor d)) as Hs. destruct (tryReadLE n (cursor d)) as [[ok v] c].
    destruct Hs as [Hok Hs]. destruct ok; simplify_eq/=. by rewrite orb_true_r.
Qed.

Lemma reads_U32 : reads (try_read dec_U32) (le_bytes 4) (in_range 32).
Proof. apply (reads_fixed 4). Qed.
Lemma reads_U64 : reads (try_read dec_U64) (le_bytes 8) (in_range 64).
Proof. apply (reads_fixed 8). Qed.

Lemma to_signed_64 v : in_range 64 v →
  in_range_signed 64 (to_signed 64 v) ∧ le_bytes 8 (to_signed 64 v) = le_bytes 8 v.
Proof.
  intros Hv. unfold in_range, in_range_signed, to_signed in *. destruct (Z.ltb_spec v (2 ^ (64 - 1))); [by split; [lia|]|].
  split; [lia|]. rewrite <- (le_bytes_le_value (le_bytes 8 (v - 2 ^ 64))), length_le_bytes, le_value_le_bytes.
  f_equal. change (256 ^ Z.of_nat 8) with (2 ^ 64).
  replace (v - 2 ^ 64) with (v + (-1) * 2 ^ 64) by lia. rewrite Z_mod_plus_full. by apply Z.mod_small.
Qed.

Lemma le_bytes_wrap n z : le_bytes n (z mod 256 ^ Z.of_nat n) = le_bytes n z.
Proof.
  rewrite <- le_value_le_bytes. rewrite <- (le_bytes_le_value (le_bytes n z)) at 2. by rewrite length_le_bytes.
Qed.

Lemma reads_I64 : reads (try_read dec_I64) (le_bytes 8) (in_range_signed 64).
Proof.
  pose proof (reads_fixed 8) as [Ha He Hf]. unfold try_read, dec_I64 in *.
  split; [intros a d rest Hw Hrd|intros d a d' E0|intros d d' E0].
  - destruct (Ha (wrap 64 a) d rest) as (d' & E & ?); [by apply wrap_range|..].
    { rewrite Hrd. f_equal. symmetry. apply (le_bytes_wrap 8 a). }
    exists d'. destruct (dec_fixed 8 d) as [[ok v] d1]. destruct ok; simplify_eq/=.
    by rewrite to_signed_wrap.
  - destruct (dec_fixed 8 d) as [[ok v] d1] eqn:E. destruct ok; [injection E0 as <- <-|done].
    destruct (He d v d1) as (? & ? & ?); [by rewrite E|].
    destruct (to_signed_64 v) as [? ->]; [done|]. done.
  - apply Hf. destruct (dec_fixed 8 d) as [[ok v] d1]. by destruct ok; simplify_eq/=.
Qed.

Definition string_bytes (s : bytes) : bytes := le_bytes 8 (zlen s) ++ s.
Definition string_ok (s : bytes) : Prop := in_range 64 (zlen s).

Lemma reads_String : reads (try_read dec_String) string_bytes string_ok.
Proof.
  pose proof reads_U64 as [Ha He Hf]. unfold try_read, dec_String, string_bytes, string_ok in *.
  split; [intros a d rest Hw Hrd|intros d a d' E0|intros d d' E0].
  - rewrite <- app_assoc in Hrd. destruct (Ha (zlen a) d (a ++ rest)) as (d1 & E & Hr & Hfl); [done..|].
    destruct (dec_U64 d) as [[ok v] d2]. destruct ok; simplify_eq/=.
    rewrite canAdvance_spec. unfold rem in Hr. rewrite Hr, zlen_app.
    pose proof (zlen_nonneg rest). pose proof (zlen_nonneg a).
    destruct (Z.leb_spec (zlen a) (zlen a + zlen rest)); [|lia]. cbn.
    destruct (readFixedString_spec (zlen a) (cursor d1)) as [E1 E2]; [rewrite Hr, zlen_app; lia|].
    destruct (readFixedString _ _) as [s c]; cbn in *. rewrite Hr in *.
    replace (Z.to_nat (zlen a)) with (length a) in * by (unfold zlen; lia).
    rewrite take_app_length in E1. rewrite drop_app_length in E2. subst. eauto.
  - destruct (dec_U64 d) as [[ok v] d1] eqn:E. destruct ok; simplify_eq/=.
    destruct (He d v d1) as (Hv & Hr & Hfl); [by rewrite E|].
    rewrite canAdvance_spec in E0. destruct (Z.leb_spec v (zlen (remaining (cursor d1)))); simplify_eq/=.
    destruct (readFixedString_spec v (cursor d1)) as [E1 E2]; [unfold in_range in Hv; lia|].
    destruct (readFixedString _ _) as [s c]; simplify_eq/=. unfold rem in *; cbn. rewrite E2, Hr.
    assert (zlen (take (Z.to_nat v) (remaining (cursor d1))) = v) as ->.
    { unfold zlen, in_range in *. rewrite length_take. lia. }
    split_and!; [done| |done]. cbn. by rewrite take_drop.
  - destruct (dec_U64 d) as [[ok v] d1] eqn:E. destruct ok; cbn [negb orb] in E0.
    + destruct (He d v d1) as (Hv & Hr & Hfl); [by rewrite E|].
      destruct (canAdvance _ _); cbn [negb] in E0; [by destruct (readFixedString _ _)|].
      injection E0 as <-. split; [done|]. unfold rem in *. cbn [cursor].
      rewrite Hr, zlen_app, zlen_le_bytes. lia.
    + injection E0 as <-. split; [done|]. apply (Hf d d1). by rewrite E.
Qed.

(** *** Attributes *)
Definition attr_bytes (a : SwordFsAttr) : bytes :=
  le_bytes 8 (dev a) ++ le_bytes 8 (attr_ino a) ++ le_bytes 4 (mode a) ++ le_bytes 8 (nlink a) ++
  le_bytes 8 (uid a) ++ le_bytes 8 (gid a) ++ le_bytes 8 (rdev a) ++ le_bytes 8 (size a) ++
  le_bytes 8 (blksize a) ++ le_bytes 8 (blocks a) ++ le_bytes 8 (atime a) ++ le_bytes 8 (atime_nsec a) ++
  le_bytes 8 (mtime a) ++ le_bytes 8 (mtime_nsec a) ++ le_bytes 8 (ctime a) ++ le_bytes 8 (ctime_nsec a) ++
  le_bytes 8 (btime a) ++ le_bytes 8 (btime_nsec a) ++ le_bytes 4 (inode_flags a).

Definition nsec_ok (v : Z) : Prop := 0 ≤ v < 1000000000.

(** The attributes a record can hold. *)
Record attr_ok (a : SwordFsAttr) : Prop := {
  attr_u64 : Forall (in_range 64) [dev a; attr_ino a; nlink a; uid a; gid a; rdev a; size a; blksize a; blocks a];
  attr_mode : in_range 32 (mode a);
  attr_times : Forall (in_range_signed 64) [atime a; mtime a; ctime a; btime a];
  attr_nsec : Forall nsec_ok [atime_nsec a; mtime_nsec a; ctime_nsec a; btime_nsec a];
  attr_flags : in_range 32 (inode_flags a) ∧ HasOnlySupportedInodeFlags (inode_flags a) = true;
}.

Lemma nsec_bad_false v : nsec_bad v = false ↔ nsec_ok v.
Proof. unfold nsec_bad, nsec_ok. rewrite orb_false_iff, Z.ltb_ge, Z.geb_leb, Z.leb_gt. lia. Qed.

Lemma reads_finish {A} (dflt : A) (m : decM A) lay wf :
  reads m lay wf → reads (try_read (finish_with dflt m)) lay wf.
Proof.
  intros [Ha He Hf]. unfold try_read, finish_with. split.
  - intros a d rest Hw Hr. destruct (Ha a d rest Hw Hr) as (d' & -> & ?). by exists d'.
  - intros d a d'. destruct (m d) as [[x|] d1] eqn:E; [|done]. intros [= <- <-]. by apply He.
  - intros d d'. destruct (m d) as [[x|] d1] eqn:E; [done|]. intros [= <-]. by apply Hf.
Qed.

Ltac reads_field π l := eapply (reads_bind π); [apply l|intros ?|].
Ltac reads_sides :=
  intros ? b; cbn beta; intros; destruct_and?; match goal with E : b = _ |- _ => by rewrite E end.

Lemma nsec_signed v : nsec_ok v → in_range_signed 64 v.
Proof. unfold nsec_ok, in_range_signed. lia. Qed.

Lemma reads_Attr : reads (try_read dec_Attr) attr_bytes attr_ok.
Proof.
  apply reads_finish. eapply reads_ext.
  - reads_field dev reads_U64. reads_field attr_ino reads_U64. reads_field mode reads_U32.
    reads_field nlink reads_U64. reads_field uid reads_U64. reads_field gid reads_U64.
    reads_field rdev reads_U64. reads_field size reads_U64. reads_field blksize reads_U64.
    reads_field blocks reads_U64. reads_field atime reads_I64. reads_field atime_nsec reads_I64.
    reads_field mtime reads_I64. reads_field mtime_nsec reads_I64. reads_field ctime reads_I64.
    reads_field ctime_nsec reads_I64. reads_field btime reads_I64. reads_field btime_nsec reads_I64.
    reads_field inode_flags reads_U32.
    eapply (reads_bind (λ _, tt)); [apply reads_reject|intros ?|by intros [] ?].
    eapply (reads_bind (λ _, tt)); [apply reads_reject|intros ?|by intros [] ?].
    apply reads_ret. all: reads_sides.
  - intros a. cbn beta. rewrite !orb_false_iff, !nsec_bad_false, negb_false_iff. split.
    + intros. destruct_and!. constructor; rewrite ?Forall_cons; [|done| | |done]; split_and!; first [done|apply Forall_nil_2].
    + intros [Hu Hm Ht Hn [Hfl Hs]]. rewrite !Forall_cons in *. destruct_and!.
      split_and!; try done; try (by apply nsec_signed). by destruct a.
  - intros a _. cbn beta. by rewrite !app_nil_r.
Qed.

(** *** Headers *)
Definition header_bytes (t : RecordType) : bytes :=
  string_bytes kMagic ++ le_bytes 4 kSchemaVersion ++ le_bytes 4 (RecordType_value t).

Lemma RecordType_range t : in_range 32 (RecordType_value t).
Proof. by destruct t. Qed.

Lemma reads_Header t : reads (try_read (dec_Header t)) (λ _, header_bytes t) (λ _, True).
Proof.
  apply reads_finish. eapply reads_ext.
  - reads_field (λ _ : unit, kMagic) reads_String.
    eapply (reads_bind (λ _, tt)); [apply reads_reject|intros ?|by intros [] ?].
    reads_field (λ _ : unit, kSchemaVersion) reads_U32.
    eapply (reads_bind (λ _, tt)); [apply reads_reject|intros ?|by intros [] ?].
    reads_field (λ _ : unit, RecordType_value t) reads_U32. apply reads_reject.
    all: intros x ?; cbn beta; intros; destruct_and?; inv_result; zify_bools; try done.
    match goal with E : bool_decide _ = false |- _ => apply bool_decide_eq_false in E end.
    by destruct (decide (x = kMagic)).
  - intros []. cbn beta. split; [done|]. intros _. pose proof (RecordType_range t).
    rewrite !Z.eqb_refl, bool_decide_eq_false_2 by auto. by split_and!.
  - intros [] _. cbn beta. by rewrite !app_nil_r.
Qed.

(** ** Decoder calls whose result is ignored *)

(** When the decoder has not failed at the end, every read before it succeeded. *)
Lemma dec_inv {A} (p : dec A) lay wf d ok v d' :
  reads (try_read p) lay wf → p d = (ok, v, d') → failed d' = false →
  ok = true ∧ failed d = false ∧ wf v ∧ rem d = lay v ++ rem d'.
Proof.
  intros [Ha He Hf] E Hn. unfold try_read in *. destruct ok.
  - destruct (He d v d') as (? & ? & ?); [by rewrite E|]. split_and!; congruence.
  - destruct (Hf d d') as [? _]; [by rewrite E|]. congruence.
Qed.

Lemma dec_run {A} (p : dec A) lay wf d v rest :
  reads (try_read p) lay wf → wf v → rem d = lay v ++ rest → failed d = false →
  ∃ d', p d = (true, v, d') ∧ rem d' = rest ∧ failed d' = false.
Proof.
  intros [Ha He Hf] Hw Hr Hn. unfold try_read in *.
  destruct (Ha v d rest Hw Hr) as (d' & E & Hr' & Hf'). exists d'.
  destruct (p d) as [[ok w] d1]. destruct ok; [|done]. injection E as -> ->. by rewrite Hf', Hn.
Qed.

(** A successful read shortens the input, any read does not lengthen it. *)
Lemma dec_shrinks {A} (p : dec A) lay wf d ok v d' :
  reads (try_read p) lay wf → p d = (ok, v, d') →
  zlen (rem d') ≤ zlen (rem d) - (if ok then zlen (lay v) else 0).
Proof.
  intros [Ha He Hf] E. unfold try_read in *. destruct ok.
  - destruct (He d v d') as (? & -> & ?); [by rewrite E|]. rewrite zlen_app. lia.
  - destruct (Hf d d') as [_ ?]; [by rewrite E|]. lia.
Qed.

Lemma Done_iff d : Done d = true ↔ failed d = false ∧ rem d = [].
Proof.
  unfold Done, rem. rewrite andb_true_iff, negb_true_iff, isAtEnd_spec, Z.eqb_eq.
  unfold zlen. destruct (remaining (cursor d)); cbn; intuition (done || lia).
Qed.

(** ** Encoders append the layouts *)
Lemma enc_U32_spec v e : appendTo (enc_U32 v e) = appendTo e ++ le_bytes 4 v.
Proof. apply appendTo_writeLE. Qed.
Lemma enc_U64_spec v e : appendTo (enc_U64 v e) = appendTo e ++ le_bytes 8 v.
Proof. apply appendTo_writeLE. Qed.
Lemma enc_I64_spec v e : appendTo (enc_I64 v e) = appendTo e ++ le_bytes 8 v.
Proof. apply appendTo_writeLE. Qed.
Lemma enc_String_spec v e : appendTo (enc_String v e) = appendTo e ++ string_bytes v.
Proof. unfold enc_String. by rewrite appendTo_push, enc_U64_spec, <- app_assoc. Qed.
Lemma enc_Attr_spec a e : appendTo (enc_Attr a e) = appendTo e ++ attr_bytes a.
Proof.
  unfold enc_Attr, attr_bytes. cbn zeta.
  by rewrite ?enc_U32_spec; repeat rewrite ?enc_U64_spec, ?enc_I64_spec, ?enc_U32_spec; rewrite <- !app_assoc.
Qed.
Lemma enc_Header_spec t e : appendTo (enc_Header t e) = appendTo e ++ header_bytes t.
Proof.
  unfold enc_Header, header_bytes. cbn zeta. by rewrite !enc_U32_spec, enc_String_spec, <- !app_assoc.
Qed.

Lemma Done_true d : rem d = [] → failed d = false → Done d = true.
Proof. intros. by apply Done_iff. Qed.

Lemma rem_new data : rem (new_decoder data) = data ∧ failed (new_decoder data) = false.
Proof. split; [apply remaining_wrapBuffer|done]. Qed.

End Codec.

(** ** An implementation of the interface: cursors and appenders as byte lists *)
#[export] Instance ListIO : FollyIO := {|
  Cursor := bytes;
  wrapBuffer s := s;
  tryReadLE n c := if Z.of_nat n <=? zlen c then (true, le_value (take n c), drop n c) else (false, 0, []);
  canAdvance n c := n <=? zlen c;
  readFixedString n c := (take (Z.to_nat n) c, drop (Z.to_nat n) c);
  isAtEnd c := zlen c =? 0;
  Appender := bytes;
  create := [];
  writeLE n z a := a ++ le_bytes n z;
  push s a := a ++ s;
  appendTo a := a;
|}.

#[export] Instance ListIOLaws : FollyIOLaws (H := ListIO).
Proof.
  refine {| remaining := λ c : Cursor, c |}; try done.
  intros n c. cbn. destruct (Z.leb_spec (Z.of_nat n) (zlen c)); [done|]. split; [done|]. apply zlen_nonneg.
Defined.

Create HintDb codec.
#[export] Hint Resolve reads_U32 reads_U64 reads_I64 reads_String reads_Attr reads_Header : codec.
(** What a chain of encoder calls has appended. *)
Ltac append_layouts :=
  repeat first [rewrite enc_U32_spec|rewrite enc_U64_spec|rewrite enc_I64_spec|rewrite enc_String_spec
               |rewrite enc_Attr_spec|rewrite enc_Header_spec]; rewrite ?appendTo_create.

(** ** Running a parser on a layout *)
(** Name every intermediate decoder of a parse. *)
Ltac split_reads :=
  repeat match goal with
  | H : match ?x with (_, _) => _ end = Ok _ |- _ => destruct x as [[? ?] ?] eqn:?
  end.

(** From the last decoder backwards: every read succeeded and consumed its layout. *)
Ltac invert_reads :=
  repeat match goal with
  | E : ?p ?d = (?ok, ?v, ?d'), F : failed ?d' = false |- _ =>
      eapply dec_inv in E as (_ & ? & ? & ?); [|solve [eauto with codec]|exact F]
  end.

(** Run the next read on the layout in front of it. *)
Ltac run_read :=
  match goal with
  | R : rem ?d = _, F : failed ?d = false |- context [match dec_Header ?t ?d with (_, _) => _ end] =>
      let d' := fresh "d" in let R' := fresh "R" in let F' := fresh "F" in
      destruct (dec_run (dec_Header t) _ _ d tt _ (reads_Header t) I R F) as (d' & -> & R' & F'); clear R F
  | R : rem ?d = _, F : failed ?d = false |- context [match ?p ?d with (_, _) => _ end] =>
      let d' := fresh "d" in let R' := fresh "R" in let F' := fresh "F" in
      edestruct (dec_run p) as (d' & -> & R' & F');
        [solve [eauto with codec]| |exact R|exact F|]; [first [done|exact I]|]; clear R F
  end.

(** What an encoder appends. *)
Ltac solve_layout :=
  cbn [mbind result_bind fail_if orb]; unfold Finish; append_layouts;
  rewrite ?app_nil_l, <- ?app_assoc; reflexivity.

(** Start from the layout [f] of the record. *)
Ltac start_reads f :=
  match goal with
  | Hr : rem (new_decoder ?l) = ?l, Hf : failed (new_decoder ?l) = false |- _ =>
      revert Hr Hf; generalize (new_decoder l);
      let D := fresh "d" in let R := fresh "R" in let F := fresh "F" in intros D R F;
      rewrite <- (app_nil_r l) in R; unfold f in R; rewrite <- ?app_assoc in R
  end.
Ltac end_reads :=
  match goal with R : rem ?d = [], F : failed ?d = false |- _ => rewrite ?(Done_true d R F), ?F end.

(** The input is the concatenation of the layouts that were read. *)
Ltac layout_eq Hr :=
  etransitivity; [|exact Hr];
  repeat match goal with R : rem ?d = _ |- context [rem ?d] => rewrite R; clear R end;
  rewrite ?app_nil_r; reflexivity.
