(* ===== verification/Records.v ===== *)
(** * Persistent metadata records

    The records stored in the backend: inodes and directory entries
    (src/src/metadata/types/Inode.cpp, Entry.cpp), maintenance work (Reclaim.cpp), the
    volume format record (Volume.cpp), Slice index records (RedisSliceChunkMetadata.cpp)
    and COW heads (RedisCOWChunkMetadata.cpp), all written with the codec of [Codec].

    A [ParseFrom] that fails leaves its object half-written; every caller drops it, so
    the model returns the parsed object or the status. *)

From S2P Require Import Prelude StdMap ChunkGeometry SliceHistory InodeTypes Codec.

(** ** Data *)
Record SwordFsEntry := mkEntry { entry_name : bytes; entry_type : Z; entry_ino : Z }.
Record ReclaimWork := mkReclaimWork { rw_ino : Z; rw_payload : bytes }.
Record PendingDelete := mkPendingDelete { pd_id : bytes; pd_payload : bytes }.

Inductive ChunkType := kCow | kChunkSlice | kRedisCache.
#[export] Instance ChunkType_eq_dec : EqDecision ChunkType.
Proof. solve_decision. Defined.
Definition ChunkType_value (t : ChunkType) : Z :=
  match t with kCow => 1 | kChunkSlice => 2 | kRedisCache => 3 end.
(** [IsKnownChunkType(static_cast<ChunkType>(v))] with the cast. *)
Definition ChunkType_of (v : Z) : option ChunkType :=
  if v =? 1 then Some kCow else if v =? 2 then Some kChunkSlice else if v =? 3 then Some kRedisCache else None.

Definition ChunkTypeName (t : ChunkType) : bytes :=
  match t with kCow => lit "cow" | kChunkSlice => lit "chunk_slice" | kRedisCache => lit "redis_cache" end.
Definition ParseChunkType (name : bytes) : result ChunkType :=
  match List.find (λ t, bool_decide (name = ChunkTypeName t)) [kCow; kChunkSlice; kRedisCache] with
  | Some t => Ok t
  | None => Err InvalidArgument
  end.

Record SwordFsVolume := mkVolume {
  vol_name : bytes; storage : bytes; bucket : bytes; region : bytes;
  chunk_size : Z; chunk_type : ChunkType; enable_posix_acl : bool;
}.

Record COWChunkHead := mkCOWHead { head_revision : Z; head_size : Z }.
#[export] Instance COWChunkHead_eq_dec : EqDecision COWChunkHead.
Proof. solve_decision. Defined.
Definition kMaxCOWChunkRevisionValue : Z := INT64_MAX.
Definition IsValidHead (h : COWChunkHead) : bool :=
  negb (head_revision h =? 0) && (head_revision h <=? kMaxCOWChunkRevisionValue).
Definition ValidateHeadTransition (expected : option COWChunkHead) (replacement : COWChunkHead) : Status :=
  if negb (IsValidHead replacement) || match expected with Some e => negb (IsValidHead e) | None => false end
  then InvalidArgument else
  match expected with
  | None => OK
  | Some e =>
      if head_revision replacement <? head_revision e then InvalidArgument else
      if (head_revision replacement =? head_revision e) && (head_size replacement >? head_size e)
      then InvalidArgument else OK
  end.

Section Records.
Context `{FollyIO}.

(** ** Directory entries *)
Definition Entry_SerializeTo (r : SwordFsEntry) : result bytes :=
  _ ← fail_if ((zlen (entry_name r) =? 0) || (entry_ino r =? 0)) InvalidArgument;
  let e := enc_Header kEntry create in
  let e := enc_String (entry_name r) e in
  let e := enc_U32 (entry_type r) e in
  let e := enc_U64 (entry_ino r) e in
  Ok (Finish e).

Definition Entry_ParseFrom (data : bytes) : result SwordFsEntry :=
  let '(_, _, d) := dec_Header kEntry (new_decoder data) in
  let '(_, name, d) := dec_String d in
  let '(_, ty, d) := dec_U32 d in
  let '(_, ino, d) := dec_U64 d in
  _ ← fail_if (failed d || (zlen name =? 0) || (ino =? 0) || negb (Done d)) Malformed;
  Ok (mkEntry name ty ino).

(** ** Maintenance work *)
Definition ReclaimWork_SerializeTo (r : ReclaimWork) : result bytes :=
  _ ← fail_if ((rw_ino r =? 0) || (zlen (rw_payload r) =? 0)) InvalidArgument;
  let e := enc_Header kReclaim create in
  let e := enc_U64 (rw_ino r) e in
  let e := enc_String (rw_payload r) e in
  Ok (Finish e).

Definition ReclaimWork_ParseFrom (data : bytes) : result ReclaimWork :=
  let '(_, _, d) := dec_Header kReclaim (new_decoder data) in
  let '(_, ino, d) := dec_U64 d in
  let '(_, payload, d) := dec_String d in
  _ ← fail_if (failed d || negb (Done d) || (ino =? 0) || (zlen payload =? 0)) Malformed;
  Ok (mkReclaimWork ino payload).

Definition PendingDelete_SerializeTo (r : PendingDelete) : result bytes :=
  _ ← fail_if ((zlen (pd_id r) =? 0) || (zlen (pd_payload r) =? 0)) InvalidArgument;
  let e := enc_Header kPendingDelete create in
  let e := enc_String (pd_id r) e in
  let e := enc_String (pd_payload r) e in
  Ok (Finish e).

Definition PendingDelete_ParseFrom (data : bytes) : result PendingDelete :=
  let '(_, _, d) := dec_Header kPendingDelete (new_decoder data) in
  let '(_, id, d) := dec_String d in
  let '(_, payload, d) := dec_String d in
  _ ← fail_if (failed d || negb (Done d) || (zlen id =? 0) || (zlen payload =? 0)) Malformed;
  Ok (mkPendingDelete id payload).

(** ** The volume record *)
Definition Volume_SerializeTo (v : SwordFsVolume) : bytes :=
  let e := enc_Header kVolume create in
  let e := enc_String (vol_name v) e in
  let e := enc_String (storage v) e in
  let e := enc_String (bucket v) e in
  let e := enc_String (region v) e in
  let e := enc_U64 (chunk_size v) e in
  let e := enc_U32 (ChunkType_value (chunk_type v)) e in
  let e := enc_U32 (if enable_posix_acl v then 1 else 0) e in
  Finish e.

Definition Volume_ParseFrom (data : bytes) : result SwordFsVolume :=
  let '(_, _, d) := dec_Header kVolume (new_decoder data) in
  let '(_, name, d) := dec_String d in
  let '(_, storage, d) := dec_String d in
  let '(_, bucket, d) := dec_String d in
  let '(_, region, d) := dec_String d in
  let '(_, chunk_size, d) := dec_U64 d in
  let '(_, ct, d) := dec_U32 d in
  let '(_, acl, d) := dec_U32 d in
  _ ← fail_if (failed d || (zlen name =? 0) || (chunk_size =? 0)) Malformed;
  match ChunkType_of ct with
  | None => Err Malformed
  | Some chunk_type =>
      _ ← fail_if ((acl >? 1) || negb (Done d)) Malformed;
      let has_data_engine := negb (zlen storage =? 0) in
      let has_data_location := negb (zlen bucket =? 0) in
      _ ← fail_if (negb (Bool.eqb has_data_engine has_data_location)) Malformed;
      Ok (mkVolume name storage bucket region chunk_size chunk_type (negb (acl =? 0)))
  end.

(** ** Inodes *)
Definition Inode_SerializeTo (i : SwordFsInode) : result bytes :=
  _ ← fail_if (ino i =? 0) InvalidArgument;
  let e := enc_Header kInode create in
  let e := enc_U64 (ino i) e in
  let e := enc_Attr (attr i) e in
  let e := enc_U64 (parent_ino i) e in
  let e := enc_String (symlink_target i) e in
  let e := enc_U64 (zlen (xattrs i)) e in
  let e := foldl (λ e x, enc_String x.2 (enc_String x.1 e)) e (xattrs i) in
  Ok (Finish e).

(** The xattr loop; [fuel] bounds the iterations by the input, as each one that goes on
    consumes at least 16 bytes (running out, [Internal], is shown impossible). *)
Fixpoint parse_xattrs (fuel : nat) (i count : Z) (xs : list (bytes * bytes)) (d : BufDecoder)
    : result (list (bytes * bytes) * BufDecoder) :=
  if i <? count then
    match fuel with
    | O => Err Internal
    | S fuel =>
        let '(ok, name, d) := dec_String d in
        if negb ok then Err Malformed else
        let '(ok, value, d) := dec_String d in
        if negb ok then Err Malformed else
        if zlen name =? 0 then Err Malformed else
        match map_find name xs with
        | Some _ => Err Malformed
        | None => parse_xattrs fuel (i + 1) count (map_emplace name value xs) d
        end
    end
  else Ok (xs, d).

Definition Inode_ParseFrom (data : bytes) : result SwordFsInode :=
  let '(_, _, d) := dec_Header kInode (new_decoder data) in
  let '(_, ino, d) := dec_U64 d in
  let '(_, attr, d) := dec_Attr d in
  let '(_, parent_ino, d) := dec_U64 d in
  let '(_, symlink_target, d) := dec_String d in
  let '(_, xattr_count, d) := dec_U64 d in
  '(xattrs, d) ← parse_xattrs (S (length data)) 0 xattr_count [] d;
  _ ← fail_if (failed d || (ino =? 0)) Malformed;
  _ ← fail_if (negb (Done d)) Malformed;
  _ ← fail_if (negb (attr_ino attr =? ino)) Malformed;
  Ok (mkInode ino attr parent_ino symlink_target xattrs).

(** ** Slice index records and COW heads *)
Definition kEncodedSliceRecordSize : Z := 24.

Definition EncodeRecord (r : SliceRecord) : bytes :=
  let e := enc_U32 (sr_pos r) create in
  let e := enc_U64 (sr_id r) e in
  let e := enc_U32 (sr_size r) e in
  let e := enc_U32 (sr_off r) e in
  let e := enc_U32 (sr_len r) e in
  Finish e.

Definition read_slice_record (d : BufDecoder) : option SliceRecord * BufDecoder :=
  let '(ok1, pos, d) := dec_U32 d in if negb ok1 then (None, d) else
  let '(ok2, id, d) := dec_U64 d in if negb ok2 then (None, d) else
  let '(ok3, size, d) := dec_U32 d in if negb ok3 then (None, d) else
  let '(ok4, off, d) := dec_U32 d in if negb ok4 then (None, d) else
  let '(ok5, len, d) := dec_U32 d in if negb ok5 then (None, d) else
  (Some (mkSliceRecord pos id size off len), d).

Definition DecodeRecord (encoded : bytes) (chunk_size : Z) : result SliceRecord :=
  _ ← fail_if (negb (zlen encoded =? kEncodedSliceRecordSize)) Malformed;
  match read_slice_record (new_decoder encoded) with
  | (None, _) => Err Malformed
  | (Some r, d) =>
      _ ← fail_if (negb (Done d)) Malformed;
      _ ← check (ValidateRecord r chunk_size);
      Ok r
  end.

Definition EncodeHead (h : COWChunkHead) : bytes :=
  let e := enc_U64 (head_revision h) create in
  let e := enc_U64 (head_size h) e in
  Finish e.

Definition DecodeHead (encoded : bytes) : result COWChunkHead :=
  let '(_, revision, d) := dec_U64 (new_decoder encoded) in
  let '(_, size, d) := dec_U64 d in
  let head := mkCOWHead revision size in
  _ ← fail_if (negb (Done d) || negb (IsValidHead head)) Malformed;
  Ok head.

(** ** Proof automation: running and inverting sequences of reads *)
Context `{!FollyIOLaws}.

Lemma zlen_zero {A} (l : list A) : (zlen l =? 0) = bool_decide (l = []).
Proof. unfold zlen. by destruct l. Qed.

Definition entry_bytes (r : SwordFsEntry) : bytes :=
  header_bytes kEntry ++ string_bytes (entry_name r) ++ le_bytes 4 (entry_type r) ++ le_bytes 8 (entry_ino r).
Definition entry_ok (r : SwordFsEntry) : Prop :=
  entry_name r ≠ [] ∧ string_ok (entry_name r) ∧ in_range 32 (entry_type r) ∧ in_range 64 (entry_ino r) ∧
  entry_ino r ≠ 0.

Lemma Entry_SerializeTo_spec r :
  entry_name r ≠ [] → entry_ino r ≠ 0 → Entry_SerializeTo r = Ok (entry_bytes r).
Proof.
  intros Hn Hi. unfold Entry_SerializeTo. rewrite zlen_zero, bool_decide_eq_false_2 by done.
  destruct (Z.eqb_spec (entry_ino r) 0); [done|]. solve_layout.
Qed.

Lemma Entry_ParseFrom_iff data r :
  Entry_ParseFrom data = Ok r ↔ entry_ok r ∧ Entry_SerializeTo r = Ok data.
Proof.
  unfold Entry_ParseFrom. pose proof (rem_new data) as [Hr Hf]. split.
  - intros E. split_reads. inv_result. subst r.
    match goal with H : Done ?d = true |- _ => apply Done_iff in H as [? Hend] end.
    invert_reads. rewrite zlen_zero in *. zify_bools.
    match goal with H : bool_decide _ = false |- _ => apply bool_decide_eq_false in H end.
    split; [done|]. rewrite Entry_SerializeTo_spec by done. f_equal. layout_eq Hr.
  - intros [(Hn & Hs & Ht & Hi & Hz) E].
    rewrite Entry_SerializeTo_spec in E by done. injection E as <-. start_reads entry_bytes. repeat run_read. end_reads.
    rewrite zlen_zero, bool_decide_eq_false_2 by done.
    destruct (Z.eqb_spec (entry_ino r) 0); [done|]. by destruct r.
Qed.

(** Directory entry records have one encoding.  A byte string parses to an entry
    exactly when it is what serialising that entry (a well-formed one) produces. *)
Theorem Entry_roundtrip data r :
  Entry_ParseFrom data = Ok r ↔ entry_ok r ∧ Entry_SerializeTo r = Ok data.
Proof. apply Entry_ParseFrom_iff. Qed.

Definition reclaim_bytes (r : ReclaimWork) : bytes :=
  header_bytes kReclaim ++ le_bytes 8 (rw_ino r) ++ string_bytes (rw_payload r).
Definition reclaim_ok (r : ReclaimWork) : Prop :=
  in_range 64 (rw_ino r) ∧ rw_ino r ≠ 0 ∧ rw_payload r ≠ [] ∧ string_ok (rw_payload r).

Lemma ReclaimWork_SerializeTo_spec r :
  rw_ino r ≠ 0 → rw_payload r ≠ [] → ReclaimWork_SerializeTo r = Ok (reclaim_bytes r).
Proof.
  intros Hi Hp. unfold ReclaimWork_SerializeTo. rewrite zlen_zero, bool_decide_eq_false_2 by done.
  destruct (Z.eqb_spec (rw_ino r) 0); [done|]. solve_layout.
Qed.

Lemma ReclaimWork_roundtrip data r :
  ReclaimWork_ParseFrom data = Ok r ↔ reclaim_ok r ∧ ReclaimWork_SerializeTo r = Ok data.
Proof.
  unfold ReclaimWork_ParseFrom. pose proof (rem_new data) as [Hr Hf]. split.
  - intros E. split_reads. inv_result. subst r.
    match goal with H : Done ?d = true |- _ => apply Done_iff in H as [? Hend] end.
    invert_reads. rewrite zlen_zero in *. zify_bools.
    match goal with H : bool_decide _ = false |- _ => apply bool_decide_eq_false in H end.
    split; [done|]. rewrite ReclaimWork_SerializeTo_spec by done. f_equal. layout_eq Hr.
  - intros [(Hi & Hz & Hn & Hs) E].
    rewrite ReclaimWork_SerializeTo_spec in E by done. injection E as <-.
    start_reads reclaim_bytes. repeat run_read. end_reads.
    rewrite zlen_zero, bool_decide_eq_false_2 by done.
    destruct (Z.eqb_spec (rw_ino r) 0); [done|]. by destruct r.
Qed.

Definition pending_bytes (r : PendingDelete) : bytes :=
  header_bytes kPendingDelete ++ string_bytes (pd_id r) ++ string_bytes (pd_payload r).
Definition pending_ok (r : PendingDelete) : Prop :=
  pd_id r ≠ [] ∧ string_ok (pd_id r) ∧ pd_payload r ≠ [] ∧ string_ok (pd_payload r).

Lemma PendingDelete_SerializeTo_spec r :
  pd_id r ≠ [] → pd_payload r ≠ [] → PendingDelete_SerializeTo r = Ok (pending_bytes r).
Proof.
  intros Hi Hp. unfold PendingDelete_SerializeTo. rewrite !zlen_zero, !bool_decide_eq_false_2 by done. solve_layout.
Qed.

Lemma PendingDelete_roundtrip data r :
  PendingDelete_ParseFrom data = Ok r ↔ pending_ok r ∧ PendingDelete_SerializeTo r = Ok data.
Proof.
  unfold PendingDelete_ParseFrom. pose proof (rem_new data) as [Hr Hf]. split.
  - intros E. split_reads. inv_result. subst r.
    match goal with H : Done ?d = true |- _ => apply Done_iff in H as [? Hend] end.
    invert_reads. rewrite !zlen_zero in *.
    repeat match goal with H : bool_decide _ = false |- _ => apply bool_decide_eq_false in H end.
    split; [done|]. rewrite PendingDelete_SerializeTo_spec by done. f_equal. layout_eq Hr.
  - intros [(Hi & Hz & Hn & Hs) E].
    rewrite PendingDelete_SerializeTo_spec in E by done. injection E as <-.
    start_reads pending_bytes. repeat run_read. end_reads.
    rewrite !zlen_zero, !bool_decide_eq_false_2 by done. by destruct r.
Qed.

(** *** The volume record *)
Definition acl_flag (b : bool) : Z := if b then 1 else 0.
Definition volume_bytes (v : SwordFsVolume) : bytes :=
  header_bytes kVolume ++ string_bytes (vol_name v) ++ string_bytes (storage v) ++ string_bytes (bucket v) ++
  string_bytes (region v) ++ le_bytes 8 (chunk_size v) ++ le_bytes 4 (ChunkType_value (chunk_type v)) ++
  le_bytes 4 (acl_flag (enable_posix_acl v)).
Definition volume_ok (v : SwordFsVolume) : Prop :=
  vol_name v ≠ [] ∧ Forall string_ok [vol_name v; storage v; bucket v; region v] ∧
  in_range 64 (chunk_size v) ∧ chunk_size v ≠ 0 ∧ (storage v = [] ↔ bucket v = []).

Lemma Volume_SerializeTo_spec v : Volume_SerializeTo v = volume_bytes v.
Proof. unfold Volume_SerializeTo. solve_layout. Qed.

Lemma ChunkType_of_value t : ChunkType_of (ChunkType_value t) = Some t ∧ in_range 32 (ChunkType_value t).
Proof. by destruct t. Qed.
Lemma ChunkType_of_Some v t : ChunkType_of v = Some t → v = ChunkType_value t.
Proof. unfold ChunkType_of. repeat case_match; intros; simplify_eq; zify_bools; done. Qed.
Lemma acl_flag_range b : in_range 32 (acl_flag b).
Proof. by destruct b. Qed.

(** the volume format record round-trips, and parsing accepts exactly the encodings of
    coherent volumes: named, with a non-zero chunk size, a known chunk type, and a data
    engine exactly when there is a data location. *)
Theorem Volume_roundtrip data v :
  Volume_ParseFrom data = Ok v ↔ volume_ok v ∧ Volume_SerializeTo v = data.
Proof.
  rewrite Volume_SerializeTo_spec.
  unfold Volume_ParseFrom. pose proof (rem_new data) as [Hr Hf]. split.
  - intros E. split_reads. inv_result.
    destruct (ChunkType_of _) as [ct|] eqn:Hct; [|done]. apply ChunkType_of_Some in Hct as ->. inv_result. subst v.
    match goal with H : Done ?d = true |- _ => apply Done_iff in H as [? Hend] end.
    invert_reads. rewrite !zlen_zero in *. rewrite Z.gtb_ltb in *. zify_bools.
    match goal with H : in_range 32 ?x, H' : ?x ≤ 1 |- _ =>
      assert (x = acl_flag (negb (x =? 0))) as Hflag
        by (unfold in_range in H; destruct (Z.eqb_spec x 0); cbn; lia) end.
    match goal with H : bool_decide _ = false |- _ => apply bool_decide_eq_false in H end.
    split.
    + split_and!; try done; cbn; rewrite ?Forall_cons; [by split_and!|].
      match goal with H : Bool.eqb _ _ = true |- _ => apply eqb_prop, (f_equal negb) in H;
        rewrite !negb_involutive in H end.
      repeat case_bool_decide; done.
    + unfold volume_bytes. cbn [enable_posix_acl]. rewrite <- Hflag. layout_eq Hr.
  - intros [(Hn & Hs & Hc & Hz & Hsb) <-]. rewrite !Forall_cons in Hs. destruct Hs as (? & ? & ? & ? & _).
    destruct (ChunkType_of_value (chunk_type v)) as [Hof ?]. pose proof (acl_flag_range (enable_posix_acl v)).
    start_reads volume_bytes. repeat run_read. end_reads.
    rewrite !zlen_zero, (bool_decide_eq_false_2 (vol_name v = [])), Hof by done.
    destruct (Z.eqb_spec (chunk_size v) 0); [done|].
    rewrite (bool_decide_ext _ _ Hsb), Bool.eqb_reflx. by destruct v as [? ? ? ? ? ? []].
Qed.

(** *** Slice records and COW heads *)
Definition slice_record_bytes (r : SliceRecord) : bytes :=
  le_bytes 4 (sr_pos r) ++ le_bytes 8 (sr_id r) ++ le_bytes 4 (sr_size r) ++ le_bytes 4 (sr_off r) ++
  le_bytes 4 (sr_len r).

Lemma EncodeRecord_spec r : EncodeRecord r = slice_record_bytes r.
Proof. unfold EncodeRecord. solve_layout. Qed.

Lemma DecodeRecord_iff data cs r :
  DecodeRecord data cs = Ok r ↔ record_fields r ∧ ValidateRecord r cs = OK ∧ EncodeRecord r = data.
Proof.
  rewrite EncodeRecord_spec. unfold DecodeRecord, read_slice_record, record_fields.
  pose proof (rem_new data) as [Hr Hf]. split.
  - intros E. inv_result.
    repeat (match type of E with
            | context [dec_U32 ?d] => destruct (dec_U32 d) as [[[|] ?] ?] eqn:?
            | context [dec_U64 ?d] => destruct (dec_U64 d) as [[[|] ?] ?] eqn:?
            end; cbn [negb] in E; [|done]).
    cbv beta iota in E. inv_result. subst r.
    match goal with H : Done ?d = true |- _ => apply Done_iff in H as [? Hend] end. invert_reads.
    split; [done|]. split; [done|]. layout_eq Hr.
  - intros (? & Hv & <-). destruct_and!.
    destruct (Z.eqb_spec (zlen (slice_record_bytes r)) kEncodedSliceRecordSize) as [_|Hl]; [|by destruct Hl].
    cbn [negb fail_if mbind result_bind].
    start_reads slice_record_bytes. repeat (run_read; cbn [negb]). end_reads. destruct r. cbn in Hv |- *. by rewrite Hv.
Qed.

(** Slice index records: decoding inverts encoding on valid records of the chunk, and
    whatever decodes is the 24-byte encoding of a record that passes [ValidateRecord]. *)
Theorem SliceRecord_roundtrip data cs r :
  DecodeRecord data cs = Ok r ↔ record_fields r ∧ ValidateRecord r cs = OK ∧ EncodeRecord r = data.
Proof. apply DecodeRecord_iff. Qed.

Definition head_bytes (h : COWChunkHead) : bytes := le_bytes 8 (head_revision h) ++ le_bytes 8 (head_size h).

Lemma COWHead_roundtrip data h :
  DecodeHead data = Ok h ↔
  in_range 64 (head_revision h) ∧ in_range 64 (head_size h) ∧ IsValidHead h = true ∧ EncodeHead h = data.
Proof.
  assert (EncodeHead h = head_bytes h) as -> by (unfold EncodeHead; solve_layout).
  unfold DecodeHead. pose proof (rem_new data) as [Hr Hf]. split.
  - intros E. split_reads. inv_result. subst h.
    match goal with H : Done ?d = true |- _ => apply Done_iff in H as [? Hend] end. invert_reads.
    do 3 (split; [done|]). layout_eq Hr.
  - intros (Hrv & Hs & Hv & <-). start_reads head_bytes. repeat run_read. end_reads.
    destruct h. cbn [head_revision head_size]. by rewrite Hv.
Qed.

(** *** Inodes *)
Definition xattr_bytes (x : bytes * bytes) : bytes := string_bytes x.1 ++ string_bytes x.2.
Definition inode_bytes (i : SwordFsInode) : bytes :=
  header_bytes kInode ++ le_bytes 8 (ino i) ++ attr_bytes (attr i) ++ le_bytes 8 (parent_ino i) ++
  string_bytes (symlink_target i) ++ le_bytes 8 (zlen (xattrs i)) ++ concat (xattr_bytes <$> xattrs i).

Record inode_record_ok (i : SwordFsInode) : Prop := {
  ir_ino : in_range 64 (ino i) ∧ ino i ≠ 0;
  ir_attr : attr_ok (attr i) ∧ attr_ino (attr i) = ino i;
  ir_parent : in_range 64 (parent_ino i);
  ir_target : string_ok (symlink_target i);
  ir_count : in_range 64 (zlen (xattrs i));
  ir_sorted : map_sorted (xattrs i);
  ir_xattrs : Forall (λ x, x.1 ≠ [] ∧ string_ok x.1 ∧ string_ok x.2) (xattrs i);
}.

Lemma enc_xattrs_spec xs e :
  appendTo (foldl (λ e x, enc_String x.2 (enc_String x.1 e)) e xs) = appendTo e ++ concat (xattr_bytes <$> xs).
Proof.
  revert e. induction xs as [|x xs IH]; intros e; cbn [foldl fmap list_fmap concat]; [by rewrite app_nil_r|].
  rewrite IH, !enc_String_spec. unfold xattr_bytes. by rewrite <- !app_assoc.
Qed.

Lemma Inode_SerializeTo_spec i : ino i ≠ 0 → Inode_SerializeTo i = Ok (inode_bytes i).
Proof.
  intros Hi. unfold Inode_SerializeTo. destruct (Z.eqb_spec (ino i) 0); [done|].
  cbn [mbind result_bind fail_if]. unfold Finish. rewrite enc_xattrs_spec. solve_layout.
Qed.

Lemma zlen_string_bytes s : 8 ≤ zlen (string_bytes s).
Proof. unfold string_bytes. rewrite zlen_app, zlen_le_bytes. pose proof (zlen_nonneg s). lia. Qed.

(** The loop reads back the attributes after the ones already in the map. *)
Lemma parse_xattrs_run l acc d rest fuel :
  map_sorted (acc ++ l) → Forall (λ x, x.1 ≠ [] ∧ string_ok x.1 ∧ string_ok x.2) l →
  rem d = concat (xattr_bytes <$> l) ++ rest → failed d = false → (length l ≤ fuel)%nat →
  ∃ d', parse_xattrs fuel (zlen acc) (zlen (acc ++ l)) acc d = Ok (acc ++ l, d') ∧ rem d' = rest ∧ failed d' = false.
Proof.
  revert acc d fuel. induction l as [|[k v] l IH]; intros acc d fuel Hs Hf Hr Hn Hl.
  { exists d. rewrite app_nil_r. destruct fuel; cbn; by rewrite Z.ltb_irrefl. }
  destruct fuel as [|fuel]; [cbn in Hl; lia|]. inversion Hf as [|?? (Hk & Hsk & Hsv) Hf']; subst. cbn [fst snd] in *.
  cbn [parse_xattrs]. rewrite zlen_app, zlen_cons.
  pose proof (zlen_nonneg l). destruct (Z.ltb_spec (zlen acc) (zlen acc + (zlen l + 1))); [|lia].
  cbn [fmap list_fmap concat] in Hr. unfold xattr_bytes at 1 in Hr. cbn [fst snd] in Hr. rewrite <- !app_assoc in Hr.
  destruct (dec_run dec_String _ _ d k _ reads_String Hsk Hr Hn) as (d1 & -> & Hr1 & Hn1). cbn [negb].
  destruct (dec_run dec_String _ _ d1 v _ reads_String Hsv Hr1 Hn1) as (d2 & -> & Hr2 & Hn2). cbn [negb].
  rewrite zlen_zero, bool_decide_eq_false_2 by done.
  pose proof (map_sorted_app_cons _ _ _ _ Hs) as Hlt.
  rewrite map_find_None_Forall, map_emplace_last by done.
  destruct (IH (acc ++ [(k, v)]) d2 fuel) as (d' & E & ? & ?); try done; [by rewrite <- app_assoc|cbn in Hl; lia|].
  exists d'. rewrite <- app_assoc in E.
  replace (zlen acc + 1) with (zlen (acc ++ [(k, v)])) by (rewrite zlen_app; done).
  replace (zlen acc + (zlen l + 1)) with (zlen (acc ++ [(k, v)] ++ l))
    by (rewrite !zlen_app; change (zlen [(k, v)]) with 1; lia).
  rewrite E. done.
Qed.

(** What the loop accepts, and that it never runs out of fuel. *)
Lemma parse_xattrs_inv fuel i count acc d :
  map_sorted acc → Forall (λ x, x.1 ≠ [] ∧ string_ok x.1 ∧ string_ok x.2) acc →
  zlen acc = i → zlen (rem d) < Z.of_nat fuel →
  match parse_xattrs fuel i count acc d with
  | Ok (xs, d') => map_sorted xs ∧ Forall (λ x, x.1 ≠ [] ∧ string_ok x.1 ∧ string_ok x.2) xs ∧
                   (i ≤ count → zlen xs = count) ∧ failed d' = failed d
  | Err s => s = Malformed
  end.
Proof.
  revert i acc d. induction fuel as [|fuel IH]; intros i acc d Hs Hf Hz Hl; cbn [parse_xattrs].
  { pose proof (zlen_nonneg (rem d)). lia. }
  destruct (Z.ltb_spec i count); [|split_and!; try done; lia].
  destruct (dec_String d) as [[ok name] d1] eqn:E1.
  pose proof (dec_shrinks _ _ _ _ _ _ _ reads_String E1). destruct ok; cbn [negb]; [|done].
  destruct (dec_String d1) as [[ok value] d2] eqn:E2.
  pose proof (dec_shrinks _ _ _ _ _ _ _ reads_String E2). destruct ok; cbn [negb]; [|done].
  rewrite zlen_zero. case_bool_decide; [done|]. destruct (map_find name acc) eqn:Hfind; [done|].
  pose proof (reads_exact _ _ _ reads_String d name d1) as (Hsn & _ & F1); [unfold try_read; by rewrite E1|].
  pose proof (reads_exact _ _ _ reads_String d1 value d2) as (Hsv & _ & F2); [unfold try_read; by rewrite E2|].
  pose proof (zlen_string_bytes name). pose proof (zlen_string_bytes value).
  rewrite map_emplace_absent by done.
  specialize (IH (i + 1) (map_assign name value acc) d2).
  destruct (parse_xattrs _ _ _ _ _) as [[xs d']|s].
  - destruct IH as (? & ? & Hc & ?); [by apply map_assign_sorted|by apply map_assign_Forall| |lia|].
    + rewrite <- Hz. by apply map_assign_zlen.
    + split_and!; try done; [|congruence]. intros. apply Hc. lia.
  - apply IH; [by apply map_assign_sorted|by apply map_assign_Forall| |lia]. rewrite <- Hz. by apply map_assign_zlen.
Qed.

Lemma Inode_parse_serialize i :
  inode_record_ok i → ∃ data, Inode_SerializeTo i = Ok data ∧ Inode_ParseFrom data = Ok i.
Proof.
  intros [[Hi Hnz] [Ha Hai] Hp Ht Hc Hs Hx]. exists (inode_bytes i).
  split; [by apply Inode_SerializeTo_spec|]. unfold Inode_ParseFrom.
  set (fuel := S (length (inode_bytes i))).
  assert (length (xattrs i) ≤ fuel)%nat as Hfuel.
  { assert (zlen (xattrs i) ≤ zlen (concat (xattr_bytes <$> xattrs i))) as Hl.
    { clear. induction (xattrs i) as [|x l IH]; cbn [fmap list_fmap concat]; [done|].
      rewrite zlen_cons, zlen_app. unfold xattr_bytes at 1. rewrite zlen_app.
      pose proof (zlen_string_bytes x.1). pose proof (zlen_string_bytes x.2). lia. }
    assert (zlen (concat (xattr_bytes <$> xattrs i)) ≤ zlen (inode_bytes i)) as Hl2.
    { unfold inode_bytes. rewrite !app_assoc, zlen_app.
      match goal with |- _ ≤ zlen ?p + _ => pose proof (zlen_nonneg p) end. lia. }
    unfold zlen, fuel in *. lia. }
  pose proof (rem_new (inode_bytes i)) as [Hr Hf]. start_reads inode_bytes. repeat run_read.
  match goal with R : rem ?d = _, F : failed ?d = false |- _ =>
    destruct (parse_xattrs_run (xattrs i) [] d [] fuel) as (d' & E & Hr' & Hf'); try done end.
  change (zlen []) with 0 in E. cbn [app] in E. rewrite E. cbn [mbind result_bind].
  rewrite (Done_true _ Hr' Hf'), Hf', Hai, Z.eqb_refl. destruct (Z.eqb_spec (ino i) 0); [done|]. by destruct i.
Qed.

(** C16: inode records survive storage.  Serialising a well-formed inode succeeds and
    parsing the result gives the same inode back, extended attributes included. *)
Theorem Inode_roundtrip i :
  inode_record_ok i → ∃ data, Inode_SerializeTo i = Ok data ∧ Inode_ParseFrom data = Ok i.
Proof. apply Inode_parse_serialize. Qed.

Lemma Inode_ParseFrom_sound data :
  match Inode_ParseFrom data with
  | Ok i => inode_record_ok i
  | Err s => s = Malformed
  end.
Proof.
  unfold Inode_ParseFrom. pose proof (rem_new data) as [Hr Hf].
  destruct (dec_Header kInode _) as [[? ?] d1] eqn:E1. destruct (dec_U64 d1) as [[? ino] d2] eqn:E2.
  destruct (dec_Attr d2) as [[? a] d3] eqn:E3. destruct (dec_U64 d3) as [[? parent] d4] eqn:E4.
  destruct (dec_String d4) as [[? target] d5] eqn:E5. destruct (dec_U64 d5) as [[? count] d6] eqn:E6.
  assert (zlen (rem d6) < Z.of_nat (S (length data))) as Hlen.
  { pose proof (dec_shrinks _ _ _ _ _ _ _ (reads_Header kInode) E1). pose proof (dec_shrinks _ _ _ _ _ _ _ reads_U64 E2).
    pose proof (dec_shrinks _ _ _ _ _ _ _ reads_Attr E3). pose proof (dec_shrinks _ _ _ _ _ _ _ reads_U64 E4).
    pose proof (dec_shrinks _ _ _ _ _ _ _ reads_String E5). pose proof (dec_shrinks _ _ _ _ _ _ _ reads_U64 E6).
    rewrite Hr in *. pose proof (λ s : bytes, zlen_nonneg s) as Hz.
    pose proof (Hz (header_bytes kInode)). pose proof (Hz (attr_bytes a)). pose proof (Hz (string_bytes target)).
    pose proof (Hz (le_bytes 8 ino)). pose proof (Hz (le_bytes 8 parent)). pose proof (Hz (le_bytes 8 count)).
    unfold zlen in *. repeat case_match; lia. }
  pose proof (parse_xattrs_inv (S (length data)) 0 count [] d6) as Hx.
  destruct (parse_xattrs (S (length data)) 0 count [] d6) as [[xs d7]|s]; [|apply Hx; [constructor..|done|done]].
  destruct Hx as (Hs & Hxs & Hc & Hfl); [constructor..|done|done|]. cbn [mbind result_bind].
  destruct (failed d7) eqn:F7; [done|]. cbn [orb]. destruct (Z.eqb_spec ino 0); [done|]. cbn [fail_if].
  destruct (Done d7); [|done]. cbn. destruct (Z.eqb_spec (attr_ino a) ino); [|done]. cbn.
  symmetry in Hfl. invert_reads. constructor; try done. cbn.
  match goal with R : in_range 64 count |- _ => rewrite Hc; [exact R|by destruct R] end.
Qed.

(** parsing untrusted bytes is total and sound.  [ParseFrom] either yields a
    well-formed inode (so it re-serialises and parses back to itself) or reports
    [Malformed]; the attribute loop always ends within the input's length. *)
Theorem Inode_ParseFrom_total data :
  match Inode_ParseFrom data with
  | Ok i => inode_record_ok i
  | Err s => s = Malformed
  end.
Proof. apply Inode_ParseFrom_sound. Qed.

End Records.

(** ** Witnesses, on the list-backed interface *)
Definition sample_record : SwordFsInode :=
  mkInode 9 (new_attr 100 9 (Z.lor S_IFREG 420) 1000 1000) 1 [] [(lit "user.a", lit "1"); (lit "user.b", [])].

Lemma sample_record_ok : inode_record_ok sample_record.
Proof.
  assert (∀ z, bool_decide (in_range 64 z) = true → in_range 64 z) as R by (intros z; apply bool_decide_eq_true_1).
  constructor.
  - split; [by apply R|done].
  - split; [|done]. constructor; [repeat (apply Forall_cons_2; [by apply R|]); constructor
      |by apply (bool_decide_eq_true_1 (in_range 32 _))
      |repeat (apply Forall_cons_2; [by apply (bool_decide_eq_true_1 (in_range_signed 64 _))|]); constructor
      |repeat (apply Forall_cons_2; [unfold nsec_ok; cbn; lia|]); constructor|].
    split; [by apply (bool_decide_eq_true_1 (in_range 32 _))|done].
  - by apply R.
  - by apply R.
  - by apply R.
  - repeat constructor.
  - repeat (apply Forall_cons_2; [split; [done|]; split; by apply R|]). constructor.
Qed.

Lemma Inode_roundtrip_witness :
  ∃ data, Inode_SerializeTo sample_record = Ok data ∧ Inode_ParseFrom data = Ok sample_record.
Proof. apply (Inode_roundtrip sample_record). apply sample_record_ok. Defined.

Example Inode_roundtrip_runs :
  (data ← Inode_SerializeTo sample_record; Inode_ParseFrom data) = Ok sample_record.
Proof. vm_compute. reflexivity. Qed.

Definition sample_entry : SwordFsEntry := mkEntry (lit "file") 8 9.
Lemma Entry_roundtrip_witness :
  ∃ data, Entry_SerializeTo sample_entry = Ok data ∧ Entry_ParseFrom data = Ok sample_entry.
Proof.
  destruct (Entry_SerializeTo sample_entry) as [data|s] eqn:E; [|vm_compute in E; discriminate E].
  exists data. split; [reflexivity|]. apply (Entry_roundtrip data sample_entry). split; [|exact E].
  split; [discriminate|]. split; [|split; [|split]];
    [apply (bool_decide_eq_true_1 (in_range _ _)); reflexivity..|discriminate].
Defined.

Definition sample_volume : SwordFsVolume :=
  mkVolume (lit "vol") (lit "s3") (lit "b") [] 67108864 kChunkSlice true.
Lemma Volume_roundtrip_witness : Volume_ParseFrom (Volume_SerializeTo sample_volume) = Ok sample_volume.
Proof.
  apply (Volume_roundtrip (Volume_SerializeTo sample_volume) sample_volume). split; [|reflexivity].
  split; [discriminate|]. split; [|split; [|split; [discriminate|split; discriminate]]];
    [|apply (bool_decide_eq_true_1 (in_range _ _)); reflexivity].
  repeat (apply Forall_cons_2; [apply (bool_decide_eq_true_1 (in_range _ _)); reflexivity|]). constructor.
Defined.

Lemma SliceRecord_roundtrip_witness :
  DecodeRecord (EncodeRecord (mkSliceRecord 4 8 3 0 3)) 16 = Ok (mkSliceRecord 4 8 3 0 3).
Proof.
  apply (SliceRecord_roundtrip (EncodeRecord (mkSliceRecord 4 8 3 0 3)) 16 (mkSliceRecord 4 8 3 0 3)).
  split; [apply (bool_decide_eq_true_1 (record_fields _)); reflexivity|split; reflexivity].
Defined.

Lemma Inode_ParseFrom_total_witness :
  Inode_ParseFrom (lit "garbage") = Err Malformed ∧
  match Inode_ParseFrom (lit "garbage") with Ok i => inode_record_ok i | Err s => s = Malformed end.
Proof. split; [vm_compute; reflexivity|]. apply (Inode_ParseFrom_total (lit "garbage")). Defined.
