(* ===== verification/Decimal.v ===== *)
(** * Decimal text

    [std::to_string], [std::from_chars] on unsigned 64-bit integers and the string
    splitting used by the stored lock records.  Shared by the Redis key names, the
    chunk-reference hashes and the lock authority. *)

From S2P Require Import Prelude.

Definition digit (z : Z) : ascii := byte_of_Z (48 + z).
Definition is_digit (c : ascii) : bool := (48 <=? Z_of_byte c) && (Z_of_byte c <=? 57).
Definition digit_value (c : ascii) : Z := Z_of_byte c - 48.

(** [fuel] is at least the number of digits. *)
Fixpoint to_digits (fuel : nat) (z : Z) : bytes :=
  match fuel with
  | O => []
  | S fuel => if z <? 10 then [digit z] else to_digits fuel (z / 10) ++ [digit (z mod 10)]
  end.

(** [std::to_string] of a non-negative integer. *)
Definition to_string (z : Z) : bytes := to_digits (S (Z.to_nat (Z.log2 z))) z.

Definition dec_value (s : bytes) : Z := foldl (λ v c, 10 * v + digit_value c) 0 s.

(** [std::from_chars(begin, end, uint64_t)] consuming the whole range without error. *)
Definition from_chars (s : bytes) : option Z :=
  if bool_decide (s = []) || negb (forallb is_digit s) then None
  else if dec_value s <=? UINT64_MAX then Some (dec_value s) else None.

(** ** Facts *)
Lemma digit_spec d : 0 ≤ d < 10 → is_digit (digit d) = true ∧ digit_value (digit d) = d.
Proof.
  intros Hd. unfold is_digit, digit_value, digit. rewrite Z_of_byte_of_Z, Z.mod_small by lia.
  destruct (Z.leb_spec 48 (48 + d)), (Z.leb_spec (48 + d) 57); split; try done; lia.
Qed.

Lemma dec_value_snoc s c : dec_value (s ++ [c]) = 10 * dec_value s + digit_value c.
Proof. unfold dec_value. by rewrite foldl_app. Qed.

Lemma to_digits_spec fuel z :
  0 ≤ z → (Z.log2 z < Z.of_nat fuel) →
  dec_value (to_digits fuel z) = z ∧ forallb is_digit (to_digits fuel z) = true ∧ to_digits fuel z ≠ [].
Proof.
  revert z. induction fuel as [|fuel IH]; intros z Hz Hl.
  { pose proof (Z.log2_nonneg z). lia. }
  cbn [to_digits]. destruct (Z.ltb_spec z 10).
  - destruct (digit_spec z) as [H1 H2]; [lia|]. unfold dec_value. cbn. by rewrite H1, H2.
  - pose proof (Z.mod_pos_bound z 10 ltac:(lia)). destruct (digit_spec (z mod 10)) as [H1 H2]; [lia|].
    destruct (IH (z / 10)) as (E1 & E2 & E3).
    + apply Z.div_pos; lia.
    + assert (z / 10 ≤ z / 2) by (apply Z.div_le_compat_l; lia).
      assert (Z.log2 (z / 10) ≤ Z.log2 (z / 2)) by (by apply Z.log2_le_mono).
      assert (Z.log2 (z / 2) = Z.log2 z - 1).
      { pose proof (Z.log2_shiftr z 1 ltac:(lia)) as Hs. rewrite Z.shiftr_div_pow2 in Hs by lia.
        change (2 ^ 1) with 2 in Hs. pose proof (Z.log2_le_mono 2 z ltac:(lia)). change (Z.log2 2) with 1 in *. lia. }
      lia.
    + rewrite dec_value_snoc, E1, H2, forallb_app, E2. cbn. rewrite H1.
      split_and!; [|done|by destruct (to_digits fuel (z / 10))].
      pose proof (Z.div_mod z 10). lia.
Qed.

Lemma to_string_spec z :
  0 ≤ z → dec_value (to_string z) = z ∧ forallb is_digit (to_string z) = true ∧ to_string z ≠ [].
Proof. intros. apply to_digits_spec; [done|]. pose proof (Z.log2_nonneg z). lia. Qed.

(** Printing then parsing is the identity on 64-bit values. *)
Lemma from_chars_to_string z : in_range 64 z → from_chars (to_string z) = Some z.
Proof.
  intros [H1 H2]. destruct (to_string_spec z) as (E1 & E2 & E3); [done|]. unfold from_chars.
  rewrite bool_decide_eq_false_2, E2, E1 by done. cbn. unfold UINT64_MAX. by destruct (Z.leb_spec z 18446744073709551615); [|lia].
Qed.

Lemma from_chars_range s z : from_chars s = Some z → in_range 64 z.
Proof.
  unfold from_chars. destruct (bool_decide _), (forallb is_digit s) eqn:Hd; cbn; try done.
  destruct (Z.leb_spec (dec_value s) UINT64_MAX); [|done]. intros [= <-]. unfold in_range, UINT64_MAX in *.
  split; [|lia]. clear -Hd. unfold dec_value.
  assert (∀ v, 0 ≤ v → 0 ≤ foldl (λ v c, 10 * v + digit_value c) v s) as Hv; [|by apply Hv].
  induction s as [|c s IH]; cbn; [done|]. cbn in Hd. apply andb_true_iff in Hd as [Hc Hs].
  intros v Hv. apply IH; [done|]. unfold is_digit in Hc. unfold digit_value. lia.
Qed.

Lemma to_string_inj a b : 0 ≤ a → 0 ≤ b → to_string a = to_string b → a = b.
Proof.
  intros Ha Hb E. destruct (to_string_spec a) as (<- & _); [done|].
  destruct (to_string_spec b) as (<- & _); [done|]. by rewrite E.
Qed.

(** ** Splitting at a delimiter *)
Fixpoint SplitOnce (s : bytes) (delimiter : ascii) : bytes * bytes :=
  match s with
  | [] => ([], [])
  | c :: s =>
      if bool_decide (c = delimiter) then ([], s)
      else let '(a, b) := SplitOnce s delimiter in (c :: a, b)
  end.
Definition contains (s : bytes) (c : ascii) : bool := existsb (λ x, bool_decide (x = c)) s.

Lemma SplitOnce_found a d b : contains a d = false → SplitOnce (a ++ d :: b) d = (a, b).
Proof.
  induction a as [|c a IH]; cbn; [by rewrite bool_decide_eq_true_2|].
  intros [Hc Ha]%orb_false_iff. rewrite Hc, IH by done. done.
Qed.

Lemma SplitOnce_absent a d : contains a d = false → SplitOnce a d = (a, []).
Proof.
  induction a as [|c a IH]; cbn; [done|]. intros [Hc Ha]%orb_false_iff. by rewrite Hc, IH.
Qed.

Lemma SplitOnce_contains s d : contains s d = true → ∃ a b, s = a ++ d :: b ∧ contains a d = false ∧ SplitOnce s d = (a, b).
Proof.
  induction s as [|c s IH]; cbn; [done|]. case_bool_decide as Hc; cbn.
  - intros _. subst. by exists [], s.
  - intros Hs. destruct (IH Hs) as (a & b & -> & Ha & E). exists (c :: a), b. cbn [contains existsb].
    rewrite (bool_decide_eq_false_2 _ Hc). rewrite E. by split_and!.
Qed.

Lemma contains_app a b d : contains (a ++ b) d = contains a d || contains b d.
Proof. apply existsb_app. Qed.

Lemma contains_digits s d : forallb is_digit s = true → is_digit d = false → contains s d = false.
Proof.
  intros Hs Hd. induction s as [|c s IH]; [done|]. apply andb_true_iff in Hs as [Hc Hs].
  unfold contains in *. cbn [existsb]. rewrite IH by done. rewrite bool_decide_eq_false_2; [done|congruence].
Qed.

Lemma contains_to_string z d : 0 ≤ z → is_digit d = false → contains (to_string z) d = false.
Proof. intros Hz Hd. apply contains_digits; [|done]. by apply to_string_spec. Qed.
