(* ===== verification/RedisKey.v ===== *)
(** * Redis key names

    src/src/metadata/redis/RedisKey.cpp, and the private index keys of
    RedisSliceChunkMetadata.cpp and RedisCOWChunkMetadata.cpp.  [folly::sformat] is not
    part of the repository: [fmt] is what it prints for an unsigned integer placeholder. *)

From S2P Require Import Prelude Decimal InodeTypes Codec Records.

(** folly's "{}" prints an unsigned integer in decimal. *)
Class FollyFormat := fmt : Z → bytes.
Class FollyFormatLaws `{FollyFormat} : Prop := fmt_spec n : 0 ≤ n → fmt n = to_string n.
#[export] Instance DecimalFormat : FollyFormat := to_string.
#[export] Instance DecimalFormatLaws : FollyFormatLaws (H := DecimalFormat).
Proof. done. Qed.

Section RedisKey.
Context `{FollyFormat} (prefix : bytes).

Definition make_prefix (db : Z) (volume_name : bytes) : bytes :=
  lit "{" ++ fmt db ++ lit ":" ++ volume_name ++ lit "}:".

Definition FormatKey : bytes := prefix ++ lit "format".
Definition OwnerGeneration : bytes := prefix ++ lit "owner_generation".
Definition OwnerLease (generation : Z) : bytes := prefix ++ lit "owner_lease:" ++ fmt generation.
Definition PosixLock (inode_ino : Z) : bytes := prefix ++ lit "lock:posix:" ++ fmt inode_ino.
Definition FlockLock (inode_ino : Z) : bytes := prefix ++ lit "lock:flock:" ++ fmt inode_ino.
Definition NextIno : bytes := prefix ++ lit "next_ino".
Definition NextChunkID : bytes := prefix ++ lit "next_chunk_id".
Definition NextSliceID : bytes := prefix ++ lit "next_slice_id".
Definition InodeKey (ino : Z) : bytes := prefix ++ lit "inode:" ++ fmt ino.
Definition Directory (parent_ino : Z) : bytes := prefix ++ lit "dir:" ++ fmt parent_ino.
Definition ChunkRefs (ino : Z) : bytes := prefix ++ lit "chunk_refs:" ++ fmt ino.
Definition ChunkTypeKey (t : ChunkType) : bytes := to_string (ChunkType_value t).
Definition PrivateChunkIndex (mechanism : ChunkType) (hash : bytes) : bytes :=
  prefix ++ lit "private_chunk_index:" ++ ChunkTypeKey mechanism ++ lit ":" ++ hash.
Definition InodeCount : bytes := prefix ++ lit "inode_count".
Definition Orphans : bytes := prefix ++ lit "orphans".
Definition Reclaims : bytes := prefix ++ lit "reclaims".
Definition PendingDeletes : bytes := prefix ++ lit "pending_deletes".

(** Private index keys of the two chunk mechanisms. *)
Definition IndexKey (chunk_id : Z) : bytes := PrivateChunkIndex kChunkSlice (lit "index:" ++ to_string chunk_id).
Definition HeadKey (chunk_id : Z) : bytes := PrivateChunkIndex kCow (lit "head:" ++ to_string chunk_id).
Definition RevisionKey (chunk_id : Z) : bytes := PrivateChunkIndex kCow (lit "revision:" ++ to_string chunk_id).

(** Every object the metadata engine stores. *)
Inductive key_name :=
  | KFormat | KOwnerGeneration | KOwnerLease (generation : Z) | KPosixLock (ino : Z) | KFlockLock (ino : Z)
  | KNextIno | KNextChunkID | KNextSliceID | KInode (ino : Z) | KDirectory (ino : Z) | KChunkRefs (ino : Z)
  | KIndex (chunk_id : Z) | KHead (chunk_id : Z) | KRevision (chunk_id : Z)
  | KInodeCount | KOrphans | KReclaims | KPendingDeletes.

Definition key_bytes (k : key_name) : bytes :=
  match k with
  | KFormat => FormatKey | KOwnerGeneration => OwnerGeneration | KOwnerLease g => OwnerLease g
  | KPosixLock i => PosixLock i | KFlockLock i => FlockLock i | KNextIno => NextIno
  | KNextChunkID => NextChunkID | KNextSliceID => NextSliceID | KInode i => InodeKey i
  | KDirectory i => Directory i | KChunkRefs i => ChunkRefs i | KIndex i => IndexKey i | KHead i => HeadKey i
  | KRevision i => RevisionKey i | KInodeCount => InodeCount | KOrphans => Orphans | KReclaims => Reclaims
  | KPendingDeletes => PendingDeletes
  end.

Definition key_number (k : key_name) : Z :=
  match k with
  | KOwnerLease n | KPosixLock n | KFlockLock n | KInode n | KDirectory n | KChunkRefs n
  | KIndex n | KHead n | KRevision n => n
  | _ => 0
  end.

Context `{!FollyFormatLaws}.

Lemma fmt_inj a b : 0 ≤ a → 0 ≤ b → fmt a = fmt b → a = b.
Proof. intros Ha Hb. rewrite !fmt_spec by done. by apply to_string_inj. Qed.

Lemma key_bytes_inj k1 k2 :
  0 ≤ key_number k1 → 0 ≤ key_number k2 → key_bytes k1 = key_bytes k2 → k1 = k2.
Proof.
  intros H1 H2 E.
  destruct k1, k2; try done; cbn [key_bytes key_number] in *;
    apply (app_inv_head prefix) in E; cbn in E; try discriminate E;
    repeat (injection E as E); f_equal;
    first [by apply fmt_inj|by apply to_string_inj].
Qed.

(** no two objects share a Redis key.  Keys of different kinds, and keys of the same
    kind for different numbers, are different byte strings under any volume prefix. *)
Theorem keys_distinct k1 k2 :
  0 ≤ key_number k1 → 0 ≤ key_number k2 → k1 ≠ k2 → key_bytes k1 ≠ key_bytes k2.
Proof. intros H1 H2 Hne E. by apply Hne, key_bytes_inj. Qed.
End RedisKey.

(** Name the object behind a key. *)
Ltac key_name_of k :=
  lazymatch k with
  | InodeKey _ ?i => constr:(KInode i)
  | Directory _ ?i => constr:(KDirectory i)
  | ChunkRefs _ ?i => constr:(KChunkRefs i)
  | OwnerLease _ ?g => constr:(KOwnerLease g)
  | PosixLock _ ?i => constr:(KPosixLock i)
  | FlockLock _ ?i => constr:(KFlockLock i)
  | OwnerGeneration _ => constr:(KOwnerGeneration)
  | NextIno _ => constr:(KNextIno)
  | FormatKey _ => constr:(KFormat)
  | NextChunkID _ => constr:(KNextChunkID)
  | NextSliceID _ => constr:(KNextSliceID)
  | Orphans _ => constr:(KOrphans)
  | Reclaims _ => constr:(KReclaims)
  | PendingDeletes _ => constr:(KPendingDeletes)
  | InodeCount _ => constr:(KInodeCount)
  end.
(** Two keys differ: different kinds, or different numbers. *)
Ltac key_neq :=
  lazymatch goal with
  | |- ?k1 ≠ ?k2 =>
      let n1 := key_name_of k1 in let n2 := key_name_of k2 in
      let E := fresh "E" in
      intros E; eapply (key_bytes_inj _ n1 n2) in E;
      [first [discriminate E|injection E as E; congruence || lia] | cbn; lia ..]
  end.

Lemma keys_distinct_witness :
  key_bytes (lit "{0:v}:") (KInode 12) ≠ key_bytes (lit "{0:v}:") (KDirectory 12).
Proof. apply (keys_distinct (lit "{0:v}:") (KInode 12) (KDirectory 12)); [done|done|discriminate]. Defined.
