(* ===== verification/RedisKv.v ===== *)
(** * Redis optimistic transactions

    src/src/metadata/redis/RedisKvTxn.{hpp,cpp} and [RedisMetaClient::Transact]
    (RedisMetaClient.cpp).  The Redis server and redis++ are not part of the repository:
    [Redis] has the commands the client sends and [RedisLaws] what the Redis
    documentation says of them.  A transaction callback is a program of [RedisKvTxn]
    calls ([kvprog]); its meaning is given twice, as an atomic run against one dataset
    ([atomic]) and as an attempt interleaved with other clients ([interleaved]), and
    the two are related by WATCH/EXEC. *)

From stdpp Require Export gmap.
From S2P Require Import Prelude Decimal.
#[global] Open Scope Z_scope.

(** ** The server *)
Inductive rvalue :=
  | RVStr (s : bytes) (expires : bool)
  | RVHash (h : gmap bytes bytes)
  | RVList (l : list bytes).
Abbreviation dataset := (gmap bytes rvalue).

(** Commands sent while reading ([kWatched] or not) and commands queued in MULTI. *)
Inductive kv_read :=
  | RGet (key : bytes)
  | RListPrefix (key : bytes)
  | RHGet (key field : bytes) (watched : bool)
  | RHLen (key : bytes)
  | RHGetAll (key : bytes)
  | RPttlBatch (keys : list bytes)
  | RHScan (key : bytes) (cursor count : Z).

Inductive kv_write :=
  | WSet (key value : bytes)
  | WRPush (key value : bytes)
  | WHSet (key field value : bytes)
  | WHDel (key field : bytes)
  | WIncrBy (key : bytes) (delta : Z)
  | WDel (key : bytes).

Inductive reply :=
  | RpNil
  | RpBulk (s : bytes)
  | RpInt (n : Z)
  | RpStrings (l : list bytes)
  | RpPairs (l : list (bytes * bytes))
  | RpInts (l : list Z)
  | RpPage (l : list (bytes * bytes)) (next : Z)
  | RpError.

Definition write_key (w : kv_write) : bytes :=
  match w with
  | WSet k _ | WRPush k _ | WHSet k _ _ | WHDel k _ | WIncrBy k _ | WDel k => k
  end.

Section Answers.
Context (page_of : gmap bytes bytes → Z → list (bytes * bytes) → Z → Prop)
        (incr_string : bytes → Z → option bytes).

Definition hash_at (d : dataset) (k : bytes) : option (gmap bytes bytes) :=
  match d !! k with
  | None => Some ∅
  | Some (RVHash h) => Some h
  | Some _ => None
  end.

Definition field_of (v : option rvalue) (f : bytes) : option bytes :=
  match v with Some (RVHash h) => h !! f | _ => None end.

Definition pttl_answers (d : dataset) (k : bytes) (z : Z) : Prop :=
  match d !! k with
  | None => z = -2
  | Some (RVStr _ true) => 0 ≤ z
  | Some _ => z = -1
  end.

(** The replies the documentation allows for a read command on a dataset. *)
Definition answers (d : dataset) (r : kv_read) (ρ : reply) : Prop :=
  match r with
  | RGet k => match d !! k with
              | None => ρ = RpNil
              | Some (RVStr s _) => ρ = RpBulk s
              | Some _ => ρ = RpError
              end
  | RListPrefix k => match d !! k with
                     | None => ρ = RpStrings []
                     | Some (RVList l) => ρ = RpStrings (take 1 l)
                     | Some _ => ρ = RpError
                     end
  | RHGet k f _ => match hash_at d k with
                   | Some h => ρ = match h !! f with Some v => RpBulk v | None => RpNil end
                   | None => ρ = RpError
                   end
  | RHLen k => match hash_at d k with
               | Some h => ρ = RpInt (Z.of_nat (size h))
               | None => ρ = RpError
               end
  | RHGetAll k => match hash_at d k with
                  | Some h => ∃ l, l ≡ₚ map_to_list h ∧ ρ = RpPairs l
                  | None => ρ = RpError
                  end
  | RPttlBatch ks => ∃ l, Forall2 (pttl_answers d) ks l ∧ ρ = RpInts l
  | RHScan k c _ => match hash_at d k with
                    | Some h => ∃ l next, page_of h c l next ∧ ρ = RpPage l next
                    | None => ρ = RpError
                    end
  end.

(** The effect of a write command, and whether its reply is not an error. *)
Definition apply_write (w : kv_write) (d : dataset) : dataset * bool :=
  match w with
  | WSet k v => (<[k := RVStr v false]> d, true)
  | WRPush k v => match d !! k with
                  | None => (<[k := RVList [v]]> d, true)
                  | Some (RVList l) => (<[k := RVList (l ++ [v])]> d, true)
                  | Some _ => (d, false)
                  end
  | WHSet k f v => match hash_at d k with
                   | Some h => (<[k := RVHash (<[f := v]> h)]> d, true)
                   | None => (d, false)
                   end
  | WHDel k f => match hash_at d k with
                 | Some h => (if decide (delete f h = ∅) then delete k d else <[k := RVHash (delete f h)]> d, true)
                 | None => (d, false)
                 end
  | WIncrBy k z => match d !! k with
                   | None => match incr_string (lit "0") z with
                             | Some s => (<[k := RVStr s false]> d, true)
                             | None => (d, false)
                             end
                   | Some (RVStr s e) => match incr_string s z with
                                         | Some s' => (<[k := RVStr s' e]> d, true)
                                         | None => (d, false)
                                         end
                   | Some _ => (d, false)
                   end
  | WDel k => (delete k d, true)
  end.

(** Queued commands execute in order; a failing one does not stop the others. *)
Fixpoint apply_writes (ws : list kv_write) (d : dataset) : dataset * bool :=
  match ws with
  | [] => (d, true)
  | w :: ws => let '(d1, ok) := apply_write w d in
               let '(d2, oks) := apply_writes ws d1 in (d2, ok && oks)
  end.

(** The effect of a write on its own key. *)
Definition write_value (w : kv_write) (v : option rvalue) : option rvalue :=
  match w with
  | WSet _ s => Some (RVStr s false)
  | WRPush _ s => match v with
                  | None => Some (RVList [s])
                  | Some (RVList l) => Some (RVList (l ++ [s]))
                  | Some _ => v
                  end
  | WHSet _ f s => match v with
                   | None => Some (RVHash {[ f := s ]})
                   | Some (RVHash h) => Some (RVHash (<[f := s]> h))
                   | Some _ => v
                   end
  | WHDel _ f => match v with
                 | Some (RVHash h) => if decide (delete f h = ∅) then None else Some (RVHash (delete f h))
                 | _ => v
                 end
  | WIncrBy _ z => match v with
                   | None => match incr_string (lit "0") z with Some s => Some (RVStr s false) | None => None end
                   | Some (RVStr s e) => match incr_string s z with Some s' => Some (RVStr s' e) | None => v end
                   | Some _ => v
                   end
  | WDel _ => None
  end.

Lemma lookup_apply_write w d k :
  (apply_write w d).1 !! k = if decide (write_key w = k) then write_value w (d !! k) else d !! k.
Proof.
  destruct w as [x v|x v|x f v|x f|x z|x]; cbn [apply_write write_key write_value]; unfold hash_at;
    repeat (case_match; cbn [fst]; simplify_eq); rewrite ?lookup_insert_eq, ?lookup_delete_eq by done;
    rewrite ?lookup_insert_ne, ?lookup_delete_ne by done; try done; try congruence.
  all: rewrite ?delete_empty, ?insert_empty in *; congruence.
Qed.

Definition key_after (k : bytes) (ws : list kv_write) (v : option rvalue) : option rvalue :=
  foldl (λ v w, if decide (write_key w = k) then write_value w v else v) v ws.

Lemma lookup_apply_writes ws d k : (apply_writes ws d).1 !! k = key_after k ws (d !! k).
Proof.
  unfold key_after. revert d. induction ws as [|w ws IH]; intros d; cbn [apply_writes foldl]; [done|].
  destruct (apply_write w d) as [d1 ok] eqn:E1. destruct (apply_writes ws d1) as [d2 oks] eqn:E2.
  cbn [fst]. specialize (IH d1). rewrite E2 in IH. cbn [fst] in IH. rewrite IH. f_equal.
  pose proof (lookup_apply_write w d k) as E. by rewrite E1 in E.
Qed.

Lemma key_after_app k ws ws' v : key_after k (ws ++ ws') v = key_after k ws' (key_after k ws v).
Proof. unfold key_after. by rewrite foldl_app. Qed.

Lemma key_after_frame k ws v : Forall (λ w, write_key w ≠ k) ws → key_after k ws v = v.
Proof.
  unfold key_after. revert v. induction ws as [|w ws IH]; intros v; cbn; [done|].
  intros [Hw Hws]%Forall_cons. rewrite decide_False by done. by apply IH.
Qed.

Lemma key_after_cons k w ws v :
  key_after k (w :: ws) v =
  key_after k ws (if decide (write_key w = k) then write_value w v else v).
Proof. done. Qed.

Lemma key_after_put k s ws v :
  Forall (λ w, write_key w ≠ k) ws → key_after k (WSet k s :: ws) v = Some (RVStr s false).
Proof. intros Hws. change (WSet k s :: ws) with ([WSet k s] ++ ws). rewrite key_after_app, (key_after_frame _ ws) by done.
  unfold key_after. cbn. by rewrite decide_True. Qed.

(** A scan: pages chained by their cursors. *)
Inductive scan_chain (h : gmap bytes bytes) : Z → list (bytes * bytes) → Z → nat → Prop :=
  | scan_page c l c' : page_of h c l c' → scan_chain h c l c' 1
  | scan_more c l c' l' c'' n :
      page_of h c l c' → c' ≠ 0 → scan_chain h c' l' c'' n → scan_chain h c (l ++ l') c'' (S n).
End Answers.
#[global] Arguments key_after_app {_} _ _ _ _.
#[global] Arguments key_after_frame {_} _ _ _ _.
#[global] Arguments key_after_cons {_} _ _ _ _.
#[global] Arguments key_after_put {_} _ _ _ _ _.

Class Redis := {
  Store : Type;
  view : Store → dataset;
  read_reply : kv_read → Store → reply;
  exec_write : kv_write → Store → Store * bool;
  (** HSCAN pages a hash may yield for a cursor, with the next cursor. *)
  page_of : gmap bytes bytes → Z → list (bytes * bytes) → Z → Prop;
  (** INCRBY on a stored string. *)
  incr_string : bytes → Z → option bytes;
}.

Class RedisLaws `{Redis} := {
  read_answers s r : answers page_of (view s) r (read_reply r s);
  exec_view w s : (view (exec_write w s).1, (exec_write w s).2) = apply_write incr_string w (view s);
  (** HSCAN returns elements of the hash, and a complete iteration returns all of them
      and ends. *)
  scan_sound h c l c' : page_of h c l c' → ∀ f v, (f, v) ∈ l → h !! f = Some v;
  scan_complete h l n : scan_chain page_of h 0 l 0 n → ∀ f v, h !! f = Some v → (f, v) ∈ l;
  scan_bound : gmap bytes bytes → nat;
  scan_ends h c l n : scan_chain page_of h 0 l c n → c ≠ 0 → (n < scan_bound h)%nat;
  (** INCRBY works on 64-bit signed integers and fails on overflow. *)
  incr_decimal n z : 0 ≤ n ≤ INT64_MAX → 0 ≤ n + z →
    incr_string (to_string n) z = if n + z <=? INT64_MAX then Some (to_string (n + z)) else None;
}.

(** ** Programs of RedisKvTxn calls *)
Inductive kv_value :=
  | VBytes (s : bytes)
  | VStrings (l : list bytes)
  | VLen (n : Z)
  | VPairs (l : list (bytes * bytes))
  | VTtls (l : list Z)
  | VPage (l : list (bytes * bytes)) (next : Z).

Inductive kvprog (A : Type) :=
  | Ret (a : A)
  | Read (r : kv_read) (k : result kv_value → kvprog A)
  | Write (w : kv_write) (k : Status → kvprog A).
Arguments Ret {A} _.
Arguments Read {A} _ _.
Arguments Write {A} _ _.

Fixpoint prog_bind {A B : Type} (p : kvprog A) (f : A → kvprog B) : kvprog B :=
  match p with
  | Ret a => f a
  | Read r k => Read r (λ v, prog_bind (k v) f)
  | Write w k => Write w (λ s, prog_bind (k s) f)
  end.

(** Callbacks return a status with their outputs; [x ← m; k] returns on a bad status,
    [kv_try] looks at it. *)
Definition kv (A : Type) : Type := kvprog (result A).
#[export] Instance kv_ret : MRet kv := λ A a, Ret (Ok a).
#[export] Instance kv_bind : MBind kv := λ A B f m,
  prog_bind m (λ r, match r with Ok a => f a | Err s => Ret (Err s) end).
Definition kv_fail {A : Type} (s : Status) : kv A := Ret (Err s).
Definition kv_lift {A : Type} (r : result A) : kv A := Ret r.
Definition kv_check (s : Status) : kv unit := kv_lift (check s).
Definition kv_fail_if (b : bool) (s : Status) : kv unit := kv_lift (fail_if b s).
Definition kv_try {A B : Type} (m : kv A) (f : result A → kv B) : kv B := prog_bind m f.

Definition as_bytes (r : result kv_value) : result bytes :=
  match r with Ok (VBytes s) => Ok s | Ok _ => Err Internal | Err s => Err s end.
Definition as_strings (r : result kv_value) : result (list bytes) :=
  match r with Ok (VStrings s) => Ok s | Ok _ => Err Internal | Err s => Err s end.
Definition as_len (r : result kv_value) : result Z :=
  match r with Ok (VLen s) => Ok s | Ok _ => Err Internal | Err s => Err s end.
Definition as_pairs (r : result kv_value) : result (list (bytes * bytes)) :=
  match r with Ok (VPairs s) => Ok s | Ok _ => Err Internal | Err s => Err s end.
Definition as_ttls (r : result kv_value) : result (list Z) :=
  match r with Ok (VTtls s) => Ok s | Ok _ => Err Internal | Err s => Err s end.
Definition as_page (r : result kv_value) : result (list (bytes * bytes) * Z) :=
  match r with Ok (VPage l n) => Ok (l, n) | Ok _ => Err Internal | Err s => Err s end.

Definition Get (key : bytes) : kv bytes := Read (RGet key) (λ v, Ret (as_bytes v)).
Definition ListPrefix (key : bytes) : kv (list bytes) := Read (RListPrefix key) (λ v, Ret (as_strings v)).
Definition HGet (key field : bytes) : kv bytes := Read (RHGet key field true) (λ v, Ret (as_bytes v)).
Definition HLen (key : bytes) : kv Z := Read (RHLen key) (λ v, Ret (as_len v)).
Definition HGetAll (key : bytes) : kv (list (bytes * bytes)) := Read (RHGetAll key) (λ v, Ret (as_pairs v)).
Definition PttlBatch (keys : list bytes) : kv (list Z) := Read (RPttlBatch keys) (λ v, Ret (as_ttls v)).
Definition HScan (key : bytes) (cursor count : Z) : kv (list (bytes * bytes) * Z) :=
  Read (RHScan key cursor count) (λ v, Ret (as_page v)).
Definition queue (w : kv_write) : kv unit := Write w (λ s, Ret (check s)).
Definition Set_ (key value : bytes) : kv unit := queue (WSet key value).
Definition RPush (key value : bytes) : kv unit := queue (WRPush key value).
Definition HSet (key field value : bytes) : kv unit := queue (WHSet key field value).
Definition HDel (key field : bytes) : kv unit := queue (WHDel key field).
Definition IncrBy (key : bytes) (delta : Z) : kv unit := queue (WIncrBy key delta).
Definition Del (key : bytes) : kv unit := queue (WDel key).

(** ** The transaction object *)
Record RedisKvTxn := mkTxn { has_writes : bool; queued : list kv_write }.
Definition new_txn : RedisKvTxn := mkTxn false [].
Definition enqueue (w : kv_write) (t : RedisKvTxn) : RedisKvTxn := mkTxn true (queued t ++ [w]).

(** What a call returns for a reply; [RpError] is redis++'s [ReplyError]. *)
Definition decode (r : kv_read) (ρ : reply) : result kv_value :=
  match r, ρ with
  | RGet _, RpNil | RHGet _ _ _, RpNil => Err NotFound
  | RGet _, RpBulk s | RHGet _ _ _, RpBulk s => Ok (VBytes s)
  | RListPrefix _, RpStrings l => Ok (VStrings l)
  | RHLen _, RpInt n => Ok (VLen n)
  | RHGetAll _, RpPairs l => Ok (VPairs l)
  | RPttlBatch ks, RpInts l => if Nat.eqb (length l) (length ks) then Ok (VTtls l) else Err Malformed
  | RHScan _ _ _, RpPage l n => Ok (VPage l n)
  | _, _ => Err IOError
  end.

(** [if (has_writes_) return InvalidArgument]; an empty PTTL batch sends nothing. *)
Definition guard_read (t : RedisKvTxn) (r : kv_read) : option (result kv_value) :=
  if has_writes t then Some (Err InvalidArgument) else
  match r with
  | RPttlBatch [] => Some (Ok (VTtls []))
  | _ => None
  end.

Definition watched_keys (r : kv_read) : list bytes :=
  match r with
  | RGet k | RListPrefix k | RHLen k | RHGetAll k | RHScan k _ _ => [k]
  | RHGet k _ w => if w then [k] else []
  | RPttlBatch ks => ks
  end.

Section Transactions.
Context `{Redis}.

(** ** Atomic meaning

    All reads see the dataset [d]; any call may also fail with a Redis error reply
    ([IOError]), after which nothing is queued. *)
Fixpoint atomic {A : Type} (d : dataset) (p : kvprog A) (t : RedisKvTxn) (out : A * RedisKvTxn) : Prop :=
  match p with
  | Ret a => out = (a, t)
  | Read r k =>
      match guard_read t r with
      | Some v => atomic d (k v) t out
      | None => ∃ ρ, (answers page_of d r ρ ∨ ρ = RpError) ∧ atomic d (k (decode r ρ)) t out
      end
  | Write w k => atomic d (k OK) (enqueue w t) out ∨ atomic d (k IOError) t out
  end.

(** The run with no failing call, as a function. *)
Fixpoint run {A : Type} (s : Store) (p : kvprog A) (t : RedisKvTxn) : A * RedisKvTxn :=
  match p with
  | Ret a => (a, t)
  | Read r k =>
      match guard_read t r with
      | Some v => run s (k v) t
      | None => run s (k (decode r (read_reply r s))) t
      end
  | Write w k => run s (k OK) (enqueue w t)
  end.

(** ** EXEC *)
Fixpoint exec_all (ws : list kv_write) (s : Store) : Store * bool :=
  match ws with
  | [] => (s, true)
  | w :: ws => let '(s1, ok) := exec_write w s in
               let '(s2, oks) := exec_all ws s1 in (s2, ok && oks)
  end.

(** An uncontended [Transact]: callback, then [Discard] or [Commit]. *)
Definition transact_now {A : Type} (p : kv A) (s : Store) : result A * Store :=
  match run s p new_txn with
  | (Err e, _) => (Err e, s)
  | (Ok a, t) => let '(s', ok) := exec_all (queued t) s in (if ok then Ok a else Err IOError, s')
  end.

(** ** Interleaving with other clients

    Other clients may replace the dataset between any two commands.  [dirty] records that
    a watched key was modified; it may be set spuriously (a rewrite of the same value),
    but while it is not, watched keys have kept their values. *)
Definition interfere (W : list bytes) (dirty : bool) (s : Store) (dirty' : bool) (s' : Store) : Prop :=
  (dirty = true → dirty' = true) ∧ (dirty' = false → ∀ k, k ∈ W → view s !! k = view s' !! k).

Inductive interleaved {A : Type} : kvprog A → list bytes → bool → RedisKvTxn → Store →
    A → bool → RedisKvTxn → Store → Prop :=
  | il_ret a W b t s : interleaved (Ret a) W b t s a b t s
  | il_env p W b t s b1 s1 a b' t' s' :
      interfere W b s b1 s1 → interleaved p W b1 t s1 a b' t' s' → interleaved p W b t s a b' t' s'
  | il_guard r k v W b t s a b' t' s' :
      guard_read t r = Some v → interleaved (k v) W b t s a b' t' s' →
      interleaved (Read r k) W b t s a b' t' s'
  | il_read r k W b t s b1 s1 ρ a b' t' s' :
      (* WATCH, then the command, with other clients in between *)
      guard_read t r = None → interfere (watched_keys r ++ W) b s b1 s1 →
      ρ = read_reply r s1 ∨ ρ = RpError →
      interleaved (k (decode r ρ)) (watched_keys r ++ W) b1 t s1 a b' t' s' →
      interleaved (Read r k) W b t s a b' t' s'
  | il_write w k W b t s a b' t' s' :
      interleaved (k OK) W b (enqueue w t) s a b' t' s' → interleaved (Write w k) W b t s a b' t' s'
  | il_write_error w k W b t s a b' t' s' :
      interleaved (k IOError) W b t s a b' t' s' → interleaved (Write w k) W b t s a b' t' s'.

(** One attempt of [Transact]: [None] is a retry; the list records the executed queues
    with the server state they were executed in. *)
Inductive attempt {A : Type} (p : kv A) : Store → option (result A) → list (Store * list kv_write) → Store → Prop :=
  | at_transport s s' :
      (* connecting, reading or queuing failed before EXEC *)
      attempt p s None [] s'
  | at_reply_error s s' : attempt p s (Some (Err IOError)) [] s'
  | at_discard s e b t s' :
      interleaved p [] false new_txn s (Err e) b t s' → attempt p s (Some (Err e)) [] s'
  | at_conflict s a t s' :
      interleaved p [] false new_txn s (Ok a) true t s' → attempt p s None [] s'
  | at_read_only s a t s' :
      interleaved p [] false new_txn s (Ok a) false t s' → has_writes t = false → attempt p s (Some (Ok a)) [] s'
  | at_read_only_error s a b t s' e :
      interleaved p [] false new_txn s (Ok a) b t s' → has_writes t = false →
      e = IOError ∨ e = Unavailable → attempt p s (Some (Err e)) [] s'
  | at_commit s a t s1 s2 :
      interleaved p [] false new_txn s (Ok a) false t s1 → has_writes t = true →
      exec_all (queued t) s1 = (s2, true) → attempt p s (Some (Ok a)) [(s1, queued t)] s2
  | at_partial s a t s1 s2 :
      interleaved p [] false new_txn s (Ok a) false t s1 → has_writes t = true →
      exec_all (queued t) s1 = (s2, false) → attempt p s (Some (Err IOError)) [(s1, queued t)] s2
  | at_unknown_applied s a t s1 s2 ok :
      interleaved p [] false new_txn s (Ok a) false t s1 → has_writes t = true →
      exec_all (queued t) s1 = (s2, ok) → attempt p s (Some (Err OutcomeUnknown)) [(s1, queued t)] s2
  | at_unknown_lost s a b t s' :
      interleaved p [] false new_txn s (Ok a) b t s' → has_writes t = true →
      attempt p s (Some (Err OutcomeUnknown)) [] s'.

(** [RedisMetaClient::Transact] with [retry_attempts_ = n]. *)
Inductive Transact {A : Type} (p : kv A) : nat → Store → result A → list (Store * list kv_write) → Store → Prop :=
  | tr_exhausted s : Transact p 0 s (Err Unavailable) [] s
  | tr_done n s r cs s' : attempt p s (Some r) cs s' → Transact p (S n) s r cs s'
  | tr_retry n s s1 r cs s' :
      attempt p s None [] s1 → Transact p n s1 r cs s' → Transact p (S n) s r cs s'.

(** Every read watches the keys it depends on ([ReadMode::kWatched], the default). *)
Definition watched_read (r : kv_read) : Prop := match r with RHGet _ _ w => w = true | _ => True end.
Fixpoint watched_only {A : Type} (p : kvprog A) : Prop :=
  match p with
  | Ret _ => True
  | Read r k => watched_read r ∧ ∀ v, watched_only (k v)
  | Write _ k => ∀ v, watched_only (k v)
  end.

(** ** Disciplines of callbacks *)
Fixpoint read_only {A : Type} (p : kvprog A) : Prop :=
  match p with Ret _ => True | Read _ k => ∀ v, read_only (k v) | Write _ _ => False end.
Fixpoint write_only {A : Type} (p : kvprog A) : Prop :=
  match p with Ret _ => True | Read _ _ => False | Write _ k => ∀ v, write_only (k v) end.
(** All reads come before the first write. *)
Fixpoint reads_first {A : Type} (p : kvprog A) : Prop :=
  match p with
  | Ret _ => True
  | Read _ k => ∀ v, reads_first (k v)
  | Write _ k => ∀ v, write_only (k v)
  end.

Lemma read_only_bind {A B : Type} (p : kvprog A) (f : A → kvprog B) :
  read_only p → (∀ a, read_only (f a)) → read_only (prog_bind p f).
Proof. induction p; cbn; try done; auto. Qed.
Lemma write_only_bind {A B : Type} (p : kvprog A) (f : A → kvprog B) :
  write_only p → (∀ a, write_only (f a)) → write_only (prog_bind p f).
Proof. induction p; cbn; try done; auto. Qed.
Lemma write_reads_first {A : Type} (p : kvprog A) : write_only p → reads_first p.
Proof. destruct p; cbn; try done; auto. Qed.
Lemma read_reads_first {A : Type} (p : kvprog A) : read_only p → reads_first p.
Proof. induction p; cbn; try done; auto. Qed.
Lemma reads_first_read {A B : Type} (p : kvprog A) (f : A → kvprog B) :
  read_only p → (∀ a, reads_first (f a)) → reads_first (prog_bind p f).
Proof. induction p; cbn; try done; auto. Qed.
Lemma reads_first_write {A B : Type} (p : kvprog A) (f : A → kvprog B) :
  reads_first p → (∀ a, write_only (f a)) → reads_first (prog_bind p f).
Proof. induction p; cbn; auto using write_reads_first, write_only_bind. Qed.
Lemma watched_only_bind {A B : Type} (p : kvprog A) (f : A → kvprog B) :
  watched_only p → (∀ a, watched_only (f a)) → watched_only (prog_bind p f).
Proof. induction p; cbn; [auto| |auto]. intros [? ?]. auto. Qed.

Lemma write_only_watched {A : Type} (p : kvprog A) : write_only p → watched_only p.
Proof. induction p; cbn; try done; auto. Qed.

(** The meaning of a callback when the read-after-write guard is dropped. *)
Fixpoint atomic_unguarded {A : Type} (d : dataset) (p : kvprog A) (t : RedisKvTxn) (out : A * RedisKvTxn) : Prop :=
  match p with
  | Ret a => out = (a, t)
  | Read r k =>
      match guard_read new_txn r with
      | Some v => atomic_unguarded d (k v) t out
      | None => ∃ ρ, (answers page_of d r ρ ∨ ρ = RpError) ∧ atomic_unguarded d (k (decode r ρ)) t out
      end
  | Write w k => atomic_unguarded d (k OK) (enqueue w t) out ∨ atomic_unguarded d (k IOError) t out
  end.

Lemma write_only_unguarded {A : Type} d (p : kvprog A) t out :
  write_only p → atomic d p t out ↔ atomic_unguarded d p t out.
Proof. revert t. induction p as [a|r k IH|w k IH]; intros t; cbn; [done|done|]. intros Hp. by rewrite !IH. Qed.

Lemma reads_first_unguarded {A : Type} d (p : kvprog A) t out :
  reads_first p → has_writes t = false → atomic d p t out ↔ atomic_unguarded d p t out.
Proof.
  revert t. induction p as [a|r k IH|w k IH]; intros t; cbn [atomic atomic_unguarded reads_first]; [done| |].
  - intros Hp Ht. replace (guard_read t r) with (guard_read new_txn r) by (unfold guard_read; by rewrite Ht).
    destruct (guard_read new_txn r); [by apply IH|].
    split; intros (ρ & ? & Ha); exists ρ; (split; [done|]); by apply IH.
  - intros Hp _. by rewrite !write_only_unguarded.
Qed.

Context `{!RedisLaws}.

(** A reply allowed on a dataset is allowed on any other that agrees on the watched keys. *)
Lemma answers_local d d' r ρ :
  watched_read r → (∀ k, k ∈ watched_keys r → d !! k = d' !! k) → answers page_of d r ρ → answers page_of d' r ρ.
Proof.
  intros Hw Hd. destruct r as [k|k|k f w|k|k|ks|k c n]; cbn in *; unfold hash_at;
    try (rewrite (Hd k) by (by left); done).
  - subst w. rewrite (Hd k) by (by left). done.
  - intros (l & Hl & ->). exists l. split; [|done]. clear -Hd Hl.
    induction Hl as [|k z ks l Hk Hl IH]; constructor.
    + unfold pttl_answers in *. by rewrite <- (Hd k) by (by left).
    + apply IH. intros. apply Hd. by right.
Qed.

(** The heart of the argument: when EXEC is not refused, all the reads of the attempt are
    still valid in the dataset EXEC runs on. *)
Lemma interleaved_atomic {A : Type} (p : kvprog A) W b t s a b' t' s' :
  interleaved p W b t s a b' t' s' → watched_only p → b' = false →
  b = false ∧ (∀ k, k ∈ W → view s !! k = view s' !! k) ∧ atomic (view s') p t (a, t').
Proof.
  induction 1 as [|p W b t s b1 s1 a b' t' s' [Hm Hk] _ IH|r k v W b t s a b' t' s' Hg _ IH
    |r k W b t s b1 s1 ρ a b' t' s' Hg [Hm Hk] Hρ _ IH|w k W b t s a b' t' s' _ IH|w k W b t s a b' t' s' _ IH];
    intros Hw Hb; cbn [watched_only] in Hw.
  - done.
  - destruct (IH Hw Hb) as (-> & HW & Ha). split_and!; [by destruct b; [specialize (Hm eq_refl)|]| |done].
    intros x Hx. rewrite Hk by done. by apply HW.
  - destruct Hw as [_ Hw]. destruct (IH (Hw v) Hb) as (? & ? & ?). split_and!; try done. cbn. by rewrite Hg.
  - destruct Hw as [Hr Hw]. destruct (IH (Hw _) Hb) as (-> & HW & Ha).
    split_and!; [by destruct b; [specialize (Hm eq_refl)|]| |].
    + intros x Hx. rewrite Hk by (done || (apply elem_of_app; by right)). apply HW, elem_of_app. by right.
    + cbn. rewrite Hg. exists ρ. split; [|done]. destruct Hρ as [->|Hρ]; [left|by right].
      eapply answers_local; [done| |apply read_answers]. intros x Hx. apply HW, elem_of_app. by left.
  - destruct (IH (Hw OK) Hb) as (? & ? & ?). split_and!; try done. by left.
  - destruct (IH (Hw IOError) Hb) as (? & ? & ?). split_and!; try done. by right.
Qed.

Lemma exec_all_view ws s : (view (exec_all ws s).1, (exec_all ws s).2) = apply_writes incr_string ws (view s).
Proof.
  revert s. induction ws as [|w ws IH]; intros s; cbn; [done|].
  pose proof (exec_view w s) as E. destruct (exec_write w s) as [s1 ok]. cbn in E. rewrite <- E.
  specialize (IH s1). destruct (exec_all ws s1) as [s2 oks]. cbn in IH |- *. by rewrite <- IH.
Qed.

Lemma run_atomic {A : Type} s (p : kvprog A) t : atomic (view s) p t (run s p t).
Proof.
  revert t. induction p as [a|r k IH|w k IH]; intros t; cbn; [done| |by left].
  destruct (guard_read t r); [done|]. exists (read_reply r s). split; [left; apply read_answers|done].
Qed.

(** An undisturbed attempt. *)
Lemma interleaved_run {A : Type} (p : kvprog A) W t s a t' :
  run s p t = (a, t') → interleaved p W false t s a false t' s.
Proof.
  revert W t. induction p as [x|r k IH|w k IH]; intros W t; cbn [run].
  - intros [= <- <-]. apply il_ret.
  - destruct (guard_read t r) as [v|] eqn:Hg; intros E; [eapply il_guard; [done|by apply IH]|].
    eapply (il_read r k W false t s false s); [done|by split|by left|by apply IH].
  - intros E. by apply il_write, IH.
Qed.

Lemma transact_now_eq {A : Type} (p : kv A) s a s' :
  transact_now p s = (Ok a, s') →
  ∃ t, run s p new_txn = (Ok a, t) ∧ view s' = (apply_writes incr_string (queued t) (view s)).1.
Proof.
  unfold transact_now. destruct (run s p new_txn) as [[b|e] t]; [|done].
  pose proof (exec_all_view (queued t) s) as E. destruct (exec_all (queued t) s) as [s2 ok]; cbn in E.
  destruct ok; [|done]. intros [= -> ->]. exists t. by rewrite <- E.
Qed.

(** A committed transaction, seen by everybody else as one step from [d] to [d']. *)
Definition commits {A : Type} (p : kv A) (d : dataset) (a : A) (d' : dataset) : Prop :=
  ∃ t, atomic d p new_txn (Ok a, t) ∧ d' = (apply_writes incr_string (queued t) d).1.

Lemma commits_intro {A : Type} (p : kv A) d a t :
  atomic d p new_txn (Ok a, t) → commits p d a (apply_writes incr_string (queued t) d).1.
Proof. intros Ha. by exists t. Qed.

(** ** Inversion of atomic runs *)
Lemma atomic_bind {A B : Type} d (p : kvprog A) (f : A → kvprog B) t out :
  atomic d (prog_bind p f) t out ↔ ∃ a t1, atomic d p t (a, t1) ∧ atomic d (f a) t1 out.
Proof.
  revert t. induction p as [a|r k IH|w k IH]; intros t; cbn.
  - split; [eauto|]. by intros (? & ? & [= -> ->] & ?).
  - destruct (guard_read t r); [apply IH|]. split.
    + intros (ρ & Hρ & (a & t1 & ? & ?)%IH). eauto 10.
    + intros (a & t1 & (ρ & Hρ & ?) & ?). exists ρ. split; [done|]. apply IH. eauto.
  - rewrite !IH. split.
    + intros [(a & t1 & ? & ?)|(a & t1 & ? & ?)]; eauto 10.
    + intros (a & t1 & [?|?] & ?); [left|right]; eauto.
Qed.

Lemma atomic_kv_bind {A B : Type} d (m : kv A) (f : A → kv B) t b t' :
  atomic d (m ≫= f) t (Ok b, t') ↔ ∃ a t1, atomic d m t (Ok a, t1) ∧ atomic d (f a) t1 (Ok b, t').
Proof.
  unfold mbind, kv_bind. rewrite atomic_bind. split.
  - intros ([a|s] & t1 & H1 & H2); [eauto|done].
  - intros (a & t1 & H1 & H2). by exists (Ok a), t1.
Qed.

Lemma atomic_kv_bind_Err {A B : Type} d (m : kv A) (f : A → kv B) t e t' :
  atomic d (m ≫= f) t (Err e, t') →
  atomic d m t (Err e, t') ∨ ∃ a t1, atomic d m t (Ok a, t1) ∧ atomic d (f a) t1 (Err e, t').
Proof.
  unfold mbind, kv_bind. rewrite atomic_bind. intros ([a|s] & t1 & H1 & H2); [right; eauto|].
  injection H2 as -> ->. by left.
Qed.

Lemma atomic_kv_try {A B : Type} d (m : kv A) (f : result A → kv B) t out :
  atomic d (kv_try m f) t out ↔ ∃ r t1, atomic d m t (r, t1) ∧ atomic d (f r) t1 out.
Proof. apply atomic_bind. Qed.

Lemma atomic_lift {A : Type} d (r r' : result A) t t' : atomic d (kv_lift r) t (r', t') ↔ r' = r ∧ t' = t.
Proof. cbn. split; [by intros [= -> ->]|by intros [-> ->]]. Qed.

Lemma atomic_ret {A : Type} d (a : A) (r : result A) t t' : atomic d (mret (M := kv) a) t (r, t') ↔ r = Ok a ∧ t' = t.
Proof. apply atomic_lift. Qed.

Lemma atomic_check d s u t t' : atomic d (kv_check s) t (Ok u, t') ↔ s = OK ∧ t' = t.
Proof. unfold kv_check. rewrite atomic_lift. split; intros [E ->]; (split; [|done]).
  - symmetry in E. by apply check_Ok in E.
  - subst s. by destruct u.
Qed.

Lemma atomic_fail_if d b s u t t' : atomic d (kv_fail_if b s) t (Ok u, t') ↔ b = false ∧ t' = t.
Proof. unfold kv_fail_if. rewrite atomic_lift. split; intros [E ->]; (split; [|done]).
  - symmetry in E. by apply fail_if_Ok in E.
  - subst b. by destruct u.
Qed.

Lemma atomic_queue d w t r t' :
  atomic d (queue w) t (r, t') → r = Ok tt ∧ t' = enqueue w t ∨ r = Err IOError ∧ t' = t.
Proof. cbn. intros [[= -> ->]|[= -> ->]]; [left|right]; done. Qed.

Lemma atomic_queue_Ok d w t u t' : atomic d (queue w) t (Ok u, t') ↔ t' = enqueue w t.
Proof.
  split; [by intros [[_ ?]|[? _]]%atomic_queue|]. intros ->. cbn. left. by destruct u.
Qed.

(** The outcomes of GET and HGET. *)
Definition lookup_outcome (t : RedisKvTxn) (value : option (option bytes)) (r : result bytes) : Prop :=
  (has_writes t = false ∧ match value with
                         | Some (Some s) => r = Ok s
                         | Some None => r = Err NotFound
                         | None => r = Err IOError
                         end) ∨ r = Err IOError ∨ (has_writes t = true ∧ r = Err InvalidArgument).

Definition string_at (d : dataset) (k : bytes) : option (option bytes) :=
  match d !! k with
  | None => Some None
  | Some (RVStr s _) => Some (Some s)
  | Some _ => None
  end.
Definition field_at (d : dataset) (k f : bytes) : option (option bytes) :=
  match hash_at d k with Some h => Some (h !! f) | None => None end.

Lemma atomic_Get d k t r t' : atomic d (Get k) t (r, t') → t' = t ∧ lookup_outcome t (string_at d k) r.
Proof.
  unfold lookup_outcome, string_at, Get. cbn [atomic]. unfold guard_read. destruct (has_writes t) eqn:Hw; cbn.
  - intros [= -> ->]. split; [done|]. right. by right.
  - intros (ρ & [Hρ| ->] & [= -> ->]); (split; [done|]); [left|right; by left].
    split; [done|]. destruct (d !! k) as [[]|]; by subst ρ.
Qed.

Lemma atomic_HGet d k f t r t' : atomic d (HGet k f) t (r, t') → t' = t ∧ lookup_outcome t (field_at d k f) r.
Proof.
  unfold lookup_outcome, field_at, HGet. cbn [atomic]. unfold guard_read. destruct (has_writes t) eqn:Hw; cbn.
  - intros [= -> ->]. split; [done|]. right. by right.
  - intros (ρ & [Hρ| ->] & [= -> ->]); (split; [done|]); [left|right; by left].
    split; [done|]. destruct (hash_at d k) as [h|]; [|by subst ρ]. destruct (h !! f); by subst ρ.
Qed.

Lemma atomic_Get_Ok d k t s t' :
  atomic d (Get k) t (Ok s, t') → t' = t ∧ has_writes t = false ∧ string_at d k = Some (Some s).
Proof.
  intros [-> Ho]%atomic_Get. split; [done|]. destruct Ho as [[? Ho]|[?|[_ ?]]]; [|done..].
  split; [done|]. destruct (string_at d k) as [[]|]; by simplify_eq.
Qed.

Lemma atomic_HGet_Ok d k f t s t' :
  atomic d (HGet k f) t (Ok s, t') → t' = t ∧ has_writes t = false ∧ field_at d k f = Some (Some s).
Proof.
  intros [-> Ho]%atomic_HGet. split; [done|]. destruct Ho as [[? Ho]|[?|[_ ?]]]; [|done..].
  split; [done|]. destruct (field_at d k f) as [[]|]; by simplify_eq.
Qed.

Lemma lookup_NotFound t v : lookup_outcome t v (Err NotFound) → has_writes t = false ∧ v = Some None.
Proof. intros [[? Ho]|[?|[_ ?]]]; [|done..]. split; [done|]. destruct v as [[]|]; by simplify_eq. Qed.

Lemma atomic_HLen d k t n t' :
  atomic d (HLen k) t (Ok n, t') →
  t' = t ∧ has_writes t = false ∧ ∃ h, hash_at d k = Some h ∧ n = Z.of_nat (base.size h).
Proof.
  unfold HLen. cbn [atomic]. unfold guard_read. destruct (has_writes t); cbn; [done|].
  intros (ρ & [Hρ| ->] & E); [|done]. destruct (hash_at d k) as [h|]; subst ρ; [|done].
  cbn in E. injection E as -> ->. eauto.
Qed.

Lemma atomic_ListPrefix d k t l t' :
  atomic d (ListPrefix k) t (Ok l, t') →
  t' = t ∧ has_writes t = false ∧
  (d !! k = None ∧ l = [] ∨ ∃ l', d !! k = Some (RVList l') ∧ l = take 1 l').
Proof.
  unfold ListPrefix. cbn [atomic]. unfold guard_read. destruct (has_writes t); cbn; [done|].
  intros (ρ & [Hρ| ->] & E); [|done]. destruct (d !! k) as [[]|]; subst ρ; try done;
    cbn in E; injection E as -> ->; eauto 10.
Qed.

Lemma atomic_HGetAll d k t l t' :
  atomic d (HGetAll k) t (Ok l, t') →
  t' = t ∧ has_writes t = false ∧ ∃ h, hash_at d k = Some h ∧ l ≡ₚ map_to_list h.
Proof.
  unfold HGetAll. cbn [atomic]. unfold guard_read. destruct (has_writes t); cbn; [done|].
  intros (ρ & [Hρ| ->] & E); [|done]. destruct (hash_at d k) as [h|]; [|by subst ρ].
  destruct Hρ as (l' & Hl & ->). cbn in E. injection E as -> ->. eauto.
Qed.

Lemma atomic_PttlBatch d ks t l t' :
  atomic d (PttlBatch ks) t (Ok l, t') → t' = t ∧ has_writes t = false ∧ Forall2 (pttl_answers d) ks l.
Proof.
  unfold PttlBatch. cbn [atomic]. unfold guard_read. destruct (has_writes t); cbn; [done|].
  destruct ks as [|k ks]; cbn; [by intros [= -> ->]|].
  intros (ρ & [(l' & Hl & ->)| ->] & E); [|done]. cbn in E.
  destruct l' as [|z l']; [by inversion Hl|]. cbn in E.
  destruct (Nat.eqb _ _); cbn in E; [|done]. injection E as -> ->. done.
Qed.

Lemma atomic_HScan d k c n t r t' :
  atomic d (HScan k c n) t (r, t') →
  t' = t ∧ (∀ l next, r = Ok (l, next) → has_writes t = false ∧ ∃ h, hash_at d k = Some h ∧ page_of h c l next) ∧
  (∀ e, r = Err e → e = IOError ∨ has_writes t = true ∧ e = InvalidArgument).
Proof.
  unfold HScan. cbn [atomic]. unfold guard_read. destruct (has_writes t) eqn:Hw; cbn.
  - intros [= -> ->]. split; [done|]. split; [done|]. intros ? [= <-]. by right.
  - intros (ρ & Hρ & E). split; [by destruct (as_page _); injection E|].
    assert (ρ = RpError ∨ ∃ h l next, hash_at d k = Some h ∧ page_of h c l next ∧ ρ = RpPage l next) as Hc.
    { destruct Hρ as [Hρ|Hρ]; [|by left]. destruct (hash_at d k) as [h|]; [|by left].
      destruct Hρ as (l & next & ? & ->). right. eauto 10. }
    destruct Hc as [->|(h & l & next & Hh & Hp & ->)]; cbn in E; injection E as -> ->; (split; [|by intros ? [= <-]; left]);
      intros ?? [= <- <-]; eauto.
Qed.

(** ** Hash fields *)
Definition is_hash (v : option rvalue) : Prop := match v with None | Some (RVHash _) => True | _ => False end.

Lemma hash_at_fields d k h : hash_at d k = Some h → is_hash (d !! k) ∧ ∀ f, field_of (d !! k) f = h !! f.
Proof. unfold hash_at, is_hash, field_of. destruct (d !! k) as [[]|]; intros; simplify_eq; by rewrite ?lookup_empty. Qed.

Lemma field_hset k f s v :
  is_hash v → is_hash (write_value incr_string (WHSet k f s) v) ∧
  ∀ g, field_of (write_value incr_string (WHSet k f s) v) g = if decide (g = f) then Some s else field_of v g.
Proof.
  unfold is_hash, field_of. destruct v as [[]|]; cbn; try done; intros _; (split; [done|]); intros g; case_decide; subst;
    rewrite ?lookup_insert_eq, ?lookup_insert_ne, ?lookup_singleton_eq, ?lookup_singleton_ne by done; done.
Qed.

Lemma field_hdel k f v :
  is_hash v → is_hash (write_value incr_string (WHDel k f) v) ∧
  ∀ g, field_of (write_value incr_string (WHDel k f) v) g = if decide (g = f) then None else field_of v g.
Proof.
  unfold is_hash, field_of. destruct v as [[]|]; cbn; try done; intros _; [|split; [done|]; intros g; by case_decide].
  case_decide as E; (split; [done|]); intros g; case_decide; subst; rewrite ?lookup_delete_eq, ?lookup_delete_ne by done; try done.
  by rewrite <- (lookup_delete_ne h f g), E, lookup_empty by done.
Qed.

Lemma writes_frame K ws d k :
  Forall (λ w, write_key w = K) ws → k ≠ K → (apply_writes incr_string ws d).1 !! k = d !! k.
Proof.
  intros Hw Hk. rewrite lookup_apply_writes. apply key_after_frame. eapply Forall_impl; [exact Hw|]. cbn. congruence.
Qed.

(** The dataset after the queue of a transaction. *)
Definition after (t : RedisKvTxn) (d : dataset) : dataset := (apply_writes incr_string (queued t) d).1.

Lemma apply_writes_snoc ws w d :
  (apply_writes incr_string (ws ++ [w]) d).1 = (apply_write incr_string w (apply_writes incr_string ws d).1).1.
Proof.
  apply map_eq. intros k. by rewrite lookup_apply_writes, lookup_apply_write, lookup_apply_writes, key_after_app.
Qed.
Lemma after_enqueue w t d : after (enqueue w t) d = (apply_write incr_string w (after t d)).1.
Proof. apply apply_writes_snoc. Qed.

(** What the recorded executions of a [Transact] are: at most one, of a queue the callback
    produced atomically on the very dataset it was executed in. *)
Definition serialized {A : Type} (p : kv A) (r : result A) (cs : list (Store * list kv_write)) (s' : Store) : Prop :=
  match cs with
  | [] => ∀ a, r = Ok a → ∃ d t, atomic d p new_txn (Ok a, t) ∧ has_writes t = false
  | [(sc, ws)] =>
      ∃ a t, atomic (view sc) p new_txn (Ok a, t) ∧ ws = queued t ∧
        view s' = (apply_writes incr_string ws (view sc)).1 ∧
        (r = Ok a ∨ r = Err IOError ∨ r = Err OutcomeUnknown)
  | _ => False
  end.

Lemma attempt_serialized {A : Type} (p : kv A) s o cs s' :
  watched_only p → attempt p s o cs s' →
  match o with Some r => serialized p r cs s' | None => cs = [] end.
Proof.
  intros Hw. destruct 1 as [| | | |s a t s' Hi Hn|s a b t s' e Hi Hn He|s a t s1 s2 Hi Hn Hx|s a t s1 s2 Hi Hn Hx
    |s a t s1 s2 ok Hi Hn Hx|]; cbn; try done.
  - intros ? [= <-]. destruct (interleaved_atomic _ _ _ _ _ _ _ _ _ Hi Hw eq_refl) as (_ & _ & ?). eauto.
  - destruct (interleaved_atomic _ _ _ _ _ _ _ _ _ Hi Hw eq_refl) as (_ & _ & ?). exists a, t.
    pose proof (exec_all_view (queued t) s1) as E. rewrite Hx in E. cbn in E. rewrite <- E. eauto 10.
  - destruct (interleaved_atomic _ _ _ _ _ _ _ _ _ Hi Hw eq_refl) as (_ & _ & ?). exists a, t.
    pose proof (exec_all_view (queued t) s1) as E. rewrite Hx in E. cbn in E. rewrite <- E. eauto 10.
  - destruct (interleaved_atomic _ _ _ _ _ _ _ _ _ Hi Hw eq_refl) as (_ & _ & ?). exists a, t.
    pose proof (exec_all_view (queued t) s1) as E. rewrite Hx in E. cbn in E. rewrite <- E. eauto 10.
Qed.

Lemma Transact_serialized {A : Type} (p : kv A) n s r cs s' :
  watched_only p → Transact p n s r cs s' → serialized p r cs s'.
Proof.
  intros Hw. induction 1 as [|n s r cs s' Ha|]; [done| |done].
  by apply (attempt_serialized p s (Some r) cs s').
Qed.

(** C10: optimistic transactions are serialisable.  Whatever other clients do between the
    commands of an attempt and between attempts, [Transact] executes at most one queue,
    on a dataset on which the callback, run atomically, would have queued exactly it; a
    reported success is the callback's own result on that dataset, and every status other
    than success, [IOError] and [OutcomeUnknown] means that nothing was executed. *)
Theorem Transact_serializable {A : Type} (p : kv A) n s r cs s' :
  watched_only p → Transact p n s r cs s' → serialized p r cs s'.
Proof. apply Transact_serialized. Qed.
End Transactions.

(** Decompose a successful atomic run call by call. *)
Ltac inv_kv :=
  repeat match goal with
  | H : atomic _ (_ ≫= _) _ (Ok _, _) |- _ => apply atomic_kv_bind in H as (? & ? & ? & H)
  | H : atomic _ (kv_lift _) _ _ |- _ => apply atomic_lift in H as [? ->]
  | H : atomic _ (mret _) _ _ |- _ => apply atomic_ret in H as [? ->]
  | H : atomic _ (kv_check _) _ _ |- _ => apply atomic_check in H as [? ->]
  | H : atomic _ (kv_fail_if _ _) _ _ |- _ => apply atomic_fail_if in H as [? ->]
  | H : atomic _ (kv_fail _) _ (Ok _, _) |- _ => discriminate H
  | H : atomic _ (Get _) _ (Ok _, _) |- _ => apply atomic_Get_Ok in H as (-> & ? & ?)
  | H : atomic _ (HGet _ _) _ (Ok _, _) |- _ => apply atomic_HGet_Ok in H as (-> & ? & ?)
  | H : atomic _ (HLen _) _ (Ok _, _) |- _ => apply atomic_HLen in H as (-> & ? & ? & ? & ?)
  | H : atomic _ (HGetAll _) _ (Ok _, _) |- _ => apply atomic_HGetAll in H as (-> & ? & ? & ? & ?)
  | H : atomic _ (PttlBatch _) _ (Ok _, _) |- _ => apply atomic_PttlBatch in H as (-> & ? & ?)
  | H : atomic _ (ListPrefix _) _ (Ok _, _) |- _ => apply atomic_ListPrefix in H as (-> & ? & ?)
  | H : atomic _ (Set_ _ _) _ (Ok _, _) |- _ => apply atomic_queue_Ok in H as ->
  | H : atomic _ (RPush _ _) _ (Ok _, _) |- _ => apply atomic_queue_Ok in H as ->
  | H : atomic _ (HSet _ _ _) _ (Ok _, _) |- _ => apply atomic_queue_Ok in H as ->
  | H : atomic _ (HDel _ _) _ (Ok _, _) |- _ => apply atomic_queue_Ok in H as ->
  | H : atomic _ (IncrBy _ _) _ (Ok _, _) |- _ => apply atomic_queue_Ok in H as ->
  | H : atomic _ (Del _) _ (Ok _, _) |- _ => apply atomic_queue_Ok in H as ->
  | H : Ok _ = Ok _ |- _ => injection H as H
  | H : Ok _ = Err _ |- _ => discriminate H
  | H : Err _ = Ok _ |- _ => discriminate H
  | H : Ok _ = ?r |- _ => symmetry in H
  | H : tt = tt |- _ => clear H
  end.

(** Discipline proofs go through a callback call by call; operations with a lemma in
    [kvdisc] are not unfolded. *)
Lemma read_only_kv {A B : Type} (m : kv A) (f : A → kv B) :
  read_only m → (∀ a, read_only (f a)) → read_only (m ≫= f).
Proof. intros Hm Hf. apply read_only_bind; [done|]. intros [a|s]; [apply Hf|done]. Qed.
Lemma write_only_kv {A B : Type} (m : kv A) (f : A → kv B) :
  write_only m → (∀ a, write_only (f a)) → write_only (m ≫= f).
Proof. intros Hm Hf. apply write_only_bind; [done|]. intros [a|s]; [apply Hf|done]. Qed.
Lemma reads_first_read_kv {A B : Type} (m : kv A) (f : A → kv B) :
  read_only m → (∀ a, reads_first (f a)) → reads_first (m ≫= f).
Proof. intros Hm Hf. apply reads_first_read; [done|]. intros [a|s]; [apply Hf|done]. Qed.
Lemma reads_first_write_kv {A B : Type} (m : kv A) (f : A → kv B) :
  reads_first m → (∀ a, write_only (f a)) → reads_first (m ≫= f).
Proof. intros Hm Hf. apply reads_first_write; [done|]. intros [a|s]; [apply Hf|done]. Qed.
Lemma watched_only_kv {A B : Type} (m : kv A) (f : A → kv B) :
  watched_only m → (∀ a, watched_only (f a)) → watched_only (m ≫= f).
Proof. intros Hm Hf. apply watched_only_bind; [done|]. intros [a|s]; [apply Hf|done]. Qed.

Create HintDb kvdisc.
Ltac disc_step :=
  match goal with
  | |- ∀ _, _ => intro
  | |- read_only (_ ≫= _) => apply read_only_kv
  | |- read_only (kv_try _ _) => apply read_only_bind
  | |- write_only (_ ≫= _) => apply write_only_kv
  | |- write_only (kv_try _ _) => apply write_only_bind
  | |- watched_only (_ ≫= _) => apply watched_only_kv
  | |- watched_only (kv_try _ _) => apply watched_only_bind
  | |- _ (match ?x with _ => _ end) => destruct x
  | |- _ => solve [eauto 2 with kvdisc nocore]
  | |- _ => solve [cbn; repeat split; intros; repeat split; exact I || reflexivity]
  end.
Ltac disc := cbv zeta; repeat disc_step.
Ltac disc_first :=
  cbv zeta;
  match goal with
  | |- ∀ _, _ => intro; disc_first
  | |- reads_first (_ ≫= _) =>
      first [apply reads_first_read_kv; [solve [disc]|disc_first]
            |apply reads_first_write_kv; [disc_first|solve [disc]]]
  | |- reads_first (kv_try _ _) =>
      first [apply reads_first_read; [solve [disc]|disc_first]
            |apply reads_first_write; [disc_first|solve [disc]]]
  | |- reads_first (match ?x with _ => _ end) => destruct x; disc_first
  | |- _ => solve [eauto 2 with kvdisc nocore]
  | |- _ => solve [apply read_reads_first; disc]
  | |- _ => solve [apply write_reads_first; disc]
  end.

(** ** A server: one dataset, single-page scans *)
Definition single_page (h : gmap bytes bytes) (c : Z) (l : list (bytes * bytes)) (next : Z) : Prop :=
  c = 0 ∧ l = map_to_list h ∧ next = 0 ∨ c ≠ 0 ∧ l = [] ∧ next = 0.
Definition decimal_incr (s : bytes) (z : Z) : option bytes :=
  match from_chars s with
  | Some n => if (0 <=? n + z) && (n + z <=? INT64_MAX) then Some (to_string (n + z)) else None
  | None => None
  end.

Definition dataset_reply (r : kv_read) (d : dataset) : reply :=
  match r with
  | RGet k => match d !! k with None => RpNil | Some (RVStr s _) => RpBulk s | Some _ => RpError end
  | RListPrefix k => match d !! k with
                     | None => RpStrings []
                     | Some (RVList l) => RpStrings (take 1 l)
                     | Some _ => RpError
                     end
  | RHGet k f _ => match hash_at d k with
                   | Some h => match h !! f with Some v => RpBulk v | None => RpNil end
                   | None => RpError
                   end
  | RHLen k => match hash_at d k with Some h => RpInt (Z.of_nat (size h)) | None => RpError end
  | RHGetAll k => match hash_at d k with Some h => RpPairs (map_to_list h) | None => RpError end
  | RPttlBatch ks =>
      RpInts ((λ k, match d !! k with None => -2 | Some (RVStr _ true) => 1000 | Some _ => -1 end) <$> ks)
  | RHScan k c _ => match hash_at d k with
                    | Some h => RpPage (if c =? 0 then map_to_list h else []) 0
                    | None => RpError
                    end
  end.

#[export] Instance DatasetRedis : Redis := {|
  Store := dataset;
  view d := d;
  read_reply := dataset_reply;
  exec_write w d := apply_write decimal_incr w d;
  page_of := single_page;
  incr_string := decimal_incr;
|}.

Lemma single_page_chain h c l c' n : scan_chain single_page h c l c' n → n = 1%nat ∧ c' = 0 ∧ single_page h c l 0.
Proof.
  destruct 1 as [c l c' Hp|c l c' l' c'' n Hp Hne _].
  - destruct Hp as [(-> & -> & ->)|(? & -> & ->)]; (split; [done|]); (split; [done|]); [by left|by right].
  - destruct Hp as [(_ & _ & ->)|(_ & _ & ->)]; done.
Qed.

#[export] Instance DatasetRedisLaws : RedisLaws (H := DatasetRedis).
Proof.
  refine {| scan_bound := λ _, 1%nat |}.
  - intros s r. change Store with dataset in s. destruct r as [k|k|k f w|k|k|ks|k c n]; cbn [read_reply DatasetRedis view page_of answers dataset_reply].
    + destruct (s !! k) as [[]|]; done.
    + destruct (s !! k) as [[]|]; done.
    + destruct (hash_at s k) as [h|]; done.
    + destruct (hash_at s k) as [h|]; done.
    + destruct (hash_at s k) as [h|]; eauto.
    + eexists. split; [|done]. induction ks as [|k ks IH]; cbn; constructor; [|done].
      unfold pttl_answers. destruct (s !! k) as [[? []| |]|]; done.
    + destruct (hash_at s k) as [h|]; [|done]. eexists _, 0. split; [|done].
      destruct (Z.eqb_spec c 0); [left|right]; by split_and!.
  - intros w s. cbn. by destruct (apply_write decimal_incr w s).
  - intros h c l c' [(_ & -> & _)|(_ & -> & _)] f v; [by apply elem_of_map_to_list|by intros ?%elem_of_nil].
  - intros h l n Hc f v. apply single_page_chain in Hc as (_ & _ & [(_ & -> & _)|(? & _)]); [|done].
    by apply elem_of_map_to_list.
  - intros h c l n Hc Hne. by apply single_page_chain in Hc as (_ & ? & _).
  - intros n z Hn Hz. unfold incr_string, DatasetRedis, decimal_incr.
    rewrite from_chars_to_string by (unfold in_range, INT64_MAX in *; lia).
    by destruct (Z.leb_spec 0 (n + z)); [|lia].
Defined.

(** What the reference server computes is an atomic commit. *)
Lemma commits_run {A : Type} (p : kv A) (d : dataset) a t :
  run (H := DatasetRedis) d p new_txn = (Ok a, t) →
  commits (H := DatasetRedis) p d a (apply_writes decimal_incr (queued t) d).1.
Proof. intros E. apply (commits_intro (H := DatasetRedis)). rewrite <- E. apply (run_atomic (H := DatasetRedis)). Qed.

(** Create a key unless it exists, uncontended. *)
Definition create_once (k v : bytes) : kv unit :=
  kv_try (Get k) (λ r, match r with Err NotFound => Set_ k v | _ => kv_fail AlreadyExists end).

Lemma Transact_serializable_witness :
  serialized (H := DatasetRedis) (create_once (lit "k") (lit "v")) (Ok tt)
    [(∅, [WSet (lit "k") (lit "v")])] (<[lit "k" := RVStr (lit "v") false]> ∅).
Proof.
  apply (Transact_serializable (H := DatasetRedis) (create_once (lit "k") (lit "v")) 1 ∅).
  - split; [done|]. intros [[]|[]]; cbn; done.
  - apply tr_done. apply (at_commit (H := DatasetRedis) _ ∅ tt (mkTxn true [WSet (lit "k") (lit "v")]) ∅); [|done|done].
    unfold create_once, kv_try, Get. cbn [prog_bind].
    apply (il_read (H := DatasetRedis) _ _ _ _ _ _ false ∅ RpNil); [done|by split|by left|].
    apply il_write. apply il_ret.
Defined.
