(* ===== verification/ChunkMeta.v ===== *)
(** * Chunk-private metadata on Redis

    The identity counters of RedisMetaClient.cpp, the slice index of
    RedisSliceChunkMetadata.cpp (one Redis list per chunk) and the COW head register of
    RedisCOWChunkMetadata.cpp.  Identities are never reused, a slice index refines an
    append-only log per chunk, and a COW head only moves forward until it is erased. *)

From S2P Require Import Prelude Decimal ChunkGeometry SliceHistory InodeTypes Codec Records RedisKey RedisKv.

Section ChunkMeta.
Context `{Redis} `{FollyFormat} `{FollyIO} (prefix : bytes) (chunk_size : Z).

(** ** RedisMetaClient: counters and lists *)
Definition IncrExistingNonNegative (key : bytes) : kv Z :=
  raw ← Get key;
  match from_chars raw with
  | None => kv_fail Malformed
  | Some current =>
      if current >=? INT64_MAX then kv_fail Malformed else
      let allocated := current + 1 in
      _ ← Set_ key (to_string allocated);
      mret allocated
  end.

Definition CreateListWithFirstRecord (key value : bytes) : kv unit :=
  prefix ← ListPrefix key;
  _ ← kv_fail_if (negb (bool_decide (prefix = []))) AlreadyExists;
  RPush key value.

(** Commands sent outside a transaction: the server's answer and effect. *)
Definition incr_reply (d : dataset) (key : bytes) : result Z :=
  match d !! key with
  | Some (RVStr s _) => match from_chars s with Some n => Ok n | None => Err IOError end
  | _ => Err IOError
  end.

(** INCR, atomic on the server; a reply that is lost is the caller's [OutcomeUnknown]. *)
Definition Incr (key : bytes) (d : dataset) : result Z * dataset :=
  match apply_write incr_string (WIncrBy key 1) d with
  | (d', true) => (incr_reply d' key, d')
  | (_, false) => (Err IOError, d)
  end.

(** [kIncrNonNegativeScript], run atomically by the server. *)
Definition negative_text (s : bytes) : bool := bool_decide (take 1 s = lit "-").
Definition IncrNonNegative (key : bytes) (d : dataset) : result Z * dataset :=
  match d !! key with
  | None => Incr key d
  | Some (RVStr current _) => if negative_text current then (Err IOError, d) else Incr key d
  | Some _ => (Err IOError, d)
  end.

(** RPUSHX. *)
Definition RPushExisting (key value : bytes) (d : dataset) : result unit * dataset :=
  match d !! key with
  | None => (Err NotFound, d)
  | Some (RVList l) => (Ok tt, <[key := RVList (l ++ [value])]> d)
  | Some _ => (Err IOError, d)
  end.

(** LRANGE 0 -1. *)
Definition LRange (key : bytes) (d : dataset) : result (list bytes) :=
  match d !! key with
  | None => Ok []
  | Some (RVList l) => Ok l
  | Some _ => Err IOError
  end.

(** A write command and what the caller may see of it: a lost reply is [OutcomeUnknown]
    whether or not the server executed the command. *)
Inductive command {A : Type} (exec : dataset → result A * dataset) : dataset → result A → dataset → Prop :=
  | cmd_reply d r d' : exec d = (r, d') → command exec d r d'
  | cmd_refused d : command exec d (Err IOError) d
  | cmd_lost d : command exec d (Err OutcomeUnknown) d
  | cmd_unacknowledged d r d' : exec d = (r, d') → command exec d (Err OutcomeUnknown) d'.

(** ** RedisSliceChunkMetadata *)
Definition Slice_AllocateChunkID : kv Z := IncrExistingNonNegative (NextChunkID prefix).
Definition AllocateSliceID : kv Z := IncrExistingNonNegative (NextSliceID prefix).

Definition check_argument (s : Status) : result unit := fail_if (negb (ok s)) InvalidArgument.

Definition CreateIndex (chunk_id : Z) (first_record : SliceRecord) : kv unit :=
  _ ← kv_fail_if (negb (IsValidChunkID chunk_id)) InvalidArgument;
  _ ← kv_lift (check_argument (ValidateRecord first_record chunk_size));
  CreateListWithFirstRecord (IndexKey prefix chunk_id) (EncodeRecord first_record).

Fixpoint DecodeRecords (encoded : list bytes) : result (list SliceRecord) :=
  match encoded with
  | [] => Ok []
  | e :: rest =>
      record ← DecodeRecord e chunk_size;
      records ← DecodeRecords rest;
      Ok (record :: records)
  end.

Definition ReadRecords (chunk_id : Z) (d : dataset) : result (list SliceRecord) :=
  _ ← fail_if (negb (IsValidChunkID chunk_id)) InvalidArgument;
  encoded ← LRange (IndexKey prefix chunk_id) d;
  _ ← fail_if (bool_decide (encoded = [])) NotFound;
  DecodeRecords encoded.

Definition AppendRecord (chunk_id : Z) (record : SliceRecord) (d : dataset) : result unit * dataset :=
  if negb (IsValidChunkID chunk_id) then (Err InvalidArgument, d) else
  if negb (ok (ValidateRecord record chunk_size)) then (Err InvalidArgument, d) else
  RPushExisting (IndexKey prefix chunk_id) (EncodeRecord record) d.

(** ** RedisCOWChunkMetadata *)
Definition COW_AllocateChunkID (d : dataset) : result Z * dataset := IncrNonNegative (NextChunkID prefix) d.

Definition AllocateRevision (chunk_id : Z) (d : dataset) : result Z * dataset :=
  if negb (IsValidChunkID chunk_id) then (Err InvalidArgument, d)
  else IncrNonNegative (RevisionKey prefix chunk_id) d.

Definition GetHead (chunk_id : Z) (d : dataset) : result COWChunkHead :=
  _ ← fail_if (negb (IsValidChunkID chunk_id)) InvalidArgument;
  match d !! HeadKey prefix chunk_id with
  | None => Err NotFound
  | Some (RVStr encoded _) => DecodeHead encoded
  | Some _ => Err IOError
  end.



(** ** Identity allocation *)
(** A history of one counter: allocations by any client through either command, whose
    identity reached its caller ([al_incr], [al_script]) or was lost with the reply
    ([al_burnt]), and commands that do not touch the counter. *)
Inductive allocates (key : bytes) : dataset → list Z → dataset → Prop :=
  | al_end d : allocates key d [] d
  | al_incr d v d1 ids d2 :
      commits (IncrExistingNonNegative key) d v d1 → allocates key d1 ids d2 → allocates key d (v :: ids) d2
  | al_script d v d1 ids d2 :
      IncrNonNegative key d = (Ok v, d1) → allocates key d1 ids d2 → allocates key d (v :: ids) d2
  | al_burnt d v d1 ids d2 :
      commits (IncrExistingNonNegative key) d v d1 ∨ IncrNonNegative key d = (Ok v, d1) →
      allocates key d1 ids d2 → allocates key d ids d2
  | al_other d d1 ids d2 :
      string_at d1 key = string_at d key → allocates key d1 ids d2 → allocates key d ids d2.

Definition counter_at (d : dataset) (key : bytes) (n : Z) : Prop :=
  0 ≤ n ≤ INT64_MAX ∧ string_at d key = Some (Some (to_string n)).

Context `{!RedisLaws} `{!FollyFormatLaws} `{!FollyIOLaws}.

Lemma IncrExistingNonNegative_commits key d n v d' :
  counter_at d key n → commits (IncrExistingNonNegative key) d v d' → v = n + 1 ∧ counter_at d' key v.
Proof.
  intros [Hn Hd] (t & Ha & ->). unfold IncrExistingNonNegative in Ha. inv_kv.
  assert (x = to_string n) as -> by congruence.
  rewrite from_chars_to_string in Ha by (unfold in_range, INT64_MAX in *; lia).
  rewrite Z.geb_leb in Ha. destruct (Z.leb_spec INT64_MAX n); [done|]. inv_kv. subst.
  split; [done|]. split; [lia|]. cbn. unfold string_at. by rewrite lookup_insert_eq.
Qed.

Lemma Incr_counter key d n v d' :
  counter_at d key n → Incr key d = (Ok v, d') →
  v = n + 1 ∧ counter_at d' key v ∧ ∀ K, K ≠ key → d' !! K = d !! K.
Proof.
  intros [Hn Hd]. unfold string_at in Hd. unfold Incr.
  destruct (d !! key) as [[s e| |]|] eqn:E; try done. injection Hd as ->.
  cbn [apply_write]. rewrite E, incr_decimal by lia. destruct (Z.leb_spec (n + 1) INT64_MAX); [|done].
  unfold incr_reply. rewrite lookup_insert_eq, from_chars_to_string by (unfold in_range, INT64_MAX in *; lia).
  intros [= <- <-]. split; [done|]. split; [|intros K HK; by apply lookup_insert_ne].
  split; [lia|]. unfold string_at. by rewrite lookup_insert_eq.
Qed.

Lemma IncrNonNegative_counter key d n v d' :
  counter_at d key n → IncrNonNegative key d = (Ok v, d') → v = n + 1 ∧ counter_at d' key v.
Proof.
  intros Hc. pose proof Hc as [Hn Hd]. unfold string_at in Hd. unfold IncrNonNegative.
  destruct (d !! key) as [[s e| |]|] eqn:E; try done. injection Hd as ->.
  assert (negative_text (to_string n) = false) as ->.
  { apply bool_decide_eq_false. destruct (to_string_spec n) as (_ & Hdig & _); [lia|].
    destruct (to_string n) as [|c r]; [done|]. intros [= ->]. done. }
  intros Hi. by destruct (Incr_counter _ _ _ _ _ Hc Hi) as (? & ? & _).
Qed.

Lemma allocates_increasing key d n ids d' :
  allocates key d ids d' → counter_at d key n → StronglySorted Z.lt ids ∧ Forall (λ v, n < v ≤ INT64_MAX) ids.
Proof.
  intros Hal. revert n. induction Hal as [d|d v d1 ids d2 Hc _ IH|d v d1 ids d2 Hc _ IH|d v d1 ids d2 Hc _ IH|d d1 ids d2 He _ IH];
    intros n Hn.
  - split; constructor.
  - apply (IncrExistingNonNegative_commits _ _ n) in Hc as [-> Hc]; [|done]. destruct (IH _ Hc) as [? Hf].
    split; constructor; try done; [by eapply Forall_impl; [exact Hf|]; cbn; lia| |by eapply Forall_impl; [exact Hf|]; cbn; lia].
    destruct Hc; lia.
  - apply (IncrNonNegative_counter _ _ n) in Hc as [-> Hc]; [|done]. destruct (IH _ Hc) as [? Hf].
    split; constructor; try done; [by eapply Forall_impl; [exact Hf|]; cbn; lia| |by eapply Forall_impl; [exact Hf|]; cbn; lia].
    destruct Hc; lia.
  - assert (counter_at d1 key (n + 1)) as Hc'.
    { destruct Hc as [Hc|Hc]; [apply (IncrExistingNonNegative_commits _ _ n) in Hc as [-> Hc]
        |apply (IncrNonNegative_counter _ _ n) in Hc as [-> Hc]]; done. }
    destruct (IH _ Hc') as [? Hf]. split; [done|]. eapply Forall_impl; [exact Hf|]. cbn. lia.
  - apply IH. destruct Hn as [? Hn]. split; [done|]. by rewrite He.
Qed.

(** an identity is handed out at most once.  Over any history of a chunk, slice or
    revision counter, whatever clients allocate from it, through the transaction or the
    server-side script, with replies lost or not, the identities that reach callers are
    strictly increasing, above the initial counter and within the signed 64-bit range. *)
Theorem allocated_identities_unique key d n ids d' :
  counter_at d key n → allocates key d ids d' →
  NoDup ids ∧ StronglySorted Z.lt ids ∧ Forall (λ v, n < v ≤ INT64_MAX) ids.
Proof.
  intros Hn Hal. destruct (allocates_increasing _ _ _ _ _ Hal Hn) as [Hs Hf]. split; [|done].
  clear -Hs. induction Hs as [|v ids Hs IH Hv]; constructor; [|done].
  intros Hin. rewrite Forall_forall in Hv. specialize (Hv v Hin). lia.
Qed.

(** ** The slice index as one append-only log per chunk *)
Inductive slice_op := OpCreate (chunk_id : Z) (r : SliceRecord) | OpAppend (chunk_id : Z) (r : SliceRecord).
Abbreviation slice_logs := (gmap Z (list SliceRecord)).

(** The contract: what a caller who sees [res] may conclude about the logs. *)
Inductive log_step : slice_logs → slice_op → result unit → slice_logs → Prop :=
  | log_create L id r : L !! id = None → log_step L (OpCreate id r) (Ok tt) (<[id := [r]]> L)
  | log_append L id r l : L !! id = Some l → log_step L (OpAppend id r) (Ok tt) (<[id := l ++ [r]]> L)
  | log_exists L id r l : L !! id = Some l → log_step L (OpCreate id r) (Err AlreadyExists) L
  | log_missing L id r : L !! id = None → log_step L (OpAppend id r) (Err NotFound) L
  | log_unknown L op L' : log_step L op (Ok tt) L' → log_step L op (Err OutcomeUnknown) L'
  | log_failed L op e : e ∈ [InvalidArgument; IOError; OutcomeUnknown; Unavailable] → log_step L op (Err e) L.

(** The implementation: [CreateIndex] at its serialisation point, [AppendRecord] as a
    command, and anything that leaves the index keys alone. *)
Inductive index_step : dataset → slice_op → result unit → dataset → Prop :=
  | ix_create d id r d' res :
      commits (CreateIndex id r) d tt d' → res = Ok tt ∨ res = Err OutcomeUnknown →
      index_step d (OpCreate id r) res d'
  | ix_create_error d id r e t :
      atomic d (CreateIndex id r) new_txn (Err e, t) → index_step d (OpCreate id r) (Err e) d
  | ix_create_unavailable d id r e :
      e ∈ [OutcomeUnknown; Unavailable] → index_step d (OpCreate id r) (Err e) d
  | ix_append d id r res d' :
      command (AppendRecord id r) d res d' → index_step d (OpAppend id r) res d'.

Definition index_entry (l : option (list SliceRecord)) : option rvalue := RVList ∘ fmap EncodeRecord <$> l.
Definition chunk_id_ok (id : Z) : Prop := 0 < id ≤ INT64_MAX.
Record index_refines (d : dataset) (L : slice_logs) : Prop := {
  ref_keys id : chunk_id_ok id → d !! IndexKey prefix id = index_entry (L !! id);
  ref_logs id l : L !! id = Some l →
    l ≠ [] ∧ Forall (λ r, record_fields r ∧ ValidateRecord r chunk_size = OK) l;
}.

(** Argument types: a 64-bit chunk identity and the fields of a record. *)
Definition slice_op_typed (op : slice_op) : Prop :=
  match op with OpCreate id r | OpAppend id r => 0 ≤ id ∧ record_fields r end.

Lemma IsValidChunkID_ok id : 0 ≤ id → IsValidChunkID id = true ↔ chunk_id_ok id.
Proof.
  unfold IsValidChunkID, kInvalidChunkID, kMaxChunkIDValue, chunk_id_ok. intros. rewrite andb_true_iff.
  destruct (Z.eqb_spec id 0), (Z.leb_spec id INT64_MAX); cbn; split; intros; try lia; split; done || lia.
Qed.

Lemma IndexKey_inj i j : 0 ≤ i → 0 ≤ j → IndexKey prefix i = IndexKey prefix j → i = j.
Proof. intros Hi Hj E. by apply (key_bytes_inj prefix (KIndex i) (KIndex j)) in E as [= ->]. Qed.

Lemma index_refines_update d L id r l :
  index_refines d L → chunk_id_ok id → record_fields r → ValidateRecord r chunk_size = OK →
  L !! id = Some l ∨ L !! id = None ∧ l = [] →
  index_refines (<[IndexKey prefix id := RVList (EncodeRecord <$> (l ++ [r]))]> d) (<[id := l ++ [r]]> L).
Proof.
  intros [Hk Hl] Hid Hf Hv Hlog. constructor.
  - intros j Hj. destruct (decide (j = id)) as [->|Hne]; [by rewrite !lookup_insert_eq|].
    rewrite !lookup_insert_ne; [by apply Hk|done|]. intros E. apply Hne. symmetry.
    unfold chunk_id_ok in *. apply IndexKey_inj; [lia|lia|done].
  - intros j l' Hj. destruct (decide (j = id)) as [->|Hne].
    + rewrite lookup_insert_eq in Hj. injection Hj as <-. split; [by destruct l|].
      apply Forall_app. split; [|by apply Forall_singleton].
      destruct Hlog as [Hlog|[_ ->]]; [by apply (Hl id l)|constructor].
    + rewrite lookup_insert_ne in Hj by done. by apply (Hl j).
Qed.

Lemma check_argument_Ok s u : check_argument s = Ok u → s = OK.
Proof. unfold check_argument. intros E. inv_result. by destruct s. Qed.

Lemma CreateIndex_commits d L id r d' :
  index_refines d L → 0 ≤ id → record_fields r → commits (CreateIndex id r) d tt d' →
  L !! id = None ∧ index_refines d' (<[id := [r]]> L).
Proof.
  intros Href Hid Hf (t & Ha & ->). unfold CreateIndex, CreateListWithFirstRecord in Ha. inv_kv. inv_result.
  repeat match goal with
  | E : check_argument _ = Ok _ |- _ => apply check_argument_Ok in E
  | E : IsValidChunkID _ = true |- _ => apply IsValidChunkID_ok in E; [|done]
  | E : bool_decide _ = true |- _ => apply bool_decide_eq_true in E; subst
  end.
  assert (d !! IndexKey prefix id = None ∧ L !! id = None) as [Hd HL].
  { rewrite (ref_keys _ _ Href) in * by done. destruct (L !! id) as [l|] eqn:E; [|done]. exfalso.
    destruct (ref_logs _ _ Href id l E) as [? _].
    match goal with O : _ ∨ _ |- _ => destruct O as [[? _]|(l' & E1 & E2)] end; [done|].
    injection E1 as <-. by destruct l. }
  split; [done|]. cbn. rewrite Hd. cbn. by apply (index_refines_update _ _ _ _ []); auto.
Qed.

Lemma CreateIndex_errors d L id r e t :
  index_refines d L → 0 ≤ id → atomic d (CreateIndex id r) new_txn (Err e, t) →
  log_step L (OpCreate id r) (Err e) L.
Proof.
  intros Href Hid Ha. unfold CreateIndex, CreateListWithFirstRecord, mbind, kv_bind in Ha.
  destruct (IsValidChunkID id) eqn:Hv; [|cbn in Ha; injection Ha as -> ->; apply log_failed; set_solver].
  apply IsValidChunkID_ok in Hv; [|done].
  destruct (check_argument _) eqn:Hc; [|cbn in Ha; unfold check_argument in Hc; apply fail_if_Err in Hc as [_ ->];
    injection Ha as -> ->; apply log_failed; set_solver].
  cbn in Ha. destruct Ha as (ρ & Hρ & Ha). cbn [answers] in Hρ. rewrite (ref_keys _ _ Href) in Hρ by done.
  destruct Hρ as [Hρ| ->]; [|cbn in Ha; injection Ha as -> ->; apply log_failed; set_solver].
  destruct (L !! id) as [l|] eqn:HL; cbn in Hρ; subst ρ; cbn in Ha.
  - destruct (ref_logs _ _ Href id l HL) as [Hne _]. destruct l as [|r0 l]; [done|]. cbn in Ha.
    injection Ha as -> ->. by apply (log_exists _ _ _ (r0 :: l)).
  - destruct Ha as [Ha|Ha]; [done|]. injection Ha as -> ->. apply log_failed; set_solver.
Qed.

Lemma AppendRecord_spec d L id r res d' :
  index_refines d L → 0 ≤ id → record_fields r → AppendRecord id r d = (res, d') →
  ∃ L', log_step L (OpAppend id r) res L' ∧ index_refines d' L'.
Proof.
  intros Href Hid Hf. unfold AppendRecord, RPushExisting.
  destruct (IsValidChunkID id) eqn:Hv; cbn [negb];
    [|intros [= <- <-]; exists L; split; [apply log_failed; set_solver|done]].
  destruct (ValidateRecord r chunk_size) eqn:Hr; cbn [negb ok];
    try (intros [= <- <-]; exists L; split; [apply log_failed; set_solver|done]).
  apply IsValidChunkID_ok in Hv; [|done]. rewrite (ref_keys _ _ Href) by done.
  destruct (L !! id) as [l|] eqn:HL; cbn [index_entry fmap option_fmap option_map compose]; intros [= <- <-].
  - eexists. split; [by apply log_append|]. change [EncodeRecord r] with (EncodeRecord <$> [r]).
    rewrite <- fmap_app. apply (index_refines_update d L id r l); auto.
  - exists L. split; [by apply log_missing|done].
Qed.

Lemma index_step_refines d L op res d' :
  index_refines d L → slice_op_typed op → index_step d op res d' → ∃ L', log_step L op res L' ∧ index_refines d' L'.
Proof.
  intros Href Hty. destruct 1 as [d id r d' res Hc Hres|d id r e t Ha|d id r e He|d id r res d' Hc]; destruct Hty as [Hid Hf].
  - destruct (CreateIndex_commits _ _ _ _ _ Href Hid Hf Hc) as [HL Hr]. eexists. split; [|exact Hr].
    destruct Hres as [->| ->]; [|apply log_unknown]; by apply log_create.
  - exists L. split; [|done]. by eapply CreateIndex_errors.
  - exists L. split; [|done]. apply log_failed. set_solver.
  - destruct Hc as [d res d' E|d|d|d res d' E]; try (exists L; split; [apply log_failed; set_solver|done]).
    + by eapply AppendRecord_spec.
    + destruct (AppendRecord_spec _ _ _ _ _ _ Href Hid Hf E) as (L' & Hs & Hr).
      exists L'. split; [|done]. destruct res as [[]|e]; [by apply log_unknown|].
      inversion Hs; subst; first [by apply log_unknown|apply log_failed; set_solver].
Qed.

Lemma DecodeRecords_encode l :
  Forall (λ r, record_fields r ∧ ValidateRecord r chunk_size = OK) l → DecodeRecords (EncodeRecord <$> l) = Ok l.
Proof.
  induction 1 as [|r l [Hf Hv] _ IH]; cbn; [done|].
  rewrite (proj2 (DecodeRecord_iff (EncodeRecord r) chunk_size r)) by done. cbn. by rewrite IH.
Qed.

Lemma ReadRecords_refines d L id :
  index_refines d L → chunk_id_ok id →
  ReadRecords id d = match L !! id with Some l => Ok l | None => Err NotFound end.
Proof.
  intros Href Hid. unfold ReadRecords, LRange. rewrite (ref_keys _ _ Href) by done.
  rewrite (proj2 (IsValidChunkID_ok id ltac:(unfold chunk_id_ok in Hid; lia)) Hid). cbn.
  destruct (L !! id) as [l|] eqn:HL; cbn; [|done].
  destruct (ref_logs _ _ Href id l HL) as [Hne Hf]. rewrite bool_decide_eq_false_2 by by destruct l. cbn.
  by apply DecodeRecords_encode.
Qed.

(** A history of index operations interleaved with writes to other keys, and the same
    history on the logs. *)
Inductive index_history : dataset → list (slice_op * result unit) → dataset → Prop :=
  | ih_end d : index_history d [] d
  | ih_op d op res d1 ops d2 :
      slice_op_typed op → index_step d op res d1 → index_history d1 ops d2 →
      index_history d ((op, res) :: ops) d2
  | ih_other d d1 ops d2 :
      (∀ id, chunk_id_ok id → d1 !! IndexKey prefix id = d !! IndexKey prefix id) →
      index_history d1 ops d2 → index_history d ops d2.
Inductive log_history : slice_logs → list (slice_op * result unit) → slice_logs → Prop :=
  | lh_end L : log_history L [] L
  | lh_op L op res L1 ops L2 :
      log_step L op res L1 → log_history L1 ops L2 → log_history L ((op, res) :: ops) L2.

(** C12: the slice index refines one append-only log per chunk.  Every history of
    [CreateIndex] and [AppendRecord] calls, with lost replies and other traffic in
    between, is a history of the logs with the same outcomes, and [ReadRecords]
    afterwards returns the log of its chunk, in append order. *)
Theorem slice_index_refines d L ops d' :
  index_refines d L → index_history d ops d' →
  ∃ L', log_history L ops L' ∧ index_refines d' L' ∧
    ∀ id, chunk_id_ok id → ReadRecords id d' = match L' !! id with Some l => Ok l | None => Err NotFound end.
Proof.
  intros Href Hh. revert L Href.
  induction Hh as [d|d op res d1 ops d2 Hty Hs _ IH|d d1 ops d2 Ho _ IH]; intros L Href.
  - exists L. split; [constructor|]. split; [done|]. intros. by apply ReadRecords_refines.
  - destruct (index_step_refines _ _ _ _ _ Href Hty Hs) as (L1 & Hl & Hr).
    destruct (IH L1 Hr) as (L2 & ? & ? & ?). exists L2. split; [by eapply lh_op|]. done.
  - apply IH. destruct Href as [Hk Hl]. constructor; [|done]. intros id Hid. rewrite Ho by done. by apply Hk.
Qed.









End ChunkMeta.

(** ** Witnesses, on one dataset *)
Definition sample_prefix : bytes := lit "{0:v}:".
Definition counter_store (n : Z) : dataset := {[ NextSliceID sample_prefix := RVStr (to_string n) false ]}.

Lemma counter_store_next n : <[NextSliceID sample_prefix := RVStr (to_string (n + 1)) false]> (counter_store n) = counter_store (n + 1).
Proof. unfold counter_store. apply insert_singleton_eq. Qed.

Lemma allocated_identities_unique_witness :
  NoDup [8; 9] ∧ StronglySorted Z.lt [8; 9] ∧ Forall (λ v, 7 < v ≤ INT64_MAX) [8; 9].
Proof.
  apply (allocated_identities_unique (H := DatasetRedis) (NextSliceID sample_prefix) (counter_store 7) 7 [8; 9] (counter_store 9)).
  - split; [unfold INT64_MAX; lia|]. unfold string_at, counter_store. by rewrite lookup_singleton_eq.
  - apply (al_incr (H := DatasetRedis) _ _ 8 (counter_store 8)).
    + change 8 with (7 + 1) at 2. rewrite <- (counter_store_next 7).
      apply (commits_intro (H := DatasetRedis) _ _ _ (mkTxn true [WSet (NextSliceID sample_prefix) (to_string 8)])).
      exists (RpBulk (to_string 7)). split; [|left; reflexivity]. left. cbn [answers]. unfold counter_store. by rewrite lookup_singleton_eq.
    + apply (al_script (H := DatasetRedis) _ _ 9 (counter_store 9)); [|apply al_end].
      change 9 with (8 + 1) at 2. rewrite <- (counter_store_next 8). unfold IncrNonNegative. unfold counter_store at 1. rewrite lookup_singleton_eq.
      change (negative_text (to_string 8)) with false. cbv iota. unfold Incr. cbn [apply_write]. unfold counter_store at 1. rewrite lookup_singleton_eq.
      change (incr_string (to_string 8) 1) with (Some (to_string 9)). cbv beta iota.
      unfold incr_reply. rewrite lookup_insert_eq. reflexivity.
Defined.

Definition first_slice : SliceRecord := mkSliceRecord 0 5 4 0 4.
Definition second_slice : SliceRecord := mkSliceRecord 2 6 2 0 2.
Definition index_store (l : list SliceRecord) : dataset :=
  <[IndexKey sample_prefix 3 := RVList (EncodeRecord <$> l)]> ∅.

Lemma slice_index_refines_witness :
  ∃ L', log_history ∅ [(OpCreate 3 first_slice, Ok tt); (OpAppend 3 second_slice, Err OutcomeUnknown)] L' ∧
    index_refines sample_prefix 16 (index_store [first_slice; second_slice]) L' ∧
    ∀ id, chunk_id_ok id →
      ReadRecords sample_prefix 16 id (index_store [first_slice; second_slice]) =
      match L' !! id with Some l => Ok l | None => Err NotFound end.
Proof.
  apply (slice_index_refines (H := DatasetRedis) sample_prefix 16 ∅ ∅).
  - split; [|done]. intros id _. by rewrite !lookup_empty.
  - apply (ih_op (H := DatasetRedis) _ _ _ _ _ (index_store [first_slice])).
    + split; [lia|]. apply (bool_decide_eq_true_1 (record_fields _)). reflexivity.
    + apply (ix_create (H := DatasetRedis)); [|by left].
      exists (mkTxn true [WRPush (IndexKey sample_prefix 3) (EncodeRecord first_slice)]). split.
      * exists (RpStrings []). split; [|left; reflexivity]. left. cbn [answers]. by rewrite lookup_empty.
      * cbn [queued apply_writes apply_write]. by rewrite lookup_empty.
    + apply (ih_op (H := DatasetRedis) _ _ _ _ _ (index_store [first_slice; second_slice])); [| |apply ih_end].
      * split; [lia|]. apply (bool_decide_eq_true_1 (record_fields _)). reflexivity.
      * apply ix_append. apply (cmd_unacknowledged _ _ (Ok tt)). unfold AppendRecord, RPushExisting, index_store.
        change (IsValidChunkID 3) with true. change (ValidateRecord second_slice 16) with OK. cbn [negb ok].
        by rewrite lookup_insert_eq, insert_insert_eq.
Defined.



