(* ===== verification/MetaTxn.v ===== *)
(** * Metadata transactions

    src/src/metadata/redis/RedisMetaTxn.cpp: the metadata operations as programs of
    [RedisKvTxn] calls, and the cleanup-work encoders they hand detached chunks to
    (src/src/chunk/slice/SliceDeferredCleanup.cpp).  Objects passed by pointer are
    returned; null pointers are not modelled.  [now] is the clock: the model reads it once
    per operation.  Loops over Redis data take fuel, and run out of it ([Internal]) only
    below the bounds stated with them. *)

From S2P Require Import Prelude RedisKv Decimal StdMap ChunkGeometry InodeTypes Acl InodeOps Codec Records RedisKey.

(** ** Cleanup-work encoders (ChunkCleanupWorkEncoder.hpp) *)
Class ChunkCleanupWorkEncoder := {
  EncodeDetachedDelete : Z → ChunkMapping → result PendingDelete;
  EncodeDetachedReclaim : Z → list ChunkMapping → result ReclaimWork;
}.

Module SliceDeferredCleanup.
Definition detached_delete (ino : Z) (mapping : ChunkMapping) : result PendingDelete :=
  _ ← fail_if ((ino =? 0) || negb (IsValidChunkID (cm_chunk_id mapping))) InvalidArgument;
  Ok (mkPendingDelete
        (lit "slice:chunk:" ++ to_string (cm_chunk_id mapping))
        (lit "slice:detached:" ++ to_string ino ++ lit ":" ++ to_string (cm_index mapping) ++ lit ":" ++
         to_string (cm_chunk_id mapping))).

Fixpoint reclaim_payload (payload : bytes) (mappings : list ChunkMapping) : result bytes :=
  match mappings with
  | [] => Ok payload
  | m :: rest =>
      _ ← fail_if (negb (IsValidChunkID (cm_chunk_id m))) InvalidArgument;
      reclaim_payload (payload ++ lit ":" ++ to_string (cm_index m) ++ lit "," ++ to_string (cm_chunk_id m)) rest
  end.
Definition detached_reclaim (ino : Z) (mappings : list ChunkMapping) : result ReclaimWork :=
  _ ← fail_if (ino =? 0) InvalidArgument;
  payload ← reclaim_payload (lit "slice:reclaim:" ++ to_string ino) mappings;
  Ok (mkReclaimWork ino payload).
End SliceDeferredCleanup.
#[export] Instance SliceEncoder : ChunkCleanupWorkEncoder := {|
  EncodeDetachedDelete := SliceDeferredCleanup.detached_delete;
  EncodeDetachedReclaim := SliceDeferredCleanup.detached_reclaim;
|}.

Definition ParseAttachedChunkID (encoded : bytes) : result Z :=
  match from_chars encoded with
  | None => Err Malformed
  | Some value => if (value =? 0) || (value >? kMaxChunkIDValue) then Err Malformed else Ok value
  end.

Record FileMappingSnapshot := mkMappingSnapshot { fms_inode : SwordFsInode; fms_mappings : list ChunkMapping }.
Record ChunkSizeCommitResult := mkCommitResult {
  csr_inode : SwordFsInode;
  csr_boundary : option RetainedChunkBoundary;
  csr_detached : list ChunkMapping;
}.

(** The two parent pointers of a rename; [same_parent] is pointer equality. *)
Record rename_parents := mkParents { same_parent : bool; parent_a : SwordFsInode; parent_b : SwordFsInode }.
Definition old_parent (p : rename_parents) : SwordFsInode := parent_a p.
Definition new_parent (p : rename_parents) : SwordFsInode := if same_parent p then parent_a p else parent_b p.
Definition set_old_parent (p : rename_parents) (i : SwordFsInode) : rename_parents :=
  mkParents (same_parent p) i (parent_b p).
Definition set_new_parent (p : rename_parents) (i : SwordFsInode) : rename_parents :=
  if same_parent p then mkParents true i (parent_b p) else mkParents false (parent_a p) i.

Section MetaTxn.
Context `{FollyFormat} `{FollyIO} (prefix : bytes) (chunk_size : Z)
        (encoder : option ChunkCleanupWorkEncoder) (now : Z).

(** ** Reads *)
Definition LookupInode (ino : Z) : kv SwordFsInode :=
  value ← Get (InodeKey prefix ino);
  kv_lift (Inode_ParseFrom value).

(** [if (status.IsNotFound()) return s;] *)
Definition on_not_found {A : Type} (s : Status) (m : kv A) : kv A :=
  kv_try m (λ r, match r with Err NotFound => kv_fail s | _ => kv_lift r end).

Definition LookupEntryIn (parent : SwordFsInode) (name : bytes) : kv SwordFsInode :=
  _ ← kv_fail_if (negb (IsDir parent)) NotDirectory;
  value ← HGet (Directory prefix (ino parent)) name;
  entry ← kv_lift (Entry_ParseFrom value);
  on_not_found Malformed (LookupInode (entry_ino entry)).

Definition LookupEntry (parent_ino : Z) (name : bytes) : kv SwordFsInode :=
  parent ← LookupInode parent_ino;
  LookupEntryIn parent name.

(** The walk to the root; [visited] detects parent cycles. *)
Fixpoint ancestor_walk (fuel : nat) (visited : list Z) (ancestor_ino current_ino : Z) : kv bool :=
  match fuel with
  | O => kv_fail Internal
  | S fuel =>
      if current_ino =? 0 then mret false else
      if bool_decide (current_ino ∈ visited) then kv_fail Malformed else
      if current_ino =? ancestor_ino then mret true else
      inode ← LookupInode current_ino;
      if parent_ino inode =? current_ino then mret false
      else ancestor_walk fuel (current_ino :: visited) ancestor_ino (parent_ino inode)
  end.
Definition IsDescendantOf (fuel : nat) (ancestor_ino child_ino : Z) : kv bool :=
  ancestor_walk fuel [] ancestor_ino child_ino.

(** ** Inode records *)
Definition SetInode (inode : SwordFsInode) : kv unit :=
  _ ← kv_fail_if ((ino inode =? 0) || negb (attr_ino (attr inode) =? ino inode)) InvalidArgument;
  value ← kv_lift (Inode_SerializeTo inode);
  Set_ (InodeKey prefix (ino inode)) value.

Definition AdjustInodeCount (delta : Z) : kv unit := IncrBy (InodeCount prefix) delta.
Definition DeleteInode (ino : Z) : kv unit :=
  _ ← Del (InodeKey prefix ino);
  AdjustInodeCount (-1).

Definition AdjustNlink (inode : SwordFsInode) (delta : Z) : result SwordFsInode :=
  let n := nlink (attr inode) in
  if delta <? 0 then
    _ ← fail_if (n <? - delta) Malformed;
    Ok (set_attr (set_nlink (n + delta) (attr inode)) inode)
  else Ok (set_attr (set_nlink (u64 (n + delta)) (attr inode)) inode).

(** The attribute part of [SetAttr], field by field. *)
Definition txn_mutate_attr (requested : SwordFsAttr) (fields : Z) (a : SwordFsAttr) : SwordFsAttr :=
  let has := HasSetAttrField fields in
  let a := when (has kMode)
             (λ a, set_mode (Z.lor (Z.land (mode a) S_IFMT) (Z.land (mode requested) 4095)) a) a in
  let a := when (has kUid) (set_uid (uid requested)) a in
  let a := when (has kGid) (set_gid (gid requested)) a in
  let a := when (has kAtime) (set_atime (atime requested) (atime_nsec requested)) a in
  let a := when (has kMtime) (set_mtime (mtime requested) (mtime_nsec requested)) a in
  let a := when (has kAtimeNow) (touch_attr now kAtime) a in
  let a := when (has kMtimeNow) (touch_attr now kMtime) a in
  let a := when (has kCtime) (set_ctime (ctime requested) (ctime_nsec requested)) a in
  let a := when (has kKillSuidGid) ClearSetidForKillPriv a in
  when (negb (has kCtime)) (touch_attr now kCtime) a.

Definition SetAttr (ino : Z) (requested : SwordFsAttr) (fields : Z) : kv SwordFsInode :=
  _ ← kv_fail_if (HasSetAttrField fields kSize) InvalidArgument;
  inode ← LookupInode ino;
  _ ← kv_check (CheckSetAttrPolicy (attr inode) fields);
  let inode := set_attr (txn_mutate_attr requested fields (attr inode)) inode in
  inode ← kv_lift (if HasSetAttrField fields kMode
                   then SyncPosixAccessAclForMode inode (mode (attr inode)) else Ok inode);
  _ ← SetInode inode;
  mret inode.

Definition SetInodeFlags (ino : Z) (flags : Z) : kv SwordFsInode :=
  _ ← kv_fail_if (negb (HasOnlySupportedInodeFlags flags)) InvalidArgument;
  inode ← LookupInode ino;
  if inode_flags (attr inode) =? flags then mret inode else
  let inode := Touch now kCtime (set_attr (set_inode_flags flags (attr inode)) inode) in
  _ ← SetInode inode;
  mret inode.

Definition txn_SetXAttr (ino : Z) (name value : bytes) (m : XAttrSetMode) : kv unit :=
  inode ← LookupInode ino;
  _ ← kv_check (CheckContentMetadataMutationPolicy (attr inode));
  inode ← kv_lift (SetXAttr now inode name value m);
  SetInode inode.

Definition txn_RemoveXAttr (ino : Z) (name : bytes) : kv unit :=
  inode ← LookupInode ino;
  _ ← kv_check (CheckContentMetadataMutationPolicy (attr inode));
  inode ← kv_lift (RemoveXAttr now inode name);
  SetInode inode.

Definition TouchInode (ino fields : Z) : kv unit :=
  inode ← LookupInode ino;
  SetInode (Touch now fields inode).

(** ** Maintenance records *)
Definition CompleteReclaim (ino : Z) : kv unit := HDel (Reclaims prefix) (to_string ino).
Definition CompletePendingDelete (object_key : bytes) : kv unit := HDel (PendingDeletes prefix) object_key.
Definition ClearOrphanMarker (ino : Z) : kv unit := HDel (Orphans prefix) (to_string ino).

Definition QueuePendingDelete (pending : PendingDelete) : kv unit :=
  encoded ← kv_lift (PendingDelete_SerializeTo pending);
  HSet (PendingDeletes prefix) (pd_id pending) encoded.

Fixpoint RegisterPendingDeletes (work : list PendingDelete) : kv unit :=
  match work with
  | [] => mret tt
  | pending :: rest =>
      _ ← QueuePendingDelete pending;
      RegisterPendingDeletes rest
  end.

(** ** Directory entries *)
Definition touch_parent (parent : SwordFsInode) : SwordFsInode := Touch now (Z.lor kMtime kCtime) parent.
Definition bump_nlink (delta : Z) (i : SwordFsInode) : SwordFsInode :=
  set_attr (set_nlink (u64 (nlink (attr i) + delta)) (attr i)) i.

Definition put_entry (parent_ino : Z) (name : bytes) (child : SwordFsInode) : kv unit :=
  value ← kv_lift (Entry_SerializeTo (mkEntry name (ModeToDt (mode (attr child))) (ino child)));
  HSet (Directory prefix parent_ino) name value.

Definition LinkEntry (parent_ino : Z) (name : bytes) (child parent : SwordFsInode) : kv SwordFsInode :=
  _ ← kv_fail_if (negb (IsDir parent)) NotDirectory;
  let parent := touch_parent (when (IsDir child) (bump_nlink 1) parent) in
  _ ← put_entry parent_ino name child;
  mret parent.

Definition DetachEntry (parent_ino : Z) (name : bytes) (target parent : SwordFsInode) : kv SwordFsInode :=
  _ ← kv_fail_if (negb (IsDir parent)) NotDirectory;
  _ ← kv_fail_if (IsDir target && (nlink (attr parent) <=? 2)) Malformed;
  let parent := touch_parent (when (IsDir target) (bump_nlink (-1)) parent) in
  _ ← HDel (Directory prefix parent_ino) name;
  mret parent.

Definition ReplaceEntry (parent_ino : Z) (name : bytes) (child parent : SwordFsInode) : kv SwordFsInode :=
  _ ← kv_fail_if (negb (IsDir parent)) NotDirectory;
  let parent := touch_parent parent in
  _ ← put_entry parent_ino name child;
  mret parent.

Definition AddEntry (p_ino : Z) (name : bytes) (child parent : SwordFsInode) : kv SwordFsInode :=
  _ ← kv_fail_if (negb (ino parent =? p_ino) || negb (parent_ino child =? p_ino)) InvalidArgument;
  _ ← kv_check (CheckDirectoryAdditionPolicy (attr parent));
  kv_try (HGet (Directory prefix p_ino) name) (λ existing,
    match existing with
    | Ok existing_value =>
        existing_entry ← kv_lift (Entry_ParseFrom existing_value);
        _ ← on_not_found Malformed (LookupInode (entry_ino existing_entry));
        kv_fail AlreadyExists
    | Err NotFound =>
        _ ← SetInode child;
        parent ← LinkEntry p_ino name child parent;
        _ ← SetInode parent;
        _ ← AdjustInodeCount 1;
        mret parent
    | Err s => kv_fail s
    end).

(** Returns the parent and the child. *)
Definition UnlinkFile (p_ino : Z) (name : bytes) (parent child : SwordFsInode)
    : kv (SwordFsInode * SwordFsInode) :=
  _ ← kv_fail_if (negb (ino parent =? p_ino)) InvalidArgument;
  _ ← kv_fail_if (IsDir child) InvalidArgument;
  _ ← kv_check (CheckDirectoryRemovalPolicy (attr parent));
  _ ← kv_check (CheckContentMetadataMutationPolicy (attr child));
  child ← kv_lift (AdjustNlink child (-1));
  let child := Touch now kCtime child in
  parent ← DetachEntry p_ino name child parent;
  _ ← SetInode parent;
  _ ← SetInode child;
  _ ← (if nlink (attr child) =? 0 then HSet (Orphans prefix) (to_string (ino child)) (lit "1") else mret tt);
  mret (parent, child).

Definition RemoveDirectory (p_ino : Z) (name : bytes) (parent child : SwordFsInode) : kv SwordFsInode :=
  _ ← kv_fail_if (negb (ino parent =? p_ino) || negb (parent_ino child =? p_ino)) InvalidArgument;
  _ ← kv_fail_if (negb (IsDir child)) NotDirectory;
  _ ← kv_check (CheckDirectoryRemovalPolicy (attr parent));
  _ ← kv_check (CheckContentMetadataMutationPolicy (attr child));
  length ← HLen (Directory prefix (ino child));
  _ ← kv_fail_if (negb (length =? 0)) NotEmpty;
  parent ← DetachEntry p_ino name child parent;
  _ ← DeleteInode (ino child);
  _ ← SetInode parent;
  mret parent.

(** The replaced target of a rename, if any; [None] is the no-op rename onto itself. *)
Definition ReplaceTarget (new_parent_ino : Z) (new_name : bytes) (p : rename_parents) (source : SwordFsInode)
    (target : option SwordFsInode) (overwrite : bool) : kv (option (rename_parents * option SwordFsInode)) :=
  match target with
  | None => mret (Some (p, None))
  | Some target =>
      _ ← kv_fail_if (negb overwrite) AlreadyExists;
      if ino target =? ino source then mret None else
      _ ← kv_check (CheckDirectoryRemovalPolicy (attr (new_parent p)));
      _ ← kv_check (CheckContentMetadataMutationPolicy (attr target));
      _ ← kv_fail_if (xorb (IsDir source) (IsDir target)) (if IsDir source then NotDirectory else IsDirectory);
      if IsDir target then
        np ← RemoveDirectory new_parent_ino new_name (new_parent p) target;
        mret (Some (set_new_parent p np, Some target))
      else
        '(np, target) ← UnlinkFile new_parent_ino new_name (new_parent p) target;
        mret (Some (set_new_parent p np, Some target))
  end.

Definition check_no_cycle (fuel : nat) (inode : SwordFsInode) (new_parent_ino : Z) : kv unit :=
  if IsDir inode then
    cycle ← IsDescendantOf fuel (ino inode) new_parent_ino;
    kv_fail_if cycle InvalidArgument
  else mret tt.

Definition check_parents (old_parent_ino new_parent_ino : Z) (p : rename_parents) : kv unit :=
  _ ← kv_fail_if (negb (ino (old_parent p) =? old_parent_ino) || negb (ino (new_parent p) =? new_parent_ino)) InvalidArgument;
  _ ← kv_fail_if (xorb (old_parent_ino =? new_parent_ino) (same_parent p)) InvalidArgument;
  kv_fail_if (negb (IsDir (old_parent p)) || negb (IsDir (new_parent p))) NotDirectory.

Definition store_parents (p : rename_parents) : kv unit :=
  _ ← SetInode (old_parent p);
  if same_parent p then mret tt else SetInode (new_parent p).

(** Returns the parents, the source and the target. *)
Definition MoveEntry (fuel : nat) (old_parent_ino : Z) (old_name : bytes) (new_parent_ino : Z) (new_name : bytes)
    (p : rename_parents) (source : SwordFsInode) (target : option SwordFsInode) (overwrite : bool)
    : kv (rename_parents * SwordFsInode * option SwordFsInode) :=
  _ ← check_parents old_parent_ino new_parent_ino p;
  _ ← kv_check (CheckDirectoryRemovalPolicy (attr (old_parent p)));
  _ ← kv_check (CheckDirectoryAdditionPolicy (attr (new_parent p)));
  _ ← kv_check (CheckContentMetadataMutationPolicy (attr source));
  _ ← check_no_cycle fuel source new_parent_ino;
  replaced ← ReplaceTarget new_parent_ino new_name p source target overwrite;
  match replaced with
  | None => mret (p, source, target)
  | Some (p, target) =>
      op ← DetachEntry old_parent_ino old_name source (old_parent p);
      let p := set_old_parent p op in
      np ← LinkEntry new_parent_ino new_name source (new_parent p);
      let p := set_new_parent p np in
      let source := Touch now kCtime (set_parent_ino new_parent_ino source) in
      _ ← store_parents p;
      _ ← SetInode source;
      mret (p, source, target)
  end.

Definition exchange_nlinks (p : rename_parents) (source target : SwordFsInode) : result rename_parents :=
  if same_parent p then Ok p else
  let delta := Z.b2z (IsDir target) - Z.b2z (IsDir source) in
  if delta =? 0 then Ok p else
  op ← AdjustNlink (old_parent p) delta;
  np ← AdjustNlink (new_parent p) (- delta);
  Ok (set_new_parent (set_old_parent p op) np).

Definition ExchangeEntries (fuel : nat) (old_parent_ino : Z) (old_name : bytes) (new_parent_ino : Z) (new_name : bytes)
    (p : rename_parents) (source target : SwordFsInode) : kv (rename_parents * SwordFsInode * SwordFsInode) :=
  _ ← check_parents old_parent_ino new_parent_ino p;
  _ ← kv_check (CheckDirectoryRemovalPolicy (attr (old_parent p)));
  _ ← kv_check (CheckDirectoryRemovalPolicy (attr (new_parent p)));
  _ ← kv_check (CheckContentMetadataMutationPolicy (attr source));
  _ ← kv_check (CheckContentMetadataMutationPolicy (attr target));
  if ino source =? ino target then mret (p, source, target) else
  _ ← check_no_cycle fuel source new_parent_ino;
  _ ← check_no_cycle fuel target old_parent_ino;
  p ← kv_lift (exchange_nlinks p source target);
  op ← ReplaceEntry old_parent_ino old_name target (old_parent p);
  let p := set_old_parent p op in
  np ← ReplaceEntry new_parent_ino new_name source (new_parent p);
  let p := set_new_parent p np in
  let source := Touch now kCtime (set_parent_ino new_parent_ino source) in
  let target := Touch now kCtime (set_parent_ino old_parent_ino target) in
  _ ← store_parents p;
  _ ← SetInode source;
  _ ← SetInode target;
  mret (p, source, target).

Definition LinkExistingEntry (p_ino : Z) (name : bytes) (parent inode : SwordFsInode)
    : kv (SwordFsInode * SwordFsInode) :=
  _ ← kv_fail_if (negb (ino parent =? p_ino)) InvalidArgument;
  _ ← kv_fail_if (negb (IsDir parent)) NotDirectory;
  _ ← kv_fail_if (IsDir inode) NotPermitted;
  _ ← kv_check (CheckDirectoryAdditionPolicy (attr parent));
  _ ← kv_check (CheckContentMetadataMutationPolicy (attr inode));
  kv_try (LookupEntryIn parent name) (λ existing,
    match existing with
    | Ok _ => kv_fail AlreadyExists
    | Err NotFound =>
        parent ← LinkEntry p_ino name inode parent;
        let was_orphan := nlink (attr inode) =? 0 in
        inode ← kv_lift (AdjustNlink inode 1);
        _ ← (if was_orphan then ClearOrphanMarker (ino inode) else mret tt);
        let inode := Touch now kCtime inode in
        _ ← SetInode parent;
        _ ← SetInode inode;
        mret (parent, inode)
    | Err s => kv_fail s
    end).

(** ** Chunk attachments *)
Definition LookupAttachment (ino index : Z) : kv (option Z) :=
  kv_try (HGet (ChunkRefs prefix ino) (to_string index)) (λ r,
    match r with
    | Err NotFound => mret None
    | Err s => kv_fail s
    | Ok encoded => chunk_id ← kv_lift (ParseAttachedChunkID encoded); mret (Some chunk_id)
    end).

Fixpoint parse_page (page : list (bytes * bytes)) : result (list ChunkMapping) :=
  match page with
  | [] => Ok []
  | (index_field, id_value) :: rest =>
      match from_chars index_field with
      | None => Err Malformed
      | Some index =>
          chunk_id ← ParseAttachedChunkID id_value;
          mappings ← parse_page rest;
          Ok (mkChunkMapping index chunk_id :: mappings)
      end
  end.

(** [do { … } while (cursor != 0)] *)
Fixpoint scan_mappings (fuel : nat) (ino cursor : Z) (acc : list ChunkMapping) : kv (list ChunkMapping) :=
  match fuel with
  | O => kv_fail Internal
  | S fuel =>
      '(page, next_cursor) ← HScan (ChunkRefs prefix ino) cursor 128;
      mappings ← kv_lift (parse_page page);
      let acc := acc ++ mappings in
      if next_cursor =? 0 then mret acc else scan_mappings fuel ino next_cursor acc
  end.

Fixpoint has_duplicate (l : list ChunkMapping) : bool :=
  match l with
  | a :: ((b :: _) as rest) => (cm_index a =? cm_index b) || has_duplicate rest
  | _ => false
  end.

Definition ReadFileMappingSnapshot (fuel : nat) (ino : Z) : kv FileMappingSnapshot :=
  inode ← LookupInode ino;
  _ ← kv_fail_if (negb (IsRegular inode)) InvalidArgument;
  mappings ← scan_mappings fuel ino 0 [];
  let mappings := sort_by cm_index mappings in
  _ ← kv_fail_if (has_duplicate mappings) Malformed;
  mret (mkMappingSnapshot inode mappings).

Definition ProbeAttachment (ino index : Z) : kv (option Z) :=
  _ ← LookupInode ino;
  LookupAttachment ino index.

Definition check_boundary (ino : Z) (expected : FileSizePrecondition) : kv unit :=
  match fsp_boundary expected with
  | None => mret tt
  | Some b =>
      observed ← LookupAttachment ino (cbs_index b);
      kv_fail_if (negb (bool_decide (observed = cbs_chunk_id b))) AlreadyExists
  end.

Definition written_inode (inode : SwordFsInode) (end_ : Z) : SwordFsInode :=
  Touch now (Z.lor kMtime kCtime) (set_attr (set_size (Z.max (size (attr inode)) end_) (attr inode)) inode).

Definition AttachPrepared (ino index chunk_id end_ : Z) (expected : FileSizePrecondition) : kv unit :=
  _ ← kv_check (ValidateFileChunkWrite index chunk_id end_ chunk_size);
  _ ← kv_check (ValidateFileSizePrecondition expected chunk_size);
  inode ← LookupInode ino;
  _ ← kv_fail_if (negb (IsRegular inode)) InvalidArgument;
  current ← LookupAttachment ino index;
  _ ← kv_check (CheckContentMetadataMutationPolicy (attr inode));
  _ ← kv_fail_if (negb (size (attr inode) =? fsp_eof expected) || negb (bool_decide (current = None))) AlreadyExists;
  _ ← check_boundary ino expected;
  _ ← SetInode (written_inode inode end_);
  HSet (ChunkRefs prefix ino) (to_string index) (to_string chunk_id).

Definition FinalizeAttachedWrite (ino index chunk_id end_ : Z) (expected : FileSizePrecondition) : kv unit :=
  _ ← kv_check (ValidateFileChunkWrite index chunk_id end_ chunk_size);
  _ ← kv_check (ValidateFileSizePrecondition expected chunk_size);
  inode ← LookupInode ino;
  _ ← kv_fail_if (negb (IsRegular inode)) InvalidArgument;
  current ← LookupAttachment ino index;
  _ ← kv_fail_if (negb (bool_decide (current = Some chunk_id))) AlreadyExists;
  _ ← check_boundary ino expected;
  _ ← kv_fail_if (negb (size (attr inode) =? fsp_eof expected)) AlreadyExists;
  _ ← kv_check (CheckContentMetadataMutationPolicy (attr inode));
  SetInode (written_inode inode end_).

(** ** Size changes *)
Fixpoint queue_detached (ino : Z) (enc : ChunkCleanupWorkEncoder) (detached : list ChunkMapping) : kv unit :=
  match detached with
  | [] => mret tt
  | mapping :: rest =>
      pending ← kv_lift (@EncodeDetachedDelete enc ino mapping);
      _ ← QueuePendingDelete pending;
      queue_detached ino enc rest
  end.

Fixpoint detach_all (ino : Z) (detached : list ChunkMapping) : kv unit :=
  match detached with
  | [] => mret tt
  | mapping :: rest =>
      _ ← HDel (ChunkRefs prefix ino) (to_string (cm_index mapping));
      detach_all ino rest
  end.

(** Cleanup work for the detached mappings; needs the encoder only when there are any. *)
Definition queue_cleanup (ino : Z) (detached : list ChunkMapping) : kv unit :=
  match detached, encoder with
  | [], _ => mret tt
  | _, None => kv_fail Internal
  | _, Some enc => queue_detached ino enc detached
  end.

(** The new EOF and the detached mappings, in the order that is safe for the direction. *)
Definition publish_size (ino : Z) (updated : SwordFsInode) (detached : list ChunkMapping) (is_shrink : bool) : kv unit :=
  if is_shrink
  then (_ ← SetInode updated; detach_all ino detached)
  else (_ ← detach_all ino detached; SetInode updated).

Definition CommitSizeChange (fuel : nat) (ino : Z) (plan : ChunkSizePlan) (requested : SwordFsAttr) (fields : Z)
    (is_shrink : bool) : kv ChunkSizeCommitResult :=
  _ ← kv_fail_if (negb (HasSetAttrField fields kSize) || negb (size requested =? target_eof plan)) InvalidArgument;
  snapshot ← ReadFileMappingSnapshot fuel ino;
  current ← kv_lift (ValidateSizeCommitPlan plan (size (attr (fms_inode snapshot))) chunk_size
                       (fms_mappings snapshot) is_shrink);
  updated ← kv_lift (PrepareSetAttrMutation now (fms_inode snapshot) requested fields);
  old_layout ← kv_lift (PlanChunkSizeLayout (size (attr (fms_inode snapshot))) chunk_size);
  new_layout ← kv_lift (PlanChunkSizeLayout (target_eof plan) chunk_size);
  let detached := List.filter (λ m, (is_shrink && ShouldDetach new_layout (cm_index m)) ||
                                    (negb is_shrink && ShouldDetach old_layout (cm_index m)))
                    (fms_mappings snapshot) in
  _ ← queue_cleanup ino detached;
  _ ← publish_size ino updated detached is_shrink;
  mret (mkCommitResult updated (plan_boundary current) detached).

Definition CommitShrink fuel ino plan requested fields := CommitSizeChange fuel ino plan requested fields true.
Definition CommitGrow fuel ino plan requested fields := CommitSizeChange fuel ino plan requested fields false.

(** ** Reclaim *)
Definition PrepareReclaim (fuel : nat) (inode_id : Z) : kv (option ReclaimWork) :=
  kv_try (LookupInode inode_id) (λ found,
    match found with
    | Err NotFound => _ ← ClearOrphanMarker inode_id; mret None
    | Err s => kv_fail s
    | Ok inode =>
        if IsDir inode || negb (nlink (attr inode) =? 0) then
          _ ← ClearOrphanMarker inode_id;
          _ ← CompleteReclaim inode_id;
          mret None
        else
          mappings ← (if IsRegular inode
                      then (typed ← ReadFileMappingSnapshot fuel inode_id; mret (fms_mappings typed))
                      else mret []);
          pending ← match encoder with
                    | None => kv_fail Internal
                    | Some enc => kv_lift (@EncodeDetachedReclaim enc inode_id mappings)
                    end;
          serialized ← kv_lift (ReclaimWork_SerializeTo pending);
          _ ← Del (InodeKey prefix inode_id);
          _ ← Del (ChunkRefs prefix inode_id);
          _ ← ClearOrphanMarker inode_id;
          _ ← HSet (Reclaims prefix) (to_string inode_id) serialized;
          mret (Some pending)
    end).

(** ** Discipline: reads first, every read watched *)
Lemma LookupInode_ro i : read_only (LookupInode i).
Proof. unfold LookupInode. disc. Qed.
Lemma LookupInode_w i : watched_only (LookupInode i).
Proof. unfold LookupInode. disc. Qed.
Lemma on_not_found_ro {A : Type} s (m : kv A) : read_only m → read_only (on_not_found s m).
Proof. intros. unfold on_not_found. disc. Qed.
Lemma on_not_found_w {A : Type} s (m : kv A) : watched_only m → watched_only (on_not_found s m).
Proof. intros. unfold on_not_found. disc. Qed.
#[local] Hint Resolve LookupInode_ro LookupInode_w on_not_found_ro on_not_found_w : kvdisc.
Lemma LookupEntryIn_ro p n : read_only (LookupEntryIn p n).
Proof. unfold LookupEntryIn. disc. Qed.
Lemma LookupEntryIn_w p n : watched_only (LookupEntryIn p n).
Proof. unfold LookupEntryIn. disc. Qed.
Lemma ancestor_walk_ro fuel vs a c : read_only (ancestor_walk fuel vs a c).
Proof. revert vs c. induction fuel; intros; cbn [ancestor_walk]; disc. Qed.
Lemma ancestor_walk_w fuel vs a c : watched_only (ancestor_walk fuel vs a c).
Proof. revert vs c. induction fuel; intros; cbn [ancestor_walk]; disc. Qed.
#[local] Hint Resolve LookupEntryIn_ro LookupEntryIn_w ancestor_walk_ro ancestor_walk_w : kvdisc.
Lemma check_no_cycle_ro fuel i p : read_only (check_no_cycle fuel i p).
Proof. unfold check_no_cycle, IsDescendantOf. disc. Qed.
Lemma check_no_cycle_w fuel i p : watched_only (check_no_cycle fuel i p).
Proof. unfold check_no_cycle, IsDescendantOf. disc. Qed.
Lemma LookupAttachment_ro i n : read_only (LookupAttachment i n).
Proof. unfold LookupAttachment. disc. Qed.
Lemma LookupAttachment_w i n : watched_only (LookupAttachment i n).
Proof. unfold LookupAttachment. disc. Qed.
#[local] Hint Resolve check_no_cycle_ro check_no_cycle_w LookupAttachment_ro LookupAttachment_w : kvdisc.
Lemma scan_mappings_ro fuel i c acc : read_only (scan_mappings fuel i c acc).
Proof. revert c acc. induction fuel; intros; cbn [scan_mappings]; disc. Qed.
Lemma scan_mappings_w fuel i c acc : watched_only (scan_mappings fuel i c acc).
Proof. revert c acc. induction fuel; intros; cbn [scan_mappings]; disc. Qed.
#[local] Hint Resolve scan_mappings_ro scan_mappings_w : kvdisc.
Lemma ReadFileMappingSnapshot_ro fuel i : read_only (ReadFileMappingSnapshot fuel i).
Proof. unfold ReadFileMappingSnapshot. disc. Qed.
Lemma ReadFileMappingSnapshot_w fuel i : watched_only (ReadFileMappingSnapshot fuel i).
Proof. unfold ReadFileMappingSnapshot. disc. Qed.
Lemma check_boundary_ro i e : read_only (check_boundary i e).
Proof. unfold check_boundary. disc. Qed.
Lemma check_boundary_w i e : watched_only (check_boundary i e).
Proof. unfold check_boundary. disc. Qed.
#[local] Hint Resolve ReadFileMappingSnapshot_ro ReadFileMappingSnapshot_w check_boundary_ro check_boundary_w : kvdisc.

Lemma SetInode_wo i : write_only (SetInode i).
Proof. unfold SetInode. disc. Qed.
Lemma QueuePendingDelete_wo p : write_only (QueuePendingDelete p).
Proof. unfold QueuePendingDelete. disc. Qed.
#[local] Hint Resolve SetInode_wo QueuePendingDelete_wo : kvdisc.
Lemma LinkEntry_wo i n c p : write_only (LinkEntry i n c p).
Proof. unfold LinkEntry, put_entry. disc. Qed.
Lemma DetachEntry_wo i n c p : write_only (DetachEntry i n c p).
Proof. unfold DetachEntry. disc. Qed.
Lemma ReplaceEntry_wo i n c p : write_only (ReplaceEntry i n c p).
Proof. unfold ReplaceEntry, put_entry. disc. Qed.
Lemma store_parents_wo p : write_only (store_parents p).
Proof. unfold store_parents. disc. Qed.
Lemma queue_detached_wo i enc l : write_only (queue_detached i enc l).
Proof. induction l; cbn [queue_detached]; disc. Qed.
Lemma detach_all_wo i l : write_only (detach_all i l).
Proof. induction l; cbn [detach_all]; disc. Qed.
#[local] Hint Resolve LinkEntry_wo DetachEntry_wo ReplaceEntry_wo store_parents_wo queue_detached_wo detach_all_wo : kvdisc.
Lemma UnlinkFile_wo i n p c : write_only (UnlinkFile i n p c).
Proof. unfold UnlinkFile. disc. Qed.
Lemma RegisterPendingDeletes_wo l : write_only (RegisterPendingDeletes l).
Proof. induction l; cbn [RegisterPendingDeletes]; disc. Qed.
#[local] Hint Resolve UnlinkFile_wo RegisterPendingDeletes_wo write_only_watched : kvdisc.
Lemma RemoveDirectory_rf i n p c : reads_first (RemoveDirectory i n p c) ∧ watched_only (RemoveDirectory i n p c).
Proof. split; unfold RemoveDirectory, DeleteInode; [disc_first|disc]. Qed.

(** A callback whose output pointers are not read. *)
Definition discard {A : Type} (m : kv A) : kv unit := _ ← m; mret tt.
End MetaTxn.
