(* ===== verification/MetaEffects.v ===== *)
(** * What the metadata transactions do to the store

    The operations of [MetaTxn] at their serialisation point: the inodes, directory
    entries and chunk attachments before and after, the states a server that stops in the
    middle of EXEC can leave behind, and the termination of the loops over stored data. *)

From S2P Require Import Prelude RedisKv Decimal StdMap ChunkGeometry InodeTypes Acl InodeOps Codec Records RedisKey MetaTxn.

(** ** Keys *)
(** The value of a key after a list of writes. *)
Ltac key_values :=
  unfold key_after; cbn [foldl write_key queued enqueue new_txn app take];
  repeat first
    [rewrite (decide_True (P := _ = _)) by reflexivity
    |rewrite (decide_False (P := _ = _)) by key_neq].

(** ** Well-formed records stay well formed *)
Ltac split_forall :=
  repeat match goal with
  | H : Forall _ (_ :: _) |- _ => apply Forall_cons in H as [? H]
  | |- Forall _ (_ :: _) => apply Forall_cons; split
  | |- Forall _ [] => constructor
  end.
Lemma attr_ok_touch now f a : in_range_signed 64 now → attr_ok a → attr_ok (touch_attr now f a).
Proof.
  intros Hn Ha. unfold touch_attr.
  destruct (HasSetAttrField f kAtime), (HasSetAttrField f kMtime), (HasSetAttrField f kCtime); destruct Ha as [U M T N F];
    constructor; cbn; split_forall; try done; unfold nsec_ok; lia.
Qed.
Lemma attr_ok_nlink v a : in_range 64 v → attr_ok a → attr_ok (set_nlink v a).
Proof.
  intros Hv [U M T N F]. constructor; cbn; split_forall; done.
Qed.
Lemma attr_ok_size v a : in_range 64 v → attr_ok a → attr_ok (set_size v a).
Proof.
  intros Hv [U M T N F]. constructor; cbn; split_forall; done.
Qed.
Lemma record_ok_attr a x : attr_ok a → attr_ino a = attr_ino (attr x) → inode_record_ok x → inode_record_ok (set_attr a x).
Proof. intros Ha Hi [? [_ ?] ? ? ? ? ?]. constructor; cbn; try done. split; [done|congruence]. Qed.
Lemma touch_attr_ino now f a : attr_ino (touch_attr now f a) = attr_ino a.
Proof. unfold touch_attr. by repeat case_match. Qed.
Lemma touch_attr_size now f a : size (touch_attr now f a) = size a.
Proof. unfold touch_attr. by repeat case_match. Qed.
Lemma record_ok_Touch now f x : in_range_signed 64 now → inode_record_ok x → inode_record_ok (Touch now f x).
Proof.
  intros Hn Hx. apply record_ok_attr; [|apply touch_attr_ino|done]. apply attr_ok_touch; [done|].
  by destruct Hx as [_ [? _] _ _ _ _ _].
Qed.

Section Effects.
Context `{Redis} `{!RedisLaws} `{FollyFormat} `{!FollyFormatLaws} `{FollyIO} `{!FollyIOLaws}.
Context (prefix : bytes) (chunk_size : Z) (encoder : option ChunkCleanupWorkEncoder) (now : Z).

(** ** Views of a dataset *)
Definition inode_of (v : option rvalue) : option SwordFsInode :=
  match v with
  | Some (RVStr s _) => match Inode_ParseFrom s with Ok i => Some i | Err _ => None end
  | _ => None
  end.
Definition inode_at (d : dataset) (i : Z) : option SwordFsInode := inode_of (d !! InodeKey prefix i).

Definition chunk_of (s : option bytes) : option Z :=
  match s with
  | Some s => match ParseAttachedChunkID s with Ok c => Some c | Err _ => None end
  | None => None
  end.
Definition attachment_at (d : dataset) (i index : Z) : option Z :=
  chunk_of (field_of (d !! ChunkRefs prefix i) (to_string index)).
Definition entry_at (d : dataset) (dir : Z) (name : bytes) : option SwordFsEntry :=
  match field_of (d !! Directory prefix dir) name with
  | Some s => match Entry_ParseFrom s with Ok e => Some e | Err _ => None end
  | None => None
  end.
Definition orphan_at (d : dataset) (i : Z) : Prop := is_Some (field_of (d !! Orphans prefix) (to_string i)).

(** ** Inversion of the reading operations *)
Lemma field_at_of d k f v : field_at d k f = Some v → field_of (d !! k) f = v.
Proof. unfold field_at, hash_at, field_of. destruct (d !! k) as [[]|]; intros; simplify_eq; done. Qed.

Lemma field_at_hash d k f v : field_at d k f = Some v → ∃ h, hash_at d k = Some h.
Proof. unfold field_at. destruct (hash_at d k); [eauto|done]. Qed.

Lemma atomic_LookupInode d i t r t' :
  atomic d (LookupInode prefix i) t (r, t') →
  t' = t ∧ (∀ x, r = Ok x → has_writes t = false ∧ inode_at d i = Some x ∧ inode_record_ok x) ∧
  (r = Err NotFound → has_writes t = false ∧ d !! InodeKey prefix i = None).
Proof.
  unfold LookupInode, mbind, kv_bind. rewrite atomic_bind. intros (r1 & t1 & Hg & Ha).
  apply atomic_Get in Hg as [-> Ho]. destruct r1 as [s|e].
  - apply atomic_lift in Ha as [-> ->]. split; [done|].
    assert (has_writes t = false ∧ string_at d (InodeKey prefix i) = Some (Some s)) as [Hw Hs].
    { destruct Ho as [[? Ho]|[?|[_ ?]]]; [|done..]. split; [done|].
      destruct (string_at d _) as [[]|]; by simplify_eq. }
    pose proof (Inode_ParseFrom_sound s) as Hp. unfold inode_at, inode_of. unfold string_at in Hs.
    destruct (d !! InodeKey prefix i) as [[]|]; simplify_eq. split; [intros x E; by rewrite E in *|].
    intros E. by rewrite E in Hp.
  - injection Ha as -> ->. split; [done|]. split; [done|]. intros [= ->].
    apply lookup_NotFound in Ho as [? Ho]. split; [done|]. unfold string_at in Ho.
    by destruct (d !! InodeKey prefix i) as [[]|].
Qed.

Lemma atomic_LookupInode_Ok d i t x t' :
  atomic d (LookupInode prefix i) t (Ok x, t') →
  t' = t ∧ has_writes t = false ∧ inode_at d i = Some x ∧ inode_record_ok x.
Proof. intros (-> & Hx & _)%atomic_LookupInode. destruct (Hx x eq_refl) as (? & ? & ?). done. Qed.

Lemma atomic_LookupInode_Err d i t e t' :
  atomic d (LookupInode prefix i) t (Err e, t') → t' = t ∧ e ∈ [NotFound; IOError; InvalidArgument; Malformed].
Proof.
  intros [Ha|(s & t1 & Hg & Ha)]%atomic_kv_bind_Err.
  - apply atomic_Get in Ha as [-> Ho]. split; [done|].
    destruct Ho as [[_ Ho]|[[= ->]|[_ [= ->]]]]; [|set_solver..].
    destruct (string_at d _) as [[]|]; simplify_eq; set_solver.
  - apply atomic_Get in Hg as [-> _]. apply atomic_lift in Ha as [Ha ->]. split; [done|].
    pose proof (Inode_ParseFrom_sound s) as Hp. rewrite <- Ha in Hp. subst e. set_solver.
Qed.

Lemma atomic_LookupAttachment_Ok d i index t o t' :
  atomic d (LookupAttachment prefix i index) t (Ok o, t') →
  t' = t ∧ has_writes t = false ∧ attachment_at d i index = o ∧ ∃ h, hash_at d (ChunkRefs prefix i) = Some h.
Proof.
  unfold LookupAttachment. rewrite atomic_kv_try. intros (r & t1 & Hg & Ha).
  apply atomic_HGet in Hg as [-> Ho]. unfold attachment_at. destruct r as [s|e].
  - inv_kv. subst o. destruct Ho as [[Hw Ho]|[?|[_ ?]]]; [|done..].
    destruct (field_at d _ _) as [[v|]|] eqn:Ef; try discriminate Ho. injection Ho as ->.
    rewrite (field_at_of _ _ _ _ Ef). cbn. do 2 (split; [done|]).
    split; [|by eapply field_at_hash]. by match goal with E : ParseAttachedChunkID _ = _ |- _ => rewrite E end.
  - destruct e; try discriminate Ha. inv_kv. subst o. apply lookup_NotFound in Ho as [Hw Ho].
    rewrite (field_at_of _ _ _ _ Ho). do 3 (split; [done|]). by eapply field_at_hash.
Qed.

Lemma atomic_SetInode d x t u t' :
  atomic d (SetInode prefix x) t (Ok u, t') →
  ino x ≠ 0 ∧ attr_ino (attr x) = ino x ∧ t' = enqueue (WSet (InodeKey prefix (ino x)) (inode_bytes x)) t.
Proof.
  unfold SetInode. intros Ha. inv_kv. inv_result. zify_bools.
  match goal with E : Inode_SerializeTo _ = _ |- _ => rewrite Inode_SerializeTo_spec in E by done; injection E as <- end.
  done.
Qed.

Lemma inode_of_bytes x e : inode_record_ok x → inode_of (Some (RVStr (inode_bytes x) e)) = Some x.
Proof.
  intros Hx. destruct (Inode_parse_serialize x Hx) as (data & E1 & E2). destruct Hx as [[_ Hnz] _ _ _ _ _ _].
  rewrite Inode_SerializeTo_spec in E1 by done. injection E1 as <-. unfold inode_of. by rewrite E2.
Qed.

(** The store keeps every inode under its own number. *)
Definition own_keys (d : dataset) : Prop := ∀ i x, 0 ≤ i → inode_at d i = Some x → ino x = i.

Lemma written_inode_ok x end_ :
  in_range_signed 64 now → in_range 64 end_ → inode_record_ok x → inode_record_ok (written_inode now x end_).
Proof.
  intros Hn He Hx. apply record_ok_Touch; [done|]. apply record_ok_attr; [|done|done].
  destruct Hx as [_ [Ha _] _ _ _ _ _]. apply attr_ok_size; [|done]. destruct Ha as [U _ _ _ _].
  split_forall. unfold in_range in *. lia.
Qed.
End Effects.

(** [inv_kv], knowing also the reading operations and [SetInode]. *)
Ltac inv_meta :=
  repeat first
    [progress inv_kv
    |match goal with
     | H : atomic _ (LookupInode _ _) _ (Ok _, _) |- _ => apply atomic_LookupInode_Ok in H as (-> & ? & ? & ?)
     | H : atomic _ (LookupAttachment _ _ _) _ (Ok _, _) |- _ =>
         apply atomic_LookupAttachment_Ok in H as (-> & ? & ? & ? & ?)
     | H : atomic _ (SetInode _ _) _ (Ok _, _) |- _ => apply atomic_SetInode in H as (? & ? & ->)
     end].

Section Attachments.
Context `{Redis} `{!RedisLaws} `{FollyFormat} `{!FollyFormatLaws} `{FollyIO} `{!FollyIOLaws}.
Context (prefix : bytes) (chunk_size : Z) (now : Z).

(** A server that stops after the first [n] queued commands of a transaction ([n] large
    enough is the full commit). *)
Definition cut_state {A : Type} (p : kv A) (d : dataset) (n : nat) (a : A) (d' : dataset) : Prop :=
  ∃ t, atomic d p new_txn (Ok a, t) ∧ d' = (apply_writes incr_string (take n (queued t)) d).1.

Lemma chunk_of_to_string c : 0 ≤ c → IsValidChunkID c = true → chunk_of (Some (to_string c)) = Some c.
Proof.
  unfold IsValidChunkID, kInvalidChunkID, chunk_of, ParseAttachedChunkID. intros Hc Hv. inv_result. zify_bools.
  rewrite from_chars_to_string by (unfold in_range, kMaxChunkIDValue, INT64_MAX in *; lia).
  rewrite Z.gtb_ltb. destruct (Z.eqb_spec c 0), (Z.ltb_spec kMaxChunkIDValue c); done || lia.
Qed.

Lemma policy_clear a : CheckContentMetadataMutationPolicy a = OK → HasRestrictiveInodePolicy a = false.
Proof. unfold CheckContentMetadataMutationPolicy. by destruct (HasRestrictiveInodePolicy a). Qed.

(** What both publication steps check, against one state. *)
Definition publication_checks (d : dataset) (i index : Z) (before : option Z) (expected : FileSizePrecondition)
    (x : SwordFsInode) : Prop :=
  inode_at prefix d i = Some x ∧ IsRegular x = true ∧ size (attr x) = fsp_eof expected ∧
  attachment_at prefix d i index = before ∧ HasRestrictiveInodePolicy (attr x) = false ∧
  ∀ b, fsp_boundary expected = Some b → attachment_at prefix d i (cbs_index b) = cbs_chunk_id b.

Lemma check_boundary_Ok d i expected t u t' :
  atomic d (check_boundary prefix i expected) t (Ok u, t') →
  t' = t ∧ ∀ b, fsp_boundary expected = Some b → attachment_at prefix d i (cbs_index b) = cbs_chunk_id b.
Proof.
  unfold check_boundary. destruct (fsp_boundary expected) as [b|]; intros Ha; inv_meta; [|done]. inv_result.
  match goal with E : bool_decide _ = true |- _ => apply bool_decide_eq_true in E end.
  split; [done|]. intros ? [= <-]. congruence.
Qed.

Lemma AttachPrepared_inv d i index c end_ expected t :
  atomic d (AttachPrepared prefix chunk_size now i index c end_ expected) new_txn (Ok tt, t) →
  ∃ x h, publication_checks d i index None expected x ∧ inode_record_ok x ∧
    ValidateFileChunkWrite index c end_ chunk_size = OK ∧ hash_at d (ChunkRefs prefix i) = Some h ∧
    queued t = [WSet (InodeKey prefix (ino x)) (inode_bytes (written_inode now x end_));
                WHSet (ChunkRefs prefix i) (to_string index) (to_string c)].
Proof.
  unfold AttachPrepared. intros Ha. inv_meta.
  match goal with B : atomic _ (check_boundary _ _ _) _ _ |- _ => apply check_boundary_Ok in B as [-> Hb] end.
  inv_meta. inv_result. zify_bools.
  repeat match goal with
  | E : bool_decide _ = true |- _ => apply bool_decide_eq_true in E; subst
  | E : CheckContentMetadataMutationPolicy _ = OK |- _ => apply policy_clear in E
  end.
  do 2 eexists. split; [unfold publication_checks|]; split_and?; try done.
Qed.

Lemma to_string_eq a b : 0 ≤ a → 0 ≤ b → to_string a = to_string b ↔ a = b.
Proof. intros. split; [by apply to_string_inj|by intros ->]. Qed.

Lemma field_of_hset d k f g s h :
  hash_at d k = Some h →
  field_of (write_value incr_string (WHSet k f s) (d !! k)) g = if decide (f = g) then Some s else field_of (d !! k) g.
Proof.
  unfold hash_at, field_of. cbn [write_value]. destruct (d !! k) as [[]|]; intros [= <-].
  - by rewrite lookup_insert.
  - rewrite <- insert_empty. rewrite lookup_insert. by case_decide.
Qed.

(** The three states an attachment transaction can leave: nothing done, the new size
    published over a hole, or both. *)
Definition attach_outcome (d d' : dataset) (i index c : Z) (x y : SwordFsInode) : Prop :=
  (attachment_at prefix d' i index = None ∧ (inode_at prefix d' i = Some x ∨ inode_at prefix d' i = Some y)) ∨
  (attachment_at prefix d' i index = Some c ∧ inode_at prefix d' i = Some y).

Lemma AttachPrepared_states d i index c end_ expected n d' :
  in_range_signed 64 now → in_range 64 end_ → 0 ≤ i → 0 ≤ c → own_keys prefix d →
  cut_state (AttachPrepared prefix chunk_size now i index c end_ expected) d n tt d' →
  ∃ x, publication_checks d i index None expected x ∧ inode_record_ok x ∧
    attach_outcome d d' i index c x (written_inode now x end_) ∧
    ((2 ≤ n)%nat → attachment_at prefix d' i index = Some c).
Proof.
  intros Hnow Hend Hi Hc Hown (t & Ha & ->).
  apply AttachPrepared_inv in Ha as (x & h & Hpc & Hx & Hv & Hh & ->).
  exists x. split; [done|]. split; [done|]. destruct Hpc as (Hxi & _ & _ & Hcur & _ & _).
  pose proof (Hown i x Hi Hxi) as Hino. rewrite Hino.
  assert (IsValidChunkID c = true) as Hvc.
  { unfold ValidateFileChunkWrite in Hv. by destruct (IsValidChunkID c). }
  pose proof (written_inode_ok now x end_ Hnow Hend Hx) as Hy.
  unfold attach_outcome, attachment_at, inode_at in *. rewrite !lookup_apply_writes.
  destruct n as [|[|n]]; cbn [take]; rewrite ?take_nil; key_values.
  - split; [left; auto|lia].
  - split; [|lia]. left. split; [done|]. right. by apply inode_of_bytes.
  - rewrite (field_of_hset _ _ _ _ _ _ Hh), decide_True by done. rewrite chunk_of_to_string by done.
    split; [|done]. right. split; [done|]. by apply inode_of_bytes.
Qed.

Lemma AttachPrepared_frame d i index c end_ expected n d' :
  0 ≤ i → 0 ≤ index → own_keys prefix d →
  cut_state (AttachPrepared prefix chunk_size now i index c end_ expected) d n tt d' →
  (∀ j k, 0 ≤ j → 0 ≤ k → j ≠ i ∨ k ≠ index → attachment_at prefix d' j k = attachment_at prefix d j k) ∧
  (∀ j, 0 ≤ j → j ≠ i → inode_at prefix d' j = inode_at prefix d j).
Proof.
  intros Hi Hidx Hown (t & Ha & ->). apply AttachPrepared_inv in Ha as (x & h & Hpc & Hx & Hv & Hh & ->).
  destruct Hpc as (Hxi & _). rewrite (Hown i x Hi Hxi). split.
  - intros j k Hj Hk Hne. unfold attachment_at. rewrite lookup_apply_writes.
    destruct n as [|[|n]]; cbn [take]; rewrite ?take_nil; [done|by key_values|].
    destruct (decide (j = i)) as [->|Hji]; [|by key_values]. key_values.
    rewrite (field_of_hset _ _ _ _ _ _ Hh), decide_False; [done|]. rewrite to_string_eq by done. by destruct Hne.
  - intros j Hj Hne. unfold inode_at. rewrite lookup_apply_writes.
    destruct n as [|[|n]]; cbn [take]; rewrite ?take_nil; [done|by key_values|by key_values].
Qed.

(** C18: attaching a chunk publishes it only under the size that covers it.  Whatever
    prefix of the transaction the server executes, the file was unchanged since the
    writer looked (size, empty slot, EOF boundary, no immutable or append-only flag), the
    outcome is nothing, the new size over a hole, or the attachment with the new size,
    the chunk starts below that size, and no other inode or attachment changes. *)
Theorem AttachPrepared_publishes d i index c end_ expected n d' :
  in_range_signed 64 now → 0 < chunk_size < 2 ^ 64 → in_range 64 end_ → 0 ≤ i → 0 ≤ index → 0 ≤ c →
  own_keys prefix d →
  cut_state (AttachPrepared prefix chunk_size now i index c end_ expected) d n tt d' →
  (∃ x, publication_checks d i index None expected x ∧
    attach_outcome d d' i index c x (written_inode now x end_) ∧
    index * chunk_size < size (attr (written_inode now x end_)) ∧
    ((2 ≤ n)%nat → attachment_at prefix d' i index = Some c)) ∧
  (∀ j k, 0 ≤ j → 0 ≤ k → j ≠ i ∨ k ≠ index → attachment_at prefix d' j k = attachment_at prefix d j k) ∧
  (∀ j, 0 ≤ j → j ≠ i → inode_at prefix d' j = inode_at prefix d j).
Proof.
  intros Hnow Hcs Hend Hi Hidx Hc Hown Hcut. split; [|by eapply AttachPrepared_frame].
  pose proof Hcut as (t & Ha & _). apply AttachPrepared_inv in Ha as (_ & _ & _ & _ & Hv & _ & _).
  apply ValidateFileChunkWrite_OK in Hv as (_ & Hpos & _); [|done|done|done].
  destruct (AttachPrepared_states _ _ _ _ _ _ _ _ Hnow Hend Hi Hc Hown Hcut) as (x & ? & _ & ? & ?).
  exists x. split; [done|]. split; [done|]. split; [|done].
  unfold written_inode, Touch. cbn [attr set_attr]. rewrite touch_attr_size. cbn [size set_size]. lia.
Qed.
End Attachments.

Section Snapshots.
Context `{Redis} `{!RedisLaws} `{FollyFormat} `{!FollyFormatLaws} `{FollyIO} `{!FollyIOLaws}.
Context (prefix : bytes).

Lemma parse_page_app l l' ms :
  parse_page (l ++ l') = Ok ms ↔ ∃ a b, parse_page l = Ok a ∧ parse_page l' = Ok b ∧ ms = a ++ b.
Proof.
  revert ms. induction l as [|[f v] l IH]; intros ms; cbn.
  - split; [intros E; by exists [], ms|]. intros (a & b & [= <-] & E & ->). done.
  - destruct (from_chars f) as [k|]; [|by split; [|intros (?&?&?&_)]].
    destruct (ParseAttachedChunkID v) as [c|]; cbn; [|by split; [|intros (?&?&?&_)]].
    rewrite bind_Ok. split.
    + intros (r & (a & b & Ea & Eb & ->)%IH & [= <-]). rewrite Ea, Eb. eauto.
    + intros (a & b & Ea & Eb & ->). apply bind_Ok in Ea as (a' & Ea & [= <-]).
      eexists. split; [|done]. apply IH. eauto.
Qed.

Lemma parse_page_elem l ms m :
  parse_page l = Ok ms →
  m ∈ ms ↔ ∃ f v, (f, v) ∈ l ∧ from_chars f = Some (cm_index m) ∧ ParseAttachedChunkID v = Ok (cm_chunk_id m).
Proof.
  revert ms. induction l as [|[f v] l IH]; intros ms; cbn.
  - intros [= <-]. split; [by intros ?%elem_of_nil|]. by intros (? & ? & ?%elem_of_nil & _).
  - destruct (from_chars f) as [k|] eqn:Ef; [|done]. destruct (ParseAttachedChunkID v) as [c|] eqn:Ev; [|done]. cbn.
    intros (ms' & E & [= <-])%bind_Ok. rewrite elem_of_cons, (IH ms' E). split.
    + intros [->|(f' & v' & ? & ? & ?)]; [exists f, v|exists f', v']; (split; [|done]); [by left|by right].
    + intros (f' & v' & Hin & Hf & Hv). apply elem_of_cons in Hin as [[= -> ->]|Hin].
      * left. destruct m. cbn in *. congruence.
      * right. eauto 10.
Qed.

Lemma scan_mappings_Ok d i fuel c acc t ms t' :
  atomic d (scan_mappings prefix fuel i c acc) t (Ok ms, t') →
  t' = t ∧ ∃ h l n ms', hash_at d (ChunkRefs prefix i) = Some h ∧ scan_chain page_of h c l 0 n ∧
    parse_page l = Ok ms' ∧ ms = acc ++ ms'.
Proof.
  revert c acc. induction fuel as [|fuel IH]; intros c acc; cbn [scan_mappings]; [done|].
  intros Ha. apply atomic_kv_bind in Ha as ([page next] & t1 & Hs & Ha).
  apply atomic_HScan in Hs as (-> & Hpage & _). destruct (Hpage page next eq_refl) as (_ & h & Hh & Hp).
  inv_kv. destruct (Z.eqb_spec next 0) as [->|Hne].
  - inv_kv. subst ms. split; [done|]. exists h, page, 1%nat, x. split_and!; try done. by constructor.
  - apply IH in Ha as (-> & h' & l & n & ms' & Hh' & Hc & Hm & ->). split; [done|].
    assert (h' = h) as -> by congruence. exists h, (page ++ l), (S n), (x ++ ms'). split; [done|].
    split; [by eapply scan_more|]. split; [|by rewrite app_assoc]. apply parse_page_app. eauto.
Qed.

Lemma parse_page_Err l e : parse_page l = Err e → e = Malformed.
Proof.
  induction l as [|[f v] l IH]; cbn; [done|]. destruct (from_chars f); [|by intros [= <-]].
  unfold ParseAttachedChunkID. destruct (from_chars v) as [c|]; [|by intros [= <-]].
  destruct (_ || _); [by intros [= <-]|]. cbn. destruct (parse_page l); [done|]. cbn. intros [= ->]. by apply IH.
Qed.

(** Running out of fuel means having read that many pages without an end. *)
Lemma scan_mappings_Internal d i fuel c acc t t' :
  has_writes t = false → atomic d (scan_mappings prefix (S fuel) i c acc) t (Err Internal, t') →
  ∃ h l c', hash_at d (ChunkRefs prefix i) = Some h ∧ scan_chain page_of h c l c' (S fuel) ∧ c' ≠ 0.
Proof.
  intros Hw. revert c acc. induction fuel as [|fuel IH]; intros c acc Ha;
    (apply atomic_kv_bind_Err in Ha as [Ha|([page next] & t1 & Hs & Ha)];
      [apply atomic_HScan in Ha as (_ & _ & He); destruct (He Internal eq_refl) as [?|[? _]]; congruence|]);
    apply atomic_HScan in Hs as (-> & Hpage & _); destruct (Hpage page next eq_refl) as (_ & h & Hh & Hp);
    (apply atomic_kv_bind_Err in Ha as [Ha|(ms & t1 & Hl & Ha)];
      [apply atomic_lift in Ha as [Ha _]; symmetry in Ha; by apply parse_page_Err in Ha|]);
    apply atomic_lift in Hl as [_ ->]; cbv zeta in Ha; destruct (Z.eqb_spec next 0) as [->|Hne]; try discriminate Ha.
  - exists h, page, next. split; [done|]. split; [by constructor|done].
  - destruct (IH _ _ Ha) as (h' & l & c' & Hh' & Hc & Hne'). assert (h' = h) as -> by congruence.
    exists h, (page ++ l), c'. split; [done|]. split; [by eapply scan_more|done].
Qed.

Lemma scan_chain_sound h c l c' n f v : scan_chain page_of h c l c' n → (f, v) ∈ l → h !! f = Some v.
Proof.
  induction 1 as [c l c' Hp|c l c' l' c'' n Hp _ _ IH]; [by eapply scan_sound|].
  intros [Hin|Hin]%elem_of_app; [by eapply scan_sound|by apply IH].
Qed.

Definition refs_canonical (d : dataset) (i : Z) : Prop :=
  ∀ f v, field_of (d !! ChunkRefs prefix i) f = Some v → ∃ k, in_range 64 k ∧ f = to_string k.

Lemma has_duplicate_false l :
  StronglySorted (key_le cm_index) l → has_duplicate l = false → StronglySorted mapping_lt l.
Proof.
  induction 1 as [|a l Hs IH Ha]; cbn [has_duplicate]; [constructor|]. destruct l as [|b l]; [repeat constructor|].
  intros [Hne Hd]%orb_false_iff. specialize (IH Hd). constructor; [done|].
  apply Forall_cons in Ha as [Hab Ha]. inversion IH as [|?? _ Hb]; subst. zify_bools. unfold key_le, mapping_lt in *.
  constructor; [lia|]. eapply Forall_impl; [exact Hb|]. cbn. lia.
Qed.

Lemma hash_at_field d k h f : hash_at d k = Some h → field_of (d !! k) f = h !! f.
Proof. unfold hash_at, field_of. destruct (d !! k) as [[]|]; intros [= <-]; by rewrite ?lookup_empty. Qed.

Lemma mapping_ext (m : ChunkMapping) : m = mkChunkMapping (cm_index m) (cm_chunk_id m).
Proof. by destruct m. Qed.

(** The snapshot of a file is its inode and exactly its attachments, in index order. *)
Lemma ReadFileMappingSnapshot_Ok d fuel i t snap t' :
  atomic d (ReadFileMappingSnapshot prefix fuel i) t (Ok snap, t') → refs_canonical d i →
  t' = t ∧ has_writes t = false ∧ inode_at prefix d i = Some (fms_inode snap) ∧ inode_record_ok (fms_inode snap) ∧
  IsRegular (fms_inode snap) = true ∧
  (∃ h, hash_at d (ChunkRefs prefix i) = Some h) ∧ StronglySorted mapping_lt (fms_mappings snap) ∧
  Forall (λ m, in_range 64 (cm_index m) ∧ 0 < cm_chunk_id m ≤ kMaxChunkIDValue) (fms_mappings snap) ∧
  ∀ index c, in_range 64 index →
    mkChunkMapping index c ∈ fms_mappings snap ↔ attachment_at prefix d i index = Some c.
Proof.
  unfold ReadFileMappingSnapshot. intros Ha Hcan. inv_meta.
  match goal with S : atomic _ (scan_mappings _ _ _ _ _) _ _ |- _ =>
    apply scan_mappings_Ok in S as (-> & h & l & n & ms & Hh & Hc & Hp & ->) end.
  inv_kv. subst snap. inv_result. cbn [fms_inode fms_mappings app].
  do 5 (split; [done|]). split; [eauto|].
  split; [apply has_duplicate_false; [apply sort_by_StronglySorted|done]|].
  assert (∀ m, m ∈ ms ↔ ∃ f v, (f, v) ∈ l ∧ from_chars f = Some (cm_index m) ∧ ParseAttachedChunkID v = Ok (cm_chunk_id m))
    as Hel by (intros; by apply parse_page_elem). split.
  - apply Forall_forall. intros m. rewrite sort_by_Permutation, Hel. intros (f & v & _ & Hf & Hv).
    split; [by eapply from_chars_range|]. unfold ParseAttachedChunkID in Hv.
    destruct (from_chars v) as [c|] eqn:Ec; [|done]. pose proof (from_chars_range _ _ Ec) as [? _].
    rewrite Z.gtb_ltb in Hv. destruct (Z.eqb_spec c 0), (Z.ltb_spec kMaxChunkIDValue c); try done.
    injection Hv as <-. lia.
  - intros index c Hidx. rewrite sort_by_Permutation, Hel. cbn [cm_index cm_chunk_id]. unfold attachment_at, chunk_of.
    rewrite (hash_at_field _ _ _ _ Hh). split.
    + intros (f & v & Hin & Hf & Hv).
      pose proof (scan_chain_sound _ _ _ _ _ _ _ Hc Hin) as Hfv.
      destruct (Hcan f v) as (k & Hk & ->); [by rewrite (hash_at_field _ _ _ _ Hh)|].
      rewrite from_chars_to_string in Hf by done. injection Hf as ->. by rewrite Hfv, Hv.
    + destruct (h !! to_string index) as [v|] eqn:Ev; [|done].
      destruct (ParseAttachedChunkID v) eqn:Ep; [|done]. intros [= ->].
      exists (to_string index), v. split; [by eapply scan_complete|]. split; [by apply from_chars_to_string|done].
Qed.

(** C19: a mapping snapshot is complete, sound and always ends.  Over any sequence of
    HSCAN pages, success returns the inode and exactly the attachments of the file in
    strictly increasing index order; and with the server's bound on the pages of a scan
    as fuel, the loop never runs out of it. *)
Theorem ReadFileMappingSnapshot_exact d fuel i t r t' :
  has_writes t = false → refs_canonical d i →
  (0 < fuel)%nat → (∀ h, hash_at d (ChunkRefs prefix i) = Some h → (scan_bound h ≤ fuel)%nat) →
  atomic d (ReadFileMappingSnapshot prefix fuel i) t (r, t') →
  r ≠ Err Internal ∧
  ∀ snap, r = Ok snap →
    inode_at prefix d i = Some (fms_inode snap) ∧ IsRegular (fms_inode snap) = true ∧
    StronglySorted mapping_lt (fms_mappings snap) ∧
    ∀ index c, in_range 64 index →
      mkChunkMapping index c ∈ fms_mappings snap ↔ attachment_at prefix d i index = Some c.
Proof.
  intros Hw Hcan Hpos Hfuel Ha. split.
  - intros ->. unfold ReadFileMappingSnapshot in Ha.
    apply atomic_kv_bind_Err in Ha as [Ha|(x & t1 & Hl & Ha)].
    { apply atomic_LookupInode_Err in Ha as [_ Ha]. set_solver. }
    apply atomic_LookupInode_Ok in Hl as (-> & _).
    apply atomic_kv_bind_Err in Ha as [Ha|(u & t1 & Hl & Ha)].
    { apply atomic_lift in Ha as [Ha _]. symmetry in Ha. by apply fail_if_Err in Ha as [_ ?]. }
    apply atomic_lift in Hl as [_ ->].
    apply atomic_kv_bind_Err in Ha as [Ha|(ms & t1 & _ & Ha)].
    + destruct fuel as [|fuel]; [lia|]. apply scan_mappings_Internal in Ha as (h & l & c & Hh & Hc & Hne); [|done].
      specialize (Hfuel h Hh). pose proof (scan_ends _ _ _ _ Hc Hne). lia.
    + apply atomic_kv_bind_Err in Ha as [Ha|(? & ? & _ & Ha)]; [|done].
      apply atomic_lift in Ha as [Ha _]. symmetry in Ha. by apply fail_if_Err in Ha as [_ ?].
  - intros snap ->. apply ReadFileMappingSnapshot_Ok in Ha as (_ & _ & ? & _ & ? & _ & ? & _ & ?); done.
Qed.
End Snapshots.

Section SizeChanges.
Context `{Redis} `{!RedisLaws} `{FollyFormat} `{!FollyFormatLaws} `{FollyIO} `{!FollyIOLaws}.
Context (prefix : bytes) (chunk_size : Z) (encoder : option ChunkCleanupWorkEncoder) (now : Z).

Definition detach_write (i : Z) (m : ChunkMapping) : kv_write :=
  WHDel (ChunkRefs prefix i) (to_string (cm_index m)).

Lemma queued_enqueue w t : queued (enqueue w t) = queued t ++ [w].
Proof. done. Qed.

Lemma detach_all_Ok d i l t u t' :
  atomic d (detach_all prefix i l) t (Ok u, t') → queued t' = queued t ++ (detach_write i <$> l).
Proof.
  revert t. induction l as [|m l IH]; intros t; cbn [detach_all]; intros Ha; inv_kv.
  - by rewrite app_nil_r.
  - apply IH in Ha as ->. rewrite queued_enqueue, <- app_assoc. done.
Qed.

Lemma queue_detached_Ok d i enc l t u t' :
  atomic d (queue_detached prefix i enc l) t (Ok u, t') →
  ∃ ws, queued t' = queued t ++ ws ∧ Forall (λ w, write_key w = PendingDeletes prefix) ws.
Proof.
  revert t. induction l as [|m l IH]; intros t; cbn [queue_detached]; intros Ha; inv_kv.
  - exists []. by rewrite app_nil_r.
  - unfold QueuePendingDelete in *. inv_kv. apply IH in Ha as (ws & -> & Hws).
    eexists (_ :: ws). rewrite queued_enqueue, <- app_assoc. cbn [app]. split; [done|]. by constructor.
Qed.

Lemma queue_cleanup_Ok d i l t u t' :
  atomic d (queue_cleanup prefix encoder i l) t (Ok u, t') →
  ∃ ws, queued t' = queued t ++ ws ∧ Forall (λ w, write_key w = PendingDeletes prefix) ws.
Proof.
  unfold queue_cleanup. destruct l as [|m l]; [intros Ha; inv_kv; exists []; by rewrite app_nil_r|].
  destruct encoder; [apply queue_detached_Ok|done].
Qed.

Lemma publish_size_Ok d i x l s t u t' :
  atomic d (publish_size prefix i x l s) t (Ok u, t') →
  let dels := detach_write i <$> l in
  let put := WSet (InodeKey prefix (ino x)) (inode_bytes x) in
  queued t' = queued t ++ (if s then put :: dels else dels ++ [put]).
Proof.
  unfold publish_size. destruct s; intros Ha; inv_meta;
    match goal with M : atomic _ (detach_all _ _ _) _ _ |- _ => apply detach_all_Ok in M end;
    cbv zeta; rewrite ?queued_enqueue in *;
    match goal with M : queued _ = _ |- _ => rewrite M end; by rewrite <- app_assoc.
Qed.

Definition size_detached (old_layout new_layout : ChunkSizeLayout) (is_shrink : bool) (l : list ChunkMapping) :=
  List.filter (λ m, (is_shrink && ShouldDetach new_layout (cm_index m)) ||
                    (negb is_shrink && ShouldDetach old_layout (cm_index m))) l.

Lemma CommitSizeChange_inv d fuel i plan requested fields is_shrink res t :
  refs_canonical prefix d i →
  atomic d (CommitSizeChange prefix chunk_size encoder now fuel i plan requested fields is_shrink) new_txn (Ok res, t) →
  ∃ snap cur ol nl ws,
    atomic d (ReadFileMappingSnapshot prefix fuel i) new_txn (Ok snap, new_txn) ∧
    HasSetAttrField fields kSize = true ∧ size requested = target_eof plan ∧
    ValidateSizeCommitPlan plan (size (attr (fms_inode snap))) chunk_size (fms_mappings snap) is_shrink = Ok cur ∧
    PrepareSetAttrMutation now (fms_inode snap) requested fields = Ok (csr_inode res) ∧
    PlanChunkSizeLayout (size (attr (fms_inode snap))) chunk_size = Ok ol ∧
    PlanChunkSizeLayout (target_eof plan) chunk_size = Ok nl ∧
    csr_detached res = size_detached ol nl is_shrink (fms_mappings snap) ∧
    Forall (λ w, write_key w = PendingDeletes prefix) ws ∧
    let dels := detach_write i <$> csr_detached res in
    let put := WSet (InodeKey prefix (ino (csr_inode res))) (inode_bytes (csr_inode res)) in
    queued t = ws ++ (if is_shrink then put :: dels else dels ++ [put]).
Proof.
  intros Hcan. unfold CommitSizeChange. intros Ha. inv_kv.
  match goal with S : atomic _ (ReadFileMappingSnapshot _ _ _) _ _ |- _ =>
    pose proof S as (-> & _)%ReadFileMappingSnapshot_Ok; [|done] end.
  inv_result. zify_bools. subst res. cbn [csr_inode csr_detached].
  match goal with Q : atomic _ (queue_cleanup _ _ _ _) _ _ |- _ => apply queue_cleanup_Ok in Q as (ws & Hq & Hws) end.
  match goal with Q : atomic _ (publish_size _ _ _ _ _) _ _ |- _ => apply publish_size_Ok in Q end.
  do 4 eexists. exists ws. do 9 (split; [eassumption || reflexivity|]).
  cbv zeta in *. by rewrite Hq in *.
Qed.

Lemma field_of_hdel k f g v :
  field_of (write_value incr_string (WHDel k f) v) g = if decide (f = g) then None else field_of v g.
Proof.
  destruct v as [[| h |]|]; cbn [write_value]; try by case_decide.
  destruct (decide (delete f h = ∅)) as [E|E]; cbn [field_of].
  - case_decide; [done|]. rewrite <- (lookup_delete_ne h f g) by done. by rewrite E, lookup_empty.
  - by rewrite lookup_delete.
Qed.

Lemma detached_fields i l v g :
  field_of (key_after incr_string (ChunkRefs prefix i) (detach_write i <$> l) v) g =
  if decide (g ∈ to_string ∘ cm_index <$> l) then None else field_of v g.
Proof.
  revert v. induction l as [|m l IH]; intros v; [done|].
  cbn [fmap list_fmap]. rewrite key_after_cons, IH.
  change (write_key (detach_write i m)) with (ChunkRefs prefix i). rewrite (decide_True (P := ChunkRefs prefix i = _)) by done.
  unfold detach_write. rewrite field_of_hdel. cbn [compose]. repeat case_decide; try done; set_solver.
Qed.

(** Which chunks a size change removes from the map. *)
Definition after_drop (l : list ChunkMapping) (index : Z) (before : option Z) : option Z :=
  if decide (index ∈ cm_index <$> l) then None else before.

Lemma attachment_after_dels d ws l i index :
  0 ≤ i → 0 ≤ index → Forall (λ m, 0 ≤ cm_index m) l → Forall (λ w, write_key w ≠ ChunkRefs prefix i) ws →
  chunk_of (field_of (key_after incr_string (ChunkRefs prefix i) (ws ++ (detach_write i <$> l)) (d !! ChunkRefs prefix i)) (to_string index)) =
  after_drop l index (attachment_at prefix d i index).
Proof.
  intros Hi Hidx Hl Hws. rewrite key_after_app, (key_after_frame _ ws) by done. rewrite detached_fields.
  unfold after_drop, attachment_at.
  assert (to_string index ∈ to_string ∘ cm_index <$> l ↔ index ∈ cm_index <$> l) as Hiff.
  { rewrite !list_elem_of_fmap. rewrite Forall_forall in Hl. split; intros (m & E & Hm); exists m; (split; [|done]).
    - by apply to_string_inj in E; [|done|apply Hl].
    - by rewrite E. }
  do 2 case_decide; tauto || done.
Qed.

Lemma PrepareSetAttrMutation_size x requested fields y :
  HasSetAttrField fields kSize = true → PrepareSetAttrMutation now x requested fields = Ok y →
  ino y = ino x ∧ size (attr y) = size requested.
Proof.
  intros Hf E. unfold PrepareSetAttrMutation in E. inv_result.
  set (x' := set_attr (mutate_attr now requested fields (attr x)) x) in *.
  assert (ino x' = ino x ∧ size (attr x') = size requested) as [Hi Hs].
  { split; [done|]. cbn. unfold mutate_attr. rewrite Hf.
    repeat (rewrite (when_keeps size) by (intros; unfold ClearSetidForKillPriv; by rewrite ?touch_attr_size)). done. }
  destruct (HasSetAttrField fields kMode); [|inv_result; by subst].
  unfold SyncPosixAccessAclForMode in E. destruct (map_find _ _); inv_result; subst; done.
Qed.

(** What a planned and validated size change does, whatever its direction. *)
Record size_change (d : dataset) (i : Z) (plan : ChunkSizePlan) (is_shrink : bool) (res : ChunkSizeCommitResult)
    (x : SwordFsInode) : Prop := {
  sc_inode : inode_at prefix d i = Some x;
  sc_ino : ino (csr_inode res) = ino x;
  sc_old : size (attr x) = fsp_eof (expected_old_state plan);
  sc_new : size (attr (csr_inode res)) = target_eof plan;
  sc_direction : if is_shrink then target_eof plan < size (attr x) else size (attr x) < target_eof plan;
  (** the dropped chunks are those at or beyond the smaller of the two sizes *)
  sc_dropped index : in_range 64 index →
    index ∈ cm_index <$> csr_detached res ↔
    is_Some (attachment_at prefix d i index) ∧ Z.min (size (attr x)) (target_eof plan) ≤ index * chunk_size;
  sc_indices : Forall (λ m, 0 ≤ cm_index m) (csr_detached res);
}.

Lemma ValidateSizeCommitPlan_inv plan eof ms is_shrink cur :
  ValidateSizeCommitPlan plan eof chunk_size ms is_shrink = Ok cur →
  eof = fsp_eof (expected_old_state plan) ∧ if is_shrink then target_eof plan < eof else eof < target_eof plan.
Proof.
  unfold ValidateSizeCommitPlan. destruct (if is_shrink then _ else _) eqn:Hd; [done|]. intros E. inv_result.
  destruct (Z.eqb_spec eof (fsp_eof (expected_old_state plan))); [|done]. split; [done|].
  destruct is_shrink; zify_bools; lia.
Qed.

Lemma size_detached_elem ol nl is_shrink l index :
  index ∈ cm_index <$> size_detached ol nl is_shrink l ↔
  ShouldDetach (if is_shrink then nl else ol) index = true ∧ index ∈ cm_index <$> l.
Proof.
  unfold size_detached. rewrite !list_elem_of_fmap. split.
  - intros (m & -> & Hm). apply list_elem_of_In, filter_In in Hm as [Hin Hs].
    split; [by destruct is_shrink; cbn in Hs; rewrite ?orb_false_r in Hs|]. exists m. split; [done|]. by apply list_elem_of_In.
  - intros (Hs & m & -> & Hm). exists m. split; [done|]. apply list_elem_of_In, filter_In.
    split; [by apply list_elem_of_In|]. destruct is_shrink; cbn; by rewrite ?Hs.
Qed.

Lemma CommitSizeChange_spec d fuel i plan requested fields is_shrink res t :
  0 < chunk_size < 2 ^ 64 → 0 ≤ target_eof plan → refs_canonical prefix d i →
  atomic d (CommitSizeChange prefix chunk_size encoder now fuel i plan requested fields is_shrink) new_txn (Ok res, t) →
  ∃ x ws, size_change d i plan is_shrink res x ∧ Forall (λ w, write_key w = PendingDeletes prefix) ws ∧
    let dels := detach_write i <$> csr_detached res in
    let put := WSet (InodeKey prefix (ino x)) (inode_bytes (csr_inode res)) in
    queued t = ws ++ (if is_shrink then put :: dels else dels ++ [put]).
Proof.
  intros Hcs Ht Hcan Ha.
  apply CommitSizeChange_inv in Ha as (snap & cur & ol & nl & ws & Hr & Hf & Hsz & Hv & Hp & Hol & Hnl & Hd & Hws & Hq); [|done].
  apply ReadFileMappingSnapshot_Ok in Hr as (_ & _ & Hx & Hxok & _ & _ & _ & Hms & Hatt); [|done].
  destruct (PrepareSetAttrMutation_size _ _ _ _ Hf Hp) as [Hino Hsize].
  apply ValidateSizeCommitPlan_inv in Hv as [Hold Hdir].
  assert (0 ≤ size (attr (fms_inode snap))) as Hpos.
  { destruct Hxok as [_ [[U _ _ _ _] _] _ _ _ _ _]. split_forall. unfold in_range in *. lia. }
  exists (fms_inode snap), ws. split; [|split; [done|]; by rewrite <- Hino].
  constructor; [done|done|done|congruence|done| |].
  - intros index Hidx. rewrite Hd, size_detached_elem.
    assert (index ∈ cm_index <$> fms_mappings snap ↔ is_Some (attachment_at prefix d i index)) as ->.
    { rewrite list_elem_of_fmap. split.
      - intros (m & -> & Hm). exists (cm_chunk_id m). apply Hatt; [done|]. by destruct m.
      - intros [c Hc]. apply Hatt in Hc; [|done]. by exists (mkChunkMapping index c). }
    unfold in_range in Hidx.
    destruct is_shrink; [destruct (layout_spec _ _ _ Ht Hcs Hnl) as [Hs _]|destruct (layout_spec _ _ _ Hpos Hcs Hol) as [Hs _]];
      rewrite Hs by lia; rewrite ?Z.min_l, ?Z.min_r by lia; tauto.
  - rewrite Hd. apply Forall_forall. intros m Hm. apply list_elem_of_In, filter_In in Hm as [Hm _].
    rewrite Forall_forall in Hms. apply list_elem_of_In, Hms in Hm as [[? _] _]. done.
Qed.

Lemma take_around {A : Type} n (p : list A) w l :
  take n (p ++ w :: l) = take n p ∨ ∃ m, take n (p ++ w :: l) = p ++ w :: take m l.
Proof.
  rewrite take_app. destruct (n - length p)%nat as [|m] eqn:E; cbn; [left; by rewrite app_nil_r|right].
  exists m. by rewrite (take_ge p) by lia.
Qed.

Lemma pending_frame ws n k :
  Forall (λ w, write_key w = PendingDeletes prefix) ws → k ≠ PendingDeletes prefix →
  Forall (λ w, write_key w ≠ k) (take n ws).
Proof. intros Hws Hk. apply Forall_take. eapply Forall_impl; [exact Hws|]. cbn. congruence. Qed.

Lemma dels_frame i l k : k ≠ ChunkRefs prefix i → Forall (λ w, write_key w ≠ k) (detach_write i <$> l).
Proof. intros Hk. apply Forall_fmap, Forall_true. cbn. congruence. Qed.

Lemma queue_keys i ws :
  0 ≤ i → Forall (λ w, write_key w = PendingDeletes prefix) ws →
  InodeKey prefix i ≠ ChunkRefs prefix i ∧
  (∀ n, Forall (λ w, write_key w ≠ InodeKey prefix i) (take n ws) ∧ Forall (λ w, write_key w ≠ ChunkRefs prefix i) (take n ws)).
Proof.
  intros Hi Hws. split; [key_neq|]. intros n. split; apply pending_frame; try done; key_neq.
Qed.

Lemma all_frame {A : Type} (P : A → Prop) l : (∀ n, Forall P (take n l)) → Forall P l.
Proof. intros Hl. specialize (Hl (length l)). by rewrite take_ge in Hl. Qed.

(** After the new size, and then some of the detachments. *)
Lemma shrunk_state d i y ws l index :
  0 ≤ i → 0 ≤ index → Forall (λ m, 0 ≤ cm_index m) l → Forall (λ w, write_key w = PendingDeletes prefix) ws →
  let d' := (apply_writes incr_string (ws ++ WSet (InodeKey prefix i) (inode_bytes y) :: (detach_write i <$> l)) d).1 in
  d' !! InodeKey prefix i = Some (RVStr (inode_bytes y) false) ∧
  attachment_at prefix d' i index = after_drop l index (attachment_at prefix d i index).
Proof.
  intros Hi Hidx Hl Hws d'. unfold attachment_at at 1, d'. rewrite !lookup_apply_writes.
  destruct (queue_keys i ws Hi Hws) as [Hne Hfr]. split.
  - rewrite key_after_app, key_after_put; [done|]. by apply dels_frame.
  - set (put := WSet _ _).
    replace (ws ++ put :: (detach_write i <$> l)) with ((ws ++ [put]) ++ (detach_write i <$> l)) by by rewrite <- app_assoc.
    apply attachment_after_dels; [done..|]. apply Forall_app. split; [apply all_frame; intros; apply Hfr|].
    by apply Forall_singleton.
Qed.

(** After some of the detachments, and then perhaps the new size. *)
Lemma grown_state d i ws l index :
  0 ≤ i → 0 ≤ index → Forall (λ m, 0 ≤ cm_index m) l → Forall (λ w, write_key w = PendingDeletes prefix) ws →
  let q := ws ++ (detach_write i <$> l) in
  let d' := (apply_writes incr_string q d).1 in
  (d' !! InodeKey prefix i = d !! InodeKey prefix i ∧
   attachment_at prefix d' i index = after_drop l index (attachment_at prefix d i index)) ∧
  ∀ y, let d2 := (apply_writes incr_string (q ++ [WSet (InodeKey prefix i) (inode_bytes y)]) d).1 in
  d2 !! InodeKey prefix i = Some (RVStr (inode_bytes y) false) ∧
  attachment_at prefix d2 i index = after_drop l index (attachment_at prefix d i index).
Proof.
  intros Hi Hidx Hl Hws q d'. destruct (queue_keys i ws Hi Hws) as [Hne Hfr].
  assert (Forall (λ w, write_key w ≠ InodeKey prefix i) q) as Hq.
  { apply Forall_app. split; [apply all_frame; intros; apply Hfr|by apply dels_frame]. }
  assert (Forall (λ w, write_key w ≠ ChunkRefs prefix i) ws) as Hc by (apply all_frame; intros; apply Hfr).
  split; [|intros y d2]; unfold attachment_at at 1; [unfold d'|unfold d2]; rewrite !lookup_apply_writes.
  - split; [by apply key_after_frame|]. by apply attachment_after_dels.
  - rewrite !(key_after_app _ q). split; [by apply key_after_put|].
    rewrite (key_after_frame (ChunkRefs prefix i) [_]) by by apply Forall_singleton.
    by apply attachment_after_dels.
Qed.

Definition kept_below (eof index : Z) (before : option Z) : option Z :=
  if eof <=? index * chunk_size then None else before.

Lemma after_drop_kept d i plan s res x index :
  in_range 64 index → size_change d i plan s res x →
  after_drop (csr_detached res) index (attachment_at prefix d i index) =
  kept_below (Z.min (size (attr x)) (target_eof plan)) index (attachment_at prefix d i index).
Proof.
  intros Hidx Hsc. unfold after_drop, kept_below. pose proof (sc_dropped _ _ _ _ _ _ Hsc index Hidx) as Hd.
  case_decide as Hin.
  - apply Hd in Hin as [_ ?]. by destruct (Z.leb_spec (Z.min (size (attr x)) (target_eof plan)) (index * chunk_size)); [|lia].
  - destruct (Z.leb_spec (Z.min (size (attr x)) (target_eof plan)) (index * chunk_size)); [|done].
    destruct (attachment_at prefix d i index) as [c|] eqn:E; [|done]. destruct Hin. apply Hd. split; [by eexists|done].
Qed.

Lemma shrink_kept d i plan res x index :
  in_range 64 index → size_change d i plan true res x →
  after_drop (csr_detached res) index (attachment_at prefix d i index) =
  kept_below (target_eof plan) index (attachment_at prefix d i index).
Proof.
  intros Hidx Hsc. rewrite (after_drop_kept _ _ _ _ _ _ _ Hidx Hsc). pose proof (sc_direction _ _ _ _ _ _ Hsc). cbn in *.
  by rewrite Z.min_r by lia.
Qed.

Lemma after_drop_take l m index o : after_drop (take m l) index o = o ∨ after_drop (take m l) index o = after_drop l index o.
Proof.
  unfold after_drop. case_decide as Hin; [right|by left]. rewrite decide_True; [done|].
  apply list_elem_of_fmap in Hin as (m' & -> & Hm'). apply list_elem_of_fmap. exists m'. split; [done|].
  rewrite <- (take_drop m l). apply elem_of_app. by left.
Qed.

(** C9: shrinking a file is safe at every point of its transaction.  The size change was
    planned against the current EOF; whatever prefix of it the server executes, either
    the old inode stands and no attachment is missing, or the new, smaller EOF is
    published and only attachments at or beyond it may be gone; the full commit leaves
    exactly the attachments below the new EOF. *)
Theorem CommitShrink_safe d fuel i plan requested fields res :
  0 ≤ i → 0 < chunk_size < 2 ^ 64 → 0 ≤ target_eof plan → own_keys prefix d → refs_canonical prefix d i →
  let shrink := CommitShrink prefix chunk_size encoder now fuel i plan requested fields in
  let before index := attachment_at prefix d i index in
  let published d' := d' !! InodeKey prefix i = Some (RVStr (inode_bytes (csr_inode res)) false) in
  (∀ n d', cut_state shrink d n res d' →
     ∃ x, size_change d i plan true res x ∧ ∀ index, in_range 64 index →
       let after := attachment_at prefix d' i index in
       (d' !! InodeKey prefix i = d !! InodeKey prefix i ∧ after = before index) ∨
       (published d' ∧ (after = before index ∨ after = kept_below (target_eof plan) index (before index)))) ∧
  (∀ d', commits shrink d res d' →
     published d' ∧ ∀ index, in_range 64 index →
       attachment_at prefix d' i index = kept_below (target_eof plan) index (before index)).
Proof.
  intros Hi Hcs Ht Hown Hcan shrink before published. split.
  - intros n d' (t & Ha & ->). apply CommitSizeChange_spec in Ha as (x & ws & Hsc & Hws & ->); [|done..].
    exists x. split; [done|]. intros index Hidx. cbv zeta. rewrite (Hown i x Hi (sc_inode _ _ _ _ _ _ Hsc)).
    destruct (take_around n ws (WSet (InodeKey prefix i) (inode_bytes (csr_inode res))) (detach_write i <$> csr_detached res))
      as [->|(m & ->)].
    + left. destruct (queue_keys i ws Hi Hws) as [_ Hfr]. unfold before, attachment_at.
      rewrite !lookup_apply_writes, !key_after_frame by apply Hfr. done.
    + right. rewrite <- (fmap_take (detach_write i)).
      destruct (shrunk_state d i (csr_inode res) ws (take m (csr_detached res)) index) as [Hino Hatt];
        [done|by destruct Hidx|apply Forall_take, (sc_indices _ _ _ _ _ _ Hsc)|done|].
      split; [done|]. rewrite Hatt. unfold before. rewrite <- (shrink_kept _ _ _ _ _ _ Hidx Hsc). apply after_drop_take.
  - intros d' (t & Ha & ->). apply CommitSizeChange_spec in Ha as (x & ws & Hsc & Hws & ->); [|done..].
    rewrite (Hown i x Hi (sc_inode _ _ _ _ _ _ Hsc)).
    assert (∀ index, in_range 64 index → _) as Hst
      by (intros index Hidx; exact (shrunk_state d i (csr_inode res) ws (csr_detached res) index Hi (proj1 Hidx)
            (sc_indices _ _ _ _ _ _ Hsc) Hws)).
    split; [by apply (Hst 0)|]. intros index Hidx. unfold before. rewrite <- (shrink_kept _ _ _ _ _ _ Hidx Hsc). by apply Hst.
Qed.

(** C17: growing a file exposes no stale chunk.  Whatever prefix of the transaction the
    server executes, attachments below the old EOF are untouched, and once the larger EOF
    is visible no attachment left behind at or beyond the old EOF is: the new range reads
    as a hole. *)
Theorem CommitGrow_safe d fuel i plan requested fields res n d' :
  0 ≤ i → 0 < chunk_size < 2 ^ 64 → 0 ≤ target_eof plan → own_keys prefix d → refs_canonical prefix d i →
  cut_state (CommitGrow prefix chunk_size encoder now fuel i plan requested fields) d n res d' →
  ∃ x, size_change d i plan false res x ∧
    (d' !! InodeKey prefix i = d !! InodeKey prefix i ∨
     d' !! InodeKey prefix i = Some (RVStr (inode_bytes (csr_inode res)) false) ∧
     ∀ index, in_range 64 index → size (attr x) ≤ index * chunk_size → attachment_at prefix d' i index = None) ∧
    ∀ index, in_range 64 index → index * chunk_size < size (attr x) →
      attachment_at prefix d' i index = attachment_at prefix d i index.
Proof.
  intros Hi Hcs Ht Hown Hcan (t & Ha & ->). apply CommitSizeChange_spec in Ha as (x & ws & Hsc & Hws & ->); [|done..].
  exists x. split; [done|]. rewrite (Hown i x Hi (sc_inode _ _ _ _ _ _ Hsc)).
  pose proof (sc_indices _ _ _ _ _ _ Hsc) as Hl.
  assert (∀ index, in_range 64 index → _) as Hkept
    by (intros index Hidx; exact (after_drop_kept _ _ _ _ _ _ index Hidx Hsc)).
  assert (Z.min (size (attr x)) (target_eof plan) = size (attr x)) as Hmin
    by (pose proof (sc_direction _ _ _ _ _ _ Hsc); cbn in *; lia).
  rewrite Hmin in Hkept. unfold kept_below in Hkept. rewrite app_assoc.
  destruct (take_around n (ws ++ (detach_write i <$> csr_detached res)) (WSet (InodeKey prefix i) (inode_bytes (csr_inode res))) [])
    as [->|(m & ->)].
  - rewrite take_app, <- fmap_take.
    pose proof (λ index Hidx, grown_state d i (take n ws) (take (n - length ws) (csr_detached res)) index Hi Hidx
      ltac:(by apply Forall_take) ltac:(by apply Forall_take)) as Hg.
    split; [left; by apply (Hg 0)|]. intros index Hidx Hlt. destruct (Hg index (proj1 Hidx)) as [[_ ->] _].
    destruct (after_drop_take (csr_detached res) (n - length ws) index (attachment_at prefix d i index)) as [->| ->]; [done|].
    rewrite Hkept by done. by destruct (Z.leb_spec (size (attr x)) (index * chunk_size)); [lia|].
  - rewrite take_nil.
    pose proof (λ index Hidx, proj2 (grown_state d i ws (csr_detached res) index Hi Hidx Hl Hws) (csr_inode res)) as Hg.
    split; [right; split; [by apply (Hg 0)|]|]; intros index Hidx Hle; destruct (Hg index (proj1 Hidx)) as [_ ->];
      rewrite Hkept by done; destruct (Z.leb_spec (size (attr x)) (index * chunk_size)); done || lia.
Qed.
End SizeChanges.

(** ** Witnesses: a file of two chunks on one dataset *)
Lemma cut_state_run {A : Type} (p : kv A) (d : dataset) n a t :
  run (H := DatasetRedis) d p new_txn = (Ok a, t) →
  cut_state (H := DatasetRedis) p d n a (apply_writes decimal_incr (take n (queued t)) d).1.
Proof. intros E. exists t. split; [|done]. rewrite <- E. apply (run_atomic (H := DatasetRedis)). Qed.

Definition volume_prefix : bytes := lit "{0:v}:".
Definition sample_file : SwordFsInode :=
  mkInode 9 (set_size 25 (new_attr 100 9 (Z.lor S_IFREG 420) 1000 1000)) 1 [] [].
Definition sample_refs : gmap bytes bytes := <[to_string 0 := to_string 10]> (<[to_string 2 := to_string 12]> ∅).
Definition sample_store : dataset :=
  <[InodeKey volume_prefix 9 := RVStr (inode_bytes sample_file) false]>
  (<[ChunkRefs volume_prefix 9 := RVHash sample_refs]> ∅).

Lemma sample_file_parses : Inode_ParseFrom (inode_bytes sample_file) = Ok sample_file.
Proof. vm_compute. reflexivity. Qed.

Lemma sample_store_inode i x : 0 ≤ i → inode_at volume_prefix sample_store i = Some x → i = 9 ∧ x = sample_file.
Proof.
  intros Hi. unfold inode_at, sample_store. destruct (decide (i = 9)) as [->|Hne].
  - rewrite lookup_insert_eq. unfold inode_of. rewrite sample_file_parses. by intros [= <-].
  - rewrite !lookup_insert_ne by (apply not_eq_sym; key_neq). by rewrite lookup_empty.
Qed.
Lemma sample_store_own : own_keys volume_prefix sample_store.
Proof. intros i x Hi Hx. by destruct (sample_store_inode i x Hi Hx) as [-> ->]. Qed.
Lemma sample_store_refs : sample_store !! ChunkRefs volume_prefix 9 = Some (RVHash sample_refs).
Proof. unfold sample_store. rewrite lookup_insert_ne by key_neq. by rewrite lookup_insert_eq. Qed.
Lemma sample_store_canonical : refs_canonical volume_prefix sample_store 9.
Proof.
  intros f v. rewrite sample_store_refs. cbn [field_of]. unfold sample_refs.
  intros [[<- _]|[_ Hf]]%lookup_insert_Some; [by exists 0|].
  apply lookup_insert_Some in Hf as [[<- _]|[_ Hf]]; [by exists 2|]. by rewrite lookup_empty in Hf.
Qed.

Definition grow_precondition : FileSizePrecondition :=
  mkFileSizePrecondition 25 (Some (mkChunkBoundarySnapshot 2 (Some 12) 5)).
Definition attach_sample : kv unit := AttachPrepared volume_prefix 10 100 9 3 13 35 grow_precondition.
Definition attach_queue : list kv_write :=
  [WSet (InodeKey volume_prefix 9) (inode_bytes (written_inode 100 sample_file 35));
   WHSet (ChunkRefs volume_prefix 9) (to_string 3) (to_string 13)].

Lemma attach_sample_runs : run (H := DatasetRedis) sample_store attach_sample new_txn = (Ok tt, mkTxn true attach_queue).
Proof. vm_compute. reflexivity. Qed.

Lemma AttachPrepared_publishes_witness :
  let d' := (apply_writes decimal_incr (take 2 attach_queue) sample_store).1 in
  attachment_at volume_prefix d' 9 3 = Some 13 ∧
  attachment_at volume_prefix d' 9 0 = attachment_at volume_prefix sample_store 9 0.
Proof.
  intros d'.
  destruct (AttachPrepared_publishes (H := DatasetRedis) volume_prefix 10 100 sample_store 9 3 13 35 grow_precondition 2 d')
    as ((x & _ & _ & _ & Hfull) & Hframe & _); try lia.
  - apply (bool_decide_eq_true_1 (in_range_signed 64 100)). reflexivity.
  - apply (bool_decide_eq_true_1 (in_range 64 35)). reflexivity.
  - apply sample_store_own.
  - apply (cut_state_run attach_sample sample_store 2 tt (mkTxn true attach_queue)). apply attach_sample_runs.
  - split; [by apply Hfull|]. apply Hframe; [lia|lia|by right].
Defined.

Lemma ReadFileMappingSnapshot_exact_witness :
  ∃ snap, run (H := DatasetRedis) sample_store (ReadFileMappingSnapshot volume_prefix 1 9) new_txn = (Ok snap, new_txn) ∧
    ∀ index c, in_range 64 index →
      mkChunkMapping index c ∈ fms_mappings snap ↔ attachment_at volume_prefix sample_store 9 index = Some c.
Proof.
  exists (mkMappingSnapshot sample_file [mkChunkMapping 0 10; mkChunkMapping 2 12]).
  assert (run (H := DatasetRedis) sample_store (ReadFileMappingSnapshot volume_prefix 1 9) new_txn =
    (Ok (mkMappingSnapshot sample_file [mkChunkMapping 0 10; mkChunkMapping 2 12]), new_txn)) as E
    by (vm_compute; reflexivity).
  split; [exact E|].
  destruct (ReadFileMappingSnapshot_exact (H := DatasetRedis) volume_prefix sample_store 1 9 new_txn
    (Ok (mkMappingSnapshot sample_file [mkChunkMapping 0 10; mkChunkMapping 2 12])) new_txn) as [_ Hs].
  - reflexivity.
  - apply sample_store_canonical.
  - lia.
  - intros h _. exact (le_n 1).
  - rewrite <- E. apply (run_atomic (H := DatasetRedis)).
  - apply (Hs _ eq_refl).
Defined.

Definition shrink_plan : ChunkSizePlan :=
  mkChunkSizePlan 15 grow_precondition (Some (mkRetainedChunkBoundary 1 0 5)) [12].
Definition sample_size_request (eof : Z) : SwordFsAttr := set_size eof zero_attr.
Definition shrink_sample : kv ChunkSizeCommitResult :=
  CommitShrink volume_prefix 10 (Some SliceEncoder) 100 1 9 shrink_plan (sample_size_request 15) kSize.
Definition shrunk_file : SwordFsInode := set_attr (mutate_attr 100 (sample_size_request 15) kSize (attr sample_file)) sample_file.
Definition shrink_result : ChunkSizeCommitResult := mkCommitResult shrunk_file None [mkChunkMapping 2 12].

Lemma shrink_sample_runs : ∃ t, run (H := DatasetRedis) sample_store shrink_sample new_txn = (Ok shrink_result, t).
Proof. eexists. vm_compute. reflexivity. Qed.

Lemma CommitShrink_safe_witness :
  ∃ d', commits (H := DatasetRedis) shrink_sample sample_store shrink_result d' ∧
    attachment_at volume_prefix d' 9 2 = None ∧
    attachment_at volume_prefix d' 9 0 = attachment_at volume_prefix sample_store 9 0.
Proof.
  destruct shrink_sample_runs as [t E].
  assert (commits (H := DatasetRedis) shrink_sample sample_store shrink_result
    (apply_writes decimal_incr (queued t) sample_store).1) as Hc.
  { by apply commits_run. }
  eexists. split; [exact Hc|].
  destruct (CommitShrink_safe (H := DatasetRedis) volume_prefix 10 (Some SliceEncoder) 100 sample_store 1 9 shrink_plan
    (sample_size_request 15) kSize shrink_result) as [_ Hs]; [lia|lia|cbn; lia|apply sample_store_own|apply sample_store_canonical|].
  destruct (Hs _ Hc) as [_ Ha]. split; apply Ha; apply (bool_decide_eq_true_1 (in_range 64 _)); reflexivity.
Defined.

Definition grow_plan : ChunkSizePlan :=
  mkChunkSizePlan 50 grow_precondition (Some (mkRetainedChunkBoundary 2 12 5)) [].
Definition grow_sample : kv ChunkSizeCommitResult :=
  CommitGrow volume_prefix 10 (Some SliceEncoder) 100 1 9 grow_plan (sample_size_request 50) kSize.
Definition grow_result : ChunkSizeCommitResult :=
  mkCommitResult (set_attr (mutate_attr 100 (sample_size_request 50) kSize (attr sample_file)) sample_file)
    (Some (mkRetainedChunkBoundary 2 12 5)) [].

Lemma CommitGrow_safe_witness :
  ∃ d' x, cut_state (H := DatasetRedis) grow_sample sample_store 1 grow_result d' ∧
    size_change volume_prefix 10 sample_store 9 grow_plan false grow_result x.
Proof.
  assert (∃ t, run (H := DatasetRedis) sample_store grow_sample new_txn = (Ok grow_result, t)) as [t E]
    by (eexists; vm_compute; reflexivity).
  pose proof (cut_state_run _ _ 1 _ _ E) as Hcut. eexists. 
  destruct (CommitGrow_safe (H := DatasetRedis) volume_prefix 10 (Some SliceEncoder) 100 sample_store 1 9 grow_plan
    (sample_size_request 50) kSize grow_result 1 _ ltac:(lia) ltac:(lia) ltac:(cbn; lia) sample_store_own
    sample_store_canonical Hcut) as (x & Hx & _).
  exists x. split; [exact Hcut|exact Hx].
Defined.
