(* ===== verification/LockRecords.v ===== *)
(** * Advisory lock records

    The stored form of POSIX record locks and BSD flocks
    (src/src/metadata/redis/RedisLockAuthority.cpp): owner fields, range sets, their text
    encoding and the update of a range set by a request.  Offsets are 64-bit unsigned and
    [UINT64_MAX] is the end of an unbounded range; PIDs are 32-bit signed. *)

From S2P Require Import Prelude Decimal RedisKey.

Definition kMaxHolders : Z := 1024.
Definition kMaxValueBytes : Z := 4096.
Definition kMaxIntervals : Z := 128.
Definition kFenceField : bytes := lit "!fence".

Inductive PosixType := kRead | kWrite | kUnlock.
#[export] Instance PosixType_eq_dec : EqDecision PosixType.
Proof. solve_decision. Defined.
Inductive FlockType := kShared | kExclusive | kFlockUnlock.
#[export] Instance FlockType_eq_dec : EqDecision FlockType.
Proof. solve_decision. Defined.

Record PosixRange := mkPosixRange { pr_start : Z; pr_length : Z; pr_type : PosixType; pr_pid : Z }.
Record Interval := mkInterval { iv_start : Z; iv_end : Z; iv_type : PosixType; iv_pid : Z }.
#[export] Instance Interval_eq_dec : EqDecision Interval.
Proof. solve_decision. Defined.

Section LockRecords.
Context `{FollyFormat}.

Definition owner_field (generation kernel_owner : Z) : bytes := fmt generation ++ lit ":" ++ fmt kernel_owner.

(** [ParseNumber] is [from_chars]: the empty text is not a number. *)
Definition ParseNumber (text : bytes) : option Z := from_chars text.

Definition ParseOwner (field : bytes) : option (Z * Z) :=
  let '(first, second) := SplitOnce field ":" in
  if negb (contains field ":") then None else
  match ParseNumber first, ParseNumber second with
  | Some generation, Some kernel_owner =>
      if (generation >? 0) && bool_decide (field = owner_field generation kernel_owner)
      then Some (generation, kernel_owner) else None
  | _, _ => None
  end.

Definition ValidateRange (range : PosixRange) : result Interval :=
  _ ← fail_if (negb (pr_length range =? 0) && (pr_length range >? UINT64_MAX - pr_start range)) InvalidArgument;
  _ ← fail_if (pr_pid range <? 0) InvalidArgument;
  let end_ := if pr_length range =? 0 then UINT64_MAX else pr_start range + pr_length range in
  _ ← fail_if (pr_start range =? end_) InvalidArgument;
  Ok (mkInterval (pr_start range) end_ (pr_type range) (pr_pid range)).

Definition Overlaps (a b : Interval) : bool := (iv_start a <? iv_end b) && (iv_start b <? iv_end a).

(** ** Text encoding *)
Definition DecodeFlock (data : bytes) : result FlockType :=
  if bool_decide (data = lit "F1|S") then Ok kShared else
  if bool_decide (data = lit "F1|X") then Ok kExclusive else Err Malformed.
Definition EncodeFlock (t : FlockType) : bytes :=
  match t with kShared => lit "F1|S" | kExclusive => lit "F1|X" | kFlockUnlock => [] end.

(** One entry: kind, start, end, pid. *)
Definition parse_entry (entry : bytes) : option Interval :=
  let '(kind, tail) := SplitOnce entry "," in
  let '(start, remaining) := SplitOnce tail "," in
  let '(end_, pid) := SplitOnce remaining "," in
  if (negb (bool_decide (kind = lit "R")) && negb (bool_decide (kind = lit "W"))) || negb (contains remaining ",") then None else
  match ParseNumber start, ParseNumber end_, ParseNumber pid with
  | Some first, Some last, Some holder_pid =>
      if (holder_pid >? INT32_MAX) || (first >=? last) then None
      else Some (mkInterval first last (if bool_decide (kind = lit "R") then kRead else kWrite) holder_pid)
  | _, _, _ => None
  end.

(** The next range neither overlaps the previous one nor could be merged with it. *)
Definition mergeable (a b : Interval) : bool :=
  (iv_end a =? iv_start b) && bool_decide (iv_type a = iv_type b) && (iv_pid a =? iv_pid b).
Definition follows (ranges : list Interval) (next : Interval) : bool :=
  match last ranges with
  | None => true
  | Some back => negb ((iv_end back >? iv_start next) || mergeable back next)
  end.

Fixpoint decode_entries (fuel : nat) (data : bytes) (ranges : list Interval) : result (list Interval) :=
  match fuel with
  | O => Err Malformed
  | S fuel =>
      let '(entry, rest) := SplitOnce data "|" in
      match parse_entry entry with
      | None => Err Malformed
      | Some iv =>
          _ ← fail_if (negb (follows ranges iv)) Malformed;
          let ranges := ranges ++ [iv] in
          _ ← fail_if (zlen ranges >? kMaxIntervals) Malformed;
          if bool_decide (rest = []) then Ok ranges else decode_entries fuel rest ranges
      end
  end.

Definition DecodePosix (data : bytes) : result (list Interval) :=
  _ ← fail_if (zlen data >? kMaxValueBytes) Malformed;
  _ ← fail_if (negb (bool_decide (take 3 data = lit "P2|"))) Malformed;
  let data := drop 3 data in
  _ ← fail_if (bool_decide (data = []) || bool_decide (last data = Some "|"%char)) Malformed;
  decode_entries (S (length data)) data [].

Definition encode_entry (r : Interval) : bytes :=
  lit "|" ++ (match iv_type r with kRead => lit "R" | _ => lit "W" end) ++ lit "," ++ fmt (iv_start r) ++ lit "," ++
  fmt (iv_end r) ++ lit "," ++ fmt (iv_pid r).
Definition Encode (ranges : list Interval) : bytes := lit "P2" ++ concat (encode_entry <$> ranges).

(** ** Updating a range set *)
Definition cut (request part : Interval) : list Interval :=
  if negb (Overlaps part request) then [part] else
  (if iv_start part <? iv_start request
   then [mkInterval (iv_start part) (iv_start request) (iv_type part) (iv_pid part)] else []) ++
  (if iv_end request <? iv_end part
   then [mkInterval (iv_end request) (iv_end part) (iv_type part) (iv_pid part)] else []).

(** The merge loop: [ranges] is what has been pushed so far. *)
Definition push_merged (ranges : list Interval) (part : Interval) : list Interval :=
  match last ranges with
  | Some back =>
      if mergeable back part
      then removelast ranges ++ [mkInterval (iv_start back) (iv_end part) (iv_type back) (iv_pid back)]
      else ranges ++ [part]
  | None => ranges ++ [part]
  end.

Definition replace_range (ranges : list Interval) (request : Interval) : list Interval :=
  let next := concat (cut request <$> ranges) ++ (if bool_decide (iv_type request = kUnlock) then [] else [request]) in
  foldl push_merged [] (sort_by iv_start next).

Definition UpdateRanges (ranges : list Interval) (request : Interval) : result (list Interval) :=
  let ranges := replace_range ranges request in
  _ ← fail_if ((zlen ranges >? kMaxIntervals) || (zlen (Encode ranges) >? kMaxValueBytes)) NoLocks;
  Ok ranges.
End LockRecords.

(** ** What a range set means *)
Definition covers (r : Interval) (p : Z) : Prop := iv_start r ≤ p < iv_end r.
(** Point [p] is held in mode [v.1] by process [v.2]. *)
Definition held (l : list Interval) (p : Z) (v : PosixType * Z) : Prop :=
  ∃ r, r ∈ l ∧ covers r p ∧ v = (iv_type r, iv_pid r).
Definition proper (r : Interval) : Prop := iv_start r < iv_end r ∧ iv_type r ≠ kUnlock.
Definition before (a b : Interval) : Prop := iv_end a ≤ iv_start b.

(** Stored range sets: sorted, disjoint, maximally merged. *)
Inductive canonical : list Interval → Prop :=
  | canonical_nil : canonical []
  | canonical_snoc l r : canonical l → proper r → follows l r = true → canonical (l ++ [r]).

Lemma canonical_snoc_inv l r : canonical (l ++ [r]) → canonical l ∧ proper r ∧ follows l r = true.
Proof.
  intros Hc. inversion Hc as [E|l1 r1 ? ? ? E]; [by destruct l|]. by apply app_inj_tail in E as [<- <-].
Qed.

Lemma canonical_inv l : canonical l → l = [] ∨ ∃ l' r, l = l' ++ [r] ∧ canonical l' ∧ proper r ∧ follows l' r = true.
Proof. destruct 1; [by left|]. right. eauto 10. Qed.

Lemma sorted_snoc {A : Type} (R : A → A → Prop) l x :
  StronglySorted R (l ++ [x]) ↔ StronglySorted R l ∧ Forall (λ y, R y x) l.
Proof.
  induction l as [|a l IH]; cbn; [split; [by repeat constructor|repeat constructor]|]. split.
  - inversion 1 as [|?? Hs Hf]; subst. apply IH in Hs as [Hs Hl]. apply Forall_app in Hf as [Hf Hx].
    rewrite Forall_singleton in Hx. split; constructor; assumption.
  - intros [Hs Hf]. inversion Hs; subst. apply Forall_cons in Hf as [??]. constructor; [by apply IH|].
    apply Forall_app. by rewrite Forall_singleton.
Qed.

Lemma canonical_sorted l : canonical l → StronglySorted before l ∧ Forall proper l.
Proof.
  induction 1 as [|l r Hc [IHs IHp] Hr Hf]; [split; constructor|].
  split; [|apply Forall_app; by rewrite Forall_singleton]. apply sorted_snoc. split; [done|].
  destruct (canonical_inv _ Hc) as [->|(l' & b & -> & _)]; [constructor|].
  unfold follows in Hf. rewrite last_snoc in Hf. inv_result. zify_bools.
  apply sorted_snoc in IHs as [_ Hb]. apply Forall_app in IHp as [_ Hpb]. rewrite Forall_singleton in Hpb. destruct Hpb as [Hpb _].
  apply Forall_app. rewrite Forall_singleton. split; [|unfold before; lia].
  eapply Forall_impl; [exact Hb|]. unfold before. intros; lia.
Qed.

(** At most one range holds a point. *)
Lemma sorted_held_unique l p v w : StronglySorted before l → held l p v → held l p w → v = w.
Proof.
  induction 1 as [|a l Hs IH Ha]; [by intros (? & ?%elem_of_nil & _)|].
  intros (r & Hr & Hrp & ->) (r' & Hr' & Hrp' & ->). rewrite Forall_forall in Ha. unfold before, covers in *.
  apply elem_of_cons in Hr as [->|Hr], Hr' as [->|Hr']; [done|specialize (Ha _ Hr'); lia|specialize (Ha _ Hr); lia|].
  apply IH; [by exists r|by exists r'].
Qed.

Lemma held_app l k p v : held (l ++ k) p v ↔ held l p v ∨ held k p v.
Proof.
  unfold held. split.
  - intros (r & [?|?]%elem_of_app & ?); [left|right]; eauto.
  - intros [(r & ? & ?)|(r & ? & ?)]; exists r; rewrite elem_of_app; eauto.
Qed.
Lemma held_one r p v : held [r] p v ↔ covers r p ∧ v = (iv_type r, iv_pid r).
Proof. unfold held. split; [intros (x & ->%list_elem_of_singleton & ?)|intros ?; exists r; rewrite list_elem_of_singleton]; done. Qed.
Lemma held_nil p v : ¬ held [] p v.
Proof. by intros (? & ?%elem_of_nil & _). Qed.
#[local] Instance held_proper : Proper ((≡ₚ) ==> (=) ==> (=) ==> iff) held.
Proof. intros l k E p ? <- v ? <-. unfold held. by setoid_rewrite E. Qed.

(** ** The update: cut, insert, sort, merge *)
Lemma sorted_one {A : Type} (R : A → A → Prop) x : StronglySorted R [x].
Proof. constructor; constructor. Qed.
Lemma sorted_two {A : Type} (R : A → A → Prop) x y : R x y → StronglySorted R [x; y].
Proof. intros. constructor; [apply sorted_one|]. by constructor. Qed.

(** A piece of [r] outside [q]. *)
Definition piece (q r x : Interval) : Prop :=
  iv_start r ≤ iv_start x ∧ iv_start x < iv_end x ∧ iv_end x ≤ iv_end r ∧
  iv_type x = iv_type r ∧ iv_pid x = iv_pid r ∧ (before x q ∨ before q x).

Lemma cut_spec q r :
  iv_start q < iv_end q → iv_start r < iv_end r →
  StronglySorted before (cut q r) ∧ Forall (piece q r) (cut q r) ∧
  ∀ p, covers r p → ¬ covers q p → ∃ x, x ∈ cut q r ∧ covers x p.
Proof.
  intros Hq Hr. unfold cut, Overlaps, piece, before, covers.
  destruct (Z.ltb_spec (iv_start r) (iv_end q)), (Z.ltb_spec (iv_start q) (iv_end r)); cbn [andb negb].
  2-4: split; [apply sorted_one|]; split; [rewrite Forall_singleton; split_and!; done || lia|]; intros p ? _; exists r; split; [by left|lia].
  destruct (Z.ltb_spec (iv_start r) (iv_start q)), (Z.ltb_spec (iv_end q) (iv_end r)); cbn [app].
  - split; [apply sorted_two; cbn; lia|]. split; [repeat (apply Forall_cons; split; [cbn; split_and!; done || lia|]); constructor|].
    intros p Hp Hnp. destruct (Z.lt_ge_cases p (iv_start q)); eexists; (split; [|]); [by left|cbn; lia|right; by left|cbn; lia].
  - split; [apply sorted_one|]. split; [rewrite Forall_singleton; cbn; split_and!; done || lia|]. intros p Hp Hnp.
    eexists; (split; [by left|cbn; lia]).
  - split; [apply sorted_one|]. split; [rewrite Forall_singleton; cbn; split_and!; done || lia|]. intros p Hp Hnp.
    eexists; (split; [by left|cbn; lia]).
  - split; [constructor|]. split; [constructor|]. intros p Hp Hnp. lia.
Qed.

Definition apart (a b : Interval) : Prop := before a b ∨ before b a.

Lemma sorted_app {A : Type} (R : A → A → Prop) l k :
  StronglySorted R l → StronglySorted R k → (∀ a b, a ∈ l → b ∈ k → R a b) → StronglySorted R (l ++ k).
Proof.
  induction 1 as [|a l Hs IH Ha]; cbn; [done|]. intros Hk Hlk. constructor.
  - apply IH; [done|]. intros. apply Hlk; [by right|done].
  - apply Forall_app. split; [done|]. apply Forall_forall. intros b Hb. apply Hlk; [by left|done].
Qed.

(** The pieces of the old ranges outside the request. *)
Lemma cut_all_elem q l x : Forall proper l → iv_start q < iv_end q →
  x ∈ concat (cut q <$> l) → ∃ r, r ∈ l ∧ piece q r x.
Proof.
  intros Hp Hq Hx. apply list_elem_of_In, in_concat in Hx as (c & Hc & Hx). apply list_elem_of_In in Hc, Hx.
  apply list_elem_of_fmap in Hc as (r & -> & Hr). exists r. split; [done|]. rewrite Forall_forall in Hp.
  destruct (cut_spec q r Hq) as (_ & Hf & _); [by apply Hp|]. rewrite Forall_forall in Hf. by apply Hf.
Qed.

Lemma cut_all_held q l p v : Forall proper l → iv_start q < iv_end q →
  held (concat (cut q <$> l)) p v ↔ ¬ covers q p ∧ held l p v.
Proof.
  intros Hp Hq. split.
  - intros (x & Hx & Hc & ->). destruct (cut_all_elem _ _ _ Hp Hq Hx) as (r & Hr & ? & ? & ? & E1 & E2 & ?).
    unfold before, covers in *. split; [lia|]. exists r. rewrite E1, E2. split; [done|]. split; [unfold covers; lia|done].
  - intros (Hn & r & Hr & Hc & ->). rewrite Forall_forall in Hp. destruct (cut_spec q r Hq) as (_ & Hf & Hex); [by apply Hp|].
    destruct (Hex p Hc Hn) as (x & Hx & Hxp). exists x. rewrite Forall_forall in Hf.
    destruct (Hf x Hx) as (_ & _ & _ & -> & -> & _). split; [|done].
    apply list_elem_of_In, in_concat. exists (cut q r). split; apply list_elem_of_In; [|done]. by apply list_elem_of_fmap_2.
Qed.

Lemma cut_all_sorted q l :
  iv_start q < iv_end q → StronglySorted before l → Forall proper l → StronglySorted before (concat (cut q <$> l)).
Proof.
  intros Hq. induction 1 as [|r l Hs IH Hr]; intros Hp; cbn [fmap list_fmap concat]; [constructor|].
  apply Forall_cons in Hp as [[Hne Hty] Hp]. destruct (cut_spec q r Hq Hne) as (Hcs & Hcf & _).
  rewrite Forall_forall in Hcf, Hr. apply sorted_app; [done|by apply IH|]. intros a b Ha Hb.
  destruct (Hcf a Ha) as (_ & _ & ? & _). destruct (cut_all_elem _ _ _ Hp Hq Hb) as (r' & Hr' & ? & _).
  specialize (Hr r' Hr'). unfold before in *. lia.
Qed.

Lemma cut_all_parts q l :
  iv_start q < iv_end q → Forall proper l →
  Forall proper (concat (cut q <$> l)) ∧ Forall (apart q) (concat (cut q <$> l)).
Proof.
  intros Hq Hp. split; apply Forall_forall; intros x Hx; destruct (cut_all_elem _ _ _ Hp Hq Hx) as (r & Hr & ? & ? & ? & E & ? & Ho).
  - split; [done|]. rewrite E. rewrite Forall_forall in Hp. by apply Hp.
  - unfold apart. tauto.
Qed.

(** *** Sorting pairwise disjoint ranges *)
Lemma pairs_permute {A : Type} (R : A → A → Prop) l k :
  Symmetric R → l ≡ₚ k → ForallOrdPairs R l → ForallOrdPairs R k.
Proof.
  intros Hsym. induction 1 as [|x l k E IH|x y l|l k m _ IH1 _ IH2]; [done| | |auto].
  - inversion 1; subst. constructor; [by rewrite <- E|auto].
  - inversion 1 as [|?? Hx Hl]; subst. inversion Hl as [|?? Hy Hl']; subst.
    apply Forall_cons in Hx as [??]. constructor; [|by constructor]. apply Forall_cons. split; [by symmetry|done].
Qed.

Lemma sorted_pairs l : StronglySorted before l → ForallOrdPairs apart l.
Proof. induction 1 as [|a l Hs IH Ha]; constructor; [|done]. eapply Forall_impl; [exact Ha|]. by left. Qed.

Lemma pairs_sorted l :
  StronglySorted (key_le iv_start) l → ForallOrdPairs apart l → Forall proper l → StronglySorted before l.
Proof.
  induction 1 as [|a l Hs IH Ha]; [constructor|]. inversion 1 as [|?? Hap Hl]; subst. intros [_ Hp]%Forall_cons.
  constructor; [by apply IH|]. rewrite Forall_forall in *. intros b Hb.
  specialize (Ha b Hb). specialize (Hap b Hb). destruct (Hp b Hb) as [? _]. unfold apart, before, key_le in *. lia.
Qed.

#[local] Instance apart_sym : Symmetric apart.
Proof. intros a b. unfold apart. tauto. Qed.

(** *** Merging *)
Lemma mergeable_spec a b :
  mergeable a b = true ↔ iv_end a = iv_start b ∧ iv_type a = iv_type b ∧ iv_pid a = iv_pid b.
Proof. unfold mergeable. rewrite !andb_true_iff, !Z.eqb_eq, bool_decide_eq_true. tauto. Qed.

Lemma removelast_snoc {A : Type} (l : list A) x : removelast (l ++ [x]) = l.
Proof. rewrite removelast_app by done. cbn. apply app_nil_r. Qed.

Lemma push_merged_spec acc x :
  canonical acc → proper x → (∀ b, last acc = Some b → before b x) →
  canonical (push_merged acc x) ∧ (∀ p v, held (push_merged acc x) p v ↔ held (acc ++ [x]) p v) ∧
  ∃ b, last (push_merged acc x) = Some b ∧ iv_end b = iv_end x.
Proof.
  intros Hc [Hx Hxt] Hb. unfold push_merged. destruct (canonical_inv _ Hc) as [->|(l & b & -> & Hl & [Hbn Hbt] & Hf)].
  { cbn. split; [apply (canonical_snoc []); [done|by split|done]|]. split; [done|]. by exists x. }
  rewrite last_snoc. rewrite last_snoc in Hb. specialize (Hb b eq_refl). unfold before in Hb.
  destruct (mergeable b x) eqn:Hm.
  - apply mergeable_spec in Hm as (E1 & E2 & E3). rewrite removelast_snoc. split; [|split].
    + apply canonical_snoc; [done|split; cbn; [lia|done]|]. exact Hf.
    + intros p v. rewrite !held_app, !held_one. unfold covers. cbn. rewrite <- E2, <- E3. split.
      * intros [?|[Hp ->]]; [by left; left|]. destruct (Z.lt_ge_cases p (iv_end b)); [left; right|right]; (split; [lia|done]).
      * intros [[?|[? ->]]|[? ->]]; [by left|right..]; (split; [lia|done]).
    + eexists. rewrite last_snoc. done.
  - split; [|split; [done|]].
    + apply canonical_snoc; [done|by split|]. unfold follows. rewrite last_snoc, Hm, orb_false_r, negb_true_iff, Z.gtb_ltb. by apply Z.ltb_ge.
    + exists x. by rewrite last_snoc.
Qed.

Lemma merge_spec l acc :
  canonical acc → StronglySorted before l → Forall proper l → (∀ b, last acc = Some b → Forall (before b) l) →
  canonical (foldl push_merged acc l) ∧ ∀ p v, held (foldl push_merged acc l) p v ↔ held (acc ++ l) p v.
Proof.
  revert acc. induction l as [|x l IH]; intros acc Hc Hs Hp Hb; cbn [foldl]; [by rewrite app_nil_r|].
  inversion Hs as [|?? Hs' Hx]; subst. apply Forall_cons in Hp as [Hpx Hp].
  destruct (push_merged_spec acc x Hc Hpx) as (Hc' & Hh & b & Hlast & Hend).
  { intros b E. specialize (Hb b E). by apply Forall_cons in Hb as [? _]. }
  destruct (IH (push_merged acc x) Hc' Hs' Hp) as [IHc IHh].
  { intros b' E. rewrite Hlast in E. injection E as <-. eapply Forall_impl; [exact Hx|]. unfold before. cbn. lia. }
  split; [done|]. intros p v. rewrite IHh, held_app, Hh, <- held_app, <- app_assoc. done.
Qed.

Lemma replace_range_spec ranges request :
  canonical ranges → iv_start request < iv_end request →
  canonical (replace_range ranges request) ∧
  ∀ p v, held (replace_range ranges request) p v ↔
    (covers request p ∧ iv_type request ≠ kUnlock ∧ v = (iv_type request, iv_pid request)) ∨
    (¬ covers request p ∧ held ranges p v).
Proof.
  intros Hc Hq. destruct (canonical_sorted _ Hc) as [Hs Hp]. unfold replace_range.
  set (parts := concat (cut request <$> ranges)). set (req := if bool_decide _ then [] else [request]).
  destruct (cut_all_parts request ranges Hq Hp) as [Hpp Hap]. pose proof (cut_all_sorted request ranges Hq Hs Hp) as Hps.
  assert (Forall proper req ∧ ForallOrdPairs apart (req ++ parts)) as [Hrp Hpairs].
  { unfold req. case_bool_decide as Ht; cbn; [split; [constructor|by apply sorted_pairs]|].
    split; [by apply Forall_singleton|]. constructor; [done|by apply sorted_pairs]. }
  assert (sort_by iv_start (parts ++ req) ≡ₚ req ++ parts) as Eperm
    by (rewrite sort_by_Permutation; apply Permutation_app_comm).
  destruct (merge_spec (sort_by iv_start (parts ++ req)) []) as [Hcan Hheld]; [constructor| | |done|].
  - apply pairs_sorted; [apply sort_by_StronglySorted| |].
    + eapply pairs_permute; [apply _|by symmetry|done].
    + rewrite Eperm. by apply Forall_app.
  - rewrite Eperm. by apply Forall_app.
  - split; [done|]. intros p v. rewrite Hheld. cbn [app]. rewrite Eperm, held_app. unfold parts. rewrite cut_all_held by done.
    apply or_iff_compat_r. unfold req. case_bool_decide as Ht; [|rewrite held_one; tauto].
    split; [by intros ?%held_nil|by intros (_ & ? & _)].
Qed.

(** New bounds and PIDs are old ones. *)
Lemma push_merged_Forall (P : Interval → Prop) acc x :
  (∀ a b, P a → P b → P (mkInterval (iv_start a) (iv_end b) (iv_type a) (iv_pid a))) →
  Forall P acc → P x → Forall P (push_merged acc x).
Proof.
  intros Hm Ha Hx. unfold push_merged. destruct (last acc) as [b|] eqn:El; [|by apply Forall_app_2; [|apply Forall_singleton]].
  apply last_Some in El as [l ->]. apply Forall_app in Ha as [Hl Hb]. rewrite Forall_singleton in Hb.
  destruct (mergeable b x); rewrite ?removelast_snoc; repeat (apply Forall_app_2 || rewrite Forall_singleton); auto.
Qed.

Lemma replace_range_Forall (P : Interval → Prop) l q :
  (∀ a b, P a → P b → P (mkInterval (iv_start a) (iv_end b) (iv_type a) (iv_pid a))) →
  (∀ a x, P a → P q → x ∈ cut q a → P x) → Forall P l → P q → Forall P (replace_range l q).
Proof.
  intros Hm Hcut Hl Hq. unfold replace_range. set (s := sort_by _ _).
  assert (Forall P s) as Hs.
  { unfold s. rewrite sort_by_Permutation. apply Forall_app_2; [|case_bool_decide; [constructor|by apply Forall_singleton]].
    apply Forall_forall. intros x Hx. apply list_elem_of_In, in_concat in Hx as (c & Hc & Hx). apply list_elem_of_In in Hc, Hx.
    apply list_elem_of_fmap in Hc as (a & -> & Ha). rewrite Forall_forall in Hl. eauto. }
  clearbody s. assert (Forall P []) as Hacc by constructor. revert Hacc. generalize (@nil Interval).
  induction Hs as [|x s Hx _ IH]; intros acc Hacc; cbn; [done|]. apply IH. by apply push_merged_Forall.
Qed.

(** C21: converting a lock replaces exactly the requested bytes.  On a canonical range set
    and a non-empty request, the new set is canonical again (sorted, disjoint, maximally
    merged); a point inside the request is held in the requested mode, or not at all for
    an unlock, and every other point is held exactly as before. *)
Theorem replace_range_pointwise ranges request :
  canonical ranges → iv_start request < iv_end request →
  canonical (replace_range ranges request) ∧
  ∀ p v, held (replace_range ranges request) p v ↔
    (covers request p ∧ iv_type request ≠ kUnlock ∧ v = (iv_type request, iv_pid request)) ∨
    (¬ covers request p ∧ held ranges p v).
Proof. apply replace_range_spec. Qed.

Lemma replace_range_pointwise_witness :
  replace_range [mkInterval 0 10 kRead 7; mkInterval 20 30 kWrite 7] (mkInterval 5 25 kWrite 7) =
    [mkInterval 0 5 kRead 7; mkInterval 5 30 kWrite 7] ∧
  canonical (replace_range [mkInterval 0 10 kRead 7; mkInterval 20 30 kWrite 7] (mkInterval 5 25 kWrite 7)).
Proof.
  split; [vm_compute; reflexivity|].
  apply (replace_range_pointwise [mkInterval 0 10 kRead 7; mkInterval 20 30 kWrite 7] (mkInterval 5 25 kWrite 7)); [|cbn; lia].
  apply (canonical_snoc [mkInterval 0 10 kRead 7]); [|by split; [cbn; lia|discriminate]|reflexivity].
  apply (canonical_snoc []); [constructor|by split; [cbn; lia|discriminate]|reflexivity].
Defined.

(** ** Encoding and decoding *)
Section RoundTrip.
Context `{FollyFormat} `{!FollyFormatLaws}.

Definition range_typed (r : Interval) : Prop :=
  in_range 64 (iv_start r) ∧ in_range 64 (iv_end r) ∧ 0 ≤ iv_pid r ≤ INT32_MAX.

Definition kind_of (r : Interval) : bytes := match iv_type r with kRead => lit "R" | _ => lit "W" end.
Definition body (r : Interval) : bytes :=
  kind_of r ++ ","%char :: (to_string (iv_start r) ++ ","%char :: (to_string (iv_end r) ++ ","%char :: to_string (iv_pid r))).

Lemma encode_entry_body r : range_typed r → encode_entry r = "|"%char :: body r.
Proof.
  intros ([? _] & [? _] & ? & _). unfold encode_entry, body, kind_of. rewrite !fmt_spec by done. cbn.
  by destruct (iv_type r).
Qed.

Lemma contains_cons c s d : contains (c :: s) d = bool_decide (c = d) || contains s d.
Proof. done. Qed.

Lemma body_no_bar r : range_typed r → contains (body r) "|" = false.
Proof.
  intros ([? _] & [? _] & ? & _). unfold body.
  repeat (rewrite contains_app || rewrite contains_cons). rewrite !contains_to_string by done.
  unfold kind_of. by destruct (iv_type r).
Qed.

Lemma parse_entry_body r : range_typed r → proper r → parse_entry (body r) = Some r.
Proof.
  intros (Hs & He & Hp) [Hne Ht]. pose proof Hs as [? _]. pose proof He as [? _]. destruct Hp as [Hp1 Hp2].
  unfold parse_entry, body, ParseNumber.
  rewrite SplitOnce_found by (unfold kind_of; by destruct (iv_type r)).
  rewrite !SplitOnce_found by by apply contains_to_string.
  rewrite contains_app, contains_cons, orb_true_r. cbn [negb]. rewrite orb_false_r.
  rewrite !from_chars_to_string by (done || (unfold in_range, INT32_MAX in *; lia)).
  destruct (Z.gtb_spec (iv_pid r) INT32_MAX); [lia|]. rewrite Z.geb_leb.
  destruct (Z.leb_spec (iv_end r) (iv_start r)); [lia|]. cbn [orb].
  unfold kind_of. destruct r as [s e [] p]; done.
Qed.

Lemma canonical_prefix l k : canonical (l ++ k) → canonical l.
Proof.
  induction k as [|x k IH] using rev_ind; [by rewrite app_nil_r|]. rewrite app_assoc. intros (? & _)%canonical_snoc_inv. auto.
Qed.

Lemma replace_range_typed l q : Forall range_typed l → range_typed q → Forall range_typed (replace_range l q).
Proof.
  intros Hl Hq. apply replace_range_Forall; [|..|done|done]; unfold range_typed; cbn; [tauto|].
  intros a x Ha _ Hx. unfold cut in Hx. unfold range_typed in Hq.
  destruct (negb _); [apply list_elem_of_singleton in Hx as ->; done|].
  apply elem_of_app in Hx as [Hx|Hx]; case_match; try (by apply elem_of_nil in Hx);
    apply list_elem_of_singleton in Hx as ->; cbn; tauto.
Qed.

Lemma decode_encoded l r acc fuel :
  (length l < fuel)%nat → Forall range_typed (r :: l) → canonical (acc ++ r :: l) → zlen (acc ++ r :: l) ≤ kMaxIntervals →
  decode_entries fuel (body r ++ concat (encode_entry <$> l)) acc = Ok (acc ++ r :: l).
Proof.
  revert r acc fuel. induction l as [|r2 l IH]; intros r acc fuel Hf Ht Hc Hz;
    (destruct fuel as [|fuel]; [cbn in Hf; lia|]); apply Forall_cons in Ht as [Htr Ht]; cbn [decode_entries];
    (assert (canonical (acc ++ [r])) as Hcr
      by (eapply (canonical_prefix (acc ++ [r])); rewrite <- app_assoc; exact Hc));
    apply canonical_snoc_inv in Hcr as (_ & Hpr & Hfr).
  - cbn [fmap list_fmap concat]. rewrite app_nil_r, SplitOnce_absent by by apply body_no_bar.
    rewrite parse_entry_body, Hfr by done. cbn [negb fail_if mbind result_bind].
    rewrite Z.gtb_ltb. by destruct (Z.ltb_spec kMaxIntervals (zlen (acc ++ [r]))); [lia|].
  - pose proof Ht as [Ht2 _]%Forall_cons. cbn [fmap list_fmap concat]. rewrite (encode_entry_body r2) by done. cbn [app].
    rewrite SplitOnce_found by by apply body_no_bar. rewrite parse_entry_body, Hfr by done. cbn [negb fail_if mbind result_bind].
    rewrite zlen_app in *. rewrite !zlen_cons in *. pose proof (zlen_nonneg l). change (zlen []) with 0.
    rewrite Z.gtb_ltb. destruct (Z.ltb_spec kMaxIntervals (zlen acc + (0 + 1))); [lia|]. cbn [fail_if mbind result_bind].
    rewrite bool_decide_eq_false_2 by (unfold body, kind_of; by destruct (iv_type r2)).
    rewrite IH; [by rewrite <- app_assoc|cbn in Hf; lia|done|by rewrite <- app_assoc|].
    rewrite !zlen_app, !zlen_cons. change (zlen []) with 0. lia.
Qed.

Lemma parse_entry_sound entry r : parse_entry entry = Some r → range_typed r ∧ proper r.
Proof.
  unfold parse_entry, ParseNumber. destruct (SplitOnce entry _) as [kind tail], (SplitOnce tail _) as [start rest], (SplitOnce rest _) as [end_ pid].
  destruct (_ || _); [done|]. destruct (from_chars start) as [s|] eqn:Es; [|done].
  destruct (from_chars end_) as [e|] eqn:Ee; [|done]. destruct (from_chars pid) as [p|] eqn:Ep; [|done].
  rewrite Z.geb_leb, Z.gtb_ltb. destruct (Z.ltb_spec INT32_MAX p), (Z.leb_spec e s); cbn [orb]; try done. intros [= <-].
  apply from_chars_range in Es, Ee, Ep. unfold range_typed, proper. cbn. unfold in_range in *. repeat split; try lia.
  by case_bool_decide.
Qed.

Lemma decode_entries_sound fuel data acc l :
  canonical acc → Forall range_typed acc → decode_entries fuel data acc = Ok l →
  canonical l ∧ Forall range_typed l ∧ l ≠ [] ∧ zlen l ≤ kMaxIntervals.
Proof.
  revert data acc. induction fuel as [|fuel IH]; intros data acc Hc Ht; cbn [decode_entries]; [done|].
  destruct (SplitOnce data _) as [entry rest]. destruct (parse_entry entry) as [r|] eqn:Er; [|done].
  apply parse_entry_sound in Er as [Hrt Hrp]. intros E. inv_result. rewrite Z.gtb_ltb in *. zify_bools.
  assert (canonical (acc ++ [r])) by by apply canonical_snoc.
  assert (Forall range_typed (acc ++ [r])) by (apply Forall_app; by rewrite Forall_singleton).
  case_bool_decide; [|by apply (IH rest (acc ++ [r]))]. inv_result. subst l. split_and!; try done. by destruct acc.
Qed.

Lemma length_concat_encode l : (length l ≤ length (concat (encode_entry <$> l)))%nat.
Proof. induction l as [|r l IH]; cbn; [done|]. rewrite length_app. lia. Qed.

Lemma last_body_no_bar r : range_typed r → last (body r) ≠ Some "|"%char.
Proof.
  intros Ht Hl. pose proof (body_no_bar r Ht) as Hb. apply last_Some in Hl as [k E]. rewrite E, contains_app in Hb.
  cbn in Hb. by rewrite orb_true_r in Hb.
Qed.

Lemma last_encoded r l : Forall range_typed (r :: l) → last (body r ++ concat (encode_entry <$> l)) ≠ Some "|"%char.
Proof.
  revert r. induction l as [|r2 l IH]; intros r Ht; apply Forall_cons in Ht as [Htr Ht]; cbn [fmap list_fmap concat].
  - rewrite app_nil_r. by apply last_body_no_bar.
  - pose proof Ht as [Ht2 _]%Forall_cons. rewrite encode_entry_body by done. cbn [app].
    specialize (IH r2 Ht). rewrite last_app. destruct (body r2 ++ _) as [|c k] eqn:E.
    + unfold body, kind_of in E. by destruct (iv_type r2).
    + rewrite last_cons. destruct (last (c :: k)) as [x|] eqn:El; [done|]. by apply last_None in El.
Qed.

Lemma DecodePosix_Encode l :
  canonical l → Forall range_typed l → l ≠ [] → zlen l ≤ kMaxIntervals → zlen (Encode l) ≤ kMaxValueBytes →
  DecodePosix (Encode l) = Ok l.
Proof.
  intros Hc Ht Hne Hz Hb. unfold DecodePosix. rewrite Z.gtb_ltb.
  destruct (Z.ltb_spec kMaxValueBytes (zlen (Encode l))); [lia|]. cbn [fail_if mbind result_bind].
  destruct l as [|r l]; [done|]. pose proof Ht as [Htr _]%Forall_cons.
  unfold Encode. cbn [fmap list_fmap concat]. rewrite (encode_entry_body r) by done. cbn [lit String.list_ascii_of_string app take drop].
  rewrite take_0, drop_0, (bool_decide_eq_true_2 (["P"%char; "2"%char; "|"%char] = _)) by done. cbn [negb fail_if mbind result_bind].
  rewrite (bool_decide_eq_false_2 (last _ = _)) by by apply last_encoded.
  rewrite bool_decide_eq_false_2 by (unfold body, kind_of; by destruct (iv_type r)). cbn [orb fail_if mbind result_bind].
  apply (decode_encoded l r []); [|done|done|done].
  pose proof (length_concat_encode l). rewrite length_app. lia.
Qed.

Lemma DecodePosix_sound data l :
  DecodePosix data = Ok l → canonical l ∧ Forall range_typed l ∧ l ≠ [] ∧ zlen l ≤ kMaxIntervals.
Proof. unfold DecodePosix. intros E. inv_result. eapply decode_entries_sound; [..|exact E]; constructor. Qed.

Lemma UpdateRanges_Decode l request l' :
  canonical l → Forall range_typed l → range_typed request → iv_start request < iv_end request →
  UpdateRanges l request = Ok l' → l' = replace_range l request ∧ (l' ≠ [] → DecodePosix (Encode l') = Ok l').
Proof.
  intros Hc Ht Hqt Hq E. unfold UpdateRanges in E. inv_result. subst l'. rewrite !Z.gtb_ltb in *. zify_bools. split; [done|].
  intros Hne. destruct (replace_range_spec l request Hc Hq) as [Hcan _]. by apply DecodePosix_Encode; [|apply replace_range_typed|..].
Qed.

(** stored lock records.  Whatever [Decode] accepts is a non-empty canonical range set
    within the limits, the loop ending within the text, and a range set that [UpdateRanges]
    produces from one decodes back to itself. *)
Theorem lock_record_roundtrip :
  (∀ data l, DecodePosix data = Ok l →
     canonical l ∧ Forall range_typed l ∧ l ≠ [] ∧ zlen l ≤ kMaxIntervals) ∧
  (∀ l request l', canonical l → Forall range_typed l → range_typed request → iv_start request < iv_end request →
     UpdateRanges l request = Ok l' → l' ≠ [] → DecodePosix (Encode l') = Ok l').
Proof.
  split; [intros; by eapply DecodePosix_sound|]. intros l q l' Hc Ht Hqt Hq E Hne. by apply (UpdateRanges_Decode l q l').
Qed.
End RoundTrip.

Lemma lock_record_roundtrip_witness :
  DecodePosix (lit "P2|R,0,5,7|W,5,30,7") = Ok [mkInterval 0 5 kRead 7; mkInterval 5 30 kWrite 7] ∧
  DecodePosix (Encode [mkInterval 0 5 kRead 7; mkInterval 5 30 kWrite 7]) =
    Ok [mkInterval 0 5 kRead 7; mkInterval 5 30 kWrite 7].
Proof.
  split; [vm_compute; reflexivity|].
  apply (proj2 lock_record_roundtrip [mkInterval 0 10 kRead 7; mkInterval 20 30 kWrite 7] (mkInterval 5 25 kWrite 7));
    [| | | |vm_compute; reflexivity|done];
    [|repeat (apply Forall_cons; split; [unfold range_typed; cbn; unfold in_range, INT32_MAX; lia|]); constructor
     |unfold range_typed; cbn; unfold in_range, INT32_MAX; lia|cbn; lia].
  apply (canonical_snoc [mkInterval 0 10 kRead 7]); [|by split; [cbn; lia|discriminate]|reflexivity].
  apply (canonical_snoc []); [constructor|by split; [cbn; lia|discriminate]|reflexivity].
Defined.
