(* ===== verification/Locks.v ===== *)
(** * Advisory locks

    src/src/metadata/redis/RedisLockAuthority.cpp, and the Redis side of owner leases
    (RedisOwnerLease.cpp [AllocateGeneration] and the lease commands of
    RedisMetaClient.cpp).  Lock requests are transaction callbacks over the lock hash of
    an inode and the lease keys of the generations in it; every mount has one generation.
    The step relation of the last part lets any number of mounts lock, unlock, collect
    stale records, register, lose and revoke leases in any order. *)

From S2P Require Import Prelude RedisKv Decimal RedisKey LockRecords.

Definition kUncertainAttempts : nat := 3.

Record Holder := mkHolder {
  h_generation : Z; h_kernel_owner : Z; h_ranges : list Interval; h_flock : FlockType }.
Record PosixConflict := mkPosixConflict {
  pc_start : Z; pc_length : Z; pc_kernel_owner : Z; pc_type : PosixType; pc_pid : Z }.
Record LockHolder := mkLockHolder {
  lh_kernel_owner : Z; lh_local_generation : bool; lh_ranges : list PosixRange; lh_flock : FlockType }.

(** [lease_positions]: the position of a generation in the batch of lease keys. *)
Fixpoint position (generations : list Z) (g : Z) : nat :=
  match generations with
  | [] => 0
  | g' :: rest => if g' =? g then 0 else S (position rest g)
  end.
Definition add_generation (generations : list Z) (g : Z) : list Z :=
  if bool_decide (g ∈ generations) then generations else generations ++ [g].
(** [ttl_values[lease_positions.at(generation)]]; PTTL answers once per key. *)
Definition ttl_of (generations ttl_values : list Z) (g : Z) : Z := nth (position generations g) ttl_values 0.

Section Locks.
Context `{FollyFormat} (prefix : bytes).

Definition Decode (data : bytes) (flock : bool) (generation kernel_owner : Z) : result Holder :=
  if flock
  then (type ← DecodeFlock data; Ok (mkHolder generation kernel_owner [] type))
  else (ranges ← DecodePosix data; Ok (mkHolder generation kernel_owner ranges kFlockUnlock)).

(** ** Reading the holders of an inode *)
Fixpoint collect_owners (entries : list (bytes * bytes)) (generations : list Z) :
    result (list (Z * Z * bytes) * list Z) :=
  match entries with
  | [] => Ok ([], generations)
  | (field, data) :: rest =>
      match ParseOwner field with
      | None => Err Malformed
      | Some (g, k) =>
          '(candidates, generations) ← collect_owners rest (add_generation generations g);
          Ok ((g, k, data) :: candidates, generations)
      end
  end.

Fixpoint live_holders (flock : bool) (generations ttl_values : list Z) (candidates : list (Z * Z * bytes)) :
    result (list Holder * bool) :=
  match candidates with
  | [] => Ok ([], false)
  | (g, k, data) :: rest =>
      let ttl := ttl_of generations ttl_values g in
      _ ← fail_if (ttl =? -1) Malformed;
      if 0 <=? ttl then
        (holder ← Decode data flock g k;
         '(holders, stale) ← live_holders flock generations ttl_values rest;
         Ok (holder :: holders, stale))
      else
        ('(holders, _) ← live_holders flock generations ttl_values rest;
         Ok (holders, true))
  end.

Definition ReadHolders (hash : bytes) (requester_generation : Z) (flock : bool) : kv (list Holder * bool * Z) :=
  count ← HLen hash;
  _ ← kv_fail_if (count >? kMaxHolders) NoLocks;
  entries ← HGetAll hash;
  _ ← kv_fail_if (zlen entries >? kMaxHolders) NoLocks;
  owners ← kv_lift (collect_owners entries [requester_generation]);
  ttl_values ← PttlBatch (OwnerLease prefix <$> owners.2);
  _ ← kv_fail_if (ttl_of owners.2 ttl_values requester_generation <=? 0) Unavailable;
  holders ← kv_lift (live_holders flock owners.2 ttl_values owners.1);
  mret (holders.1, holders.2, zlen entries).

(** [HDEL] of a missing field is not a write and would not invalidate the WATCH of a
    delayed [HSET]: an unlock of nothing still writes the hash, through the fence. *)
Definition SetState (hash field data : bytes) (exists_ : bool) : kv unit :=
  if negb (bool_decide (data = [])) then HSet hash field data else
  if exists_ then HDel hash field else
  (_ ← HSet hash kFenceField (lit "1");
   _ ← HDel hash field;
   HDel hash kFenceField).

(** ** Record locks *)
Definition is_own (generation kernel_owner : Z) (holder : Holder) : bool :=
  (h_generation holder =? generation) && (h_kernel_owner holder =? kernel_owner).
Definition conflicting (interval other : Interval) : bool :=
  Overlaps interval other && (bool_decide (iv_type interval = kWrite) || bool_decide (iv_type other = kWrite)).

Fixpoint own_ranges (generation kernel_owner : Z) (interval : Interval) (holders : list Holder)
    (owned : list Interval) (exists_ : bool) : result (list Interval * bool) :=
  match holders with
  | [] => Ok (owned, exists_)
  | holder :: rest =>
      if is_own generation kernel_owner holder
      then own_ranges generation kernel_owner interval rest (h_ranges holder) true
      else
        (_ ← fail_if (negb (bool_decide (iv_type interval = kUnlock)) && existsb (conflicting interval) (h_ranges holder))
               WouldBlock;
         own_ranges generation kernel_owner interval rest owned exists_)
  end.

Definition set_posix (inode_ino generation kernel_owner : Z) (interval : Interval) : kv unit :=
  let hash := PosixLock prefix inode_ino in
  read ← ReadHolders hash generation false;
  own ← kv_lift (own_ranges generation kernel_owner interval read.1.1 [] false);
  owned ← kv_lift (UpdateRanges own.1 interval);
  _ ← kv_fail_if (negb own.2 && negb (bool_decide (owned = [])) && (read.2 >=? kMaxHolders)) NoLocks;
  SetState hash (owner_field generation kernel_owner)
    (if bool_decide (owned = []) then [] else Encode owned) own.2.

Definition reported_length (r : Interval) : Z := if iv_end r =? UINT64_MAX then 0 else iv_end r - iv_start r.
Fixpoint first_conflict (generation kernel_owner : Z) (interval : Interval) (holders : list Holder) :
    option PosixConflict :=
  match holders with
  | [] => None
  | holder :: rest =>
      if is_own generation kernel_owner holder then first_conflict generation kernel_owner interval rest else
      match List.find (conflicting interval) (h_ranges holder) with
      | Some other =>
          Some (mkPosixConflict (iv_start other) (reported_length other) (h_kernel_owner holder) (iv_type other) (iv_pid other))
      | None => first_conflict generation kernel_owner interval rest
      end
  end.
Definition get_posix (inode_ino generation kernel_owner : Z) (interval : Interval) : kv (option PosixConflict) :=
  read ← ReadHolders (PosixLock prefix inode_ino) generation false;
  mret (first_conflict generation kernel_owner interval read.1.1).

(** ** BSD flocks *)
Definition flock_blocks (type other : FlockType) : bool :=
  negb (bool_decide (type = kFlockUnlock)) && (bool_decide (type = kExclusive) || bool_decide (other = kExclusive)).

(** [exists], [owned_type] and [conflict] after the loop. *)
Fixpoint flock_scan (generation kernel_owner : Z) (type : FlockType) (holders : list Holder)
    (own : option FlockType) (conflict : bool) : option FlockType * bool :=
  match holders with
  | [] => (own, conflict)
  | holder :: rest =>
      if is_own generation kernel_owner holder
      then flock_scan generation kernel_owner type rest (Some (h_flock holder)) conflict
      else flock_scan generation kernel_owner type rest own (conflict || flock_blocks type (h_flock holder))
  end.

(** The result is [released_on_conflict]. *)
Definition set_flock (inode_ino generation kernel_owner : Z) (type : FlockType) : kv bool :=
  let hash := FlockLock prefix inode_ino in
  let field := owner_field generation kernel_owner in
  read ← ReadHolders hash generation true;
  let '(own, conflict) := flock_scan generation kernel_owner type read.1.1 None false in
  if conflict then
    (if bool_decide (own ≠ None ∧ own ≠ Some type)
     then (_ ← SetState hash field [] true; mret true)
     else kv_fail WouldBlock)
  else
    (_ ← kv_fail_if (bool_decide (own = None) && negb (bool_decide (type = kFlockUnlock)) && (read.2 >=? kMaxHolders)) NoLocks;
     _ ← SetState hash field (EncodeFlock type) (bool_decide (own ≠ None));
     mret false).

(** ** Inspection *)
Definition snapshot (generation : Z) (holder : Holder) : LockHolder :=
  mkLockHolder (h_kernel_owner holder) (h_generation holder =? generation)
    ((λ r, mkPosixRange (iv_start r) (reported_length r) (iv_type r) (iv_pid r)) <$> h_ranges holder) (h_flock holder).
Definition inspect (inode_ino generation : Z) (flock : bool) : kv (list LockHolder) :=
  read ← ReadHolders (if flock then FlockLock prefix inode_ino else PosixLock prefix inode_ino) generation flock;
  mret (snapshot generation <$> read.1.1).

(** ** Collecting stale records *)
Fixpoint gc_candidates (entries : list (bytes * bytes)) (generations : list Z) :
    list (bytes * Z) * list Z :=
  match entries with
  | [] => ([], generations)
  | (field, _) :: rest =>
      match ParseOwner field with
      | None => gc_candidates rest generations
      | Some (g, _) =>
          let '(candidates, generations) := gc_candidates rest (add_generation generations g) in
          ((field, g) :: candidates, generations)
      end
  end.
Fixpoint del_fields (hash : bytes) (fields : list bytes) : kv unit :=
  match fields with
  | [] => mret tt
  | field :: rest => _ ← HDel hash field; del_fields hash rest
  end.
(** One page from [start_cursor]; the result is the next cursor. *)
Definition cleanup_page (hash : bytes) (start_cursor : Z) : kv Z :=
  page ← HScan hash start_cursor 128;
  let '(candidates, generations) := gc_candidates page.1 [] in
  ttl_values ← PttlBatch (OwnerLease prefix <$> generations);
  let dead := filter (λ c, ttl_of generations ttl_values c.2 = -2) candidates in
  _ ← del_fields hash dead.*1;
  mret page.2.

(** ** Owner generations and leases *)
Definition AllocateGeneration : kv Z :=
  kv_try (Get (OwnerGeneration prefix)) (λ r,
    match r with
    | Err NotFound => kv_fail Unavailable
    | Err s => kv_fail s
    | Ok encoded =>
        match from_chars encoded with
        | None => kv_fail Malformed
        | Some previous =>
            _ ← kv_fail_if (negb (bool_decide (encoded = to_string previous)) || (previous >=? INT64_MAX)) Malformed;
            _ ← IncrBy (OwnerGeneration prefix) 1;
            mret (previous + 1)
        end
    end).
End Locks.

(** ** Leases and holders in a dataset *)
Lemma position_lookup generations g : g ∈ generations → generations !! position generations g = Some g.
Proof.
  induction generations as [|x l IH]; cbn; [by intros ?%elem_of_nil|]. destruct (Z.eqb_spec x g); [by subst|].
  intros [->|?]%elem_of_cons; [done|]. by apply IH.
Qed.

Lemma add_generation_elem generations g x : x ∈ add_generation generations g ↔ x ∈ generations ∨ x = g.
Proof.
  unfold add_generation. case_bool_decide; [|by rewrite elem_of_app, list_elem_of_singleton].
  split; [by left|]. by intros [?| ->].
Qed.

Lemma Forall2_elem_l {A B : Type} (R : A → B → Prop) l k x : Forall2 R l k → x ∈ l → ∃ y, y ∈ k ∧ R x y.
Proof. intros HR [i Hi]%list_elem_of_lookup. destruct (Forall2_lookup_l _ _ _ _ _ HR Hi) as (y & Hy & ?). eauto using list_elem_of_lookup_2. Qed.
Lemma Forall2_elem_r {A B : Type} (R : A → B → Prop) l k y : Forall2 R l k → y ∈ k → ∃ x, x ∈ l ∧ R x y.
Proof. intros HR [i Hi]%list_elem_of_lookup. destruct (Forall2_lookup_r _ _ _ _ _ HR Hi) as (x & Hx & ?). eauto using list_elem_of_lookup_2. Qed.

Section LockViews.
Context `{Redis} `{!RedisLaws} `{FollyFormat} `{!FollyFormatLaws} (prefix : bytes).

Definition lease_live (d : dataset) (g : Z) : Prop := ∃ nonce, d !! OwnerLease prefix g = Some (RVStr nonce true).
Definition owner_ok (o : Z * Z) : Prop := 0 < o.1 < 2 ^ 64 ∧ in_range 64 o.2.

Lemma owner_field_inj o1 o2 : owner_ok o1 → owner_ok o2 → owner_field o1.1 o1.2 = owner_field o2.1 o2.2 → o1 = o2.
Proof.
  destruct o1 as [g1 k1], o2 as [g2 k2]. unfold owner_ok, in_range, owner_field. cbn [fst snd]. intros [Hg1 Hk1] [Hg2 Hk2] E.
  rewrite !fmt_spec in E by lia. change (lit ":") with [":"%char] in E. cbn [app] in E.
  pose proof (f_equal (λ s, SplitOnce s ":") E) as E2. cbn beta in E2.
  rewrite !SplitOnce_found in E2 by (apply contains_to_string; [lia|done]). injection E2 as E2 E3.
  apply to_string_inj in E2, E3; [|lia..]. by subst.
Qed.

Lemma ParseOwner_iff f g k : ParseOwner f = Some (g, k) ↔ owner_ok (g, k) ∧ f = owner_field g k.
Proof.
  unfold ParseOwner. split.
  - destruct (SplitOnce f ":") as [a b]. destruct (contains f ":"); cbn [negb]; [|done]. unfold ParseNumber.
    destruct (from_chars a) as [g'|] eqn:Ea; [|done]. destruct (from_chars b) as [k'|] eqn:Eb; [|done].
    apply from_chars_range in Ea, Eb. destruct (g' >? 0) eqn:Hg; cbn [andb]; [|done]. case_bool_decide as Hf; [|done].
    intros [= <- <-]. split; [|done]. unfold owner_ok, in_range in *. cbn. rewrite Z.gtb_ltb in Hg. zify_bools. lia.
  - intros [[Hg Hk] ->]. cbn [fst snd] in *. unfold in_range in Hk. unfold owner_field. rewrite !fmt_spec by lia.
    change (lit ":" ++ to_string k) with (":"%char :: to_string k).
    rewrite SplitOnce_found by (apply contains_to_string; [lia|done]).
    rewrite contains_app. cbn [contains existsb]. rewrite bool_decide_eq_true_2, orb_true_r by done. cbn [negb].
    unfold ParseNumber. rewrite !from_chars_to_string by (unfold in_range; lia).
    rewrite Z.gtb_ltb. destruct (Z.ltb_spec 0 g); [|lia]. cbn [andb].
    by rewrite bool_decide_eq_true_2 by (by rewrite !fmt_spec by lia).
Qed.

(** What a PTTL answer says about a lease. *)
Lemma ttl_lease d generations ttls g :
  Forall2 (pttl_answers d) (OwnerLease prefix <$> generations) ttls → g ∈ generations →
  (0 ≤ ttl_of generations ttls g → lease_live d g) ∧
  (lease_live d g → 0 ≤ ttl_of generations ttls g) ∧
  (ttl_of generations ttls g = -2 → d !! OwnerLease prefix g = None) ∧
  (ttl_of generations ttls g ≠ -1 → ttl_of generations ttls g < 0 → d !! OwnerLease prefix g = None).
Proof.
  intros Hf Hg. apply position_lookup in Hg. unfold ttl_of, lease_live.
  assert ((OwnerLease prefix <$> generations) !! position generations g = Some (OwnerLease prefix g)) as Hk
    by (by rewrite list_lookup_fmap, Hg).
  destruct (Forall2_lookup_l _ _ _ _ _ Hf Hk) as (z & Hz & Ha). rewrite (nth_lookup_Some _ _ _ _ Hz).
  unfold pttl_answers in Ha. destruct (d !! OwnerLease prefix g) as [[s []|h|l]|] eqn:E; cbn in Ha; split_and!; intros;
    try (destruct_or?; lia || done); try (by eexists); try (by destruct_and?; naive_solver lia).
Qed.

Lemma collect_owners_spec entries generations candidates generations' :
  collect_owners entries generations = Ok (candidates, generations') →
  (∀ x, x ∈ generations → x ∈ generations') ∧
  Forall2 (λ e c, ParseOwner e.1 = Some c.1 ∧ c.2 = e.2 ∧ c.1.1 ∈ generations') entries candidates.
Proof.
  revert generations candidates. induction entries as [|[f v] rest IH]; intros gens cands; cbn [collect_owners].
  { intros [= <- <-]. by split. }
  destruct (ParseOwner f) as [[g k]|] eqn:Ef; [|done]. intros E. apply bind_Ok in E as [[c gs] [Ec E]].
  injection E as <- <-.
  destruct (IH _ _ Ec) as [Hsub Hf]. split.
  - intros x Hx. apply Hsub, add_generation_elem. by left.
  - constructor; [|done]. cbn. split_and!; try done. apply Hsub, add_generation_elem. by right.
Qed.

Lemma live_holders_spec flock generations ttls candidates holders stale :
  live_holders flock generations ttls candidates = Ok (holders, stale) →
  Forall (λ c, ttl_of generations ttls c.1.1 ≠ -1) candidates ∧
  (∀ g k v, (g, k, v) ∈ candidates → 0 ≤ ttl_of generations ttls g → ∃ x, x ∈ holders ∧ Decode v flock g k = Ok x) ∧
  (∀ x, x ∈ holders → ∃ v, (h_generation x, h_kernel_owner x, v) ∈ candidates ∧
     0 ≤ ttl_of generations ttls (h_generation x) ∧ Decode v flock (h_generation x) (h_kernel_owner x) = Ok x).
Proof.
  revert holders stale. induction candidates as [|[[g k] v] rest IH]; intros hs st; cbn [live_holders].
  { intros [= <- <-]. split_and!; [done|by intros ??? ?%elem_of_nil|by intros ? ?%elem_of_nil]. }
  intros E. apply bind_Ok in E as [[] [Hm E]]. apply fail_if_Ok in Hm. zify_bools.
  destruct (Z.leb_spec 0 (ttl_of generations ttls g)) as [Ht|Ht].
  - apply bind_Ok in E as [x [Hx E]]. apply bind_Ok in E as [[hs' st'] [Hr E]]. injection E as <- <-.
    destruct (IH _ _ Hr) as (Hf & Hin & Hout). split_and!.
    + by apply Forall_cons.
    + intros g' k' v' [E|Hc]%elem_of_cons Hp; [injection E as -> -> ->; exists x; by split; [left|]|].
      destruct (Hin _ _ _ Hc Hp) as (y & ? & ?). exists y. by split; [right|].
    + intros y [->|Hy]%elem_of_cons.
      * assert (h_generation x = g ∧ h_kernel_owner x = k) as [-> ->]
          by (unfold Decode in Hx; destruct flock; inv_result; by subst x).
        exists v. by split_and!; [left|..].
      * destruct (Hout y Hy) as (v' & ? & ? & ?). exists v'. by split_and!; [right|..].
  - apply bind_Ok in E as [[hs' st'] [Hr E]]. injection E as <- <-.
    destruct (IH _ _ Hr) as (Hf & Hin & Hout). split_and!.
    + by apply Forall_cons.
    + intros g' k' v' [E|Hc]%elem_of_cons Hp; [injection E as -> -> ->; lia|by apply (Hin g' k' v')].
    + intros y Hy. destruct (Hout y Hy) as (v' & ? & ? & ?). exists v'. by split_and!; [right|..].
Qed.

(** What [ReadHolders] has established when it succeeds. *)
Record holders_read (d : dataset) (hash : bytes) (requester : Z) (flock : bool) (holders : list Holder) (stored : Z)
    (h : gmap bytes bytes) : Prop := {
  hr_hash : hash_at d hash = Some h;
  hr_requester : lease_live d requester;
  hr_stored : stored = Z.of_nat (base.size h);
  hr_fields f v : h !! f = Some v → ∃ g k, ParseOwner f = Some (g, k) ∧ (lease_live d g ∨ d !! OwnerLease prefix g = None);
  hr_live f v g k : h !! f = Some v → ParseOwner f = Some (g, k) → lease_live d g →
    ∃ x, x ∈ holders ∧ Decode v flock g k = Ok x;
  hr_sound x : x ∈ holders → owner_ok (h_generation x, h_kernel_owner x) ∧ lease_live d (h_generation x) ∧
    ∃ v, h !! owner_field (h_generation x) (h_kernel_owner x) = Some v ∧
         Decode v flock (h_generation x) (h_kernel_owner x) = Ok x;
}.

Lemma ReadHolders_spec d hash g flock t read t' :
  atomic d (ReadHolders prefix hash g flock) t (Ok read, t') →
  t' = t ∧ has_writes t = false ∧ ∃ h, holders_read d hash g flock read.1.1 read.2 h.
Proof.
  unfold ReadHolders. intros Ha. inv_kv. subst read. cbn [fst snd].
  match goal with Hc : collect_owners ?e _ = Ok ?o, Hl : live_holders _ _ _ _ = Ok ?x |- _ =>
    rename e into entries, Hc into Hcol, Hl into Hlive; destruct o as [cands gens]; destruct x as [hs st] end.
  cbn [fst snd] in *. apply collect_owners_spec in Hcol as [Hsub Hf]. apply live_holders_spec in Hlive as (Hm & Hin & Hout).
  match goal with Hh1 : hash_at d hash = Some ?h1, Hh2 : hash_at d hash = Some ?h2, Hp : _ ≡ₚ map_to_list ?h2,
    Ht : Forall2 (pttl_answers d) _ ?z |- _ =>
    rename Hh2 into Hhash, Hp into Hperm, Ht into Httl, z into ttls; rename h2 into h; clear Hh1 end.
  assert (∀ f v, h !! f = Some v → ∃ g k, ParseOwner f = Some (g, k) ∧ (g, k, v) ∈ cands ∧ g ∈ gens) as Hto.
  { intros f v Hv. assert ((f, v) ∈ entries) as He by (rewrite Hperm; by apply elem_of_map_to_list).
    destruct (Forall2_elem_l _ _ _ _ Hf He) as ([[g' k'] v'] & Hc & Hpo & Ev & Hg'). cbn in *. subst v'. eauto 10. }
  zify_bools. split; [done|]. split; [done|]. exists h. split.
  - done.
  - apply (ttl_lease d gens ttls g Httl); [|lia]. apply Hsub. by left.
  - unfold zlen. rewrite Hperm. by rewrite length_map_to_list.
  - intros f v Hv. destruct (Hto f v Hv) as (g' & k' & Hpo & Hc & Hg'). exists g', k'. split; [done|].
    destruct (ttl_lease d gens ttls g' Httl Hg') as (H1' & _ & _ & H4'). rewrite Forall_forall in Hm.
    specialize (Hm _ Hc). cbn in Hm. destruct (Z.lt_ge_cases (ttl_of gens ttls g') 0); [right|left]; auto.
  - intros f v g1 k1 Hv Hpo Hlive. destruct (Hto f v Hv) as (g' & k' & Hpo' & Hc & Hg'). simplify_eq.
    apply Hin; [done|]. by apply (ttl_lease d gens ttls g1 Httl Hg').
  - intros y Hy. destruct (Hout y Hy) as (v & Hc & Ht & Hd).
    destruct (Forall2_elem_r _ _ _ _ Hf Hc) as ([f v'] & He & Hpo & Ev & Hg'). cbn in Hpo, Ev, Hg'. subst v'.
    apply ParseOwner_iff in Hpo as [Hok ->]. split; [done|]. split; [by apply (ttl_lease d gens ttls _ Httl Hg')|].
    exists v. split; [|done]. apply elem_of_map_to_list. by rewrite <- Hperm.
Qed.

(** ** The effect of lock writes *)
(** A transaction on lock hash [K] that sets one field, or clears it. *)
Record hash_update (d d' : dataset) (K f : bytes) (o : option bytes) : Prop := {
  hu_frame k : k ≠ K → d' !! k = d !! k;
  hu_hash : is_hash (d' !! K);
  hu_fields g : g ≠ kFenceField → field_of (d' !! K) g = if decide (g = f) then o else field_of (d !! K) g;
}.

Lemma SetState_update d K f data ex t u t' :
  is_hash (d !! K) → queued t = [] →
  atomic d (SetState K f data ex) t (Ok u, t') →
  hash_update d (apply_writes incr_string (queued t') d).1 K f (if bool_decide (data = []) then None else Some data).
Proof.
  intros Hh Ht. unfold SetState. case_bool_decide as Hd; cbn [negb].
  - destruct ex; intros Ha; inv_kv; cbn [queued enqueue]; rewrite Ht; cbn [app];
      (split; [intros k Hk; apply (writes_frame K); [by repeat constructor|done]| |];
       rewrite lookup_apply_writes, !key_after_cons; cbn [write_key]; rewrite !decide_True by done; cbn [key_after foldl]).
    + by apply field_hdel.
    + intros g _. by apply field_hdel.
    + apply field_hdel, field_hdel. by apply field_hset.
    + intros g Hg. destruct (field_hset K kFenceField (lit "1") _ Hh) as [H1' E1].
      destruct (field_hdel K f _ H1') as [H2' E2]. destruct (field_hdel K kFenceField _ H2') as [_ E3].
      unfold key_after; cbn [foldl]. rewrite E3, E2, E1. rewrite !(decide_False (P := g = kFenceField)) by done. done.
  - intros Ha. inv_kv. cbn [queued enqueue]. rewrite Ht. cbn [app].
    split; [intros k Hk; apply (writes_frame K); [by repeat constructor|done]| |];
      rewrite lookup_apply_writes, !key_after_cons; cbn [write_key]; rewrite !decide_True by done; cbn [key_after foldl].
    + by apply field_hset.
    + intros g _. by apply field_hset.
Qed.

Lemma owner_field_fence o : owner_ok o → owner_field o.1 o.2 ≠ kFenceField.
Proof.
  intros [Hg Hk] E. apply (f_equal (λ s, contains s ":")) in E. unfold owner_field in E.
  rewrite contains_app in E. cbn [contains existsb kFenceField lit String.list_ascii_of_string app] in E.
  rewrite bool_decide_eq_true_2, orb_true_r in E by done. vm_compute in E. done.
Qed.

(** ** Mutual exclusion *)
Definition posix_compatible (v1 v2 : bytes) : Prop :=
  ∀ l1 l2, DecodePosix v1 = Ok l1 → DecodePosix v2 = Ok l2 →
  ∀ p m1 m2, held l1 p m1 → held l2 p m2 → m1.1 = kRead ∧ m2.1 = kRead.
Definition flock_compatible (v1 v2 : bytes) : Prop :=
  ∀ t1 t2, DecodeFlock v1 = Ok t1 → DecodeFlock v2 = Ok t2 → t1 = kShared ∧ t2 = kShared.

(** No two live owners have incompatible records under lock hash [K]. *)
Definition exclusive (compatible : bytes → bytes → Prop) (d : dataset) (K : bytes) : Prop :=
  ∀ o1 o2 v1 v2, owner_ok o1 → owner_ok o2 → o1 ≠ o2 → lease_live d o1.1 → lease_live d o2.1 →
    field_of (d !! K) (owner_field o1.1 o1.2) = Some v1 → field_of (d !! K) (owner_field o2.1 o2.2) = Some v2 →
    compatible v1 v2.

Lemma exclusive_mono compatible d d' K :
  (∀ g, 0 < g < 2 ^ 64 → lease_live d' g → lease_live d g ∨ ∀ k, in_range 64 k → field_of (d' !! K) (owner_field g k) = None) →
  (∀ o v, owner_ok o → field_of (d' !! K) (owner_field o.1 o.2) = Some v → field_of (d !! K) (owner_field o.1 o.2) = Some v) →
  exclusive compatible d K → exclusive compatible d' K.
Proof.
  intros Hl Hf He o1 o2 v1 v2 Ho1 Ho2 Hne Hl1 Hl2 Hv1 Hv2.
  destruct (Hl o1.1 (proj1 Ho1) Hl1) as [Hl1'|Hn]; [|by rewrite Hn in Hv1 by apply Ho1].
  destruct (Hl o2.1 (proj1 Ho2) Hl2) as [Hl2'|Hn]; [|by rewrite Hn in Hv2 by apply Ho2].
  apply (He o1 o2); auto.
Qed.

(** One owner's record changes to one that suits all other live records. *)
Lemma exclusive_update compatible d d' K o w :
  (∀ v1 v2, compatible v1 v2 → compatible v2 v1) → owner_ok o →
  hash_update d d' K (owner_field o.1 o.2) w → (∀ g, 0 < g → lease_live d' g → lease_live d g) →
  (∀ v o2 v2, w = Some v → owner_ok o2 → o2 ≠ o → lease_live d o2.1 →
     field_of (d !! K) (owner_field o2.1 o2.2) = Some v2 → compatible v v2) →
  exclusive compatible d K → exclusive compatible d' K.
Proof.
  intros Hsym Ho Hu Hl Hw He o1 o2 v1 v2 Ho1 Ho2 Hne Hl1 Hl2.
  rewrite !(hu_fields _ _ _ _ _ Hu) by by apply owner_field_fence.
  assert (∀ o', owner_ok o' → owner_field o'.1 o'.2 = owner_field o.1 o.2 → o' = o) as Hinj by (intros; by apply owner_field_inj).
  case_decide as E1; case_decide as E2.
  - apply Hinj in E1, E2; [|done..]. congruence.
  - apply Hinj in E1; [|done]. subst o1. intros Hv1 Hv2. apply (Hw v1 o2); auto. apply Hl; [apply Ho2|done].
  - apply Hinj in E2; [|done]. subst o2. intros Hv1 Hv2. apply Hsym. apply (Hw v2 o1); auto. apply Hl; [apply Ho1|done].
  - intros Hv1 Hv2. apply (He o1 o2); auto; (apply Hl; [apply Ho1 || apply Ho2|done]).
Qed.

Lemma lease_live_frame d d' K f w g :
  0 ≤ g → (∀ g, 0 ≤ g → OwnerLease prefix g ≠ K) → hash_update d d' K f w → lease_live d' g ↔ lease_live d g.
Proof. intros Hg Hk Hu. unfold lease_live. by rewrite (hu_frame _ _ _ _ _ Hu) by by apply Hk. Qed.

(** *** Record locks *)
Lemma own_ranges_spec g k iv holders owned ex owned' ex' :
  own_ranges g k iv holders owned ex = Ok (owned', ex') →
  (∀ x r, x ∈ holders → is_own g k x = false → iv_type iv ≠ kUnlock → r ∈ h_ranges x → conflicting iv r = false) ∧
  ((Forall (λ x, is_own g k x = false) holders ∧ owned' = owned ∧ ex' = ex) ∨
   ∃ x, x ∈ holders ∧ is_own g k x = true ∧ owned' = h_ranges x ∧ ex' = true).
Proof.
  revert owned ex. induction holders as [|x rest IH]; intros owned ex; cbn [own_ranges].
  { intros [= <- <-]. split; [by intros ?? ?%elem_of_nil|]. left. by split_and!. }
  destruct (is_own g k x) eqn:Hx.
  - intros E. destruct (IH _ _ E) as [Hc Hown]. split.
    + intros y r [->|Hy]%elem_of_cons; [congruence|by apply Hc].
    + right. destruct Hown as [(_ & -> & ->)|(y & ? & ? & ? & ?)]; [exists x|exists y]; split_and!; try done; (by left) || (by right).
  - intros E. apply bind_Ok in E as [[] [Hf E]]. apply fail_if_Ok in Hf. destruct (IH _ _ E) as [Hc Hown]. split.
    + intros y r [->|Hy]%elem_of_cons Ho Hu Hr; [|by apply (Hc y r)]. rewrite bool_decide_eq_false_2 in Hf by done.
      cbn [negb andb] in Hf. destruct (conflicting iv r) eqn:Er; [|done]. rewrite <- Hf.
      symmetry. apply existsb_exists. exists r. by rewrite <- list_elem_of_In.
    + destruct Hown as [(? & -> & ->)|(y & ? & ?)]; [left; by split_and!; [apply Forall_cons|..]|right; exists y; by split; [right|]].
Qed.

Lemma is_own_iff g k x : is_own g k x = true ↔ (h_generation x, h_kernel_owner x) = (g, k).
Proof. unfold is_own. rewrite andb_true_iff, !Z.eqb_eq. split; [by intros [-> ->]|by intros [= -> ->]]. Qed.

Lemma Decode_posix v g k x : Decode v false g k = Ok x → DecodePosix v = Ok (h_ranges x).
Proof. unfold Decode. intros E. inv_result. subst x. done. Qed.
Lemma Decode_flock v g k x : Decode v true g k = Ok x → DecodeFlock v = Ok (h_flock x).
Proof. unfold Decode. intros E. inv_result. subst x. done. Qed.

(** Two intervals that share a byte and do not conflict are both read locks. *)
Lemma conflicting_false iv r p :
  covers iv p → covers r p → iv_type iv ≠ kUnlock → iv_type r ≠ kUnlock → conflicting iv r = false →
  iv_type iv = kRead ∧ iv_type r = kRead.
Proof.
  unfold covers, conflicting, Overlaps. intros H1' H2' Hu1 Hu2.
  destruct (Z.ltb_spec (iv_start iv) (iv_end r)), (Z.ltb_spec (iv_start r) (iv_end iv)); try lia. cbn [andb].
  intros [?%bool_decide_eq_false ?%bool_decide_eq_false]%orb_false_iff. by destruct (iv_type iv), (iv_type r).
Qed.

Lemma granted_compatible owned iv l' l2 :
  canonical owned → Forall range_typed owned → iv_start iv < iv_end iv → canonical l2 →
  l' = replace_range owned iv →
  (iv_type iv ≠ kUnlock → Forall (λ r, conflicting iv r = false) l2) →
  (∀ p m1 m2, held owned p m1 → held l2 p m2 → m1.1 = kRead ∧ m2.1 = kRead) →
  ∀ p m1 m2, held l' p m1 → held l2 p m2 → m1.1 = kRead ∧ m2.1 = kRead.
Proof.
  intros Hc Ht Hiv Hc2 -> Hno Hold p m1 m2 H1' H2'. destruct (replace_range_spec owned iv Hc Hiv) as [_ Hh].
  apply Hh in H1' as [(Hcov & Hu & ->)|[_ H1']]; [|by apply (Hold p)].
  destruct H2' as (r & Hr & Hrp & ->). cbn. specialize (Hno Hu). rewrite Forall_forall in Hno.
  apply canonical_sorted in Hc2 as [_ Hp]. rewrite Forall_forall in Hp.
  by apply (conflicting_false iv r p); [| |done|apply Hp|apply Hno].
Qed.

Lemma posix_compatible_sym v1 v2 : posix_compatible v1 v2 → posix_compatible v2 v1.
Proof. intros Hc l1 l2 H1' H2' p m1 m2 Hm1 Hm2. by destruct (Hc l2 l1 H2' H1' p m2 m1). Qed.
Lemma flock_compatible_sym v1 v2 : flock_compatible v1 v2 → flock_compatible v2 v1.
Proof. intros Hc t1 t2 H1' H2'. by destruct (Hc t2 t1). Qed.

Lemma own_record d K r n hs st h g k x :
  holders_read d K r n hs st h → x ∈ hs → is_own g k x = true →
  ∃ v, h !! owner_field g k = Some v ∧ Decode v n g k = Ok x.
Proof.
  intros Hr Hx [= <- <-]%is_own_iff. destruct (hr_sound _ _ _ _ _ _ _ Hr x Hx) as (_ & _ & v & ? & ?). eauto.
Qed.

(** A committed record-lock request: the owner's record becomes its old ranges with the
    requested one replaced, and the request conflicts with no live record of another owner. *)
Lemma set_posix_effect d d' i g k iv :
  0 ≤ i → owner_ok (g, k) → iv_start iv < iv_end iv → range_typed iv →
  commits (set_posix prefix i g k iv) d tt d' →
  ∃ owned, lease_live d g ∧ canonical owned ∧ Forall range_typed owned ∧
    (match field_of (d !! PosixLock prefix i) (owner_field g k) with
     | Some v => DecodePosix v = Ok owned
     | None => owned = []
     end) ∧
    hash_update d d' (PosixLock prefix i) (owner_field g k)
      (if bool_decide (replace_range owned iv = []) then None else Some (Encode (replace_range owned iv))) ∧
    (replace_range owned iv ≠ [] → DecodePosix (Encode (replace_range owned iv)) = Ok (replace_range owned iv)) ∧
    (∀ o2 v2, owner_ok o2 → o2 ≠ (g, k) → lease_live d o2.1 →
       field_of (d !! PosixLock prefix i) (owner_field o2.1 o2.2) = Some v2 →
       ∃ l2, DecodePosix v2 = Ok l2 ∧ (iv_type iv ≠ kUnlock → Forall (λ r, conflicting iv r = false) l2)).
Proof.
  intros Hi Ho Hiv Ht (t & Ha & ->). unfold set_posix in Ha.
  apply atomic_kv_bind in Ha as (read & t1 & Hr & Ha). apply ReadHolders_spec in Hr as (-> & _ & h & Hr).
  inv_kv. destruct (hash_at_fields _ _ _ (hr_hash _ _ _ _ _ _ _ Hr)) as [Hh Hf].
  match goal with Ho : own_ranges _ _ _ _ _ _ = Ok ?x, Hu : UpdateRanges _ _ = Ok ?l |- _ =>
    rename Ho into Hown, Hu into Hupd; destruct x as [owned ex]; rename l into l' end.
  cbn [fst snd] in *. apply own_ranges_spec in Hown as [Hno Hown].
  assert (match h !! owner_field g k with Some v => DecodePosix v = Ok owned | None => owned = [] end) as Hold.
  { destruct Hown as [(Hall & -> & _)|(x & Hx & Hxo & -> & _)].
    - destruct (h !! owner_field g k) as [v|] eqn:Ev; [|done].
      destruct (hr_live _ _ _ _ _ _ _ Hr _ v g k Ev) as (x & Hx & Hd); [by apply ParseOwner_iff|apply Hr|].
      rewrite Forall_forall in Hall. specialize (Hall x Hx). unfold Decode in Hd. inv_result. subst x.
      unfold is_own in Hall. cbn in Hall. by rewrite !Z.eqb_refl in Hall.
    - destruct (own_record _ _ _ _ _ _ _ _ _ _ Hr Hx Hxo) as (v & -> & Hd). by apply Decode_posix in Hd. }
  assert (canonical owned ∧ Forall range_typed owned) as [Hc Hty].
  { destruct (h !! owner_field g k); [by apply DecodePosix_sound in Hold as (? & ? & _)|]. subst. split; constructor. }
  apply UpdateRanges_Decode in Hupd as [-> Hdec]; [|done..].
  exists owned. rewrite Hf. split_and!; try done; [apply Hr| |].
  - replace (if bool_decide (replace_range owned iv = []) then _ else _) with
      (if bool_decide ((if bool_decide (replace_range owned iv = []) then [] else Encode (replace_range owned iv)) = [])
       then None else Some (if bool_decide (replace_range owned iv = []) then [] else Encode (replace_range owned iv)))
      by (by case_bool_decide).
    by apply (SetState_update d _ _ _ ex new_txn ()).
  - intros [g2 k2] v2 Ho2 Hne Hl2. rewrite Hf. cbn [fst snd]. intros Hv2.
    destruct (hr_live _ _ _ _ _ _ _ Hr _ v2 g2 k2 Hv2) as (x & Hx & Hd); [by apply ParseOwner_iff|done|].
    exists (h_ranges x). split; [by eapply Decode_posix|]. intros Hu. apply Forall_forall. intros r Hrr.
    apply (Hno x r); try done. unfold Decode in Hd. inv_result. subst x. apply not_true_is_false.
    rewrite is_own_iff. cbn. congruence.
Qed.

Lemma set_posix_exclusive d d' i g k iv :
  0 ≤ i → owner_ok (g, k) → iv_start iv < iv_end iv → range_typed iv →
  commits (set_posix prefix i g k iv) d tt d' →
  exclusive posix_compatible d (PosixLock prefix i) → exclusive posix_compatible d' (PosixLock prefix i).
Proof.
  intros Hi Ho Hiv Ht Hc He. destruct (set_posix_effect _ _ _ _ _ _ Hi Ho Hiv Ht Hc) as (owned & Hl & Hca & Hty & Hold & Hu & Hdec & Hno).
  eapply (exclusive_update posix_compatible d d' _ (g, k)); [apply posix_compatible_sym|done|exact Hu| | |done].
  - intros g' Hg' Hg. eapply (lease_live_frame d d' (PosixLock prefix i)); [lia|intros; key_neq|exact Hu|done].
  - intros v o2 v2 Hv Ho2 Hne Hl2 Hv2. destruct (Hno o2 v2 Ho2 Hne Hl2 Hv2) as (l2 & Hd2 & Hcf).
    case_bool_decide as Hnil; [done|]. injection Hv as <-. intros l1 l2' E1 E2. rewrite Hdec in E1 by done.
    rewrite Hd2 in E2. injection E1 as <-. injection E2 as <-.
    apply (granted_compatible owned iv _ l2 Hca Hty Hiv); [by apply DecodePosix_sound in Hd2 as [? _]|done|done|].
    destruct (field_of (d !! PosixLock prefix i) (owner_field g k)) as [v|] eqn:Ev.
    + apply (He (g, k) o2 v v2); auto.
    + subst owned. intros p m1 m2 []%held_nil.
Qed.

(** *** Flocks *)
Lemma flock_scan_spec g k type holders own conflict own' conflict' :
  flock_scan g k type holders own conflict = (own', conflict') →
  (conflict' = false → conflict = false ∧
     ∀ x, x ∈ holders → is_own g k x = false → flock_blocks type (h_flock x) = false) ∧
  ((Forall (λ x, is_own g k x = false) holders ∧ own' = own) ∨
   ∃ x, x ∈ holders ∧ is_own g k x = true ∧ own' = Some (h_flock x)).
Proof.
  revert own conflict. induction holders as [|x rest IH]; intros own conflict; cbn [flock_scan].
  { intros [= <- <-]. split; [|left; by split]. intros ->. split; [done|]. by intros ? ?%elem_of_nil. }
  destruct (is_own g k x) eqn:Hx; intros E; destruct (IH _ _ E) as [Hc Hown]; split.
  - intros Hc'. destruct (Hc Hc') as [-> Hb]. split; [done|]. intros y [->|Hy]%elem_of_cons; [congruence|by apply Hb].
  - right. destruct Hown as [(_ & ->)|(y & ? & ? & ?)]; [exists x|exists y]; split_and!; try done; (by left) || (by right).
  - intros Hc'. destruct (Hc Hc') as [[-> Hbx]%orb_false_iff Hb]. split; [done|].
    intros y [->|Hy]%elem_of_cons; [done|by apply Hb].
  - destruct Hown as [(? & ->)|(y & ? & ?)]; [left; by split; [apply Forall_cons|]|right; exists y; by split; [right|]].
Qed.

Lemma DecodeFlock_Encode type t : DecodeFlock (EncodeFlock type) = Ok t → t = type.
Proof. destruct type; vm_compute; congruence. Qed.
Lemma EncodeFlock_nil type : EncodeFlock type = [] ↔ type = kFlockUnlock.
Proof. by destruct type. Qed.

(** A committed flock request either sets the requested mode, compatible with every live
    record of another owner, or gives the old lock up and reports so. *)
Lemma set_flock_effect d d' i g k type released :
  0 ≤ i → owner_ok (g, k) → commits (set_flock prefix i g k type) d released d' →
  lease_live d g ∧
  hash_update d d' (FlockLock prefix i) (owner_field g k)
    (if released || bool_decide (type = kFlockUnlock) then None else Some (EncodeFlock type)) ∧
  (released = false → ∀ o2 v2, owner_ok o2 → o2 ≠ (g, k) → lease_live d o2.1 →
     field_of (d !! FlockLock prefix i) (owner_field o2.1 o2.2) = Some v2 →
     ∃ t2, DecodeFlock v2 = Ok t2 ∧ flock_blocks type t2 = false).
Proof.
  intros Hi Ho (t & Ha & ->). unfold set_flock in Ha.
  apply atomic_kv_bind in Ha as (read & t1 & Hr & Ha). apply ReadHolders_spec in Hr as (-> & _ & h & Hr).
  destruct (hash_at_fields _ _ _ (hr_hash _ _ _ _ _ _ _ Hr)) as [Hh Hf].
  destruct (flock_scan g k type read.1.1 None false) as [own conflict] eqn:Es.
  apply flock_scan_spec in Es as [Hno Hown]. split; [apply Hr|]. destruct conflict.
  - case_bool_decide; [|done]. inv_kv. subst released. cbn [orb]. split; [|done].
    by eapply (SetState_update d _ _ [] true new_txn).
  - inv_kv. subst released. cbn [orb]. split.
    + replace (if bool_decide (type = kFlockUnlock) then None else Some (EncodeFlock type)) with
        (if bool_decide (EncodeFlock type = []) then None else Some (EncodeFlock type)) by (by destruct type).
      by eapply (SetState_update d _ _ _ _ new_txn).
    + intros _ [g2 k2] v2 Ho2 Hne Hl2. rewrite Hf. cbn [fst snd]. intros Hv2.
      destruct (hr_live _ _ _ _ _ _ _ Hr _ v2 g2 k2 Hv2) as (y & Hy & Hd); [by apply ParseOwner_iff|done|].
      exists (h_flock y). split; [by eapply Decode_flock|]. apply Hno; [done|done|].
      unfold Decode in Hd. inv_result. subst y. apply not_true_is_false. rewrite is_own_iff. cbn. congruence.
Qed.

Lemma set_flock_exclusive d d' i g k type released :
  0 ≤ i → owner_ok (g, k) → commits (set_flock prefix i g k type) d released d' →
  exclusive flock_compatible d (FlockLock prefix i) → exclusive flock_compatible d' (FlockLock prefix i).
Proof.
  intros Hi Ho Hc He. destruct (set_flock_effect _ _ _ _ _ _ _ Hi Ho Hc) as (Hl & Hu & Hno).
  eapply (exclusive_update flock_compatible d d' _ (g, k)); [apply flock_compatible_sym|done|exact Hu| | |done].
  - intros g' Hg' Hg. eapply (lease_live_frame d d' (FlockLock prefix i)); [lia|intros; key_neq|exact Hu|done].
  - intros v o2 v2 Hv Ho2 Hne Hl2 Hv2. destruct released; [done|]. cbn [orb] in Hv. case_bool_decide as Hun; [done|].
    injection Hv as <-. destruct (Hno eq_refl o2 v2 Ho2 Hne Hl2 Hv2) as (t2 & Hd2 & Hb). intros t1 t2' ->%DecodeFlock_Encode E2.
    rewrite Hd2 in E2. injection E2 as <-. unfold flock_blocks in Hb. unfold DecodeFlock in Hd2.
    by destruct type, t2; repeat case_bool_decide; simplify_eq.
Qed.

(** *** Stale records *)
Lemma gc_candidates_spec entries generations candidates generations' :
  gc_candidates entries generations = (candidates, generations') →
  (∀ x, x ∈ generations → x ∈ generations') ∧
  Forall (λ c, c.2 ∈ generations' ∧ ∃ k, ParseOwner c.1 = Some (c.2, k)) candidates.
Proof.
  revert generations candidates. induction entries as [|[f v] rest IH]; intros gens cands; cbn [gc_candidates].
  { intros [= <- <-]. by split. }
  destruct (ParseOwner f) as [[g k]|] eqn:Ef; [|apply IH].
  destruct (gc_candidates rest _) as [c gs] eqn:Ec. intros [= <- <-]. destruct (IH _ _ Ec) as [Hsub Hf]. split.
  - intros x Hx. apply Hsub, add_generation_elem. by left.
  - constructor; [|done]. cbn. split; [|by exists k]. apply Hsub, add_generation_elem. by right.
Qed.

Lemma del_fields_spec d K fields t u t' :
  atomic d (del_fields K fields) t (Ok u, t') → queued t' = queued t ++ (WHDel K <$> fields).
Proof.
  revert t. induction fields as [|f rest IH]; intros t; cbn [del_fields]; intros Ha; inv_kv.
  - cbn. by rewrite app_nil_r.
  - rewrite (IH _ Ha). cbn. by rewrite <- app_assoc.
Qed.

Lemma fields_deleted K fields v :
  is_hash v → is_hash (key_after incr_string K (WHDel K <$> fields) v) ∧
  ∀ g, field_of (key_after incr_string K (WHDel K <$> fields) v) g = if decide (g ∈ fields) then None else field_of v g.
Proof.
  revert v. induction fields as [|f rest IH]; intros v Hv; cbn [fmap list_fmap].
  { split; [done|]. intros g. rewrite decide_False by apply not_elem_of_nil. done. }
  rewrite key_after_cons. cbn [write_key]. rewrite decide_True by done. destruct (field_hdel K f v Hv) as [Hv' E].
  destruct (IH _ Hv') as [? E2]. split; [done|]. intros g. rewrite E2, E.
  destruct (decide (g ∈ rest)), (decide (g ∈ f :: rest)) as [Hi|Hi], (decide (g = f)); try done;
    rewrite elem_of_cons in Hi; naive_solver.
Qed.

(** Collection removes records of generations without a lease, and nothing else. *)
Lemma cleanup_page_effect d d' K c next :
  commits (cleanup_page prefix K c) d next d' →
  (∀ k, k ≠ K → d' !! k = d !! k) ∧
  ∀ f, field_of (d' !! K) f = field_of (d !! K) f ∨
       (∃ g k, ParseOwner f = Some (g, k) ∧ d !! OwnerLease prefix g = None ∧ field_of (d' !! K) f = None).
Proof.
  intros (t & Ha & ->). unfold cleanup_page in Ha. apply atomic_kv_bind in Ha as (page & t1 & Hs & Ha).
  apply atomic_HScan in Hs as (-> & Hs & _). destruct (Hs page.1 page.2) as (_ & h & Hh & _); [by destruct page|].
  destruct (gc_candidates page.1 []) as [cands gens] eqn:Eg. apply gc_candidates_spec in Eg as [_ Hc]. inv_kv.
  match goal with Hd : atomic _ (del_fields _ _) _ _ |- _ => apply del_fields_spec in Hd as Hq end.
  cbn [queued new_txn app] in Hq. rewrite Hq. split.
  { intros k Hk. apply (writes_frame K); [|done]. by apply Forall_fmap, Forall_true. }
  intros f. apply hash_at_fields in Hh as [Hh _]. rewrite lookup_apply_writes.
  match goal with |- context [WHDel K <$> ?l] => destruct (fields_deleted K l _ Hh) as [_ ->] end.
  case_decide as Hf; [right|by left]. apply list_elem_of_fmap in Hf as ([f' g] & -> & [Ht Hin]%list_elem_of_filter).
  rewrite Forall_forall in Hc. destruct (Hc _ Hin) as (Hg & k & Hp). cbn [fst snd] in *. exists g, k. split; [done|]. split; [|done].
  match goal with Hz : Forall2 (pttl_answers d) _ _ |- _ => destruct (ttl_lease d gens _ g Hz Hg) as (_ & _ & Hn & _) end.
  by apply Hn.
Qed.

Lemma AllocateGeneration_effect d d' g :
  commits (AllocateGeneration prefix) d g d' →
  ∃ c e, d !! OwnerGeneration prefix = Some (RVStr (to_string c) e) ∧ 0 ≤ c < INT64_MAX ∧ g = c + 1 ∧
    d' !! OwnerGeneration prefix = Some (RVStr (to_string g) e) ∧
    ∀ k, k ≠ OwnerGeneration prefix → d' !! k = d !! k.
Proof.
  intros (t & Ha & ->). unfold AllocateGeneration in Ha. apply atomic_kv_try in Ha as (r & t1 & Hg & Ha).
  apply atomic_Get in Hg as [-> Ho]. destruct r as [s|e]; [|by destruct e].
  assert (string_at d (OwnerGeneration prefix) = Some (Some s)) as Hs.
  { destruct Ho as [[_ Ho]|[?|[_ ?]]]; [|done..]. destruct (string_at d _) as [[]|]; by simplify_eq. }
  destruct (from_chars s) as [c|] eqn:Ec; [|done]. apply from_chars_range in Ec as Hr. inv_kv. inv_result.
  rewrite Z.geb_leb in *. zify_bools. match goal with Hb : bool_decide _ = true |- _ => apply bool_decide_eq_true in Hb; subst s end.
  unfold string_at in Hs. destruct (d !! OwnerGeneration prefix) as [[s e| |]|] eqn:Ed; try done. injection Hs as ->.
  unfold in_range in Hr. exists c, e. split; [done|]. split; [lia|]. split; [done|]. subst g. cbn [queued enqueue new_txn app]. split.
  - rewrite lookup_apply_writes, Ed. unfold key_after. cbn [foldl write_key write_value]. rewrite decide_True by done.
    rewrite incr_decimal by lia. by destruct (Z.leb_spec (c + 1) INT64_MAX); [|lia].
  - intros k Hk. apply (writes_frame (OwnerGeneration prefix)); [by repeat constructor|done].
Qed.

(** ** The lock service: any number of mounts *)

(** SET NX PX, PEXPIRE XX and DEL on a lease key; PEXPIRE changes the expiry only. *)
Definition CreateOwnerLease (key nonce : bytes) (d : dataset) : Status * dataset :=
  match d !! key with
  | None => (OK, <[key := RVStr nonce true]> d)
  | Some _ => (AlreadyExists, d)
  end.
Definition RenewOwnerLease (key : bytes) (d : dataset) : Status :=
  match d !! key with Some (RVStr _ true) => OK | _ => Unavailable end.
Definition RevokeOwnerLease (key : bytes) (d : dataset) : Status * dataset := (OK, delete key d).

(** [ls_pending]: generations allocated by mounts that have not sent their SET NX PX. *)
Record lock_system := mkLockSystem { ls_data : dataset; ls_pending : gset Z }.

Definition lock_hash (K : bytes) : Prop := ∃ i, 0 ≤ i ∧ (K = PosixLock prefix i ∨ K = FlockLock prefix i).
Definition lock_key (K : bytes) : Prop :=
  lock_hash K ∨ K = OwnerGeneration prefix ∨ ∃ g, 0 ≤ g ∧ K = OwnerLease prefix g.
Definition request_ok (r : PosixRange) : Prop :=
  in_range 64 (pr_start r) ∧ in_range 64 (pr_length r) ∧ in_range_signed 32 (pr_pid r).

Inductive lock_step : lock_system → lock_system → Prop :=
  | step_set_posix d d' P i g k request iv :
      0 ≤ i → owner_ok (g, k) → request_ok request → ValidateRange request = Ok iv →
      commits (set_posix prefix i g k iv) d tt d' → lock_step (mkLockSystem d P) (mkLockSystem d' P)
  | step_set_flock d d' P i g k type released :
      0 ≤ i → owner_ok (g, k) → commits (set_flock prefix i g k type) d released d' →
      lock_step (mkLockSystem d P) (mkLockSystem d' P)
  | step_cleanup d d' P K c next :
      lock_hash K → commits (cleanup_page prefix K c) d next d' → lock_step (mkLockSystem d P) (mkLockSystem d' P)
  | step_allocate d d' P g :
      commits (AllocateGeneration prefix) d g d' → lock_step (mkLockSystem d P) (mkLockSystem d' ({[ g ]} ∪ P))
  | step_register d P g nonce :
      g ∈ P → lock_step (mkLockSystem d P) (mkLockSystem (CreateOwnerLease (OwnerLease prefix g) nonce d).2 (P ∖ {[ g ]}))
  | step_lose_lease d P g :
      (* revoked by its mount, or expired *)
      0 ≤ g → lock_step (mkLockSystem d P) (mkLockSystem (RevokeOwnerLease (OwnerLease prefix g) d).2 P)
  | step_elsewhere d d' P :
      (∀ K, lock_key K → d' !! K = d !! K) → lock_step (mkLockSystem d P) (mkLockSystem d' P).

(** A formatted volume nobody has locked on. *)
Definition lock_start (s : lock_system) : Prop :=
  (∃ c e, ls_data s !! OwnerGeneration prefix = Some (RVStr (to_string c) e) ∧ 0 ≤ c ≤ INT64_MAX) ∧
  (∀ g, 0 ≤ g → ls_data s !! OwnerLease prefix g = None) ∧ (∀ K, lock_hash K → ls_data s !! K = None) ∧ ls_pending s = ∅.

(** A generation is in use once it has a lease or a stored record. *)
Definition in_use (d : dataset) (g : Z) : Prop :=
  lease_live d g ∨ ∃ K k v, lock_hash K ∧ in_range 64 k ∧ field_of (d !! K) (owner_field g k) = Some v.

Record lock_inv (s : lock_system) : Prop := {
  li_posix i : 0 ≤ i → exclusive posix_compatible (ls_data s) (PosixLock prefix i);
  li_flock i : 0 ≤ i → exclusive flock_compatible (ls_data s) (FlockLock prefix i);
  li_counter : ∃ c e, ls_data s !! OwnerGeneration prefix = Some (RVStr (to_string c) e) ∧ 0 ≤ c ≤ INT64_MAX ∧
    (∀ g, g ∈ ls_pending s → 0 < g ≤ c) ∧
    (∀ g, 0 < g < 2 ^ 64 → in_use (ls_data s) g → g ≤ c ∧ g ∉ ls_pending s);
}.

Lemma ValidateRange_sound r iv :
  request_ok r → ValidateRange r = Ok iv → iv_start iv < iv_end iv ∧ range_typed iv ∧ iv_type iv = pr_type r.
Proof.
  intros (Hs & Hl & Hp). unfold ValidateRange, range_typed, in_range, in_range_signed, UINT64_MAX, INT32_MAX in *. intros E.
  inv_result. subst iv. cbn. apply andb_false_iff in H3. rewrite Z.gtb_ltb, negb_false_iff in H3.
  destruct (Z.eqb_spec (pr_length r) 0); zify_bools; destruct H3 as [?|?]; zify_bools; try done; split_and!; try done; lia.
Qed.

Lemma lock_hash_lease K g : lock_hash K → 0 ≤ g → OwnerLease prefix g ≠ K.
Proof. intros (i & Hi & [->| ->]) Hg; key_neq. Qed.
Lemma lock_hash_counter K : lock_hash K → OwnerGeneration prefix ≠ K.
Proof. intros (i & Hi & [->| ->]); key_neq. Qed.
Lemma lock_hash_posix i : 0 ≤ i → lock_hash (PosixLock prefix i).
Proof. intros Hi. exists i. split; [done|by left]. Qed.
Lemma lock_hash_flock i : 0 ≤ i → lock_hash (FlockLock prefix i).
Proof. intros Hi. exists i. split; [done|by right]. Qed.
Lemma lock_kinds i j : 0 ≤ i → 0 ≤ j → PosixLock prefix i ≠ FlockLock prefix j.
Proof. intros. key_neq. Qed.
#[local] Hint Resolve lock_hash_posix lock_hash_flock : core.

Lemma exclusive_frame compatible d d' K :
  (∀ g, 0 < g → d' !! OwnerLease prefix g = d !! OwnerLease prefix g) → d' !! K = d !! K →
  exclusive compatible d K → exclusive compatible d' K.
Proof.
  intros Hl HK. apply exclusive_mono; [|by rewrite HK]. intros g Hg. unfold lease_live. rewrite Hl by lia. by left.
Qed.

(** Steps that allocate nothing and use no new generation. *)
Lemma counter_quiet d d' P :
  d' !! OwnerGeneration prefix = d !! OwnerGeneration prefix →
  (∀ g, 0 < g < 2 ^ 64 → in_use d' g → in_use d g) →
  lock_inv (mkLockSystem d P) →
  ∃ c e, d' !! OwnerGeneration prefix = Some (RVStr (to_string c) e) ∧ 0 ≤ c ≤ INT64_MAX ∧
    (∀ g, g ∈ P → 0 < g ≤ c) ∧ (∀ g, 0 < g < 2 ^ 64 → in_use d' g → g ≤ c ∧ g ∉ P).
Proof.
  intros E Hu [_ _ (c & e & Hc & Hr & Hp & Hi)]. cbn in *. exists c, e. rewrite E. split_and!; try done; try lia. auto.
Qed.

(** A record update: the other hash of the inode and all other hashes are untouched. *)
Lemma update_inv d d' P K o w :
  lock_hash K → owner_ok o → lease_live d o.1 → hash_update d d' K (owner_field o.1 o.2) w →
  (∀ i, 0 ≤ i → K = PosixLock prefix i → exclusive posix_compatible d' K) →
  (∀ i, 0 ≤ i → K = FlockLock prefix i → exclusive flock_compatible d' K) →
  lock_inv (mkLockSystem d P) → lock_inv (mkLockSystem d' P).
Proof.
  intros HK Ho Hl Hu Hposix Hflock Hinv.
  assert (∀ g, 0 < g → d' !! OwnerLease prefix g = d !! OwnerLease prefix g) as Hlease.
  { intros g Hg. apply (hu_frame _ _ _ _ _ Hu), lock_hash_lease; [done|lia]. }
  split; cbn.
  - intros i Hi. destruct (decide (PosixLock prefix i = K)) as [E|E]; [rewrite E; by apply (Hposix i)|].
    apply (exclusive_frame _ d); [done|by apply Hu|by apply (li_posix _ Hinv)].
  - intros i Hi. destruct (decide (FlockLock prefix i = K)) as [E|E]; [rewrite E; by apply (Hflock i)|].
    apply (exclusive_frame _ d); [done|by apply Hu|by apply (li_flock _ Hinv)].
  - apply (counter_quiet d); [by apply (hu_frame _ _ _ _ _ Hu), lock_hash_counter| |done].
    intros g Hg [Hgl|(K' & k & v & HK' & Hk & Hv)].
    + left. unfold lease_live in *. by rewrite Hlease in Hgl by lia.
    + destruct (decide (K' = K)) as [->|HKne].
      * rewrite (hu_fields _ _ _ _ _ Hu) in Hv by by apply (owner_field_fence (g, k)). case_decide as Ef.
        -- apply (owner_field_inj (g, k) o) in Ef; [|done..]. subst o. by left.
        -- right. by exists K, k, v.
      * rewrite (hu_frame _ _ _ _ _ Hu) in Hv by done. right. by exists K', k, v.
Qed.

(** A step that only removes records and leases. *)
Lemma shrink_inv d d' P :
  d' !! OwnerGeneration prefix = d !! OwnerGeneration prefix →
  (∀ g, 0 < g → lease_live d' g → lease_live d g) →
  (∀ K f v, lock_hash K → field_of (d' !! K) f = Some v → field_of (d !! K) f = Some v) →
  lock_inv (mkLockSystem d P) → lock_inv (mkLockSystem d' P).
Proof.
  intros Hc Hl Hf Hinv. split; cbn.
  - intros i Hi. apply (exclusive_mono _ d); [intros g Hg ?; left; apply Hl; [lia|done]|intros o v _; by apply Hf; auto|by apply (li_posix _ Hinv)].
  - intros i Hi. apply (exclusive_mono _ d); [intros g Hg ?; left; apply Hl; [lia|done]|intros o v _; by apply Hf; auto|by apply (li_flock _ Hinv)].
  - apply (counter_quiet d); [done| |done]. intros g Hg [?|(K & k & v & HK & Hk & Hv)]; [left; apply Hl; [lia|done]|].
    right. exists K, k, v. split_and!; [done|done|]. by apply Hf.
Qed.

Lemma register_inv d P g nonce :
  g ∈ P → lock_inv (mkLockSystem d P) →
  lock_inv (mkLockSystem (CreateOwnerLease (OwnerLease prefix g) nonce d).2 (P ∖ {[ g ]})).
Proof.
  intros Hg Hinv. destruct (li_counter _ Hinv) as (c & e & Hc & Hr & Hp & Hu). cbn in *. specialize (Hp g Hg) as Hgc.
  unfold CreateOwnerLease. destruct (d !! OwnerLease prefix g) eqn:Ed; cbn [snd].
  { split; cbn; [apply (li_posix _ Hinv)|apply (li_flock _ Hinv)|]. exists c, e. split_and!; try done; try lia.
    - intros x [Hx _]%elem_of_difference. by apply Hp.
    - intros x Hx Hxu. destruct (Hu x Hx Hxu). split; [done|]. set_solver. }
  assert (∀ K, lock_hash K → (<[OwnerLease prefix g:=RVStr nonce true]> d) !! K = d !! K) as HK.
  { intros K HK. apply lookup_insert_ne, lock_hash_lease; [done|lia]. }
  assert (∀ x, 0 < x → lease_live (<[OwnerLease prefix g:=RVStr nonce true]> d) x → lease_live d x ∨ x = g) as Hlv.
  { intros x Hx [n Hn]. destruct (decide (x = g)) as [->|Hne]; [by right|left]. exists n.
    rewrite lookup_insert_ne in Hn by key_neq. done. }
  assert (∀ K k, lock_hash K → in_range 64 k → field_of (d !! K) (owner_field g k) = None) as Hnone.
  { intros K k HK' Hk. destruct (field_of (d !! K) (owner_field g k)) as [v|] eqn:Ev; [|done].
    destruct (Hu g) as [_ []]; [unfold INT64_MAX in *; lia|right; by exists K, k, v|done]. }
  assert (∀ K compatible, lock_hash K → exclusive compatible d K →
    exclusive compatible (<[OwnerLease prefix g:=RVStr nonce true]> d) K) as Hex.
  { intros K cm HK'. apply exclusive_mono; [|intros o v Ho; by rewrite HK]. intros x Hx Hxl.
    destruct (Hlv x) as [?| ->]; [lia|done|by left|right]. intros k Hk. rewrite HK by done. by apply Hnone. }
  split; cbn.
  - intros i Hi. apply Hex; [auto|by apply (li_posix _ Hinv)].
  - intros i Hi. apply Hex; [auto|by apply (li_flock _ Hinv)].
  - exists c, e. rewrite lookup_insert_ne by key_neq. split_and!; try done; try lia.
    + intros x [Hx _]%elem_of_difference. by apply Hp.
    + intros x Hx [[?| ->]%Hlv|(K & k & v & HK' & Hk & Hv)]; [|split; [lia|set_solver]|lia|].
      * destruct (Hu x Hx) as [? ?]; [by left|]. split; [done|set_solver].
      * rewrite HK in Hv by done. destruct (Hu x Hx) as [? ?]; [right; by exists K, k, v|]. split; [done|set_solver].
Qed.

Lemma allocate_inv d d' P g :
  commits (AllocateGeneration prefix) d g d' → lock_inv (mkLockSystem d P) → lock_inv (mkLockSystem d' ({[ g ]} ∪ P)).
Proof.
  intros (c & e & Hd & Hc & -> & Hd' & Hfr)%AllocateGeneration_effect Hinv.
  destruct (li_counter _ Hinv) as (c' & e' & Hd2 & Hr & Hp & Hu). cbn in *. rewrite Hd in Hd2. injection Hd2 as E <-.
  apply to_string_inj in E; [|lia..]. subst c'.
  assert (∀ K, lock_hash K → d' !! K = d !! K) as HK by (intros K HK; apply Hfr, not_eq_sym, lock_hash_counter; done).
  assert (∀ x, 0 < x → d' !! OwnerLease prefix x = d !! OwnerLease prefix x) as Hl by (intros x Hx; apply Hfr; key_neq).
  split; cbn.
  - intros i Hi. apply (exclusive_frame _ d); [done|apply HK; auto|by apply (li_posix _ Hinv)].
  - intros i Hi. apply (exclusive_frame _ d); [done|apply HK; auto|by apply (li_flock _ Hinv)].
  - exists (c + 1), e. split_and!; [done|lia|lia| |].
    + intros x [->%elem_of_singleton|Hx]%elem_of_union; [lia|]. specialize (Hp x Hx). lia.
    + intros x Hx Hxu. destruct (Hu x Hx) as [? ?].
      * destruct Hxu as [Hxl|(K & k & v & HK' & Hk & Hv)]; [left|right].
        -- unfold lease_live in *. by rewrite Hl in Hxl by lia.
        -- exists K, k, v. by rewrite <- HK.
      * split; [lia|]. rewrite elem_of_union, elem_of_singleton. intros [->|?]; [lia|done].
Qed.

Lemma lock_step_inv s s' : lock_step s s' → lock_inv s → lock_inv s'.
Proof.
  destruct 1 as [d d' P i g k r iv Hi Ho Hr Hv Hc|d d' P i g k ty rel Hi Ho Hc|d d' P K c next HK Hc|d d' P g Hc
    |d P g nonce Hg|d P g Hg|d d' P Hsame]; intros Hinv.
  - destruct (ValidateRange_sound _ _ Hr Hv) as (Hiv & Ht & _).
    destruct (set_posix_effect _ _ _ _ _ _ Hi Ho Hiv Ht Hc) as (owned & Hl & _ & _ & _ & Hu & _).
    apply (update_inv d d' P (PosixLock prefix i) (g, k) _ (lock_hash_posix i Hi) Ho Hl Hu); [|intros j Hj E; by destruct (lock_kinds i j)|done].
    intros _ _ _. by eapply set_posix_exclusive; [..|by apply (li_posix _ Hinv)].
  - destruct (set_flock_effect _ _ _ _ _ _ _ Hi Ho Hc) as (Hl & Hu & _).
    apply (update_inv d d' P (FlockLock prefix i) (g, k) _ (lock_hash_flock i Hi) Ho Hl Hu); [intros j Hj E; by destruct (lock_kinds j i)| |done].
    intros _ _ _. by eapply set_flock_exclusive; [..|by apply (li_flock _ Hinv)].
  - apply cleanup_page_effect in Hc as [Hfr Hf]. apply (shrink_inv d); [| | |done].
    + by apply Hfr, lock_hash_counter.
    + intros g Hg. unfold lease_live. rewrite Hfr; [done|]. apply lock_hash_lease; [done|lia].
    + intros K' f v HK'. destruct (decide (K' = K)) as [->|]; [|by rewrite Hfr].
      destruct (Hf f) as [->|(g & k & _ & _ & ->)]; done.
  - by apply (allocate_inv d).
  - by apply register_inv.
  - apply (shrink_inv d); cbn; [rewrite lookup_delete_ne by key_neq; done| | |done].
    + intros x Hx [n Hn]. exists n. by apply lookup_delete_Some in Hn as [_ ?].
    + intros K f v HK. by rewrite lookup_delete_ne by (by apply lock_hash_lease).
  - apply (shrink_inv d); [| | |done].
    + apply Hsame. right. by left.
    + intros g Hg. unfold lease_live. rewrite Hsame; [done|]. right. right. exists g. split; [lia|done].
    + intros K f v HK. rewrite Hsame; [done|by left].
Qed.

Lemma lock_start_inv s : lock_start s → lock_inv s.
Proof.
  intros ((c & e & Hc & Hr) & Hl & HK & HP).
  assert (∀ compatible K, lock_hash K → exclusive compatible (ls_data s) K) as Hex.
  { intros cm K Hk o1 o2 v1 v2 _ _ _ _ _ Hv. by rewrite HK in Hv. }
  split; [auto|auto|]. exists c, e. rewrite HP. split_and!; try done; try lia.
  intros g Hg [[n Hn]|(K & k & v & Hk & _ & Hv)]; [by rewrite Hl in Hn by lia|by rewrite HK in Hv].
Qed.

(** Locks as the applications see them: records of mounts whose lease is live. *)
Definition posix_held (d : dataset) (i : Z) (o : Z * Z) (l : list Interval) : Prop :=
  owner_ok o ∧ lease_live d o.1 ∧
  ∃ v, field_of (d !! PosixLock prefix i) (owner_field o.1 o.2) = Some v ∧ DecodePosix v = Ok l.
Definition flock_held (d : dataset) (i : Z) (o : Z * Z) (t : FlockType) : Prop :=
  owner_ok o ∧ lease_live d o.1 ∧
  ∃ v, field_of (d !! FlockLock prefix i) (owner_field o.1 o.2) = Some v ∧ DecodeFlock v = Ok t.

(** C7: mutual exclusion.  Whatever the mounts do, in whatever order their transactions
    commit, leases are lost and stale records are collected, no byte of a file is ever
    locked by two live owners unless both hold read locks, and no file is flocked by two
    live owners unless both hold it shared. *)
Theorem lock_mutual_exclusion s0 s i o1 o2 :
  lock_start s0 → rtc lock_step s0 s → 0 ≤ i → o1 ≠ o2 →
  (∀ l1 l2 p m1 m2, posix_held (ls_data s) i o1 l1 → posix_held (ls_data s) i o2 l2 →
     held l1 p m1 → held l2 p m2 → m1.1 = kRead ∧ m2.1 = kRead) ∧
  (∀ t1 t2, flock_held (ls_data s) i o1 t1 → flock_held (ls_data s) i o2 t2 → t1 = kShared ∧ t2 = kShared).
Proof.
  intros Hs Hr Hi Hne. assert (lock_inv s) as Hinv.
  { apply lock_start_inv in Hs. induction Hr; [done|]. eauto using lock_step_inv. }
  split.
  - intros l1 l2 p m1 m2 (? & ? & v1 & ? & ?) (? & ? & v2 & ? & ?). by eapply (li_posix s Hinv i Hi o1 o2 v1 v2).
  - intros t1 t2 (? & ? & v1 & ? & ?) (? & ? & v2 & ? & ?). by eapply (li_flock s Hinv i Hi o1 o2 v1 v2).
Qed.

(** ** GETLK and SETLK agree *)
Lemma decode_not_blocked r ρ : decode r ρ ≠ Err WouldBlock.
Proof. destruct r, ρ; cbn; try done. by destruct (Nat.eqb _ _). Qed.

Lemma read_not_blocked {A : Type} d r (f : result kv_value → result A) t t' :
  (∀ v, f v = Err WouldBlock → v = Err WouldBlock) → ¬ atomic d (Read r (λ v, Ret (f v))) t (Err WouldBlock, t').
Proof.
  intros Hf. cbn [atomic]. unfold guard_read. destruct (has_writes t).
  - intros [= E _]. symmetry in E. by apply Hf in E.
  - assert (¬ ∃ ρ, (answers page_of d r ρ ∨ ρ = RpError) ∧ (Err WouldBlock, t') = (f (decode r ρ), t)) as Hd.
    { intros (ρ & _ & [= E _]). symmetry in E. apply Hf, decode_not_blocked in E. done. }
    destruct r as [| | | | |[|k ks]|]; try done. intros [= E _]. symmetry in E. by apply Hf in E.
Qed.

Lemma collect_owners_err entries generations e : collect_owners entries generations = Err e → e = Malformed.
Proof.
  revert generations. induction entries as [|[f v] rest IH]; intros gens; cbn; [done|]. destruct (ParseOwner f) as [[g k]|]; [|congruence].
  destruct (collect_owners rest _) as [[]|] eqn:E; cbn; [done|]. intros [= <-]. by eapply IH.
Qed.

Lemma decode_entries_err fuel data l e : decode_entries fuel data l = Err e → e = Malformed.
Proof.
  revert data l. induction fuel as [|fuel IH]; intros data l; cbn [decode_entries]; [congruence|].
  destruct (SplitOnce data "|") as [entry rest]. destruct (parse_entry entry) as [iv|]; [|congruence].
  destruct (negb (follows l iv)); cbn [fail_if mbind result_bind]; [congruence|].
  destruct (zlen (l ++ [iv]) >? kMaxIntervals); cbn [fail_if mbind result_bind]; [congruence|].
  case_bool_decide; [done|]. apply IH.
Qed.

Lemma Decode_err v fl g k e : Decode v fl g k = Err e → e = Malformed.
Proof.
  unfold Decode. destruct fl.
  - unfold DecodeFlock. repeat case_bool_decide; cbn; congruence.
  - assert (∀ e', DecodePosix v = Err e' → e' = Malformed) as Hp.
    { intros e'. unfold DecodePosix. destruct (zlen v >? _); cbn [fail_if mbind result_bind]; [congruence|].
      destruct (negb _); cbn [fail_if mbind result_bind]; [congruence|].
      destruct (_ || _); cbn [fail_if mbind result_bind]; [congruence|]. apply decode_entries_err. }
    destruct (DecodePosix v); cbn; [done|]. intros [= <-]. auto.
Qed.

Lemma live_holders_err fl gens ttls cands e : live_holders fl gens ttls cands = Err e → e = Malformed.
Proof.
  induction cands as [|[[g k] v] rest IH]; cbn [live_holders]; [done|].
  destruct (_ =? -1); cbn [fail_if mbind result_bind]; [congruence|]. destruct (0 <=? _).
  - destruct (Decode v fl g k) as [x|] eqn:Ed; cbn; [|intros [= <-]; by eapply Decode_err].
    destruct (live_holders _ _ _ rest) as [[]|]; cbn; [done|]. intros [= <-]. auto.
  - destruct (live_holders _ _ _ rest) as [[]|]; cbn; [done|]. intros [= <-]. auto.
Qed.

Lemma ReadHolders_not_blocked d K g fl t t' : ¬ atomic d (ReadHolders prefix K g fl) t (Err WouldBlock, t').
Proof.
  unfold ReadHolders. intros Ha.
  repeat (apply atomic_kv_bind_Err in Ha as [Ha|(? & ? & _ & Ha)];
    [first [by apply read_not_blocked in Ha; [|intros [[]|]; cbn; congruence]
           |apply atomic_lift in Ha as [Ha _]; symmetry in Ha;
            first [by apply fail_if_Err in Ha as [_ ?]|by apply collect_owners_err in Ha|by apply live_holders_err in Ha]]|]).
  by apply atomic_ret in Ha as [? _].
Qed.

Lemma first_conflict_spec g k iv holders :
  match first_conflict g k iv holders with
  | None => ∀ x r, x ∈ holders → is_own g k x = false → r ∈ h_ranges x → conflicting iv r = false
  | Some pc => ∃ x r, x ∈ holders ∧ is_own g k x = false ∧ r ∈ h_ranges x ∧ conflicting iv r = true ∧
      pc = mkPosixConflict (iv_start r) (reported_length r) (h_kernel_owner x) (iv_type r) (iv_pid r)
  end.
Proof.
  induction holders as [|x rest IH]; cbn [first_conflict]; [by intros ?? ?%elem_of_nil|].
  destruct (is_own g k x) eqn:Hx; [|destruct (List.find (conflicting iv) (h_ranges x)) as [r|] eqn:Hf].
  - destruct (first_conflict _ _ _ rest).
    + destruct IH as (y & r & ? & ?). exists y, r. by split; [right|].
    + intros y r [->|Hy]%elem_of_cons ? ?; [congruence|by apply (IH y)].
  - apply List.find_some in Hf as [Hr Hc]. exists x, r. split_and!; try done; [by left|by apply list_elem_of_In].
  - destruct (first_conflict _ _ _ rest).
    + destruct IH as (y & r & ? & ?). exists y, r. by split; [right|].
    + intros y r [->|Hy]%elem_of_cons ? Hr; [|by apply (IH y)]. by apply (List.find_none _ _ Hf), list_elem_of_In.
Qed.

Lemma own_ranges_err g k iv holders owned ex e :
  own_ranges g k iv holders owned ex = Err e →
  ∃ x r, x ∈ holders ∧ is_own g k x = false ∧ r ∈ h_ranges x ∧ conflicting iv r = true.
Proof.
  revert owned ex. induction holders as [|x rest IH]; intros owned ex; cbn [own_ranges]; [done|].
  destruct (is_own g k x) eqn:Hx.
  - intros (y & r & ? & ?)%IH. exists y, r. by split; [right|].
  - destruct (negb _ && existsb _ _) eqn:Hb; cbn [fail_if mbind result_bind].
    + intros _. apply andb_true_iff in Hb as [_ (r & Hr & Hc)%existsb_exists]. exists x, r.
      split_and!; try done; [by left|by apply list_elem_of_In].
    + intros (y & r & ? & ?)%IH. exists y, r. by split; [right|].
Qed.

Lemma queue_not_blocked d w t t' : ¬ atomic d (queue w) t (Err WouldBlock, t').
Proof. by intros [[? _]|[? _]]%atomic_queue. Qed.

Lemma SetState_not_blocked d K f data ex t t' : ¬ atomic d (SetState K f data ex) t (Err WouldBlock, t').
Proof.
  unfold SetState. destruct (negb _); [apply queue_not_blocked|]. destruct ex; [apply queue_not_blocked|].
  intros Ha. repeat (apply atomic_kv_bind_Err in Ha as [Ha|(? & ? & _ & Ha)]; [by apply queue_not_blocked in Ha|]).
  by apply queue_not_blocked in Ha.
Qed.

(** A lock request is refused as blocked only on account of a conflicting live range. *)
Lemma set_posix_blocked d i g k iv t' :
  atomic d (set_posix prefix i g k iv) new_txn (Err WouldBlock, t') →
  ∃ hs st h x r, holders_read d (PosixLock prefix i) g false hs st h ∧ x ∈ hs ∧ is_own g k x = false ∧
    r ∈ h_ranges x ∧ conflicting iv r = true.
Proof.
  unfold set_posix. intros Hb. apply atomic_kv_bind_Err in Hb as [Hb|(read & t1 & Hr & Hb)]; [by apply ReadHolders_not_blocked in Hb|].
  apply ReadHolders_spec in Hr as (-> & _ & h & Hr). apply atomic_kv_bind_Err in Hb as [Hb|(own & t1 & Hown & Hb)].
  { apply atomic_lift in Hb as [Hb _]. symmetry in Hb. apply own_ranges_err in Hb as (x & r & ? & ? & ? & ?). eauto 20. }
  exfalso. apply atomic_kv_bind_Err in Hb as [Hb|(owned & t2 & _ & Hb)].
  { apply atomic_lift in Hb as [Hb _]. unfold UpdateRanges in Hb. destruct (_ || _) in Hb; done. }
  apply atomic_kv_bind_Err in Hb as [Hb|(? & t3 & _ & Hb)]; [|by apply SetState_not_blocked in Hb].
  apply atomic_lift in Hb as [Hb _]. symmetry in Hb. by apply fail_if_Err in Hb as [_ ?].
Qed.

(** The holders of two readings of one dataset are the same. *)
Lemma holders_agree d K g g' fl hs st h hs' st' h' x :
  holders_read d K g fl hs st h → holders_read d K g' fl hs' st' h' → x ∈ hs → x ∈ hs'.
Proof.
  intros Hr Hr' Hx. destruct (hr_sound _ _ _ _ _ _ _ Hr x Hx) as (Ho & Hl & v & Hv & Hd).
  assert (h' = h) as -> by (pose proof (hr_hash _ _ _ _ _ _ _ Hr); pose proof (hr_hash _ _ _ _ _ _ _ Hr'); congruence).
  destruct (hr_live _ _ _ _ _ _ _ Hr' _ v (h_generation x) (h_kernel_owner x) Hv) as (y & Hy & Hd'); [by apply ParseOwner_iff|done|]. congruence.
Qed.

(** C22: F_GETLK tells what F_SETLK would meet.  On the same stored state, an answer
    "no conflict" means that a lock request for the range is not refused as blocked, and a
    reported conflict is a range another live owner really holds, for which the request
    cannot be granted; the query itself writes nothing. *)
Theorem GetPosix_predicts d i g k iv answer t :
  0 ≤ i → owner_ok (g, k) → iv_start iv < iv_end iv → range_typed iv → iv_type iv ≠ kUnlock →
  atomic d (get_posix prefix i g k iv) new_txn (Ok answer, t) →
  queued t = [] ∧
  match answer with
  | None => ∀ t', ¬ atomic d (set_posix prefix i g k iv) new_txn (Err WouldBlock, t')
  | Some pc =>
      (∃ o l r, o ≠ (g, k) ∧ posix_held d i o l ∧ r ∈ l ∧ conflicting iv r = true ∧
         pc = mkPosixConflict (iv_start r) (reported_length r) o.2 (iv_type r) (iv_pid r)) ∧
      ∀ d', ¬ commits (set_posix prefix i g k iv) d tt d'
  end.
Proof.
  intros Hi Ho Hiv Ht Hu Ha. unfold get_posix in Ha. inv_kv.
  match goal with Hr : atomic _ (ReadHolders _ _ _ _) _ _ |- _ => apply ReadHolders_spec in Hr as (-> & _ & h & Hr) end.
  split; [done|]. match goal with Hr : holders_read _ _ _ _ ?hs _ _ |- _ => rename Hr into Hread; set (holders := hs) in * end.
  subst answer. pose proof (first_conflict_spec g k iv holders) as Hf. destruct (first_conflict g k iv holders) as [pc|].
  - destruct Hf as (y & r & Hx & Hxo & Hr & Hc & ->). destruct (hr_sound _ _ _ _ _ _ _ Hread y Hx) as (Hok & Hl & v & Hv & Hd).
    destruct (hash_at_fields _ _ _ (hr_hash _ _ _ _ _ _ _ Hread)) as [_ Hfd].
    assert ((h_generation y, h_kernel_owner y) ≠ (g, k)) as Hne by (intros E; apply is_own_iff in E; congruence).
    assert (posix_held d i (h_generation y, h_kernel_owner y) (h_ranges y)) as Hheld.
    { split_and!; [done|done|]. exists v. rewrite Hfd. split; [done|]. by eapply Decode_posix. }
    split; [by exists (h_generation y, h_kernel_owner y), (h_ranges y), r|]. intros d' Hcm.
    destruct (set_posix_effect _ _ _ _ _ _ Hi Ho Hiv Ht Hcm) as (_ & _ & _ & _ & _ & _ & _ & Hno).
    destruct Hheld as (_ & _ & v' & Hv' & Hd'). destruct (Hno _ v' Hok Hne Hl Hv') as (l2 & El2 & Hfa).
    rewrite Hd' in El2. injection El2 as <-. specialize (Hfa Hu). rewrite Forall_forall in Hfa. specialize (Hfa r Hr). congruence.
  - intros t' (hs & st & h' & y & r & Hr & Hy & Hyo & Hrr & Hc)%set_posix_blocked.
    eapply (holders_agree d) in Hy; [|exact Hr|exact Hread]. rewrite (Hf y r) in Hc; done.
Qed.

(** ** Requests whose reply may be lost

    The retry loops of [SetPosix] and [SetFlock] around a callback [p] on lock hash [K],
    with [n] transaction attempts each.  The local lease check may fail whenever it is
    made; whether an attempt saw stale records is not part of its result, so the
    collection that follows it is optional.  The list records the queues executed for
    the request. *)
Inductive LockRequest {A : Type} (n : nat) (K : bytes) (p : kv A) :
    nat → Store → result A → list (Store * list kv_write) → Store → Prop :=
  | lr_exhausted s : LockRequest n K p 0 s (Err IOError) [] s
  | lr_lease_lost m s : LockRequest n K p (S m) s (Err Unavailable) [] s
  | lr_uncertain m s cs s1 r cs' s2 :
      Transact p n s (Err OutcomeUnknown) cs s1 → LockRequest n K p m s1 r cs' s2 →
      LockRequest n K p (S m) s r (cs ++ cs') s2
  | lr_decided m s r cs s1 s2 final :
      Transact p n s r cs s1 → r ≠ Err OutcomeUnknown →
      s2 = s1 ∨ (∃ c r2 cs2, Transact (cleanup_page prefix K c) n s1 r2 cs2 s2) →
      final = r ∨ (∃ a, r = Ok a) ∧ final = Err Unavailable →
      LockRequest n K p (S m) s final cs s2.

Definition SetPosix (n : nat) (inode_ino generation kernel_owner : Z) (request : PosixRange) (s : Store)
    (r : result unit) (cs : list (Store * list kv_write)) (s' : Store) : Prop :=
  match ValidateRange request with
  | Err e => r = Err e ∧ cs = [] ∧ s' = s
  | Ok interval =>
      LockRequest n (PosixLock prefix inode_ino) (set_posix prefix inode_ino generation kernel_owner interval)
        kUncertainAttempts s r cs s'
  end.

(** A conversion that gave the old lock up is reported as blocked. *)
Definition SetFlock (n : nat) (inode_ino generation kernel_owner : Z) (type : FlockType) (s : Store)
    (r : result unit) (cs : list (Store * list kv_write)) (s' : Store) : Prop :=
  ∃ released, LockRequest n (FlockLock prefix inode_ino) (set_flock prefix inode_ino generation kernel_owner type)
      kUncertainAttempts s released cs s' ∧
    r = match released with Ok true => Err WouldBlock | Ok false => Ok tt | Err e => Err e end.

Lemma ReadHolders_watched K g fl : watched_only (ReadHolders prefix K g fl).
Proof. unfold ReadHolders. disc. Qed.
Lemma SetState_watched K f data ex : watched_only (SetState K f data ex).
Proof. unfold SetState. disc. Qed.
#[local] Hint Resolve ReadHolders_watched SetState_watched : kvdisc.
Lemma set_posix_watched i g k iv : watched_only (set_posix prefix i g k iv).
Proof. unfold set_posix. disc. Qed.
Lemma set_flock_watched i g k type : watched_only (set_flock prefix i g k type).
Proof. unfold set_flock. disc. Qed.

Lemma SetState_writes d K f data ex t u t' : atomic d (SetState K f data ex) t (Ok u, t') → has_writes t' = true.
Proof. unfold SetState. destruct (negb _); [|destruct ex]; intros; inv_kv; done. Qed.
Lemma set_posix_writes d i g k iv t u t' : atomic d (set_posix prefix i g k iv) t (Ok u, t') → has_writes t' = true.
Proof. unfold set_posix. intros Ha. inv_kv. by eapply SetState_writes. Qed.
Lemma set_flock_writes d i g k type t u t' : atomic d (set_flock prefix i g k type) t (Ok u, t') → has_writes t' = true.
Proof.
  unfold set_flock. intros Ha. apply atomic_kv_bind in Ha as (read & t1 & _ & Ha).
  destruct (flock_scan _ _ _ _ _ _) as [own []]; [case_bool_decide; [|done]|]; inv_kv; by eapply SetState_writes.
Qed.

(** What was executed for a request, and what its success means. *)
Definition executed {A : Type} (p : kv A) (c : Store * list kv_write) : Prop :=
  ∃ a t, atomic (view c.1) p new_txn (Ok a, t) ∧ c.2 = queued t.

Lemma serialized_executed {A : Type} (p : kv A) r cs s' :
  serialized p r cs s' → Forall (executed p) cs ∧ (length cs ≤ 1)%nat.
Proof.
  destruct cs as [|[sc ws] [|]]; cbn; [by split; [|lia]| |done]. intros (a & t & Ha & -> & _). split; [|lia].
  apply Forall_singleton. by exists a, t.
Qed.

Lemma LockRequest_granted {A : Type} n K (p : kv A) m s r cs s' :
  watched_only p → (∀ d a t, atomic d p new_txn (Ok a, t) → has_writes t = true) →
  LockRequest n K p m s r cs s' →
  Forall (executed p) cs ∧ (length cs ≤ m)%nat ∧
  ∀ a, r = Ok a → ∃ sc ws, last cs = Some (sc, ws) ∧ commits p (view sc) a (apply_writes incr_string ws (view sc)).1.
Proof.
  intros Hw Hwr. induction 1 as [s|m s|m s cs s1 r cs' s2 Ht _ IH|m s r cs s1 s2 final Ht Hne _ Hf].
  - by split_and!.
  - split_and!; [done|cbn; lia|done].
  - apply Transact_serialized, serialized_executed in Ht as [He Hl]; [|done]. destruct IH as (Hf & Hm & Hlast). split_and!.
    + by apply Forall_app.
    + rewrite length_app. lia.
    + intros a E. destruct (Hlast a E) as (sc & ws & El & ?). exists sc, ws. by rewrite last_app, El.
  - apply Transact_serialized in Ht; [|done]. destruct (serialized_executed _ _ _ _ Ht) as [He Hl].
    split_and!; [done|lia|]. intros a ->. destruct Hf as [<-|[_ ?]]; [|done].
    destruct cs as [|[sc ws] [|]]; cbn in Ht; [|destruct Ht as (a' & t & Ha & -> & _ & Hr)|done].
    + destruct (Ht a eq_refl) as (d & t & Ha & Hn). rewrite (Hwr _ _ _ Ha) in Hn. done.
    + destruct Hr as [[= <-]|[?|?]]; [|done..]. exists sc, (queued t). split; [done|]. by exists t.
Qed.

(** a lock request executes at most [kUncertainAttempts] queues, each of them the grant
    its callback decides on the very state it is executed in, whatever replies are lost;
    success is reported only if such a grant was executed, for [SetFlock] one that sets
    the requested mode rather than one that gives up the old lock. *)
Theorem lock_requests_granted n i g k :
  (∀ request s r cs s' iv, ValidateRange request = Ok iv → SetPosix n i g k request s r cs s' →
     Forall (executed (set_posix prefix i g k iv)) cs ∧ (length cs ≤ kUncertainAttempts)%nat ∧
     (r = Ok tt → ∃ sc ws, last cs = Some (sc, ws) ∧
        commits (set_posix prefix i g k iv) (view sc) tt (apply_writes incr_string ws (view sc)).1)) ∧
  (∀ type s r cs s', SetFlock n i g k type s r cs s' →
     Forall (executed (set_flock prefix i g k type)) cs ∧ (length cs ≤ kUncertainAttempts)%nat ∧
     (r = Ok tt → ∃ sc ws, last cs = Some (sc, ws) ∧
        commits (set_flock prefix i g k type) (view sc) false (apply_writes incr_string ws (view sc)).1)).
Proof.
  split.
  - intros request s r cs s' iv Hv. unfold SetPosix. rewrite Hv. intros Hr.
    apply LockRequest_granted in Hr as (He & Hl & Ho); [|apply set_posix_watched|intros; by eapply set_posix_writes].
    split_and!; [done|done|]. intros ->. by apply Ho.
  - intros type s r cs s' (rel & Hr & ->).
    apply LockRequest_granted in Hr as (He & Hl & Ho); [|apply set_flock_watched|intros; by eapply set_flock_writes].
    split_and!; [done|done|]. destruct rel as [[]|]; try done. intros _. by apply Ho.
Qed.
End LockViews.

(** ** A small history: one mount registers and write-locks bytes 0 to 9 of file 5 *)
Module LockSample.
Definition volume : bytes := lit "{0:v}:".
Definition request : PosixRange := mkPosixRange 0 10 kWrite 42.
Definition range : Interval := mkInterval 0 10 kWrite 42.
Definition formatted : dataset := {[ OwnerGeneration volume := RVStr (to_string 0) false ]}.
Definition allocated : dataset := (apply_writes decimal_incr [WIncrBy (OwnerGeneration volume) 1] formatted).1.
Definition registered : dataset := (CreateOwnerLease (OwnerLease volume 1) (lit "nonce") allocated).2.
Definition grant : list kv_write := [WHSet (PosixLock volume 5) (owner_field 1 7) (Encode [range])].
Definition locked : dataset := (apply_writes decimal_incr grant registered).1.

Lemma allocates : commits (H := DatasetRedis) (AllocateGeneration volume) formatted 1 allocated.
Proof. apply (commits_run _ _ 1 (mkTxn true [WIncrBy (OwnerGeneration volume) 1])). vm_compute. reflexivity. Qed.
Lemma grants : commits (H := DatasetRedis) (set_posix volume 5 1 7 range) registered tt locked.
Proof. apply (commits_run _ _ tt (mkTxn true grant)). vm_compute. reflexivity. Qed.

Lemma owner_1_7 : owner_ok (1, 7).
Proof. split; cbn; [lia|]. apply (bool_decide_eq_true_1 (in_range 64 7)). reflexivity. Qed.
Lemma request_is_ok : request_ok request.
Proof.
  split_and!; [apply (bool_decide_eq_true_1 (in_range 64 _))..|apply (bool_decide_eq_true_1 (in_range_signed 32 _))]; reflexivity.
Qed.

Lemma history :
  rtc (lock_step (H := DatasetRedis) volume) (mkLockSystem formatted ∅) (mkLockSystem locked (({[ 1 ]} ∪ ∅) ∖ {[ 1 ]})).
Proof.
  eapply rtc_l; [apply step_allocate, allocates|].
  eapply rtc_l; [apply (step_register (H := DatasetRedis) volume _ _ 1 (lit "nonce")); set_solver|].
  eapply rtc_once. eapply (step_set_posix (H := DatasetRedis) volume _ _ _ 5 1 7 request); [lia|apply owner_1_7|apply request_is_ok|reflexivity|].
  apply grants.
Qed.

Lemma start : lock_start volume (mkLockSystem formatted ∅).
Proof.
  split_and!.
  - exists 0, false. cbn [ls_data]. unfold formatted. rewrite lookup_singleton_eq. unfold INT64_MAX. split; [done|lia].
  - intros g Hg. cbn [ls_data]. unfold formatted. rewrite lookup_singleton_ne by key_neq. done.
  - intros K (i & Hi & [->| ->]); cbn [ls_data]; unfold formatted; rewrite lookup_singleton_ne by key_neq; done.
  - done.
Qed.

Lemma holds : posix_held volume locked 5 (1, 7) [range].
Proof.
  split_and!; [apply owner_1_7|exists (lit "nonce"); vm_compute; reflexivity|].
  exists (Encode [range]). split; vm_compute; reflexivity.
Qed.
End LockSample.

Lemma lock_mutual_exclusion_witness :
  posix_held LockSample.volume LockSample.locked 5 (1, 7) [LockSample.range] ∧
  ∀ l m, posix_held LockSample.volume LockSample.locked 5 (2, 7) l → ¬ held l 3 m.
Proof.
  split; [exact LockSample.holds|]. intros l m Hl Hm.
  destruct (lock_mutual_exclusion (H := DatasetRedis) LockSample.volume _ _ 5 (1, 7) (2, 7) LockSample.start LockSample.history)
    as [Hx _]; [lia|discriminate|].
  destruct (Hx [LockSample.range] l 3 (kWrite, 42) m LockSample.holds Hl) as [E _]; [|exact Hm|discriminate E].
  apply held_one. split; [|reflexivity]. split; cbn; lia.
Defined.

Lemma GetPosix_predicts_witness :
  run (H := DatasetRedis) LockSample.locked (get_posix LockSample.volume 5 1 8 LockSample.range) new_txn =
    (Ok (Some (mkPosixConflict 0 10 7 kWrite 42)), new_txn) ∧
  ∀ d', ¬ commits (H := DatasetRedis) (set_posix LockSample.volume 5 1 8 LockSample.range) LockSample.locked tt d'.
Proof.
  assert (run (H := DatasetRedis) LockSample.locked (get_posix LockSample.volume 5 1 8 LockSample.range) new_txn =
    (Ok (Some (mkPosixConflict 0 10 7 kWrite 42)), new_txn)) as E by (vm_compute; reflexivity).
  split; [exact E|].
  destruct (GetPosix_predicts (H := DatasetRedis) LockSample.volume LockSample.locked 5 1 8 LockSample.range
    (Some (mkPosixConflict 0 10 7 kWrite 42)) new_txn) as (_ & _ & Hn).
  - lia.
  - split; [split; cbn; lia|]. apply (bool_decide_eq_true_1 (in_range 64 8)). reflexivity.
  - cbn; lia.
  - unfold range_typed, in_range, INT32_MAX; cbn. lia.
  - discriminate.
  - rewrite <- E. apply (run_atomic (H := DatasetRedis)).
  - exact Hn.
Defined.

Lemma lock_requests_granted_witness :
  ∃ cs, SetPosix (H := DatasetRedis) LockSample.volume 1 5 1 7 LockSample.request LockSample.registered (Ok tt) cs LockSample.locked ∧
    (length cs ≤ kUncertainAttempts)%nat.
Proof.
  assert (SetPosix (H := DatasetRedis) LockSample.volume 1 5 1 7 LockSample.request LockSample.registered (Ok tt)
    [(LockSample.registered, LockSample.grant)] LockSample.locked) as Hs.
  { apply (lr_decided (H := DatasetRedis) _ _ _ _ _ _ (Ok tt) _ LockSample.locked); [|discriminate|by left|by left].
    apply tr_done. apply (at_commit (H := DatasetRedis) _ _ tt (mkTxn true LockSample.grant) LockSample.registered); [|done|done].
    unfold set_posix, ReadHolders.
    apply (interleaved_run (H := DatasetRedis)). vm_compute. reflexivity. }
  exists [(LockSample.registered, LockSample.grant)]. split; [exact Hs|].
  apply (proj1 (lock_requests_granted (H := DatasetRedis) LockSample.volume 1 5 1 7) LockSample.request _ _ _ _ LockSample.range eq_refl Hs).
Defined.
