(* ===== verification/MetaEngine.v ===== *)
(** * The metadata engine

    The POSIX operations of src/src/metadata/redis/RedisMetaImpl.cpp as transaction
    callbacks over [MetaTxn], and the reading operations of RedisMetaOps.cpp.  Commands
    that RedisMetaOps sends outside a transaction are functions of the dataset they are
    executed in; a retry loop takes one dataset per command.  Output pointers are results
    and null outputs are not modelled; the blocking executor and the fiber domain checks
    have no effect on the result and are left out.  [now] is the clock.  [engine_program] is
    the callback of each operation that changes a volume; each is one atomic step. *)

From S2P Require Import Prelude RedisKv Decimal StdMap ChunkGeometry InodeTypes Acl InodeOps Codec Records RedisKey ChunkMeta MetaTxn.

(** The calling process (utils/Context.hpp); the cancellation token is not modelled. *)
Record SwordFsContext := mkContext { ctx_uid : Z; ctx_gid : Z; ctx_umask : Z }.

Section MetaEngine.
Context `{FollyFormat} `{FollyIO} (prefix : bytes) (chunk_size : Z)
        (encoder : option ChunkCleanupWorkEncoder) (now : Z).

(** ** Namespace operations: the transaction callbacks *)
Definition LookupDirectory (ino : Z) : kv SwordFsInode :=
  parent ← LookupInode prefix ino;
  _ ← kv_fail_if (negb (IsDir parent)) NotDirectory;
  mret parent.

Definition dot_name (name : bytes) : bool := bool_decide (name = lit ".") || bool_decide (name = lit "..").

(** [child_ino] was allocated before the transaction. *)
Definition CreateNode (ctx : SwordFsContext) (child_ino p_ino : Z) (name : bytes) (mode rdev : Z) : kv SwordFsInode :=
  parent ← LookupDirectory p_ino;
  let '(gid, mode) := ResolveCreateInheritance (ctx_gid ctx) (attr parent) mode in
  let attr := set_rdev rdev (new_attr now child_ino mode (ctx_uid ctx) gid) in
  child ← kv_lift (ApplyPosixAclCreateInheritance parent (ctx_umask ctx) (new_inode child_ino attr p_ino []));
  _ ← AddEntry prefix now p_ino name child parent;
  mret child.

Definition Create (ctx : SwordFsContext) (child_ino p_ino : Z) (name : bytes) (mode : Z) : kv SwordFsInode :=
  _ ← kv_check (ValidateNameComponent name);
  CreateNode ctx child_ino p_ino name (Z.lor S_IFREG (Z.land mode 4095)) 0.
Definition MkNod (ctx : SwordFsContext) (child_ino p_ino : Z) (name : bytes) (mode rdev : Z) : kv SwordFsInode :=
  _ ← kv_check (ValidateNameComponent name);
  _ ← kv_check (ValidateMknodMode mode);
  CreateNode ctx child_ino p_ino name mode (NormalizeMknodRdev mode rdev).
Definition MkDir (ctx : SwordFsContext) (child_ino p_ino : Z) (name : bytes) (mode : Z) : kv SwordFsInode :=
  _ ← kv_check (ValidateNameComponent name);
  CreateNode ctx child_ino p_ino name (Z.lor S_IFDIR (Z.land mode 511)) 0.

Definition Symlink (ctx : SwordFsContext) (child_ino p_ino : Z) (name link : bytes) : kv SwordFsInode :=
  _ ← kv_check (ValidateNameComponent name);
  parent ← LookupDirectory p_ino;
  let '(gid, mode) := ResolveCreateInheritance (ctx_gid ctx) (attr parent) (Z.lor S_IFLNK 511) in
  let attr := set_size (zlen link) (new_attr now child_ino mode (ctx_uid ctx) gid) in
  let child := new_inode child_ino attr p_ino link in
  _ ← AddEntry prefix now p_ino name child parent;
  mret child.

Definition Unlink (ctx : SwordFsContext) (p_ino : Z) (name : bytes) (expected_ino : option Z) : kv unit :=
  _ ← kv_check (ValidateNameComponent name);
  _ ← kv_fail_if (dot_name name) InvalidArgument;
  parent ← LookupDirectory p_ino;
  child ← LookupEntryIn prefix parent name;
  _ ← kv_fail_if (match expected_ino with Some e => negb (ino child =? e) | None => false end) Busy;
  _ ← kv_fail_if (IsDir child) InvalidArgument;
  _ ← kv_fail_if (negb (CheckStickyDelete parent (ctx_uid ctx) child)) Permission;
  discard (UnlinkFile prefix now p_ino name parent child).

Definition RmDir (ctx : SwordFsContext) (p_ino : Z) (name : bytes) : kv unit :=
  _ ← kv_check (ValidateNameComponent name);
  _ ← kv_fail_if (dot_name name) InvalidArgument;
  parent ← LookupDirectory p_ino;
  child ← LookupEntryIn prefix parent name;
  _ ← kv_fail_if (negb (IsDir child)) NotDirectory;
  _ ← kv_fail_if (negb (CheckStickyDelete parent (ctx_uid ctx) child)) Permission;
  discard (RemoveDirectory prefix now p_ino name parent child).

(** The two parents of a rename; the second is read only when it is another inode. *)
Definition rename_lookup_parents (old_parent_ino new_parent_ino : Z) : kv rename_parents :=
  old_parent ← LookupDirectory old_parent_ino;
  if new_parent_ino =? old_parent_ino then mret (mkParents true old_parent old_parent) else
  new_parent ← LookupDirectory new_parent_ino;
  mret (mkParents false old_parent new_parent).

(** [status] after the optional lookup of the target. *)
Definition lookup_target (parent : SwordFsInode) (name : bytes) : kv (option SwordFsInode) :=
  kv_try (LookupEntryIn prefix parent name) (λ r,
    match r with
    | Ok target => mret (Some target)
    | Err NotFound => mret None
    | Err s => kv_fail s
    end).

Definition check_rename_flags (flags : Z) : Status :=
  if negb (clear_bits flags (Z.lor kNoReplace kExchange) =? 0) then InvalidArgument else
  if HasRenameFlag flags kNoReplace && HasRenameFlag flags kExchange then InvalidArgument else OK.

Definition Rename (fuel : nat) (ctx : SwordFsContext) (old_parent_ino : Z) (old_name : bytes) (new_parent_ino : Z)
    (new_name : bytes) (flags : Z) : kv unit :=
  _ ← kv_check (ValidateNameComponent old_name);
  _ ← kv_check (ValidateNameComponent new_name);
  _ ← kv_fail_if (dot_name old_name || dot_name new_name) Busy;
  _ ← kv_check (check_rename_flags flags);
  let no_replace := HasRenameFlag flags kNoReplace in
  let exchange := HasRenameFlag flags kExchange in
  p ← rename_lookup_parents old_parent_ino new_parent_ino;
  source ← LookupEntryIn prefix (old_parent p) old_name;
  _ ← kv_fail_if (negb (CheckStickyDelete (old_parent p) (ctx_uid ctx) source)) Permission;
  target ← lookup_target (new_parent p) new_name;
  _ ← kv_fail_if (no_replace && bool_decide (is_Some target)) AlreadyExists;
  match target with
  | Some target =>
      if ino target =? ino source then mret tt else
      _ ← kv_fail_if (negb (CheckStickyDelete (new_parent p) (ctx_uid ctx) target)) Permission;
      if exchange
      then discard (ExchangeEntries prefix now fuel old_parent_ino old_name new_parent_ino new_name p source target)
      else discard (MoveEntry prefix now fuel old_parent_ino old_name new_parent_ino new_name p source (Some target) (negb no_replace))
  | None =>
      _ ← kv_fail_if exchange NotFound;
      discard (MoveEntry prefix now fuel old_parent_ino old_name new_parent_ino new_name p source None (negb no_replace))
  end.

Definition Link (target_ino new_parent_ino : Z) (new_name : bytes) : kv SwordFsInode :=
  _ ← kv_check (ValidateNameComponent new_name);
  inode ← LookupInode prefix target_ino;
  _ ← kv_fail_if (IsDir inode) NotPermitted;
  parent ← LookupDirectory new_parent_ino;
  '(_, inode) ← LinkExistingEntry prefix now new_parent_ino new_name parent inode;
  mret inode.

(** ** The operations as whole transactions

    Every operation that changes a formatted volume, as the callback RedisMetaImpl and
    RedisMetaOps hand to [Transact]: its own lookups, guards and writes.  [fuel] bounds the
    ancestor walk of a rename and the pages of a mapping scan. *)
Inductive engine_call :=
  | ECreate (ctx : SwordFsContext) (child p : Z) (name : bytes) (mode : Z)
  | EMkNod (ctx : SwordFsContext) (child p : Z) (name : bytes) (mode rdev : Z)
  | EMkDir (ctx : SwordFsContext) (child p : Z) (name : bytes) (mode : Z)
  | ESymlink (ctx : SwordFsContext) (child p : Z) (name link : bytes)
  | EUnlink (ctx : SwordFsContext) (p : Z) (name : bytes) (expected : option Z)
  | ERmDir (ctx : SwordFsContext) (p : Z) (name : bytes)
  | ERename (fuel : nat) (ctx : SwordFsContext) (p : Z) (name : bytes) (q : Z) (new_name : bytes) (flags : Z)
  | ELink (i p : Z) (name : bytes)
  | ESetAttr (i : Z) (requested : SwordFsAttr) (fields : Z)
  | ESetInodeFlags (i flags : Z)
  | ESetXAttr (i : Z) (name value : bytes) (m : XAttrSetMode)
  | ERemoveXAttr (i : Z) (name : bytes)
  | ETouch (i fields : Z)
  | EAttachPrepared (i index chunk end_ : Z) (expected : FileSizePrecondition)
  | EFinalizeAttachedWrite (i index chunk end_ : Z) (expected : FileSizePrecondition)
  | ECommitSizeChange (fuel : nat) (i : Z) (plan : ChunkSizePlan) (requested : SwordFsAttr) (fields : Z) (shrink : bool)
  | EPrepareReclaim (fuel : nat) (i : Z)
  | ECompleteReclaim (i : Z)
  | ERegisterPendingDelete (work : PendingDelete)
  | ECompletePendingDelete (key : bytes).

Definition engine_program (c : engine_call) : kv unit :=
  match c with
  | ECreate ctx c p n m => discard (Create ctx c p n m)
  | EMkNod ctx c p n m r => discard (MkNod ctx c p n m r)
  | EMkDir ctx c p n m => discard (MkDir ctx c p n m)
  | ESymlink ctx c p n l => discard (Symlink ctx c p n l)
  | EUnlink ctx p n e => Unlink ctx p n e
  | ERmDir ctx p n => RmDir ctx p n
  | ERename fuel ctx p n q m f => Rename fuel ctx p n q m f
  | ELink i p n => discard (Link i p n)
  | ESetAttr i r f => discard (SetAttr prefix now i r f)
  | ESetInodeFlags i f => discard (SetInodeFlags prefix now i f)
  | ESetXAttr i n v m => txn_SetXAttr prefix now i n v m
  | ERemoveXAttr i n => txn_RemoveXAttr prefix now i n
  | ETouch i f => TouchInode prefix now i f
  | EAttachPrepared i k c e x => AttachPrepared prefix chunk_size now i k c e x
  | EFinalizeAttachedWrite i k c e x => FinalizeAttachedWrite prefix chunk_size now i k c e x
  | ECommitSizeChange fuel i p r f s => discard (CommitSizeChange prefix chunk_size encoder now fuel i p r f s)
  | EPrepareReclaim fuel i => discard (PrepareReclaim prefix encoder fuel i)
  | ECompleteReclaim i => CompleteReclaim prefix i
  | ERegisterPendingDelete w => RegisterPendingDeletes prefix [w]
  | ECompletePendingDelete k => CompletePendingDelete prefix k
  end.

#[local] Hint Resolve LookupInode_ro LookupInode_w on_not_found_ro on_not_found_w LookupEntryIn_ro LookupEntryIn_w
  check_no_cycle_ro check_no_cycle_w LookupAttachment_ro LookupAttachment_w ReadFileMappingSnapshot_ro
  ReadFileMappingSnapshot_w check_boundary_ro check_boundary_w SetInode_wo QueuePendingDelete_wo LinkEntry_wo
  DetachEntry_wo ReplaceEntry_wo store_parents_wo queue_detached_wo detach_all_wo UnlinkFile_wo
  RegisterPendingDeletes_wo write_only_watched : kvdisc.
#[local] Hint Extern 3 (reads_first (RemoveDirectory _ _ _ _ _ _)) => apply RemoveDirectory_rf : kvdisc.
#[local] Hint Extern 3 (watched_only (RemoveDirectory _ _ _ _ _ _)) => apply RemoveDirectory_rf : kvdisc.

Lemma LookupDirectory_ro i : read_only (LookupDirectory i).
Proof. unfold LookupDirectory. disc. Qed.
Lemma LookupDirectory_w i : watched_only (LookupDirectory i).
Proof. unfold LookupDirectory. disc. Qed.
#[local] Hint Resolve LookupDirectory_ro LookupDirectory_w : kvdisc.
Lemma rename_lookup_parents_ro i j : read_only (rename_lookup_parents i j).
Proof. unfold rename_lookup_parents. disc. Qed.
Lemma rename_lookup_parents_w i j : watched_only (rename_lookup_parents i j).
Proof. unfold rename_lookup_parents. disc. Qed.
Lemma lookup_target_ro p n : read_only (lookup_target p n).
Proof. unfold lookup_target. disc. Qed.
Lemma lookup_target_w p n : watched_only (lookup_target p n).
Proof. unfold lookup_target. disc. Qed.
#[local] Hint Resolve rename_lookup_parents_ro rename_lookup_parents_w lookup_target_ro lookup_target_w : kvdisc.

Ltac unfold_engine :=
  cbn [engine_program];
  unfold Create, MkNod, MkDir, CreateNode, Symlink, Unlink, RmDir, Rename, Link, SetAttr, SetInodeFlags, txn_SetXAttr,
    txn_RemoveXAttr, TouchInode, PrepareReclaim, CompleteReclaim, AddEntry, MoveEntry, ReplaceTarget, ExchangeEntries,
    check_parents, LinkExistingEntry, AttachPrepared, FinalizeAttachedWrite, CommitSizeChange, queue_cleanup, publish_size,
    discard.
Lemma engine_program_reads_first c : reads_first (engine_program c).
Proof. destruct c; unfold_engine; disc_first. Qed.
Lemma engine_program_watched c : watched_only (engine_program c).
Proof. destruct c; unfold_engine; disc. Qed.

(** ** Formatting *)
Definition root_inode : SwordFsInode :=
  new_inode kRootInodeId (new_attr now kRootInodeId (Z.lor S_IFDIR 493) 0 0) kRootInodeId [].

Fixpoint set_all (keys : list (bytes * bytes)) : kv unit :=
  match keys with
  | [] => mret tt
  | (key, value) :: rest => _ ← Set_ key value; set_all rest
  end.

Definition FormatVolume (config : SwordFsVolume) : kv unit :=
  root_value ← kv_lift (Inode_SerializeTo root_inode);
  kv_try (Get (FormatKey prefix)) (λ existing,
    match existing with
    | Ok _ => kv_fail AlreadyExists
    | Err NotFound =>
        set_all [(FormatKey prefix, Volume_SerializeTo config);
                 (InodeKey prefix kRootInodeId, root_value);
                 (NextIno prefix, to_string kRootInodeId);
                 (InodeCount prefix, lit "1");
                 (OwnerGeneration prefix, lit "0");
                 (NextChunkID prefix, lit "0");
                 (NextSliceID prefix, lit "0")]
    | Err s => kv_fail s
    end).

(** ** Commands outside a transaction *)
Definition get_key (key : bytes) (d : dataset) : result bytes :=
  match d !! key with
  | None => Err NotFound
  | Some (RVStr s _) => Ok s
  | Some _ => Err IOError
  end.

Definition LoadVolume (name : bytes) (d : dataset) : result SwordFsVolume :=
  value ← get_key (FormatKey prefix) d;
  loaded ← Volume_ParseFrom value;
  _ ← fail_if (negb (bool_decide (vol_name loaded = name))) Malformed;
  Ok loaded.

Definition GetInode (i : Z) (d : dataset) : result SwordFsInode :=
  value ← get_key (InodeKey prefix i) d;
  Inode_ParseFrom value.

(** MGET answers nil for a key that is missing or not a string. *)
Fixpoint GetInodes (inode_ids : list Z) (d : dataset) : result (list (option SwordFsInode)) :=
  match inode_ids with
  | [] => Ok []
  | i :: rest =>
      first ← match d !! InodeKey prefix i with
              | Some (RVStr value _) =>
                  inode ← Inode_ParseFrom value;
                  _ ← fail_if (negb (ino inode =? i)) Malformed;
                  Ok (Some inode)
              | _ => Ok None
              end;
      others ← GetInodes rest d;
      Ok (first :: others)
  end.

Definition Readlink (i : Z) (d : dataset) : result bytes :=
  inode ← GetInode i d;
  _ ← fail_if (negb (IsSymlink inode)) InvalidArgument;
  Ok (symlink_target inode).

Definition Open (i : Z) (d : dataset) : result (Z * Z) :=
  inode ← GetInode i d;
  _ ← fail_if (negb (IsRegular inode)) NotDirectory;
  Ok (InodeTypes.size (attr inode), inode_flags (attr inode)).

(** ** Chunk attachments without a transaction *)
Definition DecodeAttachedChunkID (encoded : option bytes) : result (option Z) :=
  match encoded with
  | None => Ok None
  | Some s => c ← ParseAttachedChunkID s; Ok (Some c)
  end.

(** [kReadChunkAttachmentsScript]: the attachments, if the inode image is still [expected]. *)
Definition ReadChunkAttachmentsIfUnchanged (inode_key refs_key expected : bytes) (index eof_index : Z) (d : dataset)
    : result (option (option bytes * option bytes)) :=
  match d !! inode_key, hash_at d refs_key with
  | Some (RVStr image _), refs =>
      if negb (bool_decide (image = expected)) then Ok None else
      match refs with
      | Some h => Ok (Some (h !! to_string index, h !! to_string eof_index))
      | None => Err IOError
      end
  | Some _, _ => Err IOError
  | None, _ => Ok None
  end.

Record FileChunkSnapshot := mkChunkSnapshot {
  fcs_inode : SwordFsInode; fcs_chunk_id : option Z; fcs_eof_boundary : option ChunkBoundarySnapshot }.

(** One GET on [d1] and one EVAL_RO on [d2]; [None] is a retry. *)
Definition snapshot_attempt (i index : Z) (d1 d2 : dataset) : result (option FileChunkSnapshot) :=
  encoded_inode ← get_key (InodeKey prefix i) d1;
  inode ← Inode_ParseFrom encoded_inode;
  _ ← fail_if (negb (ino inode =? i)) Malformed;
  _ ← fail_if (negb (IsRegular inode)) InvalidArgument;
  eof_layout ← PlanChunkSizeLayout (InodeTypes.size (attr inode)) chunk_size;
  let eof_index := match layout_boundary eof_layout with Some b => csb_index b | None => index end in
  read ← ReadChunkAttachmentsIfUnchanged (InodeKey prefix i) (ChunkRefs prefix i) encoded_inode index eof_index d2;
  match read with
  | None => Ok None
  | Some (attached_raw, eof_raw) =>
      chunk_id ← DecodeAttachedChunkID attached_raw;
      eof_boundary ← match layout_boundary eof_layout with
                     | None => Ok None
                     | Some b =>
                         boundary_id ← DecodeAttachedChunkID eof_raw;
                         Ok (Some (mkChunkBoundarySnapshot eof_index boundary_id (csb_visible_prefix b)))
                     end;
      Ok (Some (mkChunkSnapshot inode chunk_id eof_boundary))
  end.

(** The retry loop: the datasets its attempts see, in order. *)
Fixpoint ReadFileChunkSnapshot (i index : Z) (attempts : list (dataset * dataset)) : result FileChunkSnapshot :=
  match attempts with
  | [] => Err Unavailable
  | (d1, d2) :: rest =>
      found ← snapshot_attempt i index d1 d2;
      match found with
      | Some snapshot => Ok snapshot
      | None => ReadFileChunkSnapshot i index rest
      end
  end.
End MetaEngine.

(** The identity of a new inode, reserved outside the transaction that stores it. *)
Definition AllocateInode `{Redis} (prefix : bytes) (d : dataset) : result Z * dataset := Incr (NextIno prefix) d.

Section Serializable.
Context `{Redis} `{!RedisLaws} `{FollyFormat} `{FollyIO}.
Context (prefix : bytes) (chunk_size : Z) (encoder : option ChunkCleanupWorkEncoder) (now : Z).

(** C11: every operation of the metadata engine is one atomic step.  A [Transact] of the
    operation's whole callback - lookups, guards and writes - raced by arbitrary other
    clients executes at most one queue, the one the callback builds on the very state it
    is executed in, and a reply of success means it was executed; and since every
    callback reads before it writes, the read-after-write guard of the transaction object
    never fires. *)
Theorem engine_operations_serializable c n s r cs s' :
  let p := engine_program prefix chunk_size encoder now c in
  Transact p n s r cs s' →
  serialized p r cs s' ∧ ∀ d out, atomic d p new_txn out ↔ atomic_unguarded d p new_txn out.
Proof.
  intros p Ht. split.
  - eapply Transact_serialized; [apply engine_program_watched|exact Ht].
  - intros d out. apply reads_first_unguarded; [apply engine_program_reads_first|done].
Qed.
End Serializable.

(** A directory made in the root of a volume that was just formatted. *)
Module NewDirectory.
Definition volume : bytes := lit "{0:v}:".
Definition store : dataset := {[ InodeKey volume 1 := RVStr (inode_bytes (root_inode 50)) false ]}.
Definition call : engine_call := EMkDir (mkContext 0 0 18) 2 1 (lit "a") 511.
Definition outcome := run (H := DatasetRedis) store (engine_program volume 10 None 100 call) new_txn.
Definition made : dataset := (exec_all (H := DatasetRedis) (queued outcome.2) store).1.
Lemma succeeds : outcome.1 = Ok tt ∧ has_writes outcome.2 = true ∧ (exec_all (H := DatasetRedis) (queued outcome.2) store).2 = true.
Proof. vm_compute. done. Qed.
End NewDirectory.

Lemma engine_operations_serializable_witness :
  serialized (H := DatasetRedis) (engine_program NewDirectory.volume 10 None 100 NewDirectory.call) (Ok tt)
    [(NewDirectory.store, queued NewDirectory.outcome.2)] NewDirectory.made.
Proof.
  destruct NewDirectory.succeeds as (Er & Ew & Ex).
  apply (engine_operations_serializable (H := DatasetRedis) NewDirectory.volume 10 None 100 NewDirectory.call 1
    NewDirectory.store (Ok tt) [(NewDirectory.store, queued NewDirectory.outcome.2)] NewDirectory.made).
  apply tr_done. apply (at_commit (H := DatasetRedis) _ NewDirectory.store tt NewDirectory.outcome.2 NewDirectory.store).
  - apply (interleaved_run (H := DatasetRedis)). rewrite <- Er. apply surjective_pairing.
  - exact Ew.
  - rewrite <- Ex. apply surjective_pairing.
Defined.
