(* ===== verification/Namespace.v ===== *)
(** * The shape of the namespace

    What the inode and directory records of a volume add up to: a tree of directories
    under the root, whose entries name existing inodes, whose files have as many links as
    there are names for them and whose directories have two links and one per directory in
    them.  This file has no source of its own: it is the abstract
    state the operations of MetaEngine.v are shown to keep well formed, and the moves on it
    that those operations perform. *)

From S2P Require Import Prelude InodeTypes RedisKv.

(** A directory knows its parent, anything else its link count. *)
Inductive node := Dir (parent : Z) | File (links : Z).
#[export] Instance node_eq_dec : EqDecision node.
Proof. solve_decision. Defined.

Abbreviation nodes := (Z → option node).
Abbreviation links := (Z → bytes → option Z).

Definition put {A : Type} (N : Z → option A) (i : Z) (v : option A) : Z → option A := λ j, if decide (j = i) then v else N j.
Definition bind_name (L : links) (p : Z) (n : bytes) (v : option Z) : links :=
  λ q m, if decide ((q, m) = (p, n)) then v else L q m.

(** [below N a x]: [a] is on the way from [x] to the root. *)
Inductive below (N : nodes) (a : Z) : Z → Prop :=
  | below_here : below N a a
  | below_up x p : N x = Some (Dir p) → below N a p → below N a x.

(** [rooted N x]: the way from [x] ends at the root. *)
Inductive rooted (N : nodes) : Z → Prop :=
  | rooted_root : rooted N kRootInodeId
  | rooted_up x p : N x = Some (Dir p) → rooted N p → rooted N x.

Record tree (N : nodes) (L : links) : Prop := {
  tree_root : N kRootInodeId = Some (Dir kRootInodeId) ∧ ∀ p n, L p n ≠ Some kRootInodeId;
  tree_entry p n i : L p n = Some i → is_Some (N i) ∧ ∃ q, N p = Some (Dir q);
  tree_dir i p : N i = Some (Dir p) → i ≠ kRootInodeId →
    ∃ n, L p n = Some i ∧ ∀ q m, L q m = Some i → q = p ∧ m = n;
  tree_file i k : N i = Some (File k) →
    ∃ S : gset (Z * bytes), (∀ p n, (p, n) ∈ S ↔ L p n = Some i) ∧ k = Z.of_nat (base.size S);
  tree_rooted i p : N i = Some (Dir p) → rooted N i;
}.

(** ** Pointwise equal states *)
Definition same_nodes (N N' : nodes) : Prop := ∀ i, N i = N' i.
Definition same_links (L L' : links) : Prop := ∀ p n, L p n = L' p n.

Lemma rooted_ext N N' x : same_nodes N N' → rooted N x → rooted N' x.
Proof. intros E. induction 1 as [|x p Hx _ IH]; [constructor|]. apply (rooted_up _ x p); [by rewrite <- E|done]. Qed.

Lemma tree_ext N N' L L' : same_nodes N N' → same_links L L' → tree N L → tree N' L'.
Proof.
  intros EN EL [Hr He Hd Hf Ho]. split.
  - rewrite <- EN. split; [apply Hr|]. intros p n. rewrite <- EL. apply Hr.
  - intros p n i. rewrite <- EL, <- (EN i), <- (EN p). apply He.
  - intros i p. rewrite <- EN. intros Hi Hne. destruct (Hd i p Hi Hne) as (n & Hn & Hu). exists n. rewrite <- EL.
    split; [done|]. intros q m. rewrite <- EL. apply Hu.
  - intros i k. rewrite <- EN. intros Hi. destruct (Hf i k Hi) as (S & HS & ->). exists S. split; [|done].
    intros p n. rewrite <- EL. apply HS.
  - intros i p. rewrite <- EN. intros Hi. eapply rooted_ext; [exact EN|by eapply Ho].
Qed.

(** Case analysis on updates. *)
Ltac put_cases :=
  unfold put, bind_name in *;
  repeat match goal with
  | H : context [decide ?P] |- _ => destruct (decide P); simplify_eq/=
  | |- context [decide ?P] => destruct (decide P); simplify_eq/=
  end.

(** ** Ways to the root *)
Lemma below_trans N a b x : below N a b → below N b x → below N a x.
Proof. intros Hab. induction 1 as [|x p Hx _ IH]; [done|]. by apply (below_up _ _ x p). Qed.

Lemma below_fixed N a x : N x = Some (Dir x) → below N a x → x = a.
Proof. intros Hx Hb. induction Hb as [|x p Hp _ IH]; [done|]. rewrite Hx in Hp. injection Hp as <-. auto. Qed.

Section Tree.
Context (N : nodes) (L : links) (Ht : tree N L).

Lemma root_node : N kRootInodeId = Some (Dir kRootInodeId).
Proof. apply Ht. Qed.

Lemma below_root a : below N a kRootInodeId → a = kRootInodeId.
Proof. intros Hb. symmetry. eapply below_fixed; [apply root_node|done]. Qed.

(** There are no cycles. *)
Lemma no_cycle x p : rooted N x → x ≠ kRootInodeId → N x = Some (Dir p) → ¬ below N x p.
Proof.
  intros Hr. revert p. induction Hr as [|x q Hx Hq IH]; [done|]. intros p Hne Hp. rewrite Hx in Hp. injection Hp as <-.
  intros Hb. destruct (decide (q = kRootInodeId)) as [->|Hq1]; [apply below_root in Hb; congruence|].
  inversion Hb as [|? q' Hq' Hb']; subst; [apply (IH q Hne); [done|constructor]|].
  apply (IH q' Hq1); [done|]. apply (below_trans _ _ x); [|done]. apply (below_up _ _ x q); [done|constructor].
Qed.

Lemma entry_not_root p n i : L p n = Some i → i ≠ kRootInodeId.
Proof. intros Hl ->. by eapply Ht. Qed.

Lemma dir_entry i p q m : N i = Some (Dir p) → L q m = Some i → q = p.
Proof. intros Hi Hl. destruct (tree_dir _ _ Ht i p Hi (entry_not_root _ _ _ Hl)) as (n & _ & Hu). by apply (Hu q m). Qed.

Lemma dir_entry_unique i p q m q' m' : N i = Some (Dir p) → L q m = Some i → L q' m' = Some i → q = q' ∧ m = m'.
Proof.
  intros Hi Hl Hl'. destruct (tree_dir _ _ Ht i p Hi (entry_not_root _ _ _ Hl)) as (n & _ & Hu).
  destruct (Hu q m Hl) as [-> ->], (Hu q' m' Hl') as [-> ->]. done.
Qed.

Lemma parent_dir i p : N i = Some (Dir p) → ∃ q, N p = Some (Dir q).
Proof.
  intros Hi. destruct (decide (i = kRootInodeId)) as [->|Hne].
  - rewrite root_node in Hi. injection Hi as <-. eauto using root_node.
  - destruct (tree_dir _ _ Ht i p Hi Hne) as (n & Hn & _). by apply Ht in Hn as [_ ?].
Qed.

Lemma below_dir a x p : N x = Some (Dir p) → below N a x → ∃ q, N a = Some (Dir q).
Proof.
  intros Hx Hb. revert p Hx. induction Hb as [|x p Hp _ IH]; [eauto|]. intros _ _. destruct (parent_dir _ _ Hp) as [q Hq]. by apply (IH q).
Qed.

Lemma entry_elsewhere p n c r : L p n = Some c → N c = Some (Dir r) → c ≠ p.
Proof.
  intros HL Hc ->. pose proof (dir_entry _ _ _ _ Hc HL) as ->. eapply (no_cycle r r); [by eapply Ht|by eapply entry_not_root|done|constructor].
Qed.

(** A way that avoids the changed nodes is still there. *)
Lemma rooted_avoid N' x : (∀ y, below N y x → N' y = N y) → rooted N x → rooted N' x.
Proof.
  intros Hsame. induction 1 as [|x p Hx _ IH]; [constructor|]. apply (rooted_up _ x p).
  - rewrite Hsame; [done|constructor].
  - apply IH. intros y Hy. apply Hsame. by apply (below_up _ _ x p).
Qed.

(** Directories stay rooted when every changed one gets a parent whose way avoids all of
    the changed nodes. *)
Lemma rooted_after (changed : Z → Prop) N' :
  ¬ changed kRootInodeId → (∀ y, ¬ changed y → N' y = N y) →
  (∀ y, Decision (changed y)) →
  (∀ y, changed y → is_Some (N' y) → (∃ k, N' y = Some (File k)) ∨
     ∃ p q, N' y = Some (Dir p) ∧ N p = Some (Dir q) ∧ ∀ z, changed z → ¬ below N z p) →
  (∀ y p, N y = Some (Dir p) → ¬ changed y → changed p → ∃ q, N' p = Some (Dir q)) →
  ∀ i p, N' i = Some (Dir p) → rooted N' i.
Proof.
  intros Hroot Hsame Hdec Hnew Hkeep i p Hi.
  assert (∀ y q, changed y → N' y = Some (Dir q) → rooted N' y) as Hch.
  { intros y q Hy Hq. destruct (Hnew y Hy) as [[k Hk]|(p' & q' & E & Hp & Hav)]; [by rewrite Hq|congruence|].
    apply (rooted_up _ y p'); [done|]. apply rooted_avoid; [|by eapply Ht].
    intros z Hz. apply Hsame. intros Hc. by eapply Hav. }
  destruct (decide (changed i)) as [Hc|Hc]; [by eapply Hch|].
  rewrite Hsame in Hi by done. pose proof (tree_rooted _ _ Ht i p Hi) as Hr. clear -Hr Hc Hch Hsame Hkeep Hdec.
  induction Hr as [|x q Hx _ IH]; [constructor|]. apply (rooted_up _ x q); [by rewrite Hsame|].
  destruct (decide (changed q)) as [Hq|Hq]; [|by apply IH]. destruct (Hkeep x q Hx Hc Hq) as [q' Hq']. by eapply Hch.
Qed.
End Tree.

(** ** Moves *)
Section Moves.
Context (N : nodes) (L : links) (Ht : tree N L).

Definition new_node (p : Z) (v : node) : Prop := v = Dir p ∨ v = File 1.

(** A new name for a new inode. *)
Lemma tree_create p q n c v :
  N p = Some (Dir q) → N c = None → L p n = None → new_node p v →
  tree (put N c (Some v)) (bind_name L p n (Some c)).
Proof.
  intros Hp Hc Hn Hv.
  assert (∀ q m i, L q m = Some i → i ≠ c ∧ q ≠ c) as Hfresh.
  { intros q' m i Hl. destruct (tree_entry _ _ Ht _ _ _ Hl) as [[v' Hi] [q'' Hq]]. split; congruence. }
  assert (c ≠ kRootInodeId) as Hcr by (intros ->; by rewrite (root_node _ _ Ht) in Hc).
  assert (p ≠ c) as Hpc by congruence. split.
  - split; [unfold put; rewrite decide_False by done; apply Ht|]. intros q' m. unfold bind_name. case_decide; [congruence|apply Ht].
  - intros q' m i Hl. unfold bind_name in Hl. case_decide as E.
    + simplify_eq. split; [unfold put; rewrite decide_True by done; eauto|]. exists q. unfold put. by rewrite decide_False.
    + destruct (Hfresh _ _ _ Hl). unfold put. rewrite !decide_False by done. by apply Ht in Hl.
  - intros i p' Hi Hne. unfold put in Hi. case_decide as E.
    + subst i. injection Hi as ->. destruct Hv as [[= ->]|?]; [|done]. exists n. unfold bind_name. rewrite decide_True by done.
      split; [done|]. intros q' m. case_decide; [by simplify_eq|]. intros Hl. by destruct (Hfresh _ _ _ Hl).
    + destruct (tree_dir _ _ Ht i p' Hi Hne) as (m & Hm & Hu). exists m. unfold bind_name. split.
      * rewrite decide_False; [done|]. intros [= -> ->]. congruence.
      * intros q' m'. case_decide; [congruence|apply Hu].
  - intros i k Hi. unfold put in Hi. case_decide as E.
    + subst i. injection Hi as ->. destruct Hv as [?|[= ->]]; [done|]. exists {[ (p, n) ]}. rewrite size_singleton. split; [|done].
      intros q' m. rewrite elem_of_singleton. unfold bind_name. case_decide as E; [done|]. split; [done|].
      intros Hl. by destruct (Hfresh _ _ _ Hl).
    + destruct (tree_file _ _ Ht i k Hi) as (S & HS & ->). exists S. split; [|done]. intros q' m. rewrite HS. unfold bind_name.
      case_decide as E'; [|done]. injection E' as -> ->. split; congruence.
  - apply (rooted_after N L Ht (λ y, y = c)); [done|intros y Hy; unfold put; by rewrite decide_False|apply _| |].
    + intros y -> _. unfold put. rewrite decide_True by done. destruct Hv as [->| ->]; [right|left; eauto].
      exists p, q. split_and!; [done|done|]. intros z -> Hb. destruct (below_dir _ _ Ht _ _ _ Hp Hb). congruence.
    + intros y p' Hy Hyc ->. exfalso. destruct (decide (y = kRootInodeId)) as [->|Hyr].
      { rewrite (root_node _ _ Ht) in Hy. congruence. }
      destruct (tree_dir _ _ Ht y c Hy Hyr) as (m & Hm & _). by destruct (Hfresh _ _ _ Hm).
Qed.

(** Moves that leave the directories and the names of directories alone. *)
Lemma tree_files N' L' :
  (∀ i p, N' i = Some (Dir p) ↔ N i = Some (Dir p)) →
  (∀ p n i q, N i = Some (Dir q) → L' p n = Some i ↔ L p n = Some i) →
  (∀ p n i, L' p n = Some i → is_Some (N' i) ∧ ∃ q, N p = Some (Dir q)) →
  (∀ i k, N' i = Some (File k) →
    ∃ S : gset (Z * bytes), (∀ p n, (p, n) ∈ S ↔ L' p n = Some i) ∧ k = Z.of_nat (base.size S)) →
  tree N' L'.
Proof.
  intros HN HL He Hf. split.
  - split; [apply HN, Ht|]. intros p n Hl. apply (HL p n _ _ (root_node _ _ Ht)) in Hl. by apply Ht in Hl.
  - intros p n i Hl. destruct (He p n i Hl) as [? [q Hq]]. split; [done|]. exists q. by apply HN.
  - intros i p Hi Hne. apply HN in Hi. destruct (tree_dir _ _ Ht i p Hi Hne) as (n & Hn & Hu). exists n.
    rewrite (HL p n i p Hi). split; [done|]. intros q m. rewrite (HL q m i p Hi). apply Hu.
  - done.
  - intros i p Hi. apply HN in Hi. pose proof (tree_rooted _ _ Ht i p Hi) as Hr. clear -Hr HN.
    induction Hr as [|x q Hx _ IH]; [constructor|]. apply (rooted_up _ x q); [by apply HN|done].
Qed.

Lemma put_file_dirs i k v j p :
  N i = Some (File k) → (v = None ∨ ∃ k', v = Some (File k')) → put N i v j = Some (Dir p) ↔ N j = Some (Dir p).
Proof. intros Hi Hv. unfold put. case_decide as E; [subst j|done]. destruct Hv as [->|[k' ->]]; split; congruence. Qed.

(** The names of a file, as a set. *)
Lemma file_names i k : N i = Some (File k) →
  ∃ S : gset (Z * bytes), (∀ x, x ∈ S ↔ L x.1 x.2 = Some i) ∧ k = Z.of_nat (base.size S).
Proof. intros Hi. destruct (tree_file _ _ Ht i k Hi) as (S & HS & ->). exists S. split; [|done]. intros [p n]. apply HS. Qed.

(** One more name for a file. *)
Lemma tree_link p q n i k :
  N p = Some (Dir q) → N i = Some (File k) → L p n = None →
  tree (put N i (Some (File (k + 1)))) (bind_name L p n (Some i)).
Proof.
  intros Hp Hi Hn. apply tree_files.
  - intros j p'. apply (put_file_dirs i k); [done|eauto].
  - intros p' n' j q' Hj. unfold bind_name. case_decide as E; [|done]. injection E as -> ->. split; congruence.
  - intros p' n' j Hl. unfold bind_name in Hl. case_decide as E.
    + simplify_eq. split; [unfold put; rewrite decide_True by done; eauto|eauto].
    + destruct (tree_entry _ _ Ht _ _ _ Hl) as [Hj ?]. split; [unfold put; case_decide; eauto|done].
  - intros j k' Hj. unfold put in Hj. case_decide as E.
    + subst j. injection Hj as <-. destruct (file_names i k Hi) as (S & HS & ->). exists ({[ (p, n) ]} ∪ S). split.
      * intros p' n'. rewrite elem_of_union, elem_of_singleton, HS. cbn. unfold bind_name. case_decide; naive_solver.
      * rewrite size_union, size_singleton; [lia|]. intros x ->%elem_of_singleton Hx. apply HS in Hx. cbn in Hx. congruence.
    + destruct (file_names j k' Hj) as (S & HS & ->). exists S. split; [|done]. intros p' n'. rewrite HS. cbn. unfold bind_name.
      case_decide as E'; [injection E' as -> ->; split; congruence|done].
Qed.

(** One name less. *)
Lemma tree_unlink p n i k :
  L p n = Some i → N i = Some (File k) → 0 < k ∧ tree (put N i (Some (File (k - 1)))) (bind_name L p n None).
Proof.
  intros Hl Hi. destruct (file_names i k Hi) as (S & HS & ->).
  assert ((p, n) ∈ S) as HpS by (by apply HS). assert (0 < Z.of_nat (base.size S)) as Hpos.
  { destruct (decide (base.size S = 0)%nat) as [E|]; [|lia]. apply size_empty_inv in E. by apply E in HpS. }
  split; [done|]. apply tree_files.
  - intros j p'. eapply put_file_dirs; [done|eauto].
  - intros p' n' j q' Hj. unfold bind_name. case_decide as E; [|done]. injection E as -> ->. split; congruence.
  - intros p' n' j Hl'. unfold bind_name in Hl'. case_decide as E; [done|].
    destruct (tree_entry _ _ Ht _ _ _ Hl') as [Hj ?]. split; [unfold put; case_decide; eauto|done].
  - intros j k' Hj. unfold put in Hj. case_decide as E.
    + subst j. injection Hj as <-. exists (S ∖ {[ (p, n) ]}). split.
      * intros p' n'. rewrite elem_of_difference, elem_of_singleton, HS. cbn. unfold bind_name. case_decide; naive_solver.
      * rewrite size_difference, size_singleton; [lia|]. intros x ->%elem_of_singleton. done.
    + destruct (file_names j k' Hj) as (S' & HS' & ->). exists S'. split; [|done]. intros p' n'. rewrite HS'. cbn. unfold bind_name.
      case_decide as E'; [injection E' as -> ->; split; congruence|done].
Qed.

(** A file without names goes away. *)
Lemma tree_reclaim i : N i = Some (File 0) → tree (put N i None) L.
Proof.
  intros Hi. destruct (file_names i 0 Hi) as (S & HS & E). assert (S ≡ ∅) as HE by (apply size_empty_inv; lia).
  apply tree_files.
  - intros j p'. apply (put_file_dirs i 0); [done|by left].
  - done.
  - intros p n j Hl. destruct (tree_entry _ _ Ht _ _ _ Hl) as [Hj ?]. split; [|done]. unfold put. case_decide as Ej; [|done].
    subst j. exfalso. assert ((p, n) ∈ S) as Hx by (by apply HS). by apply HE in Hx.
  - intros j k Hj. unfold put in Hj. case_decide; [done|]. by apply Ht.
Qed.

(** An empty directory goes away. *)
Lemma tree_rmdir p n i q :
  L p n = Some i → N i = Some (Dir q) → (∀ m, L i m = None) → tree (put N i None) (bind_name L p n None).
Proof.
  intros Hl Hi Hempty. pose proof (entry_not_root _ _ Ht _ _ _ Hl) as Hir.
  assert (∀ q m, L q m = Some i → q = p ∧ m = n) as Huniq by (intros; by eapply (dir_entry_unique _ _ Ht)).
  assert (∀ y, N y = Some (Dir i) → False) as Hleaf.
  { intros y Hy. destruct (decide (y = kRootInodeId)) as [->|Hyr]; [rewrite (root_node _ _ Ht) in Hy; congruence|].
    destruct (tree_dir _ _ Ht y i Hy Hyr) as (m & Hm & _). by rewrite Hempty in Hm. }
  split.
  - split; [unfold put; rewrite decide_False by done; apply Ht|]. intros p' n'. unfold bind_name. case_decide; [done|apply Ht].
  - intros p' n' j Hl'. unfold bind_name in Hl'. case_decide as E; [done|]. destruct (tree_entry _ _ Ht _ _ _ Hl') as [Hj [q' Hq']].
    assert (j ≠ i) by (intros ->; apply E; by destruct (Huniq _ _ Hl') as [-> ->]).
    assert (p' ≠ i) by (intros ->; by rewrite Hempty in Hl'). unfold put. rewrite !decide_False by done. eauto.
  - intros j p' Hj Hne. unfold put in Hj. case_decide as E; [done|]. destruct (tree_dir _ _ Ht j p' Hj Hne) as (m & Hm & Hu).
    exists m. unfold bind_name. split; [rewrite decide_False; [done|]; intros [= -> ->]; congruence|].
    intros q' m'. case_decide; [done|apply Hu].
  - intros j k Hj. unfold put in Hj. case_decide as E; [done|]. destruct (file_names j k Hj) as (S & HS & ->). exists S.
    split; [|done]. intros p' n'. rewrite HS. cbn. unfold bind_name. case_decide as E'; [injection E' as -> ->; split; congruence|done].
  - apply (rooted_after N L Ht (λ y, y = i)); [congruence|intros y Hy; unfold put; by rewrite decide_False|apply _| |].
    + intros y -> [v Hv]. unfold put in Hv. by rewrite decide_True in Hv.
    + intros y p' Hy _ ->. by destruct (Hleaf y).
Qed.
End Moves.

(** ** Renaming: the contents of two names are swapped; one of them may be free *)
Definition adopt (q : Z) (v : option node) : option node :=
  match v with Some (Dir _) => Some (Dir q) | _ => v end.
Definition swap_nodes (N : nodes) (p q i : Z) (o : option Z) : nodes :=
  λ k, if decide (k = i) then adopt q (N k) else if decide (o = Some k) then adopt p (N k) else N k.
Definition swap_names (L : links) (p : Z) (n : bytes) (q : Z) (m : bytes) : links :=
  bind_name (bind_name L p n (L q m)) q m (L p n).

Lemma replace_size (S : gset (Z * bytes)) x y : x ∈ S → y ∉ S → base.size ({[ y ]} ∪ S ∖ {[ x ]}) = base.size S.
Proof.
  intros Hx Hy. rewrite size_union, size_difference, !size_singleton by set_solver.
  assert (base.size ({[ x ]} : gset (Z * bytes)) ≤ base.size S)%nat as Hs by (apply subseteq_size; set_solver).
  rewrite size_singleton in Hs. lia.
Qed.

Section Swap.
Context (N : nodes) (L : links) (Ht : tree N L).
Context (p q : Z) (n m : bytes) (i : Z) (q0 : Z).
Context (Hi : L p n = Some i) (Hne : L q m ≠ Some i) (Hq : N q = Some (Dir q0))
        (Hcyc : ∀ r, N i = Some (Dir r) → ¬ below N i q)
        (Hcyc' : ∀ j r, L q m = Some j → N j = Some (Dir r) → ¬ below N j p).

Let N' := swap_nodes N p q i (L q m).
Let L' := swap_names L p n q m.
Let changed (k : Z) : Prop := (k = i ∨ L q m = Some k) ∧ ∃ r, N k = Some (Dir r).

Lemma swap_slots a b : L' a b = if decide ((a, b) = (q, m)) then Some i else if decide ((a, b) = (p, n)) then L q m else L a b.
Proof. unfold L', swap_names, bind_name. repeat case_decide; congruence. Qed.

Lemma swap_dir k : (∃ r, N' k = Some (Dir r)) ↔ ∃ r, N k = Some (Dir r).
Proof. unfold N', swap_nodes, adopt. repeat case_decide; destruct (N k) as [[]|]; naive_solver. Qed.
Lemma swap_file k j : N' k = Some (File j) ↔ N k = Some (File j).
Proof. unfold N', swap_nodes, adopt. repeat case_decide; destruct (N k) as [[]|]; naive_solver. Qed.
Lemma swap_some k : is_Some (N' k) ↔ is_Some (N k).
Proof. unfold N', swap_nodes, adopt. repeat case_decide; destruct (N k) as [[]|]; split; intros [? ?]; eauto; done. Qed.
Lemma swap_unchanged k : k ≠ i → L q m ≠ Some k → N' k = N k.
Proof. intros. unfold N', swap_nodes. by rewrite !decide_False. Qed.

(** Who names [k] afterwards. *)
Lemma swap_named k a b :
  L' a b = Some k ↔
  (a, b) = (q, m) ∧ k = i ∨ (a, b) = (p, n) ∧ L q m = Some k ∨ (a, b) ≠ (q, m) ∧ (a, b) ≠ (p, n) ∧ L a b = Some k.
Proof. rewrite swap_slots. repeat case_decide; naive_solver congruence. Qed.

Lemma names_apart : (p, n) ≠ (q, m).
Proof. intros [= -> ->]. done. Qed.

Lemma swap_entry a b k : L' a b = Some k → is_Some (N' k) ∧ ∃ r, N' a = Some (Dir r).
Proof.
  rewrite swap_named, swap_some, swap_dir. intros [[[= -> ->] ->]|[[[= -> ->] Hk]|(_ & _ & Hk)]].
  - apply (tree_entry _ _ Ht) in Hi as [? _]. eauto.
  - apply (tree_entry _ _ Ht) in Hk as [? _]. apply (tree_entry _ _ Ht) in Hi as [_ ?]. done.
  - by apply (tree_entry _ _ Ht) in Hk.
Qed.

Lemma swap_dir_entry k r :
  N' k = Some (Dir r) → k ≠ kRootInodeId → ∃ b, L' r b = Some k ∧ ∀ a c, L' a c = Some k → a = r ∧ c = b.
Proof.
  intros Hk Hkr. destruct (proj1 (swap_dir k) (ex_intro _ r Hk)) as [r0 Hk0].
  destruct (decide (k = i)) as [->|Hki]; [|destruct (decide (L q m = Some k)) as [Hj|Hj]].
  - assert (r = q) as -> by (unfold N', swap_nodes in Hk; rewrite decide_True, Hk0 in Hk by done; cbn in Hk; congruence).
    exists m. split; [apply swap_named; by left|]. intros a c [[[= -> ->] _]|[[_ ?]|(Hn1 & Hn2 & Hl)]]%swap_named; [done|done|].
    exfalso. apply Hn2. by destruct (dir_entry_unique _ _ Ht _ _ _ _ _ _ Hk0 Hl Hi) as [-> ->].
  - assert (r = p) as -> by (unfold N', swap_nodes in Hk; rewrite decide_False, decide_True, Hk0 in Hk by done; cbn in Hk; congruence).
    exists n. split; [apply swap_named; right; by left|]. intros a c [[[= -> ->] ?]|[[[= -> ->] _]|(Hn1 & Hn2 & Hl)]]%swap_named; [done|done|].
    exfalso. apply Hn1. by destruct (dir_entry_unique _ _ Ht _ _ _ _ _ _ Hk0 Hl Hj) as [-> ->].
  - rewrite swap_unchanged in Hk by done. destruct (tree_dir _ _ Ht k r Hk Hkr) as (b & Hb & Hu). exists b. split.
    + apply swap_named. right. right. split_and!; [intros [= -> ->]; done|intros [= -> ->]; congruence|done].
    + intros a c [[_ ?]|[[_ ?]|(_ & _ & Hl)]]%swap_named; [done|done|by apply Hu].
Qed.

Lemma swap_file_names k j :
  N' k = Some (File j) →
  ∃ S : gset (Z * bytes), (∀ a b, (a, b) ∈ S ↔ L' a b = Some k) ∧ j = Z.of_nat (base.size S).
Proof.
  intros Hk%swap_file. destruct (tree_file _ _ Ht k j Hk) as (S & HS & ->). pose proof names_apart as Hap.
  destruct (decide (k = i)) as [->|Hki]; [|destruct (decide (L q m = Some k)) as [Hj|Hj]].
  - exists ({[ (q, m) ]} ∪ S ∖ {[ (p, n) ]}). split; [|rewrite replace_size; [done|by apply HS|by rewrite HS]].
    intros a b. rewrite swap_named. rewrite elem_of_union, elem_of_difference, !elem_of_singleton, HS. naive_solver.
  - exists ({[ (p, n) ]} ∪ S ∖ {[ (q, m) ]}). split; [|rewrite replace_size; [done|by apply HS|rewrite HS; congruence]].
    intros a b. rewrite swap_named. rewrite elem_of_union, elem_of_difference, !elem_of_singleton, HS. naive_solver.
  - exists S. split; [|done]. intros a b. rewrite HS, swap_named. split.
    + intros Hl. right. right. split_and!; [intros [= -> ->]; done|intros [= -> ->]; congruence|done].
    + by intros [[_ ?]|[[_ ?]|(_ & _ & ?)]].
Qed.

(** The two new parents are reached without passing a moved directory. *)
Lemma moved_avoid z : changed z → ¬ below N z q ∧ ¬ below N z p.
Proof.
  intros [Hz [r Hr]].
  assert (∀ a b, L a b = Some z → ¬ below N z a) as Hup.
  { intros a b Hl. assert (a = r) as -> by (by eapply (dir_entry _ _ Ht)).
    apply (no_cycle _ _ Ht); [by eapply Ht|by eapply (entry_not_root _ _ Ht)|done]. }
  destruct Hz as [->|Hz]; [split; [by eapply Hcyc|by eapply Hup]|split; [by eapply Hup|by eapply Hcyc']].
Qed.

Lemma swap_rooted k r : N' k = Some (Dir r) → rooted N' k.
Proof.
  apply (rooted_after N L Ht changed).
  - intros [[?|?] _]; [by eapply (entry_not_root _ _ Ht)|by eapply Ht].
  - intros y Hy. unfold N', swap_nodes. destruct (decide (y = i)) as [->|]; [|case_decide as Ej].
    + destruct (N i) as [[r'|]|] eqn:E; [|done..]. destruct Hy. split; [by left|eauto].
    + destruct (N y) as [[r'|]|] eqn:E; [|done..]. destruct Hy. split; [by right|eauto].
    + done.
  - intros y. unfold changed. destruct (N y) as [[r'|]|] eqn:E.
    + destruct (decide (y = i ∨ L q m = Some y)) as [?|Hn]; [left; eauto|right; by intros [? _]].
    + right. by intros (_ & ? & ?).
    + right. by intros (_ & ? & ?).
  - intros y [Hy [r' Hr']] _. right. destruct (tree_entry _ _ Ht _ _ _ Hi) as [_ [p0 Hp]].
    destruct (decide (y = i)) as [->|Hyi].
    + exists q, q0. split_and!; [unfold N', swap_nodes; rewrite decide_True by done; by rewrite Hr'|done|].
      intros z Hz. by apply moved_avoid.
    + destruct Hy as [?|Hy]; [done|]. exists p, p0.
      split_and!; [unfold N', swap_nodes; rewrite decide_False, decide_True by done; by rewrite Hr'|done|].
      intros z Hz. by apply moved_avoid.
  - intros y r' _ _ [_ Hr']. by apply swap_dir.
Qed.

Lemma tree_swap : tree N' L'.
Proof.
  split.
  - split.
    + rewrite swap_unchanged; [apply Ht|by apply not_eq_sym, (entry_not_root _ _ Ht p n)|apply Ht].
    + intros a b [[_ E]|[[_ E]|(_ & _ & E)]]%swap_named; [|by apply Ht in E..].
      symmetry in E. by eapply (entry_not_root _ _ Ht).
  - apply swap_entry.
  - apply swap_dir_entry.
  - apply swap_file_names.
  - apply swap_rooted.
Qed.
End Swap.

(** ** The link counts of directories *)

(** The stored counts, of directories only. *)
Abbreviation counts := (Z → option Z).
Definition parent_of (N : nodes) (c : Z) : option Z :=
  if decide (c = kRootInodeId) then None else match N c with Some (Dir p) => Some p | _ => None end.
Definition subdirs (N : nodes) (i : Z) (S : gset Z) : Prop := ∀ c, c ∈ S ↔ parent_of N c = Some i.
(** Two links, and one for each directory in it, in 64 bits. *)
Definition counted (N : nodes) (i k : Z) : Prop := ∃ S, subdirs N i S ∧ k = u64 (2 + Z.of_nat (base.size S)).
Definition counts_ok (N : nodes) (D : counts) : Prop := ∀ i p, N i = Some (Dir p) → ∃ k, D i = Some k ∧ counted N i k.

Lemma u64_add a b : u64 (u64 a + b) = u64 (a + b).
Proof. unfold wrap. by rewrite Zplus_mod_idemp_l. Qed.
Lemma counted_range N i k : counted N i k → in_range 64 k.
Proof. intros (S & _ & ->). by apply wrap_range. Qed.
Lemma counted_same N N' i k : (∀ x, parent_of N' x = parent_of N x) → counted N i k → counted N' i k.
Proof. intros E (S & HS & ->). exists S. split; [|done]. intros c. by rewrite E. Qed.

(** One directory changes its parent. *)
Definition is_parent (N : nodes) (c i : Z) : Z := Z.b2z (bool_decide (parent_of N c = Some i)).
Lemma counted_move N N' c i k :
  (∀ x, x ≠ c → parent_of N' x = parent_of N x) → counted N i k → counted N' i (u64 (k + is_parent N' c i - is_parent N c i)).
Proof.
  intros E (S & HS & ->). unfold is_parent. unfold subdirs in HS.
  exists ((if bool_decide (parent_of N' c = Some i) then {[ c ]} else ∅) ∪ S ∖ {[ c ]}). split.
  - intros x. rewrite elem_of_union, elem_of_difference, elem_of_singleton, HS. destruct (decide (x = c)) as [->|Hx].
    + case_bool_decide as Hc; [rewrite elem_of_singleton|rewrite elem_of_empty]; naive_solver.
    + rewrite (E x) by done. case_bool_decide; [rewrite elem_of_singleton|rewrite elem_of_empty]; naive_solver.
  - rewrite size_union, Nat2Z.inj_add by (case_bool_decide; set_solver).
    assert (Z.of_nat (base.size (S ∖ {[ c ]})) = Z.of_nat (base.size S) - Z.b2z (bool_decide (parent_of N c = Some i))) as ->.
    { case_bool_decide as Hc.
      - apply HS in Hc. assert ({[ c ]} ⊆ S) as Hs by set_solver. rewrite (size_difference S {[ c ]}) by done. apply subseteq_size in Hs.
        rewrite size_singleton in *. cbn. lia.
      - assert (c ∉ S) by (by rewrite HS). replace (S ∖ {[ c ]}) with S by set_solver. cbn. lia. }
    rewrite <- Z.add_sub_assoc, u64_add. f_equal. case_bool_decide; rewrite ?size_singleton, ?size_empty; cbn; lia.
Qed.
Lemma counted_unmoved N N' c i k :
  (∀ x, x ≠ c → parent_of N' x = parent_of N x) → parent_of N c ≠ Some i → parent_of N' c ≠ Some i → counted N i k → counted N' i k.
Proof.
  intros E H1 H2 Hk. pose proof (counted_move _ _ _ _ _ E Hk) as Hm. unfold is_parent in Hm. rewrite !bool_decide_eq_false_2 in Hm by done. cbn in Hm.
  rewrite Z.add_0_r, Z.sub_0_r, wrap_id in Hm; [done|done|]. by eapply counted_range.
Qed.

(** Moves that leave every directory where it is. *)
Lemma counts_same N N' D :
  (∀ x, parent_of N' x = parent_of N x) → (∀ i p, N' i = Some (Dir p) → ∃ q, N i = Some (Dir q)) → counts_ok N D → counts_ok N' D.
Proof.
  intros E Hd HD i p Hi. destruct (Hd i p Hi) as [q Hq]. destruct (HD i q Hq) as (k & ? & Hk). exists k. split; [done|]. by apply (counted_same N).
Qed.
Lemma parent_put_other N i v x : x ≠ i → parent_of (put N i v) x = parent_of N x.
Proof. intros Hx. unfold parent_of, put. by rewrite (decide_False (P := x = i)). Qed.
Lemma counts_put_file N D i k v :
  N i = Some (File k) → (v = None ∨ ∃ k', v = Some (File k')) → counts_ok N D → counts_ok (put N i v) D.
Proof.
  intros Hi Hv. apply counts_same.
  - intros x. unfold parent_of, put. case_decide; [done|]. case_decide as E; [subst; rewrite Hi; by destruct Hv as [->|[? ->]]|done].
  - intros j p. unfold put. case_decide; [destruct Hv as [->|[? ->]]; congruence|eauto].
Qed.
Section Counts.
Context (N : nodes) (L : links) (Ht : tree N L).

Lemma parent_child p n c r : L p n = Some c → N c = Some (Dir r) → parent_of N c = Some p.
Proof.
  intros HL Hc. unfold parent_of. rewrite decide_False by (by eapply (entry_not_root _ _ Ht)). rewrite Hc. f_equal. symmetry. by eapply (dir_entry _ _ Ht).
Qed.
Lemma counted_leaf c : (∀ x, N x ≠ Some (Dir c)) → counted N c 2.
Proof.
  intros Hc. exists ∅. split; [|by rewrite size_empty]. intros x. rewrite elem_of_empty. split; [done|]. unfold parent_of. case_decide; [done|].
  destruct (N x) as [[p|k]|] eqn:E; [|done..]. intros [= ->]. by apply (Hc x).
Qed.
Lemma absent_leaf c x : N c = None → N x ≠ Some (Dir c).
Proof. intros Hc Hx. destruct (parent_dir _ _ Ht x c Hx). congruence. Qed.

(** A new directory or file [c] in [p], and the parent's new count. *)
Lemma counts_create D p q c v δ k :
  counts_ok N D → N p = Some (Dir q) → D p = Some k → N c = None → c ≠ kRootInodeId → new_node p v → δ = match v with Dir _ => 1 | File _ => 0 end →
  counts_ok (put N c (Some v)) (put (put D c (match v with Dir _ => Some 2 | File _ => None end)) p (Some (u64 (k + δ)))).
Proof.
  intros HD Hp Hk Hc Hcr Hv -> i r Hi. assert (∀ x, x ≠ c → parent_of (put N c (Some v)) x = parent_of N x) as Ep by (intros; by apply parent_put_other).
  assert (parent_of N c = None) as Epc by (unfold parent_of; rewrite Hc; by case_decide).
  assert (parent_of (put N c (Some v)) c = match v with Dir _ => Some p | File _ => None end) as Epc'.
  { unfold parent_of, put. rewrite decide_False, decide_True by done. destruct Hv as [->| ->]; done. }
  assert (∀ j k', counted N j k' → counted (put N c (Some v)) j (u64 (k' + (if decide (j = p) then match v with Dir _ => 1 | File _ => 0 end else 0)))) as Hmv.
  { intros j k' Hj. pose proof (counted_move _ _ _ _ _ Ep Hj) as Hm. unfold is_parent in Hm. rewrite Epc, Epc' in Hm.
    rewrite (bool_decide_eq_false_2 (None = _)) in Hm by done. cbn [Z.b2z] in Hm. rewrite Z.sub_0_r in Hm. destruct v as [p'|n]; destruct (decide (j = p)) as [->|];
      [rewrite bool_decide_eq_true_2 in Hm by done|rewrite bool_decide_eq_false_2 in Hm by congruence|rewrite bool_decide_eq_false_2 in Hm by done..]; exact Hm. }
  destruct (decide (i = p)) as [->|Hip].
  - destruct (HD p q Hp) as (k' & Hk' & Hcnt). rewrite Hk in Hk'. injection Hk' as <-. eexists. split; [unfold put; by rewrite decide_True|].
    specialize (Hmv p k Hcnt). by rewrite decide_True in Hmv.
  - unfold put in Hi |- *. rewrite (decide_False (P := i = p)) by done. case_decide as Eic.
    + subst i. injection Hi as ->. exists 2. split; [done|]. specialize (Hmv c 2 (counted_leaf c (λ x, absent_leaf c x Hc))). by rewrite decide_False in Hmv.
    + destruct (HD i r Hi) as (k' & -> & Hcnt). exists k'. split; [done|]. pose proof (Hmv i k' Hcnt) as Hm. rewrite decide_False, Z.add_0_r, wrap_id in Hm;
        [done|done|by eapply counted_range|done].
Qed.
(** An empty directory [c] leaves [p]. *)
Lemma counts_rmdir D p n c q k :
  counts_ok N D → L p n = Some c → N c = Some (Dir q) → D p = Some k → c ≠ p →
  counts_ok (put N c None) (put (put D c None) p (Some (u64 (k + -1)))).
Proof.
  intros HD HL Hc Hk Hne i r Hi. assert (∀ x, x ≠ c → parent_of (put N c None) x = parent_of N x) as Ep by (intros; by apply parent_put_other).
  pose proof (parent_child _ _ _ _ HL Hc) as Epc. assert (parent_of (put N c None) c = None) as Epc'.
  { unfold parent_of, put. case_decide; [done|]. by rewrite decide_True. }
  assert (i ≠ c) as Hic by (intros ->; unfold put in Hi; by rewrite decide_True in Hi). unfold put in Hi. rewrite decide_False in Hi by done.
  destruct (HD i r Hi) as (k' & Hk' & Hcnt). unfold put. rewrite (decide_False (P := i = c)) by done. case_decide as Eip.
  - subst i. rewrite Hk in Hk'. injection Hk' as <-. eexists. split; [done|]. pose proof (counted_move _ _ _ _ _ Ep Hcnt) as Hm. unfold is_parent in Hm.
    rewrite Epc, Epc', bool_decide_eq_false_2, bool_decide_eq_true_2 in Hm by done. cbn in Hm. by rewrite Z.add_0_r in Hm.
  - exists k'. split; [done|]. apply (counted_unmoved N (put N c None) c); [exact Ep|congruence|by rewrite Epc'|done].
Qed.
End Counts.

(** Nothing wraps: a directory has exactly two links and one per directory in it. *)
Definition links_exact (N : nodes) (D : counts) : Prop :=
  ∀ i p, N i = Some (Dir p) → ∃ S : gset Z, subdirs N i S ∧ D i = Some (2 + Z.of_nat (base.size S)).
Lemma bounded_size (S : gset Z) n : 0 ≤ n → (∀ c, c ∈ S → 0 ≤ c < n) → Z.of_nat (base.size S) ≤ n.
Proof.
  intros Hn HS. assert (S ⊆ list_to_set (seqZ 0 n)) as Hs by (intros c Hc; apply elem_of_list_to_set, elem_of_seqZ; apply HS in Hc; lia).
  apply subseteq_size in Hs. rewrite size_list_to_set, length_seqZ in Hs by apply NoDup_seqZ. lia.
Qed.
Lemma counts_exact N D n : 0 ≤ n < 2 ^ 63 → (∀ i, is_Some (N i) → 0 ≤ i ≤ n) → counts_ok N D → links_exact N D.
Proof.
  intros Hn HN HD i p Hi. destruct (HD i p Hi) as (k & Hk & S & HS & ->). exists S. split; [done|]. rewrite Hk. f_equal. apply wrap_id; [done|].
  assert (Z.of_nat (base.size S) ≤ n + 1) as Hle.
  { apply bounded_size; [lia|]. intros c Hc%HS. unfold parent_of in Hc. case_decide; [done|]. destruct (N c) as [[]|] eqn:E; try done.
    specialize (HN c ltac:(by rewrite E)). lia. }
  unfold in_range. lia.
Qed.
Lemma links_exact_ext N N' D D' : same_nodes N N' → (∀ i, D i = D' i) → links_exact N D → links_exact N' D'.
Proof.
  intros EN ED H i p Hi. rewrite <- EN in Hi. destruct (H i p Hi) as (S & HS & Hk). exists S. rewrite <- ED. split; [|done].
  intros c. rewrite (HS c). unfold parent_of. by rewrite EN.
Qed.
