(* ===== verification/NamespaceEffects.v ===== *)
(** * The namespace operations keep the tree

    The inode and directory records of a dataset read as a tree ([nodes_at], [links_at]),
    the effect of every queued command on it, and the operations of MetaEngine.v as the
    moves of Namespace.v.  The last part composes them: whatever mounts do, in whatever
    order their transactions commit, the volume stays a tree with exact link counts. *)

From S2P Require Import Prelude RedisKv Decimal StdMap ChunkGeometry InodeTypes Acl InodeOps Codec Records RedisKey ChunkMeta MetaTxn MetaEffects MetaEngine Namespace.

Definition node_of (x : SwordFsInode) : node := if IsDir x then Dir (parent_ino x) else File (nlink (attr x)).
(** The link count of a directory. *)
Definition dir_links (x : SwordFsInode) : option Z := if IsDir x then Some (nlink (attr x)) else None.

(** ** What keeps an inode's node and record *)
Lemma nlink_Touch now f x : nlink (attr (Touch now f x)) = nlink (attr x).
Proof. unfold Touch, touch_attr. cbn. by repeat case_match. Qed.
Lemma IsDir_Touch now f x : IsDir (Touch now f x) = IsDir x.
Proof. unfold IsDir. by rewrite mode_Touch. Qed.
Lemma node_Touch now f x : node_of (Touch now f x) = node_of x.
Proof. unfold node_of. by rewrite IsDir_Touch, nlink_Touch. Qed.
Lemma dir_links_Touch now f x : dir_links (Touch now f x) = dir_links x.
Proof. unfold dir_links. by rewrite IsDir_Touch, nlink_Touch. Qed.
Lemma ino_Touch now f x : ino (Touch now f x) = ino x.
Proof. done. Qed.
Lemma node_nlink_dir v x : IsDir x = true → node_of (set_attr (set_nlink v (attr x)) x) = node_of x.
Proof. unfold node_of, IsDir. cbn. intros ->. done. Qed.

Lemma node_dir x : IsDir x = true → node_of x = Dir (parent_ino x).
Proof. unfold node_of. by intros ->. Qed.
Lemma node_file x : IsDir x = false → node_of x = File (nlink (attr x)).
Proof. unfold node_of. by intros ->. Qed.

Lemma record_ok_nlink v x : in_range 64 v → inode_record_ok x → inode_record_ok (set_attr (set_nlink v (attr x)) x).
Proof. intros Hv Hx. apply record_ok_attr; [|done|done]. apply attr_ok_nlink; [done|]. by destruct Hx as [_ [? _] _ _ _ _ _]. Qed.
Lemma record_ok_parent p x : in_range 64 p → inode_record_ok x → inode_record_ok (set_parent_ino p x).
Proof. intros Hp [? ? ? ? ? ? ?]. by constructor. Qed.
Lemma record_nlink x : inode_record_ok x → in_range 64 (nlink (attr x)).
Proof. intros [_ [[Hu _ _ _ _] _] _ _ _ _ _]. by split_forall. Qed.
Lemma record_ino x : inode_record_ok x → 0 < ino x < 2 ^ 64.
Proof. intros [[Hr Hn] _ _ _ _ _ _]. unfold in_range in Hr. lia. Qed.

(** An inode rewritten in place. *)
Record same_parent_as (x y : SwordFsInode) : Prop := {
  sp_ino : ino y = ino x;
  sp_node : node_of y = node_of x;
  sp_dir : IsDir y = IsDir x;
  sp_nlink : nlink (attr y) = nlink (attr x);
  sp_ok : inode_record_ok x → inode_record_ok y;
}.
Lemma sp_links x y : same_parent_as x y → dir_links y = dir_links x.
Proof. intros [_ _ Hd Hn _]. unfold dir_links. by rewrite Hd, Hn. Qed.
(** A parent after entries were added or removed, [δ] of them directories. *)
Record parent_after (δ : Z) (x y : SwordFsInode) : Prop := {
  pf_ino : ino y = ino x;
  pf_node : node_of y = node_of x;
  pf_dir : IsDir y = IsDir x;
  pf_ok : inode_record_ok x → inode_record_ok y;
  pf_nlink : inode_record_ok x → nlink (attr y) = u64 (nlink (attr x) + δ);
}.
Lemma same_parent_refl x : same_parent_as x x.
Proof. by split. Qed.
Lemma same_parent_trans x y z : same_parent_as x y → same_parent_as y z → same_parent_as x z.
Proof. intros [] []. split; [congruence..|auto]. Qed.

Lemma parent_touched now (b : bool) δ x :
  in_range_signed 64 now → IsDir x = true → parent_after (if b then δ else 0) x (touch_parent now (when b (bump_nlink δ) x)).
Proof.
  intros Hn Hd. unfold touch_parent, when. destruct b; split; rewrite ?node_Touch, ?IsDir_Touch, ?nlink_Touch; try done.
  - by apply node_nlink_dir.
  - intros Hx. apply record_ok_Touch; [done|]. apply record_ok_nlink; [by apply wrap_range|done].
  - intros Hx. by apply record_ok_Touch.
  - intros Hx. rewrite Z.add_0_r, wrap_id; [done|done|by apply record_nlink].
Qed.

(** ** New inodes *)
Lemma lor_range w a b : 0 ≤ w → in_range w a → in_range w b → in_range w (Z.lor a b).
Proof.
  unfold in_range. intros Hw Ha Hb. split; [apply Z.lor_nonneg; lia|].
  destruct (decide (Z.lor a b = 0)) as [->|Hne]; [lia|].
  assert (0 < Z.lor a b) by (pose proof (proj2 (Z.lor_nonneg a b) (conj (proj1 Ha) (proj1 Hb))); lia).
  apply Z.log2_lt_pow2; [done|]. rewrite Z.log2_lor by lia.
  assert (∀ z, 0 ≤ z < 2 ^ w → Z.log2 z < w ∨ z = 0) as Hl.
  { intros z Hz. destruct (decide (z = 0)); [by right|left]. apply Z.log2_lt_pow2; lia. }
  assert (0 < w) by (destruct (decide (w = 0)) as [->|]; [|lia]; assert (a = 0) as -> by lia; assert (b = 0) as -> by lia; done).
  destruct (Hl a Ha) as [?| ->], (Hl b Hb) as [?| ->]; change (Z.log2 0) with 0; lia.
Qed.
Lemma ldiff_range w a b : 0 ≤ w → in_range w a → in_range w (Z.ldiff a b).
Proof.
  unfold in_range. intros Hw Ha. assert (0 ≤ Z.ldiff a b) as Hn by (apply Z.ldiff_nonneg; lia). split; [done|].
  destruct (decide (Z.ldiff a b = 0)) as [->|Hne]; [lia|]. apply Z.log2_lt_pow2; [lia|].
  assert (Z.log2 (Z.ldiff a b) ≤ Z.log2 a)
    by (rewrite <- (Z.lor_ldiff_and a b) at 2; rewrite Z.log2_lor; [lia|done|apply Z.land_nonneg; lia]). assert (a ≠ 0) by (intros ->; by rewrite Z.ldiff_0_l in Hne).
  assert (Z.log2 a < w) by (apply Z.log2_lt_pow2; lia). lia.
Qed.
Lemma perms_range p : Z.land p 511 = p → in_range 32 p.
Proof.
  intros <-. unfold in_range. change 511 with (Z.ones 9). rewrite Z.land_ones by lia.
  pose proof (Z.mod_pos_bound p (2 ^ 9) ltac:(lia)). lia.
Qed.
Lemma with_permissions_range m p : in_range 32 m → Z.land p 511 = p → in_range 32 (with_permissions m p).
Proof. intros Hm Hp. apply lor_range; [done|by apply ldiff_range|by apply perms_range]. Qed.

Lemma new_attr_ok now c m u g :
  in_range_signed 64 now → in_range 64 c → in_range 32 m → in_range 64 u → in_range 64 g → attr_ok (new_attr now c m u g).
Proof.
  intros Hn Hc Hm Hu Hg. constructor; cbn; split_forall; try done;
    destruct (S_ISDIR m); unfold in_range, nsec_ok; try lia; done.
Qed.
Lemma attr_ok_mode v a : in_range 32 v → attr_ok a → attr_ok (set_mode v a).
Proof. intros Hv [U M T N F]. by constructor. Qed.
Lemma attr_ok_rdev v a : in_range 64 v → attr_ok a → attr_ok (set_rdev v a).
Proof. intros Hv [U M T N F]. constructor; cbn; split_forall; done. Qed.

Lemma new_inode_ok c a p target :
  in_range 64 c → c ≠ 0 → attr_ok a → attr_ino a = c → in_range 64 p → string_ok target → inode_record_ok (new_inode c a p target).
Proof. intros. constructor; cbn; try done. constructor. Qed.

Lemma same_parent_permissions pm x :
  Z.land pm 511 = pm → same_parent_as x (set_attr (set_mode (with_permissions (mode (attr x)) pm) (attr x)) x).
Proof.
  intros Hpm. assert (IsDir (set_attr (set_mode (with_permissions (mode (attr x)) pm) (attr x)) x) = IsDir x) as Hd
    by (unfold IsDir; cbn; by rewrite IsDir_with_permissions).
  split; [done|unfold node_of; by rewrite Hd|done|done|]. intros [Hi [Ha Hai] Hpa Ht Hc Hs Hx].
  constructor; cbn; try done. split; [|done]. apply attr_ok_mode; [apply with_permissions_range; [apply Ha|done]|done].
Qed.
Lemma zlen_map_assign_le (k v : bytes) m : zlen (map_assign k v m) ≤ zlen m + 1.
Proof. induction m as [|[k1 v1] m IH]; cbn; [done|]. repeat case_match; rewrite ?zlen_cons; lia. Qed.
Lemma same_parent_assign k v x :
  k ≠ [] → string_ok k → string_ok v → zlen (xattrs x) ≤ 1 → same_parent_as x (set_xattrs (map_assign k v (xattrs x)) x).
Proof.
  intros Hk Hks Hvs Hl. split; [done|done|done|done|]. intros [Hi Ha Hpa Ht Hc Hs Hx]. constructor; cbn; try done.
  - pose proof (zlen_map_assign_le k v (xattrs x)). pose proof (zlen_nonneg (map_assign k v (xattrs x))). unfold in_range in *. lia.
  - by apply map_assign_sorted.
  - by apply map_assign_Forall.
Qed.

(** Create-time inheritance makes a storable inode of the same kind. *)
Lemma inherit_record parent umask child child' :
  inode_record_ok parent → xattrs child = [] → ApplyPosixAclCreateInheritance parent umask child = Ok child' →
  same_parent_as child child'.
Proof.
  intros Hp Hx E. unfold ApplyPosixAclCreateInheritance in E. destruct (IsSymlink child); [injection E as <-; apply same_parent_refl|].
  destruct (map_find kPosixAclDefaultXAttr (xattrs parent)) as [v|] eqn:Hd.
  2: { injection E as <-. apply same_parent_permissions, ldiff_perms_sub. }
  unfold ParseStoredAcl in E. destruct (Parse v) as [acl|] eqn:Hpv; [|done]. cbn [mbind result_bind] in E. injection E as <-.
  pose proof Hpv as (Hser & Hv & Hf)%Parse_iff. destruct (RestrictToMode_spec (mode (attr child)) acl Hv Hf) as (Hv' & _ & _ & _).
  destruct (map_find_Forall _ _ _ _ (ir_xattrs _ Hp) Hd) as (? & _ & _ & Hsv). cbn in Hsv.
  assert (string_ok (Serialize (RestrictToMode (mode (attr child)) acl))) as Hsr.
  { unfold string_ok in *. rewrite Hser, zlen_Serialize in Hsv. by rewrite zlen_Serialize, zlen_RestrictToMode. }
  pose proof (same_parent_permissions _ child (PermissionsMode_bits _ Hv')) as Hsame.
  set (child1 := set_attr _ child) in *. assert (xattrs child1 = []) as Hx1 by done. clearbody child1.
  assert (∀ y, same_parent_as child y → zlen (xattrs y) ≤ 1 → same_parent_as child
    (if IsDir y then set_xattrs (map_assign kPosixAclDefaultXAttr v (xattrs y)) y else y)) as Hdef.
  { intros y Hy Hl. destruct (IsDir y); [|done]. eapply same_parent_trans; [exact Hy|]. by apply same_parent_assign. }
  destruct (IsMinimal _); apply Hdef; [done|by rewrite Hx1| |cbn [xattrs set_xattrs]; by rewrite Hx].
  eapply same_parent_trans; [exact Hsame|]. rewrite Hx, <- Hx1. apply same_parent_assign; [done..|by rewrite Hx1].
Qed.

Lemma Entry_ParseFrom_err `{FollyIO} s e : Entry_ParseFrom s = Err e → e = Malformed.
Proof. unfold Entry_ParseFrom, fail_if. repeat (case_match; cbn [mbind result_bind]); congruence. Qed.

Section Views.
Context `{Redis} `{!RedisLaws} `{FollyFormat} `{!FollyFormatLaws} `{FollyIO} `{!FollyIOLaws}.
Context (prefix : bytes) (now : Z) (Hnow : in_range_signed 64 now).
(** The stored inode counter, which transactions leave alone. *)
Context (counter : option rvalue).

(** ** The tree of a dataset *)
Definition nodes_at (d : dataset) : nodes := λ i, if decide (0 ≤ i) then node_of <$> inode_at prefix d i else None.
Definition dirs_at (d : dataset) : counts := λ i, if decide (0 ≤ i) then inode_at prefix d i ≫= dir_links else None.
Definition links_at (d : dataset) : links := λ p n, if decide (0 ≤ p) then entry_ino <$> entry_at prefix d p n else None.

Record shows (d : dataset) (N : nodes) (D : counts) (L : links) : Prop := {
  sh_own : own_keys prefix d;
  sh_typed p : 0 ≤ p → is_hash (d !! Directory prefix p);
  sh_nodes : same_nodes (nodes_at d) N;
  sh_dirs i : dirs_at d i = D i;
  sh_links : same_links (links_at d) L;
  sh_counter : d !! NextIno prefix = counter;
}.

Lemma shows_ext d N N' D D' L L' : same_nodes N N' → (∀ i, D i = D' i) → same_links L L' → shows d N D L → shows d N' D' L'.
Proof.
  intros EN ED EL [? ? HN HD HL ?]. split; [done|done|intros i; by rewrite HN|intros i; by rewrite HD|intros p n; by rewrite HL|done].
Qed.

(** ** Single commands *)
Definition inode_key (K : bytes) : Prop := ∃ i, 0 ≤ i ∧ K = InodeKey prefix i.
Definition directory_key (K : bytes) : Prop := ∃ i, 0 ≤ i ∧ K = Directory prefix i.

Definition tree_key (K : bytes) : Prop := inode_key K ∨ directory_key K ∨ K = NextIno prefix.

Lemma shows_frame d d' N D L : (∀ K, tree_key K → d' !! K = d !! K) → shows d N D L → shows d' N D L.
Proof.
  intros Hf [Ho Ht HN HD0 HL Hc].
  assert (∀ i, 0 ≤ i → inode_at prefix d' i = inode_at prefix d i) as HI
    by (intros i Hi; unfold inode_at; rewrite Hf by (left; by exists i); done).
  assert (∀ p, 0 ≤ p → d' !! Directory prefix p = d !! Directory prefix p) as HD by (intros p Hp; apply Hf; right; left; by exists p).
  split.
  - intros i x Hi. rewrite HI by done. by apply Ho.
  - intros p Hp. rewrite HD by done. by apply Ht.
  - intros i. rewrite <- HN. unfold nodes_at. case_decide; [|done]. by rewrite HI.
  - intros i. rewrite <- HD0. unfold dirs_at. case_decide; [|done]. by rewrite HI.
  - intros p n. rewrite <- HL. unfold links_at, entry_at. case_decide; [|done]. by rewrite HD.
  - rewrite Hf; [done|]. right. by right.
Qed.

Lemma shows_other d N D L w : ¬ tree_key (write_key w) → shows d N D L → shows (apply_write incr_string w d).1 N D L.
Proof.
  intros Hw. apply shows_frame. intros K HK. rewrite lookup_apply_write, decide_False; [done|]. by intros <-.
Qed.

Lemma shows_set_inode d N D L x :
  inode_record_ok x → shows d N D L →
  shows (apply_write incr_string (WSet (InodeKey prefix (ino x)) (inode_bytes x)) d).1 (put N (ino x) (Some (node_of x))) (put D (ino x) (dir_links x)) L.
Proof.
  intros Hx [Ho Ht HN HD0 HL Hc]. pose proof (record_ino x Hx) as Hi. cbn [apply_write fst].
  assert (∀ p, 0 ≤ p → (<[InodeKey prefix (ino x):=RVStr (inode_bytes x) false]> d) !! Directory prefix p = d !! Directory prefix p) as HD
    by (intros p Hp; apply lookup_insert_ne; key_neq).
  assert (∀ i, 0 ≤ i → inode_at prefix (<[InodeKey prefix (ino x):=RVStr (inode_bytes x) false]> d) i =
    if decide (i = ino x) then Some x else inode_at prefix d i) as HI.
  { intros i Hi'. unfold inode_at. case_decide as E.
    - subst i. rewrite lookup_insert_eq. by apply inode_of_bytes.
    - rewrite lookup_insert_ne by key_neq. done. }
  split.
  - intros i y Hi' E. rewrite HI in E by done. case_decide; [congruence|by apply Ho].
  - intros p Hp. rewrite HD by done. by apply Ht.
  - intros i. unfold nodes_at, put. case_decide as Hi'; [rewrite HI by done|].
    + case_decide; [done|]. rewrite <- HN. unfold nodes_at. by rewrite decide_True.
    + rewrite decide_False by lia. rewrite <- HN. unfold nodes_at. by rewrite decide_False.
  - intros i0. unfold dirs_at, put. case_decide as Hi0; [rewrite HI by done|].
    + case_decide; [done|]. rewrite <- HD0. unfold dirs_at. by rewrite decide_True.
    + rewrite decide_False by lia. rewrite <- HD0. unfold dirs_at. by rewrite decide_False.
  - intros p n. rewrite <- HL. unfold links_at, entry_at. case_decide; [|done]. by rewrite HD.
  - rewrite lookup_insert_ne by key_neq. done.
Qed.

Lemma shows_del_inode d N D L i :
  0 ≤ i → shows d N D L → shows (apply_write incr_string (WDel (InodeKey prefix i)) d).1 (put N i None) (put D i None) L.
Proof.
  intros Hi [Ho Ht HN HD0 HL Hc]. cbn [apply_write fst].
  assert (∀ p, 0 ≤ p → (delete (InodeKey prefix i) d) !! Directory prefix p = d !! Directory prefix p) as HD
    by (intros p Hp; apply lookup_delete_ne; key_neq).
  assert (∀ j, 0 ≤ j → inode_at prefix (delete (InodeKey prefix i) d) j = if decide (j = i) then None else inode_at prefix d j) as HI.
  { intros j Hj. unfold inode_at. case_decide as E.
    - subst j. by rewrite lookup_delete_eq.
    - rewrite lookup_delete_ne by key_neq. done. }
  split.
  - intros j y Hj E. rewrite HI in E by done. case_decide; [done|by apply Ho].
  - intros p Hp. rewrite HD by done. by apply Ht.
  - intros j. unfold nodes_at, put. case_decide as Hj; [rewrite HI by done|].
    + case_decide; [done|]. rewrite <- HN. unfold nodes_at. by rewrite decide_True.
    + rewrite decide_False by lia. rewrite <- HN. unfold nodes_at. by rewrite decide_False.
  - intros i0. unfold dirs_at, put. case_decide as Hi0; [rewrite HI by done|].
    + case_decide; [done|]. rewrite <- HD0. unfold dirs_at. by rewrite decide_True.
    + rewrite decide_False by lia. rewrite <- HD0. unfold dirs_at. by rewrite decide_False.
  - intros p n. rewrite <- HL. unfold links_at, entry_at. case_decide; [|done]. by rewrite HD.
  - rewrite lookup_delete_ne by key_neq. done.
Qed.

(** A command on one directory hash. *)
Lemma shows_directory d N D L w p n o :
  0 ≤ p → write_key w = Directory prefix p →
  (∀ v, is_hash v → is_hash (write_value incr_string w v) ∧
     ∀ m, field_of (write_value incr_string w v) m = if decide (m = n) then o else field_of v m) →
  shows d N D L →
  shows (apply_write incr_string w d).1 N D
    (bind_name L p n (match o with
                      | Some s => match Entry_ParseFrom s with Ok e => Some (entry_ino e) | Err _ => None end
                      | None => None
                      end)).
Proof.
  intros Hp Hk Hw [Ho Ht HN HD0 HL Hc]. destruct (Hw _ (Ht p Hp)) as [Hh Hf].
  assert (∀ i, 0 ≤ i → (apply_write incr_string w d).1 !! InodeKey prefix i = d !! InodeKey prefix i) as HI.
  { intros i Hi. rewrite lookup_apply_write, decide_False; [done|]. rewrite Hk. key_neq. }
  split.
  - intros i x Hi. unfold inode_at. rewrite HI by done. by apply Ho.
  - intros q Hq. rewrite lookup_apply_write. case_decide as E; [|by apply Ht]. rewrite <- E, Hk. done.
  - intros i. rewrite <- HN. unfold nodes_at, inode_at. case_decide; [|done]. by rewrite HI.
  - intros i. rewrite <- HD0. unfold dirs_at, inode_at. case_decide; [|done]. by rewrite HI.
  - intros q m. unfold links_at, bind_name, entry_at. case_decide as Hq.
    + rewrite lookup_apply_write. case_decide as E.
      * assert (q = p) as ->.
        { rewrite Hk in E. apply (key_bytes_inj prefix (KDirectory p) (KDirectory q)) in E; [by injection E|done|done]. }
        rewrite Hf. destruct (decide (m = n)) as [->|Hm].
        -- rewrite decide_True by done. destruct o as [s|]; [|done]. by destruct (Entry_ParseFrom s).
        -- rewrite decide_False by congruence. rewrite <- HL. unfold links_at, entry_at. by rewrite decide_True.
      * rewrite decide_False by (intros [= -> ->]; done). rewrite <- HL. unfold links_at, entry_at. by rewrite decide_True.
    + rewrite decide_False by (intros [= -> ->]; done). rewrite <- HL. unfold links_at. by rewrite decide_False.
  - rewrite lookup_apply_write, decide_False; [done|]. rewrite Hk. key_neq.
Qed.

(** ** Parts of transactions: the tree after what has been queued *)
Lemma SetInode_shows d d0 N D L x t u t' :
  inode_record_ok x → atomic d (SetInode prefix x) t (Ok u, t') →
  shows (after t d0) N D L → shows (after t' d0) (put N (ino x) (Some (node_of x))) (put D (ino x) (dir_links x)) L.
Proof. intros Hx (_ & _ & ->)%atomic_SetInode Hs. rewrite after_enqueue. by apply shows_set_inode. Qed.

Lemma put_same {A : Type} (N : Z → option A) i v : N i = v → ∀ j, put N i v j = N j.
Proof. intros E j. unfold put. case_decide; congruence. Qed.

(** Rewriting an inode without changing its node. *)
Lemma SetInode_keeps d d0 N D L x t u t' :
  inode_record_ok x → N (ino x) = Some (node_of x) → atomic d (SetInode prefix x) t (Ok u, t') →
  shows (after t d0) N D L → shows (after t' d0) N (put D (ino x) (dir_links x)) L.
Proof.
  intros Hx HN Ha Hs. eapply shows_ext; [by intros ?; apply put_same, HN|done|by intros ??|]. by eapply SetInode_shows.
Qed.

Lemma DetachEntry_shows d d0 N D L p n target parent t parent' t' :
  0 ≤ p → atomic d (DetachEntry prefix now p n target parent) t (Ok parent', t') →
  IsDir parent = true ∧ parent_after (if IsDir target then -1 else 0) parent parent' ∧
  (shows (after t d0) N D L → shows (after t' d0) N D (bind_name L p n None)).
Proof.
  intros Hp. unfold DetachEntry. intros Ha. inv_kv. inv_result. subst parent'. split; [done|].
  split; [by apply parent_touched|]. intros Hs. rewrite after_enqueue.
  apply (shows_directory _ N D L (WHDel (Directory prefix p) n) p n None); [done|done| |done].
  intros v Hv. by apply field_hdel.
Qed.

Definition name_ok (n : bytes) : Prop := zlen n ≤ kMaxNameLength.

Lemma ValidateName_ok n : ValidateNameComponent n = OK → name_ok n.
Proof. unfold ValidateNameComponent, name_ok. destruct (_ >? _) eqn:E; [done|]. zify_bools. done. Qed.

Lemma put_entry_shows d d0 N D L p n child t u t' :
  0 ≤ p → name_ok n → inode_record_ok child → atomic d (put_entry prefix p n child) t (Ok u, t') →
  shows (after t d0) N D L → shows (after t' d0) N D (bind_name L p n (Some (ino child))).
Proof.
  intros Hp Hn Hc. unfold put_entry. intros Ha Hs. inv_kv. rewrite after_enqueue.
  match goal with E : Entry_SerializeTo ?e = Ok ?v |- _ => assert (Entry_ParseFrom v = Ok e) as Hv end.
  { apply Entry_ParseFrom_iff. split; [|done]. destruct (record_ino child Hc).
    match goal with E : Entry_SerializeTo _ = Ok _ |- _ => unfold Entry_SerializeTo in E; inv_result end.
    rewrite zlen_zero in *. cbn in *. match goal with B : bool_decide _ = false |- _ => apply bool_decide_eq_false in B end.
    unfold entry_ok, string_ok, in_range, name_ok, kMaxNameLength in *. cbn. pose proof (zlen_nonneg n).
    split_and!; try done; try lia; unfold ModeToDt; repeat case_match; vm_compute; done. }
  eapply shows_ext; [by intros ?|done| |eapply (shows_directory _ N D L (WHSet (Directory prefix p) n _) p n); [done|done| |exact Hs]].
  2: { intros v Hv'. by apply field_hset. }
  intros q m. cbn. rewrite Hv. done.
Qed.

Lemma LinkEntry_shows d d0 N D L p n child parent t parent' t' :
  0 ≤ p → name_ok n → inode_record_ok child → atomic d (LinkEntry prefix now p n child parent) t (Ok parent', t') →
  IsDir parent = true ∧ parent_after (if IsDir child then 1 else 0) parent parent' ∧
  (shows (after t d0) N D L → shows (after t' d0) N D (bind_name L p n (Some (ino child)))).
Proof.
  intros Hp Hn Hc. unfold LinkEntry. intros Ha. inv_kv. inv_result. subst parent'. split; [done|].
  split; [by apply parent_touched|]. intros Hs. by eapply put_entry_shows.
Qed.

Lemma ReplaceEntry_shows d d0 N D L p n child parent t parent' t' :
  0 ≤ p → name_ok n → inode_record_ok child → atomic d (ReplaceEntry prefix now p n child parent) t (Ok parent', t') →
  IsDir parent = true ∧ parent_after 0 parent parent' ∧
  (shows (after t d0) N D L → shows (after t' d0) N D (bind_name L p n (Some (ino child)))).
Proof.
  intros Hp Hn Hc. unfold ReplaceEntry. intros Ha. inv_kv. inv_result. subst parent'. split; [done|].
  split; [by apply (parent_touched now false 0)|]. intros Hs. by eapply put_entry_shows.
Qed.

(** Commands on other keys. *)
Ltac other_key E := revert E; match goal with |- ?a = ?b → False => change (a ≠ b) end; key_neq.
Lemma other_keys :
  Forall (λ K, ¬ tree_key K)
    [Orphans prefix; Reclaims prefix; PendingDeletes prefix; InodeCount prefix].
Proof. split_forall; intros [(i & Hi & E)|[(i & Hi & E)|E]]; other_key E. Qed.
Lemma refs_other i : 0 ≤ i → ¬ tree_key (ChunkRefs prefix i).
Proof. intros Hi [(j & Hj & E)|[(j & Hj & E)|E]]; other_key E. Qed.

Lemma queue_other d0 N D L w t :
  ¬ tree_key (write_key w) → shows (after t d0) N D L → shows (after (enqueue w t) d0) N D L.
Proof. intros Hw Hs. rewrite after_enqueue. by apply shows_other. Qed.

(** Adjusting the links of a file. *)
Lemma AdjustNlink_down x y :
  inode_record_ok x → AdjustNlink x (-1) = Ok y →
  y = set_attr (set_nlink (nlink (attr x) - 1) (attr x)) x ∧ inode_record_ok y.
Proof.
  intros Hx E. unfold AdjustNlink in E. cbn in E. inv_result. zify_bools. subst y. split; [done|].
  apply record_ok_nlink; [|done]. pose proof (record_nlink x Hx). unfold in_range in *. lia.
Qed.

(** The count a parent keeps or gets. *)
Lemma parent_links δ x y : inode_record_ok x → IsDir x = true → parent_after δ x y → dir_links y = Some (u64 (nlink (attr x) + δ)).
Proof. intros Hx Hd [_ _ Hd' _ Hn]. unfold dir_links. by rewrite Hd', Hd, Hn. Qed.
Lemma parent_links_kept x y : inode_record_ok x → IsDir x = true → parent_after 0 x y → dir_links y = dir_links x.
Proof.
  intros Hx Hd Hp. rewrite (parent_links 0 x y) by done. unfold dir_links. rewrite Hd, Z.add_0_r, wrap_id; [done|done|by apply record_nlink].
Qed.

Lemma UnlinkFile_shows d d0 N D L p n parent child t parent' child' t' :
  0 ≤ p → inode_record_ok parent → inode_record_ok child → N p = Some (node_of parent) → D p = dir_links parent → D (ino child) = None →
  atomic d (UnlinkFile prefix now p n parent child) t (Ok (parent', child'), t') →
  ino parent = p ∧ IsDir child = false ∧ IsDir parent = true ∧ parent_after 0 parent parent' ∧
  (shows (after t d0) N D L →
   shows (after t' d0) (put N (ino child) (Some (File (nlink (attr child) - 1)))) D (bind_name L p n None)).
Proof.
  intros Hp Hpo Hco HN HDp HDc. unfold UnlinkFile. intros Ha. inv_kv. inv_result. zify_bools.
  match goal with E : AdjustNlink _ _ = Ok _ |- _ => apply AdjustNlink_down in E as [-> Hco2]; [|done] end.
  match goal with E : atomic _ (DetachEntry _ _ _ _ _ _) _ _ |- _ =>
    apply (DetachEntry_shows d d0 N D L) in E as (Hpd & Hsp & Hdet); [|done] end.
  assert (IsDir child = false) as Hcd by done.
  match type of Hsp with parent_after (if IsDir ?c then _ else _) _ _ =>
    assert (IsDir c = false) as Hcd2 by (rewrite IsDir_Touch; exact Hcd); rewrite Hcd2 in Hsp end.
  split_and!; [done|done|done|by simplify_eq|]. intros Hs. specialize (Hdet Hs). simplify_eq.
  match goal with E : atomic _ (SetInode _ _) _ (Ok _, ?t2), E2 : atomic _ (SetInode _ _) ?t2 _ |- _ =>
    eapply (SetInode_keeps d d0 N) in E as Hs1; [|by apply (pf_ok _ _ _ Hsp)| |exact Hdet];
    [eapply (SetInode_shows d d0 N) in E2 as Hs2; [|by apply record_ok_Touch|exact Hs1]|] end.
  2: { rewrite (pf_ino _ _ _ Hsp), (pf_node _ _ _ Hsp). congruence. }
  rewrite node_Touch, dir_links_Touch, ino_Touch in Hs2.
  set (child2 := set_attr (set_nlink _ _) child) in *. assert (IsDir child2 = false) as Hcd3 by exact Hcd. rewrite (node_file child2 Hcd3) in Hs2.
  match type of Hs2 with shows _ _ ?D' _ => assert (∀ i, D' i = D i) as ED end.
  { intros i. unfold put. case_decide as E1; [unfold dir_links; rewrite Hcd3, E1; symmetry; exact HDc|]. case_decide as E2; [|done].
    rewrite E2, (pf_ino _ _ _ Hsp), HDp. by apply parent_links_kept. }
  eapply (shows_ext _ _ _ _ D) in Hs2; [|done|exact ED|done].
  case_match; inv_kv; [|done]. apply queue_other; [|done]. pose proof other_keys as Ho. by split_forall.
Qed.

Lemma RemoveDirectory_shows d d0 N D L p n parent child t parent' t' :
  0 ≤ p → inode_record_ok parent → inode_record_ok child → N p = Some (node_of parent) → ino child ≠ p →
  atomic d (RemoveDirectory prefix now p n parent child) t (Ok parent', t') →
  ino parent = p ∧ parent_ino child = p ∧ IsDir child = true ∧ IsDir parent = true ∧ parent_after (-1) parent parent' ∧
  (∀ m, field_of (d !! Directory prefix (ino child)) m = None) ∧
  (shows (after t d0) N D L → shows (after t' d0) (put N (ino child) None) (put (put D (ino child) None) p (dir_links parent')) (bind_name L p n None)).
Proof.
  intros Hp Hpo Hco HN Hne. unfold RemoveDirectory, DeleteInode, AdjustInodeCount. intros Ha. inv_kv. inv_result. zify_bools.
  match goal with E : atomic _ (DetachEntry _ _ _ _ _ _) _ _ |- _ =>
    apply (DetachEntry_shows d d0 N D L) in E as (Hpd & Hsp & Hdet); [|done] end.
  assert (IsDir child = true) as Hcd by done. rewrite Hcd in Hsp.
  simplify_eq. split_and!; try done.
  { intros m. match goal with Hh : hash_at d _ = Some ?h |- _ => apply hash_at_fields in Hh as [_ ->]; assert (h = ∅) as ->
      by (apply map_size_empty_inv; lia) end. apply lookup_empty. }
  intros Hs. specialize (Hdet Hs). pose proof (record_ino child Hco).
  match goal with E : atomic _ (SetInode _ _) _ (Ok _, _) |- _ => rename E into Hset end.
  pose proof (pf_ino _ _ _ Hsp) as Ei.
  eapply (SetInode_keeps d d0 (put N (ino child) None)) in Hset; [rewrite Ei in Hset; exact Hset|by apply (pf_ok _ _ _ Hsp)| |].
  - unfold put. rewrite decide_False by (rewrite Ei; done). rewrite Ei, (pf_node _ _ _ Hsp). done.
  - apply queue_other; [pose proof other_keys as Ho; by split_forall|]. rewrite after_enqueue. apply shows_del_inode; [lia|done].
Qed.

(** ** Reads *)
Lemma shows_inode d N D L i x :
  shows d N D L → 0 ≤ i → inode_at prefix d i = Some x → ino x = i ∧ N i = Some (node_of x) ∧ D i = dir_links x.
Proof.
  intros [Ho _ HN HD _ _] Hi E. split; [by apply Ho|]. rewrite <- HN, <- HD. unfold nodes_at, dirs_at. rewrite !decide_True by done. by rewrite E.
Qed.

Lemma LookupDirectory_shows d N D L i t x t' :
  shows d N D L → 0 ≤ i → atomic d (LookupDirectory prefix i) t (Ok x, t') →
  t' = t ∧ has_writes t = false ∧ ino x = i ∧ (N i = Some (node_of x) ∧ D i = dir_links x) ∧ inode_record_ok x ∧ IsDir x = true.
Proof.
  intros Hs Hi. unfold LookupDirectory. intros Ha. inv_meta. inv_result. simplify_eq.
  match goal with E : inode_at _ _ _ = Some _ |- _ => destruct (shows_inode _ _ _ _ _ _ Hs Hi E) end. done.
Qed.

Lemma LookupEntryIn_shows d N D L parent n t r t' :
  shows d N D L → inode_record_ok parent → atomic d (LookupEntryIn prefix parent n) t (r, t') →
  t' = t ∧
  (∀ x, r = Ok x → has_writes t = false ∧ L (ino parent) n = Some (ino x) ∧ (N (ino x) = Some (node_of x) ∧ D (ino x) = dir_links x) ∧ inode_record_ok x) ∧
  (r = Err NotFound → has_writes t = false ∧ IsDir parent = true ∧ L (ino parent) n = None).
Proof.
  intros Hs Hp. pose proof (record_ino parent Hp) as Hpi. unfold LookupEntryIn, mbind, kv_bind. rewrite atomic_bind.
  intros (r1 & t1 & Hc & Ha). apply atomic_lift in Hc as [-> ->]. unfold fail_if in Ha.
  destruct (negb (IsDir parent)) eqn:Hd; [by injection Ha as -> ->|]. apply negb_false_iff in Hd.
  apply atomic_bind in Ha as (r2 & t2 & Hg & Ha). apply atomic_HGet in Hg as [-> Ho]. destruct r2 as [v|e].
  - destruct Ho as [[Hw Ho]|[?|[_ ?]]]; [|done..]. destruct (field_at d _ n) as [[v'|]|] eqn:Ef; simplify_eq.
    apply field_at_of in Ef. apply atomic_bind in Ha as (r3 & t3 & Hl & Ha). apply atomic_lift in Hl as [-> ->].
    destruct (Entry_ParseFrom v') as [e|s] eqn:Ee; [|injection Ha as -> ->; split; [done|]; split; [done|];
      intros [= ->]; pose proof (Entry_ParseFrom_err v') as Hee; rewrite Ee in Hee; by specialize (Hee _ eq_refl)].
    apply Entry_ParseFrom_iff in Ee as Hok. destruct Hok as [(_ & _ & _ & Hei & Hen) _]. unfold in_range in Hei.
    unfold on_not_found in Ha. apply atomic_kv_try in Ha as (r4 & t4 & Hl & Ha).
    apply atomic_LookupInode in Hl as (-> & Hx & _).
    assert (L (ino parent) n = Some (entry_ino e)) as HL.
    { rewrite <- (sh_links _ _ _ _ Hs). unfold links_at, entry_at. rewrite decide_True by lia. by rewrite Ef, Ee. }
    destruct r4 as [x|s].
    + apply atomic_lift in Ha as [-> ->]. split; [done|]. split; [|done]. intros x' [= <-].
      destruct (Hx x eq_refl) as (_ & Hi & Hrec). destruct (shows_inode _ _ _ _ (entry_ino e) x Hs (proj1 Hei) Hi) as [Hxi HN].
      rewrite Hxi. done.
    + destruct s; try (apply atomic_lift in Ha as [-> ->]); try (injection Ha as -> ->); done.
  - injection Ha as -> ->. split; [done|]. split; [done|]. intros [= ->]. apply lookup_NotFound in Ho as [Hw Ho].
    split; [done|]. split; [done|]. apply field_at_of in Ho. rewrite <- (sh_links _ _ _ _ Hs). unfold links_at, entry_at.
    rewrite decide_True by lia. by rewrite Ho.
Qed.

Lemma shows_zero d N D L : shows d N D L → N 0 = None.
Proof.
  intros Hs. rewrite <- (sh_nodes _ _ _ _ Hs). unfold nodes_at. rewrite decide_True by lia.
  destruct (inode_at prefix d 0) as [x|] eqn:E; [|done]. exfalso.
  pose proof (sh_own _ _ _ _ Hs 0 x ltac:(lia) E) as Hi. unfold inode_at, inode_of in E.
  destruct (d !! InodeKey prefix 0) as [[v ?| |]|]; try done. pose proof (Inode_ParseFrom_sound v) as Hp.
  destruct (Inode_ParseFrom v); [|done]. injection E as ->. destruct Hp as [[_ ?] _ _ _ _ _ _]. done.
Qed.

(** The ancestor walk that finds nothing has seen the whole way to the root. *)
Lemma ancestor_walk_false d N D L fuel visited a x t t' :
  shows d N D L → 0 ≤ x → a ≠ 0 → atomic d (ancestor_walk prefix fuel visited a x) t (Ok false, t') →
  t' = t ∧ ¬ below N a x.
Proof.
  intros Hs Hx Ha. revert visited x Hx. induction fuel as [|fuel IH]; intros visited x Hx; cbn [ancestor_walk]; [done|].
  destruct (Z.eqb_spec x 0) as [->|Hx0].
  { intros [_ ->]%atomic_ret. split; [done|]. intros Hb. inversion Hb as [|? p E]; subst; [done|].
    rewrite (shows_zero _ _ _ _ Hs) in E. done. }
  case_bool_decide; [done|]. destruct (Z.eqb_spec x a) as [->|Hxa]; [by intros [? _]%atomic_ret|]. intros Hw.
  apply atomic_kv_bind in Hw as (y & t1 & Hl & Hw). apply atomic_LookupInode_Ok in Hl as (-> & _ & Hy & Hrec).
  destruct (shows_inode _ _ _ _ _ _ Hs Hx Hy) as (_ & HN & _).
  assert (t' = t ∧ ¬ below N a (parent_ino y)) as [-> Hno].
  { destruct (Z.eqb_spec (parent_ino y) x) as [E|E].
    - apply atomic_ret in Hw as [_ ->]. split; [done|]. rewrite E. intros Hb. unfold node_of in HN.
      destruct (IsDir y); [rewrite E in HN; by apply below_fixed in Hb|]. inversion Hb; subst; [done|congruence].
    - apply IH in Hw; [done|]. by destruct Hrec as [_ _ [? _] _ _ _ _]. }
  split; [done|]. intros Hb. inversion Hb as [|? p Hp Hb']; subst; [done|]. rewrite HN in Hp. unfold node_of in Hp.
  destruct (IsDir y); [|done]. injection Hp as <-. done.
Qed.

Lemma check_no_cycle_shows d N D L fuel x q t u t' :
  shows d N D L → 0 ≤ q → inode_record_ok x → atomic d (check_no_cycle prefix fuel x q) t (Ok u, t') →
  t' = t ∧ ∀ r, node_of x = Dir r → ¬ below N (ino x) q.
Proof.
  intros Hs Hq Hx. pose proof (record_ino x Hx). unfold check_no_cycle, IsDescendantOf, node_of. destruct (IsDir x).
  - intros Ha. inv_kv. subst. match goal with Hw : atomic _ (ancestor_walk _ _ _ _ _) _ _ |- _ =>
      eapply ancestor_walk_false in Hw as [-> ?]; [|done|done|lia] end. done.
  - intros Ha. inv_kv. done.
Qed.

(** ** The operations on the tree *)
Definition evolves (d d' : dataset) (fresh : option Z) : Prop :=
  ∀ N D L, shows d N D L → tree N L → counts_ok N D →
  ∃ N' D' L', shows d' N' D' L' ∧ (tree N' L' ∧ counts_ok N' D') ∧ ∀ i, is_Some (N' i) → is_Some (N i) ∨ fresh = Some i.

Lemma put_domain (N : nodes) i v j : is_Some (N i) → is_Some (put N i v j) → is_Some (N j).
Proof. unfold put. intros Hi. case_decide; [by subst|done]. Qed.

Lemma commits_after {A : Type} (p : kv A) d a d' : commits p d a d' → ∃ t, atomic d p new_txn (Ok a, t) ∧ d' = after t d.
Proof. done. Qed.
Lemma after_new d : after new_txn d = d.
Proof. done. Qed.

(** Resolve the lookups of an operation against the tree it runs on. *)
Ltac lookups Hs :=
  repeat match goal with
  | Hl : atomic _ (LookupDirectory _ _) _ (Ok _, _) |- _ =>
      let Hi := fresh "Hino" in let HN := fresh "HNdir" in let HD := fresh "HDdir" in let Ho := fresh "Hrec" in let Hd := fresh "Hdir" in
      apply (LookupDirectory_shows _ _ _ _ _ _ _ _ Hs) in Hl as (-> & _ & Hi & (HN & HD) & Ho & Hd); [|done]
  | Hl : atomic _ (LookupEntryIn _ _ _) _ (Ok _, _), Hp : inode_record_ok ?p |- _ =>
      let Hc := fresh "Hent" in
      apply (LookupEntryIn_shows _ _ _ _ p _ _ _ _ Hs Hp) in Hl as (-> & Hc & _);
      let HL := fresh "HL" in let HN := fresh "HNent" in let HD := fresh "HDent" in let Ho := fresh "Hrec" in
      destruct (Hc _ eq_refl) as (_ & HL & (HN & HD) & Ho); clear Hc
  end.

Lemma RmDir_evolves ctx p n d d' :
  0 ≤ p → commits (RmDir prefix now ctx p n) d tt d' → evolves d d' None.
Proof.
  intros Hp (t & Ha & ->)%commits_after N D L Hs Ht HD. unfold RmDir, discard in Ha. inv_kv.
  lookups Hs. inv_result.
  match goal with Hr : atomic _ (RemoveDirectory _ _ _ _ ?x ?c) _ _, Hi : ino ?x = _ |- _ =>
    rename Hr into Hrm; rename c into child; rename x into parent; rewrite Hi in * end.
  rewrite (node_dir child) in * by done. assert (ino child ≠ p) as Hne by (by eapply (entry_elsewhere _ _ Ht)).
  apply (RemoveDirectory_shows d d N D L) in Hrm as (_ & _ & _ & Hpd & Hpf & Hem & Hsh); [|done..].
  eexists _, _, _. split; [apply Hsh; by rewrite after_new|]. split; [split|].
  - eapply (tree_rmdir N L Ht p n); [done|done|]. intros m. rewrite <- (sh_links _ _ _ _ Hs). unfold links_at, entry_at.
    case_decide; [|done]. by rewrite Hem.
  - rewrite (parent_links (-1) parent) by done. eapply (counts_rmdir N L Ht D p n); [done..| |done]. rewrite HDdir. unfold dir_links. by rewrite Hpd.
  - intros i Hi. left. eapply put_domain; [|exact Hi]. eauto.
Qed.

Lemma Unlink_evolves ctx p n expected d d' :
  0 ≤ p → commits (Unlink prefix now ctx p n expected) d tt d' → evolves d d' None.
Proof.
  intros Hp (t & Ha & ->)%commits_after N D L Hs Ht HD. unfold Unlink, discard in Ha. inv_kv. lookups Hs. inv_result.
  match goal with Hr : atomic _ (UnlinkFile _ _ _ _ ?x ?c) _ (Ok ?r, _), Hi : ino ?x = _ |- _ =>
    rename Hr into Hun; rename c into child; destruct r as [parent' child']; rewrite Hi in * end.
  assert (IsDir child = false) as Hcd by done. assert (D (ino child) = None) as HDc by (rewrite HDent; unfold dir_links; by rewrite Hcd).
  apply (UnlinkFile_shows d d N D L) in Hun as (_ & _ & _ & _ & Hsh); [|done..].
  rewrite node_file in HNent by done.
  eexists _, _, _. split; [apply Hsh; by rewrite after_new|]. split; [split|].
  - by eapply (tree_unlink N L Ht p n).
  - eapply counts_put_file; [done|eauto|done].
  - intros i Hi. left. eapply put_domain; [|exact Hi]. eauto.
Qed.

(** Paths may have more than 2^64 - 2 names only in theory; the code does not check. *)
Definition links_left (x : SwordFsInode) : Prop := nlink (attr x) < UINT64_MAX.

Lemma AdjustNlink_up x y :
  inode_record_ok x → links_left x → AdjustNlink x 1 = Ok y →
  y = set_attr (set_nlink (nlink (attr x) + 1) (attr x)) x ∧ inode_record_ok y.
Proof.
  intros Hx Hl E. pose proof (record_nlink x Hx). unfold AdjustNlink in E. cbn in E. injection E as <-.
  unfold links_left, UINT64_MAX, in_range in *. rewrite wrap_id by (done || (unfold in_range; lia)). split; [done|].
  apply record_ok_nlink; [unfold in_range; lia|done].
Qed.

Lemma Link_evolves i p n x d d' :
  0 ≤ i → 0 ≤ p → (∀ y, inode_at prefix d i = Some y → links_left y) →
  commits (Link prefix now i p n) d x d' → evolves d d' None.
Proof.
  intros Hi Hp Hleft (t & Ha & ->)%commits_after N D L Hs Ht HD. unfold Link in Ha. inv_meta. lookups Hs. inv_result.
  match goal with E : inode_at _ d i = Some ?y, R : inode_record_ok ?y |- _ => rename y into inode;
    destruct (shows_inode _ _ _ _ _ _ Hs Hi E) as (Hii & HNi & HDi); specialize (Hleft _ E); rename R into Hio end.
  match goal with Hr : atomic _ (LinkExistingEntry _ _ _ _ ?q _) _ _ |- _ => rename Hr into Hlk; rename q into parent end.
  unfold LinkExistingEntry in Hlk. inv_kv. inv_result. apply atomic_kv_try in Hlk as (r & t1 & Hent & Hlk).
  apply (LookupEntryIn_shows d N D L) in Hent as (-> & _ & Hnone); [|done|done]. destruct r as [?|e]; [done|].
  destruct e; try done. destruct (Hnone eq_refl) as (_ & _ & HLn).
  match goal with Hx : atomic _ (let '(_, _) := ?r in _) _ _ |- _ => destruct r; apply atomic_ret in Hx as [_ ->] end.
  unfold ClearOrphanMarker in *. inv_kv. match goal with E : AdjustNlink _ _ = Ok _ |- _ => apply AdjustNlink_up in E as [-> Hio2]; [|done|done] end.
  assert (IsDir inode = false) as Hfile by done.
  match goal with E : atomic _ (LinkEntry _ _ _ _ _ _) _ _ |- _ =>
    apply (LinkEntry_shows d d N D L) in E as (Hpd & Hsp & Hbind); [|done|by apply ValidateName_ok|done] end. specialize (Hbind Hs). rewrite Hfile in Hsp.
  match goal with E : atomic _ (if _ then _ else _) ?t1 (Ok _, ?t2) |- _ =>
    assert (shows (after t2 d) N D (bind_name L p n (Some (ino inode)))) as Hbind2
      by (case_match; inv_kv; [apply queue_other; [pose proof other_keys as Hk; by split_forall|done]|done]) end.
  match goal with E : atomic _ (SetInode _ _) _ (Ok _, ?t2), E2 : atomic _ (SetInode _ _) ?t2 _ |- _ =>
    eapply (SetInode_keeps d d N) in E as Hs1; [|by apply (pf_ok _ _ _ Hsp)| |exact Hbind2];
    [eapply (SetInode_shows d d N) in E2 as Hs2; [|by apply record_ok_Touch|exact Hs1]|] end.
  2: { rewrite (pf_ino _ _ _ Hsp), (pf_node _ _ _ Hsp). congruence. }
  rewrite node_Touch, dir_links_Touch, ino_Touch in Hs2. set (inode2 := set_attr (set_nlink _ _) inode) in *.
  assert (IsDir inode2 = false) as Hfile2 by exact Hfile. rewrite (node_file inode2 Hfile2) in Hs2. rewrite node_file in HNi by done.
  rewrite node_dir in HNdir by done. rewrite Hino in *. eexists _, D, _. split; [eapply shows_ext; [by intros ?| |by intros ??|exact Hs2]|].
  { intros j. unfold put. case_decide as E1; [unfold dir_links; rewrite Hfile2, E1; change (ino inode2) with (ino inode); rewrite Hii, HDi; unfold dir_links; by rewrite Hfile|].
    case_decide as E2; [|done]. rewrite E2, (pf_ino _ _ _ Hsp), Hino, HDdir. by apply parent_links_kept. }
  change (ino inode2) with (ino inode). rewrite Hii in *. split; [split|].
  - by eapply (tree_link N L Ht p).
  - eapply counts_put_file; [done|eauto|done].
  - intros j Hj. left. eapply put_domain; [|exact Hj]. eauto.
Qed.

(** ** Creation *)
Lemma AddEntry_evolves d N D L p n child parent t parent' :
  shows d N D L → tree N L → 0 ≤ p → name_ok n → inode_record_ok child → inode_record_ok parent → IsDir parent = true →
  N p = Some (node_of parent) → N (ino child) = None → new_node p (node_of child) →
  atomic d (AddEntry prefix now p n child parent) new_txn (Ok parent', t) →
  shows (after t d) (put N (ino child) (Some (node_of child)))
    (put (put D (ino child) (dir_links child)) p (Some (u64 (nlink (attr parent) + (if IsDir child then 1 else 0)))))
    (bind_name L p n (Some (ino child))) ∧ L p n = None.
Proof.
  intros Hs Ht Hp Hn Hc Hpo Hpd HNp HNc Hv. unfold AddEntry, AdjustInodeCount. intros Ha. inv_kv. inv_result. zify_bools.
  apply atomic_kv_try in Ha as (r & t1 & Hg & Ha). apply atomic_HGet in Hg as [-> Ho].
  destruct r as [v|e]; [inv_kv|]. destruct e; try (inv_kv; fail).
  apply lookup_NotFound in Ho as [_ Ho]. apply field_at_of in Ho. inv_kv.
  match goal with E : atomic _ (LinkEntry _ _ _ _ _ _) _ _ |- _ => rename E into Hlink end.
  match goal with E : atomic _ (SetInode _ _) new_txn _ |- _ => rename E into Hchild end.
  match goal with E : atomic _ (SetInode _ _) _ _ |- _ => rename E into Hparent end.
  assert (L p n = None) as HL.
  { rewrite <- (sh_links _ _ _ _ Hs). unfold links_at, entry_at. rewrite decide_True by done. by rewrite Ho. }
  split; [|done]. apply queue_other; [pose proof other_keys as Hk; by split_forall|].
  eapply (SetInode_shows d d N D L) in Hchild; [|done|by rewrite after_new].
  eapply (LinkEntry_shows d d) in Hlink as (_ & Hsp & Hlink); [|done..]. specialize (Hlink Hchild).
  eapply (SetInode_keeps d d) in Hparent; [|by apply (pf_ok _ _ _ Hsp)| |exact Hlink].
  - rewrite (pf_ino _ _ _ Hsp), (parent_links _ _ _ Hpo Hpd Hsp) in Hparent. by match goal with E : ino parent = p |- _ => rewrite E in Hparent end.
  - rewrite (pf_ino _ _ _ Hsp), (pf_node _ _ _ Hsp). unfold put. rewrite decide_False; congruence.
Qed.

Lemma create_evolves d d' N D L p n child parent :
  shows d N D L → tree N L → counts_ok N D → N p = Some (node_of parent) → D p = dir_links parent → IsDir parent = true →
  N (ino child) = None → ino child ≠ kRootInodeId → L p n = None → new_node p (node_of child) → (IsDir child = true → nlink (attr child) = 2) →
  shows d' (put N (ino child) (Some (node_of child)))
    (put (put D (ino child) (dir_links child)) p (Some (u64 (nlink (attr parent) + (if IsDir child then 1 else 0)))))
    (bind_name L p n (Some (ino child))) →
  ∃ N' D' L', shows d' N' D' L' ∧ (tree N' L' ∧ counts_ok N' D') ∧ ∀ i, is_Some (N' i) → is_Some (N i) ∨ Some (ino child) = Some i.
Proof.
  intros Hs Ht HD Hp HDp Hpd Hc Hcr HL Hv Htwo Hs'. rewrite node_dir in Hp by done. eexists _, _, _. split; [exact Hs'|]. split; [split|].
  - by eapply tree_create.
  - assert (dir_links child = match node_of child with Dir _ => Some 2 | File _ => None end) as ->.
    { unfold dir_links, node_of. destruct (IsDir child); [by rewrite Htwo|done]. }
    eapply (counts_create N L Ht); [done|done| |done|done|done|unfold node_of; by destruct (IsDir child)]. rewrite HDp. unfold dir_links. by rewrite Hpd.
  - intros i. unfold put. case_decide; [subst; by right|by left].
Qed.

(** The node of a new inode, from the file type of its mode. *)
Lemma node_new c a p target : node_of (new_inode c a p target) = if S_ISDIR (mode a) then Dir p else File (nlink a).
Proof. done. Qed.

Lemma new_dir_links now' c m u g p rd sz target :
  IsDir (new_inode c (set_size sz (set_rdev rd (new_attr now' c m u g))) p target) = true →
  nlink (attr (new_inode c (set_size sz (set_rdev rd (new_attr now' c m u g))) p target)) = 2.
Proof. unfold IsDir. cbn. by intros ->. Qed.

Definition ids_ok (ctx : SwordFsContext) : Prop := in_range 64 (ctx_uid ctx) ∧ in_range 64 (ctx_gid ctx).

Lemma inherit_mode g a m g' m' :
  in_range 64 g → attr_ok a → in_range 32 m → ResolveCreateInheritance g a m = (g', m') →
  in_range 64 g' ∧ in_range 32 m' ∧ S_ISDIR m' = S_ISDIR m.
Proof.
  intros Hg Ha Hm. unfold ResolveCreateInheritance. destruct (has_bits _ _); [|intros [= <- <-]; done].
  intros [= <- <-]. destruct Ha as [U _ _ _ _]. split_forall. split; [done|].
  destruct (S_ISDIR m) eqn:Hd; [|done]. split; [apply lor_range; [done|done|by vm_compute]|].
  unfold S_ISDIR in *. rewrite Z.land_lor_distr_l. change (Z.land S_ISGID S_IFMT) with 0. by rewrite Z.lor_0_r.
Qed.

Lemma new_node_attr now' c m u g p rd sz target :
  new_node p (node_of (new_inode c (set_size sz (set_rdev rd (new_attr now' c m u g))) p target)).
Proof. rewrite node_new. cbn. unfold new_node. destruct (S_ISDIR m); auto. Qed.

Lemma inherit_nlink parent umask child child' : ApplyPosixAclCreateInheritance parent umask child = Ok child' → nlink (attr child') = nlink (attr child).
Proof. unfold ApplyPosixAclCreateInheritance. intros E. repeat (case_match; inv_result); by subst. Qed.
Lemma fresh_not_root d N D L c : shows d N D L → tree N L → inode_at prefix d c = None → N c = None ∧ c ≠ kRootInodeId.
Proof.
  intros Hs Ht Hfree. assert (N c = None) as HNc by (rewrite <- (sh_nodes _ _ _ _ Hs); unfold nodes_at; case_decide; [by rewrite Hfree|done]).
  split; [done|]. intros ->. by rewrite (root_node _ _ Ht) in HNc.
Qed.

Lemma CreateNode_evolves ctx c p n m rdev x d d' :
  0 ≤ p → in_range 64 p → in_range 64 c → c ≠ 0 → ids_ok ctx → in_range 32 m → in_range 64 rdev → name_ok n →
  inode_at prefix d c = None →
  commits (CreateNode prefix now ctx c p n m rdev) d x d' → evolves d d' (Some c).
Proof.
  intros Hp Hp' Hc Hc0 [Hu Hg] Hm Hr Hn Hfree (t & Ha & ->)%commits_after N D L Hs Ht HD. unfold CreateNode in Ha.
  apply atomic_kv_bind in Ha as (parent & t0 & Hl & Ha). lookups Hs.
  destruct (ResolveCreateInheritance _ _ _) as [g' m'] eqn:Er.
  apply inherit_mode in Er as (Hg' & Hm' & _); [|done|by destruct Hrec as [_ [? _] _ _ _ _ _]|done]. inv_kv.
  match goal with E : ApplyPosixAclCreateInheritance _ _ ?y = Ok ?z |- _ => rename E into Hinh; rename z into child; set (base := y) in * end.
  assert (inode_record_ok base) as Hbase.
  { apply new_inode_ok; try done. apply attr_ok_rdev; [done|]. by apply new_attr_ok. }
  pose proof (inherit_nlink _ _ _ _ Hinh) as Hnl.
  apply inherit_record in Hinh as [Hci Hcn Hcd _ Hco]; [|done|done]. specialize (Hco Hbase).
  assert (ino child = c) as Hcc by (by rewrite Hci). clear Hci.
  assert (new_node p (node_of child)) as Hnew.
  { rewrite Hcn. apply (new_node_attr now c m' (ctx_uid ctx) g' p rdev 0 []). }
  assert (IsDir child = true → nlink (attr child) = 2) as Htwo by (rewrite Hcd, Hnl; apply (new_dir_links now c m' (ctx_uid ctx) g' p rdev 0 [])).
  destruct (fresh_not_root _ _ _ _ c Hs Ht Hfree) as [HNc Hcr]. rewrite <- Hcc in HNc, Hcr |- *.
  match goal with E : atomic _ (AddEntry _ _ _ _ _ _) _ _ |- _ => eapply (AddEntry_evolves d N D L) in E as [Hs' HL]; [|done..] end.
  by eapply create_evolves.
Qed.

Lemma Symlink_evolves ctx c p n link x d d' :
  0 ≤ p → in_range 64 p → in_range 64 c → c ≠ 0 → ids_ok ctx → string_ok link → inode_at prefix d c = None →
  commits (Symlink prefix now ctx c p n link) d x d' → evolves d d' (Some c).
Proof.
  intros Hp Hp' Hc Hc0 [Hu Hg] Hlk Hfree (t & Ha & ->)%commits_after N D L Hs Ht HD. unfold Symlink in Ha.
  apply atomic_kv_bind in Ha as (? & t0 & Hck & Ha). inv_kv. lookups Hs.
  match goal with E : atomic _ (let '(_, _) := ?r in _) _ _ |- _ => destruct r as [g' m'] eqn:Er end.
  apply inherit_mode in Er as (Hg' & Hm' & _); [|done|by destruct Hrec as [_ [? _] _ _ _ _ _]|by vm_compute]. inv_kv.
  match goal with E : atomic _ (AddEntry _ _ _ _ ?y _) _ _ |- _ => rename E into Hadd; set (child := y) in * end.
  assert (inode_record_ok child) as Hbase.
  { apply new_inode_ok; try done. apply attr_ok_size; [done|]. by apply new_attr_ok. }
  destruct (fresh_not_root _ _ _ _ c Hs Ht Hfree) as [HNc Hcr].
  assert (new_node p (node_of child)) as Hnew by apply (new_node_attr now c m' (ctx_uid ctx) g' p 0 (zlen link) link).
  assert (IsDir child = true → nlink (attr child) = 2) as Htwo by apply (new_dir_links now c m' (ctx_uid ctx) g' p 0 (zlen link) link).
  eapply (AddEntry_evolves d N D L) in Hadd as [Hs' HL]; try done; [|by apply ValidateName_ok].
  by eapply (create_evolves _ _ N D L p n child).
Qed.

(** ** Renames *)
Definition directory_at (N : nodes) (p : Z) (x : SwordFsInode) : Prop :=
  ino x = p ∧ inode_record_ok x ∧ IsDir x = true ∧ N p = Some (node_of x).
Record parents_at (N : nodes) (p q : Z) (ps : rename_parents) : Prop := {
  pa_old : directory_at N p (old_parent ps);
  pa_new : directory_at N q (new_parent ps);
  pa_same : same_parent ps = true ↔ p = q;
}.
(** The link counts that the parents are about to be stored with. *)
Definition parents_counted (N : nodes) (p q : Z) (ps : rename_parents) : Prop :=
  counted N p (nlink (attr (old_parent ps))) ∧ counted N q (nlink (attr (new_parent ps))).

Lemma directory_at_after N p δ x y : parent_after δ x y → directory_at N p x → directory_at N p y.
Proof. intros [Hi Hn Hd Ho _] (? & ? & ? & ?). split_and!; [congruence|auto|congruence|congruence]. Qed.

Lemma parents_set_old N p q ps δ x :
  parent_after δ (old_parent ps) x → parents_at N p q ps → parents_at N p q (set_old_parent ps x).
Proof.
  intros Hx [Ho Hn Hs]. pose proof (directory_at_after _ _ _ _ _ Hx Ho) as Ho'. split; [done| |done].
  unfold new_parent, set_old_parent in *. cbn. destruct (same_parent ps); [|done]. by rewrite <- (proj1 Hs eq_refl).
Qed.
Lemma parents_set_new N p q ps δ x :
  parent_after δ (new_parent ps) x → parents_at N p q ps → parents_at N p q (set_new_parent ps x).
Proof.
  intros Hx [Ho Hn Hs]. pose proof (directory_at_after _ _ _ _ _ Hx Hn) as Hn'. unfold set_new_parent, new_parent, old_parent in *.
  destruct (same_parent ps) eqn:E; split; cbn; try done. by rewrite (proj1 Hs eq_refl).
Qed.
Lemma parents_ext N N' p q ps : N' p = N p → N' q = N q → parents_at N p q ps → parents_at N' p q ps.
Proof. intros Ep Eq [(? & ? & ? & ?) (? & ? & ? & ?) ?]. split; [split_and!..|]; try done; congruence. Qed.

(** The counts of a parent after [δ]. *)
Lemma counted_eq N i a b : counted N i (u64 a) → a = b → counted N i (u64 b).
Proof. by intros ? <-. Qed.
Lemma after_counted N N' c i δ x y :
  (∀ z, z ≠ c → parent_of N' z = parent_of N z) → inode_record_ok x → parent_after δ x y → δ = is_parent N' c i - is_parent N c i →
  counted N i (nlink (attr x)) → counted N' i (nlink (attr y)).
Proof.
  intros E Hx Hp -> Hc. rewrite (pf_nlink _ _ _ Hp Hx), Z.add_sub_assoc. by apply counted_move.
Qed.
Lemma is_parent_eq N c i o : parent_of N c = o → is_parent N c i = Z.b2z (bool_decide (o = Some i)).
Proof. by intros <-. Qed.
Lemma is_parent_dir N c p i (dir : bool) : parent_of N c = (if dir then Some p else None) → is_parent N c i = if dir then Z.b2z (bool_decide (p = i)) else 0.
Proof. intros ->%(is_parent_eq _ _ i). destruct dir; [|done]. f_equal. apply bool_decide_ext. naive_solver. Qed.

(** [c] leaves [p] for [q]. *)
Lemma moved_counted N N' p q ps op np (dir : bool) c :
  (∀ x, x ≠ c → parent_of N' x = parent_of N x) → parent_of N c = (if dir then Some p else None) → parent_of N' c = (if dir then Some q else None) →
  parents_at N p q ps → parents_counted N p q ps →
  parent_after (if dir then -1 else 0) (old_parent ps) op → parent_after (if dir then 1 else 0) (new_parent (set_old_parent ps op)) np →
  parents_counted N' p q (set_new_parent (set_old_parent ps op) np).
Proof.
  intros E Hc Hc' Hps [Ho Hn] Hop Hnp. pose proof (λ i, is_parent_dir N c p i dir Hc) as I1. pose proof (λ i, is_parent_dir N' c q i dir Hc') as I2.
  pose proof (parents_set_old _ _ _ _ _ _ Hop Hps) as [_ (_ & Hnr & _) _]. destruct Hps as [(_ & Hor & _) (_ & Hnr0 & _) Hsame].
  unfold parents_counted, set_new_parent, new_parent, old_parent, set_old_parent in *. destruct (same_parent ps) eqn:Es; cbn in *.
  - assert (p = q) as <- by (by apply Hsame). assert (counted N' p (nlink (attr np))) as Hx; [|by split].
    rewrite (pf_nlink _ _ _ Hnp Hnr), (pf_nlink _ _ _ Hop Hor), u64_add. pose proof (counted_move N N' c p _ E Ho) as Hm. rewrite I1, I2 in Hm.
    replace (nlink _ + _ + _) with (nlink (attr (parent_a ps)) + (if dir then Z.b2z (bool_decide (p = p)) else 0) - (if dir then Z.b2z (bool_decide (p = p)) else 0)); [exact Hm|].
    destruct dir; rewrite ?bool_decide_eq_true_2 by done; cbn [Z.b2z]; lia.
  - assert (p ≠ q) as Hpq by (intros <-; by assert (false = true) by (by apply Hsame)). split.
    + eapply (after_counted N N' c p); [done|exact Hor|exact Hop| |exact Ho]. rewrite I1, I2. destruct dir; [|done]. by rewrite bool_decide_eq_false_2, bool_decide_eq_true_2.
    + eapply (after_counted N N' c q); [done|exact Hnr|exact Hnp| |exact Hn]. rewrite I1, I2. destruct dir; [|done]. by rewrite bool_decide_eq_true_2, bool_decide_eq_false_2.
Qed.

Definition stored (D : counts) (p q : Z) (ps : rename_parents) : counts :=
  put (put D p (dir_links (old_parent ps))) q (dir_links (new_parent ps)).
Lemma counts_stored N D p q ps :
  parents_at N p q ps → parents_counted N p q ps → (∀ i r, N i = Some (Dir r) → i ≠ p → i ≠ q → ∃ k, D i = Some k ∧ counted N i k) →
  counts_ok N (stored D p q ps).
Proof.
  intros [(_ & _ & Hod & _) (_ & _ & Hnd & _) _] [Ho Hn] Hrest i r Hi. unfold stored, put, dir_links. rewrite Hod, Hnd.
  case_decide; [subst; eauto|]. case_decide; [subst; eauto|]. by eapply Hrest.
Qed.
Lemma store_parents_shows d d0 N D L p q ps t u t' :
  parents_at N p q ps → atomic d (store_parents prefix ps) t (Ok u, t') → shows (after t d0) N D L → shows (after t' d0) N (stored D p q ps) L.
Proof.
  intros [(Ho1 & Ho2 & _ & Ho3) (Hn1 & Hn2 & _ & Hn3) Hsame] Ha Hs. unfold store_parents in Ha.
  apply atomic_kv_bind in Ha as (? & t1 & Hset & Ha). eapply (SetInode_keeps d d0 N D L) in Hset; [|done|congruence|exact Hs]. rewrite Ho1 in Hset.
  destruct (same_parent ps) eqn:Es.
  - apply atomic_ret in Ha as [_ ->]. assert (p = q) as <- by (by apply Hsame). eapply shows_ext; [by intros ?| |by intros ??|exact Hset].
    intros i. unfold stored, put, new_parent. rewrite Es. by case_decide.
  - eapply (SetInode_keeps d d0 N) in Ha; [|done|congruence|exact Hset]. by rewrite Hn1 in Ha.
Qed.

Lemma rename_parents_shows d N D L p q t ps t' :
  shows d N D L → 0 ≤ p → 0 ≤ q → counts_ok N D → atomic d (rename_lookup_parents prefix p q) t (Ok ps, t') →
  t' = t ∧ parents_at N p q ps ∧ parents_counted N p q ps ∧ D q = dir_links (new_parent ps).
Proof.
  intros Hs Hp Hq HD Ha. assert (∀ i y, N i = Some (node_of y) → D i = dir_links y → IsDir y = true → counted N i (nlink (attr y))) as Hcnt.
  { intros i y Hi HDi Hy. rewrite node_dir in Hi by done. destruct (HD i _ Hi) as (k & Hk & Hc). rewrite Hk in HDi. unfold dir_links in HDi. rewrite Hy in HDi. by injection HDi as ->. }
  unfold rename_lookup_parents in Ha. apply atomic_kv_bind in Ha as (x & t1 & Hl & Ha). lookups Hs.
  destruct (Z.eqb_spec q p) as [->|Hne].
  - apply atomic_ret in Ha as [Ha ->]. injection Ha as ->. split; [done|]. split; [by split|]. split; [split; by apply Hcnt|done].
  - apply atomic_kv_bind in Ha as (y & t2 & Hl & Ha). lookups Hs. apply atomic_ret in Ha as [Ha ->]. injection Ha as ->.
    split; [done|]. split; [split; [done|done|]; cbn; split; congruence|]. split; [split; by apply Hcnt|done].
Qed.

(** What a rename finds at its target name. *)
Definition target_at (N : nodes) (D : counts) (L : links) (q : Z) (m : bytes) (target : option SwordFsInode) : Prop :=
  match target with
  | Some x => L q m = Some (ino x) ∧ (N (ino x) = Some (node_of x) ∧ D (ino x) = dir_links x) ∧ inode_record_ok x
  | None => L q m = None
  end.

Lemma lookup_target_shows d N D L q m parent t target t' :
  shows d N D L → directory_at N q parent → atomic d (lookup_target prefix parent m) t (Ok target, t') →
  t' = t ∧ target_at N D L q m target.
Proof.
  intros Hs (<- & Hp & _ & _) Ha. unfold lookup_target in Ha. apply atomic_kv_try in Ha as (r & t1 & Hl & Ha).
  apply (LookupEntryIn_shows d N D L) in Hl as (-> & Hsome & Hnone); [|done|done].
  destruct r as [x|e].
  - apply atomic_ret in Ha as [Ha ->]. injection Ha as ->. by destruct (Hsome _ eq_refl) as (_ & ? & ? & ?).
  - destruct e; try done. apply atomic_ret in Ha as [Ha ->]. injection Ha as ->. by destruct (Hnone eq_refl) as (_ & _ & ?).
Qed.

(** Parents that are stored with the counts they have. *)
Lemma counted_parents N N' p q ps : (∀ x, parent_of N' x = parent_of N x) → parents_counted N p q ps → parents_counted N' p q ps.
Proof. intros E [? ?]. split; by apply (counted_same N). Qed.
Lemma kept_nlink x y : inode_record_ok x → parent_after 0 x y → nlink (attr y) = nlink (attr x).
Proof. intros Hx Hp. rewrite (pf_nlink _ _ _ Hp Hx), Z.add_0_r, wrap_id; [done|done|by apply record_nlink]. Qed.
Lemma kept_counted N p q ps x :
  parents_at N p q ps → parents_counted N p q ps → parent_after 0 (new_parent ps) x → parents_counted N p q (set_new_parent ps x).
Proof.
  intros [(_ & Ho & _) (_ & Hn & _) Hs] [Hco Hcn] Hx. pose proof (kept_nlink _ _ Hn Hx) as E.
  unfold parents_counted, set_new_parent, new_parent, old_parent in *. destruct (same_parent ps) eqn:Es; cbn in *; rewrite E; [|done].
  assert (p = q) as <- by (by apply Hs). done.
Qed.
Lemma kept_counted_old N p q ps x :
  parents_at N p q ps → parents_counted N p q ps → parent_after 0 (old_parent ps) x → parents_counted N p q (set_old_parent ps x).
Proof.
  intros [(_ & Ho & _) (_ & Hn & _) Hs] [Hco Hcn] Hx. pose proof (kept_nlink _ _ Ho Hx) as E.
  unfold parents_counted, set_old_parent, new_parent, old_parent in *. destruct (same_parent ps); cbn in *; rewrite ?E; done.
Qed.
(** A directory leaves the new parent. *)
Lemma left_counted N L p q m c r ps x : tree N L →
  parents_at N p q ps → parents_counted N p q ps → L q m = Some c → N c = Some (Dir r) → parent_after (-1) (new_parent ps) x →
  parents_counted (put N c None) p q (set_new_parent ps x).
Proof.
  intros Ht [(_ & Ho & _) (_ & Hn & _) Hs] [Hco Hcn] HL Hc Hx.
  assert (∀ y, y ≠ c → parent_of (put N c None) y = parent_of N y) as E by (intros; by apply parent_put_other).
  pose proof (parent_child N L Ht _ _ _ _ HL Hc) as Hpc. assert (parent_of (put N c None) c = None) as Hpc'.
  { unfold parent_of, put. case_decide; [done|]. by rewrite decide_True. }
  assert (counted (put N c None) q (nlink (attr x))) as Hq.
  { eapply (after_counted N _ c); [exact E|exact Hn|exact Hx| |exact Hcn]. unfold is_parent. by rewrite Hpc, Hpc', bool_decide_eq_false_2, bool_decide_eq_true_2. }
  unfold parents_counted, set_new_parent, new_parent, old_parent in *. destruct (same_parent ps) eqn:Es; cbn in *.
  - assert (p = q) as <- by (by apply Hs). done.
  - split; [|done]. assert (p ≠ q) as Hpq by (intros <-; by assert (false = true) by (by apply Hs)).
    apply (counted_unmoved N _ c); [exact E|congruence|by rewrite Hpc'|done].
Qed.

(** The state a rename reaches once its target name is free. *)
Record target_freed (N N1 : nodes) (L1 : links) (p q : Z) (n m : bytes) (i : Z) : Prop := {
  tf_tree : tree N1 L1;
  tf_free : L1 q m = None;
  tf_source : L1 p n = Some i ∧ N1 i = N i;
  tf_dirs k r : N1 k = Some (Dir r) → N k = Some (Dir r);
  tf_some k : is_Some (N1 k) → is_Some (N k);
}.

Lemma freed_by_unlink N L p q n m i j k :
  tree N L → L p n = Some i → L q m = Some j → i ≠ j → N j = Some (File k) →
  target_freed N (put N j (Some (File (k - 1)))) (bind_name L q m None) p q n m i.
Proof.
  intros Ht Hi Hj Hne HN. split.
  - by eapply (tree_unlink N L Ht).
  - unfold bind_name. by rewrite decide_True.
  - unfold bind_name, put. rewrite !decide_False by congruence. done.
  - intros x r. unfold put. case_decide; [done|done].
  - intros x. apply put_domain. eauto.
Qed.
Lemma freed_by_rmdir N L p q n m i j r :
  tree N L → L p n = Some i → L q m = Some j → i ≠ j → N j = Some (Dir r) → (∀ m', L j m' = None) →
  target_freed N (put N j None) (bind_name L q m None) p q n m i.
Proof.
  intros Ht Hi Hj Hne HN Hem. split.
  - by eapply (tree_rmdir N L Ht).
  - unfold bind_name. by rewrite decide_True.
  - unfold bind_name, put. rewrite !decide_False by congruence. done.
  - intros x r'. unfold put. case_decide; [done|done].
  - intros x. apply put_domain. eauto.
Qed.

Lemma ReplaceTarget_shows d N D L p q n m ps source target overwrite t r t' :
  shows d N D L → tree N L → counts_ok N D → 0 ≤ q → parents_at N p q ps → parents_counted N p q ps → D q = dir_links (new_parent ps) →
  L p n = Some (ino source) → ino source ≠ q → target_at N D L q m target →
  t = new_txn → atomic d (ReplaceTarget prefix now q m ps source target overwrite) t (Ok r, t') →
  match r with
  | None => t' = t
  | Some (ps', _) => ∃ N1 D1 L1, shows (after t' d) N1 D1 L1 ∧ (parents_at N1 p q ps' ∧ parents_counted N1 p q ps') ∧ (counts_ok N1 D1 ∧ D1 (ino source) = D (ino source)) ∧
      target_freed N N1 L1 p q n m (ino source)
  end.
Proof.
  intros Hs Ht HD Hq Hps Hpc HDq Hsrc Hsq Htg -> Ha. unfold ReplaceTarget in Ha. destruct target as [tg|].
  2: { apply atomic_ret in Ha as [Ha ->]. injection Ha as ->. exists N, D, L. rewrite after_new. split_and!; [done..|]. by split. }
  destruct Htg as (HL & (HN & HDt) & Hrec). apply atomic_kv_bind in Ha as (? & t1 & Hf & Ha). inv_kv.
  destruct (Z.eqb_spec (ino tg) (ino source)) as [E|Hne]; [apply atomic_ret in Ha as [Ha ->]; by injection Ha as ->|].
  pose proof Hps as [_ (Hn1 & Hn2 & Hn3 & Hn4) _]. inv_kv. destruct (IsDir tg) eqn:Hd; inv_kv; subst.
  - rewrite (node_dir tg) in HN by done. assert (ino tg ≠ ino (new_parent ps)) as Hdq by (by eapply (entry_elsewhere N L Ht)).
    match goal with E : atomic _ (RemoveDirectory _ _ _ _ _ _) _ _ |- _ =>
      apply (RemoveDirectory_shows d d N D L) in E as (_ & _ & _ & _ & Hsp & Hem & Hsh); [|done..] end.
    assert (∀ m', L (ino tg) m' = None) as Hem'.
    { intros m'. rewrite <- (sh_links _ _ _ _ Hs). unfold links_at, entry_at. case_decide; [|done]. by rewrite Hem. }
    eexists _, _, _. split; [by apply Hsh|]. split; [split|split; [|by eapply freed_by_rmdir]].
    + eapply parents_set_new; [done|].
      apply (parents_ext N); [..|done]; unfold put; rewrite decide_False; try done. intros ->. by rewrite Hem' in Hsrc.
    + by eapply left_counted.
    + split; [|unfold put; by rewrite !decide_False].
      rewrite (parent_links (-1) (new_parent ps)) by done. eapply (counts_rmdir N L Ht); [done..| |done]. rewrite HDq. unfold dir_links. by rewrite Hn3.
  - match goal with E : atomic _ (let '(_, _) := ?x in _) _ _ |- _ => destruct x as [np tg']; apply atomic_ret in E as [E ->]; injection E as -> end.
    rewrite (node_file tg) in HN by done. assert (D (ino tg) = None) as HDn by (rewrite HDt; unfold dir_links; by rewrite Hd).
    match goal with E : atomic _ (UnlinkFile _ _ _ _ _ _) _ _ |- _ =>
      apply (UnlinkFile_shows d d N D L) in E as (_ & _ & _ & Hsp & Hsh); [|done..] end.
    eexists _, _, _. split; [by apply Hsh|]. split; [split|split; [|by eapply freed_by_unlink]].
    + eapply parents_set_new; [done|].
      pose proof (tree_entry _ _ Ht _ _ _ Hsrc) as [_ [p0 Hp0]]. rewrite node_dir in Hn4 by done.
      apply (parents_ext N); [..|done]; unfold put; rewrite decide_False; congruence.
    + apply (counted_parents N); [|by apply (kept_counted N)]. intros z. unfold parent_of, put. case_decide; [done|]. case_decide as E; [subst; by rewrite HN|done].
    + split; [|done]. eapply counts_put_file; [done|eauto|done].
Qed.

Lemma below_fewer N N1 a x : (∀ k r, N1 k = Some (Dir r) → N k = Some (Dir r)) → below N1 a x → below N a x.
Proof. intros Hf. induction 1 as [|x p Hx _ IH]; [constructor|]. apply (below_up _ _ x p); auto. Qed.

(** A node that moved to another parent. *)
Lemma node_moved q x : Some (node_of (Touch now kCtime (set_parent_ino q x))) = adopt q (Some (node_of x)).
Proof. rewrite node_Touch. unfold node_of, IsDir. cbn. by destruct (S_ISDIR _). Qed.

Lemma links_moved q x : dir_links (Touch now kCtime (set_parent_ino q x)) = dir_links x.
Proof. by rewrite dir_links_Touch. Qed.

Lemma move_shows d d0 N1 D1 L1 p q n m ps ps' source t t1 t2 t3 op np u v t' :
  shows (after t d0) N1 D1 L1 → 0 ≤ p → 0 ≤ q → name_ok m → inode_record_ok source →
  parents_at N1 p q ps → N1 (ino source) = Some (node_of source) → L1 p n = Some (ino source) → L1 q m = None →
  atomic d (DetachEntry prefix now p n source (old_parent ps)) t (Ok op, t1) →
  atomic d (LinkEntry prefix now q m source (new_parent (set_old_parent ps op))) t1 (Ok np, t2) →
  ps' = set_new_parent (set_old_parent ps op) np →
  atomic d (store_parents prefix ps') t2 (Ok u, t3) →
  atomic d (SetInode prefix (Touch now kCtime (set_parent_ino q source))) t3 (Ok v, t') →
  in_range 64 q →
  parent_after (if IsDir source then -1 else 0) (old_parent ps) op ∧
  parent_after (if IsDir source then 1 else 0) (new_parent (set_old_parent ps op)) np ∧ parents_at N1 p q ps' ∧
  shows (after t' d0) (swap_nodes N1 p q (ino source) (L1 q m)) (put (stored D1 p q ps') (ino source) (dir_links source)) (swap_names L1 p n q m).
Proof.
  intros Hs Hp Hq Hm Hrec Hps HN HL HLq Hdet Hlink -> Hst Hset Hq64.
  apply (DetachEntry_shows d d0 N1 D1 L1) in Hdet as (_ & Hsp & Hdet); [|done]. specialize (Hdet Hs).
  apply (parents_set_old _ _ _ _ _ _ Hsp) in Hps.
  eapply (LinkEntry_shows d d0 N1) in Hlink as (_ & Hsp2 & Hlink); [|done..]. specialize (Hlink Hdet).
  apply (parents_set_new _ _ _ _ _ _ Hsp2) in Hps. eapply store_parents_shows in Hst; [|exact Hps|exact Hlink].
  eapply (SetInode_shows d d0) in Hset; [|by apply record_ok_Touch, record_ok_parent|exact Hst].
  rewrite node_moved, links_moved, ino_Touch in Hset. cbn [ino set_parent_ino] in Hset. split_and!; [done..|].
  eapply shows_ext; [|by intros ?| |exact Hset].
  - intros k. unfold put, swap_nodes. rewrite HLq. repeat case_decide; try done. subst k. by rewrite HN.
  - intros a b. unfold swap_names, bind_name. rewrite HLq, HL. done.
Qed.

(** The parent of a moved entry before and after, seen from the counts. *)
Lemma source_parent N L p n x : tree N L → L p n = Some (ino x) → N (ino x) = Some (node_of x) →
  parent_of N (ino x) = if IsDir x then Some p else None.
Proof.
  intros Ht HL HN. unfold node_of in HN. destruct (IsDir x); [by eapply (parent_child N L Ht)|]. unfold parent_of. case_decide; [done|]. by rewrite HN.
Qed.
Lemma adopted_parent N x q : x ≠ kRootInodeId → ∀ y, N x = Some (node_of y) → ∀ N', N' x = adopt q (N x) → parent_of N' x = if IsDir y then Some q else None.
Proof. intros Hx y HN N' E. unfold parent_of. rewrite decide_False, E, HN by done. unfold node_of. by destruct (IsDir y). Qed.
Lemma moved_counts N D L p q n m ps op np source :
  tree N L → counts_ok N D → parents_at N p q ps → parents_counted N p q ps → L p n = Some (ino source) →
  N (ino source) = Some (node_of source) → D (ino source) = dir_links source → ino source ≠ q → L q m = None →
  parent_after (if IsDir source then -1 else 0) (old_parent ps) op →
  parent_after (if IsDir source then 1 else 0) (new_parent (set_old_parent ps op)) np →
  counts_ok (swap_nodes N p q (ino source) (L q m)) (put (stored D p q (set_new_parent (set_old_parent ps op) np)) (ino source) (dir_links source)).
Proof.
  intros Ht HD Hps Hpc HL HN HDs Hsq HLq Hop Hnp. set (N' := swap_nodes _ _ _ _ _). pose proof (entry_not_root _ _ Ht _ _ _ HL) as Hroot.
  assert (ino source ≠ p) as Hsp.
  { intros E. destruct (pa_old _ _ _ _ Hps) as (_ & _ & Hod & HNp). rewrite node_dir in HNp by done. rewrite <- E in HNp. by destruct (entry_elsewhere N L Ht _ _ _ _ HL HNp). }
  assert (∀ x, x ≠ ino source → N' x = N x) as Hsame by (intros x Hx; unfold N', swap_nodes; by rewrite HLq, !decide_False).
  assert (N' (ino source) = adopt q (N (ino source))) as Hmoved by (unfold N', swap_nodes; by rewrite decide_True).
  assert (∀ x, x ≠ ino source → parent_of N' x = parent_of N x) as E by (intros x Hx; unfold parent_of; by rewrite Hsame).
  pose proof (source_parent _ _ _ _ _ Ht HL HN) as Hc. pose proof (adopted_parent N _ q Hroot source HN N' Hmoved) as Hc'.
  pose proof (moved_counted N N' p q ps op np (IsDir source) (ino source) E Hc Hc' Hps Hpc Hop Hnp) as Hpc'.
  pose proof (parents_set_new _ _ _ _ _ _ Hnp (parents_set_old _ _ _ _ _ _ Hop Hps)) as Hps'.
  apply (parents_ext N N') in Hps'; [|by apply Hsame..].
  assert (∀ i, D i = put D (ino source) (dir_links source) i) as ED by (intros i; by rewrite put_same).
  assert (counts_ok N' (stored D p q (set_new_parent (set_old_parent ps op) np))) as Hst.
  { apply counts_stored; [done|done|]. intros i r Hi Hip Hiq.
    assert (∃ r0, N i = Some (Dir r0)) as [r0 Hr0].
    { destruct (decide (i = ino source)) as [->|Hne]; [|rewrite <- Hsame; eauto]. rewrite Hmoved in Hi. destruct (N (ino source)) as [[]|]; naive_solver. }
    destruct (HD i r0 Hr0) as (k & Hk & Hcnt). exists k. split; [done|]. apply (counted_unmoved N N' (ino source)); [done|rewrite Hc|rewrite Hc'|done]; destruct (IsDir source); congruence. }
  intros i r Hi. destruct (Hst i r Hi) as (k & Hk & Hcnt). exists k. split; [|done]. unfold put at 1. case_decide as Ei; [|done]. subst i.
  rewrite <- HDs. unfold stored, put in Hk. by rewrite !decide_False in Hk.
Qed.

Lemma MoveEntry_evolves d N D L fuel p n q m ps source target overwrite r t' :
  shows d N D L → tree N L → counts_ok N D → 0 ≤ p → 0 ≤ q → in_range 64 q → name_ok m → inode_record_ok source →
  parents_at N p q ps → parents_counted N p q ps → D q = dir_links (new_parent ps) →
  N (ino source) = Some (node_of source) → D (ino source) = dir_links source → L p n = Some (ino source) → target_at N D L q m target →
  atomic d (MoveEntry prefix now fuel p n q m ps source target overwrite) new_txn (Ok r, t') →
  ∃ N' D' L', shows (after t' d) N' D' L' ∧ (tree N' L' ∧ counts_ok N' D') ∧ ∀ i, is_Some (N' i) → is_Some (N i) ∨ None = Some i.
Proof.
  intros Hs Ht HD Hp Hq Hq64 Hm Hrec Hps Hpc HDq HN HDs HL Htg Ha. unfold MoveEntry, check_parents in Ha.
  apply atomic_kv_bind in Ha as (? & ? & Hck & Ha). inv_kv.
  match goal with E : atomic _ (check_no_cycle _ _ _ _) _ _ |- _ =>
    eapply check_no_cycle_shows in E as [-> Hcyc]; [|done..] end.
  assert (ino source ≠ q) as Hsq.
  { intros Eq. destruct (pa_new _ _ _ _ Hps) as (_ & _ & Hnd & HNq). rewrite node_dir in HNq by done. rewrite <- Eq, HN in HNq. injection HNq as HNq.
    apply (Hcyc _ HNq). rewrite <- Eq. constructor. }
  match goal with E : atomic _ (ReplaceTarget _ _ _ _ _ _ _ _) _ (Ok ?o, _) |- _ =>
    eapply (ReplaceTarget_shows d N D L) in E; [|done..]; rename E into Hrt; destruct o as [[ps1 tg1]|] end.
  2: { inv_kv. subst. exists N, D, L. rewrite after_new. auto. }
  destruct Hrt as (N1 & D1 & L1 & Hs1 & [Hps1 Hpc1] & [HD1 HDs1] & [Ht1 Hfree [HL1 HN1] Hdirs Hsome]). inv_kv.
  match goal with D : atomic _ (DetachEntry _ _ _ _ _ _) _ _, K : atomic _ (LinkEntry _ _ _ _ _ _) _ _,
    S : atomic _ (store_parents _ _) _ _, I : atomic _ (SetInode _ _) _ _ |- _ =>
    pose proof (move_shows _ _ _ _ _ _ _ _ _ _ _ _ _ _ _ _ _ _ _ _ _ Hs1 Hp Hq Hm Hrec Hps1 (eq_trans HN1 HN) HL1 Hfree D K eq_refl S I Hq64) as (Hop & Hnp & Hps' & Hs') end.
  eexists _, _, _. split; [exact Hs'|]. destruct (pa_new _ _ _ _ Hps1) as (_ & _ & Hnd & HNq). rewrite node_dir in HNq by done. split; [split|].
  - eapply tree_swap; [done|done|by rewrite Hfree|done| |by rewrite Hfree].
    intros r' Hr Hb. rewrite HN1, HN in Hr. injection Hr as Hr. eapply Hcyc; [done|]. by eapply below_fewer.
  - eapply (moved_counts N1 D1 L1); [done..|by rewrite HN1|congruence|done|done|done|done].
  - intros k Hk. left. apply Hsome. by eapply swap_some.
Qed.

Lemma AdjustNlink_after x δ y : IsDir x = true → AdjustNlink x δ = Ok y → parent_after δ x y.
Proof.
  intros Hd E. unfold AdjustNlink in E. destruct (δ <? 0) eqn:Hδ; inv_result; zify_bools; subst y.
  - split; [done|by apply node_nlink_dir|done|intros Hx; pose proof (record_nlink x Hx); apply record_ok_nlink; [|done]; unfold in_range in *; lia|].
    intros Hx. pose proof (record_nlink x Hx). cbn. rewrite wrap_id; [done|done|]. unfold in_range in *. lia.
  - split; [done|by apply node_nlink_dir|done|intros Hx; apply record_ok_nlink; [by apply wrap_range|done]|done].
Qed.

Lemma exchange_nlinks_parents N p q ps source target ps' :
  parents_at N p q ps → exchange_nlinks ps source target = Ok ps' → parents_at N p q ps'.
Proof.
  intros Hps E. unfold exchange_nlinks in E. destruct (same_parent ps) eqn:Hsp; [by injection E as <-|].
  case_match; [by injection E as <-|]. pose proof (pa_old _ _ _ _ Hps) as (_ & _ & Hod & _). pose proof (pa_new _ _ _ _ Hps) as (_ & _ & Hnd & _).
  apply bind_Ok in E as (op & Eo & E). apply bind_Ok in E as (np & En & E). injection E as <-.
  apply AdjustNlink_after in Eo; [|done]. apply AdjustNlink_after in En; [|done].
  eapply parents_set_new; [unfold new_parent in *; cbn; by rewrite Hsp in *|]. by eapply parents_set_old.
Qed.

(** Two entries change places. *)
Section Exchange.
Context (N : nodes) (L : links) (Ht : tree N L) (p q : Z) (n m : bytes) (source target : SwordFsInode).
Hypothesis HL : L p n = Some (ino source).
Hypothesis HLt : L q m = Some (ino target).
Hypothesis HN : N (ino source) = Some (node_of source).
Hypothesis HNt : N (ino target) = Some (node_of target).
Hypothesis Hne : ino source ≠ ino target.
Let N' := swap_nodes N p q (ino source) (L q m).
Let δ : Z := Z.b2z (IsDir target) - Z.b2z (IsDir source).

Lemma swapped_counted i k : counted N i k → counted N' i (u64 (k + δ * (Z.b2z (bool_decide (p = i)) - Z.b2z (bool_decide (q = i))))).
Proof.
  intros Hk. set (Nm := put N (ino source) (adopt q (N (ino source)))).
  pose proof (entry_not_root _ _ Ht _ _ _ HL) as Hr. pose proof (entry_not_root _ _ Ht _ _ _ HLt) as Hrt.
  assert (∀ x, x ≠ ino source → Nm x = N x) as E1 by (intros x Hx; unfold Nm, put; by rewrite decide_False).
  assert (∀ x, x ≠ ino target → N' x = Nm x) as E2.
  { intros x Hx. unfold N', swap_nodes, Nm, put. rewrite HLt. case_decide; [by subst|]. rewrite decide_False; [done|congruence]. }
  assert (Nm (ino source) = adopt q (N (ino source))) as Es by (unfold Nm, put; by rewrite decide_True).
  assert (N' (ino target) = adopt p (N (ino target))) as Et by (unfold N', swap_nodes; rewrite HLt, decide_False, decide_True by done; done).
  assert (parent_of N (ino source) = if IsDir source then Some p else None) as P1 by (by eapply source_parent).
  assert (parent_of Nm (ino source) = if IsDir source then Some q else None) as P2 by (by eapply (adopted_parent N)).
  assert (parent_of Nm (ino target) = if IsDir target then Some q else None) as P3.
  { transitivity (parent_of N (ino target)); [unfold parent_of; by rewrite E1|by eapply source_parent]. }
  assert (parent_of N' (ino target) = if IsDir target then Some p else None) as P4 by (by eapply (adopted_parent N)).
  pose proof (counted_move N Nm (ino source) i k ltac:(intros x Hx; unfold parent_of; by rewrite E1) Hk) as K1.
  pose proof (counted_move Nm N' (ino target) i _ ltac:(intros x Hx; unfold parent_of; by rewrite E2) K1) as K2.
  rewrite (is_parent_dir _ _ _ i _ P1), (is_parent_dir _ _ _ i _ P2), (is_parent_dir _ _ _ i _ P3), (is_parent_dir _ _ _ i _ P4) in K2.
  rewrite <- Z.add_sub_assoc, u64_add in K2. match type of K2 with counted _ _ (u64 ?a) => match goal with |- counted _ _ (u64 ?b) => replace b with a; [exact K2|] end end.
  unfold δ. destruct (IsDir source), (IsDir target); cbn [Z.b2z]; lia.
Qed.

Lemma exchanged_counted ps ps' :
  parents_at N p q ps → parents_counted N p q ps → exchange_nlinks ps source target = Ok ps' → parents_counted N' p q ps'.
Proof.
  intros Hps [Ho Hn] E. pose proof Hps as [(_ & Hor & Hod & _) (_ & Hnr & Hnd & _) Hsame].
  pose proof (swapped_counted p _ Ho) as Ho'. pose proof (swapped_counted q _ Hn) as Hn'.
  assert (∀ x, inode_record_ok x → u64 (nlink (attr x) + 0) = nlink (attr x)) as K0 by (intros x Hx; rewrite Z.add_0_r, wrap_id; [done|done|by apply record_nlink]).
  unfold exchange_nlinks in E. destruct (same_parent ps) eqn:Es.
  - injection E as <-. assert (p = q) as <- by (by apply Hsame). rewrite Z.sub_diag, Z.mul_0_r, K0 in Ho', Hn' by done. done.
  - assert (p ≠ q) as Hpq by (intros <-; by assert (false = true) by (by apply Hsame)). rewrite bool_decide_eq_true_2, bool_decide_eq_false_2 in Ho' by congruence.
    rewrite bool_decide_eq_false_2, bool_decide_eq_true_2 in Hn' by congruence. cbn [Z.b2z] in Ho', Hn'. fold δ in E. destruct (Z.eqb_spec δ 0) as [Ez|_].
    + injection E as <-. rewrite Ez, Z.mul_0_l, K0 in Ho', Hn' by done. done.
    + apply bind_Ok in E as (op & Eo & E). apply bind_Ok in E as (np & En & E). injection E as <-.
      apply AdjustNlink_after in Eo; [|done]. apply AdjustNlink_after in En; [|done].
      unfold parents_counted, set_new_parent, set_old_parent, new_parent, old_parent in *. rewrite Es in *. cbn in *.
      rewrite (pf_nlink _ _ _ Eo Hor), (pf_nlink _ _ _ En Hnr). split; [eapply counted_eq; [exact Ho'|lia]|eapply counted_eq; [exact Hn'|lia]].
Qed.
Lemma exchanged_rest D i r : counts_ok N D → N' i = Some (Dir r) → i ≠ p → i ≠ q → ∃ k, D i = Some k ∧ counted N' i k.
Proof.
  intros HD Hi Hip Hiq. assert (∃ r0, N i = Some (Dir r0)) as [r0 Hr0].
  { unfold N', swap_nodes, adopt in Hi. repeat case_decide; destruct (N i) as [[]|]; naive_solver. }
  destruct (HD i r0 Hr0) as (k & Hk & Hc). exists k. split; [done|]. pose proof (swapped_counted i k Hc) as Hm. rewrite !bool_decide_eq_false_2 in Hm by congruence.
  cbn [Z.b2z] in Hm. rewrite Z.sub_diag, Z.mul_0_r, Z.add_0_r, wrap_id in Hm; [done|done|by eapply counted_range].
Qed.
End Exchange.

Lemma ExchangeEntries_evolves d N D L fuel p n q m ps source target r t' :
  shows d N D L → tree N L → counts_ok N D → 0 ≤ p → 0 ≤ q → in_range 64 p → in_range 64 q → name_ok n → name_ok m → inode_record_ok source →
  parents_at N p q ps → parents_counted N p q ps → N (ino source) = Some (node_of source) → D (ino source) = dir_links source →
  L p n = Some (ino source) → target_at N D L q m (Some target) →
  atomic d (ExchangeEntries prefix now fuel p n q m ps source target) new_txn (Ok r, t') →
  ∃ N' D' L', shows (after t' d) N' D' L' ∧ (tree N' L' ∧ counts_ok N' D') ∧ ∀ i, is_Some (N' i) → is_Some (N i) ∨ None = Some i.
Proof.
  intros Hs Ht HD Hp Hq Hp64 Hq64 Hn Hm Hrec Hps Hpc HN HDs HL (HLt & (HNt & HDt) & Hrect) Ha. unfold ExchangeEntries, check_parents in Ha.
  apply atomic_kv_bind in Ha as (? & ? & Hck & Ha). inv_kv.
  destruct (Z.eqb_spec (ino source) (ino target)) as [E|Hne]; [inv_kv; subst; exists N, D, L; rewrite after_new; auto|]. inv_kv.
  match goal with E : atomic _ (check_no_cycle _ _ source _) _ _ |- _ => eapply check_no_cycle_shows in E as [-> Hcyc]; [|done..] end.
  match goal with E : atomic _ (check_no_cycle _ _ target _) _ _ |- _ => eapply check_no_cycle_shows in E as [-> Hcyc']; [|done..] end.
  match goal with E : exchange_nlinks _ _ _ = Ok ?x |- _ => pose proof (exchanged_counted N L Ht p q n m source target HL HLt HN HNt Hne _ _ Hps Hpc E) as Hpc1;
    apply (exchange_nlinks_parents N p q) in E; [|done]; rename E into Hps1; rename x into ps1 end.
  assert (∀ x, N (ino x) = Some (node_of x) → (∀ r, node_of x = Dir r → ¬ below N (ino x) p) → ino x ≠ p) as Hnp.
  { intros z Hx Hc E. destruct (pa_old _ _ _ _ Hps) as (_ & _ & Hod & HNp). rewrite node_dir in HNp by done. rewrite <- E, Hx in HNp. injection HNp as HNp. apply (Hc _ HNp). rewrite <- E. constructor. }
  assert (∀ x, N (ino x) = Some (node_of x) → (∀ r, node_of x = Dir r → ¬ below N (ino x) q) → ino x ≠ q) as Hnq.
  { intros z Hx Hc E. destruct (pa_new _ _ _ _ Hps) as (_ & _ & Hod & HNp). rewrite node_dir in HNp by done. rewrite <- E, Hx in HNp. injection HNp as HNp. apply (Hc _ HNp). rewrite <- E. constructor. }
  assert (∀ x a b, L a b = Some (ino x) → N (ino x) = Some (node_of x) → ∀ r, node_of x = Dir r → ¬ below N (ino x) a) as Hown.
  { intros z a b Hl Hx r' Hr. rewrite Hr in Hx. assert (a = r') as -> by (by eapply (dir_entry _ _ Ht)).
    apply (no_cycle _ _ Ht); [by eapply Ht|by eapply (entry_not_root _ _ Ht)|done]. }
  pose proof (Hnp source HN (Hown _ _ _ HL HN)) as Hsp0. pose proof (Hnq source HN Hcyc) as Hsq0.
  pose proof (Hnp target HNt Hcyc') as Htp0. pose proof (Hnq target HNt (Hown _ _ _ HLt HNt)) as Htq0.
  assert (∀ x, x ≠ ino source → x ≠ ino target → swap_nodes N p q (ino source) (L q m) x = N x) as Hunch
    by (intros z Hz1 Hz2; unfold swap_nodes; rewrite HLt, !decide_False; [done|congruence|done]).
  apply (parents_ext N (swap_nodes N p q (ino source) (L q m))) in Hps1 as Hps2; [|by apply Hunch..].
  match goal with E : atomic _ (ReplaceEntry _ _ p _ _ _) _ _, E2 : atomic _ (ReplaceEntry _ _ q m _ _) _ _ |- _ =>
    apply (ReplaceEntry_shows d d N D L) in E as (_ & Hsp & Hsh1); [|done..]; specialize (Hsh1 Hs);
    eapply (ReplaceEntry_shows d d N) in E2 as (_ & Hsp2 & Hsh2); [|done..]; specialize (Hsh2 Hsh1) end.
  pose proof (kept_counted_old _ _ _ _ _ Hps2 Hpc1 Hsp) as Hpc3. pose proof (parents_set_old _ _ _ _ _ _ Hsp Hps2) as Hps3.
  pose proof (kept_counted _ _ _ _ _ Hps3 Hpc3 Hsp2) as Hpc4. pose proof (parents_set_new _ _ _ _ _ _ Hsp2 Hps3) as Hps4.
  pose proof (parents_set_new _ _ _ _ _ _ Hsp2 (parents_set_old _ _ _ _ _ _ Hsp Hps1)) as Hps5.
  match goal with E : atomic _ (store_parents _ _) _ _ |- _ => eapply (store_parents_shows d d) in E; [|exact Hps5|exact Hsh2]; rename E into Hst end.
  match goal with E : atomic _ (SetInode _ (Touch _ _ (set_parent_ino q source))) _ _ |- _ =>
    eapply (SetInode_shows d d) in E; [|by apply record_ok_Touch, record_ok_parent|exact Hst]; rename E into Hset1 end.
  match goal with E : atomic _ (SetInode _ (Touch _ _ (set_parent_ino p target))) _ _ |- _ =>
    eapply (SetInode_shows d d) in E; [|by apply record_ok_Touch, record_ok_parent|exact Hset1]; rename E into Hset2 end.
  rewrite !node_moved, !links_moved, !ino_Touch in Hset2. cbn [ino set_parent_ino] in Hset2.
  set (psF := set_new_parent _ _) in *.
  exists (swap_nodes N p q (ino source) (L q m)), (stored D p q psF), (swap_names L p n q m). split; [|split; [split|]].
  - eapply shows_ext; [| | |exact Hset2].
    + intros k. unfold put, swap_nodes. rewrite HLt. repeat case_decide; simplify_eq; try done; congruence.
    + intros k. unfold put at 1. case_decide as E1; [|unfold put at 1; case_decide as E2; [|done]].
      * rewrite E1, <- HDt. unfold stored, put. by rewrite !decide_False.
      * rewrite E2, <- HDs. unfold stored, put. by rewrite !decide_False.
    + intros a b. unfold swap_names, bind_name. by rewrite HLt, HL.
  - destruct (pa_new _ _ _ _ Hps) as (_ & _ & Hnd & HNq). rewrite node_dir in HNq by done.
    eapply tree_swap; [done|done|rewrite HLt; congruence|done|..].
    + intros r' Hr. rewrite HN in Hr. injection Hr as Hr. by eapply Hcyc.
    + intros j r' Hj Hr. rewrite HLt in Hj. injection Hj as <-. rewrite HNt in Hr. injection Hr as Hr. by eapply Hcyc'.
  - apply counts_stored; [done|done|]. intros i r' Hi Hip Hiq. by eapply (exchanged_rest N L Ht p q n m source target).
  - intros k Hk. left. by eapply swap_some.
Qed.

Lemma Rename_evolves ctx fuel p n q m flags d d' :
  in_range 64 p → in_range 64 q → commits (Rename prefix now fuel ctx p n q m flags) d tt d' → evolves d d' None.
Proof.
  intros Hp Hq (t & Ha & ->)%commits_after N D L Hs Ht HD. unfold Rename, discard in Ha. pose proof (proj1 Hp) as Hp0. pose proof (proj1 Hq) as Hq0.
  inv_kv. repeat match goal with E : ValidateNameComponent _ = OK |- _ => apply ValidateName_ok in E end.
  match goal with E : atomic _ (rename_lookup_parents _ _ _) _ _ |- _ => eapply rename_parents_shows in E as (-> & Hps & Hpc & HDq); [|done..] end.
  pose proof (pa_old _ _ _ _ Hps) as (Hoi & Hor & _). lookups Hs. rewrite Hoi in *.
  match goal with E : atomic _ (lookup_target _ _ _) _ (Ok ?o, _) |- _ =>
    eapply (lookup_target_shows d N D L) in E as [-> Htg]; [|done|by apply (pa_new _ _ _ _ Hps)]; rename o into target end.
  destruct target as [target|].
  - destruct (ino target =? _); inv_kv; [exists N, D, L; rewrite after_new; auto|].
    case_match; inv_kv; [eapply ExchangeEntries_evolves; [..|eassumption]; done|eapply MoveEntry_evolves; [..|eassumption]; done].
  - inv_kv. eapply MoveEntry_evolves; [..|eassumption]; done.
Qed.

End Views.
