(* ===== verification/VolumeTree.v ===== *)
(** * Every operation keeps the volume a tree

    The operations that rewrite an inode in place (attributes, extended attributes, file
    data) keep its place in the tree; reclaim removes inodes without names.  The last part
    composes them with the namespace operations of NamespaceEffects.v: whatever mounts do,
    in whatever order their transactions commit, the volume stays a tree with exact link
    counts. *)

From S2P Require Import Prelude RedisKv Decimal StdMap ChunkGeometry InodeTypes Acl InodeOps Codec Records RedisKey ChunkMeta MetaTxn MetaEffects MetaEngine Namespace NamespaceEffects.

(** ** Inodes rewritten in place *)
Lemma map_assign_present (k v v' : bytes) m : map_sorted m → map_find k m = Some v' → zlen (map_assign k v m) = zlen m.
Proof.
  induction m as [|[k1 v1] m IH]; cbn; [done|]. intros [Hf Hs]%sorted_cons. destruct (key_eqb k k1) eqn:E.
  - apply key_eqb_eq in E as ->. rewrite key_ltb_irrefl. intros _. by rewrite !zlen_cons.
  - intros Hm. destruct (key_ltb k k1) eqn:E1; [|destruct (key_ltb k1 k) eqn:E2].
    + exfalso. rewrite find_before in Hm; [done|]. eapply Forall_impl; [exact Hf|]. intros x Hx. by eapply key_ltb_trans.
    + rewrite !zlen_cons, IH by done. done.
    + by rewrite !zlen_cons.
Qed.

Lemma name_bytes_zlen x : zlen x ≤ name_bytes x.
Proof.
  induction x as [|e x IH]; [done|]. rewrite name_bytes_cons, zlen_cons. pose proof (zlen_nonneg e.1). lia.
Qed.

Lemma same_parent_set k v x :
  k ≠ [] → string_ok k → string_ok v → (map_find k (xattrs x) = None → list_bytes k (xattrs x) ≤ kMaxXAttrListSize) →
  same_parent_as x (set_xattrs (map_assign k v (xattrs x)) x).
Proof.
  intros Hk Hks Hvs Hl. split; [done|done|done|done|]. intros [Hi Ha Hpa Ht Hc Hs Hx]. constructor; cbn; try done.
  - destruct (map_find k (xattrs x)) eqn:Hf; [by erewrite map_assign_present|]. rewrite map_assign_zlen by done.
    specialize (Hl eq_refl). rewrite list_bytes_spec in Hl. pose proof (name_bytes_zlen (xattrs x)). pose proof (zlen_nonneg (xattrs x)).
    pose proof (zlen_nonneg k). unfold in_range, kMaxXAttrListSize in *. lia.
  - by apply map_assign_sorted.
  - by apply map_assign_Forall.
Qed.

Lemma same_parent_erase k x : same_parent_as x (set_xattrs (map_erase k (xattrs x)) x).
Proof.
  split; [done|done|done|done|]. intros [Hi Ha Hpa Ht Hc Hs Hx]. constructor; cbn; try done.
  - assert (zlen (map_erase k (xattrs x)) ≤ zlen (xattrs x)) as Hle.
    { clear. induction (xattrs x) as [|[k1 v1] m IH]; cbn; [done|]. case_match; rewrite ?zlen_cons; lia. }
    pose proof (zlen_nonneg (map_erase k (xattrs x))). unfold in_range in *. lia.
  - by apply map_erase_sorted.
  - by apply map_erase_Forall.
Qed.

Lemma same_parent_Touch now f x : in_range_signed 64 now → same_parent_as x (Touch now f x).
Proof. intros Hn. split; [done|by rewrite node_Touch|by rewrite IsDir_Touch|apply nlink_Touch|]. intros Hx. by apply record_ok_Touch. Qed.

Lemma same_parent_attr a x :
  Z.land (mode a) S_IFMT = Z.land (mode (attr x)) S_IFMT → nlink a = nlink (attr x) → attr_ino a = attr_ino (attr x) →
  (attr_ok (attr x) → attr_ok a) → same_parent_as x (set_attr a x).
Proof.
  intros Hm Hn Hi Ha. assert (IsDir (set_attr a x) = IsDir x) as Hd by (unfold IsDir, S_ISDIR; cbn; by rewrite Hm).
  split; [done|unfold node_of; rewrite Hd; cbn; by rewrite Hn|done|done|]. intros [Hxi [Hxa Hxe] ? ? ? ? ?].
  constructor; cbn; try done. split; [auto|congruence].
Qed.

Lemma bounded_string s n : zlen s ≤ n → n < 2 ^ 64 → string_ok s.
Proof. intros. pose proof (zlen_nonneg s). unfold string_ok, in_range. lia. Qed.

Lemma SetXAttr_same now x name value m y :
  in_range_signed 64 now → map_sorted (xattrs x) → SetXAttr now x name value m = Ok y → same_parent_as x y.
Proof.
  intros Hn Hs E. unfold SetXAttr in E. destruct (IsPosixAclXAttrName name) eqn:Hacl.
  - unfold SetPosixAclXAttr in E. inv_result. subst y. eapply same_parent_trans; [|by apply same_parent_Touch].
    pose proof (acl_name_limits _ Hacl) as [Hl1 Hl2].
    match goal with E : Parse _ = Ok ?a |- _ => rename a into acl; apply Parse_iff in E as (-> & Hv & _) end.
    rewrite Z.gtb_ltb in *. zify_bools.
    assert (bool_decide (name = kPosixAclDefaultXAttr) || negb (IsMinimal acl) = true → ∀ z, xattrs z = xattrs x →
      same_parent_as z (set_xattrs (map_assign name (Serialize acl) (xattrs z)) z)) as Hset.
    { intros Hb z Hz. rewrite Hb in *. inv_result. apply same_parent_set.
      - by intros ->.
      - by eapply bounded_string.
      - by eapply bounded_string.
      - rewrite Hz. by apply CheckInsertListSize_OK. }
    destruct (decide (name = kPosixAclAccessXAttr)) as [Hna|Hna].
    + rewrite (bool_decide_eq_true_2 _ Hna). eapply same_parent_trans; [apply same_parent_permissions, (PermissionsMode_bits _ Hv)|].
      destruct (IsMinimal acl); [exact (same_parent_erase name (set_attr _ x))|].
      apply (Hset ltac:(by rewrite orb_true_r) (set_attr _ x)). done.
    + rewrite (bool_decide_eq_false_2 _ Hna). apply Hset; [|done]. unfold IsPosixAclXAttrName in Hacl.
      rewrite (bool_decide_eq_false_2 _ Hna) in Hacl. cbn [orb] in Hacl. by rewrite Hacl.
  - inv_result. rewrite ?Z.gtb_ltb in *. zify_bools. subst y. eapply same_parent_trans; [|by apply same_parent_Touch].
    assert (same_parent_as x (set_xattrs (map_assign name value (xattrs x)) x)) as Hset.
    { apply same_parent_set; [by intros ->|by eapply bounded_string|by eapply bounded_string|]. intros Hf. rewrite Hf in *.
      inv_result. rewrite ?Z.gtb_ltb in *. zify_bools. done. }
    destruct (map_find name (xattrs x)) eqn:Hf; [done|]. by rewrite map_emplace_absent.
Qed.

Lemma RemoveXAttr_same now x name y : in_range_signed 64 now → RemoveXAttr now x name = Ok y → same_parent_as x y.
Proof.
  intros Hn E. unfold RemoveXAttr, RemovePosixAclXAttr in E. case_match; inv_result; case_match; inv_result; subst y;
    (eapply same_parent_trans; [apply same_parent_erase|by apply same_parent_Touch]).
Qed.

Lemma Sync_same x m y : inode_record_ok x → SyncPosixAccessAclForMode x m = Ok y → same_parent_as x y.
Proof.
  intros Hx E. unfold SyncPosixAccessAclForMode in E.
  destruct (map_find kPosixAclAccessXAttr (xattrs x)) as [v|] eqn:Hf; [|injection E as <-; apply same_parent_refl].
  unfold ParseStoredAcl in E. destruct (Parse v) as [acl|] eqn:Hp; [|done]. cbn [mbind result_bind] in E. injection E as <-.
  apply Parse_iff in Hp as (-> & _). destruct (map_find_Forall _ _ _ _ (ir_xattrs _ Hx) Hf) as (? & _ & _ & Hsv). cbn in Hsv.
  apply same_parent_set; [done|done| |by rewrite Hf]. unfold string_ok in *. by rewrite zlen_Serialize, zlen_ApplyMode, <- zlen_Serialize.
Qed.

(** The attributes of a request: values of their C++ types, with nanoseconds below a second.  The
    kernel sends no others; [RedisMetaTxn::SetAttr] stores the nanoseconds unchecked, and a
    record with larger ones could not be parsed again. *)
Definition requested_ok (r : SwordFsAttr) : Prop := attr_ok (set_inode_flags 0 r).

Section Requested.
Context (now : Z) (Hnow : in_range_signed 64 now) (r : SwordFsAttr) (Hr : requested_ok r).

Lemma attr_ok_when b f a : (attr_ok a → attr_ok (f a)) → attr_ok a → attr_ok (when b f a).
Proof. destruct b; cbn; auto. Qed.

Lemma mode_bits_range m m' : in_range 32 m → in_range 32 (Z.lor (Z.land m S_IFMT) (Z.land m' 4095)).
Proof.
  intros Hm. apply lor_range; [done| |].
  - rewrite Z.land_comm. change S_IFMT with (Z.land S_IFMT (Z.ones 16)). rewrite <- Z.land_assoc, (Z.land_comm _ m), Z.land_assoc, Z.land_ones by lia.
    pose proof (Z.mod_pos_bound (Z.land S_IFMT m) (2 ^ 16) ltac:(lia)). unfold in_range. lia.
  - change 4095 with (Z.ones 12). rewrite Z.land_ones by lia. pose proof (Z.mod_pos_bound m' (2 ^ 12) ltac:(lia)). unfold in_range. lia.
Qed.

Lemma attr_ok_ClearSetid a : attr_ok a → attr_ok (ClearSetidForKillPriv a).
Proof.
  intros Ha. unfold ClearSetidForKillPriv, clear_bits. apply attr_ok_mode; [|done]. destruct Ha as [_ M _ _ _].
  case_match; repeat apply ldiff_range; done.
Qed.

(** One requested field at a time. *)
Lemma attr_ok_fields a : attr_ok a →
  attr_ok (set_uid (uid r) a) ∧ attr_ok (set_gid (gid r) a) ∧ attr_ok (set_size (size r) a) ∧
  attr_ok (set_atime (atime r) (atime_nsec r) a) ∧ attr_ok (set_mtime (mtime r) (mtime_nsec r) a) ∧
  attr_ok (set_ctime (ctime r) (ctime_nsec r) a).
Proof.
  intros [U M T N F]. destruct Hr as [U' M' T' N' _]. cbn in *. split_forall. split_and!; constructor; cbn; split_forall; done.
Qed.

Lemma mutate_attr_ok f a : attr_ok a → attr_ok (mutate_attr now r f a).
Proof.
  intros Ha. unfold mutate_attr. cbn zeta.
  repeat (apply attr_ok_when; [intros Hx; first [by apply attr_ok_touch|by apply attr_ok_ClearSetid|by apply attr_ok_fields
    |apply attr_ok_mode; [apply mode_bits_range, Hx|done]]|]). done.
Qed.

Lemma PrepareSetAttrMutation_same x f y :
  inode_record_ok x → PrepareSetAttrMutation now x r f = Ok y → same_parent_as x y.
Proof.
  intros Hx E. unfold PrepareSetAttrMutation in E. apply bind_Ok in E as (? & _ & E).
  assert (same_parent_as x (set_attr (mutate_attr now r f (attr x)) x)) as Hs.
  { pose proof (mutate_attr_ids now r f (attr x)) as (_ & ? & ? & _).
    apply same_parent_attr; [apply mutate_attr_type|done|done|apply mutate_attr_ok]. }
  case_match; [|by injection E as <-]. eapply same_parent_trans; [exact Hs|]. eapply Sync_same; [|exact E]. by apply (sp_ok _ _ Hs).
Qed.

(** The attribute part of SetAttr is that of a size change without a size. *)
Lemma txn_mutate_attr_eq f a : HasSetAttrField f kSize = false → txn_mutate_attr now r f a = mutate_attr now r f a.
Proof. intros Hf. unfold txn_mutate_attr, mutate_attr. cbn zeta. by rewrite Hf. Qed.
End Requested.

Section Rewrites.
Context `{Redis} `{!RedisLaws} `{FollyFormat} `{!FollyFormatLaws} `{FollyIO} `{!FollyIOLaws}.
Context (prefix : bytes) (chunk_size : Z) (encoder : option ChunkCleanupWorkEncoder) (now : Z) (Hnow : in_range_signed 64 now).
Context (counter : option rvalue).
Local Abbreviation shows := (shows prefix counter).
Local Abbreviation evolves := (evolves prefix counter).
Local Abbreviation engine_program := (engine_program prefix chunk_size encoder now).

(** Commands that leave every inode where it is. *)
Definition tame (N : nodes) (D : counts) (w : kv_write) : Prop :=
  ¬ tree_key prefix (write_key w) ∨
  ∃ y, inode_record_ok y ∧ (N (ino y) = Some (node_of y) ∧ D (ino y) = dir_links y) ∧ w = WSet (InodeKey prefix (ino y)) (inode_bytes y).

Lemma tame_shows N D L ws d : Forall (tame N D) ws → shows d N D L → shows (apply_writes incr_string ws d).1 N D L.
Proof.
  intros Hws Hs. induction ws as [|w ws IH] using rev_ind; [done|]. apply Forall_app in Hws as [Hws Hw]. specialize (IH Hws).
  rewrite Forall_singleton in Hw. rewrite apply_writes_snoc. destruct Hw as [Hw|(y & Hy & [HN HD] & ->)].
  - by apply shows_other.
  - eapply shows_ext; [by intros ?; apply put_same, HN|by intros ?; apply put_same, HD|by intros ??|]. by apply shows_set_inode.
Qed.

Lemma tame_evolves d t : (∀ N D L, shows d N D L → Forall (tame N D) (queued t)) → evolves d (after t d) None.
Proof. intros Hq N D L Hs Ht HD. exists N, D, L. split; [by apply tame_shows; [eapply Hq|]|]. auto. Qed.

Lemma tame_other K N D w : write_key w = K → ¬ tree_key prefix K → tame N D w.
Proof. intros <- Hk. by left. Qed.

Lemma tame_rewrite d N D L i x y :
  shows d N D L → 0 ≤ i → inode_at prefix d i = Some x → inode_record_ok x → same_parent_as x y →
  tame N D (WSet (InodeKey prefix (ino y)) (inode_bytes y)).
Proof.
  intros Hs Hi Hx Hrec Hsp. right. exists y. destruct (shows_inode _ _ _ _ _ _ _ _ Hs Hi Hx) as (Hxi & HN & HD).
  split; [by apply (sp_ok _ _ Hsp)|]. split; [|done]. rewrite (sp_ino _ _ Hsp), (sp_node _ _ Hsp), (sp_links _ _ Hsp), Hxi. done.
Qed.

(** A transaction that looks up one inode and stores a rewritten one. *)
Ltac rewrites Hi :=
  intros N D L Hs; rewrite ?queued_enqueue; cbn [app queued new_txn];
  split_forall;
  try (eapply tame_rewrite; [exact Hs|exact Hi|eassumption|eassumption|]).

Lemma TouchInode_evolves i f d d' : 0 ≤ i → commits (TouchInode prefix now i f) d tt d' → evolves d d' None.
Proof.
  intros Hi (t & Ha & ->)%commits_after. unfold TouchInode in Ha. inv_meta. apply tame_evolves. rewrites Hi.
  by apply same_parent_Touch.
Qed.

Lemma SetInodeFlags_evolves i flags x d d' :
  0 ≤ i → in_range 32 flags → commits (SetInodeFlags prefix now i flags) d x d' → evolves d d' None.
Proof.
  intros Hi Hf (t & Ha & ->)%commits_after. unfold SetInodeFlags in Ha. inv_meta. inv_result.
  case_match; inv_meta; apply tame_evolves; [by intros ????|]. rewrites Hi.
  eapply same_parent_trans; [|by apply same_parent_Touch]. apply same_parent_attr; [done|done|done|]. intros [U M T N' F].
  by constructor.
Qed.

Lemma SetAttr_evolves i r f x d d' :
  0 ≤ i → requested_ok r → commits (SetAttr prefix now i r f) d x d' → evolves d d' None.
Proof.
  intros Hi Hr (t & Ha & ->)%commits_after. unfold SetAttr in Ha. inv_meta. inv_result. subst. apply tame_evolves. rewrites Hi.
  rewrite txn_mutate_attr_eq in * by done. eapply (PrepareSetAttrMutation_same now Hnow r Hr _ f); [done|].
  unfold PrepareSetAttrMutation. match goal with E : CheckSetAttrPolicy _ _ = OK |- _ => rewrite E end. done.
Qed.

Lemma SetXAttr_evolves i n v m d d' : 0 ≤ i → commits (txn_SetXAttr prefix now i n v m) d tt d' → evolves d d' None.
Proof.
  intros Hi (t & Ha & ->)%commits_after. unfold txn_SetXAttr in Ha. inv_meta. apply tame_evolves. rewrites Hi.
  eapply SetXAttr_same; [done| |done]. by apply ir_sorted.
Qed.
Lemma RemoveXAttr_evolves i n d d' : 0 ≤ i → commits (txn_RemoveXAttr prefix now i n) d tt d' → evolves d d' None.
Proof.
  intros Hi (t & Ha & ->)%commits_after. unfold txn_RemoveXAttr in Ha. inv_meta. apply tame_evolves. rewrites Hi.
  by eapply RemoveXAttr_same.
Qed.

Lemma written_same x e : in_range 64 e → same_parent_as x (written_inode now x e).
Proof.
  intros He. unfold written_inode. eapply same_parent_trans; [|by apply same_parent_Touch].
  apply same_parent_attr; [done|done|done|]. intros Ha. apply attr_ok_size; [|done]. destruct Ha as [U _ _ _ _]. split_forall.
  unfold in_range in *. lia.
Qed.


Lemma AttachPrepared_evolves i index c e expected d d' :
  0 ≤ i → in_range 64 e → commits (AttachPrepared prefix chunk_size now i index c e expected) d tt d' → evolves d d' None.
Proof.
  intros Hi He (t & Ha & ->)%commits_after. unfold AttachPrepared in Ha. inv_meta.
  match goal with B : atomic _ (check_boundary _ _ _) _ _ |- _ => apply check_boundary_Ok in B as [-> Hb] end.
  inv_meta. apply tame_evolves. rewrites Hi; [by apply written_same|]. left. by apply refs_other.
Qed.

Lemma FinalizeAttachedWrite_evolves i index c e expected d d' :
  0 ≤ i → in_range 64 e → commits (FinalizeAttachedWrite prefix chunk_size now i index c e expected) d tt d' → evolves d d' None.
Proof.
  intros Hi He (t & Ha & ->)%commits_after. unfold FinalizeAttachedWrite in Ha. inv_meta.
  match goal with B : atomic _ (check_boundary _ _ _) _ _ |- _ => apply check_boundary_Ok in B as [-> Hb] end.
  inv_meta. apply tame_evolves. rewrites Hi. by apply written_same.
Qed.

Lemma ReadFileMappingSnapshot_inode d fuel i t snap t' :
  atomic d (ReadFileMappingSnapshot prefix fuel i) t (Ok snap, t') →
  t' = t ∧ inode_at prefix d i = Some (fms_inode snap) ∧ inode_record_ok (fms_inode snap).
Proof.
  unfold ReadFileMappingSnapshot. intros Ha. inv_meta.
  match goal with S : atomic _ (scan_mappings _ _ _ _ _) _ _ |- _ => apply scan_mappings_Ok in S as (-> & _) end.
  inv_kv. by subst snap.
Qed.

Lemma CommitSizeChange_evolves fuel i plan r f shrink res d d' :
  0 ≤ i → requested_ok r →
  commits (CommitSizeChange prefix chunk_size encoder now fuel i plan r f shrink) d res d' → evolves d d' None.
Proof.
  intros Hi Hr (t & Ha & ->)%commits_after. unfold CommitSizeChange in Ha. inv_kv.
  match goal with S : atomic _ (ReadFileMappingSnapshot _ _ _) _ _ |- _ => apply ReadFileMappingSnapshot_inode in S as (-> & Hx & Hrec) end.
  match goal with Q : atomic _ (queue_cleanup _ _ _ _) _ _ |- _ => apply queue_cleanup_Ok in Q as (ws & Hq & Hws) end.
  match goal with Q : atomic _ (publish_size _ _ _ _ _) _ _ |- _ => apply publish_size_Ok in Q; rename Q into Hpub end.
  match goal with E : PrepareSetAttrMutation _ _ _ _ = Ok _ |- _ => apply (PrepareSetAttrMutation_same now Hnow r Hr) in E as Hsp; [|done] end.
  apply tame_evolves. intros N D L Hs. cbv zeta in Hpub. rewrite Hpub, Hq. cbn [queued new_txn app].
  assert (∀ l, Forall (tame N D) (detach_write prefix i <$> l)) as Hdel.
  { intros l. apply Forall_fmap, Forall_true. intros m. eapply tame_other; [done|by apply refs_other]. }
  apply Forall_app_2.
  - eapply Forall_impl; [exact Hws|]. intros w Hw. eapply tame_other; [exact Hw|]. pose proof (other_keys prefix) as Ho. by split_forall.
  - destruct shrink; [apply Forall_cons; split; [by eapply tame_rewrite|done]|].
    apply Forall_app_2; [done|]. split_forall. by eapply tame_rewrite.
Qed.

(** Maintenance queues. *)
Lemma maintenance_evolves t d :
  Forall (λ w, write_key w ∈ [Orphans prefix; Reclaims prefix; PendingDeletes prefix; InodeCount prefix]) (queued t) →
  evolves d (after t d) None.
Proof.
  intros Hq. apply tame_evolves. intros N D L _. eapply Forall_impl; [exact Hq|]. intros w Hw. eapply tame_other; [done|].
  pose proof (other_keys prefix) as Ho. rewrite Forall_forall in Ho. by apply Ho.
Qed.

Ltac maintenance :=
  apply maintenance_evolves; cbn [queued enqueue new_txn app]; split_forall; cbn [write_key]; set_solver.

Lemma RegisterPendingDeletes_evolves work d d' : commits (RegisterPendingDeletes prefix work) d tt d' → evolves d d' None.
Proof.
  intros (t & Ha & ->)%commits_after. apply maintenance_evolves.
  assert (∀ t0 t1, atomic d (RegisterPendingDeletes prefix work) t0 (Ok tt, t1) →
    ∃ ws, queued t1 = queued t0 ++ ws ∧ Forall (λ w, write_key w = PendingDeletes prefix) ws) as Hgen.
  { clear. induction work as [|w work IH]; intros t0 t1; cbn [RegisterPendingDeletes]; intros Ha; inv_kv.
    - exists []. by rewrite app_nil_r.
    - unfold QueuePendingDelete in *. inv_kv. apply IH in Ha as (ws & -> & Hws). eexists (_ :: ws).
      rewrite queued_enqueue, <- app_assoc. cbn [app]. split; [done|]. by constructor. }
  apply Hgen in Ha as (ws & -> & Hws). eapply Forall_impl; [exact Hws|]. intros w ->. set_solver.
Qed.

Lemma CompleteReclaim_evolves i d d' : commits (CompleteReclaim prefix i) d tt d' → evolves d d' None.
Proof.
  intros (t & Ha & ->)%commits_after. unfold CompleteReclaim in Ha. inv_kv. maintenance.
Qed.
Lemma CompletePendingDelete_evolves k d d' : commits (CompletePendingDelete prefix k) d tt d' → evolves d d' None.
Proof.
  intros (t & Ha & ->)%commits_after. unfold CompletePendingDelete in Ha. inv_kv. maintenance.
Qed.

Lemma PrepareReclaim_evolves fuel i work d d' :
  0 ≤ i → commits (PrepareReclaim prefix encoder fuel i) d work d' → evolves d d' None.
Proof.
  intros Hi (t & Ha & ->)%commits_after. unfold PrepareReclaim, ClearOrphanMarker, CompleteReclaim in Ha.
  apply atomic_kv_try in Ha as (r & t1 & Hl & Ha). apply atomic_LookupInode in Hl as (-> & Hx & _). destruct r as [x|e].
  2: { destruct e; try done. inv_kv. maintenance. }
  destruct (Hx x eq_refl) as (_ & Hix & Hrec). destruct (_ || _) eqn:Hdead.
  { inv_kv. maintenance. }
  apply orb_false_iff in Hdead as [Hdir Hn]. apply negb_false_iff, Z.eqb_eq in Hn. apply atomic_kv_bind in Ha as (ms & t2 & Hms & Ha).
  assert (t2 = new_txn) as ->.
  { clear Ha. destruct (IsRegular x); inv_kv; [|done]. match goal with S : atomic _ (ReadFileMappingSnapshot _ _ _) _ _ |- _ =>
      by apply ReadFileMappingSnapshot_inode in S as (-> & _) end. }
  apply atomic_kv_bind in Ha as (pending & t3 & Hpe & Ha). assert (t3 = new_txn) as -> by (clear Ha; destruct encoder; inv_kv; done).
  inv_kv. intros N D L Hs Ht HD. destruct (shows_inode _ _ _ _ _ _ _ _ Hs Hi Hix) as (_ & HN & HDi). rewrite node_file, Hn in HN by done.
  exists (put N i None), D, L. split; [|split; [split; [by apply (tree_reclaim N L Ht)|eapply counts_put_file; [done|by left|done]]|]].
  - pose proof (other_keys prefix) as Ho. split_forall. do 2 (apply queue_other; [done|]).
    apply queue_other; [by apply refs_other|]. rewrite after_enqueue. eapply shows_ext; [by intros ?| |by intros ??|by apply shows_del_inode].
    intros j. apply put_same. rewrite HDi. unfold dir_links. by rewrite Hdir.
  - intros j Hj. left. eapply put_domain; [|exact Hj]. eauto.
Qed.

(** ** The engine as a system *)

(** The arguments are values of their C++ types, requested times have nanoseconds below a second,
    and a hard link is not the 2^64th. *)
Definition call_ok (d : dataset) (c : engine_call) : Prop :=
  match c with
  | ECreate ctx _ p _ _ | EMkDir ctx _ p _ _ => ids_ok ctx ∧ in_range 64 p
  | EMkNod ctx _ p _ m r => ids_ok ctx ∧ in_range 64 p ∧ in_range 32 m ∧ in_range 64 r
  | ESymlink ctx _ p _ l => ids_ok ctx ∧ in_range 64 p ∧ string_ok l
  | EUnlink _ p _ _ | ERmDir _ p _ => in_range 64 p
  | ERename _ _ p _ q _ _ => in_range 64 p ∧ in_range 64 q
  | ELink i p _ => in_range 64 i ∧ in_range 64 p ∧ ∀ y, inode_at prefix d i = Some y → links_left y
  | ESetAttr i r _ | ECommitSizeChange _ i _ r _ _ => in_range 64 i ∧ requested_ok r
  | ESetInodeFlags i f => in_range 64 i ∧ in_range 32 f
  | EAttachPrepared i _ _ e _ | EFinalizeAttachedWrite i _ _ e _ => in_range 64 i ∧ in_range 64 e
  | ESetXAttr i _ _ _ | ERemoveXAttr i _ | ETouch i _ | EPrepareReclaim _ i => in_range 64 i
  | ECompleteReclaim _ | ERegisterPendingDelete _ | ECompletePendingDelete _ => True
  end.

(** The reserved identity a call stores. *)
Definition fresh_of (c : engine_call) : option Z :=
  match c with
  | ECreate _ c _ _ _ | EMkNod _ c _ _ _ _ | EMkDir _ c _ _ _ | ESymlink _ c _ _ _ => Some c
  | _ => None
  end.

Lemma commits_discard {A : Type} (m : kv A) d u d' : commits (discard m) d u d' → ∃ x, commits m d x d'.
Proof. intros (t & Ha & ->). unfold discard in Ha. inv_kv. eexists. eexists. split; [eassumption|done]. Qed.

Lemma commits_checked {A : Type} s (m : kv A) d x d' :
  commits (_ ← kv_check s; m) d x d' → s = OK ∧ commits m d x d'.
Proof. intros (t & Ha & ->). inv_kv. split; [done|]. by exists t. Qed.

Lemma type_bits_range ty m k : in_range 32 ty → 0 ≤ k ≤ 32 → in_range 32 (Z.lor ty (Z.land m (Z.ones k))).
Proof.
  intros Ht Hk. apply lor_range; [done|done|]. rewrite Z.land_ones by lia. pose proof (Z.mod_pos_bound m (2 ^ k) ltac:(lia)).
  pose proof (Z.pow_le_mono_r 2 k 32 ltac:(lia) ltac:(lia)). unfold in_range. lia.
Qed.
Lemma rdev_range m r : in_range 64 r → in_range 64 (NormalizeMknodRdev m r).
Proof. intros Hr. unfold NormalizeMknodRdev. case_match; [done|by vm_compute]. Qed.

Lemma engine_call_evolves c d d' :
  call_ok d c → (∀ i, fresh_of c = Some i → in_range 64 i ∧ i ≠ 0 ∧ inode_at prefix d i = None) →
  commits (engine_program c) d tt d' → evolves d d' (fresh_of c).
Proof.
  intros Hok Hfresh Hc. destruct c; cbn [call_ok fresh_of MetaEngine.engine_program] in *;
    try match type of Hc with commits (discard _) _ _ _ => apply commits_discard in Hc as [res Hc] end; try (destruct (Hfresh _ eq_refl) as (Hc1 & Hc2 & Hc3)); destruct_and?;
    repeat match goal with R : in_range 64 ?i |- _ => pose proof (proj1 R); revert R end; intros.
  1-3: unfold Create, MkNod, MkDir in Hc; apply commits_checked in Hc as [Hn%ValidateName_ok Hc];
    try (apply commits_checked in Hc as [_ Hc]);
    eapply CreateNode_evolves in Hc; [exact Hc|try done..];
    first [by apply rdev_range|apply (type_bits_range S_IFREG _ 12); [by vm_compute|lia]|apply (type_bits_range S_IFDIR _ 9); [by vm_compute|lia]].
  - eapply Symlink_evolves; [..|exact Hc]; done.
  - eapply Unlink_evolves; [..|exact Hc]; done.
  - eapply RmDir_evolves; [..|exact Hc]; done.
  - eapply Rename_evolves; [..|exact Hc]; done.
  - eapply Link_evolves; [..|exact Hc]; done.
  - eapply SetAttr_evolves; [..|exact Hc]; done.
  - eapply SetInodeFlags_evolves; [..|exact Hc]; done.
  - eapply SetXAttr_evolves; [..|exact Hc]; done.
  - eapply RemoveXAttr_evolves; [..|exact Hc]; done.
  - eapply TouchInode_evolves; [..|exact Hc]; done.
  - eapply AttachPrepared_evolves; [..|exact Hc]; done.
  - eapply FinalizeAttachedWrite_evolves; [..|exact Hc]; done.
  - eapply CommitSizeChange_evolves; [..|exact Hc]; done.
  - eapply PrepareReclaim_evolves; [..|exact Hc]; done.
  - eapply CompleteReclaim_evolves; exact Hc.
  - eapply RegisterPendingDeletes_evolves; exact Hc.
  - eapply CompletePendingDelete_evolves; exact Hc.
Qed.

End Rewrites.

(** ** Histories of a volume *)
Section System.
Context `{Redis} `{!RedisLaws} `{FollyFormat} `{!FollyFormatLaws} `{FollyIO} `{!FollyIOLaws}.
Context (prefix : bytes) (chunk_size : Z) (encoder : option ChunkCleanupWorkEncoder).

(** The dataset, and the inode numbers that were allocated and are not stored yet. *)
Record system := mkSystem { sys_data : dataset; sys_reserved : gset Z }.

Inductive volume_step : system → system → Prop :=
  | vs_allocate d R v d' :
      AllocateInode prefix d = (Ok v, d') → volume_step (mkSystem d R) (mkSystem d' ({[ v ]} ∪ R))
  (** The number was drawn and its reply lost. *)
  | vs_burnt d R v d' : AllocateInode prefix d = (Ok v, d') → volume_step (mkSystem d R) (mkSystem d' R)
  | vs_call now c d R d' :
      in_range_signed 64 now → call_ok prefix d c → (∀ i, fresh_of c = Some i → i ∈ R) →
      commits (engine_program prefix chunk_size encoder now c) d tt d' →
      volume_step (mkSystem d R) (mkSystem d' (R ∖ option_to_set (fresh_of c)))
  (** Chunk data, locks, leases and other volumes. *)
  | vs_elsewhere d R d' :
      (∀ K, tree_key prefix K → d' !! K = d !! K) → volume_step (mkSystem d R) (mkSystem d' R).

Record volume_ok (v : system) : Prop := {
  vo_tree : ∃ N D L, shows prefix (sys_data v !! NextIno prefix) (sys_data v) N D L ∧ (tree N L ∧ counts_ok N D) ∧
    ∃ n, counter_at (sys_data v) (NextIno prefix) n ∧ (∀ i, is_Some (N i) → i ≤ n) ∧
      ∀ i, i ∈ sys_reserved v → 0 < i ≤ n ∧ N i = None;
}.

Lemma shows_recount c d d' N D L :
  (∀ K, K ≠ NextIno prefix → d' !! K = d !! K) → shows prefix c d N D L → shows prefix (d' !! NextIno prefix) d' N D L.
Proof.
  intros Hf [Ho Ht HN HD0 HL _].
  assert (∀ i, 0 ≤ i → inode_at prefix d' i = inode_at prefix d i) as HI by (intros i Hi; unfold inode_at; rewrite Hf by key_neq; done).
  assert (∀ p, 0 ≤ p → d' !! Directory prefix p = d !! Directory prefix p) as HD by (intros p Hp; apply Hf; key_neq).
  split; [| | | | |done].
  - intros i x Hi. rewrite HI by done. by apply Ho.
  - intros p Hp. rewrite HD by done. by apply Ht.
  - intros i. rewrite <- HN. unfold nodes_at. case_decide; [|done]. by rewrite HI.
  - intros i. rewrite <- HD0. unfold dirs_at. case_decide; [|done]. by rewrite HI.
  - intros p n. rewrite <- HL. unfold links_at, entry_at. case_decide; [|done]. by rewrite HD.
Qed.

Lemma counter_frame d d' n : d' !! NextIno prefix = d !! NextIno prefix →
  counter_at d (NextIno prefix) n → counter_at d' (NextIno prefix) n.
Proof. intros E [? Hs]. split; [done|]. unfold string_at in *. by rewrite E. Qed.

Lemma shows_absent c d N D L i : shows prefix c d N D L → 0 ≤ i → N i = None → inode_at prefix d i = None.
Proof.
  intros Hs Hi HN. rewrite <- (sh_nodes _ _ _ _ _ _ Hs) in HN. unfold nodes_at in HN. rewrite decide_True in HN by done.
  by destruct (inode_at prefix d i).
Qed.

Lemma allocate_ok d R v d' R' :
  AllocateInode prefix d = (Ok v, d') → (∀ i, i ∈ R' → i = v ∨ i ∈ R) → volume_ok (mkSystem d R) → volume_ok (mkSystem d' R').
Proof.
  intros Ha HR [(N & D & L & Hs & Ht & n & Hn & Hle & Hres)]. cbn in *. destruct (Incr_counter _ _ _ _ _ Hn Ha) as (-> & Hn' & Hf).
  split. exists N, D, L. cbn. split; [by eapply shows_recount|]. split; [done|]. exists (n + 1). split; [done|]. split.
  - intros i Hi. specialize (Hle i Hi). lia.
  - intros i [->|Hi]%HR.
    + split; [destruct Hn; lia|]. destruct (N (n + 1)) eqn:E; [|done]. specialize (Hle (n + 1) ltac:(by rewrite E)). lia.
    + destruct (Hres i Hi). split; [lia|done].
Qed.

Lemma volume_step_ok v v' : volume_step v v' → volume_ok v → volume_ok v'.
Proof.
  intros [d R x d' Ha|d R x d' Ha|now c d R d' Hnow Hcall Hfresh Hc|d R d' Hf] Hok.
  - eapply allocate_ok; [done| |exact Hok]. set_solver.
  - eapply allocate_ok; [done| |exact Hok]. set_solver.
  - destruct Hok as [(N & D & L & Hs & Ht & n & Hn & Hle & Hres)]. cbn in *.
    destruct (engine_call_evolves prefix chunk_size encoder now Hnow (d !! NextIno prefix) c d d' Hcall) with (N := N) (D := D) (L := L)
      as (N' & D' & L' & Hs' & Ht' & Hdom); [|done|done|apply Ht|apply Ht|].
    { intros i Hi. destruct (Hres i (Hfresh i Hi)) as [Hr HN]. destruct Hn as [? _]. split; [unfold in_range, INT64_MAX in *; lia|].
      split; [lia|]. eapply shows_absent; [exact Hs|lia|done]. }
    pose proof (sh_counter _ _ _ _ _ _ Hs') as Hcnt. split. exists N', D', L'. cbn. rewrite Hcnt. split; [done|]. split; [done|].
    exists n. split; [by eapply counter_frame|]. split.
    + intros i Hi. destruct (Hdom i Hi) as [?|Hi']; [by apply Hle|]. by apply Hres, Hfresh.
    + intros i [Hi Hni]%elem_of_difference. destruct (Hres i Hi) as [Hr HN]. split; [done|].
      destruct (N' i) eqn:E; [|done]. destruct (Hdom i ltac:(by rewrite E)) as [[? ?]|Hi']; [congruence|].
      exfalso. apply Hni. rewrite Hi'. by apply elem_of_singleton.
  - destruct Hok as [(N & D & L & Hs & Ht & n & Hn & Hle & Hres)]. cbn in *. split. exists N, D, L. cbn.
    rewrite Hf by (right; by right). split; [by eapply shows_frame|]. split; [done|]. exists n.
    split; [apply (counter_frame d); [apply Hf; right; by right|done]|done].
Qed.

(** ** A formatted volume *)
Definition fresh_volume (d : dataset) : Prop :=
  ∀ i, 0 ≤ i → d !! InodeKey prefix i = None ∧ d !! Directory prefix i = None.

Definition format_writes (now : Z) (config : SwordFsVolume) : list kv_write :=
  [WSet (FormatKey prefix) (Volume_SerializeTo config);
   WSet (InodeKey prefix kRootInodeId) (inode_bytes (root_inode now));
   WSet (NextIno prefix) (to_string kRootInodeId); WSet (InodeCount prefix) (lit "1");
   WSet (OwnerGeneration prefix) (lit "0"); WSet (NextChunkID prefix) (lit "0"); WSet (NextSliceID prefix) (lit "0")].

Lemma FormatVolume_inv now config d t :
  atomic d (FormatVolume prefix now config) new_txn (Ok tt, t) → queued t = format_writes now config.
Proof.
  unfold FormatVolume. intros Ha. apply atomic_kv_bind in Ha as (v & t1 & Hv & Ha). apply atomic_lift in Hv as [Hv ->].
  rewrite Inode_SerializeTo_spec in Hv by done. injection Hv as ->.
  apply atomic_kv_try in Ha as (r & t2 & Hg & Ha). apply atomic_Get in Hg as [-> _]. destruct r as [?|e]; [done|].
  destruct e; try done. cbn [set_all] in Ha. inv_kv. done.
Qed.

Lemma root_inode_ok now : in_range_signed 64 now → inode_record_ok (root_inode now).
Proof.
  intros Hn. apply new_inode_ok; try done. apply new_attr_ok; [done|by vm_compute..].
Qed.

Definition root_nodes : nodes := λ i, if decide (i = kRootInodeId) then Some (Dir kRootInodeId) else None.
Definition root_counts : counts := λ i, if decide (i = kRootInodeId) then Some 2 else None.
Definition no_links : links := λ _ _, None.

Lemma root_tree : tree root_nodes no_links.
Proof.
  unfold root_nodes. split; [by rewrite decide_True|done|..].
  - intros i p Hi Hne. by rewrite decide_False in Hi.
  - intros i k. by case_decide.
  - intros i p. case_decide; [|done]. subst. intros _. constructor.
Qed.

Lemma root_counted : counts_ok root_nodes root_counts.
Proof.
  intros i p. unfold root_nodes, root_counts. case_decide; [|done]. subst. intros _. exists 2. split; [done|]. exists ∅. split; [|by rewrite size_empty].
  intros c. rewrite elem_of_empty. split; [done|]. unfold parent_of. by case_decide.
Qed.

(** The dataset of a new volume. *)
Lemma format_lookup now config d :
  let d' := (apply_writes incr_string (format_writes now config) d).1 in
  (∀ i, 0 ≤ i → d' !! InodeKey prefix i = if decide (i = kRootInodeId) then Some (RVStr (inode_bytes (root_inode now)) false) else d !! InodeKey prefix i) ∧
  (∀ p, 0 ≤ p → d' !! Directory prefix p = d !! Directory prefix p) ∧
  d' !! NextIno prefix = Some (RVStr (to_string kRootInodeId) false).
Proof.
  cbv zeta. unfold format_writes, kRootInodeId. split_and!; [intros i Hi|intros p Hp|]; rewrite lookup_apply_writes.
  - rewrite key_after_cons. cbn [write_key]. rewrite decide_False by key_neq. case_decide as E; [subst i|].
    + apply key_after_put. split_forall; cbn [write_key]; key_neq.
    + apply key_after_frame. split_forall; cbn [write_key]; key_neq.
  - apply key_after_frame. split_forall; cbn [write_key]; key_neq.
  - do 2 (rewrite key_after_cons; cbn [write_key]; rewrite decide_False by key_neq).
    apply key_after_put. split_forall; cbn [write_key]; key_neq.
Qed.

Lemma format_ok now config d d' :
  in_range_signed 64 now → fresh_volume d → commits (FormatVolume prefix now config) d tt d' → volume_ok (mkSystem d' ∅).
Proof.
  intros Hn Hfr (t & Ha%FormatVolume_inv & ->). rewrite Ha. destruct (format_lookup now config d) as (HI & HD & HC).
  generalize dependent (apply_writes incr_string (format_writes now config) d).1. intros d' HI HD HC.
  assert (∀ i, 0 ≤ i → inode_at prefix d' i = if decide (i = kRootInodeId) then Some (root_inode now) else None) as HIn.
  { intros i Hi. unfold inode_at. rewrite HI by done. case_decide; [by apply inode_of_bytes, root_inode_ok|].
    by rewrite (proj1 (Hfr i Hi)). }
  split. exists root_nodes, root_counts, no_links. cbn [sys_data sys_reserved]. split; [split|split; [split; [apply root_tree|apply root_counted]|]].
  - intros i x Hi. rewrite HIn by done. case_decide; [intros [= <-]; by subst|done].
  - intros p Hp. rewrite HD, (proj2 (Hfr p Hp)) by done. done.
  - intros i. unfold nodes_at, root_nodes. case_decide as Hi; [rewrite HIn by done; by case_decide|].
    rewrite decide_False; [done|]. intros ->. by apply Hi.
  - intros i. unfold dirs_at, root_counts. case_decide as Hi; [rewrite HIn by done; by case_decide|].
    rewrite decide_False; [done|]. intros ->. by apply Hi.
  - intros p n. unfold links_at, entry_at. case_decide as Hp; [|done]. by rewrite HD, (proj2 (Hfr p Hp)).
  - done.
  - exists kRootInodeId. split; [split; [unfold kRootInodeId, INT64_MAX; lia|unfold string_at; by rewrite HC]|]. split; [|set_solver].
    intros i. unfold root_nodes. case_decide; [by subst|by intros [? ?]].
Qed.

(** C1: the namespace stays a tree with exact link counts.  From a formatted volume, whatever
    interleaving of engine operations (creation, links, unlinks, renames with and without
    exchange, attribute and data changes, reclaims), inode allocations, lost allocations and
    foreign writes is committed: the root is a directory with no name, every directory entry
    names an existing inode inside an existing directory, every other directory has exactly
    one name and its record points to the directory holding it, every directory is reached
    from the root (there are no cycles), the link count of everything that is not a directory
    is exactly the number of its names, and that of a directory is two and one for each
    directory in it.  Operations get arguments of their C++ types, requested times with
    nanoseconds below a second, and no inode gets 2^64 hard links ([call_ok]). *)
Theorem namespace_tree_invariant now config d0 d v :
  in_range_signed 64 now → fresh_volume d0 → commits (FormatVolume prefix now config) d0 tt d →
  rtc volume_step (mkSystem d ∅) v →
  tree (nodes_at prefix (sys_data v)) (links_at prefix (sys_data v)) ∧
  links_exact (nodes_at prefix (sys_data v)) (dirs_at prefix (sys_data v)).
Proof.
  intros Hn Hfr Hf Hsteps. pose proof (format_ok _ _ _ _ Hn Hfr Hf) as Hok.
  assert (volume_ok v) as [(N & D & L & Hs & [Ht HD] & n & [Hcnt _] & Hle & _)].
  { clear Hf Hfr. induction Hsteps as [|v1 v2 v3 Hstep _ IH]; [done|]. by apply IH, (volume_step_ok v1). }
  assert (same_nodes N (nodes_at prefix (sys_data v))) as EN by (intros i; symmetry; apply (sh_nodes _ _ _ _ _ _ Hs)). split.
  - eapply tree_ext; [exact EN| |exact Ht]. intros p m. symmetry. apply (sh_links _ _ _ _ _ _ Hs).
  - eapply (links_exact_ext N _ D); [exact EN|intros i; symmetry; apply (sh_dirs _ _ _ _ _ _ Hs)|].
    unfold INT64_MAX in Hcnt. apply (counts_exact N D n); [lia| |done]. intros i Hi. split; [|by apply Hle]. rewrite EN in Hi. unfold nodes_at in Hi. case_decide; [done|by destruct Hi].
Qed.

End System.

(** ** Formatting an empty server and making one directory *)
Module TreeSample.
Definition volume : bytes := lit "{0:v}:".
Definition formatted : dataset := (apply_writes decimal_incr (format_writes volume 100 sample_volume) ∅).1.
Definition allocated : dataset := <[NextIno volume := RVStr (to_string 2) false]> formatted.
Definition caller : SwordFsContext := mkContext 1000 1000 18.
Definition call : engine_call := EMkDir caller 2 1 (lit "a") 511.
Definition made : dataset :=
  (apply_writes decimal_incr (queued (run (H := DatasetRedis) allocated (engine_program volume 10 None 100 call) new_txn).2) allocated).1.

Lemma formats : commits (H := DatasetRedis) (FormatVolume volume 100 sample_volume) ∅ tt formatted.
Proof. apply (commits_run _ _ tt (mkTxn true (format_writes volume 100 sample_volume))). vm_compute. reflexivity. Qed.

Lemma allocates_2 : AllocateInode (H := DatasetRedis) volume formatted = (Ok 2, allocated).
Proof.
  assert (formatted !! NextIno volume = Some (RVStr (to_string 1) false)) as E by (vm_compute; reflexivity).
  unfold AllocateInode, Incr. cbn [apply_write]. rewrite E. change (incr_string (to_string 1) 1) with (Some (to_string 2)).
  cbv beta iota. unfold incr_reply. by rewrite lookup_insert_eq.
Qed.

Lemma makes : commits (H := DatasetRedis) (engine_program volume 10 None 100 call) allocated tt made.
Proof.
  apply commits_run. assert ((run (H := DatasetRedis) allocated (engine_program volume 10 None 100 call) new_txn).1 = Ok tt) as E
    by (vm_compute; reflexivity). revert E. by destruct (run _ _ _) as [r t]; cbn; intros ->.
Qed.

Lemma fresh : fresh_volume volume ∅.
Proof. intros i _. split; apply lookup_empty. Qed.

Lemma tree_history : rtc (volume_step (H := DatasetRedis) volume 10 None) (mkSystem formatted ∅) (mkSystem made (({[ 2 ]} ∪ ∅) ∖ {[ 2 ]})).
Proof.
  eapply rtc_l; [apply (vs_allocate (H := DatasetRedis)), allocates_2|]. apply rtc_once.
  apply (vs_call (H := DatasetRedis) volume 10 None 100 call); [| | |exact makes].
  - apply (bool_decide_eq_true_1 (in_range_signed 64 100)). reflexivity.
  - split; [split|]; apply (bool_decide_eq_true_1 (in_range 64 _)); reflexivity.
  - intros i [= <-]. set_solver.
Qed.
End TreeSample.

Lemma namespace_tree_invariant_witness :
  links_at TreeSample.volume TreeSample.made 1 (lit "a") = Some 2 ∧
  tree (nodes_at TreeSample.volume TreeSample.made) (links_at TreeSample.volume TreeSample.made) ∧
  links_exact (nodes_at TreeSample.volume TreeSample.made) (dirs_at TreeSample.volume TreeSample.made).
Proof.
  split; [vm_compute; reflexivity|].
  apply (namespace_tree_invariant (H := DatasetRedis) TreeSample.volume 10 None 100 sample_volume ∅ TreeSample.formatted
    (mkSystem TreeSample.made (({[ 2 ]} ∪ ∅) ∖ {[ 2 ]}))).
  - apply (bool_decide_eq_true_1 (in_range_signed 64 100)). reflexivity.
  - exact TreeSample.fresh.
  - exact TreeSample.formats.
  - exact TreeSample.tree_history.
Defined.
