(* ===== verification/SliceChunk.v ===== *)
(** * Slice chunks: the local session

    src/src/chunk/slice/SliceChunk.cpp.  A session buffers accepted writes ([dirty_], the
    merged projection, [active_], the mutable generation, and [frozen_], the immutable
    generations still to be published), serves reads from them over the published slices,
    and publishes frozen slices as objects and index records.

    [frozen_] holds shared pointers to slices that publication mutates in place, so a slice
    is a cell of [sc_heap] and [sc_frozen] a list of addresses.  The metadata engine, the
    slice index and the object store are the class [ChunkBackend]: functions of an abstract
    world.  Fibers switch only inside backend calls; [during] gives the writes that other
    fibers have the session accept while a call is in flight.  [TruncateLocal] and [Flush]
    exclude each other through the operation lock of FileReadWriter, so truncation is not
    among them.  All positions are below the chunk size, so [size_t] sums do not wrap. *)

From S2P Require Import Prelude RedisKv Decimal StdMap ChunkGeometry InodeTypes SliceHistory DirtyRanges Records MetaEngine.

Record FrozenSlice := mkFrozen {
  fs_pos : Z; fs_payload : bytes; fs_visible_len : Z; fs_eof_len : Z; fs_window_group : bool;
  fs_prepared_id : option Z; fs_recorded_chunk_id : option Z; fs_created_chunk_id : option Z;
  fs_uncertain_record_chunk_id : option Z;
}.
Definition new_frozen (pos : Z) (payload : bytes) (visible_len eof_len : Z) (window_group : bool) : FrozenSlice :=
  mkFrozen pos payload visible_len eof_len window_group None None None None.
Definition set_lengths (visible eof : Z) (f : FrozenSlice) : FrozenSlice :=
  mkFrozen (fs_pos f) (fs_payload f) visible eof (fs_window_group f) (fs_prepared_id f) (fs_recorded_chunk_id f)
    (fs_created_chunk_id f) (fs_uncertain_record_chunk_id f).
Definition set_prepared (id : Z) (f : FrozenSlice) : FrozenSlice :=
  mkFrozen (fs_pos f) (fs_payload f) (fs_visible_len f) (fs_eof_len f) (fs_window_group f) (Some id) (fs_recorded_chunk_id f)
    (fs_created_chunk_id f) (fs_uncertain_record_chunk_id f).
Definition set_created (c : Z) (f : FrozenSlice) : FrozenSlice :=
  mkFrozen (fs_pos f) (fs_payload f) (fs_visible_len f) (fs_eof_len f) (fs_window_group f) (fs_prepared_id f)
    (fs_recorded_chunk_id f) (Some c) (fs_uncertain_record_chunk_id f).
Definition set_uncertain (c : Z) (f : FrozenSlice) : FrozenSlice :=
  mkFrozen (fs_pos f) (fs_payload f) (fs_visible_len f) (fs_eof_len f) (fs_window_group f) (fs_prepared_id f)
    (fs_recorded_chunk_id f) (fs_created_chunk_id f) (Some c).
Definition set_recorded (c : Z) (f : FrozenSlice) : FrozenSlice :=
  mkFrozen (fs_pos f) (fs_payload f) (fs_visible_len f) (fs_eof_len f) (fs_window_group f) (fs_prepared_id f)
    (Some c) (fs_created_chunk_id f) None.

Record BoundaryClamp := mkClamp { bc_visible_prefix : Z; bc_chunk_id : option Z; bc_record_count : Z }.

Record SliceChunk := mkSliceChunk {
  sc_dirty : DirtyRanges; sc_active : DirtyRanges; sc_active_bytes : Z;
  sc_heap : list FrozenSlice; sc_frozen : list nat;
  sc_flushing : bool; sc_boundaries : list BoundaryClamp; sc_boundary_error : option Status; sc_truncate_epoch : Z;
}.
Definition set_dirty (d : DirtyRanges) (s : SliceChunk) : SliceChunk :=
  mkSliceChunk d (sc_active s) (sc_active_bytes s) (sc_heap s) (sc_frozen s) (sc_flushing s) (sc_boundaries s)
    (sc_boundary_error s) (sc_truncate_epoch s).
Definition set_active (a : DirtyRanges) (n : Z) (s : SliceChunk) : SliceChunk :=
  mkSliceChunk (sc_dirty s) a n (sc_heap s) (sc_frozen s) (sc_flushing s) (sc_boundaries s)
    (sc_boundary_error s) (sc_truncate_epoch s).
Definition set_frozen (heap : list FrozenSlice) (frozen : list nat) (s : SliceChunk) : SliceChunk :=
  mkSliceChunk (sc_dirty s) (sc_active s) (sc_active_bytes s) heap frozen (sc_flushing s) (sc_boundaries s)
    (sc_boundary_error s) (sc_truncate_epoch s).
Definition set_flushing (b : bool) (s : SliceChunk) : SliceChunk :=
  mkSliceChunk (sc_dirty s) (sc_active s) (sc_active_bytes s) (sc_heap s) (sc_frozen s) b (sc_boundaries s)
    (sc_boundary_error s) (sc_truncate_epoch s).
Definition set_boundaries (l : list BoundaryClamp) (e : option Status) (s : SliceChunk) : SliceChunk :=
  mkSliceChunk (sc_dirty s) (sc_active s) (sc_active_bytes s) (sc_heap s) (sc_frozen s) (sc_flushing s) l e (sc_truncate_epoch s).
Definition next_epoch (s : SliceChunk) : SliceChunk :=
  mkSliceChunk (sc_dirty s) (sc_active s) (sc_active_bytes s) (sc_heap s) (sc_frozen s) (sc_flushing s) (sc_boundaries s)
    (sc_boundary_error s) (sc_truncate_epoch s + 1).

Definition new_chunk : SliceChunk := mkSliceChunk [] [] 0 [] [] false [] None 0.

Definition kMaxActiveSliceBytes : Z := 4 * 1024 * 1024.
Definition kRmwWindowBytes : Z := 1 * 1024 * 1024.
Definition kMaxRmwInstallAttempts : nat := 4.

(** [frozen_[i]], through the pointer. *)
Definition slice_at (s : SliceChunk) (a : nat) : option FrozenSlice := sc_heap s !! a.
Definition frozen_slices (s : SliceChunk) : list FrozenSlice := omap (slice_at s) (sc_frozen s).
Definition update_slice (a : nat) (f : FrozenSlice → FrozenSlice) (s : SliceChunk) : SliceChunk :=
  set_frozen (alter f a (sc_heap s)) (sc_frozen s) s.

(** ** Local mutations *)
Definition FreezeActiveLocked (s : SliceChunk) : SliceChunk :=
  match sc_active s with
  | [] => s
  | active =>
      let fresh := (λ r : Z * bytes, new_frozen r.1 r.2 (zlen r.2) (zlen r.2) false) <$> active in
      set_active [] 0 (set_frozen (sc_heap s ++ fresh) (sc_frozen s ++ seq (length (sc_heap s)) (length fresh)) s)
  end.

(** The overlap of the buffered ranges with a part, from the range before its start. *)
Fixpoint covered_bytes (ranges : DirtyRanges) (part_start part_end : Z) : Z :=
  match ranges with
  | [] => 0
  | r :: rest =>
      if r.1 <? part_end then
        let first := Z.max r.1 part_start in
        let last := Z.min (range_end r) part_end in
        (if first <? last then last - first else 0) + covered_bytes rest part_start part_end
      else 0
  end.
Definition from_previous (before after : DirtyRanges) : DirtyRanges :=
  match last before with Some r => r :: after | None => after end.
Definition covered_in (active : DirtyRanges) (part_start part_end : Z) : Z :=
  let '(before, it) := map_upper_bound part_start active in
  covered_bytes (from_previous before it) part_start part_end.

(** One part of at most [kMaxActiveSliceBytes]. *)
Definition write_part (part_start : Z) (part : bytes) (s : SliceChunk) : SliceChunk :=
  let part_end := part_start + zlen part in
  let s := if sc_active_bytes s + zlen part >? kMaxActiveSliceBytes then
             let covered := covered_in (sc_active s) part_start part_end in
             if sc_active_bytes s + zlen part - covered >? kMaxActiveSliceBytes then FreezeActiveLocked s else s
           else s in
  let '(active, grown) := AcceptWrite (sc_active s) part_start part in
  let s := set_active active (sc_active_bytes s + grown) s in
  if sc_active_bytes s >=? kMaxActiveSliceBytes then FreezeActiveLocked s else s.

(** The loop over the parts; [fuel] is the number of bytes. *)
Fixpoint write_parts (fuel : nat) (part_start : Z) (rest : bytes) (s : SliceChunk) : SliceChunk :=
  match fuel, rest with
  | S fuel, _ :: _ =>
      let part_size := Z.min kMaxActiveSliceBytes (zlen rest) in
      write_parts fuel (part_start + part_size) (drop (Z.to_nat part_size) rest)
        (write_part part_start (take (Z.to_nat part_size) rest) s)
  | _, _ => s
  end.

Definition Write (chunk_size offset : Z) (data : bytes) (s : SliceChunk) : Status * SliceChunk :=
  let len := zlen data in
  if (offset >? chunk_size) || (len >? chunk_size - offset) then (InvalidArgument, s) else
  if len =? 0 then (OK, s) else
  let s := set_dirty (AcceptWrite (sc_dirty s) offset data).1 s in
  (OK, write_parts (length data) offset data s).

Definition accept_visible (dirty : DirtyRanges) (f : FrozenSlice) : DirtyRanges :=
  if fs_visible_len f >? 0 then (AcceptWrite dirty (fs_pos f) (substr (fs_payload f) 0 (fs_visible_len f))).1 else dirty.
Definition accept_range (dirty : DirtyRanges) (r : Z * bytes) : DirtyRanges := (AcceptWrite dirty r.1 r.2).1.
Definition RebuildDirtyLocked (s : SliceChunk) : SliceChunk :=
  set_dirty (foldl accept_range (foldl accept_visible [] (frozen_slices s)) (sc_active s)) s.

(** The locked part of [TruncateLocal]. *)
Definition clip_slice (size : Z) (f : FrozenSlice) : FrozenSlice :=
  let remaining := if size >? fs_pos f then size - fs_pos f else 0 in
  let visible := Z.min (fs_visible_len f) remaining in
  set_lengths visible (Z.min (fs_eof_len f) visible) f.
Definition truncate_locked (size : Z) (s : SliceChunk) : SliceChunk :=
  let s := next_epoch s in
  let s := set_dirty (ClipRanges (sc_dirty s) size) s in
  let active := ClipRanges (sc_active s) size in
  let s := set_active active (total_bytes active) s in
  let heap := foldl (λ h a, alter (clip_slice size) a h) (sc_heap s) (sc_frozen s) in
  set_frozen heap (List.filter (λ a, match heap !! a with Some f => negb (fs_visible_len f =? 0) | None => true end) (sc_frozen s)) s.

Definition HasPendingWrites (s : SliceChunk) : bool := match sc_dirty s with [] => false | _ => true end.

(** ** The backend and sequential code over it *)
Class ChunkBackend (W : Type) := {
  be_snapshot : W → result FileChunkSnapshot * W;
  be_attach : Z → Z → FileSizePrecondition → W → result unit * W;
  be_finalize : Z → Z → FileSizePrecondition → W → result unit * W;
  be_allocate_slice : W → result Z * W;
  be_allocate_chunk : W → result Z * W;
  be_create_index : Z → SliceRecord → W → result unit * W;
  be_append : Z → SliceRecord → W → result unit * W;
  be_records : Z → W → result (list SliceRecord) * W;
  be_get : bytes → Z → Z → W → result bytes * W;
  be_put : bytes → bytes → W → result unit * W;
  (** The writes accepted while the last call was in flight. *)
  during : W → list (Z * bytes);
}.

Definition SliceObjectKey (id : Z) : bytes := lit "slice/" ++ to_string id.

Section SliceChunk.
Context `{ChunkBackend W} (index chunk_size : Z).

Definition state : Type := SliceChunk * W.
Definition io (A : Type) : Type := state → result A * state.
#[global] Instance io_ret : MRet io := λ A a st, (Ok a, st).
#[global] Instance io_bind : MBind io := λ A B f m st,
  match m st with
  | (Ok a, st) => f a st
  | (Err e, st) => (Err e, st)
  end.
Definition io_fail {A : Type} (s : Status) : io A := λ st, (Err s, st).
Definition io_lift {A : Type} (r : result A) : io A := λ st, (r, st).
Definition io_fail_if (b : bool) (s : Status) : io unit := if b then io_fail s else mret tt.
(** The status of [m] as a value. *)
Definition io_try {A : Type} (m : io A) : io (result A) := λ st, let '(r, st) := m st in (Ok r, st).
Definition io_get : io SliceChunk := λ st, (Ok st.1, st).
Definition io_modify (f : SliceChunk → SliceChunk) : io unit := λ st, (Ok tt, (f st.1, st.2)).

Definition accept_writes (writes : list (Z * bytes)) (s : SliceChunk) : SliceChunk :=
  foldl (λ s r, (Write chunk_size r.1 r.2 s).2) s writes.
Definition call {A : Type} (f : W → result A * W) : io A := λ '(s, w),
  let '(r, w) := f w in (r, (accept_writes (during w) s, w)).

(** ** Boundaries *)

(** The clamp of each record, newest to oldest: [i] counts the records that are left. *)
Fixpoint drop_boundaries (i visible_prefix : Z) (newest : list BoundaryClamp) : Z * list BoundaryClamp :=
  match newest with
  | b :: rest => if bc_record_count b >=? i then drop_boundaries i (Z.min visible_prefix (bc_visible_prefix b)) rest
                 else (visible_prefix, newest)
  | [] => (visible_prefix, [])
  end.
Fixpoint sanitize (newest_records : list SliceRecord) (newest : list BoundaryClamp) (visible_prefix : Z)
    (acc : list SliceRecord) : result (list SliceRecord) :=
  match newest_records with
  | [] => Ok acc
  | r :: older =>
      let '(visible_prefix, newest) := drop_boundaries (zlen newest_records) visible_prefix newest in
      _ ← check (ValidateRecord r (u32 chunk_size));
      if sr_pos r >=? visible_prefix then sanitize older newest visible_prefix acc else
      let r := mkSliceRecord (sr_pos r) (sr_id r) (sr_size r) (sr_off r) (u32 (Z.min (sr_len r) (visible_prefix - sr_pos r))) in
      sanitize older newest visible_prefix (r :: acc)
  end.

(** The records a read resolves: those of the index, clipped by later sanitation. *)
Definition sanitized_records (boundaries : list BoundaryClamp) (chunk_id : Z) (records : list SliceRecord)
    : result (list SliceRecord) :=
  match last boundaries with
  | Some b =>
      if bool_decide (bc_chunk_id b = Some chunk_id) then
        _ ← fail_if (zlen records <? bc_record_count b) Malformed;
        sanitize (reverse records) (reverse boundaries) chunk_size []
      else Ok records
  | None => Ok records
  end.

(** The records of a mapped chunk; the index of a mapped chunk is never empty. *)
Definition mapped_records (chunk_id : Z) : io (list SliceRecord) :=
  r ← io_try (call (be_records chunk_id));
  match r with
  | Err NotFound => io_fail Malformed
  | Ok [] => io_fail Malformed
  | r => io_lift r
  end.

Definition CaptureBoundary (visible_prefix : Z) : io unit :=
  r ← io_try (snapshot ← call be_snapshot;
              match fcs_chunk_id snapshot with
              | None => mret (None, 0)
              | Some c => records ← mapped_records c; mret (Some c, zlen records)
              end);
  io_modify (λ s,
    match r with
    | Err e => set_boundaries (sc_boundaries s) (Some e) s
    | Ok (chunk_id, count) =>
        let boundaries := match last (sc_boundaries s) with
                          | Some b => if bool_decide (bc_chunk_id b = chunk_id) then sc_boundaries s else []
                          | None => []
                          end in
        let visible_prefix := Z.min visible_prefix chunk_size in
        match last boundaries with
        | Some b =>
            if count <? bc_record_count b then set_boundaries boundaries (Some Malformed) s
            else if count =? bc_record_count b then
              set_boundaries (removelast boundaries ++
                [mkClamp (Z.min visible_prefix (bc_visible_prefix b)) (bc_chunk_id b) (bc_record_count b)]) None s
            else set_boundaries (boundaries ++ [mkClamp visible_prefix chunk_id count]) None s
        | None => set_boundaries (boundaries ++ [mkClamp visible_prefix chunk_id count]) None s
        end
    end).

Definition TruncateLocal (size : Z) : io unit :=
  _ ← CaptureBoundary size;
  io_modify (truncate_locked size).
Definition ClampPublishedPrefix (visible_prefix : Z) : io unit := CaptureBoundary visible_prefix.

(** ** Reads *)

(** The requested part of the dirty projection, relative to the request. *)
Fixpoint overlays_of (ranges : DirtyRanges) (offset len : Z) : DirtyRanges :=
  match ranges with
  | [] => []
  | r :: rest =>
      if r.1 <? offset + len then
        let start := Z.max offset r.1 in
        let end_ := Z.min (offset + len) (range_end r) in
        if start <? end_ then (start - offset, substr r.2 (start - r.1) (end_ - start)) :: overlays_of rest offset len
        else overlays_of rest offset len
      else []
  end.
Definition overlays_in (dirty : DirtyRanges) (offset len : Z) : DirtyRanges :=
  let '(before, it) := map_lower_bound offset dirty in overlays_of (from_previous before it) offset len.

Definition size_at_eof (snapshot : FileChunkSnapshot) (start : Z) : Z :=
  let size := InodeTypes.size (attr (fcs_inode snapshot)) in
  if size >? start then Z.min chunk_size (size - start) else 0.

(** The object bytes of a span between two chunk positions, copied into the result. *)
Definition fetch (span : ResolvedSlice) (offset start_pos end_pos : Z) (result : bytes) : io bytes :=
  if start_pos =? end_pos then mret result else
  let n := end_pos - start_pos in
  physical ← call (be_get (SliceObjectKey (rs_id span)) (rs_off span + (start_pos - rs_pos span)) n);
  _ ← io_fail_if (negb (zlen physical =? n)) IOError;
  mret (memcpy result (start_pos - offset) physical).

(** The parts of a span that no overlay hides. *)
Fixpoint fetch_uncovered (span : ResolvedSlice) (offset cursor : Z) (overlays : DirtyRanges) (result : bytes) : io bytes :=
  let span_end := rs_pos span + rs_len span in
  match overlays with
  | o :: rest =>
      if cursor <? span_end then
        let dirty_start := offset + o.1 in
        let dirty_end := dirty_start + zlen o.2 in
        if dirty_start >=? span_end then fetch span offset cursor span_end result
        else if dirty_end <=? cursor then fetch_uncovered span offset cursor rest result
        else
          result ← (if dirty_start >? cursor then fetch span offset cursor dirty_start result else mret result);
          fetch_uncovered span offset (Z.min span_end dirty_end) rest result
      else fetch span offset cursor span_end result
  | [] => fetch span offset cursor span_end result
  end.

Fixpoint skip_overlays (overlays : DirtyRanges) (offset span_start : Z) : DirtyRanges :=
  match overlays with
  | o :: rest => if offset + o.1 + zlen o.2 <=? span_start then skip_overlays rest offset span_start else overlays
  | [] => []
  end.

Fixpoint fetch_spans (spans : list ResolvedSlice) (offset : Z) (overlays : DirtyRanges) (result : bytes) : io bytes :=
  match spans with
  | [] => mret result
  | span :: rest =>
      if rs_id span =? 0 then fetch_spans rest offset overlays result else
      let overlays := skip_overlays overlays offset (rs_pos span) in
      result ← fetch_uncovered span offset (rs_pos span) overlays result;
      fetch_spans rest offset overlays result
  end.

Definition Read (offset len : Z) : io bytes :=
  _ ← io_fail_if ((offset >? chunk_size) || (len >? chunk_size - offset)) InvalidArgument;
  if len =? 0 then mret [] else
  s ← io_get;
  let overlays := overlays_in (sc_dirty s) offset len in
  let boundaries := sc_boundaries s in
  _ ← match sc_boundary_error s with Some e => io_fail e | None => mret tt end;
  let result := zeros len in
  snapshot ← call be_snapshot;
  result ← match fcs_chunk_id snapshot with
           | None => mret result
           | Some chunk_id =>
               _ ← io_fail_if (chunk_size >? UINT32_MAX) InvalidArgument;
               records ← mapped_records chunk_id;
               start ← io_lift (CalculateChunkStartOffset index chunk_size);
               let size_at_eof := size_at_eof snapshot start in
               let published_length := if offset <? size_at_eof then Z.min len (size_at_eof - offset) else 0 in
               records ← io_lift (sanitized_records boundaries chunk_id records);
               spans ← io_lift (ResolveRange records (u32 chunk_size) (u32 offset) (u32 published_length));
               fetch_spans spans offset overlays result
           end;
  mret (foldl (λ m o, memcpy m o.1 o.2) result overlays).

(** Published bytes only. *)
Fixpoint copy_spans (spans : list ResolvedSlice) (offset : Z) (out : bytes) : io bytes :=
  match spans with
  | [] => mret out
  | span :: rest =>
      if rs_id span =? 0 then copy_spans rest offset out else
      physical ← call (be_get (SliceObjectKey (rs_id span)) (rs_off span) (rs_len span));
      _ ← io_fail_if (negb (zlen physical =? rs_len span)) IOError;
      copy_spans rest offset (memcpy out (rs_pos span - offset) physical)
  end.

Definition ReadCommittedRange (offset len : Z) : io bytes :=
  _ ← io_fail_if ((offset >? chunk_size) || (len >? chunk_size - offset)) InvalidArgument;
  _ ← io_fail_if (chunk_size >? UINT32_MAX) InvalidArgument;
  let out := zeros len in
  if len =? 0 then mret out else
  s ← io_get;
  _ ← match sc_boundary_error s with Some e => io_fail e | None => mret tt end;
  snapshot ← call be_snapshot;
  match fcs_chunk_id snapshot with
  | None => mret out
  | Some chunk_id =>
      records ← mapped_records chunk_id;
      start ← io_lift (CalculateChunkStartOffset index chunk_size);
      let size_at_eof := size_at_eof snapshot start in
      if offset >=? size_at_eof then mret out else
      let committed_length := Z.min len (size_at_eof - offset) in
      records ← io_lift (sanitized_records (sc_boundaries s) chunk_id records);
      spans ← io_lift (ResolveRange records (u32 chunk_size) (u32 offset) (u32 committed_length));
      copy_spans spans offset out
  end.

(** ** Coalescing small writes of a window *)

(** A frozen slice as it was when its lengths were snapshotted. *)
Record PendingView := mkView { pv_candidate : nat; pv_slice : FrozenSlice }.
Definition pending_views (s : SliceChunk) : list PendingView :=
  omap (λ a, mkView a <$> slice_at s a) (sc_frozen s).

Record GroupBuild := mkGroup { gb_pos : Z; gb_record_end : Z; gb_dirty_end : Z; gb_insert_after : Z; gb_interval_count : Z }.

(** Not yet materialized, and small enough to lie inside its window. *)
Definition window_base (f : FrozenSlice) : Z := fs_pos f / kRmwWindowBytes * kRmwWindowBytes.
Definition started (f : FrozenSlice) : bool :=
  fs_window_group f || bool_decide (is_Some (fs_prepared_id f)) || bool_decide (is_Some (fs_created_chunk_id f)) ||
  bool_decide (is_Some (fs_recorded_chunk_id f)) || bool_decide (is_Some (fs_uncertain_record_chunk_id f)).
Definition groupable (f : FrozenSlice) : bool :=
  negb (fs_visible_len f =? 0) && negb (started f) && (fs_visible_len f <? kRmwWindowBytes) &&
  (fs_visible_len f <=? window_base f + kRmwWindowBytes - fs_pos f).

Definition add_to_group (i : Z) (f : FrozenSlice) (groups : list (Z * GroupBuild)) : list (Z * GroupBuild) :=
  let portion_end := fs_pos f + fs_visible_len f in
  let g := match map_find (window_base f) groups with
           | None => mkGroup (fs_pos f) portion_end portion_end i 1
           | Some g => mkGroup (Z.min (gb_pos g) (fs_pos f)) (Z.max (gb_record_end g) portion_end)
                         (Z.max (gb_dirty_end g) portion_end) (Z.max (gb_insert_after g) i) (gb_interval_count g + 1)
           end in
  map_assign (window_base f) g groups.
Fixpoint build_groups (i : Z) (pending : list PendingView) (groups : list (Z * GroupBuild)) : list (Z * GroupBuild) :=
  match pending with
  | [] => groups
  | v :: rest => build_groups (i + 1) rest (if groupable (pv_slice v) then add_to_group i (pv_slice v) groups else groups)
  end.
Definition window_groups (pending : list PendingView) : list (Z * GroupBuild) :=
  List.filter (λ g, negb (gb_interval_count g.2 <? 2)) (build_groups 0 pending []).
Definition group_sources (pending : list PendingView) (groups : list (Z * GroupBuild)) : list nat :=
  pv_candidate <$> List.filter (λ v, groupable (pv_slice v) && bool_decide (is_Some (map_find (window_base (pv_slice v)) groups))) pending.

(** Every pending generation over the committed bytes of a group, in acceptance order. *)
Fixpoint overlay_pending (i : Z) (pending : list PendingView) (g : GroupBuild) (payload : bytes) : GroupBuild * bytes :=
  match pending with
  | [] => (g, payload)
  | v :: rest =>
      let f := pv_slice v in
      let candidate_end := fs_pos f + fs_visible_len f in
      let start := Z.max (gb_pos g) (fs_pos f) in
      let end_ := Z.min (gb_record_end g) candidate_end in
      if (fs_visible_len f =? 0) || (start >=? end_) then overlay_pending (i + 1) rest g payload else
      let payload := memcpy payload (start - gb_pos g) (substr (fs_payload f) (start - fs_pos f) (end_ - start)) in
      let dirty_end := fs_pos f + Z.min (fs_eof_len f) (fs_visible_len f) in
      let g := mkGroup (gb_pos g) (gb_record_end g)
                 (if dirty_end >? gb_pos g then Z.max (gb_dirty_end g) (Z.min dirty_end (gb_record_end g)) else gb_dirty_end g)
                 (Z.max (gb_insert_after g) i) (gb_interval_count g) in
      overlay_pending (i + 1) rest g payload
  end.
Definition clamp (x lo hi : Z) : Z := if x <? lo then lo else if hi <? x then hi else x.

(** Materialize the groups in window order: (insert position, new slice). *)
Fixpoint build_candidates (pending : list PendingView) (groups : list (Z * GroupBuild)) : io (list (Z * nat)) :=
  match groups with
  | [] => mret []
  | (_, g) :: rest =>
      payload ← ReadCommittedRange (gb_pos g) (gb_record_end g - gb_pos g);
      let '(g, payload) := overlay_pending 0 pending g payload in
      let dirty_end := clamp (gb_dirty_end g) (gb_pos g) (gb_record_end g) in
      s ← io_get;
      let a := length (sc_heap s) in
      _ ← io_modify (λ s, set_frozen (sc_heap s ++ [new_frozen (gb_pos g) payload (zlen payload) (dirty_end - gb_pos g) true]) (sc_frozen s) s);
      others ← build_candidates pending rest;
      mret ((gb_insert_after g, a) :: others)
  end.

Definition inserted_at (i : Z) (inserts : list (Z * nat)) : list nat := snd <$> List.filter (λ x, x.1 =? i) inserts.
Fixpoint splice (i : Z) (slices sources : list nat) (inserts : list (Z * nat)) : list nat :=
  match slices with
  | [] => []
  | a :: rest => (if bool_decide (a ∈ sources) then [] else [a]) ++ inserted_at i inserts ++ splice (i + 1) rest sources inserts
  end.

(** The candidates to publish, in order. *)
Fixpoint PrepareWindowCandidates (attempts : nat) (candidates : list nat) : io (list nat) :=
  match attempts with
  | O => io_fail Busy
  | S attempts =>
      s ← io_get;
      let epoch := sc_truncate_epoch s in
      let pending := pending_views s in
      let groups := window_groups pending in
      match group_sources pending groups with
      | [] => mret candidates
      | sources =>
          inserts ← build_candidates pending groups;
          s ← io_get;
          if negb (epoch =? sc_truncate_epoch s) then PrepareWindowCandidates attempts candidates else
          _ ← io_modify (λ s, set_frozen (sc_heap s) (splice 0 (sc_frozen s) sources inserts) s);
          mret (splice 0 (pv_candidate <$> pending) sources inserts)
      end
  end.

(** ** Publication *)
Definition same_record (a b : SliceRecord) : bool :=
  (sr_pos a =? sr_pos b) && (sr_id a =? sr_id b) && (sr_size a =? sr_size b) && (sr_off a =? sr_off b) && (sr_len a =? sr_len b).

(** Whether the index holds the record ([matches]). *)
Definition record_present (chunk_id : Z) (record : SliceRecord) : io bool :=
  r ← io_try (call (be_records chunk_id));
  match r with
  | Err NotFound => mret false
  | Err s => io_fail s
  | Ok records => mret (existsb (λ current, same_record current record) records)
  end.

Definition slice_of (a : nat) : io FrozenSlice :=
  s ← io_get; match slice_at s a with Some f => mret f | None => io_fail Internal end.
Definition modify_slice (a : nat) (f : FrozenSlice → FrozenSlice) : io unit := io_modify (update_slice a f).

(** Append or create the record once; an ambiguous reply is read back, never replayed. *)
Definition ensure_recorded (a : nat) (already_attached : bool) (chunk_id : Z) (record : SliceRecord) : io unit :=
  candidate ← slice_of a;
  if bool_decide (fs_recorded_chunk_id candidate = Some chunk_id) then mret tt else
  if bool_decide (fs_uncertain_record_chunk_id candidate = Some chunk_id) then
    r ← io_try (record_present chunk_id record);
    match r with
    | Ok true => modify_slice a (set_recorded chunk_id)
    | _ => io_fail OutcomeUnknown
    end
  else
    r ← io_try (call (if already_attached then be_append chunk_id record else be_create_index chunk_id record));
    match r with
    | Err OutcomeUnknown =>
        _ ← modify_slice a (set_uncertain chunk_id);
        confirmed ← io_try (record_present chunk_id record);
        match confirmed with
        | Ok true => modify_slice a (set_recorded chunk_id)
        | _ => io_fail OutcomeUnknown
        end
    | Err s => io_fail s
    | Ok _ => modify_slice a (set_recorded chunk_id)
    end.

(** The chunk a slice is recorded in, and whether it is attached. *)
Definition target_chunk (a : nat) (snapshot : FileChunkSnapshot) : io (Z * bool) :=
  match fcs_chunk_id snapshot with
  | Some c => mret (c, true)
  | None =>
      candidate ← slice_of a;
      match fs_created_chunk_id candidate with
      | Some c => mret (c, false)
      | None =>
          c ← call be_allocate_chunk;
          _ ← io_fail_if ((c =? kInvalidChunkID) || (c >? kMaxChunkIDValue)) Malformed;
          _ ← modify_slice a (set_created c);
          mret (c, false)
      end
  end.

(** [None] is a lost precondition race: try again. *)
Definition publish_attempt (a : nat) (record : SliceRecord) (end_ : Z) : io (option unit) :=
  snapshot ← call be_snapshot;
  let expected := mkFileSizePrecondition (InodeTypes.size (attr (fcs_inode snapshot))) (fcs_eof_boundary snapshot) in
  target ← target_chunk a snapshot;
  let '(chunk_id, already_attached) := target : Z * bool in
  _ ← ensure_recorded a already_attached chunk_id record;
  r ← io_try (call (if already_attached then be_finalize chunk_id end_ expected else be_attach chunk_id end_ expected));
  match r with
  | Ok _ => mret (Some tt)
  | Err OutcomeUnknown =>
      if already_attached then io_fail OutcomeUnknown else
      observed ← io_try (call be_snapshot);
      match observed with
      | Ok o => if bool_decide (fcs_chunk_id o = Some chunk_id) && (InodeTypes.size (attr (fcs_inode o)) >=? end_)
                then mret (Some tt) else io_fail OutcomeUnknown
      | Err _ => io_fail OutcomeUnknown
      end
  | Err s => if ToErrno s =? EEXIST then mret None else io_fail s
  end.
Fixpoint publish_loop (attempts : nat) (a : nat) (record : SliceRecord) (end_ : Z) : io unit :=
  match attempts with
  | O => io_fail AlreadyExists
  | S attempts =>
      r ← publish_attempt a record end_;
      match r with Some _ => mret tt | None => publish_loop attempts a record end_ end
  end.

Definition PublishFrozen (a : nat) : io unit :=
  candidate ← slice_of a;
  if fs_visible_len candidate =? 0 then mret tt else
  match fs_prepared_id candidate with
  | None => io_fail Internal
  | Some id =>
      let record := mkSliceRecord (u32 (fs_pos candidate)) id (u32 (zlen (fs_payload candidate))) 0 (u32 (fs_visible_len candidate)) in
      let eof_len := Z.min (fs_eof_len candidate) (fs_visible_len candidate) in
      _ ← io_lift (check (ValidateRecord record (u32 chunk_size)));
      start ← io_lift (CalculateChunkStartOffset index chunk_size);
      _ ← io_fail_if ((sr_pos record >? kMaxSupportedFileSize - start) ||
                      (sr_len record >? kMaxSupportedFileSize - (start + sr_pos record))) InvalidArgument;
      publish_loop 8 a record (start + sr_pos record + eof_len)
  end.

(** ** Flush *)
Fixpoint upload_all (candidates : list nat) : io unit :=
  match candidates with
  | [] => mret tt
  | a :: rest =>
      candidate ← slice_of a;
      if (fs_visible_len candidate =? 0) || bool_decide (is_Some (fs_prepared_id candidate)) then upload_all rest else
      _ ← io_fail_if ((zlen (fs_payload candidate) =? 0) || (zlen (fs_payload candidate) >? UINT32_MAX)) InvalidArgument;
      id ← call be_allocate_slice;
      _ ← io_fail_if ((id =? 0) || (id >? INT64_MAX)) Malformed;
      _ ← call (be_put (SliceObjectKey id) (fs_payload candidate));
      _ ← modify_slice a (λ f, if fs_visible_len f =? 0 then f else set_prepared id f);
      upload_all rest
  end.

Definition retire_committed (committed : list nat) (s : SliceChunk) : SliceChunk :=
  match committed with
  | [] => s
  | _ => RebuildDirtyLocked (set_frozen (sc_heap s) (List.filter (λ a, negb (bool_decide (a ∈ committed))) (sc_frozen s)) s)
  end.

(** Publish in order; whatever was published is retired, also when a later slice fails. *)
Fixpoint publish_all (candidates committed : list nat) : io unit :=
  match candidates with
  | [] => io_modify (retire_committed committed)
  | a :: rest =>
      candidate ← slice_of a;
      if fs_visible_len candidate =? 0 then publish_all rest committed else
      r ← io_try (PublishFrozen a);
      match r with
      | Ok _ => publish_all rest (committed ++ [a])
      | Err s => _ ← io_modify (retire_committed committed); io_fail s
      end
  end.

Definition Flush : io unit :=
  _ ← io_fail_if (chunk_size >? UINT32_MAX) InvalidArgument;
  s ← io_get;
  _ ← io_fail_if (sc_flushing s) Busy;
  _ ← io_modify (λ s : SliceChunk, FreezeActiveLocked (set_flushing true s));
  s ← io_get;
  r ← io_try (candidates ← PrepareWindowCandidates kMaxRmwInstallAttempts (sc_frozen s);
              _ ← upload_all candidates;
              publish_all candidates []);
  _ ← io_modify (set_flushing false);
  io_lift r.

End SliceChunk.
