(* ===== verification/SliceLocal.v ===== *)
(** * The local session of a slice chunk

    What the accepted writes of a session look like from outside: [dirty_] is a projection
    of the buffered generations, [active_] over [frozen_] newest first ([local_at]).  The
    invariant [session_ok] ties them together, bounds the active generation, and is kept by
    [Write], by freezing and by the locked part of [TruncateLocal]. *)

From S2P Require Import Prelude RedisKv Decimal StdMap ChunkGeometry SliceHistory DirtyRanges Records MetaEngine SliceChunk.

(** ** Counting covered positions *)

(** How many of the [n] positions from [a] on satisfy [f]. *)
Fixpoint count (f : Z → bool) (a : Z) (n : nat) : Z :=
  match n with
  | O => 0
  | S n => (if f a then 1 else 0) + count f (a + 1) n
  end.

Lemma count_ext f g a n : (∀ p, a ≤ p < a + Z.of_nat n → f p = g p) → count f a n = count g a n.
Proof.
  revert a. induction n as [|n IH]; intros a Hfg; cbn; [done|].
  rewrite (Hfg a), (IH (a + 1)) by (intros; try apply Hfg; lia). done.
Qed.
Lemma count_add f a n m : count f a (n + m) = count f a n + count f (a + Z.of_nat n) m.
Proof.
  revert a. induction n as [|n IH]; intros a; cbn [count Nat.add]; [by rewrite Z.add_0_r|].
  rewrite IH. replace (a + Z.of_nat (S n)) with (a + 1 + Z.of_nat n) by lia. lia.
Qed.
Lemma count_orb f g a n :
  (∀ p, f p = true → g p = false) → count (λ p, f p || g p) a n = count f a n + count g a n.
Proof.
  intros Hd. revert a. induction n as [|n IH]; intros a; cbn; [done|]. rewrite IH.
  specialize (Hd a). destruct (f a) eqn:E; [rewrite Hd by done|]; cbn; [|destruct (g a)]; lia.
Qed.
Lemma count_false f a n : (∀ p, a ≤ p < a + Z.of_nat n → f p = false) → count f a n = 0.
Proof.
  intros Hf. rewrite (count_ext f (λ _, false)) by done. clear Hf. revert a.
  induction n as [|n IH]; intros a; cbn; [done|]. by rewrite IH.
Qed.
Lemma count_nonneg f a n : 0 ≤ count f a n.
Proof. revert a. induction n as [|n IH]; intros a; cbn; [lia|]. specialize (IH (a + 1)). destruct (f a); lia. Qed.
Lemma count_mono f g a n : (∀ p, f p = true → g p = true) → count f a n ≤ count g a n.
Proof.
  intros Hfg. revert a. induction n as [|n IH]; intros a; cbn; [done|]. specialize (IH (a + 1)). specialize (Hfg a).
  destruct (f a); [rewrite Hfg by done|destruct (g a)]; lia.
Qed.
Lemma count_interval lo hi a n :
  count (λ p, (lo <=? p) && (p <? hi)) a n = Z.max 0 (Z.min hi (a + Z.of_nat n) - Z.max lo a).
Proof.
  revert a. induction n as [|n IH]; intros a; cbn [count]; [lia|]. rewrite IH.
  destruct (Z.leb_spec lo a), (Z.ltb_spec a hi); cbn [andb]; lia.
Qed.

Definition dirty_in (rs : DirtyRanges) (p : Z) : bool := bool_decide (is_Some (dirty_at rs p)).

Lemma dirty_in_cons r rs p : dirty_in (r :: rs) p = in_range_of r p || dirty_in rs p.
Proof.
  unfold dirty_in. destruct (in_range_of_cases r p) as [[Hp E]|[Hp E]]; cbn; rewrite E; [|done].
  destruct (byte_at_inside r.2 (p - r.1)) as [c ->]; [unfold range_end in *; lia|done].
Qed.
Lemma dirty_in_true rs p : dirty_in rs p = true ↔ is_Some (dirty_at rs p).
Proof. apply bool_decide_eq_true. Qed.
Lemma dirty_in_false rs p : dirty_in rs p = false ↔ dirty_at rs p = None.
Proof. unfold dirty_in. rewrite bool_decide_eq_false, <- eq_None_not_Some. done. Qed.

Lemma ranges_ok_cons r rs :
  ranges_ok (r :: rs) → range_ok r ∧ ranges_ok rs ∧ (∀ s, s ∈ rs → range_end r < s.1).
Proof.
  change (r :: rs) with ([r] ++ rs). intros (H1 & H2 & H3)%ranges_ok_app.
  destruct H1 as [_ Hr]. inversion Hr; subst. split_and!; try done. intros s. apply H3. by left.
Qed.
Lemma ranges_ok_disjoint r rs p : ranges_ok (r :: rs) → in_range_of r p = true → dirty_in rs p = false.
Proof.
  intros (_ & _ & H)%ranges_ok_cons Hp%in_range_of_true. apply dirty_in_false.
  apply (dirty_at_above rs p (range_end r)); [|lia]. intros s Hs. specialize (H s Hs). lia.
Qed.

Lemma count_dirty_cons r rs a n :
  ranges_ok (r :: rs) →
  count (dirty_in (r :: rs)) a n = count (in_range_of r) a n + count (dirty_in rs) a n.
Proof.
  intros Hok. rewrite (count_ext _ (λ p, in_range_of r p || dirty_in rs p)) by (intros; apply dirty_in_cons).
  apply count_orb. intros p. by apply ranges_ok_disjoint.
Qed.

Lemma covered_bytes_count rs a b :
  ranges_ok rs → a ≤ b → covered_bytes rs a b = count (dirty_in rs) a (Z.to_nat (b - a)).
Proof.
  intros Hok Hab. induction rs as [|r rs IH]; cbn [covered_bytes].
  { symmetry. by apply count_false. }
  rewrite count_dirty_cons by done. pose proof Hok as ([_ ?] & Hrs & Hsep)%ranges_ok_cons.
  unfold in_range_of at 1. rewrite count_interval, Z2Nat.id by lia.
  destruct (Z.ltb_spec r.1 b).
  - rewrite IH by done. destruct (Z.ltb_spec (Z.max r.1 a) (Z.min (range_end r) b)); lia.
  - rewrite count_false; [unfold range_end in *; lia|]. intros p Hp. apply dirty_in_false.
    apply (dirty_at_above rs p b); [|lia]. intros s Hs. specialize (Hsep s Hs). unfold range_end in Hsep. lia.
Qed.

Definition within (n : Z) (rs : DirtyRanges) : Prop := Forall (λ r, range_end r ≤ n) rs.

Lemma total_bytes_count rs n :
  ranges_ok rs → within n rs → 0 ≤ n → total_bytes rs = count (dirty_in rs) 0 (Z.to_nat n).
Proof.
  intros Hok Hn ?. induction Hn as [|r rs Hr _ IH]; [symmetry; by apply count_false|].
  change (total_bytes (r :: rs)) with (zlen r.2 + total_bytes rs). rewrite count_dirty_cons by done.
  pose proof Hok as ([? ?] & Hrs & _)%ranges_ok_cons. rewrite IH by done.
  unfold in_range_of at 1. rewrite count_interval, Z2Nat.id by lia. unfold range_end in *. lia.
Qed.

Lemma within_dirty_at n rs p : within n rs → n ≤ p → dirty_at rs p = None.
Proof. intros Hw Hp. apply dirty_at_None. eapply Forall_impl; [exact Hw|]. cbn. intros r. lia. Qed.

(** Ranges lie within [n] when no byte at [n] or later is dirty. *)
Lemma within_of_dirty_at n rs : ranges_ok rs → (∀ p, n ≤ p → dirty_at rs p = None) → within n rs.
Proof.
  intros Hok Hp. apply Forall_forall. intros r Hr. apply list_elem_of_split in Hr as (l & k & ->).
  destruct (Z.le_gt_cases (range_end r) n) as [|Hgt]; [done|].
  specialize (Hp (range_end r - 1) ltac:(lia)). exfalso.
  rewrite dirty_at_app in Hp. destruct (dirty_at l _); [done|].
  apply ranges_ok_app in Hok as (_ & ([? ?] & _)%ranges_ok_cons & _).
  destruct (dirty_at_cons_inside r k (range_end r - 1)) as (c & Hc & _); [unfold range_end; lia|]. congruence.
Qed.

(** The ranges before the last one that starts at or before [off] end before it. *)
Lemma from_previous_spec b a off :
  ranges_ok (b ++ a) → (∀ r, r ∈ b → r.1 ≤ off) →
  ranges_ok (from_previous b a) ∧ (∀ p, off ≤ p → dirty_at (from_previous b a) p = dirty_at (b ++ a) p) ∧
  (∀ r, r ∈ from_previous b a → r ∈ b ++ a).
Proof.
  intros Hok Hb. unfold from_previous. destruct (last b) as [r|] eqn:Hlast.
  - apply last_Some in Hlast as [b0 ->]. rewrite <- app_assoc in *. cbn [app] in *.
    pose proof Hok as (_ & H2 & H3)%ranges_ok_app. split_and!; [done| |by intros; apply elem_of_app; right].
    intros p Hp. rewrite (dirty_at_app b0), (dirty_at_below b0 p off); [done| |done].
    intros q Hq. specialize (H3 q r Hq ltac:(by left)). specialize (Hb r ltac:(set_solver)). lia.
  - apply last_None in Hlast as ->. done.
Qed.

Lemma covered_in_count rs a b :
  ranges_ok rs → a ≤ b → covered_in rs a b = count (dirty_in rs) a (Z.to_nat (b - a)).
Proof.
  intros Hok Hab. unfold covered_in. destruct (map_upper_bound a rs) as [bef it] eqn:E.
  apply map_upper_bound_spec in E as (-> & Hb & _); [|by apply ranges_ok_sorted].
  destruct (from_previous_spec bef it a Hok) as (Hok' & Hat & _).
  { intros r Hr. rewrite Forall_forall in Hb. specialize (Hb r Hr). by apply Z.ltb_ge in Hb. }
  rewrite covered_bytes_count by done. apply count_ext. intros p Hp. unfold dirty_in. rewrite Hat by lia. done.
Qed.

Lemma accepted_within n rs off bs out :
  accepted rs off bs out → within n rs → off + zlen bs ≤ n → within n out.1.
Proof.
  intros (Hok & Hat & _) Hw Hn. apply within_of_dirty_at; [done|]. intros p Hp. rewrite Hat.
  rewrite (proj2 (Z.ltb_ge p _)), andb_false_r by lia. by apply (within_dirty_at n).
Qed.

(** The growth [AcceptWrite] reports is the part of the write that was not covered. *)
Lemma accepted_grown n rs off bs out :
  accepted rs off bs out → ranges_ok rs → within n rs → 0 ≤ off → off + zlen bs ≤ n →
  out.2 = zlen bs - covered_in rs off (off + zlen bs).
Proof.
  intros Ha Hok Hw ? ?. pose proof (accepted_within n _ _ _ _ Ha Hw ltac:(lia)) as Hw'.
  destruct Ha as (Hok' & Hat & ->). pose proof (zlen_nonneg bs).
  rewrite (total_bytes_count out.1 n), (total_bytes_count rs n), covered_in_count by (done || lia).
  replace (Z.to_nat n) with (Z.to_nat off + (Z.to_nat (off + zlen bs - off) + Z.to_nat (n - (off + zlen bs))))%nat by lia.
  rewrite !count_add, !Z.add_0_l, !Z2Nat.id by lia.
  assert (∀ p, ¬ (off ≤ p < off + zlen bs) → dirty_in out.1 p = dirty_in rs p) as Hout.
  { intros p Hp. unfold dirty_in. rewrite Hat. destruct (Z.leb_spec off p), (Z.ltb_spec p (off + zlen bs)); try done; lia. }
  rewrite (count_ext (dirty_in out.1) (dirty_in rs) 0), (count_ext (dirty_in out.1) (dirty_in rs) (off + _))
    by (intros; apply Hout; lia).
  rewrite (count_ext (dirty_in out.1) (λ p, (off <=? p) && (p <? off + zlen bs)) off).
  { rewrite count_interval, Z2Nat.id by lia. lia. }
  intros p Hp. unfold dirty_in. rewrite Hat, Z2Nat.id in * by lia.
  destruct (Z.leb_spec off p), (Z.ltb_spec p (off + zlen bs)); cbn; try lia.
  apply bool_decide_eq_true, byte_at_inside. lia.
Qed.

(** ** What a session holds *)
Definition over (a b : option ascii) : option ascii := match a with Some c => Some c | None => b end.

(** The byte a slice gives a chunk position, and the newest of a list of slices, oldest first. *)
Definition slice_byte (f : FrozenSlice) (k : Z) : option ascii :=
  if (fs_pos f <=? k) && (k <? fs_pos f + fs_visible_len f) then byte_at (fs_payload f) (k - fs_pos f) else None.
Definition frozen_at (fs : list FrozenSlice) (k : Z) : option ascii :=
  foldl (λ acc f, over (slice_byte f k) acc) None fs.
Definition local_at (s : SliceChunk) (k : Z) : option ascii :=
  over (dirty_at (sc_active s) k) (frozen_at (frozen_slices s) k).

(** Some generation, not necessarily the newest, holds the byte. *)
Definition pending_at (s : SliceChunk) (k : Z) (c : ascii) : Prop :=
  dirty_at (sc_active s) k = Some c ∨ ∃ f, f ∈ frozen_slices s ∧ slice_byte f k = Some c.

(** A pending slice lies in the chunk, holds what it shows and ends where its EOF does. *)
Definition slice_ok (cs : Z) (f : FrozenSlice) : Prop :=
  0 ≤ fs_pos f ∧ 0 < fs_visible_len f ≤ zlen (fs_payload f) ∧ fs_pos f + zlen (fs_payload f) ≤ cs ∧
  fs_eof_len f = fs_visible_len f ∧ zlen (fs_payload f) ≤ kMaxActiveSliceBytes.

(** The buffers of a session; [n] bounds the active bytes. *)
Record buffers_ok (cs n : Z) (s : SliceChunk) : Prop := {
  bo_dirty : ranges_ok (sc_dirty s); bo_dirty_in : within cs (sc_dirty s);
  bo_active : ranges_ok (sc_active s); bo_active_in : within cs (sc_active s);
  bo_bytes : sc_active_bytes s = total_bytes (sc_active s); bo_bound : sc_active_bytes s ≤ n;
  bo_nodup : NoDup (sc_frozen s);
  bo_frozen : Forall (λ a, ∃ f, slice_at s a = Some f ∧ slice_ok cs f) (sc_frozen s);
}.

(** The read projection agrees with the generations it projects. *)
Record session_ok (cs : Z) (s : SliceChunk) : Prop := {
  so_buffers : buffers_ok cs (kMaxActiveSliceBytes - 1) s;
  so_view : ∀ k c, dirty_at (sc_dirty s) k = Some c → local_at s k = Some c;
}.

(** Accepting writes only appends: new slices at new addresses, everything else kept. *)
Record grown (s s' : SliceChunk) : Prop := {
  gr_heap : ∃ fresh, sc_heap s' = sc_heap s ++ fresh ∧ Forall (λ f, started f = false) fresh;
  gr_frozen : ∃ new, sc_frozen s' = sc_frozen s ++ new ∧ NoDup new ∧
    Forall (λ a, length (sc_heap s) ≤ a < length (sc_heap s'))%nat new;
  gr_flushing : sc_flushing s' = sc_flushing s; gr_boundaries : sc_boundaries s' = sc_boundaries s;
  gr_error : sc_boundary_error s' = sc_boundary_error s; gr_epoch : sc_truncate_epoch s' = sc_truncate_epoch s;
}.

Definition overwritten (offset : Z) (data : bytes) (v : Z → option ascii) (k : Z) : option ascii :=
  if (offset <=? k) && (k <? offset + zlen data) then byte_at data (k - offset) else v k.

Lemma over_assoc a b c : over (over a b) c = over a (over b c).
Proof. by destruct a. Qed.
Lemma over_None a : over a None = a.
Proof. by destruct a. Qed.
Lemma over_Some_inv a b c : over a b = Some c → a = Some c ∨ (a = None ∧ b = Some c).
Proof. destruct a; cbn; naive_solver. Qed.

Lemma frozen_at_snoc fs f k : frozen_at (fs ++ [f]) k = over (slice_byte f k) (frozen_at fs k).
Proof. unfold frozen_at. by rewrite foldl_app. Qed.
Lemma frozen_at_app l r k : frozen_at (l ++ r) k = over (frozen_at r k) (frozen_at l k).
Proof.
  induction r as [|f r IH] using rev_ind; [by rewrite app_nil_r|].
  by rewrite app_assoc, !frozen_at_snoc, IH, over_assoc.
Qed.
Lemma frozen_at_cons f fs k : frozen_at (f :: fs) k = over (frozen_at fs k) (slice_byte f k).
Proof. change (f :: fs) with ([f] ++ fs). rewrite frozen_at_app. unfold frozen_at at 2. cbn. by rewrite over_None. Qed.
Lemma frozen_at_elem fs k c : frozen_at fs k = Some c → ∃ f, f ∈ fs ∧ slice_byte f k = Some c.
Proof.
  induction fs as [|f fs IH] using rev_ind; [done|]. rewrite frozen_at_snoc.
  intros [H|[_ H]]%over_Some_inv; [set_solver|]. destruct (IH H) as (g & ? & ?). set_solver.
Qed.

Lemma slice_byte_inside f cs k :
  slice_ok cs f → fs_pos f ≤ k < fs_pos f + fs_visible_len f → is_Some (slice_byte f k).
Proof.
  intros (? & ? & _) Hk. unfold slice_byte. rewrite (proj2 (Z.leb_le _ _)), (proj2 (Z.ltb_lt _ _)) by lia.
  apply byte_at_inside. lia.
Qed.
Lemma slice_byte_Some f k c :
  slice_byte f k = Some c → fs_pos f ≤ k < fs_pos f + fs_visible_len f ∧ byte_at (fs_payload f) (k - fs_pos f) = Some c.
Proof.
  unfold slice_byte. destruct (Z.leb_spec (fs_pos f) k), (Z.ltb_spec k (fs_pos f + fs_visible_len f)); cbn; try done.
Qed.

(** The heap cells of old addresses survive an append. *)
Lemma omap_lookup_app (h fresh : list FrozenSlice) l :
  Forall (λ a, (a < length h)%nat) l → omap (λ a, (h ++ fresh) !! a) l = omap (λ a, h !! a) l.
Proof.
  induction 1 as [|a l Ha _ IH]; [done|]. cbn. rewrite lookup_app_l, IH by done. done.
Qed.
Lemma omap_lookup_seq (h fresh : list FrozenSlice) :
  omap (λ a, (h ++ fresh) !! a) (seq (length h) (length fresh)) = fresh.
Proof.
  revert h. induction fresh as [|f fresh IH]; intros h; [done|]. cbn.
  rewrite lookup_app_r, Nat.sub_diag by lia. cbn. f_equal.
  specialize (IH (h ++ [f])). rewrite length_app in IH. cbn in IH. rewrite Nat.add_1_r, <- app_assoc in IH. exact IH.
Qed.

Lemma buffers_valid cs n s : buffers_ok cs n s → Forall (λ a, (a < length (sc_heap s))%nat) (sc_frozen s).
Proof.
  intros H. eapply Forall_impl; [exact (bo_frozen _ _ _ H)|]. intros a (f & Hf & _). by eapply lookup_lt_Some.
Qed.
Lemma buffers_slices cs n s : buffers_ok cs n s → Forall (slice_ok cs) (frozen_slices s).
Proof.
  intros H. apply Forall_forall. intros f (a & Ha & Hf)%list_elem_of_omap.
  pose proof (bo_frozen _ _ _ H) as Hs. rewrite Forall_forall in Hs.
  destruct (Hs a Ha) as (g & Hg & ?). by simplify_eq.
Qed.

Definition fresh_slices (active : DirtyRanges) : list FrozenSlice :=
  (λ r : Z * bytes, new_frozen r.1 r.2 (zlen r.2) (zlen r.2) false) <$> active.

Lemma fresh_slices_at rs k : ranges_ok rs → frozen_at (fresh_slices rs) k = dirty_at rs k.
Proof.
  induction rs as [|r rs IH]; intros Hok; [done|]. unfold fresh_slices in *. cbn [fmap list_fmap].
  rewrite frozen_at_cons, IH by (by apply ranges_ok_cons in Hok as (_ & ? & _)).
  cbn [dirty_at]. unfold slice_byte, new_frozen; cbn. fold (range_end r). fold (in_range_of r k).
  destruct (in_range_of_cases r k) as [[Hin E]|[_ E]]; rewrite E; [|by rewrite over_None].
  apply (ranges_ok_disjoint _ _ _ Hok), dirty_in_false in E. by rewrite E.
Qed.

Lemma fresh_slice_byte rs f k c : ranges_ok rs → f ∈ fresh_slices rs → slice_byte f k = Some c → dirty_at rs k = Some c.
Proof.
  intros Hok (r & -> & (l & l' & ->)%list_elem_of_split)%list_elem_of_fmap [Hk Hc]%slice_byte_Some. cbn in Hk, Hc.
  rewrite dirty_at_app. apply ranges_ok_app in Hok as (_ & _ & Hsep).
  rewrite (dirty_at_below l k r.1); [|intros q Hq; specialize (Hsep q r Hq ltac:(by left)); lia|lia].
  cbn [dirty_at]. rewrite (proj2 (in_range_of_true r k)) by (unfold range_end; lia). done.
Qed.

Lemma total_bytes_nonneg rs : 0 ≤ total_bytes rs.
Proof. induction rs as [|r rs IH]; [done|]. change (total_bytes (r :: rs)) with (zlen r.2 + total_bytes rs). pose proof (zlen_nonneg r.2). lia. Qed.
Lemma total_bytes_elem rs r : r ∈ rs → zlen r.2 ≤ total_bytes rs.
Proof.
  intros (l & k & ->)%list_elem_of_split. rewrite total_bytes_app.
  change (total_bytes (r :: k)) with (zlen r.2 + total_bytes k).
  pose proof (total_bytes_nonneg l). pose proof (total_bytes_nonneg k). lia.
Qed.

Lemma fresh_slices_ok cs rs :
  ranges_ok rs → within cs rs → total_bytes rs ≤ kMaxActiveSliceBytes → Forall (slice_ok cs) (fresh_slices rs).
Proof.
  intros [_ Hok] Hw Ht. apply Forall_fmap, Forall_forall. intros r Hr.
  rewrite Forall_forall in Hok. unfold within in Hw. rewrite Forall_forall in Hw.
  specialize (Hok r Hr) as [? ?]. specialize (Hw r Hr). pose proof (total_bytes_elem rs r Hr).
  unfold slice_ok, new_frozen, range_end in *; cbn in *. lia.
Qed.

Lemma grown_refl s : grown s s.
Proof.
  split; try done; [exists []; by rewrite app_nil_r|].
  exists []. rewrite app_nil_r. split_and!; [done|constructor|constructor].
Qed.
Lemma grown_trans s1 s2 s3 : grown s1 s2 → grown s2 s3 → grown s1 s3.
Proof.
  intros [(f1 & H1 & S1) (n1 & F1 & N1 & R1) ? ? ? ?] [(f2 & H2 & S2) (n2 & F2 & N2 & R2) ? ? ? ?].
  split; try congruence.
  - exists (f1 ++ f2). rewrite H2, H1, app_assoc. split; [done|]. by apply Forall_app.
  - assert (length (sc_heap s1) ≤ length (sc_heap s2) ≤ length (sc_heap s3))%nat
      by (rewrite H2, H1, !length_app; lia).
    exists (n1 ++ n2). rewrite F2, F1, app_assoc. rewrite Forall_forall in R1, R2. split_and!; [done| |].
    + apply NoDup_app. split_and!; [done| |done]. intros a Ha1 Ha2. specialize (R1 a Ha1). specialize (R2 a Ha2). lia.
    + apply Forall_app. split; apply Forall_forall; intros a Ha; [specialize (R1 a Ha)|specialize (R2 a Ha)]; lia.
Qed.
#[export] Instance grown_preorder : PreOrder grown.
Proof. split; [exact grown_refl|intros ???; apply grown_trans]. Qed.

(** Old slices keep their place and their contents; [new] are those frozen since. *)
Lemma grown_lookup s s' a f : grown s s' → slice_at s a = Some f → slice_at s' a = Some f.
Proof. intros [(fr & H & _) _ _ _ _ _] Ha. unfold slice_at in *. rewrite H. by apply lookup_app_l_Some. Qed.
Lemma grown_slices cs n s s' :
  buffers_ok cs n s → grown s s' → ∃ new, frozen_slices s' = frozen_slices s ++ new.
Proof.
  intros Hok [(fr & H & _) (nw & F & _) _ _ _ _]. unfold frozen_slices. rewrite F, omap_app. eexists. f_equal.
  unfold slice_at. rewrite H. apply omap_lookup_app. by eapply buffers_valid.
Qed.

Lemma FreezeActiveLocked_spec cs n s :
  buffers_ok cs n s → n ≤ kMaxActiveSliceBytes →
  let s' := FreezeActiveLocked s in
  buffers_ok cs 0 s' ∧ (∀ k, local_at s' k = local_at s k) ∧ grown s s' ∧ sc_dirty s' = sc_dirty s ∧ sc_active s' = [] ∧
  (∀ k c, pending_at s' k c → pending_at s k c).
Proof.
  intros Hok Hn. unfold FreezeActiveLocked. destruct (sc_active s) as [|r0 rest] eqn:Ea; cbn zeta.
  { split_and!; try done. destruct Hok as [? ? ? ? Hb ? ? ?]. split; try done. rewrite Hb, Ea. done. }
  fold (fresh_slices (r0 :: rest)). rewrite <- Ea. set (fresh := fresh_slices (sc_active s)).
  pose proof (buffers_valid _ _ _ Hok) as Hval. pose proof Hok as [? ? Hact ? Hb ? Hnd Hfz].
  assert (Forall (slice_ok cs) fresh) as Hfr by (apply fresh_slices_ok; try done; lia).
  assert (frozen_slices (set_active [] 0 (set_frozen (sc_heap s ++ fresh) (sc_frozen s ++ seq (length (sc_heap s)) (length fresh)) s)) =
          frozen_slices s ++ fresh) as Hslices.
  { unfold frozen_slices, slice_at. cbn [set_active set_frozen sc_frozen sc_heap]. by rewrite omap_app, omap_lookup_app, omap_lookup_seq. }
  split_and!; [|intros k| |done|done|].
  - split; cbn; try done; [split; constructor|constructor| |].
    + apply NoDup_app. split_and!; [done| |apply NoDup_seq]. intros a Ha Hs%elem_of_seq.
      rewrite Forall_forall in Hval. specialize (Hval a Ha). lia.
    + apply Forall_app. split.
      * eapply Forall_impl; [exact Hfz|]. intros a (f & Hf & ?). exists f. split; [|done]. by apply lookup_app_l_Some.
      * apply Forall_forall. intros a Ha%elem_of_seq. unfold slice_at; cbn. rewrite lookup_app_r by lia.
        destruct (lookup_lt_is_Some_2 fresh (a - length (sc_heap s))) as [f Hf]; [lia|]. exists f. split; [done|].
        rewrite Forall_forall in Hfr. by apply Hfr, list_elem_of_lookup_2 with (a - length (sc_heap s))%nat.
  - unfold local_at. rewrite Hslices, frozen_at_app. cbn [set_active sc_active dirty_at over]. unfold fresh. by rewrite fresh_slices_at.
  - split; cbn; try done; [exists fresh; split; [done|]|].
    + apply Forall_fmap, Forall_forall. done.
    + eexists. split_and!; [done|apply NoDup_seq|]. apply Forall_forall. intros a Ha%elem_of_seq. rewrite length_app. lia.
  - intros k c [?|(f & Hf & Hc)]; [done|]. rewrite Hslices in Hf. apply elem_of_app in Hf as [Hf|Hf]; [right; eauto|left].
    by eapply fresh_slice_byte.
Qed.

Lemma set_active_grown a n s : grown s (set_active a n s).
Proof. destruct (grown_refl s). by split. Qed.

(** One [AcceptWrite] into the active generation. *)
Lemma accept_active cs n s start part :
  buffers_ok cs n s → 0 ≤ start → 0 < zlen part → start + zlen part ≤ cs →
  let out := AcceptWrite (sc_active s) start part in
  let s' := set_active out.1 (sc_active_bytes s + out.2) s in
  buffers_ok cs (sc_active_bytes s + zlen part - covered_in (sc_active s) start (start + zlen part)) s' ∧
  (∀ k, local_at s' k = overwritten start part (local_at s) k) ∧
  (∀ k c, pending_at s' k c → start ≤ k < start + zlen part ∨ pending_at s k c).
Proof.
  intros [? ? Hact Hin Hb ? ? ?] Hs Hp Hc. cbn zeta. pose proof (AcceptWrite_spec _ start part Hact Hs Hp) as Ha.
  pose proof (accepted_grown cs _ _ _ _ Ha Hact Hin Hs Hc) as Hg. pose proof (accepted_within cs _ _ _ _ Ha Hin Hc) as Hw.
  destruct Ha as (Hok & Hat & Ht). split_and!.
  - split; try done; cbn [set_active sc_active sc_active_bytes]; lia.
  - intros k. unfold local_at, overwritten, frozen_slices, slice_at. cbn [set_active sc_active sc_frozen sc_heap]. rewrite Hat.
    destruct (Z.leb_spec start k), (Z.ltb_spec k (start + zlen part)); cbn [andb]; try done.
    destruct (byte_at_inside part (k - start)) as [c ->]; [lia|done].
  - intros k c [Hk|Hf]; [|by right; right]. cbn [set_active sc_active] in Hk. rewrite Hat in Hk.
    destruct (Z.leb_spec start k), (Z.ltb_spec k (start + zlen part)); cbn in Hk; try (by right; left). by left.
Qed.

Lemma buffers_weaken cs n m s : buffers_ok cs n s → n ≤ m → buffers_ok cs m s.
Proof. intros [] ?. split; try done. lia. Qed.

Lemma write_part_spec cs start part s :
  buffers_ok cs (kMaxActiveSliceBytes - 1) s → 0 ≤ start → 0 < zlen part ≤ kMaxActiveSliceBytes → start + zlen part ≤ cs →
  let s' := write_part start part s in
  buffers_ok cs (kMaxActiveSliceBytes - 1) s' ∧ (∀ k, local_at s' k = overwritten start part (local_at s) k) ∧
  grown s s' ∧ sc_dirty s' = sc_dirty s ∧ (∀ k c, pending_at s' k c → start ≤ k < start + zlen part ∨ pending_at s k c).
Proof.
  intros Hok Hs Hp Hc. unfold write_part. cbn zeta.
  match goal with |- context [AcceptWrite (sc_active ?s1)] => set (s1' := s1) end.
  assert (buffers_ok cs (kMaxActiveSliceBytes - 1) s1' ∧ (∀ k, local_at s1' k = local_at s k) ∧ grown s s1' ∧
          sc_dirty s1' = sc_dirty s ∧ (∀ k c, pending_at s1' k c → pending_at s k c) ∧
          sc_active_bytes s1' + zlen part - covered_in (sc_active s1') start (start + zlen part) ≤ kMaxActiveSliceBytes)
    as (Hok1 & Hat1 & Hg1 & Hd1 & Hpd1 & Hfit).
  { unfold s1'. clear s1'. destruct (sc_active_bytes s + zlen part >? kMaxActiveSliceBytes) eqn:E1; [destruct (_ - _ >? _) eqn:E2|].
    - destruct (FreezeActiveLocked_spec _ _ _ Hok ltac:(unfold kMaxActiveSliceBytes; lia)) as (Hok1 & ? & ? & ? & Ha & ?).
      split_and!; try done; [eapply buffers_weaken; [exact Hok1|by compute]|]. rewrite Ha, (bo_bytes _ _ _ Hok1), Ha. cbn.
      change (0 + zlen part - 0 ≤ kMaxActiveSliceBytes). lia.
    - split_and!; try done. zlia.
    - split_and!; try done. rewrite covered_in_count by (apply (bo_active _ _ _ Hok) || lia).
      pose proof (count_nonneg (dirty_in (sc_active s)) start (Z.to_nat (start + zlen part - start))). zlia. }
  clearbody s1'. destruct (accept_active _ _ _ _ _ Hok1 Hs (proj1 Hp) Hc) as (Hok2 & Hat2 & Hpd2).
  destruct (AcceptWrite (sc_active s1') start part) as [active grown_bytes] eqn:EA. cbn [fst snd] in *.
  set (s2 := set_active active (sc_active_bytes s1' + grown_bytes) s1') in *.
  assert (∀ k, local_at s2 k = overwritten start part (local_at s) k) as Hat.
  { intros k. rewrite Hat2. unfold overwritten. destruct (_ && _); [done|]. apply Hat1. }
  destruct (_ >=? _) eqn:E3.
  - destruct (FreezeActiveLocked_spec _ _ _ Hok2 Hfit) as (Hok3 & Hat3 & Hg3 & Hd3 & _ & Hpd3).
    split_and!; [eapply buffers_weaken; [exact Hok3|by compute]|intros k; by rewrite Hat3| |by rewrite Hd3|intros k c [?|?]%Hpd3%Hpd2; [by left|right; auto]].
    etrans; [exact Hg1|]. etrans; [apply set_active_grown|exact Hg3].
  - split_and!; [|done|etrans; [exact Hg1|apply set_active_grown]|done|intros k c [?|?]%Hpd2; [by left|right; auto]]. destruct Hok2. split; try done. zlia.
Qed.

Lemma overwritten_app offset l r v k :
  overwritten (offset + zlen l) r (overwritten offset l v) k = overwritten offset (l ++ r) v k.
Proof.
  unfold overwritten. rewrite zlen_app, byte_at_app. pose proof (zlen_nonneg r). pose proof (zlen_nonneg l).
  destruct (Z.leb_spec (offset + zlen l) k), (Z.ltb_spec k (offset + zlen l + zlen r)), (Z.leb_spec offset k),
    (Z.ltb_spec k (offset + zlen l)), (Z.ltb_spec k (offset + (zlen l + zlen r))); cbn; try done; try lia.
  all: destruct (Z.ltb_spec (k - offset) (zlen l)); try lia; try done. f_equal. lia.
Qed.

Lemma overwritten_nil offset v k : overwritten offset [] v k = v k.
Proof. unfold overwritten, zlen; cbn. destruct (Z.leb_spec offset k), (Z.ltb_spec k (offset + Z.of_nat 0)); cbn; try done; lia. Qed.

Lemma write_parts_spec cs fuel start rest s :
  (length rest ≤ fuel)%nat → buffers_ok cs (kMaxActiveSliceBytes - 1) s → 0 ≤ start → start + zlen rest ≤ cs →
  let s' := write_parts fuel start rest s in
  buffers_ok cs (kMaxActiveSliceBytes - 1) s' ∧ (∀ k, local_at s' k = overwritten start rest (local_at s) k) ∧
  grown s s' ∧ sc_dirty s' = sc_dirty s ∧ (∀ k c, pending_at s' k c → start ≤ k < start + zlen rest ∨ pending_at s k c).
Proof.
  revert start rest s. induction fuel as [|fuel IH]; intros start rest s Hf Hok Hs Hc; cbn zeta.
  { destruct rest; cbn in Hf; [|lia]. split_and!; try done; [intros k; by rewrite overwritten_nil|by right]. }
  destruct rest as [|b0 rest0]; cbn [write_parts].
  { split_and!; try done; [intros k; by rewrite overwritten_nil|by right]. }
  assert (0 < zlen (b0 :: rest0)) as Hpos by (unfold zlen; cbn; lia).
  remember (b0 :: rest0) as rest eqn:Er; clear Er b0 rest0.
  set (n := Z.min kMaxActiveSliceBytes (zlen rest)).
  assert (0 < n ≤ kMaxActiveSliceBytes ∧ n ≤ zlen rest) as [Hn Hn'] by (unfold n, kMaxActiveSliceBytes; lia). clearbody n.
  assert (zlen (take (Z.to_nat n) rest) = n) as Ht by (unfold zlen in *; rewrite length_take; lia).
  assert (zlen (drop (Z.to_nat n) rest) = zlen rest - n) as Hd by (unfold zlen in *; rewrite length_drop; lia).
  destruct (write_part_spec cs start (take (Z.to_nat n) rest) s Hok Hs ltac:(lia) ltac:(lia)) as (Hok1 & Hat1 & Hg1 & Hd1 & Hpd1).
  destruct (IH (start + n) (drop (Z.to_nat n) rest) (write_part start (take (Z.to_nat n) rest) s)) as (Hok2 & Hat2 & Hg2 & Hd2 & Hpd2);
    [rewrite length_drop; unfold zlen in *; lia|done|lia|lia|].
  split_and!; [done| |by etrans|congruence|intros k c [?|[?|?]%Hpd1]%Hpd2; [left; lia|left; lia|by right]]. intros k.
  trans (overwritten start (take (Z.to_nat n) rest ++ drop (Z.to_nat n) rest) (local_at s) k); [|by rewrite take_drop].
  rewrite Hat2, <- overwritten_app, Ht. unfold overwritten at 1 2. destruct (_ && _); [done|]. apply Hat1.
Qed.

(** What [Write] does to a session. *)
Definition write_accepted (cs offset : Z) (data : bytes) (s s' : SliceChunk) : Prop :=
  session_ok cs s' ∧ grown s s' ∧
  (∀ k, dirty_at (sc_dirty s') k = overwritten offset data (dirty_at (sc_dirty s)) k) ∧
  (∀ k, local_at s' k = overwritten offset data (local_at s) k) ∧
  (∀ k c, pending_at s' k c → offset ≤ k < offset + zlen data ∨ pending_at s k c).

Lemma Write_spec cs offset data s :
  session_ok cs s → 0 ≤ offset →
  let out := Write cs offset data s in
  if (offset >? cs) || (zlen data >? cs - offset) then out = (InvalidArgument, s)
  else out.1 = OK ∧ write_accepted cs offset data s out.2.
Proof.
  intros [Hok Hview] Ho. unfold Write. destruct (_ || _) eqn:Eb; [done|]. apply orb_false_iff in Eb as [E1 E2].
  destruct (Z.eqb_spec (zlen data) 0) as [Hz|Hz].
  { assert (data = []) as -> by (destruct data; [done|unfold zlen in Hz; cbn in Hz; lia]).
    split; [done|]. split_and!; [done|reflexivity|intros; by rewrite overwritten_nil|intros; by rewrite overwritten_nil|by right]. }
  assert (0 < zlen data) as Hpos by (pose proof (zlen_nonneg data); lia). cbn [fst snd]. split; [done|].
  pose proof (AcceptWrite_spec _ offset data (bo_dirty _ _ _ Hok) Ho Hpos) as Ha.
  set (s1 := set_dirty (AcceptWrite (sc_dirty s) offset data).1 s).
  assert (buffers_ok cs (kMaxActiveSliceBytes - 1) s1) as Hok1.
  { destruct Hok. split; try done; [apply Ha|]. eapply accepted_within; [exact Ha|done|zlia]. }
  destruct (write_parts_spec cs (length data) offset data s1 ltac:(lia) Hok1 Ho ltac:(zlia)) as (Hok2 & Hat2 & Hg2 & Hd2 & Hpd2).
  destruct Ha as (_ & Hat & _).
  assert (∀ k, dirty_at (sc_dirty (write_parts (length data) offset data s1)) k =
               overwritten offset data (dirty_at (sc_dirty s)) k) as Hdirty by (intros k; rewrite Hd2; apply Hat).
  split_and!; [split; [done|]|destruct Hg2; by split|done|exact Hat2|exact Hpd2].
  intros k c. rewrite Hdirty, Hat2. unfold overwritten. destruct (_ && _); [done|]. apply Hview.
Qed.

(** C23: A write that fits the chunk is accepted whole, however it is cut into parts and whenever a
    generation is frozen in between: both the read projection and the generations show exactly
    the written bytes over what they showed before, the projection still agrees with the
    generations, the active generation stays below 4 MiB and no frozen slice exceeds it, no
    earlier slice moves or changes and no generation gains a byte outside the write.  A write that does not fit changes nothing. *)
Theorem Write_accepts cs offset data s :
  session_ok cs s → 0 ≤ offset →
  let out := Write cs offset data s in
  if (offset >? cs) || (zlen data >? cs - offset) then out = (InvalidArgument, s)
  else out.1 = OK ∧ write_accepted cs offset data s out.2.
Proof. apply Write_spec. Qed.

Lemma new_chunk_ok cs : session_ok cs new_chunk.
Proof. split; [|done]. split; try done; repeat constructor. Qed.

Lemma Write_accepts_witness :
  let s := (Write 64 0 (lit "abcdef") new_chunk).2 in
  (Write 64 2 (lit "XY") s).1 = OK ∧ dirty_at (sc_dirty (Write 64 2 (lit "XY") s).2) 3 = Some "Y"%char ∧
  Write 64 60 (lit "abcdef") s = (InvalidArgument, s).
Proof.
  cbn zeta. destruct (Write_accepts 64 0 (lit "abcdef") new_chunk (new_chunk_ok 64) ltac:(lia)) as [_ (Hok & _)].
  destruct (Write_accepts 64 2 (lit "XY") (Write 64 0 (lit "abcdef") new_chunk).2 Hok ltac:(lia)) as [H1 (_ & _ & H2 & _)].
  split_and!; [exact H1|rewrite H2; reflexivity|].
  exact (Write_accepts 64 60 (lit "abcdef") _ Hok ltac:(lia)).
Defined.

(** ** Local truncation *)
Definition clipped (size : Z) (v : Z → option ascii) (k : Z) : option ascii := if k <? size then v k else None.

Lemma ClipRanges_within cs size rs : ranges_ok rs → within cs rs → 0 ≤ size → within cs (ClipRanges rs size).
Proof.
  intros Hok Hw Hs. destruct (ClipRanges_spec rs size Hok Hs) as [Hok' Hat].
  apply within_of_dirty_at; [done|]. intros p Hp. rewrite Hat. destruct (_ <? _); [|done]. by eapply within_dirty_at.
Qed.
Lemma ClipRanges_total cs size rs :
  ranges_ok rs → within cs rs → 0 ≤ cs → 0 ≤ size → total_bytes (ClipRanges rs size) ≤ total_bytes rs.
Proof.
  intros Hok Hw Hcs Hs. destruct (ClipRanges_spec rs size Hok Hs) as [Hok' Hat].
  rewrite (total_bytes_count _ cs), (total_bytes_count rs cs) by (done || by apply ClipRanges_within).
  apply count_mono. intros p. rewrite !dirty_in_true, Hat. destruct (_ <? _); [done|]. by intros [? ?].
Qed.

Lemma clip_slice_byte cs size f k :
  slice_ok cs f → slice_byte (clip_slice size f) k = clipped size (slice_byte f) k.
Proof.
  intros (? & ? & _). unfold slice_byte, clip_slice, clipped. cbn. rewrite Z.gtb_ltb.
  destruct (Z.ltb_spec (fs_pos f) size), (Z.ltb_spec k size), (Z.leb_spec (fs_pos f) k); cbn; try done; try lia;
    repeat match goal with |- context [?a <? ?b] => destruct (Z.ltb_spec a b) end; try done; lia.
Qed.
Lemma clip_slice_ok cs size f :
  slice_ok cs f → (fs_visible_len (clip_slice size f) =? 0) = false → slice_ok cs (clip_slice size f).
Proof.
  intros (? & ? & ? & ? & ?) Hz. unfold slice_ok, clip_slice in *. cbn in *. rewrite Z.gtb_ltb in *.
  destruct (Z.ltb_spec (fs_pos f) size); zlia.
Qed.

(** Clipping every pending slice through its pointer. *)
Lemma alter_all_lookup (g : FrozenSlice → FrozenSlice) (l : list nat) (h : list FrozenSlice) (a : nat) :
  NoDup l → foldl (λ h a, alter g a h) h l !! a = if bool_decide (a ∈ l) then g <$> h !! a else h !! a.
Proof.
  revert h. induction l as [|b l IH]; intros h Hnd; cbn [foldl]; [done|].
  apply NoDup_cons in Hnd as [Hb Hnd]. rewrite IH by done.
  destruct (decide (a = b)) as [->|Hne].
  - rewrite (bool_decide_eq_false_2 (b ∈ l)), (bool_decide_eq_true_2 (b ∈ b :: l)) by set_solver. by rewrite list_lookup_alter_eq.
  - rewrite list_lookup_alter_ne by done. rewrite (bool_decide_ext (a ∈ b :: l) (a ∈ l)); [done|]. set_solver.
Qed.

Definition still_visible (h : list FrozenSlice) (a : nat) : bool :=
  match h !! a with Some f => negb (fs_visible_len f =? 0) | None => true end.
Lemma omap_cons_Some (g : nat → option FrozenSlice) a l f : g a = Some f → omap g (a :: l) = f :: omap g l.
Proof. intros H. cbn. by rewrite H. Qed.

Lemma frozen_at_clip cs size s l (h : list FrozenSlice) k :
  Forall (λ a, ∃ f, slice_at s a = Some f ∧ slice_ok cs f) l →
  (∀ a, a ∈ l → h !! a = clip_slice size <$> slice_at s a) →
  frozen_at (omap (λ a, h !! a) (List.filter (still_visible h) l)) k = clipped size (frozen_at (omap (slice_at s) l)) k.
Proof.
  intros Hl Hh. induction Hl as [|a l (f & Hf & Hok) _ IH]; [unfold clipped; by destruct (_ <? _)|].
  pose proof (Hh a ltac:(by left)) as Ha. rewrite Hf in Ha. cbn in Ha.
  specialize (IH ltac:(intros; apply Hh; by right)). unfold clipped in *.
  rewrite (omap_cons_Some _ _ _ _ Hf), frozen_at_cons. cbn [List.filter]. unfold still_visible at 1. rewrite Ha.
  pose proof (clip_slice_byte cs size f k Hok) as Hb. unfold clipped in Hb.
  destruct (negb _) eqn:Ez.
  - rewrite (omap_cons_Some _ _ _ _ Ha), frozen_at_cons, IH, Hb. by destruct (_ <? _).
  - apply negb_false_iff in Ez. destruct (slice_byte (clip_slice size f) k) eqn:Eb.
    + apply slice_byte_Some in Eb as [Eb _]. zlia.
    + rewrite IH. destruct (_ <? _); [|done]. by rewrite <- Hb, over_None.
Qed.

Lemma truncate_locked_spec cs size s :
  session_ok cs s → 0 ≤ cs → 0 ≤ size →
  let s' := truncate_locked size s in
  session_ok cs s' ∧ (∀ k, dirty_at (sc_dirty s') k = clipped size (dirty_at (sc_dirty s)) k) ∧
  (∀ k, local_at s' k = clipped size (local_at s) k).
Proof.
  intros [Hok Hview] Hcs Hs. cbn zeta. pose proof Hok as [Hd Hdw Ha Haw Hb Hbd Hnd Hfz].
  destruct (ClipRanges_spec _ size Hd Hs) as [Hd' Hdat]. destruct (ClipRanges_spec _ size Ha Hs) as [Ha' Haat].
  pose proof (ClipRanges_within cs size _ Hd Hdw Hs). pose proof (ClipRanges_within cs size _ Ha Haw Hs).
  pose proof (ClipRanges_total cs size _ Ha Haw Hcs Hs).
  set (h := foldl (λ h a, alter (clip_slice size) a h) (sc_heap s) (sc_frozen s)).
  assert (∀ a, a ∈ sc_frozen s → h !! a = clip_slice size <$> slice_at s a) as Hh.
  { intros a Hin. unfold h. rewrite alter_all_lookup by done. by rewrite bool_decide_eq_true_2. }
  assert (∀ k, local_at (truncate_locked size s) k = clipped size (local_at s) k) as Hloc.
  { intros k. unfold local_at, frozen_slices, slice_at at 1, truncate_locked.
    cbn [set_frozen set_active set_dirty next_epoch sc_active sc_frozen sc_heap sc_dirty]. fold h.
    fold (still_visible h). rewrite Haat, (frozen_at_clip cs size s) by done. unfold clipped. by destruct (_ <? _). }
  split_and!; [split|intros k; apply Hdat|done].
  - split; unfold truncate_locked; cbn [set_frozen set_active set_dirty next_epoch sc_active sc_active_bytes sc_frozen sc_heap sc_dirty];
      fold h; try done; [lia|by apply NoDup_ListNoDup, List.NoDup_filter, NoDup_ListNoDup|].
    apply Forall_forall. intros a Hin%list_elem_of_In. apply List.filter_In in Hin as [Hin Hv]. apply list_elem_of_In in Hin.
    rewrite Forall_forall in Hfz. destruct (Hfz a Hin) as (f & Hf & Hfok). unfold slice_at. cbn.
    rewrite (Hh a Hin), Hf in *. cbn in *. eexists. split; [done|]. apply clip_slice_ok; [done|]. by apply negb_true_iff.
  - intros k c Hc. rewrite Hloc. change (dirty_at (ClipRanges (sc_dirty s) size) k = Some c) in Hc. rewrite Hdat in Hc.
    unfold clipped. destruct (_ <? _); [|done]. by apply Hview.
Qed.

(** ** Rebuilding the projection *)
Lemma accept_over cs d offset data :
  ranges_ok d → within cs d → 0 ≤ offset → 0 < zlen data → offset + zlen data ≤ cs →
  let d' := (AcceptWrite d offset data).1 in
  ranges_ok d' ∧ within cs d' ∧
  ∀ k, dirty_at d' k = over (if (offset <=? k) && (k <? offset + zlen data) then byte_at data (k - offset) else None) (dirty_at d k).
Proof.
  intros Hd Hw Ho Hp Hc. cbn zeta. pose proof (AcceptWrite_spec d offset data Hd Ho Hp) as Ha.
  split_and!; [apply Ha|by eapply accepted_within|]. intros k. rewrite (proj1 (proj2 Ha)).
  destruct (Z.leb_spec offset k), (Z.ltb_spec k (offset + zlen data)); cbn; try done.
  destruct (byte_at_inside data (k - offset)) as [c ->]; [lia|done].
Qed.

Lemma visible_part_byte cs f k :
  slice_ok cs f →
  zlen (substr (fs_payload f) 0 (fs_visible_len f)) = fs_visible_len f ∧
  (if (fs_pos f <=? k) && (k <? fs_pos f + fs_visible_len f)
   then byte_at (substr (fs_payload f) 0 (fs_visible_len f)) (k - fs_pos f) else None) = slice_byte f k.
Proof.
  intros (? & ? & ? & _). split; [rewrite zlen_substr; lia|]. unfold slice_byte.
  destruct (Z.leb_spec (fs_pos f) k), (Z.ltb_spec k (fs_pos f + fs_visible_len f)); cbn; try done.
  rewrite byte_at_substr by lia. destruct (Z.leb_spec 0 (k - fs_pos f)), (Z.ltb_spec (k - fs_pos f) (fs_visible_len f)); cbn; try lia; done.
Qed.

Lemma accept_visible_spec cs fs d :
  Forall (slice_ok cs) fs → ranges_ok d → within cs d →
  let d' := foldl accept_visible d fs in
  ranges_ok d' ∧ within cs d' ∧ ∀ k, dirty_at d' k = over (frozen_at fs k) (dirty_at d k).
Proof.
  intros Hfs. revert d. induction Hfs as [|f fs Hf _ IH]; intros d Hd Hw; cbn [foldl]; [done|].
  destruct (visible_part_byte cs f 0 Hf) as [Hlen _]. pose proof Hf as (Hp0 & Hv0 & Hc0 & _).
  destruct (accept_over cs d (fs_pos f) (substr (fs_payload f) 0 (fs_visible_len f))) as (H1 & H2 & H3); try done; try lia.
  unfold accept_visible at 2 4 6. rewrite (proj2 (Z.gtb_lt _ _)) by lia.
  destruct (IH _ H1 H2) as (H4 & H5 & H6). split_and!; [done|done|]. intros k.
  rewrite H6, H3, Hlen, (proj2 (visible_part_byte cs f k Hf)), frozen_at_cons. by rewrite over_assoc.
Qed.

Lemma accept_ranges_spec cs rs d :
  ranges_ok rs → within cs rs → ranges_ok d → within cs d →
  let d' := foldl accept_range d rs in
  ranges_ok d' ∧ within cs d' ∧ ∀ k, dirty_at d' k = over (dirty_at rs k) (dirty_at d k).
Proof.
  intros Hrs Hw. revert d. induction Hw as [|r rs Hr Hw IH]; intros d Hd Hdw; cbn [foldl]; [done|].
  pose proof Hrs as ([Hp0 Hl0] & Hrs' & _)%ranges_ok_cons.
  destruct (accept_over cs d r.1 r.2 Hd Hdw ltac:(lia) ltac:(lia) Hr) as (H1 & H2 & H3). fold (accept_range d r) in *.
  destruct (IH Hrs' _ H1 H2) as (H4 & H5 & H6). split_and!; [done|done|]. intros k. rewrite H6, H3.
  cbn [dirty_at]. fold (range_end r). fold (in_range_of r k).
  destruct (in_range_of_cases r k) as [[Hin E]|[_ E]]; rewrite E; [|done].
  apply (ranges_ok_disjoint _ _ _ Hrs), dirty_in_false in E. rewrite E. cbn.
  destruct (byte_at_inside r.2 (k - r.1)) as [c ->]; [unfold range_end in *; lia|done].
Qed.

(** After a rebuild the projection is exactly the generations. *)
Lemma RebuildDirtyLocked_spec cs n s :
  buffers_ok cs n s →
  let s' := RebuildDirtyLocked s in
  buffers_ok cs n s' ∧ (∀ k, dirty_at (sc_dirty s') k = local_at s k) ∧ (∀ k, local_at s' k = local_at s k).
Proof.
  intros Hok. pose proof (buffers_slices _ _ _ Hok) as Hfs. destruct Hok as [Hd Hdw Ha Haw Hb Hn Hnd Hfz].
  destruct (accept_visible_spec cs (frozen_slices s) [] Hfs) as (H1 & H2 & H3); [by split; constructor|constructor|].
  destruct (accept_ranges_spec cs (sc_active s) _ Ha Haw H1 H2) as (H4 & H5 & H6).
  split_and!; [by split| |done]. intros k. cbn. rewrite H6, H3, over_None. done.
Qed.
