(* ===== verification/SlicePublished.v ===== *)
(** * What a slice chunk has published

    The state the backend keeps for one chunk of one file, as a session relies on it: the
    attached chunk, the file size, the slice indices, the objects.  [BackendLaws] is the
    promise of the metadata engine, the slice index and the object store to the session:
    every call performs its effect exactly once or not at all, a definite error changes
    nothing, an unknown outcome may be either.  Between two calls of a session other
    sessions may extend the file and add objects, but the chunk has a single writer.  The
    published contents are the bytes of the newest record, clipped by later sanitation and
    by the end of the file. *)

From S2P Require Import Prelude RedisKv Decimal StdMap ChunkGeometry InodeTypes SliceHistory DirtyRanges Records MetaEngine SliceChunk SliceLocal.

Record Published := mkPublished {
  pb_chunk : option Z;
  pb_size : Z;
  pb_index : Z → option (list SliceRecord);
  pb_object : bytes → option bytes;
  pb_next_slice : Z;
  pb_next_chunk : Z;
}.

(** What may happen outside the session. *)
Record settles (v v' : Published) : Prop := {
  st_chunk : pb_chunk v' = pb_chunk v;
  st_size : pb_size v ≤ pb_size v';
  st_index : ∀ c, pb_index v' c = pb_index v c;
  st_object : ∀ key o, pb_object v key = Some o → pb_object v' key = Some o;
  st_next : pb_next_slice v ≤ pb_next_slice v';
  st_next_chunk : pb_next_chunk v ≤ pb_next_chunk v';
}.
#[export] Instance settles_preorder : PreOrder settles.
Proof.
  split; [by intros v; split|]. intros v1 v2 v3 [] []. split; try congruence; try lia; auto.
Qed.

(** The effect of each call. *)
Definition same_next (v v' : Published) : Prop := pb_next_slice v' = pb_next_slice v ∧ pb_next_chunk v' = pb_next_chunk v.
Definition indexed (c : Z) (records : list SliceRecord) (v v' : Published) : Prop :=
  pb_chunk v' = pb_chunk v ∧ pb_size v' = pb_size v ∧ pb_object v' = pb_object v ∧ same_next v v' ∧
  pb_index v' c = Some records ∧ ∀ c', c' ≠ c → pb_index v' c' = pb_index v c'.
Definition attached (c end_ : Z) (v v' : Published) : Prop :=
  pb_chunk v = None ∧ pb_chunk v' = Some c ∧ pb_size v' = Z.max (pb_size v) end_ ∧
  pb_index v' = pb_index v ∧ pb_object v' = pb_object v ∧ same_next v v'.
Definition finalized (c end_ : Z) (v v' : Published) : Prop :=
  pb_chunk v = Some c ∧ pb_chunk v' = Some c ∧ pb_size v' = Z.max (pb_size v) end_ ∧
  pb_index v' = pb_index v ∧ pb_object v' = pb_object v ∧ same_next v v'.
Definition stored_object (key o : bytes) (v v' : Published) : Prop :=
  pb_chunk v' = pb_chunk v ∧ pb_size v' = pb_size v ∧ pb_index v' = pb_index v ∧ same_next v v' ∧
  pb_object v' key = Some o ∧ ∀ key', key' ≠ key → pb_object v' key' = pb_object v key'.

(** A mutation: done, refused, or unknown. *)
Definition mutation (E : Published → Published → Prop) (r : result unit) (v v' : Published) : Prop :=
  match r with
  | Ok _ => E v v'
  | Err OutcomeUnknown => v' = v ∨ E v v'
  | Err _ => v' = v
  end.
(** A put that failed may still have stored its object. *)
Definition upload (E : Published → Published → Prop) (r : result unit) (v v' : Published) : Prop :=
  match r with Ok _ => E v v' | Err _ => v' = v ∨ E v v' end.
(** A query describes the state it runs in. *)
Definition query {A : Type} (Q : A → Published → Prop) (r : result A) (v v' : Published) : Prop :=
  v' = v ∧ match r with Ok a => Q a v | Err _ => True end.

Definition snapshot_of (s : FileChunkSnapshot) (v : Published) : Prop :=
  fcs_chunk_id s = pb_chunk v ∧ size (attr (fcs_inode s)) = pb_size v.
(** Identities grow and are never given out twice; they end with the signed 64-bit range. *)
Definition fresh_slice (r : result Z) (v v' : Published) : Prop :=
  pb_chunk v' = pb_chunk v ∧ pb_size v' = pb_size v ∧ pb_index v' = pb_index v ∧ pb_object v' = pb_object v ∧
  pb_next_chunk v' = pb_next_chunk v ∧ pb_next_slice v ≤ pb_next_slice v' ∧
  match r with Ok id => pb_next_slice v ≤ id < pb_next_slice v' ∧ id ≤ INT64_MAX | Err _ => True end.
Definition fresh_chunk (r : result Z) (v v' : Published) : Prop :=
  pb_chunk v' = pb_chunk v ∧ pb_size v' = pb_size v ∧ pb_index v' = pb_index v ∧ pb_object v' = pb_object v ∧
  pb_next_slice v' = pb_next_slice v ∧ pb_next_chunk v ≤ pb_next_chunk v' ∧
  match r with Ok c => pb_next_chunk v ≤ c < pb_next_chunk v' ∧ c ≤ INT64_MAX | Err _ => True end.

Class BackendView (W : Type) := {
  view : W → Published;
  (** Every write other fibers have handed to the session so far. *)
  arrived : W → list (Z * bytes);
  (** Whether a call that is in order may fail. *)
  faults : Prop;
}.

(** [pre] is what a call needs to be in order. *)
Definition always (_ : Published) : Prop := True.
Definition performs `{ChunkBackend W} `{BackendView W} {A : Type} (f : W → result A * W)
    (pre : Published → Prop) (E : result A → Published → Published → Prop) : Prop :=
  ∀ w r w', f w = (r, w') →
  arrived w' = arrived w ++ during w' ∧ Forall (λ x, 0 ≤ x.1) (during w') ∧
  match r with Ok _ => True | Err _ => faults ∨ ¬ pre (view w) end ∧ ∃ v, E r (view w) v ∧ settles v (view w').

Class BackendLaws (W : Type) `{ChunkBackend W} `{BackendView W} : Prop := {
  law_snapshot : performs be_snapshot always (query snapshot_of);
  law_records c : performs (be_records c) (λ v, is_Some (pb_index v c)) (query (λ l v, pb_index v c = Some l));
  law_get key off n : performs (be_get key off n) (λ v, is_Some (pb_object v key))
    (query (λ b v, ∃ o, pb_object v key = Some o ∧ b = substr o off n));
  law_put key o : performs (be_put key o) always (upload (stored_object key o));
  law_allocate_slice : performs be_allocate_slice (λ v, pb_next_slice v ≤ INT64_MAX) fresh_slice;
  law_allocate_chunk : performs be_allocate_chunk (λ v, pb_next_chunk v ≤ INT64_MAX) fresh_chunk;
  law_create c r : performs (be_create_index c r) (λ v, pb_index v c = None)
    (mutation (λ v v', pb_index v c = None ∧ indexed c [r] v v'));
  law_append c r : performs (be_append c r) (λ v, is_Some (pb_index v c))
    (mutation (λ v v', ∃ l, pb_index v c = Some l ∧ indexed c (l ++ [r]) v v'));
  law_attach c e x : performs (be_attach c e x) (λ v, pb_chunk v = None) (mutation (attached c e));
  law_finalize c e x : performs (be_finalize c e x) (λ v, pb_chunk v = Some c) (mutation (finalized c e));
}.

(** ** Sequential code over the backend *)
Definition wp {W A : Type} (m : io (W := W) A) (Q : result A → state (W := W) → Prop) (st : state) : Prop :=
  let '(r, st') := m st in Q r st'.

Section Wp.
Context {W : Type} `{ChunkBackend W} (cs : Z).

Lemma wp_ret {A : Type} (a : A) (Q : result A → @state W → Prop) st : Q (Ok a) st → wp (mret a) Q st.
Proof. done. Qed.
Lemma wp_mono {A : Type} (m : @io W A) (Q Q' : result A → @state W → Prop) st :
  (∀ r st', Q r st' → Q' r st') → wp m Q st → wp m Q' st.
Proof. unfold wp. destruct (m st). auto. Qed.
Lemma wp_bind {A B : Type} (m : @io W A) (f : A → @io W B) (Q : result B → @state W → Prop) st :
  wp m (λ r st', match r with Ok a => wp (f a) Q st' | Err e => Q (Err e) st' end) st → wp (m ≫= f) Q st.
Proof. unfold wp, mbind, io_bind. destruct (m st) as [[a|e] st']; done. Qed.
Lemma wp_try {A : Type} (m : @io W A) (Q : result (result A) → @state W → Prop) st :
  wp m (λ r st', Q (Ok r) st') st → wp (io_try m) Q st.
Proof. unfold wp, io_try. destruct (m st). done. Qed.
Lemma wp_get (Q : result SliceChunk → @state W → Prop) st : Q (Ok st.1) st → wp io_get Q st.
Proof. done. Qed.
Lemma wp_modify f (Q : result unit → @state W → Prop) st : Q (Ok tt) (f st.1, st.2) → wp (io_modify f) Q st.
Proof. done. Qed.
Lemma wp_lift {A : Type} (r : result A) (Q : result A → @state W → Prop) st : Q r st → wp (io_lift r) Q st.
Proof. done. Qed.
Lemma wp_fail {A : Type} e (Q : result A → @state W → Prop) st : Q (Err e) st → wp (io_fail e) Q st.
Proof. done. Qed.
Lemma wp_fail_if b e (Q : result unit → @state W → Prop) st :
  (b = true → Q (Err e) st) → (b = false → Q (Ok tt) st) → wp (io_fail_if b e) Q st.
Proof. destruct b; cbn; auto. Qed.
Lemma wp_call `{BackendView W} {A : Type} (f : W → result A * W) pre E (Q : result A → @state W → Prop) s w :
  performs f pre E →
  (∀ r w' v, arrived w' = arrived w ++ during w' → Forall (λ x, 0 ≤ x.1) (during w') →
     match r with Ok _ => True | Err _ => faults ∨ ¬ pre (view w) end → E r (view w) v →
     settles v (view w') → Q r (accept_writes cs (during w') s, w')) →
  wp (call cs f) Q (s, w).
Proof. intros Hp HQ. unfold wp, call. destruct (f w) as [r w'] eqn:E'. destruct (Hp _ _ _ E') as (? & ? & ? & v & ? & ?). eauto. Qed.
End Wp.

(** ** Published contents *)
Section Contents.
Context (index cs start : Z).

Definition source_byte (v : Published) (src : Z * Z) : ascii :=
  if src.1 =? 0 then Ascii.zero
  else default Ascii.zero (o ← pb_object v (SliceObjectKey src.1); byte_at o src.2).
Definition visible_records (v : Published) (b : list BoundaryClamp) : list SliceRecord :=
  match pb_chunk v with
  | Some c => match pb_index v c with
              | Some l => match sanitized_records cs b c l with Ok l => l | Err _ => [] end
              | None => []
              end
  | None => []
  end.
(** The byte the records give a position, and what is left of it below the end of the file. *)
Definition stored (v : Published) (b : list BoundaryClamp) (k : Z) : ascii := source_byte v (visible (visible_records v b) k).
Definition eof (v : Published) : Z := if pb_size v >? start then Z.min cs (pb_size v - start) else 0.
Definition published (v : Published) (b : list BoundaryClamp) (k : Z) : ascii :=
  if k <? eof v then stored v b k else Ascii.zero.
(** What a reader of the session sees. *)
Definition contents (s : SliceChunk) (v : Published) (k : Z) : ascii :=
  default (published v (sc_boundaries s) k) (dirty_at (sc_dirty s) k).

Definition record_stored (v : Published) (r : SliceRecord) : Prop :=
  record_fields r ∧ ValidateRecord r cs = OK ∧ sr_id r < pb_next_slice v ∧
  (sr_id r ≠ 0 → ∃ o, pb_object v (SliceObjectKey (sr_id r)) = Some o ∧ zlen o = sr_size r).
Definition boundaries_fit (b : list BoundaryClamp) (c : Z) (l : list SliceRecord) : Prop :=
  match last b with Some x => bc_chunk_id x = Some c → bc_record_count x ≤ zlen l | None => True end.
Definition index_ok (v : Published) (b : list BoundaryClamp) (c : Z) (l : list SliceRecord) : Prop :=
  l ≠ [] ∧ Forall (record_stored v) l ∧ boundaries_fit b c l.
Definition published_ok (v : Published) (b : list BoundaryClamp) : Prop :=
  ∀ c, pb_chunk v = Some c → ∃ l, pb_index v c = Some l ∧ index_ok v b c l.

Hypothesis Hcs : 0 < cs ≤ UINT32_MAX.

Lemma u32_cs : u32 cs = cs.
Proof. apply wrap_id; [lia|]. unfold in_range, UINT32_MAX in *. lia. Qed.

Lemma sanitize_acc newest bs vp acc :
  sanitize cs newest bs vp acc = (l ← sanitize cs newest bs vp []; Ok (l ++ acc)).
Proof.
  revert bs vp acc. induction newest as [|r older IH]; intros bs vp acc; [done|]. cbn [sanitize].
  destruct (drop_boundaries _ _ _) as [vp' bs']. destruct (check _); [|done]. cbn.
  destruct (_ >=? _); [by rewrite IH|]. rewrite IH, (IH _ _ [_]). destruct (sanitize _ _ _ _ []); [|done].
  cbn. by rewrite <- app_assoc.
Qed.

(** Sanitation of valid records succeeds and keeps prefixes of them. *)
Definition record_prefix (r r' : SliceRecord) : Prop :=
  sr_pos r' = sr_pos r ∧ sr_id r' = sr_id r ∧ sr_size r' = sr_size r ∧ sr_off r' = sr_off r ∧ 0 < sr_len r' ≤ sr_len r.
Lemma record_prefix_valid r r' :
  record_prefix r r' → record_fields r → ValidateRecord r cs = OK → record_fields r' ∧ ValidateRecord r' cs = OK.
Proof.
  intros (E1 & E2 & E3 & E4 & ?) Hf Hv. pose proof Hf as (Hp & Hi & Hs & Ho & Hl).
  split; [unfold record_fields, in_range in *; rewrite E1, E2, E3, E4; lia|].
  unfold ValidateRecord in *. rewrite E1, E2, E3, E4 in *.
  destruct ((_ || _) || _) eqn:Ea in Hv; [done|]. apply orb_false_iff in Ea as [Ea Ec]. apply orb_false_iff in Ea as [Ea Eb].
  rewrite (proj2 (Z.eqb_neq (sr_len r') 0)) by lia. rewrite Eb.
  assert ((sr_len r' >? u32 (cs - sr_pos r)) = false) as -> by zlia. cbn [orb].
  destruct (sr_id r =? 0); [done|].
  destruct (((_ || _) || _) || (sr_len r >? _)) eqn:Ed in Hv; [done|]. apply orb_false_iff in Ed as [Ed Ee].
  rewrite Ed. assert ((sr_len r' >? u32 (sr_size r - sr_off r)) = false) as -> by zlia. done.
Qed.

Lemma sanitize_Ok newest bs vp :
  Forall (λ r, record_fields r ∧ ValidateRecord r cs = OK) newest →
  ∃ l, sanitize cs newest bs vp [] = Ok l ∧ Forall (λ r', ∃ r, r ∈ newest ∧ record_prefix r r') l.
Proof.
  intros Hn. revert bs vp. induction Hn as [|r older [Hf Hv] _ IH]; intros bs vp; [by exists []|].
  cbn [sanitize]. destruct (drop_boundaries _ _ _) as [vp' bs']. rewrite u32_cs, Hv. cbn.
  destruct (IH bs' vp') as (l & Hl & Hp).
  assert (Forall (λ r', ∃ r0, r0 ∈ r :: older ∧ record_prefix r0 r') l) as Hp'.
  { eapply Forall_impl; [exact Hp|]. intros r' (r0 & ? & ?). exists r0. split; [by right|done]. }
  destruct (_ >=? _) eqn:E; [by exists l|]. rewrite sanitize_acc, Hl. cbn. eexists. split; [done|].
  apply Forall_app. split; [done|]. constructor; [|constructor]. exists r. split; [by left|].
  apply ValidateRecord_OK in Hv as (? & ? & ? & _); [|done|unfold UINT32_MAX in *; lia].
  assert (0 < Z.min (sr_len r) (vp' - sr_pos r) ≤ sr_len r) as ? by zlia.
  unfold record_prefix; cbn. rewrite wrap_id; [split_and!; try done; lia|lia|].
  unfold in_range, UINT32_MAX in *. lia.
Qed.
Lemma records_valid v l :
  Forall (record_stored v) l → Forall (λ r, record_fields r ∧ ValidateRecord r cs = OK) l.
Proof. intros Hl. eapply Forall_impl; [exact Hl|]. by intros r (? & ? & _). Qed.

Lemma sanitized_Ok v b c l :
  index_ok v b c l → ∃ l', sanitized_records cs b c l = Ok l' ∧ Forall (record_stored v) l'.
Proof.
  intros (_ & Hl & Hb). unfold sanitized_records, boundaries_fit in *. destruct (last b) as [x|]; [|by exists l].
  destruct (bool_decide _) eqn:E; [|by exists l]. apply bool_decide_eq_true in E.
  destruct (Z.ltb_spec (zlen l) (bc_record_count x)) as [|_]; [specialize (Hb E); lia|]. cbn.
  destruct (sanitize_Ok (reverse l) (reverse b) cs) as (l' & -> & Hp).
  { rewrite Forall_reverse. by eapply records_valid. }
  exists l'. split; [done|]. eapply Forall_impl; [exact Hp|]. intros r' (r & Hin & Hpre).
  rewrite Forall_forall in Hl. rewrite elem_of_reverse in Hin. destruct (Hl r Hin) as (Hf & Hv & Hid & Ho).
  destruct (record_prefix_valid r r' Hpre Hf Hv) as [? ?]. pose proof Hpre as (_ & Eid & Esz & _).
  unfold record_stored. rewrite Eid, Esz. done.
Qed.

Lemma drop_boundaries_fit b x i : last b = Some x → bc_record_count x < i → drop_boundaries i cs (reverse b) = (cs, reverse b).
Proof.
  intros Hl Hx. apply last_Some in Hl as [b' ->]. rewrite reverse_snoc. cbn.
  rewrite Z.geb_leb, (proj2 (Z.leb_gt _ _)) by lia. done.
Qed.

(** Appending a record: sanitation of the older ones does not change and the new one is whole. *)
Lemma sanitized_snoc b c l l' r :
  boundaries_fit b c l → record_fields r → ValidateRecord r cs = OK →
  sanitized_records cs b c l = Ok l' → sanitized_records cs b c (l ++ [r]) = Ok (l' ++ [r]).
Proof.
  unfold sanitized_records, boundaries_fit. intros Hb Hf Hv. destruct (last b) as [x|] eqn:Hx; [|by intros [= ->]].
  destruct (bool_decide _) eqn:E; [|by intros [= ->]]. apply bool_decide_eq_true in E. specialize (Hb E).
  rewrite zlen_app. change (zlen [r]) with 1. pose proof (zlen_nonneg l).
  destruct (Z.ltb_spec (zlen l) (bc_record_count x)); [lia|].
  destruct (Z.ltb_spec (zlen l + 1) (bc_record_count x)); [lia|]. cbn [fail_if mbind result_bind].
  intros Hs. rewrite reverse_snoc. cbn [sanitize].
  assert (zlen (r :: reverse l) = zlen l + 1) as -> by (rewrite zlen_cons; unfold zlen; by rewrite length_reverse).
  rewrite (drop_boundaries_fit b x) by (done || lia). rewrite u32_cs, Hv. cbn.
  destruct (ValidateRecord_OK r cs Hf ltac:(unfold UINT32_MAX in *; lia) Hv) as (? & ? & ? & _).
  rewrite Z.geb_leb, (proj2 (Z.leb_gt _ _)) by lia. rewrite Z.min_l, wrap_id by (unfold in_range, UINT32_MAX in *; lia).
  rewrite sanitize_acc, Hs. cbn. by destruct r.
Qed.

Lemma visible_snoc l r k : visible (l ++ [r]) k = if covers k r then record_source r k else visible l k.
Proof. unfold visible, newest_source. rewrite reverse_snoc. cbn. by destruct (covers k r). Qed.

Lemma visible_elem l k :
  visible l k = (0, 0) ∨ ∃ r, r ∈ l ∧ sr_pos r ≤ k < sr_pos r + sr_len r ∧ visible l k = record_source r k.
Proof.
  unfold visible, newest_source. destruct (List.find (covers k) (reverse l)) as [r|] eqn:E; [|by left].
  right. apply List.find_some in E as [Hin%list_elem_of_In Hc]. rewrite elem_of_reverse in Hin.
  exists r. unfold covers in Hc. apply andb_true_iff in Hc as [? ?]. split_and!; [done|zlia|zlia|done].
Qed.

Lemma visible_records_stored v b : published_ok v b → Forall (record_stored v) (visible_records v b).
Proof.
  intros Hok. unfold visible_records. destruct (pb_chunk v) as [c|] eqn:Ec; [|constructor].
  destruct (Hok c Ec) as (l & -> & Hi). destruct (sanitized_Ok v b c l Hi) as (l' & -> & ?). done.
Qed.

(** Contents depend on the records and the objects they name only. *)
Lemma stored_frame v v' b :
  visible_records v' b = visible_records v b →
  (∀ r, r ∈ visible_records v b → sr_id r ≠ 0 → pb_object v' (SliceObjectKey (sr_id r)) = pb_object v (SliceObjectKey (sr_id r))) →
  ∀ k, stored v' b k = stored v b k.
Proof.
  intros Hr Ho k. unfold stored. rewrite Hr. destruct (visible_elem (visible_records v b) k) as [->|(r & Hin & _ & ->)]; [done|].
  unfold source_byte, record_source. destruct (Z.eqb_spec (sr_id r) 0); [done|]. cbn [fst snd].
  destruct (Z.eqb_spec (sr_id r) 0); [done|]. by rewrite Ho.
Qed.

Lemma record_stored_mono v v' r :
  (∀ key o, pb_object v key = Some o → pb_object v' key = Some o) → pb_next_slice v ≤ pb_next_slice v' →
  record_stored v r → record_stored v' r.
Proof.
  intros Ho Hn (? & ? & ? & Hr). split_and!; try done; [lia|]. intros Hid. destruct (Hr Hid) as (o & ? & ?). eauto.
Qed.
Lemma visible_records_same v v' b :
  pb_chunk v' = pb_chunk v → (∀ c, pb_index v' c = pb_index v c) → visible_records v' b = visible_records v b.
Proof. intros Hc Hi. unfold visible_records. rewrite Hc. destruct (pb_chunk v) as [c|]; [by rewrite Hi|done]. Qed.
Lemma published_ok_mono v v' b :
  pb_chunk v' = pb_chunk v → (∀ c, pb_index v' c = pb_index v c) →
  (∀ key o, pb_object v key = Some o → pb_object v' key = Some o) → pb_next_slice v ≤ pb_next_slice v' →
  published_ok v b → published_ok v' b.
Proof.
  intros Hc Hi Ho Hn Hok c. rewrite Hc. intros (l & Hl & Hne & Hall & Hb)%Hok. exists l. rewrite Hi.
  split; [done|]. split_and!; try done. eapply Forall_impl; [exact Hall|]. intros r. by apply record_stored_mono.
Qed.

Lemma settles_ok v v' b : settles v v' → published_ok v b → published_ok v' b.
Proof. intros []. by apply published_ok_mono. Qed.
Lemma settles_stored v v' b k : settles v v' → published_ok v b → stored v' b k = stored v b k.
Proof.
  intros [Hc _ Hi Ho _] Hok. apply stored_frame; [by apply visible_records_same|]. intros r Hr Hid.
  pose proof (visible_records_stored v b Hok) as Hs. rewrite Forall_forall in Hs.
  destruct (Hs r Hr) as (_ & _ & _ & Hobj). destruct (Hobj Hid) as (o & Hko & _). rewrite Hko. by apply Ho.
Qed.

Lemma eof_range v : 0 ≤ eof v ≤ cs.
Proof. unfold eof. rewrite Z.gtb_ltb. destruct (Z.ltb_spec start (pb_size v)); lia. Qed.
Lemma eof_mono v v' : pb_size v ≤ pb_size v' → eof v ≤ eof v'.
Proof. intros. unfold eof. rewrite !Z.gtb_ltb. destruct (Z.ltb_spec start (pb_size v)), (Z.ltb_spec start (pb_size v')); lia. Qed.

(** The visible records name objects of the index. *)
Lemma sanitized_ids b c l l' :
  Forall (λ r, record_fields r ∧ ValidateRecord r cs = OK) l → sanitized_records cs b c l = Ok l' →
  Forall (λ r', ∃ r, r ∈ l ∧ sr_id r = sr_id r') l'.
Proof.
  intros Hl. unfold sanitized_records. destruct (last b) as [x|]; [destruct (bool_decide _)|].
  2,3: intros [= <-]; apply Forall_forall; intros r Hr; by exists r.
  destruct (fail_if _ _); [|done]. cbn. intros Hs.
  destruct (sanitize_Ok (reverse l) (reverse b) cs) as (l2 & Hs2 & Hp); [by rewrite Forall_reverse|]. rewrite Hs in Hs2. injection Hs2 as <-.
  eapply Forall_impl; [exact Hp|]. intros r' (r & Hin & (_ & ? & _)). exists r. rewrite elem_of_reverse in Hin. done.
Qed.
Lemma visible_records_ids v b r' :
  published_ok v b → r' ∈ visible_records v b →
  ∃ c l r, pb_chunk v = Some c ∧ pb_index v c = Some l ∧ r ∈ l ∧ sr_id r = sr_id r'.
Proof.
  intros Hok. unfold visible_records. destruct (pb_chunk v) as [c|] eqn:Ec; [|by intros ?%elem_of_nil].
  destruct (Hok c Ec) as (l & Hl & Hi). rewrite Hl. destruct (sanitized_Ok v b c l Hi) as (l' & Hs & _). rewrite Hs. intros Hr.
  pose proof (sanitized_ids b c l l' (records_valid v l (proj1 (proj2 Hi))) Hs) as Hids.
  rewrite Forall_forall in Hids. destruct (Hids r' Hr) as (r & ? & ?). exists c, l, r. done.
Qed.

Lemma SliceObjectKey_inj a b : 0 ≤ a → 0 ≤ b → SliceObjectKey a = SliceObjectKey b → a = b.
Proof. intros Ha Hb E. apply app_inv_head in E. by apply to_string_inj. Qed.

End Contents.
