(* ===== verification/SliceMemory.v ===== *)
(** * A backend in memory

    A concrete backend for slice chunk sessions that keeps its promises and never fails:
    the laws of SlicePublished.v can be met, and sessions run on it.  [mm_incoming] scripts
    the writes other fibers hand to the session, one batch per call. *)

From S2P Require Import Prelude RedisKv Decimal StdMap ChunkGeometry InodeTypes SliceHistory DirtyRanges Records MetaEngine SliceChunk SliceLocal SlicePublished.

Fixpoint assoc {K V : Type} `{EqDecision K} (k : K) (l : list (K * V)) : option V :=
  match l with
  | [] => None
  | (k', x) :: l => if bool_decide (k = k') then Some x else assoc k l
  end.

Record Memory := mkMemory {
  mm_chunk : option Z; mm_size : Z; mm_index : list (Z * list SliceRecord); mm_objects : list (bytes * bytes); mm_next : Z; mm_next_chunk : Z;
  mm_incoming : list (list (Z * bytes)); mm_delivered : list (Z * bytes); mm_arrived : list (Z * bytes);
}.

(** The next batch of foreign writes arrives with every answer. *)
Definition deliver (m : Memory) : Memory :=
  let batch := List.filter (λ x : Z * bytes, 0 <=? x.1) (default [] (head (mm_incoming m))) in
  mkMemory (mm_chunk m) (mm_size m) (mm_index m) (mm_objects m) (mm_next m) (mm_next_chunk m) (tail (mm_incoming m)) batch (mm_arrived m ++ batch).
Definition with_index (c : Z) (l : list SliceRecord) (m : Memory) : Memory :=
  mkMemory (mm_chunk m) (mm_size m) ((c, l) :: mm_index m) (mm_objects m) (mm_next m) (mm_next_chunk m) (mm_incoming m) (mm_delivered m) (mm_arrived m).
Definition with_chunk (c : option Z) (n : Z) (m : Memory) : Memory :=
  mkMemory c n (mm_index m) (mm_objects m) (mm_next m) (mm_next_chunk m) (mm_incoming m) (mm_delivered m) (mm_arrived m).
Definition with_object (k o : bytes) (m : Memory) : Memory :=
  mkMemory (mm_chunk m) (mm_size m) (mm_index m) ((k, o) :: mm_objects m) (mm_next m) (mm_next_chunk m) (mm_incoming m) (mm_delivered m) (mm_arrived m).
Definition with_next (n : Z) (m : Memory) : Memory :=
  mkMemory (mm_chunk m) (mm_size m) (mm_index m) (mm_objects m) n (mm_next_chunk m) (mm_incoming m) (mm_delivered m) (mm_arrived m).

Definition with_next_chunk (n : Z) (m : Memory) : Memory :=
  mkMemory (mm_chunk m) (mm_size m) (mm_index m) (mm_objects m) (mm_next m) n (mm_incoming m) (mm_delivered m) (mm_arrived m).

Definition mm_inode (n : Z) : SwordFsInode :=
  mkInode 2 (mkAttr 0 2 S_IFREG 1 0 0 0 n 4096 0 0 0 0 0 0 0 0 0 0) 1 [] [].

(** A call that is out of order is refused. *)
Definition answer {A : Type} (ok : bool) (a : A) (m' m : Memory) : result A * Memory :=
  if ok then (Ok a, deliver m') else (Err AlreadyExists, deliver m).

#[export] Instance memory_backend : ChunkBackend Memory := {|
  be_snapshot m := answer true (mkChunkSnapshot (mm_inode (mm_size m)) (mm_chunk m) None) m m;
  be_attach c e _ m := answer (bool_decide (mm_chunk m = None)) tt (with_chunk (Some c) (Z.max (mm_size m) e) m) m;
  be_finalize c e _ m := answer (bool_decide (mm_chunk m = Some c)) tt (with_chunk (Some c) (Z.max (mm_size m) e) m) m;
  be_allocate_slice m := answer (mm_next m <=? INT64_MAX) (mm_next m) (with_next (mm_next m + 1) m) m;
  be_allocate_chunk m := answer (mm_next_chunk m <=? INT64_MAX) (mm_next_chunk m) (with_next_chunk (mm_next_chunk m + 1) m) m;
  be_create_index c r m := answer (bool_decide (assoc c (mm_index m) = None)) tt (with_index c [r] m) m;
  be_append c r m := answer (bool_decide (is_Some (assoc c (mm_index m)))) tt (with_index c (default [] (assoc c (mm_index m)) ++ [r]) m) m;
  be_records c m := answer (bool_decide (is_Some (assoc c (mm_index m)))) (default [] (assoc c (mm_index m))) m m;
  be_get k off n m := answer (bool_decide (is_Some (assoc k (mm_objects m)))) (substr (default [] (assoc k (mm_objects m))) off n) m m;
  be_put k o m := answer true tt (with_object k o m) m;
  during := mm_delivered;
|}.
#[export] Instance memory_view : BackendView Memory := {|
  view m := mkPublished (mm_chunk m) (mm_size m) (λ c, assoc c (mm_index m)) (λ k, assoc k (mm_objects m)) (mm_next m) (mm_next_chunk m);
  arrived := mm_arrived;
  faults := False;
|}.

Lemma deliver_view m : view (deliver m) = view m.
Proof. done. Qed.
Lemma deliver_during m : Forall (λ x, 0 ≤ x.1) (during (deliver m)).
Proof. apply Forall_forall. intros x [_ Hx]%list_elem_of_In%List.filter_In. by apply Z.leb_le. Qed.

Lemma answer_performs {A : Type} (f : Memory → result A * Memory) ok a next pre E :
  (∀ m, f m = answer (ok m) (a m) (next m) m) → (∀ m, mm_arrived (next m) = mm_arrived m) →
  (∀ m, ok m = true → E (Ok (a m)) (view m) (view (next m))) →
  (∀ m, ok m = false → ¬ pre (view m) ∧ E (Err AlreadyExists) (view m) (view m)) → performs f pre E.
Proof.
  intros Hf Ha Hok Herr m r m'. rewrite Hf. unfold answer. destruct (ok m) eqn:Eo; intros [= <- <-].
  - split_and!; [cbn; by rewrite Ha|apply deliver_during|done|]. exists (view (next m)). split; [auto|]. by rewrite deliver_view.
  - destruct (Herr m Eo). split_and!; [done|apply deliver_during|by right|]. exists (view m). split; [done|]. by rewrite deliver_view.
Qed.

Ltac law ok a next :=
  apply (answer_performs _ ok a next);
  [done|done|intros m; rewrite ?bool_decide_eq_true|intros m; rewrite ?bool_decide_eq_false]; intros E; try done.

Lemma assoc_here {K V : Type} `{EqDecision K} (k : K) (x : V) l : assoc k ((k, x) :: l) = Some x.
Proof. cbn. by rewrite bool_decide_eq_true_2. Qed.
Lemma assoc_there {K V : Type} `{EqDecision K} (k k' : K) (x : V) l : k ≠ k' → assoc k ((k', x) :: l) = assoc k l.
Proof. intros. cbn. by rewrite bool_decide_eq_false_2. Qed.
Lemma with_index_indexed c l m : indexed c l (view m) (view (with_index c l m)).
Proof. split_and!; try done; [apply assoc_here|]. intros c' Hc. by apply assoc_there. Qed.

#[export] Instance memory_laws : BackendLaws Memory.
Proof.
  split; intros.
  - law (λ _ : Memory, true) (λ m, mkChunkSnapshot (mm_inode (mm_size m)) (mm_chunk m) None) (λ m : Memory, m).
  - law (λ m, bool_decide (is_Some (assoc c (mm_index m)))) (λ m, default [] (assoc c (mm_index m))) (λ m : Memory, m).
    destruct E as [l Hl]. split; [done|]. cbn. by rewrite Hl.
  - law (λ m, bool_decide (is_Some (assoc key (mm_objects m)))) (λ m, substr (default [] (assoc key (mm_objects m))) off n) (λ m : Memory, m).
    destruct E as [o Ho]. split; [done|]. exists o. cbn. by rewrite Ho.
  - law (λ _ : Memory, true) (λ _ : Memory, tt) (with_object key o).
    split_and!; try done; [apply assoc_here|]. intros key' Hk. by apply assoc_there.
  - law (λ m, mm_next m <=? INT64_MAX) mm_next (λ m, with_next (mm_next m + 1) m); unfold fresh_slice; cbn; split_and!; try done; zlia.
  - law (λ m, mm_next_chunk m <=? INT64_MAX) mm_next_chunk (λ m, with_next_chunk (mm_next_chunk m + 1) m);
      unfold fresh_chunk; cbn; split_and!; try done; zlia.
  - law (λ m, bool_decide (assoc c (mm_index m) = None)) (λ _ : Memory, tt) (with_index c [r]).
    split; [done|]. apply with_index_indexed.
  - law (λ m, bool_decide (is_Some (assoc c (mm_index m)))) (λ _ : Memory, tt) (λ m, with_index c (default [] (assoc c (mm_index m)) ++ [r]) m).
    destruct E as [l Hl]. exists l. split; [done|]. rewrite Hl. apply (with_index_indexed c (l ++ [r])).
  - law (λ m, bool_decide (mm_chunk m = None)) (λ _ : Memory, tt) (λ m, with_chunk (Some c) (Z.max (mm_size m) e) m).
  - law (λ m, bool_decide (mm_chunk m = Some c)) (λ _ : Memory, tt) (λ m, with_chunk (Some c) (Z.max (mm_size m) e) m).
Qed.

Definition empty_memory (incoming : list (list (Z * bytes))) : Memory := mkMemory None 0 [] [] 1 1 incoming [] [].
