(* ===== verification/SliceRead.v ===== *)
(** * Reads of a slice chunk

    [SliceChunk::Read] and [ReadCommittedRange] against any backend that keeps its
    promises: a read that succeeds returns, byte for byte, the newest buffered write or
    else the published contents of the chunk, although other fibers write and other
    sessions extend the file while it runs. *)

From S2P Require Import Prelude RedisKv Decimal StdMap ChunkGeometry InodeTypes SliceHistory DirtyRanges Records MetaEngine SliceChunk SliceLocal SlicePublished SliceMemory.

(** ** The overlays of a request *)
Lemma overlays_of_starts rs offset len x :
  x ∈ overlays_of rs offset len → ∃ s, s ∈ rs ∧ s.1 - offset ≤ x.1.
Proof.
  induction rs as [|r rs IH]; cbn; [by intros ?%elem_of_nil|]. destruct (_ <? _); [|by intros ?%elem_of_nil].
  assert (x ∈ overlays_of rs offset len → ∃ s, s ∈ r :: rs ∧ s.1 - offset ≤ x.1) as Hrest.
  { intros (s & ? & ?)%IH. exists s. split; [by right|done]. }
  destruct (_ <? _); [|exact Hrest]. intros [->|Hx]%elem_of_cons; [|by apply Hrest].
  exists r. split; [by left|]. cbn. lia.
Qed.

Lemma range_end_pair a x : range_end (a, x) = a + zlen x.
Proof. done. Qed.

Lemma overlay_byte r offset len i :
  range_ok r → 0 ≤ offset → 0 ≤ len →
  let a := Z.max offset r.1 in let b := Z.min (offset + len) (range_end r) in a < b →
  in_range_of (a - offset, substr r.2 (a - r.1) (b - a)) i = (0 <=? i) && (i <? len) && in_range_of r (offset + i) ∧
  (in_range_of r (offset + i) = true → byte_at (substr r.2 (a - r.1) (b - a)) (i - (a - offset)) =
     if (0 <=? i) && (i <? len) then byte_at r.2 (offset + i - r.1) else None) ∧
  zlen (substr r.2 (a - r.1) (b - a)) = b - a.
Proof.
  intros [? ?] ? ?. cbn zeta. intros Hab. unfold range_end in *.
  assert (zlen (substr r.2 (Z.max offset r.1 - r.1) (Z.min (offset + len) (r.1 + zlen r.2) - Z.max offset r.1)) =
          Z.min (offset + len) (r.1 + zlen r.2) - Z.max offset r.1) as Hl by (apply zlen_substr; lia).
  split_and!; [| |exact Hl].
  - unfold in_range_of, range_end. cbn [fst snd]. rewrite Hl.
    repeat match goal with |- context [?a <=? ?b] => destruct (Z.leb_spec a b) | |- context [?a <? ?b] => destruct (Z.ltb_spec a b) end;
      cbn; try done; lia.
  - intros Hin%in_range_of_true. unfold range_end in Hin. rewrite byte_at_substr by lia.
    repeat match goal with |- context [?a <=? ?b] => destruct (Z.leb_spec a b) | |- context [?a <? ?b] => destruct (Z.ltb_spec a b) end;
      cbn; try done; try lia. f_equal. lia.
Qed.

Lemma overlays_of_spec rs offset len :
  ranges_ok rs → 0 ≤ offset → 0 ≤ len →
  let ov := overlays_of rs offset len in
  ranges_ok ov ∧ within len ov ∧
  ∀ i, dirty_at ov i = if (0 <=? i) && (i <? len) then dirty_at rs (offset + i) else None.
Proof.
  intros Hok Ho Hl. cbn zeta. induction rs as [|r rs IH]; cbn [overlays_of].
  { split_and!; [split; constructor|constructor|intros i; by destruct (_ && _)]. }
  pose proof Hok as (Hr & Hrs & Hsep)%ranges_ok_cons. destruct (IH Hrs) as (Hov & Hw & Hat). clear IH.
  destruct (Z.ltb_spec r.1 (offset + len)) as [Hlt|Hge].
  2:{ split_and!; [split; constructor|constructor|]. intros i. destruct (_ && _) eqn:E; [|done]. apply andb_true_iff in E as [? ?].
      symmetry. apply (dirty_at_above (r :: rs) _ (offset + len)); [|zlia]. intros s [->|Hs]%elem_of_cons; [lia|].
      specialize (Hsep s Hs). destruct Hr. unfold range_end in Hsep. lia. }
  destruct (Z.ltb_spec (Z.max offset r.1) (Z.min (offset + len) (range_end r))) as [Hab|Hab].
  - destruct (overlay_byte r offset len 0 Hr Ho Hl Hab) as (_ & _ & Hlen). split_and!.
    + split.
      * constructor; [apply Hov|]. apply Forall_forall. intros x (s & Hs & Hx)%overlays_of_starts.
        unfold range_before. rewrite range_end_pair, Hlen. specialize (Hsep s Hs). lia.
      * constructor; [|apply Hov]. split; cbn [fst snd]; [lia|]. rewrite Hlen. lia.
    + constructor; [|done]. rewrite range_end_pair, Hlen. lia.
    + intros i. cbn [dirty_at fst snd]. destruct (overlay_byte r offset len i Hr Ho Hl Hab) as (-> & Hb & _). rewrite Hat.
      destruct (in_range_of_cases r (offset + i)) as [[Hin E]|[_ E]]; rewrite E in *; cbn.
      * specialize (Hb eq_refl). rewrite Hb. rewrite andb_true_r. by destruct (_ && _).
      * by rewrite andb_false_r.
  - split_and!; [done|done|]. intros i. rewrite Hat. destruct (_ && _) eqn:E; [|done]. apply andb_true_iff in E as [? ?]. cbn [dirty_at].
    destruct (in_range_of_cases r (offset + i)) as [[Hin E]|[_ ->]]; [|done]. unfold range_end in *. zlia.
Qed.

Lemma overlays_in_spec rs offset len :
  ranges_ok rs → 0 ≤ offset → 0 ≤ len →
  let ov := overlays_in rs offset len in
  ranges_ok ov ∧ within len ov ∧
  ∀ i, dirty_at ov i = if (0 <=? i) && (i <? len) then dirty_at rs (offset + i) else None.
Proof.
  intros Hok Ho Hl. unfold overlays_in. destruct (map_lower_bound offset rs) as [b a] eqn:E.
  apply map_lower_bound_spec in E as (-> & Hb & _); [|by apply ranges_ok_sorted].
  destruct (from_previous_spec b a offset Hok) as (Hok' & Hat & _).
  { intros r Hr. rewrite Forall_forall in Hb. specialize (Hb r Hr). apply Z.ltb_lt in Hb. lia. }
  destruct (overlays_of_spec _ offset len Hok' Ho Hl) as (H1 & H2 & H3). split_and!; [done|done|].
  intros i. rewrite H3. destruct (_ && _) eqn:E; [|done]. apply andb_true_iff in E as [? ?]. apply Hat. zlia.
Qed.

(** ** Fetching published bytes *)
Section Read.
Context {W : Type} `{BackendLaws W} (index cs start : Z).
Hypothesis Hcs : 0 < cs ≤ UINT32_MAX.
Hypothesis Hstart : CalculateChunkStartOffset index cs = Ok start.

(** Nothing happened but writes of other fibers and growth of the file. *)
Definition quiet (st st' : @state W) : Prop :=
  ∃ ws, arrived st'.2 = arrived st.2 ++ ws ∧ Forall (λ x, 0 ≤ x.1) ws ∧ st'.1 = accept_writes cs ws st.1 ∧
  settles (view st.2) (view st'.2).
#[export] Instance quiet_preorder : PreOrder quiet.
Proof.
  split.
  - intros st. exists []. by rewrite app_nil_r.
  - intros st1 st2 st3 (w1 & A1 & F1 & S1 & V1) (w2 & A2 & F2 & S2 & V2). exists (w1 ++ w2).
    rewrite A2, A1, S2, S1. unfold accept_writes. rewrite foldl_app, app_assoc.
    split_and!; [done|by apply Forall_app|done|by etrans].
Qed.

Lemma wp_query {A : Type} (f : W → result A * W) pre P (Q : result A → @state W → Prop) st :
  performs f pre (query P) → pre (view st.2) →
  (∀ r st', quiet st st' → match r with Ok a => P a (view st.2) | Err _ => faults end → Q r st') → wp (call cs f) Q st.
Proof.
  intros Hp Hpre HQ. destruct st as [s w]. eapply wp_call; [exact Hp|]. intros r w' v Ha Hf Hfault [-> HP] Hs.
  apply HQ; [|destruct r; [done|by destruct Hfault]]. exists (during w'). done.
Qed.

Definition object_holds (v : Published) (span : ResolvedSlice) : Prop :=
  rs_id span ≠ 0 ∧ 0 ≤ rs_off span ∧
  ∃ o, pb_object v (SliceObjectKey (rs_id span)) = Some o ∧ rs_off span + rs_len span ≤ zlen o.
Definition span_byte (v : Published) (span : ResolvedSlice) (p : Z) : ascii := source_byte v (span_source span p).

(** The object bytes of [[a, b)] in place, everything else unchanged. *)
Definition copied (v : Published) (span : ResolvedSlice) (offset a b : Z) (old new : bytes) : Prop :=
  zlen new = zlen old ∧
  ∀ p, offset ≤ p → byte_at new (p - offset) =
    if (a <=? p) && (p <? b) then Some (span_byte v span p) else byte_at old (p - offset).

Lemma get_span v span a n st (Q : result bytes → @state W → Prop) :
  settles v (view st.2) → object_holds v span → rs_pos span ≤ a → 0 ≤ n → a + n ≤ rs_pos span + rs_len span →
  (∀ r st', quiet st st' → match r with
     | Ok b => zlen b = n ∧ ∀ i, 0 ≤ i < n → byte_at b i = Some (span_byte v span (a + i)) | Err _ => faults end → Q r st') →
  wp (call cs (be_get (SliceObjectKey (rs_id span)) (rs_off span + (a - rs_pos span)) n)) Q st.
Proof.
  intros Hv (Hid & Hoff & o & Ho & Hlen) Ha Hn Hb HQ. eapply wp_query; [apply law_get|exists o; by apply (st_object _ _ Hv)|]. intros r st' Hq Hr.
  apply HQ; [done|]. destruct r as [b|]; [|done]. destruct Hr as (o' & Ho' & ->).
  rewrite (st_object _ _ Hv _ _ Ho) in Ho'. simplify_eq. split; [apply zlen_substr; lia|].
  intros i Hi. rewrite byte_at_substr by lia. rewrite (proj2 (Z.leb_le 0 i)), (proj2 (Z.ltb_lt i n)) by lia. cbn.
  unfold span_byte, source_byte, span_source. rewrite (proj2 (Z.eqb_neq (rs_id span) 0)) by done. cbn [fst snd].
  rewrite (proj2 (Z.eqb_neq (rs_id span) 0)), Ho by done. cbn.
  replace (rs_off span + (a - rs_pos span) + i) with (rs_off span + (a + i - rs_pos span)) by lia.
  destruct (byte_at_inside o' (rs_off span + (a + i - rs_pos span))) as [c ->]; [lia|done].
Qed.

Lemma fetch_spec v span offset a b old st (Q : result bytes → @state W → Prop) :
  settles v (view st.2) → object_holds v span → offset ≤ rs_pos span ≤ a → a ≤ b ≤ rs_pos span + rs_len span →
  b ≤ offset + zlen old →
  (∀ r st', quiet st st' → match r with Ok new => copied v span offset a b old new | Err _ => faults end → Q r st') →
  wp (fetch cs span offset a b old) Q st.
Proof.
  intros Hv Hobj Ha Hb Hold HQ. unfold fetch. destruct (Z.eqb_spec a b) as [->|Hne].
  { apply wp_ret, HQ; [reflexivity|]. split; [done|]. intros p _.
    destruct (Z.leb_spec b p), (Z.ltb_spec p b); cbn; try done; lia. }
  apply wp_bind. eapply get_span; [exact Hv|done|lia|lia|lia|]. intros r st1 Hq Hr.
  destruct r as [ph|e]; [|by apply HQ]. destruct Hr as [Hlen Hat].
  apply wp_bind, wp_fail_if; intros E; [by rewrite Hlen, Z.eqb_refl in E|].
  apply wp_ret, HQ; [done|]. split; [apply zlen_memcpy; lia|]. intros p Hp. rewrite byte_at_memcpy by lia.
  rewrite Hlen. destruct (Z.leb_spec a p), (Z.ltb_spec p b), (Z.leb_spec (a - offset) (p - offset)),
    (Z.ltb_spec (p - offset) (a - offset + (b - a))); cbn; try done; try lia.
  specialize (Hat (p - a) ltac:(lia)). replace (a + (p - a)) with p in Hat by lia. rewrite <- Hat. f_equal. lia.
Qed.
(** The object bytes of [[a, b)] in place wherever no overlay hides them. *)
Definition filled (g : Z → ascii) (offset a b : Z) (ov : DirtyRanges) (old new : bytes) : Prop :=
  zlen new = zlen old ∧
  ∀ p, offset ≤ p →
    (¬ (a ≤ p < b) → byte_at new (p - offset) = byte_at old (p - offset)) ∧
    (a ≤ p < b → dirty_at ov (p - offset) = None → byte_at new (p - offset) = Some (g p)).

Lemma copied_filled v span offset a b ov old new :
  copied v span offset a b old new → filled (span_byte v span) offset a b ov old new.
Proof.
  intros [Hl Hat]. split; [done|]. intros p Hp. rewrite Hat by done.
  destruct (Z.leb_spec a p), (Z.ltb_spec p b); cbn; split; intros; done || lia.
Qed.
Lemma fetch_uncovered_spec v span offset ov cursor old st (Q : result bytes → @state W → Prop) :
  let span_end := rs_pos span + rs_len span in
  settles v (view st.2) → object_holds v span → ranges_ok ov → offset ≤ rs_pos span ≤ cursor → cursor ≤ span_end →
  span_end ≤ offset + zlen old →
  (∀ r st', quiet st st' → match r with Ok new => filled (span_byte v span) offset cursor span_end ov old new | Err _ => faults end → Q r st') →
  wp (fetch_uncovered cs span offset cursor ov old) Q st.
Proof.
  cbn zeta. revert cursor old st. induction ov as [|o ov IH]; intros cursor old st Hv Hobj Hok Hc Hce Hend HQ; cbn [fetch_uncovered].
  { eapply fetch_spec; try done. intros r st' Hq Hr. apply HQ; [done|]. destruct r; [|done]. by apply copied_filled. }
  pose proof Hok as ([Ho Hol] & Hrest & Hsep)%ranges_ok_cons.
  assert (∀ p, offset + o.1 + zlen o.2 ≤ p → dirty_at (o :: ov) (p - offset) = dirty_at ov (p - offset)) as Hpast.
  { intros p Hp. cbn [dirty_at]. destruct (in_range_of_cases o (p - offset)) as [[Hin _]|[_ ->]]; [|done]. unfold range_end in Hin. lia. }
  destruct (Z.ltb_spec cursor (rs_pos span + rs_len span)).
  2:{ eapply fetch_spec; try done. intros r st' Hq Hr. apply HQ; [done|]. destruct r; [|done]. by apply copied_filled. }
  rewrite Z.geb_leb. destruct (Z.leb_spec (rs_pos span + rs_len span) (offset + o.1)).
  { eapply fetch_spec; try done; try lia. intros r st' Hq Hr. apply HQ; [done|]. destruct r; [|done]. by apply copied_filled. }
  destruct (Z.leb_spec (offset + o.1 + zlen o.2) cursor) as [Hskip|Hskip].
  { apply IH; try done. intros r st' Hq Hr. apply HQ; [done|]. destruct r as [new|]; [|done]. destruct Hr as [Hl Hr].
    split; [done|]. intros p Hp. destruct (Hr p Hp) as [Ha Hb]. split; [done|]. intros Hin Hd. apply Hb; [done|].
    rewrite <- Hpast by lia. done. }
  apply wp_bind. rewrite Z.gtb_ltb.
  assert (∀ r st1, quiet st st1 →
    match r with Ok mid => filled (span_byte v span) offset cursor (Z.max cursor (offset + o.1)) [] old mid | Err _ => faults end →
    match r with Ok mid => wp (fetch_uncovered cs span offset (Z.min (rs_pos span + rs_len span) (offset + o.1 + zlen o.2)) ov mid) Q st1
            | Err e => Q (Err e) st1 end) as Hcont.
  { intros r st1 Hq Hr. destruct r as [mid|e]; [|by apply HQ]. pose proof Hr as [Hmid Hat].
    assert (settles v (view st1.2)) as Hv1 by (destruct Hq as (? & _ & _ & _ & ?); by etrans).
    apply IH; try done; try lia. intros r st2 Hq2 Hr2. apply HQ; [by etrans|]. destruct r as [new|]; [|done].
    destruct Hr2 as [Hl2 G2]. split; [congruence|]. intros p Hp. destruct (Hat p Hp) as [Ha Hb], (G2 p Hp) as [G2a G2b].
    split; [intros; rewrite G2a, Ha by lia; done|]. intros Hin Hd.
    destruct (Z.lt_ge_cases p (offset + o.1)) as [Hlt|Hge].
    - rewrite G2a by lia. apply Hb; [lia|done].
    - destruct (Z.lt_ge_cases p (offset + o.1 + zlen o.2)) as [Hlt2|Hge2].
      + destruct (dirty_at_cons_inside o ov (p - offset)) as (c & Hc' & _); [unfold range_end; lia|]. congruence.
      + apply G2b; [lia|]. rewrite <- Hpast by lia. done. }
  destruct (Z.ltb_spec cursor (offset + o.1)) as [Hlt|Hge].
  - eapply fetch_spec; try done; try lia. intros r st1 Hq Hr. apply Hcont; [done|]. destruct r; [|done].
    rewrite Z.max_r by lia. by apply copied_filled.
  - apply wp_ret. apply (Hcont (Ok old)); [reflexivity|]. split; [done|]. intros p Hp. split; intros; [done|lia].
Qed.

Lemma skip_overlays_spec ov offset a :
  ranges_ok ov →
  ranges_ok (skip_overlays ov offset a) ∧ ∀ p, a ≤ p → dirty_at (skip_overlays ov offset a) (p - offset) = dirty_at ov (p - offset).
Proof.
  induction ov as [|o ov IH]; intros Hok; cbn [skip_overlays]; [done|].
  destruct (Z.leb_spec (offset + o.1 + zlen o.2) a); [|done]. apply ranges_ok_cons in Hok as (_ & Hok & _).
  destruct (IH Hok) as [Hs Hat]. split; [done|]. intros p Hp. rewrite Hat by done. cbn [dirty_at].
  destruct (in_range_of_cases o (p - offset)) as [[Hin _]|[_ ->]]; [|done]. unfold range_end in Hin. lia.
Qed.

Lemma tiles_le lo hi spans : tiles lo hi spans → lo ≤ hi.
Proof. revert lo. induction spans as [|s l IH]; intros lo; cbn; [lia|]. intros (_ & ? & ?%IH). lia. Qed.

Lemma fetch_spans_spec v (f : Z → Z * Z) spans offset lo hi ov old st (Q : result bytes → @state W → Prop) :
  settles v (view st.2) → tiles lo hi spans → Forall (λ s, rs_id s ≠ 0 → object_holds v s) spans → ranges_ok ov →
  (∀ s p, s ∈ spans → rs_pos s ≤ p < rs_pos s + rs_len s → span_source s p = f p) →
  offset ≤ lo → hi ≤ offset + zlen old → (∀ p, lo ≤ p < hi → byte_at old (p - offset) = Some Ascii.zero) →
  (∀ r st', quiet st st' → match r with Ok new => filled (λ p, source_byte v (f p)) offset lo hi ov old new | Err _ => faults end → Q r st') →
  wp (fetch_spans cs spans offset ov old) Q st.
Proof.
  revert lo ov old st. induction spans as [|span spans IH]; intros lo ov old st Hv Ht Hobj Hok Hsrc Hlo Hhi Hz HQ; cbn [fetch_spans].
  { cbn in Ht. subst hi. apply wp_ret, HQ; [reflexivity|]. split; [done|]. intros p Hp. split; [done|lia]. }
  destruct Ht as (Epos & Hlen & Ht). apply Forall_cons in Hobj as [Hobj Hobjs].
  assert (lo + rs_len span ≤ hi) as Hle by (by eapply tiles_le).
  assert (∀ s p, s ∈ spans → rs_pos s ≤ p < rs_pos s + rs_len s → span_source s p = f p) as Hsrc' by (intros; apply Hsrc; [by right|done]).
  assert (∀ p, lo ≤ p < lo + rs_len span → span_source span p = f p) as Hsp by (intros; apply Hsrc; [by left|lia]).
  destruct (Z.eqb_spec (rs_id span) 0) as [Hid|Hid].
  { eapply (IH (lo + rs_len span)); try done; [lia|intros; apply Hz; lia|]. intros r st' Hq Hr. apply HQ; [done|].
    destruct r as [new|]; [|done]. destruct Hr as [Hl Hr]. split; [done|]. intros p Hp. destruct (Hr p Hp) as [Ha Hb].
    split; [intros; apply Ha; lia|]. intros Hin Hd. destruct (Z.lt_ge_cases p (lo + rs_len span)); [|apply Hb; [lia|done]].
    rewrite Ha, Hz by lia. rewrite <- Hsp by lia. unfold span_source. by rewrite Hid. }
  destruct (skip_overlays_spec ov offset (rs_pos span) Hok) as [Hok' Hskip].
  apply wp_bind. eapply fetch_uncovered_spec; [exact Hv|by apply Hobj|done|lia|lia|lia|]. intros r st1 Hq Hr.
  destruct r as [mid|e]; [|by apply HQ]. destruct Hr as [Hl1 Hmid].
  eapply (IH (lo + rs_len span)); try done; try lia.
  - destruct Hq as (? & _ & _ & _ & ?). by etrans.
  - intros p Hp. rewrite (proj1 (Hmid p ltac:(lia))) by lia. apply Hz. lia.
  - intros r st2 Hq2 Hr. apply HQ; [by etrans|]. destruct r as [new|]; [|done]. destruct Hr as [Hl2 Hnew].
    split; [congruence|]. intros p Hp. destruct (Hmid p Hp) as [Ma Mb], (Hnew p Hp) as [Na Nb].
    split; [intros; rewrite Na, Ma by lia; done|]. intros Hin Hd.
    destruct (Z.lt_ge_cases p (lo + rs_len span)).
    + rewrite Na by lia. rewrite Mb; [unfold span_byte; by rewrite Hsp by lia|lia|rewrite Hskip by lia; done].
    + apply Nb; [lia|]. rewrite Hskip by lia. done.
Qed.

(** A span of the visible records lies within its object. *)
Lemma span_holds v recs s :
  Forall (record_stored cs v) recs → 0 < rs_len s → rs_id s ≠ 0 →
  (∀ p, rs_pos s ≤ p < rs_pos s + rs_len s → span_source s p = visible recs p) → object_holds v s.
Proof.
  intros Hrecs Hlen Hid Hsrc.
  assert (∀ p, rs_pos s ≤ p < rs_pos s + rs_len s →
    ∃ o, pb_object v (SliceObjectKey (rs_id s)) = Some o ∧ 0 ≤ rs_off s + (p - rs_pos s) < zlen o) as Hat.
  { intros p Hp. specialize (Hsrc p Hp). unfold span_source in Hsrc. rewrite (proj2 (Z.eqb_neq _ 0) Hid) in Hsrc.
    destruct (visible_elem recs p) as [E|(r & Hin & Hcov & E)]; rewrite E in Hsrc; [by simplify_eq|].
    rewrite Forall_forall in Hrecs. destruct (Hrecs r Hin) as (Hf & Hv & _ & Ho).
    apply ValidateRecord_OK in Hv as (_ & _ & _ & Hr); [|done|unfold UINT32_MAX in *; lia].
    unfold record_source in Hsrc. destruct (Z.eqb_spec (sr_id r) 0) as [|Hrid]; [by simplify_eq|]. simplify_eq.
    destruct (Ho Hrid) as (o & Ho' & Hsz). destruct (Hr Hrid) as (? & ? & _). exists o. split; [congruence|]. lia. }
  destruct (Hat (rs_pos s) ltac:(lia)) as (o & Ho & ?). destruct (Hat (rs_pos s + rs_len s - 1) ltac:(lia)) as (o' & Ho' & ?).
  simplify_eq. split_and!; [done|lia|]. exists o. split; [done|lia].
Qed.

(** What [ResolveRange] returns for the records in sight of a request below the end of the file. *)
Lemma resolve_published v b offset n :
  published_ok cs v b → 0 ≤ offset → 0 ≤ n → offset + n ≤ cs →
  ∃ spans, ResolveRange (visible_records cs v b) (u32 cs) (u32 offset) (u32 n) = Ok spans ∧ tiles offset (offset + n) spans ∧
    Forall (λ s, rs_id s ≠ 0 → object_holds v s) spans ∧
    ∀ s p, s ∈ spans → rs_pos s ≤ p < rs_pos s + rs_len s → span_source s p = visible (visible_records cs v b) p.
Proof.
  intros Hok Ho Hn Hc. pose proof (visible_records_stored cs Hcs v b Hok) as Hrecs.
  rewrite !wrap_id by (unfold in_range, UINT32_MAX in *; lia).
  destruct (ResolveRange_spec (visible_records cs v b) cs offset n) as (spans & Hs & Ht & _ & Hsrc);
    [unfold UINT32_MAX in *; lia|lia|lia|lia|by eapply Forall_impl; [exact Hrecs|intros r (? & _)]|
     by eapply Forall_impl; [exact Hrecs|intros r (_ & ? & _)]|].
  exists spans. split_and!; [done|done| |done]. apply Forall_forall. intros s Hin Hid.
  apply (span_holds v (visible_records cs v b)); [done| |done|by intros; apply Hsrc].
  clear -Ht Hin. revert Ht. generalize offset at 1. induction spans as [|x l IH]; [by apply elem_of_nil in Hin|].
  intros lo (_ & ? & Ht). apply elem_of_cons in Hin as [->|Hin]; [done|]. by eapply IH.
Qed.

Lemma size_at_eof_spec snap v : snapshot_of snap v → size_at_eof cs snap start = eof cs start v.
Proof. intros [_ E]. unfold size_at_eof, eof. by rewrite E. Qed.

(** The records of the attached chunk, read after the snapshot. *)
Lemma mapped_records_spec v b c st (Q : result (list SliceRecord) → @state W → Prop) :
  published_ok cs v b → pb_chunk v = Some c → settles v (view st.2) →
  (∀ r st', quiet st st' → match r with
     | Ok l => sanitized_records cs b c l = Ok (visible_records cs v b) | Err _ => faults end → Q r st') →
  wp (mapped_records cs c) Q st.
Proof.
  intros Hok Hc Hv HQ. destruct (Hok c Hc) as (l & Hl & Hi). destruct (sanitized_Ok cs Hcs v b c l Hi) as (l' & Hs & _).
  assert (visible_records cs v b = l') as Hvr by (unfold visible_records; by rewrite Hc, Hl, Hs).
  unfold mapped_records. apply wp_bind, wp_try. eapply wp_query; [apply law_records|exists l; by rewrite (st_index _ _ Hv)|]. intros r st' Hq Hr. cbn.
  destruct r as [recs|e].
  - rewrite (st_index _ _ Hv), Hl in Hr. simplify_eq. destruct recs as [|r0 recs]; [by destruct Hi|].
    apply wp_lift, HQ; [done|]. by rewrite Hs.
  - assert (Q (Err e) st' ∧ Q (Err Malformed) st') as [? ?] by (split; by apply HQ). destruct e; by apply wp_fail || by apply wp_lift.
Qed.

(** ** Reads *)
Definition out_of_range (offset len : Z) : bool := (offset >? cs) || (len >? cs - offset).

(** The published part of a read, whichever loop copies it. *)
Definition publishes (s : SliceChunk) (v : Published) (offset len : Z) (ov : DirtyRanges) (new : bytes) : Prop :=
  zlen new = len ∧ ∀ i, 0 ≤ i < len → dirty_at ov i = None →
    byte_at new i = Some (published cs start v (sc_boundaries s) (offset + i)).

Lemma publishes_zeros s v offset len ov :
  0 ≤ len → pb_chunk v = None → publishes s v offset len ov (zeros len).
Proof.
  intros Hl Hc. split; [by apply zlen_zeros|]. intros i Hi _. rewrite byte_at_zeros.
  rewrite (proj2 (Z.leb_le 0 i)), (proj2 (Z.ltb_lt i len)) by lia. cbn.
  unfold published, stored, visible_records. rewrite Hc. by destruct (_ <? _).
Qed.
Lemma filled_publishes s v offset len n ov new :
  0 ≤ len → n = Z.max 0 (Z.min len (eof cs start v - offset)) →
  filled (λ p, source_byte v (visible (visible_records cs v (sc_boundaries s)) p)) offset offset (offset + n) ov (zeros len) new →
  publishes s v offset len ov new.
Proof.
  intros Hl -> [Hlen Hat]. rewrite zlen_zeros in Hlen by done. split; [done|]. intros i Hi Hd.
  destruct (Hat (offset + i) ltac:(lia)) as [Ha Hb]. replace (offset + i - offset) with i in * by lia.
  unfold published. destruct (Z.ltb_spec (offset + i) (eof cs start v)).
  - rewrite Hb by (done || lia). done.
  - rewrite Ha by lia. rewrite byte_at_zeros, (proj2 (Z.leb_le 0 i)), (proj2 (Z.ltb_lt i len)) by lia. done.
Qed.

Lemma overlay_all ov len new :
  ranges_ok ov → within len ov → zlen new = len →
  let out := foldl (λ m o, memcpy m o.1 o.2) new ov in
  zlen out = len ∧ ∀ i, 0 ≤ i → byte_at out i = over (dirty_at ov i) (byte_at new i).
Proof.
  intros Hov Hw <-. cbn zeta. destruct (foldl_memcpy_spec ov 0 new Hov) as [Hlen Hat].
  { intros x Hx. destruct Hov as [_ Hov]. rewrite Forall_forall in Hov. unfold within in Hw. rewrite Forall_forall in Hw.
    destruct (Hov x Hx). specialize (Hw x Hx). lia. }
  assert (∀ m, foldl (λ m o, memcpy m o.1 o.2) m ov = foldl (λ m r, memcpy m (r.1 - 0) r.2) m ov) as ->.
  { clear. induction ov as [|o ov IH]; intros m; cbn; [done|]. by rewrite Z.sub_0_r, IH. }
  split; [done|]. intros i Hi. specialize (Hat i Hi). by rewrite Z.sub_0_r in Hat.
Qed.

Lemma Read_spec s w offset len :
  ranges_ok (sc_dirty s) → published_ok cs (view w) (sc_boundaries s) → 0 ≤ offset → 0 ≤ len →
  wp (Read index cs offset len) (λ r st',
    if out_of_range offset len then r = Err InvalidArgument ∧ st' = (s, w)
    else quiet (s, w) st' ∧ match r with
      | Ok out => zlen out = len ∧ ∀ i, 0 ≤ i < len → byte_at out i = Some (contents cs start s (view w) (offset + i))
      | Err e => faults ∨ sc_boundary_error s = Some e
      end) (s, w).
Proof.
  intros Hd Hok Ho Hl. unfold Read. apply wp_bind. unfold out_of_range. apply wp_fail_if; intros Er; rewrite Er; [done|].
  apply orb_false_iff in Er as [Er1 Er2]. destruct (Z.eqb_spec len 0) as [->|Hne].
  { apply wp_ret. split; [reflexivity|]. split; [done|lia]. }
  apply wp_bind, wp_get. cbn [fst]. destruct (overlays_in_spec (sc_dirty s) offset len Hd Ho Hl) as (Hov & Hw & Hat).
  set (ov := overlays_in (sc_dirty s) offset len) in *.
  apply wp_bind. destruct (sc_boundary_error s) as [e|] eqn:Ebe; [apply wp_fail; split; [reflexivity|by right]|].
  apply wp_ret. apply wp_bind. eapply wp_query; [apply law_snapshot|done|]. intros r st1 Hq1 Hsnap.
  destruct r as [snap|e]; [|split; [done|by left]]. cbn in Hsnap. apply wp_bind.
  apply wp_mono with (Q := λ r st', quiet (s, w) st' ∧ match r with Ok new => publishes s (view w) offset len ov new | Err _ => faults end).
  { intros r st' [Hq Hr]. destruct r as [new|e]; [|split; [done|by left]]. apply wp_ret. split; [done|].
    destruct Hr as [Hlen Hpub].
    destruct (overlay_all ov len new Hov Hw Hlen) as [Hlen2 Hat2]. split; [done|]. intros i Hi. rewrite Hat2 by lia.
    specialize (Hpub i Hi). rewrite Hat in *. unfold contents. rewrite (proj2 (Z.leb_le 0 i)), (proj2 (Z.ltb_lt i len)) in * by lia. cbn [andb] in *.
    destruct (dirty_at (sc_dirty s) (offset + i)); [done|]. by apply Hpub. }
  pose proof Hsnap as [Hchunk _]. destruct (fcs_chunk_id snap) as [c|] eqn:Efc.
  2:{ apply wp_ret. split; [done|]. apply publishes_zeros; [done|]. by rewrite <- Hchunk. }
  apply wp_bind, wp_fail_if; intros Eu; [zlia|]. apply wp_bind.
  assert (settles (view w) (view st1.2)) as Hv1 by (by destruct Hq1 as (? & _ & _ & _ & ?)).
  eapply mapped_records_spec; [exact Hok|by rewrite <- Hchunk|exact Hv1|]. intros r st2 Hq2 Hr.
  destruct r as [recs|e]; [|split; [by etrans|done]]. apply wp_bind, wp_lift. rewrite Hstart.
  rewrite (size_at_eof_spec snap (view w)) by done.
  apply wp_bind, wp_lift. rewrite Hr. apply wp_bind, wp_lift.
  set (n := if offset <? eof cs start (view w) then Z.min len (eof cs start (view w) - offset) else 0).
  assert (n = Z.max 0 (Z.min len (eof cs start (view w) - offset))) as Hn.
  { unfold n. destruct (Z.ltb_spec offset (eof cs start (view w))); lia. }
  destruct (resolve_published (view w) (sc_boundaries s) offset n Hok Ho ltac:(lia) ltac:(zlia)) as (spans & -> & Ht & Hobj & Hsrc).
  eapply fetch_spans_spec; [|exact Ht|exact Hobj|exact Hov|exact Hsrc|lia|rewrite zlen_zeros; lia| |].
  - destruct Hq2 as (? & _ & _ & _ & ?). by etrans.
  - intros p Hp. rewrite byte_at_zeros, (proj2 (Z.leb_le 0 _)), (proj2 (Z.ltb_lt _ len)) by lia. done.
  - intros r st3 Hq3 Hr3. split; [do 2 (etrans; [done|]); done|]. destruct r as [new|]; [|done]. by eapply filled_publishes.
Qed.

(** ** Committed reads *)
Lemma copy_spans_spec v (f : Z → Z * Z) spans offset lo hi old st (Q : result bytes → @state W → Prop) :
  settles v (view st.2) → tiles lo hi spans → Forall (λ s, rs_id s ≠ 0 → object_holds v s) spans →
  (∀ s p, s ∈ spans → rs_pos s ≤ p < rs_pos s + rs_len s → span_source s p = f p) →
  offset ≤ lo → hi ≤ offset + zlen old → (∀ p, lo ≤ p < hi → byte_at old (p - offset) = Some Ascii.zero) →
  (∀ r st', quiet st st' → match r with Ok new => filled (λ p, source_byte v (f p)) offset lo hi [] old new | Err _ => faults end → Q r st') →
  wp (copy_spans cs spans offset old) Q st.
Proof.
  revert lo old st. induction spans as [|span spans IH]; intros lo old st Hv Ht Hobj Hsrc Hlo Hhi Hz HQ; cbn [copy_spans].
  { cbn in Ht. subst hi. apply wp_ret, HQ; [reflexivity|]. split; [done|]. intros p Hp. split; [done|lia]. }
  destruct Ht as (Epos & Hlen & Ht). apply Forall_cons in Hobj as [Hobj Hobjs].
  assert (lo + rs_len span ≤ hi) as Hle by (by eapply tiles_le).
  assert (∀ s p, s ∈ spans → rs_pos s ≤ p < rs_pos s + rs_len s → span_source s p = f p) as Hsrc' by (intros; apply Hsrc; [by right|done]).
  assert (∀ p, lo ≤ p < lo + rs_len span → span_source span p = f p) as Hsp by (intros; apply Hsrc; [by left|lia]).
  destruct (Z.eqb_spec (rs_id span) 0) as [Hid|Hid].
  { eapply (IH (lo + rs_len span)); try done; [lia|intros; apply Hz; lia|]. intros r st' Hq Hr. apply HQ; [done|].
    destruct r as [new|]; [|done]. destruct Hr as [Hl Hr]. split; [done|]. intros p Hp. destruct (Hr p Hp) as [Ha Hb].
    split; [intros; apply Ha; lia|]. intros Hin Hd. destruct (Z.lt_ge_cases p (lo + rs_len span)); [|apply Hb; [lia|done]].
    rewrite Ha, Hz by lia. rewrite <- Hsp by lia. unfold span_source. by rewrite Hid. }
  apply wp_bind. replace (rs_off span) with (rs_off span + (rs_pos span - rs_pos span)) by lia.
  eapply get_span; [exact Hv|by apply Hobj|lia|lia|lia|]. intros r st1 Hq Hr.
  destruct r as [ph|e]; [|by apply HQ]. destruct Hr as [Hl1 Hph].
  apply wp_bind, wp_fail_if; intros E; [by rewrite Hl1, Z.eqb_refl in E|].
  set (mid := memcpy old (rs_pos span - offset) ph).
  assert (zlen mid = zlen old) as Hlm by (apply zlen_memcpy; lia).
  assert (∀ p, byte_at mid (p - offset) = if (lo <=? p) && (p <? lo + rs_len span) then Some (source_byte v (f p)) else byte_at old (p - offset)) as Hmid.
  { intros p. unfold mid. rewrite byte_at_memcpy by lia. rewrite Hl1.
    destruct (Z.leb_spec lo p), (Z.ltb_spec p (lo + rs_len span)), (Z.leb_spec (rs_pos span - offset) (p - offset)),
      (Z.ltb_spec (p - offset) (rs_pos span - offset + rs_len span)); cbn; try done; try lia.
    replace (p - offset - (rs_pos span - offset)) with (p - rs_pos span) by lia. rewrite Hph by lia. unfold span_byte.
    rewrite Hsp by lia. do 3 f_equal. lia. }
  eapply (IH (lo + rs_len span)); try done; try lia.
  - destruct Hq as (? & _ & _ & _ & ?). by etrans.
  - intros p Hp. rewrite Hmid. destruct (Z.leb_spec lo p), (Z.ltb_spec p (lo + rs_len span)); cbn; try lia. apply Hz. lia.
  - intros r st2 Hq2 Hr. apply HQ; [by etrans|]. destruct r as [new|]; [|done]. destruct Hr as [Hl2 Hnew].
    split; [congruence|]. intros p Hp. destruct (Hnew p Hp) as [Na Nb]. rewrite Hmid in Na.
    destruct (Z.leb_spec lo p), (Z.ltb_spec p (lo + rs_len span)); cbn in Na;
      split; intros; try lia; try (apply Na; lia); try (apply Nb; [lia|done]).
Qed.

Lemma ReadCommittedRange_spec s w offset len :
  published_ok cs (view w) (sc_boundaries s) → 0 ≤ offset → 0 ≤ len → offset + len ≤ cs →
  wp (ReadCommittedRange index cs offset len) (λ r st', quiet (s, w) st' ∧ match r with
      | Ok out => publishes s (view w) offset len [] out
      | Err e => faults ∨ sc_boundary_error s = Some e
      end) (s, w).
Proof.
  intros Hok Ho Hl Hc. unfold ReadCommittedRange.
  apply wp_bind, wp_fail_if; intros E1; [apply orb_true_iff in E1 as []; zlia|].
  apply wp_bind, wp_fail_if; intros Eu; [zlia|]. destruct (Z.eqb_spec len 0) as [->|Hne].
  { apply wp_ret. split; [reflexivity|]. split; [done|lia]. }
  apply wp_bind, wp_get. cbn [fst]. apply wp_bind.
  destruct (sc_boundary_error s) as [e|] eqn:Ebe; [apply wp_fail; split; [reflexivity|by right]|]. apply wp_ret.
  apply wp_bind. eapply wp_query; [apply law_snapshot|done|]. intros r st1 Hq1 Hsnap.
  destruct r as [snap|e]; [|split; [done|by left]]. cbn in Hsnap. pose proof Hsnap as [Hchunk _].
  destruct (fcs_chunk_id snap) as [c|] eqn:Efc.
  2:{ apply wp_ret. split; [done|]. apply publishes_zeros; [done|]. by rewrite <- Hchunk. }
  assert (settles (view w) (view st1.2)) as Hv1 by (by destruct Hq1 as (? & _ & _ & _ & ?)). apply wp_bind.
  eapply mapped_records_spec; [exact Hok|by rewrite <- Hchunk|exact Hv1|]. intros r st2 Hq2 Hr.
  destruct r as [recs|e]; [|split; [by etrans|by left]]. apply wp_bind, wp_lift. rewrite Hstart.
  rewrite (size_at_eof_spec snap (view w)) by done. rewrite Z.geb_leb.
  destruct (Z.leb_spec (eof cs start (view w)) offset) as [He|He].
  { apply wp_ret. split; [by etrans|]. apply (filled_publishes s (view w) offset len 0); [done|lia|].
    split; [done|]. intros p Hp. split; [done|lia]. }
  apply wp_bind, wp_lift. rewrite Hr. apply wp_bind, wp_lift.
  set (n := Z.min len (eof cs start (view w) - offset)). assert (0 ≤ n ≤ len) as Hn by lia.
  destruct (resolve_published (view w) (sc_boundaries s) offset n Hok Ho) as (spans & -> & Ht & Hobj & Hsrc); [lia|lia|].
  eapply copy_spans_spec; [|exact Ht|exact Hobj|exact Hsrc|lia|rewrite zlen_zeros; lia| |].
  - destruct Hq2 as (? & _ & _ & _ & ?). by etrans.
  - intros p Hp. rewrite byte_at_zeros, (proj2 (Z.leb_le 0 _)), (proj2 (Z.ltb_lt _ len)) by lia. done.
  - intros r st3 Hq3 Hr3. split; [do 2 (etrans; [done|]); done|]. destruct r as [new|]; [|by left].
    eapply filled_publishes; [done| |exact Hr3]. lia.
Qed.

End Read.

(** C24: A read that lies in the chunk returns, byte for byte, the newest write the session has
    buffered or else the published contents: the newest record's object byte, clipped by every
    later sanitation and by the end of the file, zero elsewhere.  It linearizes at its start
    although other fibers write and the file grows while it runs, leaves the session as those
    writes leave it, and fails only when a backend call fails or a sanitation point could not
    be captured.  A read outside the chunk is refused without effect. *)
Theorem Read_serves {W : Type} `{BackendLaws W} (index cs start : Z) (s : SliceChunk) (w : W) (offset len : Z) :
  0 < cs ≤ UINT32_MAX → CalculateChunkStartOffset index cs = Ok start →
  session_ok cs s → published_ok cs (view w) (sc_boundaries s) → 0 ≤ offset → 0 ≤ len →
  let '(r, st') := Read index cs offset len (s, w) in
  if (offset >? cs) || (len >? cs - offset) then r = Err InvalidArgument ∧ st' = (s, w)
  else quiet cs (s, w) st' ∧ match r with
    | Ok out => zlen out = len ∧ ∀ i, 0 ≤ i < len → byte_at out i = Some (contents cs start s (view w) (offset + i))
    | Err e => faults ∨ sc_boundary_error s = Some e
    end.
Proof. intros Hcs Hst Hs Hp Ho Hl. apply Read_spec; try done. apply (bo_dirty _ _ _ (so_buffers _ _ Hs)). Qed.

Definition sample_memory : Memory :=
  mkMemory (Some 7) 5 [(7, [mkSliceRecord 0 3 6 0 6])] [(SliceObjectKey 3, lit "abcdef")] 4 8 [[(0, lit "ZZ")]] [] [].
Lemma sample_memory_ok : published_ok 64 (view sample_memory) [].
Proof.
  intros c [= <-]. exists [mkSliceRecord 0 3 6 0 6]. split; [done|]. split_and!; [done| |done].
  constructor; [|constructor]. split_and!; [apply (bool_decide_unpack _); by vm_compute|done|done|].
  intros _. by exists (lit "abcdef").
Qed.

Lemma Read_serves_witness :
  let s := (Write 64 2 (lit "XY") new_chunk).2 in
  session_ok 64 s ∧ published_ok 64 (view sample_memory) (sc_boundaries s) ∧
  let '(r, st') := Read 0 64 0 8 (s, sample_memory) in
  r = Ok (lit "abXYe" ++ [Ascii.zero; Ascii.zero; Ascii.zero]) ∧ dirty_at (sc_dirty st'.1) 1 = Some "Z"%char ∧ quiet 64 (s, sample_memory) st'.
Proof.
  cbn zeta. destruct (Write_spec 64 2 (lit "XY") new_chunk (new_chunk_ok 64) ltac:(lia)) as [_ (Hs & _)].
  split_and!; [exact Hs|apply sample_memory_ok|].
  pose proof (Read_serves 0 64 0 (Write 64 2 (lit "XY") new_chunk).2 sample_memory 0 8 ltac:(done) eq_refl Hs sample_memory_ok ltac:(done) ltac:(done)) as H.
  destruct (Read 0 64 0 8 ((Write 64 2 (lit "XY") new_chunk).2, sample_memory)) as [r st'] eqn:E. destruct H as [Hq _].
  split_and!; [trans ((r, st').1); [done|]; rewrite <- E; by vm_compute| |exact Hq].
  trans (dirty_at (sc_dirty (r, st').2.1) 1); [done|]. rewrite <- E. by vm_compute.
Defined.
