(* ===== verification/SliceInv.v ===== *)
(** * What ties a slice chunk session to its published state

    The invariant of a session over its backend ([flush_inv]), for the moment between two
    steps of a flush: the pending slices are split into those already published but not yet
    retired, those the flush still has to publish, and newer ones.  It says that the
    buffered bytes over the published ones are what a reader sees, that stale bytes past the
    end of the file are covered, and how far the publication of the oldest pending slice has
    got.  Each lemma is one step: writes of other fibers, growth of the file, and the
    effects of the backend calls of [SliceChunk::Flush]. *)

From S2P Require Import Prelude RedisKv Decimal StdMap ChunkGeometry InodeTypes SliceHistory DirtyRanges Records MetaEngine SliceChunk SliceLocal SlicePublished.

(** ** Writes of other fibers *)
(** What accepting a list of writes leaves true. *)
Record accepts (cs : Z) (ws : list (Z * bytes)) (s s' : SliceChunk) : Prop := {
  ac_session : session_ok cs s';
  ac_grown : grown s s';
  ac_dirty : ∀ k, dirty_at (sc_dirty s') k = written cs Some ws (dirty_at (sc_dirty s)) k;
  ac_pending : ∀ k c, pending_at s' k c → pending_at s k c ∨ is_Some (dirty_at (sc_dirty s') k);
}.

Lemma write_accepts_one cs s x :
  session_ok cs s → 0 ≤ x.1 → accepts cs [x] s (Write cs x.1 x.2 s).2.
Proof.
  intros Hs Hx. pose proof (Write_spec cs x.1 x.2 s Hs Hx) as HW. cbn zeta in HW.
  assert (∀ k, written cs Some [x] (dirty_at (sc_dirty s)) k =
          if fits cs x then overwritten x.1 x.2 (dirty_at (sc_dirty s)) k else dirty_at (sc_dirty s) k) as Hwr.
  { intros k. cbn. unfold write_over, overwritten. destruct (fits cs x); cbn [andb]; [|done].
    destruct (Z.leb_spec x.1 k), (Z.ltb_spec k (x.1 + zlen x.2)); cbn; try done.
    destruct (byte_at_inside x.2 (k - x.1)) as [c ->]; [lia|done]. }
  unfold fits in Hwr. destruct (_ || _).
  - rewrite HW. split; [done|reflexivity|intros k; by rewrite Hwr|by left].
  - destruct HW as [_ (H1 & H2 & H3 & H4 & H5)]. split; [done|done|intros k; by rewrite Hwr, H3|].
    intros k c [Hk|?]%H5; [right|by left]. rewrite H3. unfold overwritten.
    destruct (Z.leb_spec x.1 k), (Z.ltb_spec k (x.1 + zlen x.2)); cbn; try lia. apply byte_at_inside. lia.
Qed.

Lemma accept_writes_spec cs ws s :
  session_ok cs s → Forall (λ x, 0 ≤ x.1) ws → accepts cs ws s (accept_writes cs ws s).
Proof.
  intros Hs Hws. revert s Hs. induction Hws as [|x ws Hx _ IH]; intros s Hs.
  { split; [done|reflexivity|done|by left]. }
  destruct (write_accepts_one cs s x Hs Hx) as [H1 H2 H3 H4]. destruct (IH _ H1) as [I1 I2 I3 I4].
  change (accept_writes cs (x :: ws) s) with (accept_writes cs ws (Write cs x.1 x.2 s).2). split; [done|by etrans| |].
  - intros k. rewrite I3. change (written cs Some (x :: ws) (dirty_at (sc_dirty s)) k) with
      (written cs Some ws (written cs Some [x] (dirty_at (sc_dirty s))) k).
    by apply written_ext.
  - intros k c [[?|Hd]%H4|?]%I4; [by left| |by right]. right. rewrite I3. by apply written_Some.
Qed.

(** ** The invariant *)
Section Inv.
(** [F]: backend calls may fail. *)
Context (cs start : Z) (F : Prop).
Hypothesis Hcs : 0 < cs ≤ UINT32_MAX.

Definition slices (s : SliceChunk) (l : list nat) : list FrozenSlice := omap (slice_at s) l.

(** The record of a prepared slice. *)
Definition record_of (f : FrozenSlice) (id : Z) : SliceRecord :=
  mkSliceRecord (fs_pos f) id (zlen (fs_payload f)) 0 (fs_visible_len f).
(** No record of the attached chunk names the slice's object. *)
Definition id_free (v : Published) (id : Z) : Prop :=
  ∀ c l, pb_chunk v = Some c → pb_index v c = Some l → Forall (λ r, sr_id r ≠ id) l.
Definition unindexed (v : Published) (f : FrozenSlice) : Prop := ∀ id, fs_prepared_id f = Some id → id_free v id.
Definition untouched (f : FrozenSlice) : Prop :=
  fs_created_chunk_id f = None ∧ fs_recorded_chunk_id f = None ∧ fs_uncertain_record_chunk_id f = None.

(** A chunk allocated for the slice and not attached yet. *)
Definition boundary_free (b : list BoundaryClamp) (c : Z) : Prop :=
  match last b with Some x => bc_chunk_id x ≠ Some c | None => True end.
Definition private (v : Published) (b : list BoundaryClamp) (f : FrozenSlice) (c : Z) (l : option (list SliceRecord)) : Prop :=
  pb_chunk v = None ∧ fs_created_chunk_id f = Some c ∧ pb_index v c = l ∧ c < pb_next_chunk v ∧ boundary_free b c.
(** The slice is, or is not, in the index of [c]. *)
Definition recorded_at (v : Published) (b : list BoundaryClamp) (c : Z) (f : FrozenSlice) : Prop :=
  ∃ id, fs_prepared_id f = Some id ∧
  ((pb_chunk v = Some c ∧ ∀ k a, slice_byte f k = Some a → stored cs v b k = a) ∨
   private v b f c (Some [record_of f id])).
Definition unrecorded_at (v : Published) (b : list BoundaryClamp) (c : Z) (f : FrozenSlice) : Prop :=
  unindexed v f ∧ (pb_chunk v = Some c ∨ private v b f c None).

(** How far the oldest slice has got. *)
Definition head_ok (v : Published) (b : list BoundaryClamp) (f : FrozenSlice) : Prop :=
  match fs_recorded_chunk_id f, fs_uncertain_record_chunk_id f with
  | Some c, _ => recorded_at v b c f
  | None, Some c => F ∧ (recorded_at v b c f ∨ unrecorded_at v b c f)
  | None, None => unindexed v f ∧ match fs_created_chunk_id f with None => True | Some c => private v b f c None end
  end.

(** [C] is published and not retired, [R] is to be published, everything newer is untouched. *)
Record flush_inv (P : Published → list BoundaryClamp → FrozenSlice → Prop) (C R : list nat) (s : SliceChunk) (v : Published) : Prop := {
  fi_session : session_ok cs s;
  fi_published : published_ok cs v (sc_boundaries s);
  fi_next : 0 < pb_next_slice v ∧ 0 < pb_next_chunk v ∧ (∀ c, pb_next_chunk v ≤ c → pb_index v c = None ∧ boundary_free (sc_boundaries s) c);
  fi_frozen : ∃ N, sc_frozen s = C ++ R ++ N ∧ Forall (λ a, ∃ f, slice_at s a = Some f ∧ started f = false) N;
  fi_pending : ∀ k c, pending_at s k c → dirty_at (sc_dirty s) k = None → c = published cs start v (sc_boundaries s) k;
  fi_tail : ∀ k, eof cs start v ≤ k → stored cs v (sc_boundaries s) k = Ascii.zero ∨
    (is_Some (frozen_at (slices s (C ++ R)) k) ∧ is_Some (dirty_at (sc_dirty s) k));
  fi_landed : ∀ k c, frozen_at (slices s R) k = None → frozen_at (slices s C) k = Some c →
    stored cs v (sc_boundaries s) k = c ∧ k < eof cs start v;
  fi_prepared : ∀ a f id, a ∈ R → slice_at s a = Some f → fs_prepared_id f = Some id →
    0 < id < pb_next_slice v ∧ id ≤ INT64_MAX ∧ pb_object v (SliceObjectKey id) = Some (fs_payload f);
  fi_distinct : ∀ a a' f f' id, a ∈ R → a' ∈ R → slice_at s a = Some f → slice_at s a' = Some f' →
    fs_prepared_id f = Some id → fs_prepared_id f' = Some id → a = a';
  fi_head : ∀ a f, head R = Some a → slice_at s a = Some f → P v (sc_boundaries s) f;
  fi_rest : ∀ a f, a ∈ tail R → slice_at s a = Some f → untouched f ∧ unindexed v f;
}.

(** The bytes the flush has to make durable. *)
Definition durable (V : Z → ascii) (C R : list nat) (s : SliceChunk) (v : Published) : Prop :=
  ∀ k, default (published cs start v (sc_boundaries s) k) (frozen_at (slices s (C ++ R)) k) = V k.

Lemma head_elem (R : list nat) a : head R = Some a → a ∈ R.
Proof. destruct R; cbn; [done|]. intros [= ->]. by left. Qed.
Lemma tail_elem (R : list nat) a : a ∈ tail R → a ∈ R.
Proof. destruct R; cbn; [done|]. by right. Qed.

(** *** Writes of other fibers *)
Lemma slices_grown s s' l : grown s s' → Forall (λ a, is_Some (slice_at s a)) l → slices s' l = slices s l.
Proof.
  intros Hg Hl. induction Hl as [|a l [f Hf] _ IH]; [done|]. unfold slices in *. cbn.
  by rewrite (grown_lookup s s' a f Hg Hf), Hf, IH.
Qed.
Lemma frozen_valid P C R s v : flush_inv P C R s v → Forall (λ a, is_Some (slice_at s a)) (sc_frozen s).
Proof.
  intros H. pose proof (bo_frozen _ _ _ (so_buffers _ _ (fi_session _ _ _ _ _ H))) as Hf.
  eapply Forall_impl; [exact Hf|]. intros a (f & ? & _). by exists f.
Qed.
Lemma cand_valid P C R s v : flush_inv P C R s v → Forall (λ a, is_Some (slice_at s a)) (C ++ R).
Proof.
  intros H. pose proof (frozen_valid _ _ _ _ _ H) as Hf. destruct (fi_frozen _ _ _ _ _ H) as (N & E & _).
  rewrite E, app_assoc in Hf. by apply Forall_app in Hf as [? _].
Qed.

Lemma inv_accepts P C R s s' v ws : flush_inv P C R s v → accepts cs ws s s' → flush_inv P C R s' v.
Proof.
  intros Hinv [Hs' Hg Hd Hp]. pose proof Hg as [(fresh & Hheap & Hfresh) (new & Hfz & Hnd & Hnew) _ Hb _ _].
  pose proof (cand_valid _ _ _ _ _ Hinv) as Hval. pose proof Hval as [HvC HvR]%Forall_app.
  assert (∀ a f, a ∈ C ++ R → slice_at s' a = Some f → slice_at s a = Some f) as Hback.
  { intros a f Ha Hf. rewrite Forall_forall in Hval. destruct (Hval a Ha) as [g Hsa].
    rewrite (grown_lookup s s' a g Hg Hsa) in Hf. by simplify_eq. }
  assert (∀ k, is_Some (dirty_at (sc_dirty s) k) → is_Some (dirty_at (sc_dirty s') k)) as Hmono
    by (intros k Hk; rewrite Hd; by apply written_Some).
  destruct Hinv as [? Hpub ? (N & Efz & HN) Hpend Htail Hland Hprep Hdist Hhead Hrest].
  split; rewrite ?Hb, ?(slices_grown s s' (C ++ R)), ?(slices_grown s s' C), ?(slices_grown s s' R) by done; try done.
  - exists (N ++ new). rewrite Hfz, Efz, <- !app_assoc. split; [done|]. apply Forall_app. split.
    + eapply Forall_impl; [exact HN|]. intros a (f & Hf & ?). exists f. split; [by eapply grown_lookup|done].
    + eapply Forall_impl; [exact Hnew|]. intros a Ha. unfold slice_at. rewrite Hheap in *. rewrite lookup_app_r by lia.
      rewrite length_app in Ha. destruct (lookup_lt_is_Some_2 fresh (a - length (sc_heap s))) as [f Hf]; [lia|].
      exists f. split; [done|]. rewrite Forall_forall in Hfresh. by eapply Hfresh, list_elem_of_lookup_2.
  - intros k c [?|Hk]%Hp Hdk; [|by rewrite Hdk in Hk; destruct Hk]. apply Hpend; [done|].
    destruct (dirty_at (sc_dirty s) k) eqn:E; [|done]. destruct (Hmono k) as [x Hx]; [by rewrite E|congruence].
  - intros k [?|[? ?]]%Htail; [by left|right]. split; [done|by apply Hmono].
  - intros a f id Ha Hf. eapply Hprep; [done|]. apply Hback; [set_solver|done].
  - intros a a' f f' id Ha Ha' Hf Hf'. apply Hdist; try done; apply Hback; set_solver.
  - intros a f Ha Hf. eapply Hhead; [done|]. apply Hback; [|done]. apply head_elem in Ha. set_solver.
  - intros a f Ha Hf. eapply Hrest; [done|]. apply Hback; [|done]. apply tail_elem in Ha. set_solver.
Qed.
(** *** Growth of the file *)
Lemma published_grow P C R s v v' k :
  flush_inv P C R s v → (∀ k, stored cs v' (sc_boundaries s) k = stored cs v (sc_boundaries s) k) → pb_size v ≤ pb_size v' →
  dirty_at (sc_dirty s) k = None ∨ frozen_at (slices s (C ++ R)) k = None →
  published cs start v' (sc_boundaries s) k = published cs start v (sc_boundaries s) k.
Proof.
  intros Hinv Hst Hsz Hk. unfold published. rewrite Hst. pose proof (eof_mono cs start Hcs v v' Hsz).
  destruct (Z.ltb_spec k (eof cs start v)), (Z.ltb_spec k (eof cs start v')); try done; try lia.
  destruct (fi_tail _ _ _ _ _ Hinv k ltac:(lia)) as [->|[[c1 ?] [c2 ?]]]; [done|]. destruct Hk; congruence.
Qed.

(** What a predicate on the oldest slice may depend on. *)
Definition stable (P : Published → list BoundaryClamp → FrozenSlice → Prop) : Prop := ∀ v v' b f,
  pb_chunk v' = pb_chunk v → (∀ c, pb_index v' c = pb_index v c) → (∀ k, stored cs v' b k = stored cs v b k) →
  pb_next_chunk v ≤ pb_next_chunk v' → pb_size v ≤ pb_size v' → P v b f → P v' b f.
Lemma unindexed_stable : stable (λ v _, unindexed v).
Proof. intros v v' b f Hc Hi _ _ _ H id Hid c l. rewrite Hc, Hi. by apply H. Qed.
Lemma private_stable c l : stable (λ v b f, private v b f c l).
Proof. intros v v' b f Hc Hi _ Hn _ (? & ? & ? & ? & ?). split_and!; rewrite ?Hi; congruence || lia || done. Qed.
Lemma recorded_stable c : stable (λ v b, recorded_at v b c).
Proof.
  intros v v' b f Hc Hi Hs Hn Hz (id & ? & [[? Ha]|?]); exists id; (split; [done|]); [left; split; [congruence|]|right; by eapply private_stable].
  intros k a Hk. rewrite Hs. by apply Ha.
Qed.
Lemma unrecorded_stable c : stable (λ v b, unrecorded_at v b c).
Proof.
  intros v v' b f Hc Hi Hs Hn Hz [? [?|?]]; (split; [by eapply unindexed_stable|]); [left; congruence|right; by eapply private_stable].
Qed.
Lemma stable_and P Q : stable P → stable Q → stable (λ v b f, P v b f ∧ Q v b f).
Proof. intros HP HQ v v' b f ? ? ? ? ? [? ?]. split; [by eapply HP|by eapply HQ]. Qed.
Lemma stable_or P Q : stable P → stable Q → stable (λ v b f, P v b f ∨ Q v b f).
Proof. intros HP HQ v v' b f ? ? ? ? ? [?|?]; [left; by eapply HP|right; by eapply HQ]. Qed.
Lemma stable_slice (P : FrozenSlice → Prop) : stable (λ _ _, P).
Proof. by intros v v' b f. Qed.
Lemma chunk_stable c : stable (λ v _ _, pb_chunk v = c).
Proof. intros v v' b f Hc _ _ _ _ ?. congruence. Qed.
Lemma head_ok_stable : stable head_ok.
Proof.
  intros v v' b f Hc Hi Hs Hn Hz. unfold head_ok. destruct (fs_recorded_chunk_id f); [by apply recorded_stable|].
  destruct (fs_uncertain_record_chunk_id f).
  { intros [? [?|?]]; (split; [done|]); [left; by eapply recorded_stable|right; by eapply unrecorded_stable]. }
  intros [? Hcr]. split; [by eapply unindexed_stable|]. destruct (fs_created_chunk_id f); [by eapply private_stable|done].
Qed.

(** The objects the session and its published records name. *)
Definition objects_kept (R : list nat) (s : SliceChunk) (v v' : Published) : Prop :=
  (∀ c l r, pb_chunk v = Some c → pb_index v c = Some l → r ∈ l → sr_id r ≠ 0 →
     pb_object v' (SliceObjectKey (sr_id r)) = pb_object v (SliceObjectKey (sr_id r))) ∧
  (∀ a f id, a ∈ R → slice_at s a = Some f → fs_prepared_id f = Some id →
     pb_object v' (SliceObjectKey id) = pb_object v (SliceObjectKey id)).

Lemma inv_grow P C R s v v' :
  stable P → flush_inv P C R s v → pb_chunk v' = pb_chunk v → (∀ c, pb_index v' c = pb_index v c) → pb_size v ≤ pb_size v' →
  objects_kept R s v v' → pb_next_slice v ≤ pb_next_slice v' → pb_next_chunk v ≤ pb_next_chunk v' →
  flush_inv P C R s v' ∧ (∀ k, contents cs start s v' k = contents cs start s v k) ∧
  ∀ V, durable V C R s v → durable V C R s v'.
Proof.
  intros HP Hinv Hc Hi Hsz [Ho1 Ho2] Hn Hnc. set (b := sc_boundaries s). pose proof (fi_published _ _ _ _ _ Hinv) as Hpub.
  assert (∀ k, stored cs v' b k = stored cs v b k) as Hst.
  { apply stored_frame; [by apply visible_records_same|]. intros r Hr Hid.
    destruct (visible_records_ids cs Hcs v b r Hpub Hr) as (c & l & r0 & ? & ? & ? & E). rewrite <- E in *. by eapply Ho1. }
  pose proof (λ k, published_grow P C R s v v' k Hinv Hst Hsz) as Hpg. pose proof (eof_mono cs start Hcs v v' Hsz) as He.
  split_and!.
  - destruct Hinv as [? _ (Hn1 & Hn2 & Hn3) ? Hpend Htail Hland Hprep Hdist Hhead Hrest]. split; try done.
    + intros c. rewrite Hc. intros Ec. destruct (Hpub c Ec) as (l & Hl & Hne & Hall & Hb). exists l. rewrite Hi. split; [done|].
      split_and!; try done. apply Forall_forall. intros r Hr. rewrite Forall_forall in Hall.
      destruct (Hall r Hr) as (? & ? & ? & Hobj). split_and!; try done; [lia|]. intros Hid.
      rewrite (Ho1 c l r Ec Hl Hr Hid). by apply Hobj.
    + split_and!; [lia|lia|]. intros c Hcn. rewrite Hi. apply Hn3. lia.
    + intros k c Hk Hd. rewrite Hpg by (by left). by apply Hpend.
    + intros k Hk. fold b. rewrite Hst. apply Htail. lia.
    + intros k c HR HC. destruct (Hland k c HR HC). fold b. rewrite Hst. split; [done|lia].
    + intros a f id Ha Hf Hid. destruct (Hprep a f id Ha Hf Hid) as (? & ? & ?). split_and!; try lia. by rewrite (Ho2 a f id).
    + intros a f Ha Hf. eapply HP; [..|by eapply Hhead]; done.
    + intros a f Ha Hf. destruct (Hrest a f Ha Hf) as [? Hu]. split; [done|]. intros id Hid c l. rewrite Hc, Hi. by apply Hu.
  - intros k. unfold contents. destruct (dirty_at (sc_dirty s) k) eqn:Ed; [done|]. cbn. apply Hpg. by left.
  - intros V HV k. rewrite <- (HV k). destruct (frozen_at (slices s (C ++ R)) k) eqn:Ef; [done|]. cbn. apply Hpg. by right.
Qed.

Lemma inv_settles P C R s v v' :
  stable P → flush_inv P C R s v → settles v v' →
  flush_inv P C R s v' ∧ (∀ k, contents cs start s v' k = contents cs start s v k) ∧
  ∀ V, durable V C R s v → durable V C R s v'.
Proof.
  intros HP Hinv [Hc Hsz Hi Ho Hn Hnc]. apply inv_grow; try done. split.
  - intros c l r Ec Hl Hr Hid. destruct (fi_published _ _ _ _ _ Hinv c Ec) as (l' & Hl' & _ & Hall & _). simplify_eq.
    rewrite Forall_forall in Hall. destruct (Hall r Hr) as (_ & _ & _ & Hobj). destruct (Hobj Hid) as (o & E & _).
    rewrite E. by apply Ho.
  - intros a f id Ha Hf Hid. destruct (fi_prepared _ _ _ _ _ Hinv a f id Ha Hf Hid) as (_ & _ & E). rewrite E. by apply Ho.
Qed.

(** An upload under an identity nobody uses. *)
Definition id_unused (R : list nat) (s : SliceChunk) (v : Published) (id : Z) : Prop :=
  0 < id ∧ id_free v id ∧ ∀ a f, a ∈ R → slice_at s a = Some f → fs_prepared_id f ≠ Some id.
Lemma inv_stored_object P C R s v v' id o :
  stable P → flush_inv P C R s v → id_unused R s v id → stored_object (SliceObjectKey id) o v v' →
  flush_inv P C R s v' ∧ (∀ k, contents cs start s v' k = contents cs start s v k) ∧
  ∀ V, durable V C R s v → durable V C R s v'.
Proof.
  intros HP Hinv (Hid0 & Hfree & Huse) (Hc & Hsz & Hi & [Hn1 Hn2] & _ & Ho). apply inv_grow; [done|done|done|intros c; by rewrite Hi|lia| |lia|lia].
  - split.
    + intros c l r Ec Hl Hr Hid. destruct (fi_published _ _ _ _ _ Hinv c Ec) as (l' & Hl' & _ & Hall & _).
      assert (l' = l) as -> by congruence. apply Ho. intros E. rewrite Forall_forall in Hall.
      destruct (Hall r Hr) as ((_ & Hrange & _) & _). apply SliceObjectKey_inj in E; [|apply Hrange|lia].
      specialize (Hfree c l Ec Hl). rewrite Forall_forall in Hfree. by apply (Hfree r Hr).
    + intros a f id' Ha Hf Hid. apply Ho. intros E. destruct (fi_prepared _ _ _ _ _ Hinv a f id' Ha Hf Hid) as (? & _).
      apply SliceObjectKey_inj in E; [|lia|lia]. subst. by apply (Huse a f).
Qed.

(** *** Updates of a slice in place *)
Definition same_data (f g : FrozenSlice) : Prop :=
  fs_pos g = fs_pos f ∧ fs_payload g = fs_payload f ∧ fs_visible_len g = fs_visible_len f ∧ fs_eof_len g = fs_eof_len f.
Lemma same_data_byte f g k : same_data f g → slice_byte g k = slice_byte f k.
Proof. intros (E1 & E2 & E3 & _). unfold slice_byte. by rewrite E1, E2, E3. Qed.
Lemma same_data_ok f g : same_data f g → slice_ok cs f → slice_ok cs g.
Proof. intros (E1 & E2 & E3 & E4). unfold slice_ok. by rewrite E1, E2, E3, E4. Qed.

Lemma slices_cons s a l : slices s (a :: l) = match slice_at s a with Some f => f :: slices s l | None => slices s l end.
Proof. done. Qed.

Section Update.
Context (a : nat) (g : FrozenSlice → FrozenSlice) (s : SliceChunk) (f : FrozenSlice).
Hypothesis Ha : slice_at s a = Some f.
Hypothesis Hg : same_data f (g f).

Lemma update_at a' : slice_at (update_slice a g s) a' = if decide (a' = a) then Some (g f) else slice_at s a'.
Proof.
  unfold slice_at, update_slice in *. cbn. destruct (decide (a' = a)) as [->|Hne].
  - by rewrite list_lookup_alter_eq, Ha.
  - by rewrite list_lookup_alter_ne.
Qed.
Lemma update_slices l k : frozen_at (slices (update_slice a g s) l) k = frozen_at (slices s l) k.
Proof.
  induction l as [|a' l IH]; [done|]. rewrite !slices_cons, update_at.
  destruct (decide (a' = a)) as [->|]; [rewrite Ha|destruct (slice_at s a'); [|done]]; rewrite !frozen_at_cons, IH; [|done].
  by rewrite (same_data_byte f (g f)).
Qed.
Lemma update_pending k c : pending_at (update_slice a g s) k c → pending_at s k c.
Proof.
  intros [?|(f' & (a' & Hin & Hf')%list_elem_of_omap & Hk)]; [by left|]. rewrite update_at in Hf'. right.
  destruct (decide (a' = a)) as [->|]; [simplify_eq; exists f; rewrite <- (same_data_byte f (g f)) by done|exists f'];
    (split; [|done]); apply list_elem_of_omap; eauto.
Qed.
Lemma update_session : session_ok cs s → session_ok cs (update_slice a g s).
Proof.
  intros [[? ? ? ? ? ? ? Hfz] Hview]. split.
  - split; try done. eapply Forall_impl; [exact Hfz|]. intros a' (f' & Hf' & Hok). rewrite update_at.
    destruct (decide (a' = a)) as [->|]; [|eauto]. assert (f' = f) as -> by congruence. exists (g f). split; [done|]. by eapply same_data_ok.
  - intros k c Hk. rewrite <- (Hview k c Hk). unfold local_at, frozen_slices. f_equal. exact (update_slices (sc_frozen s) k).
Qed.

Lemma inv_update P P' C R v :
  flush_inv P C R s v → a ∈ R →
  (∀ id, fs_prepared_id (g f) = Some id → 0 < id < pb_next_slice v ∧ id ≤ INT64_MAX ∧
     pb_object v (SliceObjectKey id) = Some (fs_payload f) ∧
     ∀ a' f', a' ∈ R → a' ≠ a → slice_at s a' = Some f' → fs_prepared_id f' ≠ Some id) →
  (head R = Some a → P' v (sc_boundaries s) (g f)) → (head R ≠ Some a → ∀ f b, P v b f → P' v b f) →
  (a ∈ tail R → untouched (g f) ∧ unindexed v (g f)) →
  flush_inv P' C R (update_slice a g s) v ∧ (∀ k, contents cs start (update_slice a g s) v k = contents cs start s v k) ∧
  ∀ V, durable V C R s v → durable V C R (update_slice a g s) v.
Proof.
  intros Hinv HaR Hprep' Hhead' Hkeep Hrest'. split_and!; [|done|intros V HV k; by rewrite update_slices].
  pose proof (bo_nodup _ _ _ (so_buffers _ _ (fi_session _ _ _ _ _ Hinv))) as Hnd.
  destruct Hinv as [? Hpub ? (N & Efz & HN) Hpend Htail Hland Hprep Hdist Hhead Hrest].
  split; try done.
  - by apply update_session.
  - exists N. split; [done|]. rewrite Efz, app_assoc in Hnd. apply NoDup_app in Hnd as (_ & Hnd & _).
    apply Forall_forall. intros a' Ha'. rewrite Forall_forall in HN. destruct (HN a' Ha') as (f' & ? & ?). exists f'.
    rewrite update_at, decide_False; [done|]. intros ->. apply (Hnd a); set_solver.
  - intros k c Hk. apply Hpend. by apply update_pending.
  - intros k Hk. rewrite update_slices. by apply Htail.
  - intros k c. rewrite !update_slices. apply Hland.
  - intros a' f' id Hin. rewrite update_at. destruct (decide (a' = a)) as [->|]; [|by eapply Hprep].
    intros [= <-] Hid. destruct (Hprep' id Hid) as (? & ? & ? & _). destruct Hg as (_ & -> & _). done.
  - intros a1 a2 f1 f2 id H1 H2. rewrite !update_at.
    destruct (decide (a1 = a)) as [->|], (decide (a2 = a)) as [->|]; intros E1 E2 Hi1 Hi2; try done; [| |by eapply Hdist].
    + simplify_eq. destruct (Hprep' id Hi1) as (_ & _ & _ & Hne). by destruct (Hne a2 f2).
    + simplify_eq. destruct (Hprep' id Hi2) as (_ & _ & _ & Hne). by destruct (Hne a1 f1).
  - intros a' f' Hh. rewrite update_at. destruct (decide (a' = a)) as [->|]; [intros [= <-]; by apply Hhead'|].
    intros Hf'. apply Hkeep; [congruence|]. by eapply Hhead.
  - intros a' f' Ht. rewrite update_at. destruct (decide (a' = a)) as [->|]; [intros [= <-]; by apply Hrest'|by apply Hrest].
Qed.
End Update.

(** *** Publication of the oldest slice *)
Lemma cand_pending P C a R s v f k c :
  flush_inv P C (a :: R) s v → slice_at s a = Some f → slice_byte f k = Some c → pending_at s k c.
Proof.
  intros Hinv Ha Hk. right. exists f. split; [|done]. apply list_elem_of_omap. exists a. split; [|done].
  destruct (fi_frozen _ _ _ _ _ Hinv) as (N & -> & _). set_solver.
Qed.

(** A slice becomes visible in the records, and the file may grow. *)
Lemma inv_land P P' C a R s v v' f :
  let b := sc_boundaries s in
  flush_inv P C (a :: R) s v → slice_at s a = Some f →
  (∀ k, stored cs v' b k = default (stored cs v b k) (slice_byte f k)) →
  pb_size v ≤ pb_size v' → pb_object v' = pb_object v → same_next v v' → published_ok cs v' b →
  (∀ c, pb_next_chunk v ≤ c → pb_index v' c = None) →
  (∀ a' f', a' ∈ R → slice_at s a' = Some f' → unindexed v' f') → P' v' b f →
  flush_inv P' C (a :: R) s v' ∧ (∀ k, contents cs start s v' k = contents cs start s v k) ∧
  ∀ V, durable V C (a :: R) s v → durable V C (a :: R) s v'.
Proof.
  cbn zeta. intros Hinv Ha Hst Hsz Hobj [Hn1 Hn2] Hpub Hidx Hun HP. set (b := sc_boundaries s) in *.
  pose proof (λ k c, cand_pending P C a R s v f k c Hinv Ha) as Hpd. pose proof (eof_mono cs start Hcs v v' Hsz) as He.
  assert (∀ k c, slice_byte f k = Some c → is_Some (frozen_at (slices s (C ++ a :: R)) k)) as Hcand.
  { intros k c Hk. unfold slices. rewrite omap_app. cbn. rewrite Ha, frozen_at_app, frozen_at_cons, Hk.
    destruct (frozen_at _ k); by eexists. }
  assert (∀ k, dirty_at (sc_dirty s) k = None ∨ frozen_at (slices s (C ++ a :: R)) k = None →
            published cs start v' b k = published cs start v b k) as Hpg.
  { intros k Hk. destruct (slice_byte f k) as [c|] eqn:Ek.
    - destruct Hk as [Hk|Hk]; [|destruct (Hcand k c Ek); congruence].
      pose proof (fi_pending _ _ _ _ _ Hinv k c (Hpd k c Ek) Hk) as Hc. unfold published in *. fold b in Hc. rewrite Hst, Ek. cbn.
      destruct (Z.ltb_spec k (eof cs start v)), (Z.ltb_spec k (eof cs start v')); try done; try lia.
    - unfold published. rewrite Hst, Ek. cbn.
      destruct (Z.ltb_spec k (eof cs start v)), (Z.ltb_spec k (eof cs start v')); try done; try lia.
      destruct (fi_tail _ _ _ _ _ Hinv k ltac:(lia)) as [E|[[c1 ?] [c2 ?]]]; [by fold b in E|]. destruct Hk; congruence. }
  split_and!.
  - destruct Hinv as [Hs _ (Hp1 & Hp2 & Hp3) Hfz Hpend Htail Hland Hprep Hdist Hhead Hrest]. split; try done.
    + split_and!; [lia|lia|]. intros c Hc. split; [apply Hidx; lia|apply Hp3; lia].
    + intros k c Hk Hd. fold b. rewrite Hpg by (by left). by apply Hpend.
    + intros k Hk. fold b. rewrite Hst. destruct (slice_byte f k) as [c|] eqn:Ek; cbn; [|apply Htail; lia].
      destruct (dirty_at (sc_dirty s) k) eqn:Ed; [right; split; [by eapply Hcand|done]|left].
      pose proof (Hpend k c (Hpd k c Ek) Ed) as ->. unfold published. destruct (Z.ltb_spec k (eof cs start v)); [lia|done].
    + intros k c HR HC. rewrite slices_cons, Ha, frozen_at_cons in HR. destruct (Hland k c) as [? ?]; [by rewrite slices_cons, Ha, frozen_at_cons|done|].
      fold b. rewrite Hst. destruct (frozen_at (slices s R) k); [done|]. cbn in HR. rewrite HR. cbn. split; [done|lia].
    + intros a' f' id Ha' Hf' Hid. destruct (Hprep a' f' id Ha' Hf' Hid) as (? & ? & ?). rewrite Hobj, Hn1. done.
    + intros a' f' [= <-] Hf'. assert (f' = f) as -> by congruence. done.
    + intros a' f' Ha' Hf'. destruct (Hrest a' f' Ha' Hf') as [? _]. split; [done|]. by eapply Hun.
  - intros k. unfold contents. destruct (dirty_at (sc_dirty s) k) eqn:Ed; [done|]. cbn. apply Hpg. by left.
  - intros V HV k. rewrite <- (HV k). destruct (frozen_at (slices s (C ++ a :: R)) k) eqn:Ef; [done|]. cbn. apply Hpg. by right.
Qed.

Lemma slice_of_inv P C a R s v f : flush_inv P C R s v → a ∈ C ++ R → slice_at s a = Some f → slice_ok cs f.
Proof.
  intros Hinv Ha Hf. pose proof (bo_frozen _ _ _ (so_buffers _ _ (fi_session _ _ _ _ _ Hinv))) as Hfz.
  destruct (fi_frozen _ _ _ _ _ Hinv) as (N & E & _). rewrite E, app_assoc, Forall_app, Forall_forall in Hfz.
  destruct (proj1 Hfz a Ha) as (g & Hg & ?). by simplify_eq.
Qed.

Lemma record_of_ok f id v :
  slice_ok cs f → 0 < id < pb_next_slice v → id ≤ INT64_MAX → pb_object v (SliceObjectKey id) = Some (fs_payload f) →
  record_stored cs v (record_of f id).
Proof.
  intros (? & ? & ? & _) Hid Hmax Ho. unfold UINT32_MAX, INT64_MAX in *. split_and!; cbn.
  - unfold record_fields, in_range; cbn. lia.
  - unfold ValidateRecord; cbn. rewrite !wrap_id by (unfold in_range; lia).
    repeat match goal with |- context [?a =? ?b] => destruct (Z.eqb_spec a b); [lia|] end. rewrite !Z.gtb_ltb, Z.geb_leb.
    rewrite (proj2 (Z.leb_gt cs (fs_pos f))) by lia. cbn. unfold INT64_MAX.
    repeat match goal with |- context [?a <? ?b] => destruct (Z.ltb_spec a b); [lia|] end. done.
  - lia.
  - intros _. by exists (fs_payload f).
Qed.

Lemma record_of_byte f id v b k :
  slice_ok cs f → 0 < id → pb_object v (SliceObjectKey id) = Some (fs_payload f) →
  source_byte v (if covers k (record_of f id) then record_source (record_of f id) k else b) = default (source_byte v b) (slice_byte f k).
Proof.
  intros (? & ? & _) Hid Ho. unfold covers, slice_byte; cbn.
  destruct (Z.leb_spec (fs_pos f) k), (Z.ltb_spec k (fs_pos f + fs_visible_len f)); cbn; try done.
  unfold record_source, source_byte, record_of. cbn [sr_id sr_off sr_pos]. rewrite (proj2 (Z.eqb_neq id 0)) by lia.
  cbn [fst snd]. rewrite (proj2 (Z.eqb_neq id 0)), Ho, Z.add_0_l by lia. cbn [mbind option_bind]. by destruct (byte_at_inside (fs_payload f) (k - fs_pos f)) as [c ->]; [lia|].
Qed.

(** The fresh identity of the oldest slice differs from those of the newer ones. *)
Lemma rest_unindexed P C a R s v v' f id c l :
  flush_inv P C (a :: R) s v → slice_at s a = Some f → fs_prepared_id f = Some id →
  (pb_chunk v = Some c ∧ pb_index v c = Some l ∨ l = []) → pb_chunk v' = Some c → pb_index v' c = Some (l ++ [record_of f id]) →
  ∀ a' f', a' ∈ R → slice_at s a' = Some f' → unindexed v' f'.
Proof.
  intros Hinv Ha Hid Hl Hc' Hi' a' f' Ha' Hf' id' Hid' c0 l0 Ec El. rewrite Hc' in Ec. injection Ec as <-. rewrite Hi' in El. injection El as <-.
  apply Forall_app. split.
  - destruct Hl as [[Hc Hi]| ->]; [|constructor]. destruct (fi_rest _ _ _ _ _ Hinv a' f' Ha' Hf') as [_ Hu]. by apply (Hu id' Hid' c l).
  - constructor; [|constructor]. cbn. intros <-.
    assert (a = a') as <- by (eapply (fi_distinct _ _ _ _ _ Hinv a a' f f' id); done || set_solver).
    pose proof (bo_nodup _ _ _ (so_buffers _ _ (fi_session _ _ _ _ _ Hinv))) as Hnd.
    destruct (fi_frozen _ _ _ _ _ Hinv) as (N & E & _). rewrite E in Hnd. apply NoDup_app in Hnd as (_ & _ & Hnd). cbn in Hnd.
    apply NoDup_cons in Hnd as [Hnd _]. apply Hnd. set_solver.
Qed.

Lemma inv_append P C a R s v v' f id c l :
  flush_inv P C (a :: R) s v → slice_at s a = Some f → fs_prepared_id f = Some id →
  pb_chunk v = Some c → pb_index v c = Some l → indexed c (l ++ [record_of f id]) v v' →
  flush_inv (λ v b f, recorded_at v b c f ∧ pb_chunk v = Some c) C (a :: R) s v' ∧
  (∀ k, contents cs start s v' k = contents cs start s v k) ∧ ∀ V, durable V C (a :: R) s v → durable V C (a :: R) s v'.
Proof.
  intros Hinv Ha Hid Hc Hl (Hc' & Hsz & Hobj & Hn & Hi & Hio). set (b := sc_boundaries s).
  pose proof (slice_of_inv _ C a (a :: R) s v f Hinv ltac:(set_solver) Ha) as Hfok.
  destruct (fi_prepared _ _ _ _ _ Hinv a f id ltac:(set_solver) Ha Hid) as (Hid1 & Hid2 & Ho).
  destruct (fi_published _ _ _ _ _ Hinv c Hc) as (l0 & Hl0 & Hne & Hall & Hfit). assert (l0 = l) as -> by congruence.
  destruct (sanitized_Ok cs Hcs v b c l (conj Hne (conj Hall Hfit))) as (san & Hsan & _).
  pose proof (record_of_ok f id v Hfok Hid1 Hid2 Ho) as Hrec.
  assert (∀ r, record_stored cs v r → record_stored cs v' r) as Hmono.
  { intros r. apply record_stored_mono; [by rewrite Hobj|destruct Hn; lia]. }
  assert (∀ k, stored cs v' b k = default (stored cs v b k) (slice_byte f k)) as Hst.
  { intros k. unfold stored, visible_records. rewrite Hc', Hc, Hi, Hl, Hsan.
    rewrite (sanitized_snoc cs Hcs b c l san (record_of f id)); [|done|apply Hrec|apply Hrec|done].
    rewrite visible_snoc, (record_of_byte f id v') by (done || lia || by rewrite Hobj). f_equal.
    unfold source_byte. by rewrite Hobj. }
  apply (inv_land P _ C a R s v v' f); try done; [lia| | |eapply (rest_unindexed P C a R s v v' f id c l); try done; [by left|congruence]|].
  - intros c0 Ec. assert (c0 = c) as -> by congruence. exists (l ++ [record_of f id]). split; [done|]. split_and!.
    + by destruct l.
    + apply Forall_app. split; [by eapply Forall_impl; [exact Hall|]|]. constructor; [by apply Hmono|constructor].
    + unfold boundaries_fit in *. destruct (last _); [|done]. intros E. specialize (Hfit E). rewrite zlen_app. pose proof (zlen_nonneg [record_of f id]). lia.
  - intros c0 Hc0. destruct (decide (c0 = c)) as [->|]; [|rewrite Hio by done; apply (fi_next _ _ _ _ _ Hinv); done].
    destruct (fi_next _ _ _ _ _ Hinv) as (_ & _ & Hno). destruct (Hno c Hc0). congruence.
  - split; [|congruence]. exists id. split; [done|]. left. split; [congruence|]. intros k x Hk. by rewrite Hst, Hk.
Qed.

Lemma inv_create P C a R s v v' f id c :
  flush_inv P C (a :: R) s v → slice_at s a = Some f → fs_prepared_id f = Some id →
  private v (sc_boundaries s) f c None → indexed c [record_of f id] v v' →
  flush_inv (λ v b f, recorded_at v b c f ∧ pb_chunk v = None) C (a :: R) s v' ∧
  (∀ k, contents cs start s v' k = contents cs start s v k) ∧ ∀ V, durable V C (a :: R) s v → durable V C (a :: R) s v'.
Proof.
  intros Hinv Ha Hid (Hc & Hcr & Hic & Hcn & Hbf) (Hc' & Hsz & Hobj & [Hn1 Hn2] & Hi & Hio). set (b := sc_boundaries s).
  assert (pb_chunk v' = None) as Hc0 by congruence.
  assert (∀ k, stored cs v' b k = stored cs v b k) as Hst by (intros k; unfold stored, visible_records; by rewrite Hc0, Hc).
  assert (∀ k, published cs start v' b k = published cs start v b k) as Hpb.
  { intros k. unfold published, eof. by rewrite Hst, Hsz. }
  split_and!.
  - destruct Hinv as [Hs Hpub (Hp1 & Hp2 & Hp3) Hfz Hpend Htail Hland Hprep Hdist Hhead Hrest]. unfold eof in *. split; unfold eof in *; rewrite ?Hsz; try done.
    + intros c0 E. congruence.
    + split_and!; [lia|lia|]. intros c0 H0. rewrite Hn2 in H0. rewrite Hio by lia. by apply Hp3.
    + intros k x. fold b. rewrite Hpb. apply Hpend.
    + intros k. fold b. rewrite Hst. apply Htail.
    + intros k x. fold b. rewrite Hst. apply Hland.
    + intros a' f' id'. rewrite Hobj, Hn1. apply Hprep.
    + intros a' f' [= <-] Hf'. assert (f' = f) as -> by congruence. split; [|done]. exists id. split; [done|]. right.
      split_and!; try done; lia.
    + intros a' f' Ha' Hf'. destruct (Hrest a' f' Ha' Hf') as [? _]. split; [done|]. intros id' _ c0 l E. congruence.
  - intros k. unfold contents. fold b. by rewrite Hpb.
  - intros V HV k. rewrite <- (HV k). fold b. by rewrite Hpb.
Qed.

(** The file size that covers a slice. *)
Definition slice_end (f : FrozenSlice) : Z := start + fs_pos f + fs_visible_len f.
Definition covered_by (v : Published) (f : FrozenSlice) : Prop := fs_pos f + fs_visible_len f ≤ eof cs start v.
Lemma size_covers f v : slice_ok cs f → slice_end f ≤ pb_size v → covered_by v f.
Proof. intros (? & ? & ? & _) Hsz. unfold covered_by, eof, slice_end in *. rewrite (proj2 (Z.gtb_lt _ _)) by lia. lia. Qed.

Definition committed (c : Z) (v : Published) (b : list BoundaryClamp) (f : FrozenSlice) : Prop :=
  recorded_at v b c f ∧ pb_chunk v = Some c ∧ covered_by v f.

Lemma committed_stable c : stable (committed c).
Proof.
  intros v v' b f Hc Hi Hs Hn Hz (Hr & ? & Hcov). split_and!; [by eapply recorded_stable|congruence|].
  unfold covered_by in *. pose proof (eof_mono cs start Hcs v v' Hz). lia.
Qed.

Lemma inv_attach C a R s v v' f c :
  flush_inv (λ v b f, recorded_at v b c f ∧ pb_chunk v = None) C (a :: R) s v → slice_at s a = Some f →
  attached c (slice_end f) v v' →
  flush_inv (committed c) C (a :: R) s v' ∧
  (∀ k, contents cs start s v' k = contents cs start s v k) ∧ ∀ V, durable V C (a :: R) s v → durable V C (a :: R) s v'.
Proof.
  intros Hinv Ha (Hc & Hc' & Hsz & Hi & Hobj & Hn). set (b := sc_boundaries s).
  pose proof (slice_of_inv _ C a (a :: R) s v f Hinv ltac:(set_solver) Ha) as Hfok.
  destruct (fi_head _ _ _ _ _ Hinv a f eq_refl Ha) as [(id & Hid & [[? _]|(_ & Hcr & Hidx & Hcn & Hbf)]) _]; [congruence|].
  destruct (fi_prepared _ _ _ _ _ Hinv a f id ltac:(set_solver) Ha Hid) as (Hid1 & Hid2 & Ho).
  pose proof (record_of_ok f id v Hfok Hid1 Hid2 Ho) as Hrec.
  assert (∀ k, stored cs v' b k = default (stored cs v b k) (slice_byte f k)) as Hst.
  { intros k. unfold stored, visible_records. rewrite Hc', Hc, Hi, Hidx.
    assert (sanitized_records cs b c [record_of f id] = Ok [record_of f id]) as ->.
    { unfold sanitized_records, boundary_free in *. fold b in Hbf. destruct (last b); [|done]. by rewrite bool_decide_eq_false_2. }
    change [record_of f id] with ([] ++ [record_of f id]). rewrite visible_snoc.
    by rewrite (record_of_byte f id v') by (done || lia || by rewrite Hobj). }
  apply (inv_land _ _ C a R s v v' f Hinv Ha Hst); try done.
  - lia.
  - intros c0 Ec. assert (c0 = c) as -> by congruence. exists [record_of f id]. rewrite Hi. split; [done|]. split_and!; [done| |].
    + constructor; [|constructor]. apply (record_stored_mono cs v v'); [by rewrite Hobj|destruct Hn; lia|done].
    + unfold boundaries_fit, boundary_free in *. destruct (last _); [|done]. intros E. congruence.
  - intros c0 H0. rewrite Hi. by apply (fi_next _ _ _ _ _ Hinv).
  - eapply (rest_unindexed _ C a R s v v' f id c []); try done; [by right|by rewrite Hi].
  - split_and!; [|done|apply size_covers; [done|lia]]. exists id. split; [done|]. left. split; [done|]. intros k x Hk. fold b. by rewrite Hst, Hk.
Qed.

Lemma inv_finalize C a R s v v' f c :
  flush_inv (λ v b f, recorded_at v b c f ∧ pb_chunk v = Some c) C (a :: R) s v → slice_at s a = Some f →
  finalized c (slice_end f) v v' →
  flush_inv (committed c) C (a :: R) s v' ∧
  (∀ k, contents cs start s v' k = contents cs start s v k) ∧ ∀ V, durable V C (a :: R) s v → durable V C (a :: R) s v'.
Proof.
  intros Hinv Ha (Hc & Hc' & Hsz & Hi & Hobj & Hn). set (b := sc_boundaries s).
  pose proof (slice_of_inv _ C a (a :: R) s v f Hinv ltac:(set_solver) Ha) as Hfok.
  destruct (fi_head _ _ _ _ _ Hinv a f eq_refl Ha) as [(id & Hid & [[_ Hat]|(? & _)]) _]; [|congruence].
  assert (∀ k, stored cs v' b k = stored cs v b k) as Hsame.
  { apply stored_frame; [apply visible_records_same; [congruence|intros; by rewrite Hi]|by rewrite Hobj]. }
  apply (inv_land _ _ C a R s v v' f Hinv Ha); try done.
  - intros k. fold b. rewrite Hsame. destruct (slice_byte f k) eqn:E; [|done]. cbn. by apply Hat.
  - lia.
  - eapply (published_ok_mono cs v); [congruence|intros; by rewrite Hi|by rewrite Hobj|destruct Hn; lia|apply (fi_published _ _ _ _ _ Hinv)].
  - intros c0 H0. rewrite Hi. by apply (fi_next _ _ _ _ _ Hinv).
  - intros a' f' Ha' Hf'. destruct (fi_rest _ _ _ _ _ Hinv a' f' Ha' Hf') as [_ Hu]. intros id' Hid' c0 l E. rewrite Hi. apply (Hu id' Hid'). congruence.
  - split_and!; [|done|apply size_covers; [done|lia]]. exists id. split; [done|]. left. split; [done|]. intros k x Hk. fold b. rewrite Hsame. by apply Hat.
Qed.

(** *** Retirement *)
Lemma inv_commit C a R s v f c :
  flush_inv (committed c) C (a :: R) s v → slice_at s a = Some f →
  flush_inv head_ok (C ++ [a]) R s v ∧ ∀ V, durable V C (a :: R) s v → durable V (C ++ [a]) R s v.
Proof.
  intros Hinv Ha. destruct (fi_head _ _ _ _ _ Hinv a f eq_refl Ha) as ((id & Hid & [[_ Hat]|(? & _)]) & Hc & Hcov); [|congruence].
  assert ((C ++ [a]) ++ R = C ++ a :: R) as Eapp by (by rewrite <- app_assoc).
  split; [|intros V HV k; rewrite Eapp; apply HV].
  destruct Hinv as [Hs Hpub Hn (N & Efz & HN) Hpend Htail Hland Hprep Hdist Hhead Hrest]. split; try done.
  - exists N. split; [|done]. by rewrite Efz, <- app_assoc.
  - intros k. rewrite Eapp. apply Htail.
  - intros k x HR. unfold slices. rewrite omap_app. cbn. rewrite Ha, frozen_at_app. unfold frozen_at at 1. cbn. rewrite over_None.
    destruct (slice_byte f k) as [y|] eqn:Ek; cbn.
    + intros [= <-]. split; [by apply Hat|]. apply slice_byte_Some in Ek as [? _]. unfold covered_by in Hcov. lia.
    + intros HC. apply Hland; [|done]. rewrite slices_cons, Ha, frozen_at_cons, HR. done.
  - intros a' f' id' Ha'. apply Hprep. by right.
  - intros a1 a2 f1 f2 id' H1 H2. apply Hdist; by right.
  - intros a' f' Hh Hf'. destruct (Hrest a' f' (head_elem _ _ Hh) Hf') as [(E1 & E2 & E3) Hu].
    unfold head_ok. by rewrite E1, E2, E3.
  - intros a' f' Ha'. apply Hrest. by apply tail_elem.
Qed.

Lemma pending_local s k c : pending_at s k c → is_Some (local_at s k).
Proof.
  unfold local_at. intros [->|(f & Hf & Hk)]; [by eexists|]. destruct (dirty_at (sc_active s) k); [by eexists|]. cbn.
  apply list_elem_of_split in Hf as (l & r & ->). rewrite frozen_at_app, frozen_at_cons, Hk. by destruct (frozen_at r k).
Qed.

Lemma filter_committed (C R N : list nat) :
  NoDup (C ++ R ++ N) → List.filter (λ a, negb (bool_decide (a ∈ C))) (C ++ R ++ N) = R ++ N.
Proof.
  intros Hnd. apply NoDup_app in Hnd as (_ & Hdis & _). rewrite List.filter_app.
  assert (List.filter (λ a, negb (bool_decide (a ∈ C))) C = []) as ->.
  { clear. assert (∀ l, (∀ a, a ∈ l → a ∈ C) → List.filter (λ a, negb (bool_decide (a ∈ C))) l = []) as H; [|by apply H].
    induction l as [|a l IH]; intros Hl; cbn; [done|]. rewrite bool_decide_eq_true_2 by (apply Hl; by left). cbn. apply IH. intros; apply Hl; by right. }
  cbn. assert (∀ l, (∀ a, a ∈ l → a ∉ C) → List.filter (λ a, negb (bool_decide (a ∈ C))) l = l) as H.
  { induction l as [|a l IH]; intros Hl; cbn; [done|]. rewrite bool_decide_eq_false_2 by (apply Hl; by left). cbn. f_equal. apply IH. intros; apply Hl; by right. }
  apply H. intros a Ha Hc. by apply (Hdis a Hc).
Qed.

Lemma inv_retire P C R s v :
  flush_inv P C R s v →
  let s' := retire_committed C s in
  flush_inv P [] R s' v ∧ (∀ k, contents cs start s' v k = contents cs start s v k) ∧
  (∀ V, durable V C R s v → durable V [] R s' v).
Proof.
  intros Hinv. cbn zeta. destruct C as [|a0 C0]; [done|]. set (C := a0 :: C0) in *.
  pose proof (so_buffers _ _ (fi_session _ _ _ _ _ Hinv)) as Hbuf. destruct (fi_frozen _ _ _ _ _ Hinv) as (N & Efz & HN).
  set (s1 := set_frozen (sc_heap s) (R ++ N) s).
  assert (retire_committed C s = RebuildDirtyLocked s1) as ->.
  { unfold retire_committed, C, s1. fold C. rewrite Efz, (filter_committed C R N); [done|]. rewrite <- Efz. apply Hbuf. }
  assert (buffers_ok cs (kMaxActiveSliceBytes - 1) s1) as Hbuf1.
  { destruct Hbuf as [? ? ? ? ? ? Hnd Hfz]. rewrite Efz in Hnd, Hfz. split; try done; cbn; [by apply NoDup_app in Hnd as (_ & _ & ?)|].
    by apply Forall_app in Hfz as [_ ?]. }
  destruct (RebuildDirtyLocked_spec cs _ s1 Hbuf1) as (Hbuf2 & Hd & Hl).
  assert (∀ k, local_at s k = over (local_at s1 k) (frozen_at (slices s C) k)) as Hloc.
  { intros k. unfold local_at, frozen_slices. rewrite Efz.
    change (sc_frozen s1) with (R ++ N). change (sc_active s1) with (sc_active s). change (slice_at s1) with (slice_at s).
    rewrite (omap_app _ C), frozen_at_app. by rewrite over_assoc. }
  assert (∀ k c, pending_at (RebuildDirtyLocked s1) k c → pending_at s k c) as Hpd.
  { intros k c [?|(f & (a & Ha & Hf)%list_elem_of_omap & Hk)]; [by left|right]. exists f. split; [|done].
    apply list_elem_of_omap. exists a. split; [|done]. rewrite Efz. cbn in Ha. set_solver. }
  assert (∀ k, local_at s1 k = None → frozen_at (slices s R) k = None) as HR.
  { intros k. unfold local_at, frozen_slices. change (sc_frozen s1) with (R ++ N). rewrite omap_app, frozen_at_app.
    destruct (dirty_at (sc_active s1) k); [done|]. cbn [over]. destruct (frozen_at (omap (slice_at s1) N) k); done. }
  split_and!.
  - destruct Hinv as [Hs Hpub Hn _ Hpend Htail Hland Hprep Hdist Hhead Hrest]. split; try done.
    + split; [done|]. intros k c Hk. by rewrite Hl, <- Hd.
    + exists N. done.
    + intros k c Hk Hdk. rewrite Hd in Hdk. apply pending_local in Hk as [x Hx]. rewrite Hl in Hx. congruence.
    + intros k Hk. destruct (Htail k Hk) as [?|[[c Hc] _]]; [by left|right]. cbn [app].
      change (slices (RebuildDirtyLocked s1) R) with (slices s R). rewrite Hd.
      unfold slices in Hc. rewrite omap_app, frozen_at_app in Hc. fold (slices s R) (slices s C) in Hc.
      destruct (frozen_at (slices s R) k) as [x|] eqn:ER.
      * split; [done|]. destruct (local_at s1 k) eqn:EL; [done|]. rewrite (HR k EL) in ER. done.
      * destruct (Hland k c ER Hc). lia.
  - intros k. unfold contents. rewrite Hd. change (sc_boundaries (RebuildDirtyLocked s1)) with (sc_boundaries s).
    specialize (Hloc k). destruct (dirty_at (sc_dirty s) k) as [c|] eqn:Ed.
    + rewrite (so_view _ _ (fi_session _ _ _ _ _ Hinv) k c Ed) in Hloc. destruct (local_at s1 k) eqn:EL; cbn in *; [by simplify_eq|].
      destruct (fi_landed _ _ _ _ _ Hinv k c (HR k EL) (eq_sym Hloc)) as [Hs Hlt]. unfold published. by rewrite (proj2 (Z.ltb_lt _ _) Hlt).
    + destruct (local_at s1 k) as [c|] eqn:EL; [|done]. cbn. eapply (fi_pending _ _ _ _ _ Hinv); [|done]. apply Hpd.
      rewrite <- (Hl k) in EL. unfold local_at in EL. apply over_Some_inv in EL as [?|[_ EL]]; [by left|right]. by apply frozen_at_elem.
  - intros V HV k. rewrite <- (HV k). cbn [app]. change (slices (RebuildDirtyLocked s1) R) with (slices s R).
    change (sc_boundaries (RebuildDirtyLocked s1)) with (sc_boundaries s).
    unfold slices. rewrite omap_app, frozen_at_app. fold (slices s R) (slices s C).
    destruct (frozen_at (slices s R) k) as [x|] eqn:ER; [done|]. cbn [over]. destruct (frozen_at (slices s C) k) as [c|] eqn:EC; [|done]. cbn [default].
    destruct (fi_landed _ _ _ _ _ Hinv k c ER EC) as [<- Hlt]. unfold published. by rewrite (proj2 (Z.ltb_lt _ _) Hlt).
Qed.

End Inv.
