(* ===== verification/SliceFlush.v ===== *)
(** * Publishing a slice chunk

    [SliceChunk::PublishFrozen], the uploads and the publication loop of [SliceChunk::Flush]
    over any backend that keeps its promises: each step keeps the invariant of SliceInv.v,
    the contents a reader sees change only by the writes of other fibers, and a slice is
    retired only once the published state alone serves it. *)

From S2P Require Import Prelude RedisKv Decimal StdMap ChunkGeometry InodeTypes SliceHistory DirtyRanges Records MetaEngine SliceChunk SliceLocal SlicePublished SliceInv.

Section Publish.
Context {W : Type} `{BackendLaws W} (index cs start : Z).
Hypothesis Hcs : 0 < cs ≤ UINT32_MAX.
Hypothesis Hstart : CalculateChunkStartOffset index cs = Ok start.

Abbreviation inv := (flush_inv cs start).
Abbreviation hok := (head_ok cs faults).

(** What a reader sees changes only by the writes that arrive. *)
Definition tracks (st st' : @state W) : Prop :=
  ∃ ws, arrived st'.2 = arrived st.2 ++ ws ∧
  ∀ k, contents cs start st'.1 (view st'.2) k = written cs id ws (contents cs start st.1 (view st.2)) k.
#[export] Instance tracks_preorder : PreOrder tracks.
Proof.
  split; [intros st; exists []; by rewrite app_nil_r|].
  intros st1 st2 st3 (w1 & A1 & C1) (w2 & A2 & C2). exists (w1 ++ w2). rewrite A2, A1, app_assoc. split; [done|].
  intros k. rewrite C2. unfold written. rewrite foldl_app. by apply written_ext.
Qed.

(** Uploaded slices stay uploaded. *)
Definition prepared_at (s : SliceChunk) (a : nat) : Prop := ∃ f id, slice_at s a = Some f ∧ fs_prepared_id f = Some id.
Lemma prepared_update a g s a' f :
  slice_at s a = Some f → (∀ id, fs_prepared_id f = Some id → is_Some (fs_prepared_id (g f))) →
  prepared_at s a' → prepared_at (update_slice a g s) a'.
Proof.
  intros Hf Hg (f' & id & Hf' & Hid). unfold prepared_at. rewrite (update_at a g s f Hf). destruct (decide (a' = a)) as [->|]; [|eauto].
  assert (f' = f) as -> by congruence. destruct (Hg id Hid) as [id' ?]. eauto.
Qed.
Lemma prepared_grown s s' a : grown s s' → prepared_at s a → prepared_at s' a.
Proof. intros Hg (f & id & Hf & ?). exists f, id. split; [by eapply grown_lookup|done]. Qed.

(** The sanitation points of a session. *)
Definition points (s : SliceChunk) : option Status * list BoundaryClamp := (sc_boundary_error s, sc_boundaries s).
Lemma grown_points s s' : grown s s' → points s' = points s.
Proof. intros Hg. unfold points. by rewrite (gr_error _ _ Hg), (gr_boundaries _ _ Hg). Qed.
Definition aside (st st' : @state W) : Prop :=
  points st'.1 = points st.1 ∧ ∀ a, prepared_at st.1 a → prepared_at st'.1 a.

(** A moment of a flush that began in [st0] and has to make [V] durable. *)
Definition progress (P : Published → list BoundaryClamp → FrozenSlice → Prop) (C R : list nat) (V : Z → ascii) (st0 st : @state W) : Prop :=
  inv P C R st.1 (view st.2) ∧ durable cs start V C R st.1 (view st.2) ∧ tracks st0 st ∧ aside st0 st.

(** Why a flush may fail. *)
Definition excused (st : @state W) : Prop :=
  faults ∨ INT64_MAX < pb_next_slice (view st.2) ∨ INT64_MAX < pb_next_chunk (view st.2) ∨
  kMaxSupportedFileSize < start + cs ∨ is_Some (sc_boundary_error st.1).

(** A step that leaves the session alone. *)
Definition kept (P P' : Published → list BoundaryClamp → FrozenSlice → Prop) (C R : list nat) (s : SliceChunk) (v v' : Published) : Prop :=
  inv P' C R s v' ∧ (∀ k, contents cs start s v' k = contents cs start s v k) ∧
  ∀ V, durable cs start V C R s v → durable cs start V C R s v'.

Lemma wp_step {A : Type} (f : W → result A * W) pre E (P : Published → list BoundaryClamp → FrozenSlice → Prop)
    (P' : result A → Published → list BoundaryClamp → FrozenSlice → Prop) C R V st0 s w (Q : result A → @state W → Prop) :
  performs f pre E → progress P C R V st0 (s, w) → (∀ r, stable cs (P' r)) →
  (∀ r v, E r (view w) v → kept P (P' r) C R s (view w) v) →
  (∀ r s' w' v, progress (P' r) C R V st0 (s', w') → grown s s' →
     match r with Ok _ => True | Err _ => faults ∨ ¬ pre (view w) end → E r (view w) v → settles v (view w') → Q r (s', w')) →
  wp (call cs f) Q (s, w).
Proof.
  intros Hp (Hinv & Hdur & Htr & Hbe) Hst HE HQ. eapply wp_call; [exact Hp|]. intros r w' v Harr Hnn Hf Hv Hs.
  destruct (HE r v Hv) as (Hinv1 & Hc1 & Hd1).
  destruct (inv_settles cs start Hcs _ _ _ _ _ _ (Hst r) Hinv1 Hs) as (Hinv2 & Hc2 & Hd2).
  pose proof (accept_writes_spec cs (during w') s (fi_session _ _ _ _ _ _ _ Hinv2) Hnn) as Hacc.
  pose proof (ac_grown _ _ _ _ Hacc) as Hg. eapply HQ; [|done|done|done|done]. split_and!.
  - by eapply inv_accepts.
  - intros k. cbn. rewrite (slices_grown s _ (C ++ R) Hg) by (by eapply cand_valid). rewrite (gr_boundaries _ _ Hg). by apply Hd2, Hd1.
  - etrans; [exact Htr|]. exists (during w'). split; [done|]. intros k. cbn. unfold contents at 1.
    rewrite (ac_dirty _ _ _ _ Hacc), (gr_boundaries _ _ Hg), written_default. apply written_ext. intros k'. fold (contents cs start s (view w') k').
    by rewrite Hc2, Hc1.
  - destruct Hbe as [Hb Hpa]. split; cbn [fst] in *; [by rewrite (grown_points _ _ Hg)|]. intros a Ha. by eapply prepared_grown, Hpa.
Qed.

(** Queries. *)
Lemma wp_ask {A : Type} (f : W → result A * W) pre X P C R V st0 s w (Q : result A → @state W → Prop) :
  performs f pre (query X) → stable cs P → progress P C R V st0 (s, w) →
  (∀ r s' w', progress P C R V st0 (s', w') → grown s s' → settles (view w) (view w') →
     match r with Ok a => X a (view w) | Err _ => faults ∨ ¬ pre (view w) end → Q r (s', w')) →
  wp (call cs f) Q (s, w).
Proof.
  intros Hp HP Hpr HQ. eapply (wp_step f pre (query X) P (λ _, P)); [done|done|done| |].
  - intros r v [-> _]. destruct Hpr as (? & _). by split.
  - intros r s' w' v Hpr' Hg Hf [-> HX] Hs. apply HQ; try done. by destruct r.
Qed.

(** In-place updates of the oldest slice. *)
Lemma progress_update a g P P' C R V st0 s w f :
  progress P C (a :: R) V st0 (s, w) → slice_at s a = Some f → same_data f (g f) → fs_prepared_id (g f) = fs_prepared_id f →
  P' (view w) (sc_boundaries s) (g f) → progress P' C (a :: R) V st0 (update_slice a g s, w).
Proof.
  intros (Hinv & Hdur & Htr & Hbe) Ha Hsd Hpid HP'. cbn [fst snd] in *.
  destruct (inv_update cs start Hcs a g s f Ha Hsd P P' C (a :: R) (view w) Hinv) as (Hinv' & Hc & Hd); [set_solver| |done| | |].
  - intros id Hid. rewrite Hpid in Hid. destruct (fi_prepared _ _ _ _ _ _ _ Hinv a f id ltac:(set_solver) Ha Hid) as (? & ? & ?).
    split_and!; [lia|lia|done|done|]. intros a' f' Ha' Hne Hf' Hid'. apply Hne. symmetry.
    eapply (fi_distinct _ _ _ _ _ _ _ Hinv a a' f f' id); done || set_solver.
  - by intros [].
  - intros Hin. exfalso. pose proof (bo_nodup _ _ _ (so_buffers _ _ (fi_session _ _ _ _ _ _ _ Hinv))) as Hnd.
    destruct (fi_frozen _ _ _ _ _ _ _ Hinv) as (N & E & _). rewrite E in Hnd. apply NoDup_app in Hnd as (_ & _ & Hnd). cbn in Hnd, Hin.
    apply NoDup_cons in Hnd as [Hnd _]. apply Hnd. set_solver.
  - split_and!; [done|by apply Hd| |].
    + etrans; [exact Htr|]. exists []. split; [by rewrite app_nil_r|]. intros k. apply Hc.
    + destruct Hbe as [Hb Hpa]. split; [exact Hb|]. intros a' Ha'.
      eapply prepared_update; [exact Ha|intros id Hid; rewrite Hpid; by exists id|by apply Hpa].
Qed.
Lemma progress_weaken (P P' : Published → list BoundaryClamp → FrozenSlice → Prop) C R V st0 st :
  (∀ v b f, P v b f → P' v b f) → progress P C R V st0 st → progress P' C R V st0 st.
Proof. intros HPP ([] & ? & ? & ?). split_and!; try done. split; try done. eauto. Qed.

Lemma wp_slice_of a f (Q : result FrozenSlice → @state W → Prop) s w :
  slice_at s a = Some f → Q (Ok f) (s, w) → wp (slice_of a) Q (s, w).
Proof. intros Hf HQ. unfold slice_of. apply wp_bind, wp_get. cbn. by rewrite Hf. Qed.

(** ** Recording a slice *)
Lemma record_present_spec P C R V st0 s w c r (Q : result bool → @state W → Prop) :
  stable cs P → progress P C R V st0 (s, w) →
  (∀ res s' w', progress P C R V st0 (s', w') → grown s s' → settles (view w) (view w') →
     (res = Ok true → ∃ l x, pb_index (view w') c = Some l ∧ x ∈ l ∧ sr_id x = sr_id r) → Q res (s', w')) →
  wp (record_present cs c r) Q (s, w).
Proof.
  intros HP Hpr HQ. unfold record_present. apply wp_bind, wp_try. eapply wp_ask; [apply law_records|exact HP|exact Hpr|].
  intros res s' w' Hpr' Hg Hs Hres. destruct res as [l|e]; cbn.
  - apply wp_ret, HQ; try done. intros [= Hex]. apply existsb_exists in Hex as (x & Hin%list_elem_of_In & Hsame).
    exists l, x. rewrite (st_index _ _ Hs). split_and!; try done. unfold same_record in Hsame.
    repeat (apply andb_true_iff in Hsame as [Hsame ?]). zlia.
  - destruct e; (by apply wp_ret, HQ) || (by apply wp_fail, HQ).
Qed.

Definition chunk_is (attached : bool) (c : Z) : option Z := if attached then Some c else None.
(** The slice is known to be in the index of [c]. *)
Definition known (att : bool) (c : Z) (v : Published) (b : list BoundaryClamp) (f : FrozenSlice) : Prop :=
  (recorded_at cs v b c f ∧ pb_chunk v = chunk_is att c) ∧ fs_recorded_chunk_id f = Some c.
(** It may be. *)
Definition doubtful (att : bool) (c : Z) (v : Published) (b : list BoundaryClamp) (f : FrozenSlice) : Prop :=
  (recorded_at cs v b c f ∨ unrecorded_at v b c f) ∧ pb_chunk v = chunk_is att c.

Lemma known_stable att c : stable cs (known att c).
Proof. apply stable_and; [apply stable_and; [apply recorded_stable|apply chunk_stable]|apply (stable_slice cs (λ f, fs_recorded_chunk_id f = Some c))]. Qed.
Lemma doubtful_stable att c : stable cs (doubtful att c).
Proof. apply stable_and; [apply stable_or; [apply recorded_stable|apply unrecorded_stable]|apply chunk_stable]. Qed.
Lemma known_hok att c v b f : known att c v b f → hok v b f.
Proof. intros [[? _] E]. unfold head_ok. by rewrite E. Qed.

Lemma unrecorded_absent v b c f id l x :
  unrecorded_at v b c f → fs_prepared_id f = Some id → pb_index v c = Some l → x ∈ l → sr_id x = id → False.
Proof.
  intros [Hu [Hc|(_ & _ & Hi & _)]] Hid Hl Hx E; [|congruence]. specialize (Hu id Hid c l Hc Hl). rewrite Forall_forall in Hu.
  by apply (Hu x Hx).
Qed.

(** Marking the slice keeps what is recorded about it. *)
Lemma recorded_same_data v b c f g :
  same_data f g → fs_prepared_id g = fs_prepared_id f → fs_created_chunk_id g = fs_created_chunk_id f →
  recorded_at cs v b c f → recorded_at cs v b c g.
Proof.
  intros Hsd Hpid Hcr (id & Hid & [[Hc Hk]|(? & ? & ? & ? & ?)]); exists id; (split; [congruence|]).
  - left. split; [done|]. intros k a. rewrite (same_data_byte f g k Hsd). apply Hk.
  - right. destruct Hsd as (E1 & E2 & E3 & _). split_and!; try done; [congruence|]. unfold record_of in *. by rewrite E1, E2, E3.
Qed.
Lemma unrecorded_same_data v b c f g :
  fs_prepared_id g = fs_prepared_id f → fs_created_chunk_id g = fs_created_chunk_id f →
  unrecorded_at v b c f → unrecorded_at v b c g.
Proof.
  intros Hpid Hcr [Hu Hc]. split; [intros id; rewrite Hpid; apply Hu|]. destruct Hc as [?|(? & ? & ? & ? & ?)]; [by left|right].
  split_and!; try done. congruence.
Qed.

(** What [ensure_recorded] and the steps after it hand on. *)
Definition recorded_post (att : bool) (c : Z) (a : nat) (C R : list nat) (V : Z → ascii) (st0 : @state W) (f : FrozenSlice)
    (r : result unit) (st : @state W) : Prop :=
  match r with
  | Ok _ => progress (known att c) C (a :: R) V st0 st ∧
            ∃ f', slice_at st.1 a = Some f' ∧ same_data f f' ∧ fs_prepared_id f' = fs_prepared_id f
  | Err _ => progress hok C (a :: R) V st0 st ∧ faults
  end.

Lemma mark_recorded att c a C R V st0 s w f (P : Published → list BoundaryClamp → FrozenSlice → Prop) f0 :
  progress P C (a :: R) V st0 (s, w) → slice_at s a = Some f → same_data f0 f → fs_prepared_id f = fs_prepared_id f0 →
  recorded_at cs (view w) (sc_boundaries s) c f → pb_chunk (view w) = chunk_is att c →
  wp (modify_slice a (set_recorded c)) (recorded_post att c a C R V st0 f0) (s, w).
Proof.
  intros Hpr Hf Hsd Hpid Hr Hc. apply wp_modify. cbn [fst snd]. split.
  - eapply (progress_update a (set_recorded c)); [exact Hpr|exact Hf|done|done|]. split; [split; [|done]|done].
    by eapply recorded_same_data; [..|exact Hr].
  - exists (set_recorded c f). cbn [fst]. rewrite (update_at a (set_recorded c) s f Hf), decide_True by done.
    destruct Hsd as (? & ? & ? & ?). by split_and!.
Qed.

(** Reading the index back after an unknown outcome. *)
Lemma confirm_spec att c a C R V st0 s w f id :
  let P := λ v b f, doubtful att c v b f ∧ hok v b f in
  faults → progress P C (a :: R) V st0 (s, w) → slice_at s a = Some f → fs_prepared_id f = Some id →
  wp (r ← io_try (record_present cs c (record_of f id));
      match r with Ok true => modify_slice a (set_recorded c) | _ => io_fail OutcomeUnknown end)
     (recorded_post att c a C R V st0 f) (s, w).
Proof.
  cbn zeta. intros HF Hpr Hf Hid. apply wp_bind, wp_try. eapply record_present_spec; [|exact Hpr|].
  { apply stable_and; [apply doubtful_stable|by apply head_ok_stable]. }
  intros res s' w' Hpr' Hg Hs Hres. pose proof (grown_lookup _ _ a f Hg Hf) as Hf'.
  assert (progress hok C (a :: R) V st0 (s', w')) as Hh by (eapply progress_weaken; [|exact Hpr']; by intros v b g [_ ?]).
  destruct res as [[|]|]; try (apply wp_fail; by split).
  destruct (Hres eq_refl) as (l & x & Hl & Hx & Ex). pose proof Hpr' as (Hinv & _).
  destruct (fi_head _ _ _ _ _ _ _ Hinv a f eq_refl Hf') as [[Hd Hc] _]. eapply mark_recorded; [exact Hpr'|exact Hf'|done|done| |done].
  destruct Hd as [?|Hd]; [done|]. exfalso. by eapply unrecorded_absent.
Qed.

(** The append or creation a session decides on. *)
Definition record_into (att : bool) (c : Z) (r : SliceRecord) (v v' : Published) : Prop :=
  if att then ∃ l, pb_index v c = Some l ∧ indexed c (l ++ [r]) v v' else pb_index v c = None ∧ indexed c [r] v v'.
Definition record_in_order (att : bool) (c : Z) (v : Published) : Prop :=
  if att then is_Some (pb_index v c) else pb_index v c = None.
Lemma record_call_performs (att : bool) (c : Z) (r : SliceRecord) :
  performs (W := W) (if att then be_append c r else be_create_index c r) (record_in_order att c) (mutation (record_into att c r)).
Proof. destruct att; [apply law_append|apply law_create]. Qed.
Definition after_record (att : bool) (c : Z) (r : result unit) : Published → list BoundaryClamp → FrozenSlice → Prop :=
  match r with
  | Ok _ => λ v b f, recorded_at cs v b c f ∧ pb_chunk v = chunk_is att c
  | Err OutcomeUnknown => doubtful att c
  | Err _ => hok
  end.
Lemma after_record_stable att c r : stable cs (after_record att c r).
Proof.
  destruct r as [|[]]; try (by apply head_ok_stable); [|apply doubtful_stable].
  apply stable_and; [apply recorded_stable|apply chunk_stable].
Qed.

(** The slice may be recorded in [c]: it has not been recorded anywhere. *)
Definition recordable (att : bool) (c : Z) (s : SliceChunk) (v : Published) (f : FrozenSlice) : Prop :=
  unindexed v f ∧ pb_chunk v = chunk_is att c ∧ (att = false → private v (sc_boundaries s) f c None).

Lemma record_effect att c a C R s v f id r v' :
  inv hok C (a :: R) s v → slice_at s a = Some f → fs_prepared_id f = Some id → recordable att c s v f →
  mutation (record_into att c (record_of f id)) r v v' → kept hok (after_record att c r) C (a :: R) s v v'.
Proof.
  intros Hinv Hf Hid (Hu & Hc & Hp) Hm.
  assert (record_into att c (record_of f id) v v' → kept hok (after_record att c (Ok tt)) C (a :: R) s v v') as Heff.
  { unfold record_into, kept. cbn. destruct att; cbn in *.
    - intros (l & Hl & Hind). by eapply inv_append.
    - intros [_ Hind]. eapply inv_create; try done. by apply Hp. }
  destruct r as [[]|e]; [by apply Heff|]. destruct e; cbn in Hm; try (by subst v').
  destruct Hm as [->|Hm].
  - split_and!; try done. destruct Hinv. split; try done. intros a0 f0 [= <-] Hf0. assert (f0 = f) as -> by congruence.
    split; [right|done]. split; [done|]. destruct att; [by left|right; auto].
  - destruct (Heff Hm) as (Hi & ? & ?). split_and!; try done. destruct Hi. split; try done.
    intros a0 f0 Ha0 Hf0. destruct (fi_head a0 f0 Ha0 Hf0) as [? ?]. split; [by left|done].
Qed.

Lemma record_once_spec att c a C R V st0 s w f id :
  progress hok C (a :: R) V st0 (s, w) → slice_at s a = Some f → fs_prepared_id f = Some id → recordable att c s (view w) f →
  fs_recorded_chunk_id f = None →
  wp (r ← io_try (call cs (if att then be_append c (record_of f id) else be_create_index c (record_of f id)));
      match r with
      | Err OutcomeUnknown =>
          _ ← modify_slice a (set_uncertain c);
          confirmed ← io_try (record_present cs c (record_of f id));
          match confirmed with Ok true => modify_slice a (set_recorded c) | _ => io_fail OutcomeUnknown end
      | Err s => io_fail s
      | Ok _ => modify_slice a (set_recorded c)
      end) (recorded_post att c a C R V st0 f) (s, w).
Proof.
  intros Hpr Hf Hid Hrec Er. pose proof Hpr as (Hinv & _). cbn [fst snd] in Hinv. apply wp_bind, wp_try.
  assert (record_in_order att c (view w)) as Hpre.
  { destruct Hrec as (_ & Hc & Hp). unfold record_in_order. destruct att; [|by apply Hp].
    destruct (fi_published _ _ _ _ _ _ _ Hinv c Hc) as (l & ? & _). by exists l. }
  eapply wp_step; [apply record_call_performs|exact Hpr|apply after_record_stable|intros r v; by apply record_effect|].
  intros r s' w' v Hpr' Hg Hfault _ Hs. pose proof (grown_lookup _ _ a f Hg Hf) as Hf'. pose proof Hpr' as (Hinv' & _).
  pose proof (fi_head _ _ _ _ _ _ _ Hinv' a f eq_refl Hf') as Hh. destruct r as [[]|e].
  { destruct Hh. by eapply mark_recorded. }
  assert faults as HF by (by destruct Hfault). destruct e; try (apply wp_fail; by split).
  destruct Hh as [Hd Hc']. apply wp_bind, wp_modify. cbn [fst snd].
  apply (confirm_spec att c a C R V st0 _ w' (set_uncertain c f) id HF); [|by rewrite (update_at a _ s' f Hf'), decide_True|done].
  eapply (progress_update a (set_uncertain c)); [exact Hpr'|exact Hf'|done|done|].
  assert (recorded_at cs (view w') (sc_boundaries s') c (set_uncertain c f) ∨ unrecorded_at (view w') (sc_boundaries s') c (set_uncertain c f)) as Hd'.
  { destruct Hd as [Hd|Hd]; [left; by eapply recorded_same_data; [..|exact Hd]|right; by eapply unrecorded_same_data; [..|exact Hd]]. }
  split; [by split|]. unfold head_ok. cbn. rewrite Er. by split.
Qed.

Lemma inv_head P P' C a R s v f :
  inv P C (a :: R) s v → slice_at s a = Some f → P' v (sc_boundaries s) f → inv P' C (a :: R) s v.
Proof. intros [] Hf HP. split; try done. intros a0 f0 [= <-] Hf0. assert (f0 = f) as -> by congruence. done. Qed.

Lemma ensure_recorded_spec att c a C R V st0 s w f id :
  progress hok C (a :: R) V st0 (s, w) → slice_at s a = Some f → fs_prepared_id f = Some id →
  pb_chunk (view w) = chunk_is att c → (att = false → fs_created_chunk_id f = Some c) →
  wp (ensure_recorded cs a att c (record_of f id)) (recorded_post att c a C R V st0 f) (s, w).
Proof.
  intros Hpr Hf Hid Hc Hcr. pose proof Hpr as (Hinv & Hdur & Htr & Hbe). cbn [fst snd] in *.
  pose proof (fi_head _ _ _ _ _ _ _ Hinv a f eq_refl Hf) as Hh. unfold ensure_recorded. apply wp_bind. eapply wp_slice_of; [done|].
  assert (∀ c', pb_chunk (view w) = Some c' ∨ pb_chunk (view w) = None ∧ fs_created_chunk_id f = Some c' → c' = c) as Hsame.
  { intros c'. rewrite Hc. destruct att; cbn; [intros [E|[E _]]; congruence|]. intros [E|[_ E]]; [done|].
    rewrite Hcr in E by done. congruence. }
  assert (∀ c', recorded_at cs (view w) (sc_boundaries s) c' f ∨ unrecorded_at (view w) (sc_boundaries s) c' f → c' = c) as Hrc.
  { intros c' [(_ & _ & [[? _]|(? & ? & _)])|(_ & [?|(? & ? & _)])]; apply Hsame; auto. }
  unfold head_ok in Hh. destruct (fs_recorded_chunk_id f) as [c'|] eqn:Er.
  { assert (c' = c) as -> by auto. rewrite bool_decide_eq_true_2 by done. apply wp_ret. split; [|exists f; by split_and!].
    split_and!; try done. by eapply inv_head. }
  rewrite bool_decide_eq_false_2 by done. destruct (fs_uncertain_record_chunk_id f) as [c'|] eqn:Eu.
  { destruct Hh as [HF Hd]. assert (c' = c) as -> by auto. rewrite bool_decide_eq_true_2 by done.
    apply confirm_spec; try done. split_and!; try done. eapply inv_head; [done|done|]. split; [by split|]. unfold head_ok. by rewrite Er, Eu. }
  rewrite bool_decide_eq_false_2 by done. destruct Hh as [Hu Hcre]. apply record_once_spec; try done. split_and!; try done.
  intros Ea. by rewrite Hcr in Hcre.
Qed.

(** ** Attaching the chunk and extending the file *)
Lemma kept_same_objects P C R s v v' :
  stable cs P → inv P C R s v → pb_chunk v' = pb_chunk v → pb_index v' = pb_index v → pb_size v' = pb_size v → pb_object v' = pb_object v →
  pb_next_slice v ≤ pb_next_slice v' → pb_next_chunk v ≤ pb_next_chunk v' → kept P P C R s v v'.
Proof.
  intros HP Hinv Hc Hi Hsz Ho Hn Hnc. apply (inv_grow cs start Hcs); try done; [by rewrite Hi|lia|]. split; intros; by rewrite Ho.
Qed.

Definition target_post (a : nat) (C R : list nat) (V : Z → ascii) (st0 : @state W) (f : FrozenSlice)
    (r : result (Z * bool)) (st : @state W) : Prop :=
  progress hok C (a :: R) V st0 st ∧
  match r with
  | Ok (c, att) => ∃ f', slice_at st.1 a = Some f' ∧ same_data f f' ∧ fs_prepared_id f' = fs_prepared_id f ∧
                   pb_chunk (view st.2) = chunk_is att c ∧ (att = false → fs_created_chunk_id f' = Some c)
  | Err _ => excused st
  end.

Lemma target_chunk_spec a C R V st0 s w f snap :
  progress hok C (a :: R) V st0 (s, w) → slice_at s a = Some f → fcs_chunk_id snap = pb_chunk (view w) →
  wp (target_chunk cs a snap) (target_post a C R V st0 f) (s, w).
Proof.
  intros Hpr Hf Hsnap. unfold target_chunk. rewrite Hsnap. destruct (pb_chunk (view w)) as [c|] eqn:Ec.
  { apply wp_ret. split; [done|]. exists f. by split_and!. }
  apply wp_bind. eapply wp_slice_of; [done|]. destruct (fs_created_chunk_id f) as [c|] eqn:Ecr.
  { apply wp_ret. split; [done|]. exists f. by split_and!. }
  pose proof Hpr as (Hinv & _). cbn [fst snd] in Hinv. apply wp_bind.
  eapply (wp_step _ _ _ hok (λ _, hok)); [apply law_allocate_chunk|exact Hpr|intros; by apply head_ok_stable| |].
  { intros r v (Hc & Hsz & Hi & Ho & Hn & Hnc & _). apply kept_same_objects; try done; [by apply head_ok_stable|lia]. }
  intros r s' w' v Hpr' Hg Hfault Hfresh Hs. pose proof (grown_lookup _ _ a f Hg Hf) as Hf'.
  destruct Hfresh as (Hc & _ & Hi & _ & _ & Hnc & Hr). destruct r as [c|e].
  2:{ split; [done|]. destruct Hfault as [|Hx]; [by left|]. right; right; left. cbn. pose proof (st_next_chunk _ _ Hs). lia. }
  destruct (fi_next _ _ _ _ _ _ _ Hinv) as (_ & Hpos & Hno). destruct (Hno c ltac:(lia)) as [Hic Hbf].
  apply wp_bind, wp_fail_if; intros Echeck.
  { exfalso. unfold kInvalidChunkID, kMaxChunkIDValue in Echeck. apply orb_true_iff in Echeck as []; zlia. }
  apply wp_bind, wp_modify, wp_ret. cbn [fst snd]. pose proof Hpr' as (Hinv' & _). cbn [fst snd] in Hinv'.
  pose proof (fi_head _ _ _ _ _ _ _ Hinv' a f eq_refl Hf') as Hh.
  assert (pb_chunk (view w') = None) as Ec' by (rewrite (st_chunk _ _ Hs), Hc; done).
  assert (fs_recorded_chunk_id f = None ∧ fs_uncertain_record_chunk_id f = None ∧ unindexed (view w') f) as (Er & Eu & Hu).
  { unfold head_ok in Hh. destruct (fs_recorded_chunk_id f) as [c'|]; [|destruct (fs_uncertain_record_chunk_id f) as [c'|]].
    - destruct Hh as (_ & _ & [[? _]|(_ & ? & _)]); congruence.
    - destruct Hh as (_ & [(_ & _ & [[? _]|(_ & ? & _)])|(_ & [?|(_ & ? & _)])]); congruence.
    - by destruct Hh. }
  split.
  - eapply (progress_update a (set_created c)); [exact Hpr'|exact Hf'|done|done|]. unfold head_ok. cbn. rewrite Er, Eu. split; [done|].
    split_and!; try done; [rewrite (st_index _ _ Hs), Hi; done|pose proof (st_next_chunk _ _ Hs); lia|by rewrite (gr_boundaries _ _ Hg)].
  - exists (set_created c f). cbn [fst snd]. rewrite (update_at a _ s' f Hf'), decide_True by done. by split_and!.
Qed.

(** A slice whose record and size are published. *)
Definition done_with (c : Z) (v : Published) (b : list BoundaryClamp) (f : FrozenSlice) : Prop :=
  committed cs start c v b f ∧ fs_recorded_chunk_id f = Some c.
Definition published_slice (a : nat) (C R : list nat) (V : Z → ascii) (st0 : @state W) (st : @state W) : Prop :=
  ∃ c, progress (done_with c) C (a :: R) V st0 st.

Definition publish_post (a : nat) (C R : list nat) (V : Z → ascii) (st0 : @state W) (f : FrozenSlice)
    (r : result (option unit)) (st : @state W) : Prop :=
  match r with
  | Ok (Some _) => published_slice a C R V st0 st
  | Ok None => progress hok C (a :: R) V st0 st ∧ faults ∧
      ∃ f', slice_at st.1 a = Some f' ∧ same_data f f' ∧ fs_prepared_id f' = fs_prepared_id f
  | Err _ => progress hok C (a :: R) V st0 st ∧ excused st
  end.

Definition extends (att : bool) (c e : Z) : Published → Published → Prop := if att then finalized c e else attached c e.
Lemma extend_call_performs (att : bool) (c e : Z) x :
  performs (W := W) (if att then be_finalize c e x else be_attach c e x) (λ v, pb_chunk v = chunk_is att c) (mutation (extends att c e)).
Proof. destruct att; [apply law_finalize|apply law_attach]. Qed.
Definition after_extend (att : bool) (c : Z) (r : result unit) : Published → list BoundaryClamp → FrozenSlice → Prop :=
  match r with
  | Ok _ => done_with c
  | Err OutcomeUnknown => λ v b f, done_with c v b f ∨ known att c v b f
  | Err _ => known att c
  end.
Lemma done_stable c : stable cs (done_with c).
Proof. apply stable_and; [by apply committed_stable|apply (stable_slice cs (λ f, fs_recorded_chunk_id f = Some c))]. Qed.
Lemma after_extend_stable att c r : stable cs (after_extend att c r).
Proof.
  destruct r as [|[]]; try apply known_stable; [apply done_stable|apply stable_or; [apply done_stable|apply known_stable]].
Qed.
Lemma done_hok c v b f : done_with c v b f → hok v b f.
Proof. intros [[? _] E]. unfold head_ok. by rewrite E. Qed.

Lemma extend_effect att c a C R s v f r v' :
  inv (known att c) C (a :: R) s v → slice_at s a = Some f →
  mutation (extends att c (slice_end start f)) r v v' → kept (known att c) (after_extend att c r) C (a :: R) s v v'.
Proof.
  intros Hinv Hf Hm. destruct (fi_head _ _ _ _ _ _ _ Hinv a f eq_refl Hf) as [[Hr Hc] Hflag].
  assert (inv (λ v b f, recorded_at cs v b c f ∧ pb_chunk v = chunk_is att c) C (a :: R) s v) as Hinv1 by (by eapply inv_head).
  assert (extends att c (slice_end start f) v v' → kept (known att c) (done_with c) C (a :: R) s v v') as Heff.
  { intros He. unfold kept. assert (inv (committed cs start c) C (a :: R) s v' ∧ (∀ k, contents cs start s v' k = contents cs start s v k) ∧
      ∀ V, durable cs start V C (a :: R) s v → durable cs start V C (a :: R) s v') as (Hi & ? & ?).
    { unfold extends in He. destruct att; cbn in *; [by eapply inv_finalize|by eapply inv_attach]. }
    split_and!; try done. eapply inv_head; [done|done|]. split; [|done]. by eapply (fi_head _ _ _ _ _ _ _ Hi). }
  destruct r as [[]|e]; [by apply Heff|]. destruct e; cbn in Hm; try (by subst v').
  destruct Hm as [->|Hm]; split_and!; try done; try (by apply (Heff Hm)).
  - eapply inv_head; [done|done|]. right. by split.
  - destruct (Heff Hm) as (Hi & _). eapply inv_head; [done|done|]. left. by eapply (fi_head _ _ _ _ _ _ _ Hi).
Qed.

Lemma same_data_end f g : same_data f g → slice_end start g = slice_end start f.
Proof. intros (E1 & _ & E3 & _). unfold slice_end. by rewrite E1, E3. Qed.
Lemma same_data_record f g id : same_data f g → record_of g id = record_of f id.
Proof. intros (E1 & E2 & E3 & _). unfold record_of. by rewrite E1, E2, E3. Qed.

Lemma publish_attempt_spec a C R V st0 s w f id :
  progress hok C (a :: R) V st0 (s, w) → slice_at s a = Some f → fs_prepared_id f = Some id →
  wp (publish_attempt cs a (record_of f id) (slice_end start f)) (publish_post a C R V st0 f) (s, w).
Proof.
  intros Hpr Hf Hid. unfold publish_attempt. apply wp_bind.
  eapply wp_ask; [apply law_snapshot|by apply head_ok_stable|exact Hpr|]. intros r s1 w1 Hpr1 Hg1 Hs1 Hr.
  destruct r as [snap|e]; [|split; [done|]; by destruct Hr; [left|]]. destruct Hr as [Hchunk _].
  apply wp_bind. eapply wp_mono; [|eapply target_chunk_spec; [exact Hpr1|by eapply grown_lookup|by rewrite Hchunk, (st_chunk _ _ Hs1)]].
  intros r [s2 w2] [Hpr2 Hr2]. destruct r as [[c att]|e]; [|by split].
  destruct Hr2 as (f2 & Hf2 & Hsd2 & Hid2 & Hc2 & Hcr2). cbn [fst snd] in *. rewrite <- (same_data_record f f2 id Hsd2), <- (same_data_end f f2 Hsd2).
  apply wp_bind. eapply wp_mono; [|eapply ensure_recorded_spec; [exact Hpr2|exact Hf2|congruence|done|done]].
  intros r [s3 w3] Hr3. destruct r as [[]|e]; [|destruct Hr3; split; [done|by left]]. destruct Hr3 as [Hpr3 (f3 & Hf3 & Hsd3 & Hid3)]. cbn [fst snd] in *.
  rewrite <- (same_data_end f2 f3 Hsd3). apply wp_bind, wp_try. pose proof Hpr3 as (Hinv3 & _).
  destruct (fi_head _ _ _ _ _ _ _ Hinv3 a f3 eq_refl Hf3) as [[_ Hc3] _]. cbn [fst snd] in *.
  eapply wp_step; [apply extend_call_performs|exact Hpr3|apply after_extend_stable|intros r v; by apply extend_effect|].
  intros r s4 w4 v Hpr4 Hg4 Hfault Hm Hs4.
  assert (∀ e, r = Err e → faults ∧ progress hok C (a :: R) V st0 (s4, w4)) as Herr.
  { intros e ->. split; [by destruct Hfault|]. eapply progress_weaken; [|exact Hpr4].
    intros u b g. destruct e; cbn; try apply known_hok. intros [?|?]; [by eapply done_hok|by eapply known_hok]. }
  destruct r as [[]|e]; [by exists c|]. destruct (Herr e eq_refl) as [HF Hh].
  assert (publish_post a C R V st0 f (Err e) (s4, w4)) as Hfail by (split; [done|by left]).
  destruct e; try (apply wp_fail; done).
  { apply wp_ret. split_and!; [done|done|]. exists f3. split_and!; [by eapply grown_lookup| |congruence].
      destruct Hsd2 as (? & ? & ? & ?), Hsd3 as (? & ? & ? & ?). split_and!; congruence. }
  destruct att; [by apply wp_fail|]. apply wp_bind, wp_try.
  eapply wp_ask; [apply law_snapshot|apply (after_extend_stable false c (Err OutcomeUnknown))|exact Hpr4|].
  intros r s5 w5 Hpr5 Hg5 Hs5 Hr5.
  assert (publish_post a C R V st0 f (Err OutcomeUnknown) (s5, w5)) as Hfail5.
  { split; [|by left]. eapply progress_weaken; [|exact Hpr5]. intros u b g [?|?]; [by eapply done_hok|by eapply known_hok]. }
  destruct r as [obs|e]; [|by apply wp_fail]. destruct (bool_decide _ && _) eqn:Eo; [|by apply wp_fail]. apply wp_ret. exists c.
  apply andb_true_iff in Eo as [Eo _]. apply bool_decide_eq_true in Eo. destruct Hr5 as [Hobs _].
  destruct Hpr5 as (Hinv5 & ? & ? & ?). split_and!; try done.
  assert (slice_at s5 a = Some f3) as Hf5 by (eapply grown_lookup; [done|by eapply grown_lookup]).
  eapply inv_head; [done|done|]. destruct (fi_head _ _ _ _ _ _ _ Hinv5 a f3 eq_refl Hf5) as [?|[[_ Hno] _]]; [done|].
  exfalso. cbn in Hno. rewrite (st_chunk _ _ Hs5), <- Hobs in Hno. congruence.
Qed.

Lemma publish_loop_spec n a C R V st0 s w f id :
  progress hok C (a :: R) V st0 (s, w) → slice_at s a = Some f → fs_prepared_id f = Some id →
  wp (publish_loop cs n a (record_of f id) (slice_end start f)) (λ r st, match r with
    | Ok _ => published_slice a C R V st0 st
    | Err _ => progress hok C (a :: R) V st0 st ∧ (excused st ∨ n = O)
    end) (s, w).
Proof.
  revert s w f. induction n as [|n IH]; intros s w f Hpr Hf Hid; cbn [publish_loop]; [apply wp_fail; by split; [|right]|].
  apply wp_bind. eapply wp_mono; [|by eapply publish_attempt_spec]. intros r [s1 w1] Hr.
  destruct r as [[u|]|e]; cbn in Hr; [by apply wp_ret| |destruct Hr; split; [done|by left]].
  destruct Hr as (Hpr1 & HF & f1 & Hf1 & Hsd1 & Hid1). rewrite <- (same_data_record f f1 id Hsd1), <- (same_data_end f f1 Hsd1).
  eapply wp_mono; [|eapply IH; [exact Hpr1|exact Hf1|congruence]]. intros [|e] st; [done|]. intros [? _]. split; [done|]. by left; left.
Qed.

Lemma PublishFrozen_spec a C R V st0 s w f id :
  progress hok C (a :: R) V st0 (s, w) → slice_at s a = Some f → fs_prepared_id f = Some id →
  wp (PublishFrozen index cs a) (λ r st, match r with
    | Ok _ => published_slice a C R V st0 st
    | Err _ => progress hok C (a :: R) V st0 st ∧ excused st
    end) (s, w).
Proof.
  intros Hpr Hf Hid. pose proof Hpr as (Hinv & _). cbn [fst snd] in Hinv.
  pose proof (slice_of_inv cs start _ C a (a :: R) s _ f Hinv ltac:(set_solver) Hf) as Hfok. pose proof Hfok as (Hp & Hv & Hc & He & _).
  destruct (fi_prepared _ _ _ _ _ _ _ Hinv a f id ltac:(set_solver) Hf Hid) as (Hid1 & Hid2 & Ho).
  pose proof (record_of_ok cs Hcs f id (view w) Hfok Hid1 Hid2 Ho) as (_ & Hvalid & _).
  unfold PublishFrozen. apply wp_bind. eapply wp_slice_of; [done|]. rewrite (proj2 (Z.eqb_neq (fs_visible_len f) 0)), Hid by lia.
  rewrite !wrap_id by (unfold in_range, UINT32_MAX in *; lia). fold (record_of f id).
  apply wp_bind, wp_lift. rewrite Hvalid. cbn [check]. apply wp_bind, wp_lift. rewrite Hstart.
  apply wp_bind, wp_fail_if; intros Ek.
  { split; [done|]. right; right; right; left. cbn [record_of sr_pos sr_len] in Ek. apply orb_true_iff in Ek as []; zlia. }
  replace (start + sr_pos (record_of f id) + Z.min (fs_eof_len f) (fs_visible_len f)) with (slice_end start f)
    by (unfold slice_end; cbn; lia).
  eapply wp_mono; [|by eapply publish_loop_spec]. intros [|e] st; [done|]. intros [? [?|?]]; [done|lia].
Qed.

(** ** Uploads *)

Lemma unused_settles R s s' v v' id :
  id_unused R s v id → settles v v' → grown s s' → Forall (λ a, is_Some (slice_at s a)) R → id_unused R s' v' id.
Proof.
  intros (? & Hfree & Huse) Hs Hg Hval. split_and!; [done| |].
  - intros c l. rewrite (st_chunk _ _ Hs), (st_index _ _ Hs). apply Hfree.
  - intros a f Ha Hf. rewrite Forall_forall in Hval. destruct (Hval a Ha) as [g Hsa].
    rewrite (grown_lookup _ _ _ _ Hg Hsa) in Hf. simplify_eq. by eapply Huse.
Qed.
Lemma fresh_unused P C R s v id : inv P C R s v → pb_next_slice v ≤ id → id_unused R s v id.
Proof.
  intros Hinv Hid. destruct (fi_next _ _ _ _ _ _ _ Hinv) as (Hpos & _). split_and!; [lia| |].
  - intros c l Hc Hl. destruct (fi_published _ _ _ _ _ _ _ Hinv c Hc) as (l' & Hl' & _ & Hall & _). assert (l' = l) as -> by congruence.
    eapply Forall_impl; [exact Hall|]. intros r (_ & _ & ? & _). cbn. lia.
  - intros a f Ha Hf E. destruct (fi_prepared _ _ _ _ _ _ _ Hinv a f id Ha Hf E) as (? & _). lia.
Qed.

(** A slice gets the identity its object was stored under. *)
Lemma progress_prepare a id R V st0 s w f :
  progress hok [] R V st0 (s, w) → a ∈ R → slice_at s a = Some f → fs_prepared_id f = None →
  id_unused R s (view w) id → id < pb_next_slice (view w) → id ≤ INT64_MAX → pb_object (view w) (SliceObjectKey id) = Some (fs_payload f) →
  progress hok [] R V st0 (update_slice a (λ f, if fs_visible_len f =? 0 then f else set_prepared id f) s, w).
Proof.
  intros (Hinv & Hdur & Htr & Hbe) Ha Hf Hnone (Hpos & Hfree & Huse) Hlt Hmax Ho. cbn [fst snd] in *.
  set (g := λ f, if fs_visible_len f =? 0 then f else set_prepared id f).
  assert (g f = set_prepared id f) as Eg.
  { unfold g. rewrite (proj2 (Z.eqb_neq _ 0)); [done|]. destruct (slice_of_inv cs start _ [] a R s _ f Hinv ltac:(set_solver) Hf) as (_ & ? & _). lia. }
  assert (unindexed (view w) (set_prepared id f)) as Hu by (intros id' [= <-]; done).
  destruct (inv_update cs start Hcs a g s f Hf ltac:(by rewrite Eg) hok hok [] R (view w) Hinv Ha) as (Hinv' & Hc & Hd).
  - rewrite Eg. intros id' [= <-]. split_and!; try done. intros a' f' Ha' _ Hf'. by apply (Huse a').
  - intros Hh. pose proof (fi_head _ _ _ _ _ _ _ Hinv a f Hh Hf) as Hok. rewrite Eg. unfold head_ok in *. cbn.
    destruct (fs_recorded_chunk_id f); [destruct Hok as (? & ? & _); congruence|].
    destruct (fs_uncertain_record_chunk_id f) as [c|]; [|by destruct Hok].
    destruct Hok as [? [(? & ? & _)|[_ Hcc]]]; [congruence|]. split; [done|]. right. by split.
  - done.
  - intros Ht. destruct (fi_rest _ _ _ _ _ _ _ Hinv a f Ht Hf) as [? _]. rewrite Eg. by split.
  - split_and!; [done|by apply Hd| |].
    + etrans; [exact Htr|]. exists []. split; [by rewrite app_nil_r|]. intros k. apply Hc.
    + destruct Hbe as [Hb Hpa]. split; [exact Hb|]. intros a' Ha'. eapply prepared_update; [exact Hf|intros; congruence|by apply Hpa].
Qed.

Lemma upload_all_spec L R V st0 s w :
  progress hok [] R V st0 (s, w) → (∀ a, a ∈ L → a ∈ R) →
  wp (upload_all cs L) (λ r st, progress hok [] R V st0 st ∧ match r with
    | Ok _ => ∀ a, a ∈ L ∨ prepared_at s a → prepared_at st.1 a
    | Err _ => excused st
    end) (s, w).
Proof.
  revert s w. induction L as [|a L IH]; intros s w Hpr HL; cbn [upload_all].
  { apply wp_ret. split; [done|]. by intros a [?%elem_of_nil|?]. }
  assert (∀ a', a' ∈ L → a' ∈ R) as HL' by (intros; apply HL; by right). pose proof Hpr as (Hinv & _). cbn [fst snd] in Hinv.
  pose proof (cand_valid _ _ _ _ _ _ _ Hinv) as Hval. cbn [app] in Hval. destruct (proj1 (Forall_forall _ _) Hval a (HL a ltac:(by left))) as [f Hf].
  apply wp_bind. eapply wp_slice_of; [done|].
  pose proof (slice_of_inv cs start _ [] a R s _ f Hinv (HL a ltac:(by left)) Hf) as (? & Hv & Hc & _).
  rewrite (proj2 (Z.eqb_neq (fs_visible_len f) 0)) by lia. cbn [orb].
  destruct (bool_decide (is_Some (fs_prepared_id f))) eqn:Ep.
  { apply bool_decide_eq_true in Ep as [id Hid]. eapply wp_mono; [|by eapply IH]. intros r st [? Hr]. split; [done|].
    destruct r; [|done]. intros a' [[->|?]%elem_of_cons|?]; apply Hr; auto. right. by exists f, id. }
  apply bool_decide_eq_false, eq_None_not_Some in Ep.
  apply wp_bind, wp_fail_if; intros Ez. { apply orb_true_iff in Ez as []; unfold UINT32_MAX in *; zlia. }
  apply wp_bind. eapply (wp_step _ _ _ hok (λ _, hok)); [apply law_allocate_slice|exact Hpr|intros; by apply head_ok_stable| |].
  { intros r v (? & ? & ? & ? & ? & ? & _). apply kept_same_objects; try done; [by apply head_ok_stable|lia]. }
  intros r s1 w1 v1 Hpr1 Hg1 Hfault Hfresh Hs1. destruct Hfresh as (Hc1 & _ & Hi1 & _ & _ & Hn1 & Hr1). destruct r as [id|e].
  2:{ split; [done|]. destruct Hfault as [|Hx]; [by left|]. right; left. cbn. pose proof (st_next _ _ Hs1). lia. }
  destruct Hr1 as [Hidr Hmax]. pose proof (fresh_unused _ _ _ _ _ id Hinv ltac:(lia)) as Hun.
  assert (id_unused R s1 (view w1) id) as Hun1.
  { eapply (unused_settles R s s1 v1); [|done|done|done]. destruct Hun as (? & Hfree & ?). split_and!; try done.
    intros c l. rewrite Hc1, Hi1. apply Hfree. }
  apply wp_bind, wp_fail_if; intros Echk. { destruct Hun1 as (? & _). apply orb_true_iff in Echk as []; zlia. }
  pose proof (grown_lookup _ _ a f Hg1 Hf) as Hf1. pose proof Hpr1 as (Hinv1 & _). cbn [fst snd] in Hinv1.
  apply wp_bind. eapply (wp_step _ _ _ hok (λ _, hok)); [apply law_put|exact Hpr1|intros; by apply head_ok_stable| |].
  { assert (∀ v, stored_object (SliceObjectKey id) (fs_payload f) (view w1) v → kept hok hok [] R s1 (view w1) v) as Hst.
    { intros v Hst. eapply (inv_stored_object cs start Hcs); [by apply head_ok_stable|done|exact Hun1|exact Hst]. }
    intros [[]|e] v Hup; [by apply Hst|]. destruct Hup as [->|Hup]; [by split|by apply Hst]. }
  intros r s2 w2 v2 Hpr2 Hg2 Hfault2 Hput Hs2. destruct r as [[]|e]; [|split; [done|]; by destruct Hfault2; [left|]].
  cbn in Hput. destruct Hput as (Hc2 & _ & Hi2 & [Hn2 _] & Hobj & _).
  apply wp_bind, wp_modify. cbn [fst snd]. pose proof (grown_lookup _ _ a f Hg2 Hf1) as Hf2.
  assert (id_unused R s2 (view w2) id) as Hun2.
  { eapply (unused_settles R s1 s2 v2); [|done|done|apply (cand_valid _ _ _ _ _ _ _ Hinv1)]. destruct Hun1 as (? & Hfree & ?).
    split_and!; try done. intros c l. rewrite Hc2, Hi2. apply Hfree. }
  pose proof (st_next _ _ Hs1). pose proof (st_next _ _ Hs2).
  eapply wp_mono; [|eapply IH; [|done]; eapply (progress_prepare a id R V st0 s2 w2 f); try done; [apply HL; by left|lia|by apply (st_object _ _ Hs2)]].
  intros r st [Hpr3 Hr]. split; [done|]. destruct r; [|done]. intros a' Ha'. apply Hr.
  assert (∀ id' : Z, fs_prepared_id f = Some id' → is_Some (fs_prepared_id (if fs_visible_len f =? 0 then f else set_prepared id f))) as Hkeep by (intros; congruence).
  destruct Ha' as [[->|?]%elem_of_cons|Hp]; [right|by left|right].
  - exists (set_prepared id f), id. rewrite (update_at a _ s2 f Hf2), decide_True by done. rewrite (proj2 (Z.eqb_neq (fs_visible_len f) 0)) by lia. done.
  - eapply prepared_update; [done|done|]. eapply prepared_grown; [exact Hg2|]. by eapply prepared_grown.
Qed.

(** ** The publication loop *)
Lemma progress_retire P C R V st0 s w :
  progress P C R V st0 (s, w) → progress P [] R V st0 (retire_committed C s, w).
Proof.
  intros (Hinv & Hdur & Htr & Hbe). cbn [fst snd] in *. destruct (inv_retire cs start Hcs _ _ _ _ _ Hinv) as (Hinv' & Hc & Hd).
  split_and!; [done|by apply Hd| |].
  - etrans; [exact Htr|]. exists []. split; [by rewrite app_nil_r|]. intros k. apply Hc.
  - destruct Hbe as [Hb Hpa]. unfold retire_committed. by destruct C.
Qed.

Lemma publish_all_spec R C V st0 s w :
  progress hok C R V st0 (s, w) → (∀ a, a ∈ R → prepared_at st0.1 a) →
  wp (publish_all index cs R C) (λ r st, match r with
    | Ok _ => progress hok [] [] V st0 st
    | Err _ => (∃ R', progress hok [] R' V st0 st) ∧ excused st
    end) (s, w).
Proof.
  revert C s w. induction R as [|a R IH]; intros C s w Hpr Hprep; cbn [publish_all].
  { apply wp_modify. by apply progress_retire. }
  pose proof Hpr as (Hinv & _ & _ & _ & Hkeep). cbn [fst snd] in *.
  destruct (Hkeep a (Hprep a ltac:(by left))) as (f & id & Hf & Hid). apply wp_bind. eapply wp_slice_of; [done|].
  destruct (slice_of_inv cs start _ C a (a :: R) s _ f Hinv ltac:(set_solver) Hf) as (_ & Hv & _).
  rewrite (proj2 (Z.eqb_neq (fs_visible_len f) 0)) by lia. apply wp_bind, wp_try.
  eapply wp_mono; [|by eapply PublishFrozen_spec]. intros r [s1 w1] Hr. destruct r as [[]|e].
  - destruct Hr as (c & Hpr1). pose proof Hpr1 as (Hinv1 & Hdur1 & Htr1 & Ha1). cbn [fst snd] in *. apply IH; [|intros; apply Hprep; by right].
    assert (∃ f1, slice_at s1 a = Some f1) as [f1 Hf1].
    { pose proof (cand_valid _ _ _ _ _ _ _ Hinv1) as Hval. rewrite Forall_forall in Hval. apply (Hval a). set_solver. }
    destruct (inv_commit cs start faults C a R s1 (view w1) f1 c) as [Hinv2 Hdur2]; [|done|by split_and!; try apply Hdur2].
    eapply inv_head; [done|done|]. by destruct (fi_head _ _ _ _ _ _ _ Hinv1 a f1 eq_refl Hf1).
  - destruct Hr as [Hpr1 Hex]. apply wp_bind, wp_modify, wp_fail. cbn [fst snd]. split; [exists (a :: R); by apply progress_retire|].
    unfold excused in *. cbn in *. by destruct C.
Qed.

End Publish.
