(* ===== verification/SliceGroup.v ===== *)
(** * Coalescing the small writes of a window

    [SliceChunk::PrepareWindowCandidates]: the pending slices of each 1 MiB window are
    replaced by one slice that holds the whole range they span, with the published bytes in
    the gaps.  The theorems show what a group covers, what its payload holds, and that
    splicing the groups into the pending list changes no byte a reader sees. *)

From S2P Require Import Prelude RedisKv Decimal StdMap ChunkGeometry InodeTypes SliceHistory DirtyRanges Records MetaEngine SliceChunk SliceLocal SlicePublished SliceRead SliceInv SliceFlush.

(** ** The groups *)
Lemma map_find_In {V : Type} (k : Z) (v : V) m : map_find k m = Some v → (k, v) ∈ m.
Proof.
  induction m as [|[k' v'] m IH]; cbn; [done|]. destruct (key_eqb k k') eqn:E; [|intros; right; by apply IH].
  apply key_eqb_eq in E as ->. intros [= ->]. by left.
Qed.

Section Groups.
Context (cs : Z).

Definition in_group (f : FrozenSlice) (g : GroupBuild) : Prop :=
  gb_pos g ≤ fs_pos f ∧ fs_pos f + fs_visible_len f ≤ gb_record_end g.

(** A group lies in its window and in the chunk; [n] pending slices were seen. *)
Definition group_ok (n : Z) (x : Z * GroupBuild) : Prop :=
  (∃ q, x.1 = q * kRmwWindowBytes) ∧ 0 ≤ gb_pos x.2 ∧ x.1 ≤ gb_pos x.2 < gb_record_end x.2 ∧
  gb_record_end x.2 ≤ Z.min cs (x.1 + kRmwWindowBytes) ∧ gb_dirty_end x.2 = gb_record_end x.2 ∧ 0 ≤ gb_insert_after x.2 < n.
Definition grouped (groups : list (Z * GroupBuild)) (v : PendingView) : Prop :=
  groupable (pv_slice v) = true → ∃ g, map_find (window_base (pv_slice v)) groups = Some g ∧ in_group (pv_slice v) g.

Lemma groupable_window f :
  slice_ok cs f → groupable f = true →
  (∃ q, window_base f = q * kRmwWindowBytes) ∧ window_base f ≤ fs_pos f ∧ fs_pos f + fs_visible_len f ≤ window_base f + kRmwWindowBytes.
Proof.
  intros (? & _) Hg. unfold groupable in Hg. rewrite !andb_true_iff in Hg. destruct Hg as [_ ?%Z.leb_le].
  split; [by eexists|]. split; [|lia]. unfold window_base, kRmwWindowBytes in *. pose proof (Z.mul_div_le (fs_pos f) (1 * 1024 * 1024)). lia.
Qed.

Lemma add_to_group_ok i v groups seen :
  slice_ok cs (pv_slice v) → groupable (pv_slice v) = true → 0 ≤ i →
  map_sorted groups → Forall (group_ok i) groups → Forall (grouped groups) seen →
  let groups' := add_to_group i (pv_slice v) groups in
  map_sorted groups' ∧ Forall (group_ok (i + 1)) groups' ∧ Forall (grouped groups') (seen ++ [v]).
Proof.
  set (f := pv_slice v). intros Hf Hg Hi Hs Hall Hseen. cbn zeta. unfold add_to_group.
  set (g := match map_find (window_base f) groups with None => _ | Some g => _ end).
  destruct (groupable_window f Hf Hg) as ([q Hq] & Hb & He). pose proof Hf as (? & Hv & Hin & _).
  assert (group_ok (i + 1) (window_base f, g) ∧ in_group f g ∧
          ∀ g0, map_find (window_base f) groups = Some g0 → gb_pos g ≤ gb_pos g0 ∧ gb_record_end g0 ≤ gb_record_end g) as (Hgok & Hfg & Hmono).
  { subst g. destruct (map_find (window_base f) groups) as [g0|] eqn:E.
    - pose proof (proj1 (Forall_forall _ _) Hall _ (map_find_In _ _ _ E)) as (_ & ? & ? & ? & ? & ?).
      cbn in *. unfold group_ok, in_group. split_and!; cbn; try (by exists q); try lia. intros ? [= <-]. lia.
    - unfold group_ok, in_group. split_and!; cbn; try (by exists q); try lia. done. }
  split_and!; [by apply map_assign_sorted| |].
  - apply map_assign_Forall; [done|]. eapply Forall_impl; [exact Hall|]. intros x (? & ? & ? & ? & ? & ?). split_and!; try done; lia.
  - apply Forall_app. split; [|constructor; [|done]].
    + eapply Forall_impl; [exact Hseen|]. intros u Hu Hgu. destruct (Hu Hgu) as (g0 & E0 & ? & ?). rewrite map_find_assign by done.
      destruct (key_eqb _ _) eqn:Ek; [|by exists g0]. apply key_eqb_eq in Ek. rewrite Ek in E0. destruct (Hmono g0 E0). exists g. split; [done|]. split; lia.
    + intros _. exists g. rewrite map_find_assign by done. fold f. by rewrite key_eqb_refl.
Qed.
Lemma elem_of_filtered {A : Type} (p : A → bool) l x : x ∈ List.filter p l ↔ x ∈ l ∧ p x = true.
Proof. by rewrite !list_elem_of_In, filter_In. Qed.
Lemma build_groups_ok i pending groups seen :
  Forall (λ v, slice_ok cs (pv_slice v)) pending → 0 ≤ i →
  map_sorted groups → Forall (group_ok i) groups → Forall (grouped groups) seen →
  let groups' := build_groups i pending groups in
  map_sorted groups' ∧ Forall (group_ok (i + zlen pending)) groups' ∧ Forall (grouped groups') (seen ++ pending).
Proof.
  cbn zeta. intros Hp. revert i groups seen. induction Hp as [|v pending Hv _ IH]; intros i groups seen Hi Hs Hall Hseen; cbn [build_groups].
  { by rewrite app_nil_r, Z.add_0_r. }
  replace (i + zlen (v :: pending)) with (i + 1 + zlen pending) by (rewrite zlen_cons; lia). rewrite (cons_middle v seen), app_assoc. destruct (groupable (pv_slice v)) eqn:Eg.
  - destruct (add_to_group_ok i v groups seen Hv Eg Hi Hs Hall Hseen) as (? & ? & ?).
    apply IH; done || lia.
  - apply IH; try done; try lia.
    + eapply Forall_impl; [exact Hall|]. intros x (? & ? & ? & ? & ? & ?). split_and!; try done; lia.
    + apply Forall_app. split; [done|]. constructor; [|done]. intros ?. congruence.
Qed.

Definition is_source (groups : list (Z * GroupBuild)) (f : FrozenSlice) : Prop :=
  groupable f = true ∧ is_Some (map_find (window_base f) groups).
Lemma find_filter {V : Type} (p : Z * V → bool) (m : list (Z * V)) k v :
  map_sorted m → map_find k (List.filter p m) = Some v → map_find k m = Some v.
Proof.
  induction m as [|[k' v'] m IH]; cbn; [done|]. intros [Hf Hs]%sorted_cons.
  destruct (p (k', v')); cbn; destruct (key_eqb k k') eqn:E; try done; try (by apply IH).
  intros Hfind%IH; [|done]. apply key_eqb_eq in E as ->. by rewrite find_before in Hfind.
Qed.

(** Every group lies in its own window, and every slice that goes into a group lies in it. *)
Lemma window_groups_ok pending :
  Forall (λ v, slice_ok cs (pv_slice v)) pending →
  NoDup (window_groups pending).*1 ∧ Forall (group_ok (zlen pending)) (window_groups pending) ∧
  ∀ v, v ∈ pending → is_source (window_groups pending) (pv_slice v) → ∃ b g, (b, g) ∈ window_groups pending ∧ in_group (pv_slice v) g.
Proof.
  intros Hp. destruct (build_groups_ok 0 pending [] [] Hp ltac:(done) ltac:(constructor) ltac:(constructor) ltac:(constructor)) as (Hs & Hall & Hgr).
  unfold window_groups. set (groups := build_groups 0 pending []) in *. cbn [app] in Hgr. rewrite Z.add_0_l in Hall. split_and!.
  - apply map_sorted_NoDup in Hs. clear -Hs. induction groups as [|x l IH]; cbn in *; [done|]. apply NoDup_cons in Hs as [Hx Hl].
    case_match; cbn; [|by apply IH]. constructor; [|by apply IH]. intros (y & E & (Hin & _)%elem_of_filtered)%list_elem_of_fmap. apply Hx. rewrite E. apply list_elem_of_fmap. by exists y.
  - rewrite Forall_forall in *. intros x (? & _)%elem_of_filtered. by apply Hall.
  - intros v Hv [Hg [g Hfind]]. rewrite Forall_forall in Hgr. destruct (Hgr v Hv Hg) as (g' & E & ?).
    exists (window_base (pv_slice v)), g. split; [by apply map_find_In|]. apply find_filter in Hfind; [|done]. congruence.
Qed.

(** ** The payload of a group *)
Definition touches (g : GroupBuild) (f : FrozenSlice) : Prop :=
  Z.max (gb_pos g) (fs_pos f) < Z.min (gb_record_end g) (fs_pos f + fs_visible_len f).
Lemma untouched_byte g f k : ¬ touches g f → gb_pos g ≤ k < gb_record_end g → slice_byte f k = None.
Proof.
  intros Ht Hk. destruct (slice_byte f k) as [c|] eqn:E; [|done]. apply slice_byte_Some in E as [? _]. destruct Ht. unfold touches. lia.
Qed.
Lemma frozen_at_none (fs : list FrozenSlice) k : Forall (λ f, slice_byte f k = None) fs → frozen_at fs k = None.
Proof.
  intros Hall. destruct (frozen_at fs k) as [c|] eqn:E; [|done]. destruct (frozen_at_elem fs k c E) as (f & Hin & Hf).
  rewrite Forall_forall in Hall. rewrite (Hall f Hin) in Hf. done.
Qed.

(** What overlaying keeps of a group, and that it is inserted after everything it overlays. *)
Record overlaid (i : Z) (pending : list PendingView) (g : GroupBuild) (payload : bytes) (g' : GroupBuild) (payload' : bytes) : Prop := {
  ov_pos : gb_pos g' = gb_pos g; ov_end : gb_record_end g' = gb_record_end g; ov_dirty : gb_dirty_end g' = gb_record_end g;
  ov_len : zlen payload' = zlen payload;
  ov_after : gb_insert_after g ≤ gb_insert_after g' ≤ Z.max (gb_insert_after g) (i + zlen pending - 1);
  ov_newest : ∀ j v, pending !! j = Some v → touches g (pv_slice v) → i + Z.of_nat j ≤ gb_insert_after g';
  ov_bytes : ∀ k, gb_pos g ≤ k < gb_record_end g →
    byte_at payload' (k - gb_pos g) = over (frozen_at (pv_slice <$> pending) k) (byte_at payload (k - gb_pos g));
}.

Lemma overlay_pending_spec i pending g payload :
  Forall (λ v, slice_ok cs (pv_slice v)) pending → gb_dirty_end g = gb_record_end g → zlen payload = gb_record_end g - gb_pos g →
  overlaid i pending g payload (overlay_pending i pending g payload).1 (overlay_pending i pending g payload).2.
Proof.
  intros Hp. revert i g payload. induction Hp as [|v pending (Hpos & Hvis & _ & Heof & _) _ IH]; intros i g payload Hd Hl; cbn [overlay_pending].
  { split; cbn; done || lia. }
  set (f := pv_slice v) in *. cbn zeta. pose proof (zlen_nonneg pending).
  destruct ((fs_visible_len f =? 0) || _) eqn:E.
  - assert (¬ touches g f) as Hno by (unfold touches; apply orb_true_iff in E as []; zlia).
    destruct (IH (i + 1) g payload Hd Hl) as [? ? ? ? ? Hn Hb]. split; try done; [rewrite zlen_cons; lia| |].
    + intros [|j] u; [intros [= <-] Ht; by destruct Hno|]. intros Hj Ht. specialize (Hn j u Hj Ht). lia.
    + intros k Hk. rewrite Hb by done. cbn [fmap list_fmap]. fold f. by rewrite frozen_at_cons, (untouched_byte g f k), over_None.
  - apply orb_false_iff in E as [_ Ht]. rewrite Heof, Z.min_id.
    set (a := Z.max (gb_pos g) (fs_pos f)) in *. set (b := Z.min (gb_record_end g) (fs_pos f + fs_visible_len f)) in *.
    assert (zlen (substr (fs_payload f) (a - fs_pos f) (b - a)) = b - a) as Hsub by (apply zlen_substr; zlia).
    set (payload1 := memcpy _ _ _). assert (zlen payload1 = zlen payload) as Hl1 by (apply zlen_memcpy; zlia).
    set (g1 := mkGroup _ _ _ _ _). assert (gb_dirty_end g1 = gb_record_end g1) as Hd1.
    { subst g1. cbn. destruct (_ >? _); lia. }
    destruct (IH (i + 1) g1 payload1 Hd1 ltac:(cbn; lia)) as [Hp1 He1 ? Hlen Haft Hn Hb]. subst g1. cbn [gb_pos gb_record_end gb_insert_after] in *. split; try done.
    + lia.
    + rewrite zlen_cons. lia.
    + intros [|j] u; [intros [= <-] _; cbn; lia|]. intros Hj Hto. specialize (Hn j u Hj Hto). lia.
    + intros k Hk. rewrite Hb by done. cbn [fmap list_fmap]. fold f. rewrite frozen_at_cons, over_assoc. f_equal. subst payload1.
      rewrite byte_at_memcpy by zlia. rewrite Hsub. unfold slice_byte.
      destruct (Z.leb_spec (a - gb_pos g) (k - gb_pos g)), (Z.ltb_spec (k - gb_pos g) (a - gb_pos g + (b - a))); cbn [andb].
      2-4: destruct (Z.leb_spec (fs_pos f) k), (Z.ltb_spec k (fs_pos f + fs_visible_len f)); cbn; done || lia.
      rewrite byte_at_substr by lia. rewrite (proj2 (Z.leb_le _ _)), (proj2 (Z.ltb_lt _ _)) by lia. cbn [andb].
      rewrite (proj2 (Z.leb_le (fs_pos f) k)), (proj2 (Z.ltb_lt k _)) by lia. cbn [andb]. replace (a - fs_pos f + _) with (k - fs_pos f) by lia.
      destruct (byte_at_inside (fs_payload f) (k - fs_pos f)) as [c ->]; [lia|done].
Qed.

End Groups.

(** ** Splicing the groups in *)
Section Splice.
Context (s : SliceChunk) (sources : list nat) (inserts : list (Z * nat)).
Definition misses (k : Z) (a : nat) : Prop := ∀ f, slice_at s a = Some f → slice_byte f k = None.

Lemma misses_frozen l k : (∀ a, a ∈ l → misses k a) → frozen_at (slices s l) k = None.
Proof.
  intros Hl. apply frozen_at_none, Forall_forall. intros f (a & Ha & Hf)%list_elem_of_omap. by apply (Hl a Ha).
Qed.
Lemma elem_inserted i a : a ∈ inserted_at i inserts ↔ (i, a) ∈ inserts.
Proof.
  unfold inserted_at. rewrite list_elem_of_fmap. split.
  - intros ([j b] & -> & [Hin E]%elem_of_filtered). cbn in *. apply Z.eqb_eq in E as ->. done.
  - intros Hin. exists (i, a). split; [done|]. apply elem_of_filtered. by rewrite Z.eqb_refl.
Qed.
Lemma splice_app i l l' : splice i (l ++ l') sources inserts = splice i l sources inserts ++ splice (i + zlen l) l' sources inserts.
Proof.
  revert i. induction l as [|a l IH]; intros i; cbn [app splice]; [by rewrite Z.add_0_r|].
  rewrite IH, zlen_cons, <- !app_assoc. by replace (i + (zlen l + 1)) with (i + 1 + zlen l) by lia.
Qed.
Lemma splice_idle i l :
  (∀ a, a ∈ l → a ∉ sources) → Forall (λ x, x.1 < i) inserts → splice i l sources inserts = l.
Proof.
  revert i. induction l as [|a l IH]; intros i Hl Hi; cbn [splice]; [done|]. rewrite bool_decide_eq_false_2 by (apply Hl; by left).
  assert (inserted_at i inserts = []) as ->.
  { apply elem_of_nil_inv. intros b Hb%elem_inserted. rewrite Forall_forall in Hi. specialize (Hi _ Hb). cbn in Hi. lia. }
  cbn. f_equal. apply IH; [set_solver|]. eapply Forall_impl; [exact Hi|]. cbn. lia.
Qed.
Lemma elem_splice i l a : a ∈ splice i l sources inserts → (a ∈ l ∧ a ∉ sources) ∨ ∃ j, i ≤ j < i + zlen l ∧ (j, a) ∈ inserts.
Proof.
  revert i. induction l as [|b l IH]; intros i; cbn [splice]; [by intros ?%elem_of_nil|]. rewrite zlen_cons. pose proof (zlen_nonneg l).
  intros [Hb|[Hi%elem_inserted|Hr]%elem_of_app]%elem_of_app.
  - left. case_bool_decide; [by apply elem_of_nil in Hb|]. apply list_elem_of_singleton in Hb as ->. split; [by left|done].
  - right. exists i. split; [lia|done].
  - apply IH in Hr as [[? ?]|(j & ? & ?)]; [left; split; [by right|done]|right; exists j; split; [lia|done]].
Qed.
Hypothesis Hnd : NoDup inserts.*2.
Lemma insert_once i j a : (i, a) ∈ inserts → (j, a) ∈ inserts → i = j.
Proof.
  intros [n Hn]%list_elem_of_lookup [m Hm]%list_elem_of_lookup.
  assert (n = m) as <-; [|congruence]. eapply NoDup_lookup; [exact Hnd| |]; rewrite list_lookup_fmap; [by rewrite Hn|by rewrite Hm].
Qed.
Lemma inserted_NoDup i : NoDup (inserted_at i inserts).
Proof.
  unfold inserted_at. induction inserts as [|x l IH]; cbn in *; [constructor|]. apply NoDup_cons in Hnd as [Hx Hl].
  case_match; cbn; [|by apply IH]. constructor; [|by apply IH]. intros (y & E & (Hin & _)%elem_of_filtered)%list_elem_of_fmap.
  apply Hx. rewrite E. apply list_elem_of_fmap. by exists y.
Qed.

Lemma splice_NoDup i l : NoDup l → (∀ a, a ∈ l → a ∉ inserts.*2) → NoDup (splice i l sources inserts).
Proof.
  intros Hl Hd. revert i Hl Hd. induction l as [|a l IH]; intros i Hl Hd; cbn [splice]; [constructor|]. apply NoDup_cons in Hl as [Ha Hl].
  assert (∀ j b, (j, b) ∈ inserts → b ∈ inserts.*2) as Hsnd by (intros j b Hb; apply list_elem_of_fmap; by exists (j, b)).
  apply NoDup_app. split_and!; [case_bool_decide; [constructor|apply NoDup_singleton]| |apply NoDup_app; split_and!].
  - intros b Hb. assert (b = a) as -> by (case_bool_decide; [by apply elem_of_nil in Hb|by apply list_elem_of_singleton in Hb]).
    intros [Hin%elem_inserted|[[? _]|(j & _ & Hin)]%elem_splice]%elem_of_app; [|done|]; by eapply (Hd a (ltac:(by left))), Hsnd.
  - apply inserted_NoDup.
  - intros b Hb%elem_inserted [[Hbl _]|(j & Hj & Hbj)]%elem_splice; [by eapply (Hd b (ltac:(by right))), Hsnd|].
    pose proof (insert_once i j b Hb Hbj). lia.
  - apply IH; [done|]. intros b Hb. apply Hd. by right.
Qed.

(** Outside the groups nothing changes; inside, the group decides. *)
Lemma splice_outside i l k :
  (∀ a, a ∈ sources → misses k a) → (∀ x, x ∈ inserts → misses k x.2) →
  frozen_at (slices s (splice i l sources inserts)) k = frozen_at (slices s l) k.
Proof.
  intros Hs Hi. revert i. induction l as [|a l IH]; intros i; cbn [splice]; [done|]. unfold slices. rewrite !omap_app, !frozen_at_app. fold (slices s (splice (i + 1) l sources inserts)).
  fold (slices s (inserted_at i inserts)). rewrite IH, (misses_frozen (inserted_at i inserts)), over_None by (intros b Hb%elem_inserted; by apply (Hi (i, b))).
  change (a :: l) with ([a] ++ l). rewrite omap_app, frozen_at_app. fold (slices s l). f_equal. case_bool_decide; [|done].
  symmetry. apply (misses_frozen [a]). intros b ->%list_elem_of_singleton. by apply Hs.
Qed.
Lemma splice_inside i l k j a f c :
  (j, a) ∈ inserts → slice_at s a = Some f → slice_byte f k = Some c → i ≤ j < i + zlen l →
  (∀ x, x ∈ inserts → x.2 ≠ a → misses k x.2) → (∀ n b, l !! n = Some b → j < i + Z.of_nat n → misses k b) →
  frozen_at (slices s (splice i l sources inserts)) k = Some c.
Proof.
  intros Hin Ha Hf. revert i. induction l as [|b l IH]; intros i Hj Hi Hl; [change (zlen []) with 0 in Hj; lia|]. cbn [splice]. rewrite zlen_cons in Hj.
  unfold slices. rewrite !omap_app, !frozen_at_app. fold (slices s (splice (i + 1) l sources inserts)). fold (slices s (inserted_at i inserts)).
  destruct (decide (i = j)) as [->|Hne].
  - rewrite (misses_frozen (splice (j + 1) l sources inserts)).
    + cbn [over]. assert (frozen_at (slices s (inserted_at j inserts)) k = Some c) as ->; [|done].
      assert (a ∈ inserted_at j inserts) as (l1 & l2 & E)%list_elem_of_split by (by apply elem_inserted). rewrite E.
      unfold slices. rewrite omap_app, frozen_at_app. change (a :: l2) with ([a] ++ l2). rewrite omap_app, frozen_at_app. fold (slices s l2).
      rewrite (misses_frozen l2); [cbn; unfold slice_at in Ha; unfold slice_at; rewrite Ha; unfold frozen_at; cbn; by rewrite Hf|].
      intros x Hx. apply (Hi (j, x)); cbn; [apply elem_inserted; rewrite E; set_solver|]. intros ->.
      pose proof (inserted_NoDup j) as Hn.
      rewrite E in Hn. apply NoDup_app in Hn as (_ & _ & [Hn _]%NoDup_cons). done.
    + intros x [[Hx _]|(j' & Hj' & Hx)]%elem_splice.
      * apply list_elem_of_lookup in Hx as [n Hn]. apply (Hl (S n) x Hn). lia.
      * apply (Hi (j', x) Hx). cbn. intros ->. rename j' into m. pose proof (insert_once j m a Hin Hx). lia.
  - rewrite (IH (i + 1)); [done|lia|done|]. intros n b' Hn Hlt. apply (Hl (S n) b' Hn). lia.
Qed.
End Splice.

(** ** The invariant across a splice *)
Section Install.
Context (cs start : Z) (F : Prop).
Hypothesis Hcs : 0 < cs ≤ UINT32_MAX.
Abbreviation inv := (flush_inv cs start).
Abbreviation hok := (head_ok cs F).

Definition with_heap (h : list FrozenSlice) (s : SliceChunk) : SliceChunk := set_frozen h (sc_frozen s) s.

(** Storing a slice nothing refers to yet. *)
Lemma inv_heap P C R s v h :
  inv P C R s v → (∀ a, a ∈ sc_frozen s → h !! a = slice_at s a) →
  inv P C R (with_heap h s) v ∧ (∀ l, (∀ a, a ∈ l → a ∈ sc_frozen s) → slices (with_heap h s) l = slices s l).
Proof.
  intros Hinv Hh. assert (∀ l, (∀ a, a ∈ l → a ∈ sc_frozen s) → slices (with_heap h s) l = slices s l) as Hsl.
  { intros l Hl. induction l as [|a l IH]; [done|]. rewrite !slices_cons, IH by (intros; apply Hl; by right).
    rewrite <- (Hh a (Hl a ltac:(by left))). done. }
  split; [|done]. destruct (fi_frozen _ _ _ _ _ _ _ Hinv) as (N & Efz & HN).
  assert (∀ a, a ∈ C ++ R → a ∈ sc_frozen s) as Hin by (intros; rewrite Efz; set_solver).
  assert (∀ a f, a ∈ R → slice_at (with_heap h s) a = Some f → slice_at s a = Some f) as Hback.
  { intros a f Ha. rewrite <- (Hh a) by (apply Hin; set_solver). done. }
  assert (frozen_slices (with_heap h s) = frozen_slices s) as Hfs by (apply (Hsl (sc_frozen s)); done).
  assert (∀ l, (∀ a, a ∈ l → a ∈ C ++ R) → slices (with_heap h s) l = slices s l) as Hsl' by (intros; apply Hsl; auto).
  destruct Hinv as [[[? ? ? ? ? ? ? bo_frozen] Hview] Hpub Hn _ Hpend Htail Hland Hprep Hdist Hhead Hrest]. split; cbn [sc_boundaries sc_frozen sc_dirty with_heap set_frozen]; try done.
  - split; [split; try done|].
    + rewrite Forall_forall in *. intros a Ha. destruct (bo_frozen a Ha) as (f & Hf & ?). exists f. split; [|done].
      unfold slice_at. cbn. by rewrite Hh.
    + intros k c Hk. unfold local_at. rewrite Hfs. by apply Hview.
  - exists N. split; [done|]. rewrite Forall_forall in *. intros a Ha. destruct (HN a Ha) as (f & Hf & ?). exists f. split; [|done].
    unfold slice_at. cbn. rewrite Hh; [done|]. rewrite Efz. set_solver.
  - intros k c Hk. apply Hpend. unfold pending_at in *. by rewrite Hfs in Hk.
  - intros k Hk. rewrite Hsl' by done. by apply Htail.
  - intros k c. rewrite !Hsl' by set_solver. apply Hland.
  - intros a f id Ha Hf. eapply Hprep; [done|]. by apply Hback.
  - intros a a' f f' id Ha Ha' Hf Hf'. apply Hdist; try done; by apply Hback.
  - intros a f Ha Hf. eapply Hhead; [done|]. apply Hback; [|done]. by apply head_elem.
  - intros a f Ha Hf. eapply Hrest; [done|]. apply Hback; [|done]. by apply tail_elem.
Qed.
(** *** Groups ready to replace their sources *)
Record spliceable (V : Z → ascii) (R : list nat) (s : SliceChunk) (sources : list nat) (inserts : list (Z * nat)) : Prop := {
  sp_once : NoDup inserts.*2;
  sp_new : ∀ j a, (j, a) ∈ inserts → 0 ≤ j < zlen R ∧ a ∉ sc_frozen s ∧
    ∃ f, slice_at s a = Some f ∧ slice_ok cs f ∧ untouched f ∧ fs_prepared_id f = None ∧ ∀ k c, slice_byte f k = Some c → c = V k;
  sp_newest : ∀ j a f, (j, a) ∈ inserts → slice_at s a = Some f → ∀ n b k, R !! n = Some b → j < Z.of_nat n → is_Some (slice_byte f k) → misses s k b;
  sp_apart : ∀ x y f k, x ∈ inserts → y ∈ inserts → x.2 ≠ y.2 → slice_at s x.2 = Some f → is_Some (slice_byte f k) → misses s k y.2;
  sp_sources : ∀ a f k, a ∈ sources → slice_at s a = Some f → is_Some (slice_byte f k) →
    ∃ x g, x ∈ inserts ∧ slice_at s x.2 = Some g ∧ is_Some (slice_byte g k);
}.

Lemma splice_bytes V R s v sources inserts k :
  durable cs start V [] R s v → spliceable V R s sources inserts →
  let R' := splice 0 R sources inserts in
  (∀ c, frozen_at (slices s R) k = Some c → frozen_at (slices s R') k = Some c) ∧
  (∀ c, frozen_at (slices s R') k = Some c → c = V k).
Proof.
  intros Hdur Hsp. cbn zeta. set (R' := splice 0 R sources inserts).
  assert (∀ c, frozen_at (slices s R) k = Some c → c = V k) as HV by (intros c Hc; specialize (Hdur k); cbn [app] in Hdur; rewrite Hc in Hdur; cbn in Hdur; by subst).
  destruct (decide (Exists (λ x, is_Some (slice_at s x.2 ≫= λ f, slice_byte f k)) inserts)) as [Hex|Hno].
  - apply Exists_exists in Hex as ([j a] & Hin & [c Hc]). cbn [snd] in Hc. destruct (slice_at s a) as [f|] eqn:Ef; [|discriminate Hc]. change (slice_byte f k = Some c) in Hc.
    destruct (sp_new _ _ _ _ _ Hsp j a Hin) as (Hj & _ & f' & Ef' & _ & _ & _ & Hcar). assert (f' = f) as -> by congruence.
    assert (c = V k) as -> by (by apply Hcar).
    assert (frozen_at (slices s R') k = Some (V k)) as ->.
    { eapply splice_inside; [apply (sp_once _ _ _ _ _ Hsp)|exact Hin|exact Ef|done|lia| |].
      - intros y Hy Hne. eapply (sp_apart _ _ _ _ _ Hsp (j, a) y); done.
      - intros n b Hb Hlt. eapply (sp_newest _ _ _ _ _ Hsp j a f Hin Ef n b k Hb); [lia|done]. }
    split; [intros c Hc'%HV; by subst|by intros c [= <-]].
  - assert (∀ x, x ∈ inserts → misses s k x.2) as Hmi.
    { intros x Hx f Hf. destruct (slice_byte f k) eqn:Eb; [|done]. destruct Hno. apply Exists_exists. exists x. rewrite Hf. cbn. by rewrite Eb. }
    assert (frozen_at (slices s R') k = frozen_at (slices s R) k) as ->; [|done]. apply splice_outside; [|done]. intros a Ha f Hf.
    destruct (slice_byte f k) eqn:Eb; [|done]. destruct (sp_sources _ _ _ _ _ Hsp a f k Ha Hf ltac:(by rewrite Eb)) as (x & g & Hx & Hg & [c' Hc']).
    rewrite (Hmi x Hx g Hg) in Hc'. done.
Qed.

Section Spliced.
Context (V : Z → ascii) (R : list nat) (s : SliceChunk) (v : Published) (sources : list nat) (inserts : list (Z * nat)).
Hypothesis Hinv : inv hok [] R s v.
Hypothesis Hdur : durable cs start V [] R s v.
Hypothesis Hsp : spliceable V R s sources inserts.
Hypothesis Hsrc : ∀ a, a ∈ sources → a ∈ R.
Let R' : list nat := splice 0 R sources inserts.
Let s' : SliceChunk := set_frozen (sc_heap s) (splice 0 (sc_frozen s) sources inserts) s.

Definition group_slice (f : FrozenSlice) : Prop :=
  slice_ok cs f ∧ untouched f ∧ fs_prepared_id f = None ∧ ∀ k c, slice_byte f k = Some c → c = V k.
Lemma spliced_elem a f : a ∈ R' → slice_at s a = Some f → (a ∈ R ∧ a ∉ sources) ∨ group_slice f.
Proof.
  intros [?|(j & _ & Hin)]%elem_splice Hf; [by left|right]. destruct (sp_new _ _ _ _ _ Hsp j a Hin) as (_ & _ & g & Hg & ?).
  assert (g = f) as -> by congruence. done.
Qed.
Lemma spliced_frozen N : sc_frozen s = R ++ N → sc_frozen s' = R' ++ N ∧ NoDup (R' ++ N).
Proof.
  intros Efz. pose proof (bo_nodup _ _ _ (so_buffers _ _ (fi_session _ _ _ _ _ _ _ Hinv))) as Hnd. rewrite Efz in Hnd.
  apply NoDup_app in Hnd as (HndR & Hdisj & HndN). split.
  - cbn. rewrite Efz, splice_app. f_equal. apply splice_idle; [intros a Ha Hs%Hsrc; by eapply Hdisj|]. apply Forall_forall. intros [j a] Hin.
    destruct (sp_new _ _ _ _ _ Hsp j a Hin) as (? & _). cbn. lia.
  - assert (∀ a, a ∈ inserts.*2 → a ∉ sc_frozen s) as Hfresh.
    { intros a ([j b] & -> & Hin)%list_elem_of_fmap. by destruct (sp_new _ _ _ _ _ Hsp j b Hin) as (_ & ? & _). }
    apply NoDup_app. split_and!; [| |done].
    + apply splice_NoDup; [apply (sp_once _ _ _ _ _ Hsp)|done|]. intros a Ha Hi. apply (Hfresh a Hi). rewrite Efz. set_solver.
    + intros a [[? _]|(j & _ & Hin)]%elem_splice HaN; [by eapply Hdisj|]. destruct (sp_new _ _ _ _ _ Hsp j a Hin) as (_ & Hx & _).
      apply Hx. rewrite Efz. set_solver.
Qed.
Lemma spliced_head a : head R' = Some a → a ∈ R → head R = Some a ∨ a ∈ tail R.
Proof. destruct R as [|b l]; [by intros _ ?%elem_of_nil|]. intros _ [->|?]%elem_of_cons; [by left|by right]. Qed.
Lemma spliced_tail a : a ∈ tail R' → a ∈ R → a ∉ sources → a ∈ tail R.
Proof.
  intros Ht Ha Hs. destruct (fi_frozen _ _ _ _ _ _ _ Hinv) as (N & Efz & _). destruct (spliced_frozen N Efz) as [_ Hnd].
  unfold R' in *. destruct R as [|b l]; [by apply elem_of_nil in Ha|]. apply elem_of_cons in Ha as [->|?]; [|done]. exfalso.
  cbn [splice] in Ht, Hnd. rewrite bool_decide_eq_false_2 in Ht, Hnd by done. apply NoDup_cons in Hnd as [Hnd _]. apply Hnd. cbn in Ht. set_solver.
Qed.

Lemma spliced_session : session_ok cs s'.
Proof.
  destruct (fi_frozen _ _ _ _ _ _ _ Hinv) as (N & Efz & HN). cbn [app] in Efz. destruct (spliced_frozen N Efz) as [Efz' Hnd].
  destruct (fi_session _ _ _ _ _ _ _ Hinv) as [[? ? ? ? ? ? _ Hfz] Hview]. split; [split; try done|].
  - by rewrite Efz'.
  - rewrite Efz'. rewrite Efz in Hfz. apply Forall_app in Hfz as [HR HNok]. apply Forall_app. split; [|done]. rewrite Forall_forall in *.
    intros a [[Ha _]|(j & _ & Hin)]%elem_splice; [by apply HR|]. destruct (sp_new _ _ _ _ _ Hsp j a Hin) as (_ & _ & f & ? & ? & _). by exists f.
  - intros k c Hk%Hview. unfold local_at, frozen_slices in *. rewrite Efz'. rewrite Efz in Hk. change (slice_at s') with (slice_at s).
    change (sc_active s') with (sc_active s). rewrite omap_app, frozen_at_app in *. fold (slices s R) in Hk. fold (slices s R').
    destruct (splice_bytes V R s v sources inserts k Hdur Hsp) as [Hb _]. fold R' in Hb.
    destruct (dirty_at (sc_active s) k); [done|]. cbn [over] in *. destruct (frozen_at (omap (slice_at s) N) k); [done|]. by apply Hb.
Qed.

Lemma spliced_pending k c :
  pending_at s' k c → dirty_at (sc_dirty s) k = None → c = published cs start v (sc_boundaries s) k.
Proof.
  destruct (fi_frozen _ _ _ _ _ _ _ Hinv) as (N & Efz & _). cbn [app] in Efz. destruct (spliced_frozen N Efz) as [Efz' _].
  assert (∀ l a f, a ∈ sc_frozen s → slice_at s a = Some f → slice_byte f k = Some l → pending_at s k l) as Hold.
  { intros l a f Ha Hf Hl. right. exists f. split; [|done]. apply list_elem_of_omap. by exists a. }
  pose proof (fi_pending _ _ _ _ _ _ _ Hinv k) as Hpend. intros [?|(f & (a & Ha & Hf)%list_elem_of_omap & Hc)] Hd; [apply Hpend; [by left|done]|].
  rewrite Efz' in Ha. apply elem_of_app in Ha as [Ha|Ha]; [|apply Hpend; [|done]; eapply Hold; [|exact Hf|exact Hc]; rewrite Efz; set_solver].
  destruct (spliced_elem a f Ha Hf) as [[? _]|(_ & _ & _ & HV)]; [apply Hpend; [|done]; eapply Hold; [|exact Hf|exact Hc]; rewrite Efz; set_solver|].
  rewrite (HV k c Hc), <- (Hdur k). cbn [app]. destruct (frozen_at (slices s R) k) as [x|] eqn:E; [|done]. cbn. apply Hpend; [|done].
  apply frozen_at_elem in E as (g & (b & Hb & Hg)%list_elem_of_omap & Hx). eapply Hold; [|exact Hg|exact Hx]. rewrite Efz. set_solver.
Qed.

(** Replacing the sources by their groups keeps the invariant and every byte. *)
Lemma inv_splice :
  inv hok [] R' s' v ∧ durable cs start V [] R' s' v ∧ (∀ k, contents cs start s' v k = contents cs start s v k).
Proof.
  pose proof (λ k, splice_bytes V R s v sources inserts k Hdur Hsp) as Hb. cbn zeta in Hb. fold R' in Hb.
  pose proof spliced_session as Hsess. pose proof spliced_pending as Hpd.
  destruct (fi_frozen _ _ _ _ _ _ _ Hinv) as (N & Efz & HN). cbn [app] in Efz. destruct (spliced_frozen N Efz) as [Efz' _].
  assert (∀ l, slices s' l = slices s l) as Hsl by done. assert (∀ a, slice_at s' a = slice_at s a) as Hat by done.
  split_and!; [|intros k; cbn [app]; specialize (Hdur k); cbn [app] in Hdur; rewrite Hsl; destruct (Hb k) as [B1 B2];
    destruct (frozen_at (slices s R) k) eqn:E; [by rewrite (B1 _ eq_refl)|destruct (frozen_at (slices s R') k); [by rewrite (B2 _ eq_refl)|done]]|done].
  destruct Hinv as [_ Hpub Hn _ _ Htail Hland Hprep Hdist Hhead Hrest]. split; cbn [sc_boundaries s' set_frozen]; try done.
  - exists N. split; [done|]. eapply Forall_impl; [exact HN|]. intros a (f & ? & ?). exists f. by rewrite Hat.
  - intros k [?|[[c Hc] ?]]%Htail; [by left|right]. split; [|done]. cbn [app] in *. rewrite Hsl. destruct (Hb k) as [B1 _]. rewrite (B1 _ Hc). by eexists.
  - intros a f id Ha Hf Hid. rewrite Hat in Hf. destruct (spliced_elem a f Ha Hf) as [[? _]|(_ & _ & ? & _)]; [by eapply Hprep|congruence].
  - intros a a' f f' id Ha Ha' Hf Hf' Hid Hid'. rewrite Hat in Hf, Hf'. destruct (spliced_elem a f Ha Hf) as [[? _]|(_ & _ & ? & _)]; [|congruence].
    destruct (spliced_elem a' f' Ha' Hf') as [[? _]|(_ & _ & ? & _)]; [by eapply Hdist|congruence].
  - intros a f Ha Hf. rewrite Hat in Hf.
    assert (untouched f ∧ unindexed v f → hok v (sc_boundaries s) f) as Hfresh by (intros [(E1 & E2 & E3) ?]; unfold head_ok; by rewrite E1, E2, E3).
    destruct (spliced_elem a f (head_elem _ _ Ha) Hf) as [[HaR _]|(_ & ? & Hp & _)]; [|apply Hfresh; split; [done|]; intros id; congruence].
    destruct (spliced_head a Ha HaR); [by eapply Hhead|by eapply Hfresh, Hrest].
  - intros a f Ha Hf. rewrite Hat in Hf. destruct (spliced_elem a f (tail_elem _ _ Ha) Hf) as [[HaR Hs]|(_ & ? & Hp & _)].
    + eapply Hrest; [|done]. by apply spliced_tail.
    + split; [done|]. intros id; congruence.
Qed.
End Spliced.

End Install.

(** ** Building the groups *)
Section Prepare.
Context {W : Type} `{BackendLaws W} (index cs start : Z).
Hypothesis Hcs : 0 < cs ≤ UINT32_MAX.
Hypothesis Hstart : CalculateChunkStartOffset index cs = Ok start.
Abbreviation inv := (flush_inv cs start).
Abbreviation hok := (head_ok cs faults).
Abbreviation progress := (progress cs start).

(** The session only gains slices; an address nothing pends on stays that way. *)
Record later (s s' : SliceChunk) : Prop := {
  la_slice : ∀ a f, slice_at s a = Some f → slice_at s' a = Some f;
  la_heap : (length (sc_heap s) ≤ length (sc_heap s'))%nat;
  la_frozen : ∀ a, (a < length (sc_heap s))%nat → a ∉ sc_frozen s → a ∉ sc_frozen s';
  la_epoch : sc_truncate_epoch s' = sc_truncate_epoch s;
}.
#[export] Instance later_preorder : PreOrder later.
Proof. split; [by intros s; split|]. intros s1 s2 s3 [? ? F1 ?] [? ? F2 ?]. split; eauto; try lia; try congruence. intros a Ha Hn. apply F2; [lia|]. by apply F1. Qed.
Lemma grown_later s s' : grown s s' → later s s'.
Proof.
  intros Hg. split; [intros; by eapply grown_lookup| | |apply (gr_epoch _ _ Hg)].
  - destruct (gr_heap _ _ Hg) as (fresh & -> & _). rewrite length_app. lia.
  - intros a Ha Hn. destruct (gr_frozen _ _ Hg) as (new & -> & _ & Hnew). rewrite Forall_forall in Hnew. intros [?|Hin%Hnew]%elem_of_app; [done|lia].
Qed.

Definition push (f : FrozenSlice) (s : SliceChunk) : SliceChunk := set_frozen (sc_heap s ++ [f]) (sc_frozen s) s.
Lemma push_later f s : later s (push f s).
Proof.
  split; try done; [|cbn; rewrite length_app; lia]. intros a g Ha. unfold slice_at, push in *. cbn. by apply lookup_app_l_Some.
Qed.
Lemma progress_push f R V st0 s w : progress hok [] R V st0 (s, w) → progress hok [] R V st0 (push f s, w).
Proof.
  intros (Hinv & Hdur & Htr & [Hb Hpa]). cbn [fst snd] in *. pose proof (frozen_valid _ _ _ _ _ _ _ Hinv) as Hval. rewrite Forall_forall in Hval.
  destruct (inv_heap cs start Hcs hok [] R s (view w) (sc_heap s ++ [f]) Hinv) as [Hinv' Hsl].
  { intros a Ha. destruct (Hval a Ha) as [g Hg]. rewrite Hg. by apply lookup_app_l_Some. }
  destruct (fi_frozen _ _ _ _ _ _ _ Hinv) as (N & Efz & _). split_and!; [done| | |].
  - intros k. cbn [app]. change (sc_boundaries (push f s, w).1) with (sc_boundaries s). rewrite <- (Hdur k). cbn [app fst snd]. f_equal.
    change (push f s) with (with_heap (sc_heap s ++ [f]) s). rewrite Hsl; [done|]. intros a Ha. rewrite Efz. set_solver.
  - etrans; [exact Htr|]. exists []. by rewrite app_nil_r.
  - split; [exact Hb|]. intros a (g & id & Hg & ?)%Hpa. exists g, id. split; [|done]. by apply (la_slice _ _ (push_later f s)).
Qed.
Lemma progress_quiet R V st0 s w st :
  progress hok [] R V st0 (s, w) → quiet cs (s, w) st → progress hok [] R V st0 st ∧ later s st.1.
Proof.
  intros (Hinv & Hdur & Htr & [Hb Hpa]) (ws & Harr & Hnn & Hs & Hv). destruct st as [s' w']. cbn [fst snd] in *. subst s'.
  destruct (inv_settles cs start Hcs _ _ _ _ _ _ (head_ok_stable cs faults) Hinv Hv) as (Hinv2 & Hc2 & Hd2).
  pose proof (accept_writes_spec cs ws s (fi_session _ _ _ _ _ _ _ Hinv2) Hnn) as Hacc. pose proof (ac_grown _ _ _ _ Hacc) as Hg.
  split; [|by apply grown_later]. split_and!; cbn [fst snd].
  - by eapply inv_accepts.
  - intros k. rewrite (slices_grown s _ ([] ++ R) Hg) by (by eapply cand_valid). rewrite (gr_boundaries _ _ Hg). by apply Hd2.
  - etrans; [exact Htr|]. exists ws. split; [done|]. intros k. cbn. unfold contents at 1.
    rewrite (ac_dirty _ _ _ _ Hacc), (gr_boundaries _ _ Hg), written_default. apply written_ext. intros k'. fold (contents cs start s (view w') k'). by rewrite Hc2.
  - split; cbn [fst] in *; [by rewrite (grown_points _ _ Hg)|]. intros a Ha. by eapply prepared_grown, Hpa.
Qed.
(** A group as it is stored: where it lies, what it carries, and that it comes after every slice it overlays. *)
Definition built (V : Z → ascii) (pending : list PendingView) (s : SliceChunk) (x : Z * GroupBuild) (i : Z * nat) : Prop :=
  0 ≤ i.1 < zlen pending ∧ i.2 ∉ sc_frozen s ∧ ∃ f, slice_at s i.2 = Some f ∧ group_slice cs V f ∧
  fs_pos f = gb_pos x.2 ∧ fs_pos f + fs_visible_len f = gb_record_end x.2 ∧
  ∀ n v, pending !! n = Some v → touches x.2 (pv_slice v) → Z.of_nat n ≤ i.1.
Lemma built_later V pending s s' x i : later s s' → built V pending s x i → built V pending s' x i.
Proof.
  intros Hla (? & Hfz & f & Hf & ?). split_and!; try done; try lia; [|exists f; split; [by apply (la_slice _ _ Hla)|done]].
  apply (la_frozen _ _ Hla); [|done]. apply lookup_lt_Some in Hf. done.
Qed.

Lemma group_payload V pending g payload (p : Z → ascii) :
  Forall (λ v, slice_ok cs (pv_slice v)) pending → group_ok cs (zlen pending) g →
  zlen payload = gb_record_end g.2 - gb_pos g.2 →
  (∀ k, gb_pos g.2 ≤ k < gb_record_end g.2 → byte_at payload (k - gb_pos g.2) = Some (p k)) →
  (∀ k, default (p k) (frozen_at (pv_slice <$> pending) k) = V k) →
  let '(g', payload') := overlay_pending 0 pending g.2 payload in
  let f := new_frozen (gb_pos g') payload' (zlen payload') (clamp (gb_dirty_end g') (gb_pos g') (gb_record_end g') - gb_pos g') true in
  0 ≤ gb_insert_after g' < zlen pending ∧ group_slice cs V f ∧ fs_pos f = gb_pos g.2 ∧ fs_pos f + fs_visible_len f = gb_record_end g.2 ∧
  ∀ n v, pending !! n = Some v → touches g.2 (pv_slice v) → Z.of_nat n ≤ gb_insert_after g'.
Proof.
  intros Hp ([q Hq] & Hpos & Hb & He & Hd & Hi) Hl Hbytes HV.
  pose proof (overlay_pending_spec cs 0 pending g.2 payload Hp Hd Hl) as [Op Oe Od Ol Oa On Ob].
  destruct (overlay_pending 0 pending g.2 payload) as [g' payload']. cbn [fst snd] in *. cbn zeta.
  rewrite Op, Oe, Od, Ol in *. assert (clamp (gb_record_end g.2) (gb_pos g.2) (gb_record_end g.2) = gb_record_end g.2) as ->.
  { unfold clamp. rewrite (proj2 (Z.ltb_ge _ _)), (proj2 (Z.ltb_ge _ _)) by lia. done. }
  unfold kRmwWindowBytes in *. split_and!; cbn; try lia; try done. unfold group_slice, slice_ok, untouched.
  split_and!; cbn; unfold kMaxActiveSliceBytes; try lia; try done.
  intros k c [Hk Hc]%slice_byte_Some. cbn in Hk, Hc. rewrite Ob, Hbytes in Hc by lia. rewrite <- (HV k). destruct (frozen_at _ k); cbn in *; congruence.
Qed.

Lemma build_candidates_spec R V st0 pending groups s w :
  progress hok [] R V st0 (s, w) → Forall (λ v, slice_ok cs (pv_slice v)) pending →
  (pv_slice <$> pending = slices s R) → Forall (group_ok cs (zlen pending)) groups →
  wp (build_candidates index cs pending groups) (λ r st, progress hok [] R V st0 st ∧ later s st.1 ∧ match r with
    | Ok inserts => Forall2 (built V pending st.1) groups inserts ∧ NoDup inserts.*2 ∧ Forall (λ i, length (sc_heap s) ≤ i.2)%nat inserts
    | Err _ => excused cs start st
    end) (s, w).
Proof.
  intros Hpr Hp Hsl Hg. revert s w Hpr Hsl. induction Hg as [|[b g] groups Hgok _ IH]; intros s w Hpr Hsl; cbn [build_candidates].
  { apply wp_ret. split_and!; try done. constructor. }
  pose proof Hpr as (Hinv & Hdur & _). cbn [fst snd] in Hinv, Hdur. pose proof Hgok as (_ & Hpos & Hb & He & _). cbn [fst snd] in *.
  apply wp_bind. eapply wp_mono; [|eapply ReadCommittedRange_spec; [done|exact Hstart|apply (fi_published _ _ _ _ _ _ _ Hinv)|lia|lia|lia]].
  intros r [s1 w1] [Hq Hr]. destruct (progress_quiet R V st0 s w _ Hpr Hq) as [Hpr1 Hla1]. cbn [fst] in Hla1.
  destruct r as [payload|e]; cbn beta iota.
  2:{ split_and!; try done. destruct Hr as [?|Hbe]; [by left|]. do 4 right. destruct Hq as (ws & _ & Hnn & Es & _). cbn in *. subst s1.
      rewrite (gr_error _ _ (ac_grown _ _ _ _ (accept_writes_spec cs ws s (fi_session _ _ _ _ _ _ _ Hinv) Hnn))), Hbe. by eexists. }
  destruct Hr as [Hlen Hbytes].
  pose proof (group_payload V pending (b, g) payload (published cs start (view w) (sc_boundaries s)) Hp Hgok Hlen) as Hpay.
  cbn [fst snd] in Hpay. destruct (overlay_pending 0 pending g payload) as [g' payload'].
  destruct Hpay as (Hi & Hgs & Hfp & Hfe & Hnew).
  { intros k Hk. rewrite Hbytes by (done || lia). do 2 f_equal. lia. }
  { intros k. rewrite Hsl. apply (Hdur k). }
  set (f := new_frozen _ _ _ _ _) in *. apply wp_bind, wp_get. cbn [fst]. apply wp_bind, wp_modify. fold (push f s1). cbn [fst snd].
  pose proof (progress_push f R V st0 s1 w1 Hpr1) as Hpr2. assert (later s (push f s1)) as Hla2 by (etrans; [exact Hla1|apply push_later]).
  assert (pv_slice <$> pending = slices (push f s1) R) as Hsl2.
  { rewrite Hsl. pose proof (cand_valid _ _ _ _ _ _ _ Hinv) as Hval. cbn [app] in Hval. clear -Hval Hla2. induction Hval as [|a l [x Hx] _ IHl]; [done|].
    rewrite !slices_cons, (la_slice _ _ Hla2 a x Hx), Hx. by f_equal. }
  apply wp_bind. eapply wp_mono; [|by apply IH]. intros r [s3 w3] (Hpr3 & Hla3 & Hr). cbn [fst] in Hla3, Hr.
  destruct r as [others|e]; [|split_and!; [done|by etrans|done]]. destruct Hr as (Hall & Hnd & Hge). apply wp_ret. split_and!; [done|by etrans| | |].
  - constructor; [|done]. eapply built_later; [exact Hla3|]. split_and!; cbn [fst snd]; try lia.
    + pose proof Hpr1 as (Hinv1 & _). pose proof (frozen_valid _ _ _ _ _ _ _ Hinv1) as Hval. rewrite Forall_forall in Hval. cbn [fst] in Hval.
      intros Hin. destruct (Hval _ Hin) as [x Hx]. apply lookup_lt_Some in Hx. lia.
    + exists f. split; [|done]. unfold slice_at, push. cbn. by apply list_lookup_middle.
  - cbn. constructor; [|done]. rewrite Forall_forall in Hge. intros (y & E & Hy%Hge)%list_elem_of_fmap. cbn in Hy. rewrite length_app in Hy. cbn in Hy. lia.
  - constructor; [cbn; apply (la_heap _ _ Hla1)|]. eapply Forall_impl; [exact Hge|]. intros y Hy. cbn in Hy. rewrite length_app in Hy. pose proof (la_heap _ _ Hla1). cbn in *. lia.
Qed.

Lemma views_of R s :
  Forall (λ a, is_Some (slice_at s a)) R →
  let pending := omap (λ a, mkView a <$> slice_at s a) R in
  pv_candidate <$> pending = R ∧ pv_slice <$> pending = slices s R.
Proof.
  cbn zeta. induction 1 as [|a R [f Hf] _ [IH1 IH2]]; [done|]. rewrite slices_cons. cbn [omap list_omap]. unfold slice_at in *. rewrite Hf. cbn. split; f_equal; done.
Qed.
Lemma view_lookup pending R s n a :
  pv_candidate <$> pending = R → pv_slice <$> pending = slices s R → Forall (λ a, is_Some (slice_at s a)) R →
  R !! n = Some a → ∃ f, pending !! n = Some (mkView a f) ∧ slice_at s a = Some f.
Proof.
  intros Hc Hs Hval. revert pending n Hc Hs. induction Hval as [|b R [f Hf] _ IH]; intros [|v pending] [|n] Hc Hs; cbn in *; try done.
  - intros [= ->]. injection Hc as Hc _. unfold slices in Hs. cbn in Hs. rewrite Hf in Hs. injection Hs as Hs _. exists f. destruct v; cbn in *; by subst.
  - injection Hc as Hc Hc'. unfold slices in Hs. cbn in Hs. rewrite Hf in Hs. injection Hs as Hs Hs'. by apply IH.
Qed.

Lemma windows_apart n x y k :
  group_ok cs n x → group_ok cs n y → x.1 ≠ y.1 → gb_pos x.2 ≤ k < gb_record_end x.2 → ¬ gb_pos y.2 ≤ k < gb_record_end y.2.
Proof.
  intros ([p Hp] & _ & ? & ? & _) ([q Hq] & _ & ? & ? & _) Hne Hx Hy. unfold kRmwWindowBytes in *. lia.
Qed.
Lemma group_slice_range V f (g : Z * GroupBuild) k :
  group_slice cs V f → fs_pos f = gb_pos g.2 → fs_pos f + fs_visible_len f = gb_record_end g.2 →
  is_Some (slice_byte f k) ↔ gb_pos g.2 ≤ k < gb_record_end g.2.
Proof.
  intros [Hok _] Hp He. split; [intros [c [? _]%slice_byte_Some]; lia|]. intros Hk. eapply slice_byte_inside; [exact Hok|lia].
Qed.

(** The groups that were built can replace their sources. *)
Lemma built_spliceable V R s s' pending inserts :
  let groups := window_groups pending in
  pv_candidate <$> pending = R → pv_slice <$> pending = slices s R → Forall (λ a, is_Some (slice_at s a)) R →
  Forall (λ v, slice_ok cs (pv_slice v)) pending → later s s' →
  Forall2 (built V pending s') groups inserts → NoDup inserts.*2 →
  spliceable cs V R s' (group_sources pending groups) inserts.
Proof.
  cbn zeta. intros Hc Hs Hval Hp Hla Hall Hnd. destruct (window_groups_ok cs pending Hp) as (Hkeys & Hgok & Hsrc).
  assert (zlen pending = zlen R) as Hlen by (rewrite <- Hc; unfold zlen; by rewrite length_fmap).
  assert (∀ i, i ∈ inserts → ∃ x, x ∈ window_groups pending ∧ built V pending s' x i) as Hback.
  { intros i [n Hn]%list_elem_of_lookup. destruct (Forall2_lookup_r _ _ _ _ _ Hall Hn) as (x & Hx & ?). exists x. split; [by eapply list_elem_of_lookup_2|done]. }
  rewrite Forall_forall in Hgok. split; [done| | | |].
  - intros j a Hin. destruct (Hback _ Hin) as (x & _ & ? & ? & f & ? & Hgs & _). cbn in *. split_and!; try done; try lia. by exists f.
  - intros j a f Hin Hf n b k Hb Hlt Hk f' Hf'. destruct (Hback _ Hin) as (x & Hx & _ & _ & g & Hg & Hgs & Hgp & Hge & Hnew). cbn [fst snd] in *. assert (g = f) as -> by congruence.
    destruct (view_lookup pending R s n b Hc Hs Hval Hb) as (fb & Hv & Hfb). pose proof (la_slice _ _ Hla b fb Hfb) as Hfb'. assert (f' = fb) as -> by congruence.
    apply (untouched_byte x.2); [|by apply (group_slice_range V f x k Hgs Hgp Hge)]. intros Ht. specialize (Hnew n _ Hv Ht). lia.
  - intros x y f k Hx Hy Hne Hf Hk f' Hf'. apply list_elem_of_lookup in Hx as [n Hn], Hy as [m Hm].
    destruct (Forall2_lookup_r _ _ _ _ _ Hall Hn) as (gx & Hgx & _ & _ & f1 & Hf1 & Hgs1 & Hp1 & He1 & _).
    destruct (Forall2_lookup_r _ _ _ _ _ Hall Hm) as (gy & Hgy & _ & _ & f2 & Hf2 & Hgs2 & Hp2 & He2 & _).
    assert (f1 = f) as -> by congruence. assert (f2 = f') as -> by congruence.
    destruct (slice_byte f' k) eqn:E; [|done]. exfalso.
    eapply (windows_apart _ gx gy k); [by apply Hgok; eapply list_elem_of_lookup_2|by apply Hgok; eapply list_elem_of_lookup_2| | |].
    + intros Eq. apply Hne. assert (n = m) as <-; [|assert (x = y) as -> by congruence; done]. eapply NoDup_lookup; [exact Hkeys| |]; rewrite list_lookup_fmap; [by rewrite Hgx|rewrite Hgy, Eq; done].
    + by apply (group_slice_range V f gx k Hgs1 Hp1 He1).
    + apply (group_slice_range V f' gy k Hgs2 Hp2 He2). by rewrite E.
  - intros a f k (v & -> & [Hv Hg]%elem_of_filtered)%list_elem_of_fmap Hf [c [Hk _]%slice_byte_Some].
    apply andb_true_iff in Hg as [Hg Hfind%bool_decide_eq_true]. destruct (Hsrc v Hv (conj Hg Hfind)) as (b & g & Hin & Hi1 & Hi2).
    assert (f = pv_slice v) as ->.
    { apply list_elem_of_lookup in Hv as [n Hn]. assert (R !! n = Some (pv_candidate v)) as HR by (rewrite <- Hc, list_lookup_fmap, Hn; done).
      destruct (view_lookup pending R s n _ Hc Hs Hval HR) as (fv & Hv' & Hfv). rewrite Hn in Hv'. injection Hv' as ->. cbn in *.
      pose proof (la_slice _ _ Hla _ _ Hfv). congruence. }
    apply list_elem_of_lookup in Hin as [n Hn]. destruct (Forall2_lookup_l _ _ _ _ _ Hall Hn) as (i & Hi & _ & _ & g' & Hg' & Hgs & Hp' & He' & _).
    exists i, g'. split_and!; [by eapply list_elem_of_lookup_2|done|]. apply (group_slice_range V g' (b, g) k Hgs Hp' He'). cbn. lia.
Qed.

(** Coalescing succeeds unless a read of the published bytes fails, and changes no byte. *)
Lemma PrepareWindowCandidates_spec n R V st0 s w :
  progress hok [] R V st0 (s, w) → sc_frozen s = R →
  wp (PrepareWindowCandidates index cs (S n) R) (λ r st, match r with
    | Ok R' => progress hok [] R' V st0 st
    | Err _ => progress hok [] R V st0 st ∧ excused cs start st
    end) (s, w).
Proof.
  intros Hpr Efz. cbn [PrepareWindowCandidates]. apply wp_bind, wp_get. cbn [fst]. unfold pending_views. rewrite Efz.
  set (pending := omap _ R). pose proof Hpr as (Hinv & _). cbn [fst snd] in Hinv. pose proof (frozen_valid _ _ _ _ _ _ _ Hinv) as Hval. rewrite Efz in Hval.
  destruct (views_of R s Hval) as [Hc Hs]. fold pending in Hc, Hs.
  assert (Forall (λ v, slice_ok cs (pv_slice v)) pending) as Hp.
  { change (Forall (slice_ok cs ∘ pv_slice) pending). rewrite <- Forall_fmap, Hs, <- Efz. by eapply buffers_slices, so_buffers, fi_session. }
  destruct (group_sources pending (window_groups pending)) as [|a0 rest] eqn:Esrc; [by apply wp_ret|]. rewrite <- Esrc. clear Esrc a0 rest.
  destruct (window_groups_ok cs pending Hp) as (_ & Hgok & _).
  apply wp_bind. eapply wp_mono; [|by eapply build_candidates_spec]. intros r [s1 w1] (Hpr1 & Hla & Hr). cbn [fst] in Hla, Hr.
  destruct r as [inserts|e]; [|by split]. destruct Hr as (Hall & Hnd & _). apply wp_bind, wp_get. cbn [fst].
  rewrite (la_epoch _ _ Hla), Z.eqb_refl. cbn [negb]. apply wp_bind, wp_modify, wp_ret. rewrite Hc. cbn [fst snd].
  pose proof (built_spliceable V R s s1 pending inserts Hc Hs Hval Hp Hla Hall Hnd) as Hsp.
  destruct Hpr1 as (Hinv1 & Hdur1 & Htr1 & Has1). cbn [fst snd] in *.
  assert (∀ a, a ∈ group_sources pending (window_groups pending) → a ∈ R) as Hsrc.
  { intros a (v & -> & [Hv _]%elem_of_filtered)%list_elem_of_fmap. rewrite <- Hc. apply list_elem_of_fmap. by exists v. }
  destruct (inv_splice cs start faults Hcs V R s1 (view w1) _ inserts Hinv1 Hdur1 Hsp Hsrc) as (Hinv2 & Hdur2 & _).
  by split_and!.
Qed.

End Prepare.
