(* ===== verification/SliceDurable.v ===== *)
(** * Flush makes what was written durable

    [SliceChunk::Flush] from end to end, over any backend that keeps its promises: the
    invariant of a session between calls ([chunk_inv]), which every operation keeps, and
    what a flush that returns promises. *)

From S2P Require Import Prelude RedisKv Decimal StdMap ChunkGeometry InodeTypes SliceHistory DirtyRanges Records MetaEngine SliceChunk SliceLocal SlicePublished SliceMemory SliceRead SliceInv SliceFlush SliceGroup.

Section Flush.
Context {W : Type} `{BackendLaws W} (index cs start : Z).
Hypothesis Hcs : 0 < cs ≤ UINT32_MAX.
Hypothesis Hstart : CalculateChunkStartOffset index cs = Ok start.
Abbreviation inv := (flush_inv cs start).
Abbreviation hok := (head_ok cs faults).
Abbreviation progress := (progress cs start).

(** Between calls every pending slice is the flush's to publish. *)
Definition chunk_inv (s : SliceChunk) (v : Published) : Prop := inv hok [] (sc_frozen s) s v.

Lemma inv_all R s v : inv hok [] R s v → chunk_inv s v.
Proof.
  intros Hinv. destruct (fi_frozen _ _ _ _ _ _ _ Hinv) as (N & Efz & HN). cbn [app] in Efz.
  assert (∀ a f, a ∈ N → slice_at s a = Some f → fs_prepared_id f = None ∧ untouched f ∧ unindexed v f) as Hfresh.
  { intros a f Ha Hf. rewrite Forall_forall in HN. destruct (HN a Ha) as (f' & Hf' & Hs). assert (f' = f) as -> by congruence.
    unfold started in Hs. rewrite !orb_false_iff in Hs. destruct Hs as ((((_ & H1') & H2) & H3) & H4).
    apply bool_decide_eq_false, eq_None_not_Some in H1', H2, H3, H4. split_and!; try done. intros id. congruence. }
  assert (∀ a, a ∈ tail (sc_frozen s) → a ∈ tail R ∨ a ∈ N) as Htl by (rewrite Efz; destruct R; cbn; [intros a Ha%tail_elem; by right|set_solver]).
  destruct Hinv as [? ? ? _ Hpend Htail Hland Hprep Hdist Hhead Hrest]. split; try done; cbn [app] in *.
  - exists []. by rewrite app_nil_r.
  - intros k [?|[[c Hc] ?]]%Htail; [by left|right]. split; [|done]. unfold slices in *. rewrite Efz, omap_app, frozen_at_app, Hc. destruct (frozen_at (omap (slice_at s) N) k); by eexists.
  - intros a f id Ha Hf Hid. rewrite Efz in Ha. apply elem_of_app in Ha as [?|Ha]; [by eapply Hprep|]. destruct (Hfresh a f Ha Hf) as (? & _). congruence.
  - intros a a' f f' id Ha Ha' Hf Hf' Hid Hid'. rewrite Efz in Ha, Ha'.
    apply elem_of_app in Ha as [?|Ha]; [|destruct (Hfresh a f Ha Hf) as (? & _); congruence].
    apply elem_of_app in Ha' as [?|Ha']; [by eapply Hdist|destruct (Hfresh a' f' Ha' Hf') as (? & _); congruence].
  - intros a f Ha Hf. rewrite Efz in Ha. destruct R as [|b R]; [|cbn in Ha; simplify_eq; by eapply Hhead].
    destruct (Hfresh a f (head_elem _ _ Ha) Hf) as (_ & (E1 & E2 & E3) & ?). unfold head_ok. by rewrite E1, E2, E3.
  - intros a f [Ha|Ha]%Htl Hf; [by eapply Hrest|]. by destruct (Hfresh a f Ha Hf) as (_ & ? & ?).
Qed.

Lemma freeze_accepts s : session_ok cs s → accepts cs [] s (FreezeActiveLocked s).
Proof.
  intros [Hbuf Hview]. destruct (FreezeActiveLocked_spec cs _ s Hbuf ltac:(done)) as (Hb & Hl & Hg & Hd & _ & Hp).
  split; [|done|by rewrite Hd|by left; apply Hp]. split; [|intros k c; rewrite Hd, Hl; apply Hview].
  destruct Hb. split; try done. unfold kMaxActiveSliceBytes. lia.
Qed.

(** Once the active writes are frozen, the pending slices over the published bytes are what a reader sees. *)
Lemma freeze_durable s v :
  chunk_inv s v → let s' := FreezeActiveLocked s in
  chunk_inv s' v ∧ (∀ k, contents cs start s' v k = contents cs start s v k) ∧ durable cs start (contents cs start s v) [] (sc_frozen s') s' v.
Proof.
  intros Hinv. cbn zeta. pose proof (fi_session _ _ _ _ _ _ _ Hinv) as Hs. pose proof (freeze_accepts s Hs) as Hacc.
  assert (chunk_inv (FreezeActiveLocked s) v) as Hinv' by (eapply inv_all, inv_accepts; [done|exact Hinv|exact Hacc]).
  pose proof (ac_grown _ _ _ _ Hacc) as Hg. destruct (FreezeActiveLocked_spec cs _ s (so_buffers _ _ Hs) ltac:(done)) as (_ & _ & _ & Hd & Ha & _).
  assert (∀ k, contents cs start (FreezeActiveLocked s) v k = contents cs start s v k) as Hc by (intros k; unfold contents; by rewrite Hd, (gr_boundaries _ _ Hg)).
  split_and!; [done|done|]. intros k. rewrite <- Hc. unfold contents. cbn [app].
  pose proof (fi_pending _ _ _ _ _ _ _ Hinv' k) as Hpend. pose proof (so_view _ _ (fi_session _ _ _ _ _ _ _ Hinv') k) as Hview.
  unfold local_at in Hview. rewrite Ha in Hview. cbn [dirty_at over] in Hview.
  destruct (dirty_at (sc_dirty (FreezeActiveLocked s)) k) as [c|].
  { specialize (Hview c eq_refl). unfold frozen_slices in Hview. unfold slices. by rewrite Hview. }
  destruct (frozen_at (slices (FreezeActiveLocked s) _) k) as [c|] eqn:E; [|done]. cbn. apply Hpend; [|done]. right. by apply frozen_at_elem.
Qed.

Lemma inv_flushing b P C R s v : inv P C R s v → inv P C R (set_flushing b s) v.
Proof. by intros [[[] ?] ? ? ? ? ? ? ? ? ? ?]. Qed.
Lemma chunk_inv_flushing b s v : chunk_inv s v → chunk_inv (set_flushing b s) v.
Proof. apply inv_flushing. Qed.

(** Coalesce, upload, publish. *)
Lemma flush_body_spec V s w :
  progress hok [] (sc_frozen s) V (s, w) (s, w) →
  wp (candidates ← PrepareWindowCandidates index cs kMaxRmwInstallAttempts (sc_frozen s);
      _ ← upload_all cs candidates; publish_all index cs candidates []) (λ r st, match r with
    | Ok _ => progress hok [] [] V (s, w) st
    | Err _ => (∃ R, progress hok [] R V (s, w) st) ∧ excused cs start st
    end) (s, w).
Proof.
  intros Hpr. apply wp_bind. eapply wp_mono; [|by eapply PrepareWindowCandidates_spec].
  intros r [s1 w1] Hr. destruct r as [R|e]; [|destruct Hr; split; [by eexists|done]]. apply wp_bind.
  eapply wp_mono; [|by eapply upload_all_spec]. rename Hr into Hpr1. intros r [s2 w2] [Hpr2 Hr2]. destruct r as [[]|e]; [|split; [by eexists|done]].
  cbn [fst] in Hr2. destruct Hpr2 as (Hi2 & Hd2 & Ht2 & [Hb2 Hp2]).
  assert (∀ R' st, progress hok [] R' V (s2, w2) st → progress hok [] R' V (s, w) st) as Hch.
  { intros R' st (? & ? & ? & [Hb Hp]). split_and!; try done; [by etrans|]. split; [congruence|]. intros a Ha. by apply Hp, Hp2. }
  eapply wp_mono; [|eapply (publish_all_spec index cs start Hcs Hstart R [] V (s2, w2)); [by split_and!|intros a Ha; apply Hr2; by left]].
  intros r st Hr. destruct r; [by apply Hch|]. destruct Hr as [[R' HR] ?]. split; [exists R'; by apply Hch|done].
Qed.

(** What a flush promises. *)
Lemma Flush_spec s w :
  chunk_inv s (view w) →
  wp (Flush index cs) (λ r st, chunk_inv st.1 (view st.2) ∧ tracks cs start (s, w) st ∧ sc_flushing st.1 = sc_flushing s ∧
    points st.1 = points s ∧ match r with
    | Ok _ => inv hok [] [] st.1 (view st.2) ∧ ∀ k, published cs start (view st.2) (sc_boundaries st.1) k = contents cs start s (view w) k
    | Err e => (sc_flushing s = true ∧ e = Busy) ∨ excused cs start st
    end) (s, w).
Proof.
  intros Hinv. unfold Flush. apply wp_bind, wp_fail_if; intros Eu; [zlia|]. apply wp_bind, wp_get. cbn [fst].
  apply wp_bind, wp_fail_if; intros Efl. { split_and!; [done|reflexivity|done|done|by left]. }
  apply wp_bind, wp_modify, wp_bind, wp_get. cbn [fst snd].
  pose proof (chunk_inv_flushing true s _ Hinv) as Hinv0. set (s0 := set_flushing true s) in *.
  destruct (freeze_durable s0 (view w) Hinv0) as (Hinv1 & Hc1 & Hdur1). set (s1 := FreezeActiveLocked s0) in *. set (V := contents cs start s (view w)).
  assert (∀ st, tracks cs start (s1, w) st → tracks cs start (s, w) st) as Htr.
  { intros st Ht. etrans; [|exact Ht]. exists []. split; [by rewrite app_nil_r|]. intros k. apply Hc1. }
  assert (progress hok [] (sc_frozen s1) V (s1, w) (s1, w)) as Hpr1 by (split_and!; [done|done|reflexivity|by split]).
  apply wp_bind, wp_try. eapply wp_mono; [|by apply flush_body_spec]. intros r [s2 w2] Hr. cbn beta iota.
  assert ((∃ R, progress hok [] R V (s1, w) (s2, w2)) ∧ match r with
    | Ok _ => inv hok [] [] s2 (view w2) ∧ ∀ k, published cs start (view w2) (sc_boundaries s2) k = V k | Err _ => excused cs start (s2, w2) end) as [[R (Hi & _ & Ht & Hb & _)] Hr'].
  { destruct r; [|done]. split; [by eexists|]. destruct Hr as (Hi & Hd & _). by split. }
  apply wp_bind, wp_modify, wp_lift. cbn [fst snd] in *. split_and!; [by eapply chunk_inv_flushing, inv_all|by apply Htr|by symmetry| |].
  - etrans; [exact Hb|]. apply (grown_points _ _ (ac_grown _ _ _ _ (freeze_accepts s0 (fi_session _ _ _ _ _ _ _ Hinv0)))).
  - destruct r; [destruct Hr'; split; [by apply inv_flushing|done]|by right].
Qed.

(** ** Sessions *)
(** What a chunk must look like for a session to open on it: a valid history with nothing
    left past the end of the file, and allocators that hand out new identities. *)
Definition openable (v : Published) : Prop :=
  published_ok cs v [] ∧ 0 < pb_next_slice v ∧ 0 < pb_next_chunk v ∧ (∀ c, pb_next_chunk v ≤ c → pb_index v c = None) ∧
  ∀ k, eof cs start v ≤ k → stored cs v [] k = Ascii.zero.

(** The states a session goes through; calls of the backend may fail at any point. *)
Inductive reachable : @state W → Prop :=
  | reach_open w : openable (view w) → reachable (new_chunk, w)
  | reach_write s w offset data : reachable (s, w) → 0 ≤ offset → reachable ((Write cs offset data s).2, w)
  | reach_read st offset len : reachable st → 0 ≤ offset → 0 ≤ len → reachable (Read index cs offset len st).2
  | reach_flush st : reachable st → reachable (Flush index cs st).2
  | reach_settle s w w' : reachable (s, w) → settles (view w) (view w') → reachable (s, w').

Lemma chunk_inv_open v : openable v → chunk_inv new_chunk v.
Proof.
  intros (Hp & ? & ? & Hi & Ht). split; cbn; try done; try (by intros ? ? ?%elem_of_nil); try (by intros ? ? ? ? ? ?%elem_of_nil); try (by intros ? ? ? ?%elem_of_nil).
  - apply new_chunk_ok.
  - split_and!; try done. intros c Hc. split; [by apply Hi|done].
  - by exists [].
  - intros k c [?|(f & Hf & _)]; [done|]. by apply elem_of_nil in Hf.
  - intros k Hk. left. by apply Ht.
Qed.
Lemma chunk_inv_quiet st st' : chunk_inv st.1 (view st.2) → quiet cs st st' → chunk_inv st'.1 (view st'.2).
Proof.
  intros Hinv (ws & _ & Hnn & Hs & Hv). rewrite Hs.
  destruct (inv_settles cs start Hcs _ _ _ _ _ _ (head_ok_stable cs faults) Hinv Hv) as (Hinv2 & _).
  eapply inv_all, inv_accepts; [done|exact Hinv2|]. apply accept_writes_spec; [|done]. by eapply fi_session.
Qed.

Lemma reachable_inv st : reachable st → chunk_inv st.1 (view st.2).
Proof.
  induction 1 as [w Hw|s w offset data _ IH Ho|[s w] offset len _ IH Ho Hl|[s w] _ IH|s w w' _ IH Hs]; cbn [fst snd] in *.
  - by apply chunk_inv_open.
  - eapply inv_all, inv_accepts; [done|exact IH|]. apply (write_accepts_one cs s (offset, data)); [by eapply fi_session|done].
  - pose proof (fi_session _ _ _ _ _ _ _ IH) as Hs. pose proof (fi_published _ _ _ _ _ _ _ IH) as Hp.
    pose proof (Read_spec index cs start Hcs Hstart s w offset len (bo_dirty _ _ _ (so_buffers _ _ Hs)) Hp Ho Hl) as HR.
    unfold wp in HR. destruct (Read index cs offset len (s, w)) as [r st']. cbn [snd]. destruct (out_of_range cs offset len).
    + destruct HR as [_ ->]. exact IH.
    + destruct HR as [Hq _]. by apply (chunk_inv_quiet (s, w)).
  - pose proof (Flush_spec s w IH) as HF. unfold wp in HF. destruct (Flush index cs (s, w)) as [r st']. apply HF.
  - by destruct (inv_settles cs start Hcs _ _ _ _ _ _ (head_ok_stable cs faults) IH Hs) as (? & _).
Qed.

(** Between calls no flush is in flight and, without truncations, no sanitation is pending. *)
Lemma reachable_idle st : reachable st → sc_flushing st.1 = false ∧ points st.1 = (None, []).
Proof.
  induction 1 as [w Hw|s w offset data Hr IH Ho|[s w] offset len Hr IH Ho Hl|[s w] Hr IH|s w w' _ IH Hs]; cbn [fst snd] in *; try done.
  - destruct (write_accepts_one cs s (offset, data)) as [_ Hg _ _]; [by eapply fi_session, (reachable_inv _ Hr)|done|].
    cbn in Hg. by rewrite (gr_flushing _ _ Hg), (grown_points _ _ Hg).
  - pose proof (reachable_inv _ Hr) as Hinv. cbn [fst snd] in Hinv. pose proof (fi_session _ _ _ _ _ _ _ Hinv) as Hs.
    pose proof (Read_spec index cs start Hcs Hstart s w offset len (bo_dirty _ _ _ (so_buffers _ _ Hs)) (fi_published _ _ _ _ _ _ _ Hinv) Ho Hl) as HR.
    unfold wp in HR. destruct (Read index cs offset len (s, w)) as [r st']. cbn [snd]. destruct (out_of_range cs offset len); [by destruct HR as [_ ->]|].
    destruct HR as [(ws & _ & Hnn & -> & _) _]. pose proof (ac_grown _ _ _ _ (accept_writes_spec cs ws s Hs Hnn)) as Hg. cbn [fst].
    by rewrite (gr_flushing _ _ Hg), (grown_points _ _ Hg).
  - pose proof (Flush_spec s w (reachable_inv _ Hr)) as HF. unfold wp in HF. destruct (Flush index cs (s, w)) as [r st']. cbn [snd].
    destruct HF as (_ & _ & -> & -> & _). exact IH.
Qed.


End Flush.

(** C6: Every state a slice chunk session goes through (opened on a valid history, with
    writes, reads, flushes that fail at any backend call, and growth of the file by others)
    keeps the session invariant: the buffers are well formed, buffered bytes that a newer
    flush has superseded equal the published ones, whatever the history holds past the end of
    the file is covered by a pending slice, uploaded objects hold their slice's payload under
    distinct identities, and only the oldest pending slice may be recorded, in a chunk that
    is attached or private to it. *)
Theorem session_invariant {W : Type} `{BackendLaws W} (index cs start : Z) (st : @state W) :
  0 < cs ≤ UINT32_MAX → CalculateChunkStartOffset index cs = Ok start →
  reachable index cs start st → chunk_inv cs start st.1 (view st.2) ∧ sc_flushing st.1 = false.
Proof. intros Hcs Hst Hr. split; [by eapply reachable_inv|by eapply reachable_idle]. Qed.



(** *** A run *)
(** Two small writes of a window, while a third arrives during the flush. *)
Definition busy_memory : Memory := empty_memory [[]; [(1, lit "Z")]].
Definition busy_session : SliceChunk := (Write 64 6 (lit "efg") (Write 64 2 (lit "ab") new_chunk).2).2.
Lemma busy_reachable : reachable 0 64 0 (busy_session, busy_memory).
Proof.
  apply reach_write; [|done]. apply reach_write; [|done]. apply reach_open. by split_and!.
Qed.
Lemma session_invariant_witness : chunk_inv 64 0 busy_session (view busy_memory) ∧ sc_flushing busy_session = false.
Proof. exact (session_invariant 0 64 0 (busy_session, busy_memory) ltac:(done) eq_refl busy_reachable). Defined.

(** ** A truncation between two attempts to attach *)
(** The memory backend, but attaching a chunk fails. *)
Definition detached_backend : ChunkBackend Memory := {|
  be_snapshot := be_snapshot; be_attach _ _ _ m := (Err Unavailable, deliver m); be_finalize := be_finalize;
  be_allocate_slice := be_allocate_slice; be_allocate_chunk := be_allocate_chunk; be_create_index := be_create_index;
  be_append := be_append; be_records := be_records; be_get := be_get; be_put := be_put; during := mm_delivered;
|}.

(** Ten bytes are written and recorded, but the chunk is not attached; the session
    truncates to five bytes and flushes again; a write further on then extends the file.  The
    bytes the truncation cut off are back: truncation protects published slices and clips
    pending ones, but not the record of a slice whose chunk is still unattached. *)
Example truncated_record_resurfaces :
  let st1 := @Flush Memory detached_backend 0 64 ((Write 64 0 (lit "abcdefghij") new_chunk).2, empty_memory []) in
  let st2 := TruncateLocal 64 5 st1.2 in
  let st3 := Flush 0 64 st2.2 in
  let st4 := Flush 0 64 ((Write 64 12 (lit "x") st3.2.1).2, st3.2.2) in
  st1.1 = Err Unavailable ∧ st2.1 = Ok tt ∧ st3.1 = Ok tt ∧ (Read 0 64 0 5 st3.2).1 = Ok (lit "abcde") ∧
  mm_size st3.2.2 = 5 ∧ st4.1 = Ok tt ∧
  (Read 0 64 0 13 st4.2).1 = Ok (lit "abcdefghij" ++ [Ascii.zero; Ascii.zero] ++ lit "x").
Proof. by vm_compute. Qed.
