(* ===== verification/SliceFrame.v ===== *)
(** * What a session leaves alone

    A session changes its backend only through the backend's calls: a relation that every
    call respects holds across a whole read or flush.  This carries facts about a concrete
    backend that the laws of SlicePublished.v do not mention. *)

From S2P Require Import Prelude RedisKv Decimal StdMap ChunkGeometry InodeTypes SliceHistory DirtyRanges Records MetaEngine SliceChunk.

Section Frame.
Context {W : Type} `{ChunkBackend W} (index cs : Z) (R : W → W → Prop) `{!PreOrder R}.

Definition respects {A : Type} (f : W → result A * W) : Prop := ∀ w, R w (f w).2.
Class CallsRespect : Prop := {
  cr_snapshot : respects be_snapshot;
  cr_attach c e p : respects (be_attach c e p);
  cr_finalize c e p : respects (be_finalize c e p);
  cr_allocate_slice : respects be_allocate_slice;
  cr_allocate_chunk : respects be_allocate_chunk;
  cr_create_index c r : respects (be_create_index c r);
  cr_append c r : respects (be_append c r);
  cr_records c : respects (be_records c);
  cr_get k o n : respects (be_get k o n);
  cr_put k o : respects (be_put k o);
}.
Context `{!CallsRespect}.

Definition keeps {A : Type} (m : io (W := W) A) : Prop := ∀ st, R st.2 (m st).2.2.

Lemma keeps_ret {A : Type} (a : A) : keeps (mret a).
Proof. intros st. reflexivity. Qed.
Lemma keeps_bind {A B : Type} (m : io (W := W) A) (f : A → io B) : keeps m → (∀ a, keeps (f a)) → keeps (m ≫= f).
Proof.
  intros Hm Hf st. unfold mbind, io_bind. specialize (Hm st). destruct (m st) as [[a|e] st']; cbn in *; [|done]. etrans; [exact Hm|apply Hf].
Qed.
Lemma keeps_fail {A : Type} s : keeps (io_fail (A := A) s).
Proof. intros st. reflexivity. Qed.
Lemma keeps_lift {A : Type} (r : result A) : keeps (io_lift r).
Proof. intros st. reflexivity. Qed.
Lemma keeps_fail_if b s : keeps (io_fail_if b s).
Proof. destruct b; [apply keeps_fail|apply keeps_ret]. Qed.
Lemma keeps_try {A : Type} (m : io (W := W) A) : keeps m → keeps (io_try m).
Proof. intros Hm st. specialize (Hm st). unfold io_try. by destruct (m st). Qed.
Lemma keeps_get : keeps io_get.
Proof. intros st. reflexivity. Qed.
Lemma keeps_modify f : keeps (io_modify f).
Proof. intros st. reflexivity. Qed.
Lemma keeps_call {A : Type} (f : W → result A * W) : respects f → keeps (call cs f).
Proof. intros Hf [s w]. specialize (Hf w). unfold call. by destruct (f w). Qed.

Create HintDb keeps.
#[local] Hint Resolve keeps_ret keeps_fail keeps_lift keeps_fail_if keeps_get keeps_modify : keeps.
#[local] Hint Resolve cr_snapshot cr_attach cr_finalize cr_allocate_slice cr_allocate_chunk cr_create_index cr_append cr_records cr_get cr_put : keeps.
Ltac keep := repeat first
  [ progress intros
  | solve [auto with keeps]
  | apply keeps_try
  | apply keeps_call
  | apply keeps_bind
  | match goal with |- keeps (match ?x with _ => _ end) => destruct x end
  | match goal with |- respects (match ?x with _ => _ end) => destruct x end
  | match goal with |- keeps (let '(_, _) := ?x in _) => destruct x end ].

Lemma slice_of_keeps a : keeps (slice_of a).
Proof. unfold slice_of. keep. Qed.
Lemma modify_slice_keeps a f : keeps (modify_slice a f).
Proof. unfold modify_slice. keep. Qed.
Lemma mapped_records_keeps c : keeps (mapped_records cs c).
Proof. unfold mapped_records. keep. Qed.
Lemma record_present_keeps c r : keeps (record_present cs c r).
Proof. unfold record_present. keep. Qed.
#[local] Hint Resolve slice_of_keeps modify_slice_keeps mapped_records_keeps record_present_keeps : keeps.

Lemma fetch_keeps span o a b out : keeps (fetch cs span o a b out).
Proof. unfold fetch. keep. Qed.
#[local] Hint Resolve fetch_keeps : keeps.
Lemma fetch_uncovered_keeps span o c ov out : keeps (fetch_uncovered cs span o c ov out).
Proof. revert c out. induction ov; intros; cbn [fetch_uncovered]; keep. Qed.
#[local] Hint Resolve fetch_uncovered_keeps : keeps.
Lemma fetch_spans_keeps spans o ov out : keeps (fetch_spans cs spans o ov out).
Proof. revert ov out. induction spans; intros; cbn [fetch_spans]; keep. Qed.
Lemma copy_spans_keeps spans o out : keeps (copy_spans cs spans o out).
Proof. revert out. induction spans; intros; cbn [copy_spans]; keep. Qed.
#[local] Hint Resolve fetch_spans_keeps copy_spans_keeps : keeps.

Lemma Read_keeps offset len : keeps (Read index cs offset len).
Proof. unfold Read. keep. Qed.
Lemma ReadCommittedRange_keeps offset len : keeps (ReadCommittedRange index cs offset len).
Proof. unfold ReadCommittedRange. keep. Qed.
#[local] Hint Resolve ReadCommittedRange_keeps : keeps.

Lemma build_candidates_keeps pending groups : keeps (build_candidates index cs pending groups).
Proof. induction groups; cbn [build_candidates]; keep. Qed.
#[local] Hint Resolve build_candidates_keeps : keeps.
Lemma PrepareWindowCandidates_keeps n l : keeps (PrepareWindowCandidates index cs n l).
Proof. induction n; cbn [PrepareWindowCandidates]; keep. Qed.
Lemma ensure_recorded_keeps a att c r : keeps (ensure_recorded cs a att c r).
Proof. unfold ensure_recorded. keep. Qed.
Lemma target_chunk_keeps a snapshot : keeps (target_chunk cs a snapshot).
Proof. unfold target_chunk. keep. Qed.
#[local] Hint Resolve PrepareWindowCandidates_keeps ensure_recorded_keeps target_chunk_keeps : keeps.
Lemma publish_attempt_keeps a r e : keeps (publish_attempt cs a r e).
Proof. unfold publish_attempt. keep. Qed.
#[local] Hint Resolve publish_attempt_keeps : keeps.
Lemma publish_loop_keeps n a r e : keeps (publish_loop cs n a r e).
Proof. induction n; cbn [publish_loop]; keep. Qed.
#[local] Hint Resolve publish_loop_keeps : keeps.
Lemma PublishFrozen_keeps a : keeps (PublishFrozen index cs a).
Proof. unfold PublishFrozen. keep. Qed.
Lemma upload_all_keeps l : keeps (upload_all cs l).
Proof. induction l; cbn [upload_all]; keep. Qed.
#[local] Hint Resolve PublishFrozen_keeps upload_all_keeps : keeps.
Lemma publish_all_keeps l done : keeps (publish_all index cs l done).
Proof. revert done. induction l; intros; cbn [publish_all]; keep. Qed.
#[local] Hint Resolve publish_all_keeps : keeps.
Lemma Flush_keeps : keeps (Flush index cs).
Proof. unfold Flush. keep. Qed.
Lemma TruncateLocal_keeps n : keeps (TruncateLocal cs n).
Proof. unfold TruncateLocal, CaptureBoundary. keep. Qed.
End Frame.
