(* ===== verification/StateIo.v ===== *)
(** * Code that keeps state and can fail

    Methods that return a [Status] and change an object and the world behind it are functions
    from a state to a result and a state.  [swp m Q st] says that running [m] from [st] ends
    in a result and a state that satisfy [Q]. *)

From S2P Require Import Prelude.

Section StateIo.
Context {S : Type}.
Definition sio (A : Type) : Type := S → result A * S.
#[global] Instance sio_ret : MRet sio := λ A a st, (Ok a, st).
#[global] Instance sio_bind : MBind sio := λ A B f m st,
  match m st with
  | (Ok a, st) => f a st
  | (Err e, st) => (Err e, st)
  end.
Definition s_fail {A : Type} (s : Status) : sio A := λ st, (Err s, st).
Definition s_lift {A : Type} (r : result A) : sio A := λ st, (r, st).
Definition s_fail_if (b : bool) (s : Status) : sio unit := if b then s_fail s else mret tt.
(** The status of [m] as a value. *)
Definition s_try {A : Type} (m : sio A) : sio (result A) := λ st, let '(r, st) := m st in (Ok r, st).

Definition swp {A : Type} (m : sio A) (Q : result A → S → Prop) (st : S) : Prop := let '(r, st') := m st in Q r st'.

Lemma swp_ret {A : Type} (a : A) (Q : result A → S → Prop) st : Q (Ok a) st → swp (mret a) Q st.
Proof. done. Qed.
Lemma swp_fail {A : Type} e (Q : result A → S → Prop) st : Q (Err e) st → swp (s_fail e) Q st.
Proof. done. Qed.
Lemma swp_lift {A : Type} (r : result A) (Q : result A → S → Prop) st : Q r st → swp (s_lift r) Q st.
Proof. done. Qed.
Lemma swp_mono {A : Type} (m : sio A) (Q Q' : result A → S → Prop) st : (∀ r st', Q r st' → Q' r st') → swp m Q st → swp m Q' st.
Proof. unfold swp. intros HQ. destruct (m st). apply HQ. Qed.
Lemma swp_bind {A B : Type} (m : sio A) (f : A → sio B) (Q : result B → S → Prop) st :
  swp m (λ r st', match r with Ok a => swp (f a) Q st' | Err e => Q (Err e) st' end) st → swp (m ≫= f) Q st.
Proof. unfold swp, mbind, sio_bind. by destruct (m st) as [[a|e] st']. Qed.
Lemma swp_try {A : Type} (m : sio A) (Q : result (result A) → S → Prop) st : swp m (λ r st', Q (Ok r) st') st → swp (s_try m) Q st.
Proof. unfold swp, s_try. by destruct (m st). Qed.
Lemma swp_fail_if b e (Q : result unit → S → Prop) st :
  (b = true → Q (Err e) st) → (b = false → Q (Ok tt) st) → swp (s_fail_if b e) Q st.
Proof. intros. destruct b; cbn; auto. Qed.
End StateIo.
Arguments sio : clear implicits.

(** ** Programs that run beside others: the calls they make, one at a time *)
Inductive prog (E : Type → Type) (A : Type) : Type :=
  | Done (a : A)
  | Call {B : Type} (c : E B) (k : B → prog E A).
Arguments Done {E A} _.
Arguments Call {E A B} _ _.
Fixpoint prog_then {E : Type → Type} {A B : Type} (f : A → prog E B) (m : prog E A) : prog E B :=
  match m with
  | Done a => f a
  | Call c k => Call c (λ b, prog_then f (k b))
  end.
#[export] Instance prog_ret {E : Type → Type} : MRet (prog E) := λ A a, Done a.
#[export] Instance prog_bind {E : Type → Type} : MBind (prog E) := λ A B f m, prog_then f m.
Definition perform {E : Type → Type} {A : Type} (c : E A) : prog E A := Call c Done.
