(* ===== verification/CowChunk.v ===== *)
(** * The copy-on-write chunk session

    [WriteBuf] and [COWChunk] (src/src/chunk/cow): a session buffers a whole chunk, publishes
    it as an immutable object under a fresh revision, moves the chunk's private head to it by
    compare-and-exchange and then attaches or finalizes the chunk in the file's metadata.
    While a flush is in flight the buffer it uploads is shared with the session; the first
    write that arrives makes the session continue on a copy.

    Buffers are addresses into [cc_heap], so that sharing is pointer equality as in the code.
    [fresh_memory] is what a new allocation holds, which the code must not expose. *)

From S2P Require Import Prelude RedisKv Decimal StdMap ChunkGeometry InodeTypes Records MetaTxn MetaEngine StateIo.

(** ** WriteBuf *)
Record WriteBuf := mkWriteBuf { wb_store : bytes; wb_size : Z }.
Definition buf_bytes (b : WriteBuf) : bytes := take (Z.to_nat (wb_size b)) (wb_store b).
Definition WriteBuf_Truncate (n : Z) (b : WriteBuf) : WriteBuf :=
  if n >=? wb_size b then b else mkWriteBuf (wb_store b) n.
Definition WriteBuf_Write (write_offset : Z) (data : bytes) (b : WriteBuf) : result WriteBuf :=
  let end_ := write_offset + zlen data in
  _ ← fail_if (write_offset <? 0) InvalidArgument;
  _ ← fail_if (end_ >? zlen (wb_store b)) InvalidArgument;
  let store := if write_offset >? wb_size b
               then memcpy (wb_store b) (wb_size b) (zeros (write_offset - wb_size b)) else wb_store b in
  Ok (mkWriteBuf (memcpy store write_offset data) (Z.max (wb_size b) end_)).
Definition CloneBuf (b : WriteBuf) : bytes := buf_bytes b.
Definition CopyOut (off len tailroom : Z) (b : WriteBuf) : result bytes :=
  _ ← fail_if (off <? 0) InvalidArgument;
  if off >=? wb_size b then Ok [] else
  let n := Z.min len (wb_size b - off) in
  _ ← fail_if (n >? tailroom) InvalidArgument;
  Ok (substr (wb_store b) off n).

(** ** The session *)
Inductive CowState := kDirty | kFlushing | kClean.
#[export] Instance CowState_eq_dec : EqDecision CowState.
Proof. solve_decision. Defined.

Record COWChunk := mkCOWChunk {
  cc_heap : list WriteBuf; cc_wb : option nat; cc_flushing_wb : option nat; cc_state : CowState;
  cc_attached_id : option Z; cc_published_head : option COWChunkHead; cc_visible_prefix : Z }.

Definition buf_at (s : COWChunk) (a : nat) : option WriteBuf := cc_heap s !! a.
Definition current_buf (s : COWChunk) : option WriteBuf := cc_wb s ≫= buf_at s.

Class CowBackend (W : Type) := {
  cb_snapshot : W → result FileChunkSnapshot * W;
  cb_attach : Z → Z → FileSizePrecondition → W → result unit * W;
  cb_finalize : Z → Z → FileSizePrecondition → W → result unit * W;
  cb_allocate_chunk : W → result Z * W;
  cb_allocate_revision : Z → W → result Z * W;
  cb_head : Z → W → result COWChunkHead * W;
  cb_exchange : Z → option COWChunkHead → COWChunkHead → W → result unit * W;
  cb_get : bytes → Z → Z → W → result bytes * W;
  cb_put : bytes → bytes → W → result unit * W;
  (** Queue the deletion of a superseded revision. *)
  cb_retire : Z → Z → W → result unit * W;
  (** The writes accepted while the last call of a flush was in flight. *)
  cb_during : W → list (Z * bytes);
}.

Definition COWObjectKey (id revision : Z) : bytes := to_string id ++ lit "/" ++ to_string revision.

Section COWChunk.
Context {W : Type} `{CowBackend W} (index chunk_size : Z) (fresh_memory : nat → bytes).

Definition new_cow (attached_id : option Z) (head : option COWChunkHead) (visible_prefix : Z) : COWChunk :=
  match attached_id, head with
  | Some id, Some h => mkCOWChunk [] None None kClean (Some id) (Some h) visible_prefix
  | _, _ => mkCOWChunk [mkWriteBuf (fresh_memory 0) 0] (Some 0%nat) None kDirty attached_id head visible_prefix
  end.

Abbreviation cst := (COWChunk * W)%type.
Definition c_get : sio cst COWChunk := λ st, (Ok st.1, st).
Definition c_modify (f : COWChunk → COWChunk) : sio cst unit := λ st, (Ok tt, (f st.1, st.2)).
(** A call made under the session's lock. *)
Definition call_locked {A : Type} (f : W → result A * W) : sio cst A := λ '(s, w), let '(r, w) := f w in (r, (s, w)).

Definition set_wb (heap : list WriteBuf) (a : option nat) (s : COWChunk) : COWChunk :=
  mkCOWChunk heap a (cc_flushing_wb s) (cc_state s) (cc_attached_id s) (cc_published_head s) (cc_visible_prefix s).
Definition set_state (st : CowState) (fl : option nat) (s : COWChunk) : COWChunk :=
  mkCOWChunk (cc_heap s) (cc_wb s) fl st (cc_attached_id s) (cc_published_head s) (cc_visible_prefix s).
Definition set_published (id : option Z) (h : option COWChunkHead) (n : Z) (s : COWChunk) : COWChunk :=
  mkCOWChunk (cc_heap s) (cc_wb s) (cc_flushing_wb s) (cc_state s) id h n.

(** *** Writes *)
Definition VisibleBytesForHeadLocked (s : COWChunk) (head : COWChunkHead) : Z :=
  match cc_published_head s with
  | Some h => if negb (head_revision head =? head_revision h) then head_size head else Z.min (head_size head) (cc_visible_prefix s)
  | None => 0
  end.
Definition HydrateForWrite (id : Z) (head : COWChunkHead) : sio cst WriteBuf :=
  s ← c_get;
  _ ← s_fail_if ((head_size head >? chunk_size) || (cc_visible_prefix s >? chunk_size)) Malformed;
  let wb := mkWriteBuf (fresh_memory (length (cc_heap s))) 0 in
  let visible := VisibleBytesForHeadLocked s head in
  if visible >? 0 then
    persisted ← call_locked (cb_get (COWObjectKey id (head_revision head)) 0 visible);
    _ ← s_fail_if (negb (zlen persisted =? visible)) IOError;
    s_lift (WriteBuf_Write 0 persisted wb)
  else mret wb.

(** Continue on a copy when the buffer is being flushed. *)
Definition fork_buf (s : COWChunk) : COWChunk :=
  if bool_decide (cc_state s = kFlushing) && bool_decide (cc_wb s = cc_flushing_wb s) then
    match current_buf s with
    | Some b =>
        match WriteBuf_Write 0 (CloneBuf b) (mkWriteBuf (fresh_memory (length (cc_heap s))) 0) with
        | Ok next => set_wb (cc_heap s ++ [next]) (Some (length (cc_heap s))) s
        | Err _ => s
        end
    | None => s
    end
  else s.
Definition write_buf (offset : Z) (data : bytes) (s : COWChunk) : result unit * COWChunk :=
  match cc_wb s, current_buf s with
  | Some a, Some b =>
      match WriteBuf_Write offset data b with
      | Ok b => (Ok tt, set_wb (<[a := b]> (cc_heap s)) (Some a) s)
      | Err e => (Err e, s)
      end
  | _, _ => (Err Internal, s)
  end.
Definition in_bounds (offset len : Z) : bool := negb ((offset >? chunk_size) || (len >? chunk_size - offset)).
Definition hydrate : sio cst unit :=
  s ← c_get;
  match cc_state s, cc_attached_id s, cc_published_head s with
  | kClean, Some id, Some h =>
      _ ← s_fail_if ((head_size h >? chunk_size) || (cc_visible_prefix s >? chunk_size)) Malformed;
      r ← s_try (call_locked (cb_head id));
      match r with
      | Err NotFound => s_fail Malformed
      | Err e => s_fail e
      | Ok current =>
          wb ← HydrateForWrite id current;
          c_modify (λ s, set_state kDirty (cc_flushing_wb s)
            (set_wb (cc_heap s ++ [wb]) (Some (length (cc_heap s))) (set_published (cc_attached_id s) (Some current) (cc_visible_prefix s) s)))
      end
  | kClean, _, _ => s_fail Internal
  | _, _, _ => mret tt
  end.
Definition put_data (offset : Z) (data : bytes) : sio cst unit := λ '(s, w),
  let '(r, s) := write_buf offset data (fork_buf s) in (r, (s, w)).
Definition COWChunk_Write (offset : Z) (data : bytes) : sio cst unit :=
  _ ← s_fail_if (negb (in_bounds offset (zlen data))) InvalidArgument;
  _ ← hydrate;
  put_data offset data.

(** A write of another fiber during a flush: the session is not clean. *)
Definition accept_write (x : Z * bytes) (s : COWChunk) : COWChunk :=
  if in_bounds x.1 (zlen x.2) then (write_buf x.1 x.2 (fork_buf s)).2 else s.
Definition cow_call {A : Type} (f : W → result A * W) : sio cst A := λ '(s, w),
  let '(r, w) := f w in (r, (foldl (λ s x, accept_write x s) s (cb_during w), w)).

(** *** Reads *)
Definition ReadLocal (b : WriteBuf) (offset len : Z) : result bytes :=
  let available := if offset <? wb_size b then Z.min len (wb_size b - offset) else 0 in
  out ← if available =? 0 then Ok [] else CopyOut offset available len b;
  Ok (out ++ zeros (len - available)).
Fixpoint read_published (attempts : nat) (id offset len : Z) : sio cst bytes :=
  match attempts with
  | O => s_fail Busy
  | S attempts =>
      s ← c_get;
      r ← s_try (call_locked (cb_head id));
      match r with
      | Err NotFound => s_fail Malformed
      | Err e => s_fail e
      | Ok head =>
          _ ← s_fail_if (negb (IsValidHead head) || (head_size head >? chunk_size) || (cc_visible_prefix s >? chunk_size)) Malformed;
          let visible := VisibleBytesForHeadLocked s head in
          let available := if offset <? visible then Z.min len (visible - offset) else 0 in
          if available =? 0 then mret (zeros len) else
          r ← s_try (call_locked (cb_get (COWObjectKey id (head_revision head)) offset available));
          match r with
          | Err read_failure =>
              refreshed ← call_locked (cb_head id);
              if head_revision refreshed =? head_revision head then s_fail read_failure
              else read_published attempts id offset len
          | Ok out =>
              _ ← s_fail_if (negb (zlen out =? available)) IOError;
              mret (out ++ zeros (len - available))
          end
      end
  end.
Definition COWChunk_Read (offset len : Z) : sio cst bytes :=
  _ ← s_fail_if (negb (in_bounds offset len)) InvalidArgument;
  if len =? 0 then mret [] else
  s ← c_get;
  match cc_state s with
  | kClean => match cc_attached_id s with Some id => read_published 3 id offset len | None => s_fail Internal end
  | _ => match current_buf s with Some b => s_lift (ReadLocal b offset len) | None => s_fail Internal end
  end.

(** *** Truncation *)
Definition ClampPublishedPrefixLocked (visible_prefix : Z) (s : COWChunk) : COWChunk :=
  set_published (cc_attached_id s)
    ((λ h, mkCOWHead (head_revision h) (Z.min (head_size h) visible_prefix)) <$> cc_published_head s)
    (Z.min (cc_visible_prefix s) visible_prefix) s.
Definition COWChunk_TruncateLocal (n : Z) (s : COWChunk) : COWChunk :=
  let s := ClampPublishedPrefixLocked n s in
  match cc_state s, cc_wb s with
  | kClean, _ => s
  | _, Some a => set_wb (alter (WriteBuf_Truncate n) a (cc_heap s)) (Some a) s
  | _, None => s
  end.
Definition COWChunk_HasPendingWrites (s : COWChunk) : bool :=
  negb (bool_decide (cc_state s = kClean)) && match current_buf s with Some b => wb_size b >? 0 | None => false end.

(** *** Publication *)
Definition cow_fail {A : Type} (failure : Status) : sio cst A :=
  _ ← c_modify (set_state kDirty None); s_fail failure.
(** [if (!status.ok()) return fail(status);] *)
Definition guard {A : Type} (m : sio cst A) : sio cst A :=
  r ← s_try m;
  match r with Ok a => mret a | Err status => cow_fail status end.
Definition FilePrecondition (file : FileChunkSnapshot) : FileSizePrecondition :=
  mkFileSizePrecondition (size (attr (fcs_inode file))) (fcs_eof_boundary file).
Definition mark_head_published (session_id : option Z) (replacement : COWChunkHead) : sio cst unit :=
  match session_id with
  | Some _ => c_modify (λ s, set_published (cc_attached_id s) (Some replacement) (cc_visible_prefix s) s)
  | None => mret tt
  end.
Definition boundary_changed_at_same_eof (observed file : FileChunkSnapshot) : bool :=
  (size (attr (fcs_inode observed)) =? size (attr (fcs_inode file))) &&
  match fcs_eof_boundary observed, fcs_eof_boundary file with
  | Some b, Some b' => negb (bool_decide (cbs_chunk_id b = cbs_chunk_id b'))
  | _, _ => false
  end.

(** How the attempts to finalize one candidate end. *)
Inductive FinalizeOutcome := Finalized | RetryFresh (file : FileChunkSnapshot).

(** A first attachment that was not acknowledged. *)
Definition attach_conflict (id end_ : Z) (replacement : COWChunkHead) (file observed : FileChunkSnapshot)
    (status : Status) : sio cst FinalizeOutcome :=
  if IsOutcomeUnknown status then
    if bool_decide (fcs_chunk_id observed = Some id) && (size (attr (fcs_inode observed)) >=? end_) then
      current ← guard (cow_call (cb_head id));
      if bool_decide (current = replacement) then mret Finalized else cow_fail status
    else cow_fail status
  else if (ToErrno status =? EEXIST) && bool_decide (fcs_chunk_id observed = None) &&
          ((size (attr (fcs_inode observed)) >? size (attr (fcs_inode file))) || boundary_changed_at_same_eof observed file)
  then mret (RetryFresh observed)
  else cow_fail status.
Fixpoint finalize (attempts : nat) (status : Status) (session_id : option Z) (id end_ : Z) (replacement : COWChunkHead)
    (file : FileChunkSnapshot) : sio cst FinalizeOutcome :=
  match attempts with
  | O => _ ← mark_head_published session_id replacement; cow_fail status
  | S attempts =>
      let expected := FilePrecondition file in
      r ← s_try (cow_call (match session_id with Some _ => cb_finalize id end_ expected | None => cb_attach id end_ expected end));
      match r with
      | Ok _ => mret Finalized
      | Err status =>
          if negb (IsOutcomeUnknown status) && negb (ToErrno status =? EEXIST)
          then _ ← mark_head_published session_id replacement; cow_fail status else
          r ← s_try (cow_call cb_snapshot);
          match r with
          | Err probe => _ ← mark_head_published session_id replacement; cow_fail probe
          | Ok observed =>
              match session_id with
              | None => attach_conflict id end_ replacement file observed status
              | Some _ =>
                  if IsOutcomeUnknown status then _ ← mark_head_published session_id replacement; cow_fail status else
                  if negb (bool_decide (fcs_chunk_id observed = Some id)) then cow_fail AlreadyExists else
                  current ← guard (cow_call (cb_head id));
                  if negb (bool_decide (current = replacement)) then cow_fail AlreadyExists else
                  if size (attr (fcs_inode observed)) <? size (attr (fcs_inode file))
                  then _ ← mark_head_published session_id replacement; cow_fail AlreadyExists
                  else finalize attempts status session_id id end_ replacement observed
              end
          end
      end
  end.

Definition deref (a : nat) : sio cst WriteBuf := λ st, (match buf_at st.1 a with Some b => Ok b | None => Err Internal end, st).

(** The private head: a lost reply counts when the head is the replacement. *)
Definition publish_head (id : Z) (session_head : option COWChunkHead) (replacement : COWChunkHead) : sio cst unit :=
  r ← s_try (cow_call (cb_exchange id session_head replacement));
  match r with
  | Ok _ => mret tt
  | Err OutcomeUnknown =>
      probe ← s_try (cow_call (cb_head id));
      match probe with
      | Ok observed => if bool_decide (observed = replacement) then mret tt else cow_fail OutcomeUnknown
      | Err _ => cow_fail OutcomeUnknown
      end
  | Err status => cow_fail status
  end.
Fixpoint publish (attempts : nat) (session_id : option Z) (session_head : option COWChunkHead) (a : nat)
    (end_ : Z) (file : FileChunkSnapshot) : sio cst (Z * COWChunkHead) :=
  match attempts with
  | O => cow_fail AlreadyExists
  | S attempts =>
      id ← match session_id with Some id => mret id | None => guard (cow_call cb_allocate_chunk) end;
      _ ← guard (s_lift (check (ValidateFileChunkWrite index id end_ chunk_size)));
      revision ← guard (cow_call (cb_allocate_revision id));
      generation ← deref a;
      let replacement := mkCOWHead revision (wb_size generation) in
      _ ← guard (cow_call (cb_put (COWObjectKey id revision) (CloneBuf generation)));
      _ ← publish_head id session_head replacement;
      outcome ← finalize 3 OK session_id id end_ replacement file;
      match outcome with
      | Finalized => mret (id, replacement)
      | RetryFresh file => publish attempts session_id session_head a end_ file
      end
  end.
Definition settle (id : Z) (replacement : COWChunkHead) (generation : nat) (s : COWChunk) : COWChunk :=
  let s := set_published (Some id) (Some replacement) (match buf_at s generation with Some b => wb_size b | None => 0 end) s in
  if bool_decide (cc_wb s = Some generation) then set_state kClean None (set_wb (cc_heap s) None s)
  else set_state kDirty None s.

(** The session is a stale view of the chunk when its attachment or its head moved. *)
Definition check_current (session_id : option Z) (session_head : option COWChunkHead) (file : FileChunkSnapshot) : sio cst unit :=
  if negb (bool_decide (fcs_chunk_id file = session_id)) then cow_fail AlreadyExists else
  match session_id with
  | None => mret tt
  | Some id =>
      r ← s_try (cow_call (cb_head id));
      match r with
      | Err NotFound => cow_fail Malformed
      | Err status => cow_fail status
      | Ok current => if bool_decide (session_head = Some current) then mret tt else cow_fail AlreadyExists
      end
  end.
(** Queueing the deletion of the superseded revision never fails a flush.  The session has
    settled: a write that arrives meanwhile is the first one after the flush. *)
Definition retire_previous (session_id : option Z) (session_head : option COWChunkHead) (replacement : COWChunkHead) : sio cst unit :=
  match session_id, session_head with
  | Some id, Some h =>
      if head_revision h =? head_revision replacement then mret tt
      else _ ← s_try (call_locked (cb_retire id (head_revision h))); mret tt
  | _, _ => mret tt
  end.
(** Up to the moment the session settles. *)
Definition flush_publish (a : nat) (session_id : option Z) (session_head : option COWChunkHead) : sio cst (Z * COWChunkHead) :=
  file ← guard (cow_call cb_snapshot);
  _ ← check_current session_id session_head file;
  start ← guard (s_lift (CalculateChunkStartOffset index chunk_size));
  generation ← deref a;
  if wb_size generation >? kMaxSupportedFileSize - start then cow_fail InvalidArgument else
  publish 8 session_id session_head a (start + wb_size generation) file.
Definition flush_generation (a : nat) (session_id : option Z) (session_head : option COWChunkHead) : sio cst unit :=
  p ← flush_publish a session_id session_head;
  _ ← c_modify (settle p.1 p.2 a);
  retire_previous session_id session_head p.2.
Definition COWChunk_Flush : sio cst unit :=
  s ← c_get;
  match cc_state s, cc_wb s, current_buf s with
  | kClean, _, _ => mret tt
  | kFlushing, _, _ => s_fail Busy
  | kDirty, Some a, Some generation =>
      if wb_size generation =? 0 then mret tt else
      _ ← c_modify (set_state kFlushing (Some a));
      flush_generation a (cc_attached_id s) (cc_published_head s)
  | kDirty, _, _ => s_fail Internal
  end.
End COWChunk.
