(* ===== verification/CowLocal.v ===== *)
(** * What a copy-on-write session buffers

    A buffer shows zero past its end, whatever its memory held before; a write replaces the
    bytes it covers and nothing else; and the buffer a flush is publishing never changes,
    because the first write that arrives moves the session to a copy. *)

From stdpp Require Import gmap.
From S2P Require Import Prelude RedisKv Decimal StdMap ChunkGeometry InodeTypes Records MetaTxn MetaEngine StateIo CowChunk.

Section Buffers.
Context (cs : Z).
Hypothesis Hcs : 0 < cs.

Definition buf_ok (b : WriteBuf) : Prop := 0 ≤ wb_size b ≤ cs ∧ cs ≤ zlen (wb_store b).
Definition local_byte (b : WriteBuf) (k : Z) : ascii := default Ascii.zero (byte_at (buf_bytes b) k).

Lemma visible_zlen b : buf_ok b → zlen (buf_bytes b) = wb_size b.
Proof. intros [? ?]. unfold buf_bytes, zlen in *. rewrite length_take. lia. Qed.
Lemma local_byte_eq b k : local_byte b k = if k <? wb_size b then default Ascii.zero (byte_at (wb_store b) k) else Ascii.zero.
Proof. unfold local_byte, buf_bytes. rewrite byte_at_take. by destruct (k <? _). Qed.

Lemma WriteBuf_Write_spec offset data b :
  buf_ok b → 0 ≤ offset → offset + zlen data ≤ cs →
  ∃ b', WriteBuf_Write offset data b = Ok b' ∧ buf_ok b' ∧ wb_size b' = Z.max (wb_size b) (offset + zlen data) ∧
  ∀ k, 0 ≤ k → local_byte b' k = write_over cs id (offset, data) (local_byte b) k.
Proof.
  intros [Hs Hc] Ho He. unfold WriteBuf_Write. cbn zeta. rewrite (proj2 (Z.ltb_ge offset 0)), (Z.gtb_ltb _ (zlen (wb_store b))), (proj2 (Z.ltb_ge (zlen (wb_store b)) _)) by lia. cbn [fail_if mbind result_bind].
  eexists. split; [done|]. pose proof (zlen_nonneg data). set (store := if _ >? _ then _ else _).
  assert (zlen store = zlen (wb_store b)) as Hl.
  { subst store. rewrite Z.gtb_ltb. destruct (Z.ltb_spec (wb_size b) offset); [|done]. rewrite zlen_memcpy; [done|lia|]. rewrite zlen_zeros; lia. }
  assert (∀ k, 0 ≤ k < offset → byte_at store k = if k <? wb_size b then byte_at (wb_store b) k else Some Ascii.zero) as Hst.
  { intros k Hk. subst store. rewrite Z.gtb_ltb. destruct (Z.ltb_spec (wb_size b) offset), (Z.ltb_spec k (wb_size b)); try lia; [..|done].
    all: rewrite byte_at_memcpy; [rewrite zlen_zeros, byte_at_zeros by lia|lia|rewrite zlen_zeros; lia].
    - by rewrite (proj2 (Z.leb_gt (wb_size b) k)) by lia.
    - rewrite (proj2 (Z.leb_le (wb_size b) k)), (proj2 (Z.ltb_lt k _)), (proj2 (Z.leb_le 0 _)), (proj2 (Z.ltb_lt (k - _) _)) by lia. done. }
  assert (∀ k, offset ≤ k → byte_at store k = byte_at (wb_store b) k) as Hst'.
  { intros k Hk. subst store. rewrite Z.gtb_ltb. destruct (Z.ltb_spec (wb_size b) offset); [|done].
    rewrite byte_at_memcpy; [|lia|rewrite zlen_zeros; lia]. rewrite zlen_zeros, (proj2 (Z.ltb_ge k _)), andb_false_r by lia. done. }
  unfold buf_ok. cbn [wb_store wb_size]. rewrite zlen_memcpy, Hl by lia. split_and!; try lia.
  intros k Hk. rewrite !local_byte_eq. unfold write_over, fits. cbn [fst snd wb_store wb_size]. rewrite byte_at_memcpy by lia.
  rewrite !Z.gtb_ltb, (proj2 (Z.ltb_ge cs offset)), (proj2 (Z.ltb_ge (cs - offset) _)) by lia. cbn [orb negb andb].
  destruct (Z.leb_spec offset k), (Z.ltb_spec k (offset + zlen data)); cbn [andb].
  { rewrite (proj2 (Z.ltb_lt k _)) by lia. by destruct (byte_at_inside data (k - offset)) as [x ->]; [lia|]. }
  - rewrite Hst', local_byte_eq by lia. destruct (Z.ltb_spec k (Z.max (wb_size b) (offset + zlen data))), (Z.ltb_spec k (wb_size b)); done || lia.
  - rewrite Hst, local_byte_eq by lia. destruct (Z.ltb_spec k (Z.max (wb_size b) (offset + zlen data))), (Z.ltb_spec k (wb_size b)); done || lia.
  - lia.
Qed.
Lemma CloneBuf_spec b mem :
  buf_ok b → cs ≤ zlen mem →
  ∃ b', WriteBuf_Write 0 (CloneBuf b) (mkWriteBuf mem 0) = Ok b' ∧ buf_ok b' ∧ wb_size b' = wb_size b ∧ ∀ k, 0 ≤ k → local_byte b' k = local_byte b k.
Proof.
  intros Hb Hm. pose proof (visible_zlen b Hb) as Hz. destruct Hb as [Hs Hc].
  destruct (WriteBuf_Write_spec 0 (CloneBuf b) (mkWriteBuf mem 0)) as (b' & E & Hb' & Hsz & Hk); unfold CloneBuf in *; [by split; cbn; lia|lia|lia|].
  exists b'. cbn [wb_size] in Hsz. split_and!; [done|done|lia|]. intros k Hk0. rewrite Hk by done. unfold write_over, fits. cbn [fst snd].
  rewrite !Z.gtb_ltb, (proj2 (Z.ltb_ge cs 0)), (proj2 (Z.ltb_ge (cs - 0) _)) by lia. cbn [orb negb andb]. rewrite (proj2 (Z.leb_le 0 k)) by lia. cbn [andb].
  rewrite Z.add_0_l, Z.sub_0_r, Hz. unfold id. rewrite !local_byte_eq. cbn [wb_size].
  destruct (Z.ltb_spec k (wb_size b)); [|destruct (Z.ltb_spec k 0); done || lia].
  unfold buf_bytes. rewrite byte_at_take, (proj2 (Z.ltb_lt k _)) by done. destruct (byte_at_inside (wb_store b) k) as [x ->]; [lia|done].
Qed.
Lemma Truncate_spec n b :
  buf_ok b → 0 ≤ n → buf_ok (WriteBuf_Truncate n b) ∧
  ∀ k, local_byte (WriteBuf_Truncate n b) k = if k <? n then local_byte b k else Ascii.zero.
Proof.
  intros [Hs Hc] Hn. unfold WriteBuf_Truncate. rewrite Z.geb_leb. destruct (Z.leb_spec (wb_size b) n).
  - split; [done|]. intros k. rewrite local_byte_eq. destruct (Z.ltb_spec k n), (Z.ltb_spec k (wb_size b)); done || lia.
  - split; [split; cbn; lia|]. intros k. rewrite !local_byte_eq. cbn [wb_size wb_store]. destruct (Z.ltb_spec k n), (Z.ltb_spec k (wb_size b)); done || lia.
Qed.
Lemma ReadLocal_spec b offset len :
  buf_ok b → 0 ≤ offset → 0 ≤ len →
  ∃ out, ReadLocal b offset len = Ok out ∧ zlen out = len ∧ ∀ k, 0 ≤ k < len → byte_at out k = Some (local_byte b (offset + k)).
Proof.
  intros [Hs Hc] Ho Hl. unfold ReadLocal. set (n := if _ <? _ then _ else _).
  assert (n = Z.max 0 (Z.min len (wb_size b - offset))) as Hn by (subst n; destruct (Z.ltb_spec offset (wb_size b)); lia).
  assert (∃ o, (if n =? 0 then Ok [] else CopyOut offset n len b) = Ok o ∧ zlen o = n ∧ ∀ k, 0 ≤ k < n → byte_at o k = byte_at (wb_store b) (offset + k)) as (o & -> & Hzo & Hbo).
  { destruct (Z.eqb_spec n 0); [exists []; split_and!; try done; intros; lia|].
    exists (substr (wb_store b) offset n). unfold CopyOut. rewrite (proj2 (Z.ltb_ge offset 0)), Z.geb_leb, (proj2 (Z.leb_gt _ _)) by lia.
    cbn [fail_if mbind result_bind]. rewrite (Z.min_l n), Z.gtb_ltb, (proj2 (Z.ltb_ge len n)) by lia. cbn [fail_if mbind result_bind].
    split_and!; [done|rewrite zlen_substr; lia|]. intros k Hk. rewrite byte_at_substr by lia.
    rewrite (proj2 (Z.leb_le 0 k)), (proj2 (Z.ltb_lt k n)) by lia. done. }
  cbn [mbind result_bind]. eexists. split; [done|]. rewrite zlen_app, zlen_zeros, Hzo by lia. split; [lia|].
  intros k Hk. rewrite byte_at_app, Hzo, local_byte_eq. destruct (Z.ltb_spec k n); [|rewrite byte_at_zeros].
  - rewrite Hbo, (proj2 (Z.ltb_lt _ (wb_size b))) by lia. destruct (byte_at_inside (wb_store b) (offset + k)) as [x ->]; [lia|done].
  - destruct (Z.leb_spec 0 (k - n)), (Z.ltb_spec (k - n) (len - n)); try lia. cbn [andb]. by rewrite (proj2 (Z.ltb_ge (offset + k) _)) by lia.
Qed.

End Buffers.

Section Session.
Context (cs : Z) (fresh_memory : nat → bytes).
Hypothesis Hcs : 0 < cs.
Hypothesis Hmem : ∀ n, cs ≤ zlen (fresh_memory n).

Record cow_ok (s : COWChunk) : Prop := {
  co_bufs : Forall (buf_ok cs) (cc_heap s);
  co_state : match cc_state s with
    | kClean => cc_wb s = None ∧ cc_flushing_wb s = None ∧ is_Some (cc_attached_id s)
    | kDirty => is_Some (current_buf s) ∧ cc_flushing_wb s = None
    | kFlushing => is_Some (current_buf s) ∧ ∃ g, cc_flushing_wb s = Some g ∧ is_Some (buf_at s g)
    end;
  co_prefix : 0 ≤ cc_visible_prefix s;
  co_head : is_Some (cc_attached_id s) ↔ is_Some (cc_published_head s);
}.
Definition local (s : COWChunk) (k : Z) : ascii := match current_buf s with Some b => local_byte b k | None => Ascii.zero end.
Definition buffered (s : COWChunk) : Z := match current_buf s with Some b => wb_size b | None => 0 end.

(** What accepting the writes [ws] leaves true: the buffer in flight is not touched. *)
Record grows (ws : list (Z * bytes)) (s s' : COWChunk) : Prop := {
  gw_ok : cow_ok s';
  gw_state : cc_state s' = cc_state s;
  gw_flushing : cc_flushing_wb s' = cc_flushing_wb s;
  gw_ids : cc_attached_id s' = cc_attached_id s ∧ cc_published_head s' = cc_published_head s ∧ cc_visible_prefix s' = cc_visible_prefix s;
  gw_generation : ∀ g, cc_flushing_wb s = Some g → buf_at s' g = buf_at s g;
  gw_buffered : buffered s ≤ buffered s';
  gw_local : ∀ k, 0 ≤ k → local s' k = written cs id ws (local s) k;
}.
Lemma written_nonneg ws (u v : Z → ascii) : (∀ k, 0 ≤ k → u k = v k) → ∀ k, 0 ≤ k → written cs id ws u k = written cs id ws v k.
Proof.
  revert u v. induction ws as [|x ws IH]; intros u v E k Hk; cbn; [by apply E|]. apply IH; [|done]. intros j Hj. unfold write_over. by rewrite (E j Hj).
Qed.
Lemma grows_trans ws ws' s1 s2 s3 : grows ws s1 s2 → grows ws' s2 s3 → grows (ws ++ ws') s1 s3.
Proof.
  intros [_ A1 B1 (C1 & C2 & C3) D1 E1 F1] [A0 A2 B2 (C4 & C5 & C6) D2 E2 F2]. split; [done|congruence|congruence| | | |].
  - split_and!; congruence.
  - intros g Hg. rewrite D2 by congruence. auto.
  - lia.
  - intros k Hk. rewrite F2 by done. unfold written. rewrite foldl_app. by apply written_nonneg.
Qed.
Lemma grows_refl s : cow_ok s → grows [] s s.
Proof. by split. Qed.

Lemma held_buf s : cow_ok s → cc_state s ≠ kClean → ∃ a b, cc_wb s = Some a ∧ buf_at s a = Some b ∧ current_buf s = Some b ∧ buf_ok cs b.
Proof.
  intros [Hb Hs _ _] Hne. assert (is_Some (current_buf s)) as [b Hc] by (destruct (cc_state s); [by destruct Hs..|done]).
  unfold current_buf in *. destruct (cc_wb s) as [a|] eqn:Ea; [|done]. cbn in Hc. exists a, b. split_and!; try done.
  by eapply Forall_lookup_1 in Hb.
Qed.

(** Moving the session to another buffer of the heap. *)
Lemma set_wb_grows ws s heap a b :
  cow_ok s → cc_state s ≠ kClean → Forall (buf_ok cs) heap → heap !! a = Some b →
  (∀ g, cc_flushing_wb s = Some g → is_Some (buf_at s g) → heap !! g = buf_at s g) →
  buffered s ≤ wb_size b → (∀ k, 0 ≤ k → local_byte b k = written cs id ws (local s) k) → grows ws s (set_wb heap (Some a) s).
Proof.
  intros [Hb Hs Hp Hh] Hne Hf Ha Hg Hsz Hk.
  assert (current_buf (set_wb heap (Some a) s) = Some b) as Hc by done.
  assert (∀ g, cc_flushing_wb s = Some g → buf_at (set_wb heap (Some a) s) g = buf_at s g) as Hgen.
  { intros g Eg. apply (Hg g Eg). destruct (cc_state s); [destruct Hs as [_ Hs]; congruence| |done]. destruct Hs as (_ & g' & Eg' & ?). congruence. }
  split; try done.
  - split; try done. rewrite Hc. cbn [cc_state set_wb cc_flushing_wb cc_attached_id]. destruct (cc_state s) eqn:Es; [by destruct Hs| |done].
    destruct Hs as (_ & g & Eg & Hsome). split; [done|]. exists g. split; [done|]. by rewrite (Hgen g Eg).
  - unfold buffered at 2. by rewrite Hc.
  - intros k Hk0. unfold local at 1. rewrite Hc. by apply Hk.
Qed.
Lemma fork_buf_grows s :
  cow_ok s → cc_state s ≠ kClean →
  grows [] s (fork_buf fresh_memory s) ∧ (cc_state s = kFlushing → cc_wb (fork_buf fresh_memory s) ≠ cc_flushing_wb s).
Proof.
  intros Hok Hne. destruct (held_buf s Hok Hne) as (a & b & Ea & Hb & Hc & Hbo). unfold fork_buf.
  destruct (bool_decide (cc_state s = kFlushing) && _) eqn:E.
  - apply andb_true_iff in E as [Es%bool_decide_eq_true Ew%bool_decide_eq_true]. rewrite Hc.
    destruct (CloneBuf_spec cs Hcs b (fresh_memory (length (cc_heap s))) Hbo (Hmem _)) as (b' & -> & Hb' & Hsz & Hl).
    assert (∀ g x, buf_at s g = Some x → (cc_heap s ++ [b']) !! g = Some x) as Hold.
    { intros g x Hx. by apply lookup_app_l_Some. }
    split.
    + apply (set_wb_grows [] s _ _ b'); try done.
      * apply Forall_app. split; [apply Hok|]. by constructor.
      * by rewrite lookup_app_r, Nat.sub_diag by lia.
      * intros g _ [x Hx]. rewrite Hx. by apply Hold.
      * unfold buffered. rewrite Hc. lia.
      * intros k Hk. rewrite Hl by done. unfold local. cbn. by rewrite Hc.
    + intros _. cbn [set_wb cc_wb]. rewrite <- Ew, Ea. intros [= En]. apply lookup_lt_Some in Hb. lia.
  - split; [by apply grows_refl|]. intros Es Ew. rewrite Es, Ew in E. by rewrite !bool_decide_eq_true_2 in E.
Qed.
Lemma write_buf_grows offset data s :
  cow_ok s → cc_state s ≠ kClean → (cc_state s = kFlushing → cc_wb s ≠ cc_flushing_wb s) → 0 ≤ offset → in_bounds cs offset (zlen data) = true →
  ∃ s', write_buf offset data s = (Ok tt, s') ∧ grows [(offset, data)] s s' ∧ offset + zlen data ≤ buffered s'.
Proof.
  intros Hok Hne Hfl Ho Hin. destruct (held_buf s Hok Hne) as (a & b & Ea & Hb & Hc & Hbo). unfold write_buf. rewrite Ea, Hc.
  unfold in_bounds in Hin. apply negb_true_iff, orb_false_iff in Hin as [H1 H2].
  destruct (WriteBuf_Write_spec cs offset data b Hbo Ho ltac:(zlia)) as (b' & -> & Hb' & Hsz & Hl). eexists. split; [done|]. split.
  - apply (set_wb_grows _ s _ _ b'); try done.
    + by apply Forall_insert; [apply Hok|].
    + rewrite list_lookup_insert_eq; [done|]. by eapply lookup_lt_Some.
    + intros g Eg _. apply list_lookup_insert_ne. intros ->. destruct Hok as [_ Hs _ _]. destruct (cc_state s); [destruct Hs; congruence|by apply Hfl; congruence|done].
    + unfold buffered. rewrite Hc. lia.
    + intros k Hk. rewrite Hl by done. cbn. unfold write_over, local. by rewrite Hc.
  - unfold buffered, current_buf. cbn. unfold buf_at. cbn. rewrite list_lookup_insert_eq; [lia|]. by eapply lookup_lt_Some.
Qed.
Lemma accept_write_grows x s : cow_ok s → cc_state s ≠ kClean → 0 ≤ x.1 → grows [x] s (accept_write cs fresh_memory x s).
Proof.
  intros Hok Hne Hx. unfold accept_write. destruct (in_bounds cs x.1 (zlen x.2)) eqn:Ein.
  - destruct (fork_buf_grows s Hok Hne) as [Hf Hfl]. destruct (write_buf_grows x.1 x.2 (fork_buf fresh_memory s)) as (s' & -> & Hw & _); try done.
    + apply Hf.
    + by rewrite (gw_state _ _ _ Hf).
    + rewrite (gw_state _ _ _ Hf), (gw_flushing _ _ _ Hf). done.
    + destruct x as [o d]. exact (grows_trans [] [(o, d)] _ _ _ Hf Hw).
  - pose proof (grows_refl s Hok) as []. split; try done. intros k Hk. cbn. unfold write_over, fits. unfold in_bounds in Ein. by rewrite Ein.
Qed.
Lemma accept_writes_grow ws s :
  cow_ok s → cc_state s ≠ kClean → Forall (λ x : Z * bytes, 0 ≤ x.1) ws → grows ws s (foldl (λ s x, accept_write cs fresh_memory x s) s ws).
Proof.
  intros Hok Hne Hws. revert s Hok Hne. induction Hws as [|x ws Hx _ IH]; intros s Hok Hne; [by apply grows_refl|]. cbn [foldl].
  pose proof (accept_write_grows x s Hok Hne Hx) as Hg. apply (grows_trans [x] ws _ _ _ Hg). apply IH; [apply Hg|]. by rewrite (gw_state _ _ _ Hg).
Qed.
End Session.
