(* ===== verification/CowPublished.v ===== *)
(** * What a copy-on-write chunk has published

    The state the backend keeps for one chunk of one file: the attached identity, the file
    size, the private heads and the objects.  [CowLaws] is the promise of the metadata
    engine, the head store and the object store to a session: a call that succeeds has
    performed its effect, a call that fails has performed it or not ([AttachPrepared] and
    [FinalizeAttachedWrite] even in part), and identities are never given out twice.
    Between two calls of a session the file may grow and the cleanup may delete objects
    of superseded revisions, but the chunk has a single writer. *)

From stdpp Require Import gmap.
From S2P Require Import Prelude RedisKv Decimal StdMap ChunkGeometry InodeTypes Records MetaTxn MetaEngine StateIo CowChunk CowLocal.

Lemma COWObjectKey_inj id rev id' rev' :
  0 ≤ id → 0 ≤ rev → 0 ≤ id' → 0 ≤ rev' → COWObjectKey id rev = COWObjectKey id' rev' → id = id' ∧ rev = rev'.
Proof.
  intros H1 H2 H3 H4 E. unfold COWObjectKey in E. apply (f_equal (λ s, SplitOnce s "/"%char)) in E. cbn [lit] in E.
  change (lit "/" ++ to_string rev) with ("/"%char :: to_string rev) in E. change (lit "/" ++ to_string rev') with ("/"%char :: to_string rev') in E.
  rewrite !SplitOnce_found in E by (by apply contains_to_string). injection E as E1 E2. split; by apply to_string_inj.
Qed.

Record CowStore := mkCowStore {
  cv_chunk : option Z;
  cv_size : Z;
  cv_head : gmap Z COWChunkHead;
  cv_object : gmap bytes bytes;
  cv_revisions : gmap Z Z;
  cv_next_chunk : Z;
}.
(** Revisions of an identity start at 1. *)
Definition next_revision (v : CowStore) (id : Z) : Z := default 1 (cv_revisions v !! id).

(** ** The effects of the calls *)
Definition bind_chunk (c : option Z) (n : Z) (v : CowStore) : CowStore :=
  mkCowStore c n (cv_head v) (cv_object v) (cv_revisions v) (cv_next_chunk v).
Definition put_head (id : Z) (h : COWChunkHead) (v : CowStore) : CowStore :=
  mkCowStore (cv_chunk v) (cv_size v) (<[id := h]> (cv_head v)) (cv_object v) (cv_revisions v) (cv_next_chunk v).
Definition put_object (key o : bytes) (v : CowStore) : CowStore :=
  mkCowStore (cv_chunk v) (cv_size v) (cv_head v) (<[key := o]> (cv_object v)) (cv_revisions v) (cv_next_chunk v).
Definition use_revision (id n : Z) (v : CowStore) : CowStore :=
  mkCowStore (cv_chunk v) (cv_size v) (cv_head v) (cv_object v) (<[id := n]> (cv_revisions v)) (cv_next_chunk v).
Definition use_chunk (n : Z) (v : CowStore) : CowStore :=
  mkCowStore (cv_chunk v) (cv_size v) (cv_head v) (cv_object v) (cv_revisions v) n.

Definition cow_query {A : Type} (Q : A → CowStore → Prop) (r : result A) (v v' : CowStore) : Prop :=
  v' = v ∧ match r with Ok a => Q a v | Err _ => True end.
Definition cow_update (pre : CowStore → Prop) (f : CowStore → CowStore) (r : result unit) (v v' : CowStore) : Prop :=
  match r with Ok _ => pre v ∧ v' = f v | Err _ => v' = v ∨ (pre v ∧ v' = f v) end.
Definition can_exchange (id : Z) (expected : option COWChunkHead) (replacement : COWChunkHead) (v : CowStore) : Prop :=
  cv_head v !! id = expected ∧ IsValidHead replacement = true.
Definition allocates_revision (id : Z) (r : result Z) (v v' : CowStore) : Prop :=
  (v' = v ∧ ∀ rev, r ≠ Ok rev) ∨ ∃ n, next_revision v id ≤ n ∧ v' = use_revision id n v ∧ ∀ rev, r = Ok rev → next_revision v id ≤ rev < n.
Definition allocates_chunk (r : result Z) (v v' : CowStore) : Prop :=
  (v' = v ∧ ∀ id, r ≠ Ok id) ∨ ∃ n, cv_next_chunk v ≤ n ∧ v' = use_chunk n v ∧ ∀ id, r = Ok id → cv_next_chunk v ≤ id < n.
(** A transaction that failed may have applied some of its commands. *)
Definition binds_chunk (expected : option Z) (id end_ : Z) (r : result unit) (v v' : CowStore) : Prop :=
  match r with
  | Ok _ => cv_chunk v = expected ∧ v' = bind_chunk (Some id) (Z.max (cv_size v) end_) v
  | Err _ => v' = v ∨ (cv_chunk v = expected ∧ ∃ c n, v' = bind_chunk c n v ∧ (c = cv_chunk v ∨ c = Some id) ∧ (n = cv_size v ∨ n = Z.max (cv_size v) end_))
  end.

(** What may happen outside the session. *)
Definition current_or_newer (v : CowStore) (id rev : Z) : Prop := ∀ h, cv_head v !! id = Some h → head_revision h ≤ rev.
Record cow_settles (v v' : CowStore) : Prop := {
  ct_chunk : cv_chunk v' = cv_chunk v;
  ct_size : cv_size v ≤ cv_size v';
  ct_head : cv_head v' = cv_head v;
  ct_object : ∀ id rev o, current_or_newer v id rev → cv_object v !! COWObjectKey id rev = Some o → cv_object v' !! COWObjectKey id rev = Some o;
  ct_revisions : ∀ id, next_revision v id ≤ next_revision v' id;
  ct_next_chunk : cv_next_chunk v ≤ cv_next_chunk v';
}.
#[export] Instance cow_settles_preorder : PreOrder cow_settles.
Proof.
  split; [by intros v; split|]. intros v1 v2 v3 [A1 B1 C1 D1 E1 F1] [A2 B2 C2 D2 E2 F2]. split; try congruence; try lia.
  - intros id rev o Hc Ho. apply D2; [intros h; rewrite C1; apply Hc|]. by apply D1.
  - intros id. etrans; [apply E1|apply E2].
Qed.

Class CowView (W : Type) := {
  cow_view : W → CowStore;
  (** Every write other fibers have handed to the session so far. *)
  cow_arrived : W → list (Z * bytes);
}.
Definition cow_performs `{CowBackend W} `{CowView W} {A : Type} (f : W → result A * W) (E : result A → CowStore → CowStore → Prop) : Prop :=
  ∀ w r w', f w = (r, w') →
  cow_arrived w' = cow_arrived w ++ cb_during w' ∧ Forall (λ x, 0 ≤ x.1) (cb_during w') ∧
  ∃ v, E r (cow_view w) v ∧ cow_settles v (cow_view w').
Class CowLaws (W : Type) `{CowBackend W} `{CowView W} : Prop := {
  cl_snapshot : cow_performs cb_snapshot (cow_query (λ f v, fcs_chunk_id f = cv_chunk v ∧ size (attr (fcs_inode f)) = cv_size v));
  cl_head id : cow_performs (cb_head id) (cow_query (λ h v, cv_head v !! id = Some h));
  cl_get key off n : cow_performs (cb_get key off n) (cow_query (λ b v, ∃ o, cv_object v !! key = Some o ∧ b = substr o off n));
  cl_put key o : cow_performs (cb_put key o) (cow_update (λ _, True) (put_object key o));
  cl_exchange id expected replacement :
    cow_performs (cb_exchange id expected replacement) (cow_update (can_exchange id expected replacement) (put_head id replacement));
  cl_revision id : cow_performs (cb_allocate_revision id) (allocates_revision id);
  cl_chunk : cow_performs cb_allocate_chunk allocates_chunk;
  cl_attach id e x : cow_performs (cb_attach id e x) (binds_chunk None id e);
  cl_finalize id e x : cow_performs (cb_finalize id e x) (binds_chunk (Some id) id e);
  cl_retire id rev : cow_performs (cb_retire id rev) (cow_query (λ _ _, True));
}.

(** ** Well-formed stores *)
Section Store.
Context (cs start : Z).

Record store_ok (v : CowStore) : Prop := {
  so_attached : ∀ id, cv_chunk v = Some id → is_Some (cv_head v !! id);
  so_head : ∀ id h, cv_head v !! id = Some h →
    0 < id < cv_next_chunk v ∧ IsValidHead h = true ∧ 0 < head_revision h < next_revision v id ∧ 0 ≤ head_size h ≤ cs ∧
    ∃ o, cv_object v !! COWObjectKey id (head_revision h) = Some o ∧ head_size h ≤ zlen o;
  so_chunks : 0 < cv_next_chunk v;
  so_revisions : ∀ id, 0 < next_revision v id;
}.
Definition head_content (v : CowStore) (id : Z) : option bytes :=
  h ← cv_head v !! id; o ← cv_object v !! COWObjectKey id (head_revision h); Some (take (Z.to_nat (head_size h)) o).
(** The bytes of the attached chunk, and what a reader sees of them below the end of the file. *)
Definition cow_content (v : CowStore) : option bytes := id ← cv_chunk v; head_content v id.
Definition cow_published (v : CowStore) (k : Z) : ascii :=
  if k <? cv_size v - start then default Ascii.zero (o ← cow_content v; byte_at o k) else Ascii.zero.

(** Objects of current heads survive. *)
Lemma settles_head_content v v' id : cow_settles v v' → store_ok v → head_content v' id = head_content v id.
Proof.
  intros [_ _ Hh Ho _ _] Hok. unfold head_content. rewrite Hh. destruct (cv_head v !! id) as [h|] eqn:E; [|done]. cbn [mbind option_bind].
  destruct (so_head _ Hok id h E) as (_ & _ & _ & _ & o & Hob & _). rewrite Hob. rewrite (Ho id (head_revision h) o); [done| |done].
  intros h'. rewrite E. by intros [= ->].
Qed.
Lemma settles_content v v' : cow_settles v v' → store_ok v → cow_content v' = cow_content v.
Proof.
  intros Hs Hok. unfold cow_content. rewrite (ct_chunk _ _ Hs). destruct (cv_chunk v) as [id|]; [|done]. by apply settles_head_content.
Qed.
Lemma settles_store_ok v v' : cow_settles v v' → store_ok v → store_ok v'.
Proof.
  intros [Hc Hs Hh Ho Hr Hn] [A B C D]. split.
  - intros id. rewrite Hc, Hh. apply A.
  - intros id h. rewrite Hh. intros E. destruct (B id h E) as (? & ? & ? & ? & o & Hob & ?). specialize (Hr id). split_and!; try done; try lia.
    exists o. split; [|done]. apply Ho; [|done]. intros h'. rewrite E. by intros [= ->].
  - lia.
  - intros id. specialize (Hr id). specialize (D id). lia.
Qed.

(** An upload under an unused revision changes nothing that is published. *)
Lemma put_fresh v id rev o :
  store_ok v → 0 ≤ id → 0 ≤ rev → (∀ h, cv_head v !! id = Some h → head_revision h < rev) →
  store_ok (put_object (COWObjectKey id rev) o v) ∧ ∀ id', head_content (put_object (COWObjectKey id rev) o v) id' = head_content v id'.
Proof.
  intros Hok Hid Hrev Hlt.
  assert (∀ id' h, cv_head v !! id' = Some h →
    <[COWObjectKey id rev := o]> (cv_object v) !! COWObjectKey id' (head_revision h) = cv_object v !! COWObjectKey id' (head_revision h)) as Hkeep.
  { intros id' h Eh. destruct (so_head _ Hok id' h Eh) as (? & _ & ? & _). apply lookup_insert_ne. intros E.
    apply COWObjectKey_inj in E as [-> E]; try lia. specialize (Hlt h Eh). lia. }
  split.
  - destruct Hok as [A B C D]. split; try done. intros id' h Eh. cbn [put_object cv_object]. rewrite (Hkeep id' h Eh). by apply B.
  - intros id'. unfold head_content. cbn [put_object cv_object cv_head]. destruct (cv_head v !! id') as [h|] eqn:E; [|done]. cbn [mbind option_bind]. by rewrite (Hkeep id' h E).
Qed.
Lemma use_revision_ok v id n : store_ok v → next_revision v id ≤ n → store_ok (use_revision id n v) ∧ next_revision (use_revision id n v) id = n.
Proof.
  intros [A B C D] Hn. assert (∀ id', next_revision v id' ≤ next_revision (use_revision id n v) id') as Hle.
  { intros id'. unfold next_revision at 2. cbn [use_revision cv_revisions]. destruct (decide (id' = id)) as [->|]; [by rewrite lookup_insert_eq|by rewrite lookup_insert_ne]. }
  split; [|unfold next_revision; cbn [use_revision cv_revisions]; by rewrite lookup_insert_eq]. split; try done.
  - intros id' h Eh. destruct (B id' h Eh) as (? & ? & ? & ? & ?). specialize (Hle id'). split_and!; try done; cbn [use_revision cv_next_chunk]; lia.
  - intros id'. specialize (Hle id'). specialize (D id'). lia.
Qed.
Lemma use_chunk_ok v n : store_ok v → cv_next_chunk v ≤ n → store_ok (use_chunk n v).
Proof.
  intros [A B C D] Hn. split; try done; [|cbn; lia]. intros id h Eh. destruct (B id h Eh) as (? & ? & ? & ? & ?). change (next_revision (use_chunk n v) id) with (next_revision v id). split_and!; try done; cbn [use_chunk cv_next_chunk]; lia.
Qed.
Lemma bind_chunk_ok v c n : store_ok v → (∀ id, c = Some id → is_Some (cv_head v !! id)) → store_ok (bind_chunk c n v).
Proof. intros [A B C D] Hc. by split. Qed.
End Store.
