(* ===== verification/CowFlush.v ===== *)
(** * Publishing a copy-on-write chunk

    A flush publishes the buffer it started with, all of it or nothing of it: the attached
    chunk holds either the bytes it held before or those of the buffer, whatever call fails
    and whatever write arrives in between, and a session whose flush failed still holds
    every byte it was given. *)

From stdpp Require Import gmap.
From S2P Require Import Prelude RedisKv Decimal StdMap ChunkGeometry InodeTypes Records MetaTxn MetaEngine StateIo CowChunk CowLocal CowPublished.

Section Flush.
Context {W : Type} `{CowBackend W} `{CowView W} `{!CowLaws W} (index cs start : Z) (fresh_memory : nat → bytes).
Hypothesis Hcs : 0 < cs.
Hypothesis Hmem : ∀ n, cs ≤ zlen (fresh_memory n).
Abbreviation cst := (COWChunk * W)%type.

(** ** A generation in flight *)
(** [b] is the generation at [g], [w0] the world and [c0] the published bytes when its flush began. *)
Section Generation.
Context (w0 : W) (g : nat) (b : WriteBuf) (session_id : option Z) (c0 : option bytes).

(** The session shows the generation under the writes that arrived since. *)
Definition trails (st : cst) : Prop :=
  ∃ ws, cow_arrived st.2 = cow_arrived w0 ++ ws ∧ ∀ k, 0 ≤ k → local st.1 k = written cs id ws (local_byte b) k.
Record in_flight (st : cst) : Prop := {
  fl_ok : cow_ok cs st.1;
  fl_state : cc_state st.1 = kFlushing;
  fl_flushing : cc_flushing_wb st.1 = Some g;
  fl_generation : buf_at st.1 g = Some b;
  fl_attached : cc_attached_id st.1 = session_id;
  fl_trails : trails st;
  fl_buffered : wb_size b ≤ buffered st.1;
}.
(** What a flush that failed leaves. *)
Record aborted (st : cst) : Prop := {
  ab_ok : cow_ok cs st.1;
  ab_state : cc_state st.1 = kDirty;
  ab_attached : cc_attached_id st.1 = session_id;
  ab_trails : trails st;
  ab_buffered : wb_size b ≤ buffered st.1;
  ab_store : store_ok cs (cow_view st.2);
  ab_content : cow_content (cow_view st.2) = c0 ∨ cow_content (cow_view st.2) = Some (buf_bytes b);
}.
(** [m] ends in flight with [P], or has aborted the flush. *)
Definition carries {A : Type} (m : sio cst A) (P : A → CowStore → Prop) (st : cst) : Prop :=
  swp m (λ r st', match r with Ok a => in_flight st' ∧ P a (cow_view st'.2) | Err _ => aborted st' end) st.

Lemma carries_ret {A : Type} (a : A) (P : A → CowStore → Prop) st : in_flight st → P a (cow_view st.2) → carries (mret a) P st.
Proof. done. Qed.
Lemma carries_bind {A B : Type} (m : sio cst A) (f : A → sio cst B) (P : A → CowStore → Prop) (Q : B → CowStore → Prop) st :
  carries m P st → (∀ a st', in_flight st' → P a (cow_view st'.2) → carries (f a) Q st') → carries (m ≫= f) Q st.
Proof.
  intros Hm Hf. apply swp_bind. eapply swp_mono; [|exact Hm]. intros [a|e] st'; [|done]. intros [Hin HP]. by apply Hf.
Qed.
(** One call: writes that arrive meanwhile go to another buffer. *)
Lemma call_flight {A : Type} (f : W → result A * W) E (Q : result A → cst → Prop) st :
  cow_performs f E → in_flight st →
  (∀ r st' v, in_flight st' → E r (cow_view st.2) v → cow_settles v (cow_view st'.2) → Q r st') →
  swp (cow_call cs fresh_memory f) Q st.
Proof.
  intros Hf Hin HQ. destruct st as [s w]. unfold swp, cow_call. destruct (f w) as [r w'] eqn:Ef. destruct (Hf w r w' Ef) as (Ha & Hd & v & HE & Hs).
  apply (HQ r _ v); [|done|done]. destruct Hin as [F1 F2 F3 F4 F5 (ws & Fa & Fb) F7]. cbn [fst snd] in *.
  pose proof (accept_writes_grow cs fresh_memory Hcs Hmem (cb_during w') s F1 ltac:(by rewrite F2) Hd) as [G1 G2 G3 (G4 & _) G5 G6 G7].
  split; cbn [fst snd]; [done|congruence|congruence|rewrite G5; congruence|congruence| |lia].
  exists (ws ++ cb_during w'). split; [cbn; by rewrite Ha, Fa, app_assoc|]. intros k Hk. cbn [fst]. rewrite G7 by done. unfold written. rewrite foldl_app.
  by apply written_nonneg.
Qed.
Lemma cow_fail_flight {A : Type} e (P : A → CowStore → Prop) st :
  in_flight st → store_ok cs (cow_view st.2) →
  cow_content (cow_view st.2) = c0 ∨ cow_content (cow_view st.2) = Some (buf_bytes b) → carries (cow_fail e) P st.
Proof.
  intros [[B1 B2 B3 B4] F2 F3 F4 F5 F6 F7] Hs Hc. destruct st as [s w]. cbn [fst snd] in *. split; try done. cbn [fst]. split; try done.
  rewrite F2 in B2. cbn. split; [by destruct B2|done].
Qed.
Lemma guard_call {A : Type} (f : W → result A * W) E (P : A → CowStore → Prop) st :
  cow_performs f E → in_flight st →
  (∀ r v v', E r (cow_view st.2) v → cow_settles v v' →
     match r with Ok a => P a v' | Err _ => store_ok cs v' ∧ (cow_content v' = c0 ∨ cow_content v' = Some (buf_bytes b)) end) →
  carries (guard (cow_call cs fresh_memory f)) P st.
Proof.
  intros Hf Hin HP. unfold guard, carries. apply swp_bind, swp_try. apply (call_flight f E); [done|done|]. intros r st' v Hin' HE Hs. specialize (HP r v _ HE Hs).
  destruct r as [a|e]; [done|]. destruct HP. by apply cow_fail_flight.
Qed.
Lemma mark_flight replacement st : in_flight st → in_flight (mark_head_published session_id replacement st).2 ∧
  (mark_head_published session_id replacement st).1 = Ok tt ∧ (mark_head_published session_id replacement st).2.2 = st.2.
Proof.
  intros Hin. pose proof Hin as [[B1 B2 B3 B4] F2 F3 F4 F5 F6 F7]. destruct st as [s w]. cbn [fst snd] in *. unfold mark_head_published.
  destruct session_id as [id|] eqn:Es; [|by split_and!]. split; [|done].
  split; try done; cbn; congruence.
Qed.
Lemma mark_fail_flight {A : Type} replacement e (P : A → CowStore → Prop) st :
  in_flight st → store_ok cs (cow_view st.2) → cow_content (cow_view st.2) = c0 ∨ cow_content (cow_view st.2) = Some (buf_bytes b) →
  carries (_ ← mark_head_published session_id replacement; cow_fail e) P st.
Proof.
  intros Hin Hs Hc. destruct (mark_flight replacement st Hin) as (Hin' & Hr & Hw). unfold carries. apply swp_bind. unfold swp at 1.
  destruct (mark_head_published session_id replacement st) as [r st']. cbn [fst snd] in *. subst r. rewrite <- Hw in Hs, Hc. by apply cow_fail_flight.
Qed.

(** ** The stages of a publication *)
(** The chunk is as it was; [id] and [rev] are reserved for the generation; it is uploaded;
    it is the head of [id]. *)
Definition as_before (v : CowStore) : Prop := store_ok cs v ∧ cow_content v = c0 ∧ cv_chunk v = session_id.
Record numbered (id rev : Z) (v : CowStore) : Prop := {
  nu_base : as_before v;
  nu_id : 0 < id < cv_next_chunk v;
  nu_mine : session_id = None ∨ session_id = Some id;
  nu_rev : 0 < rev < next_revision v id;
  nu_newer : ∀ h, cv_head v !! id = Some h → head_revision h < rev;
}.
Definition uploaded (id rev : Z) (v : CowStore) : Prop := numbered id rev v ∧ cv_object v !! COWObjectKey id rev = Some (buf_bytes b).
Record posted (id : Z) (h : COWChunkHead) (v : CowStore) : Prop := {
  po_store : store_ok cs v;
  po_head : cv_head v !! id = Some h;
  po_content : head_content v id = Some (buf_bytes b);
  po_chunk : cv_chunk v = Some id ∨ (cv_chunk v = None ∧ c0 = None);
}.
Hypothesis Hb : buf_ok cs b.

Lemma untouched_settles v v' : as_before v → cow_settles v v' → as_before v'.
Proof.
  intros (A & B & C) Hs. split_and!; [by eapply settles_store_ok| |by rewrite (ct_chunk _ _ Hs)]. by rewrite (settles_content cs _ _ Hs A).
Qed.
Lemma numbered_settles id rev v v' : numbered id rev v → cow_settles v v' → numbered id rev v'.
Proof.
  intros [A B C D E] Hs. pose proof (ct_next_chunk _ _ Hs). pose proof (ct_revisions _ _ Hs id).
  split; [by eapply untouched_settles|lia|done|lia|]. intros h. rewrite (ct_head _ _ Hs). apply E.
Qed.
Lemma uploaded_settles id rev v v' : uploaded id rev v → cow_settles v v' → uploaded id rev v'.
Proof.
  intros [A B] Hs. split; [by eapply numbered_settles|]. apply (ct_object _ _ Hs); [|done]. intros h Eh. pose proof (nu_newer _ _ _ A h Eh). lia.
Qed.
Lemma posted_settles id h v v' : posted id h v → cow_settles v v' → posted id h v'.
Proof.
  intros [A B C D] Hs. split; [by eapply settles_store_ok|by rewrite (ct_head _ _ Hs)|by rewrite (settles_head_content cs _ _ _ Hs A)|by rewrite (ct_chunk _ _ Hs)].
Qed.
(** Atomicity at every stage. *)
Definition whole (v : CowStore) : Prop := store_ok cs v ∧ (cow_content v = c0 ∨ cow_content v = Some (buf_bytes b)).
Lemma untouched_whole v : as_before v → whole v.
Proof. intros (A & B & _). split; auto. Qed.
Lemma posted_whole id h v : posted id h v → whole v.
Proof. intros [A B C [D|[D E]]]; (split; [done|]); unfold cow_content; rewrite D; [by right|by left]. Qed.

Lemma put_head_posted id rev v :
  uploaded id rev v → IsValidHead (mkCOWHead rev (wb_size b)) = true → posted id (mkCOWHead rev (wb_size b)) (put_head id (mkCOWHead rev (wb_size b)) v).
Proof.
  intros [[([S1 S2 S3 S4] & U2 & U3) B C D E] Ho] Hv. pose proof (visible_zlen cs Hcs b Hb) as Hz. pose proof Hb as [Hb1 Hb2]. split.
  - split; try done.
    + intros id' E'. cbn [put_head cv_head]. apply S1 in E' as [h' Eh']. destruct (decide (id' = id)) as [->|]; [by rewrite lookup_insert_eq|rewrite lookup_insert_ne by done; by eauto].
    + intros id' h'. cbn [put_head cv_head]. destruct (decide (id' = id)) as [->|]; [rewrite lookup_insert_eq|rewrite lookup_insert_ne by done; apply S2].
      intros [= <-]. cbn [head_revision head_size]. change (next_revision (put_head _ _ v) id) with (next_revision v id). cbn [cv_next_chunk put_head cv_object]. split_and!; try done; try lia. exists (buf_bytes b). split; [done|lia].
  - apply lookup_insert_eq.
  - unfold head_content. cbn [put_head cv_head cv_object]. rewrite lookup_insert_eq. cbn [mbind option_bind head_revision head_size]. rewrite Ho. cbn [mbind option_bind].
    f_equal. apply take_ge. unfold zlen in Hz. lia.
  - cbn [put_head cv_chunk]. rewrite U3. destruct C as [-> | ->]; [right|by left]. split; [done|]. rewrite <- U2. unfold cow_content. by rewrite U3.
Qed.
Lemma posted_binds id h expected e r v v' : posted id h v → binds_chunk expected id e r v v' → posted id h v'.
Proof.
  intros [A B C D] Hb'. assert (∃ c n, v' = bind_chunk c n v ∧ (c = cv_chunk v ∨ c = Some id)) as (c & n & -> & Hc).
  { destruct r as [u|e']; [destruct Hb' as [_ ->]; eauto|]. destruct Hb' as [->|(_ & c & n & -> & ? & _)]; [|eauto]. exists (cv_chunk v), (cv_size v). split; [by destruct v|by left]. }
  split; [apply bind_chunk_ok; [done|]|done|done|].
  - intros id' ->. destruct Hc as [Hc|[= ->]]; [by apply (so_attached _ _ A)|by rewrite B].
  - destruct Hc as [-> | ->]; [done|by left].
Qed.

(** ** The steps *)
Lemma fail_whole {A : Type} e (P : A → CowStore → Prop) st : in_flight st → whole (cow_view st.2) → carries (cow_fail e) P st.
Proof. intros Hin [? ?]. by apply cow_fail_flight. Qed.
Lemma mark_fail_whole {A : Type} h e (P : A → CowStore → Prop) st :
  in_flight st → whole (cow_view st.2) → carries (_ ← mark_head_published session_id h; cow_fail e) P st.
Proof. intros Hin [? ?]. by apply mark_fail_flight. Qed.
Lemma guard_head id h (P : COWChunkHead → CowStore → Prop) st :
  in_flight st → posted id h (cow_view st.2) → (∀ v, posted id h v → cow_settles (cow_view st.2) v → P h v) → carries (guard (cow_call cs fresh_memory (cb_head id))) P st.
Proof.
  intros Hin Hp HP. apply (guard_call _ _ _ _ (cl_head id) Hin). intros r v v' [-> Hr] Hs. pose proof (posted_settles _ _ _ _ Hp Hs) as Hp'.
  destruct r as [x|e]; [|exact (posted_whole _ _ _ Hp')]. rewrite (po_head _ _ _ Hp) in Hr. injection Hr as <-. by apply HP.
Qed.

Definition finalize_post (id end_ : Z) (h : COWChunkHead) (o : FinalizeOutcome) (v : CowStore) : Prop :=
  posted id h v ∧ match o with
    | Finalized => cv_chunk v = Some id ∧ end_ ≤ cv_size v
    | RetryFresh _ => session_id = None ∧ cv_chunk v = None
    end.
(** [observed] describes a state of the store the session has seen since. *)
Definition describes (observed : FileChunkSnapshot) (v : CowStore) : Prop :=
  fcs_chunk_id observed = cv_chunk v ∧ size (attr (fcs_inode observed)) ≤ cv_size v.
Lemma describes_settles f v v' : describes f v → cow_settles v v' → describes f v'.
Proof. intros [A B] [C D _ _ _ _]. split; [congruence|lia]. Qed.

Lemma attach_conflict_spec id end_ h file observed status st :
  session_id = None → in_flight st → posted id h (cow_view st.2) → describes observed (cow_view st.2) →
  carries (attach_conflict cs fresh_memory id end_ h file observed status) (finalize_post id end_ h) st.
Proof.
  intros Hnone Hin Hp Hd. unfold attach_conflict. pose proof (posted_whole _ _ _ Hp) as Hw. destruct (IsOutcomeUnknown status).
  - destruct (bool_decide _ && _) eqn:E; [|by apply fail_whole]. apply andb_true_iff in E as [Ec%bool_decide_eq_true Ez].
    apply (carries_bind _ _ (λ x v, x = h ∧ posted id h v ∧ describes observed v)).
    { apply (guard_head id h); [done|done|]. intros v Hv Hs. split_and!; [done|done|by eapply describes_settles]. }
    intros x st' Hin' (-> & Hp' & Hd1 & Hd2). rewrite bool_decide_eq_true_2 by done.
    apply carries_ret; [done|]. split; [done|]. split; [congruence|zlia].
  - destruct ((_ && _) && _) eqn:E; [|by apply fail_whole]. apply andb_true_iff in E as [E _]. apply andb_true_iff in E as [_ Ec%bool_decide_eq_true].
    apply carries_ret; [done|]. split; [done|]. split; [done|]. destruct Hd. congruence.
Qed.

Lemma finalize_spec n status id end_ h file st :
  in_flight st → posted id h (cow_view st.2) → (session_id = None ∨ session_id = Some id) →
  carries (finalize cs fresh_memory n status session_id id end_ h file) (finalize_post id end_ h) st.
Proof.
  intros Hin Hp Hsid. revert status file st Hin Hp. induction n as [|n IH]; intros status file st Hin Hp.
  { apply mark_fail_whole; [done|by eapply posted_whole]. }
  cbn [finalize]. set (f := match session_id with Some _ => _ | None => _ end).
  assert (∃ expected, cow_performs f (binds_chunk expected id end_)) as [expected Hf].
  { subst f. destruct session_id; eexists; [apply cl_finalize|apply cl_attach]. }
  unfold carries. apply swp_bind, swp_try. apply (call_flight _ _ _ _ Hf Hin). intros r st1 v1 Hin1 Hbind Hs1.
  pose proof (posted_settles _ _ _ _ (posted_binds _ _ _ _ _ _ _ Hp Hbind) Hs1) as Hp1. pose proof (posted_whole _ _ _ Hp1) as Hw1.
  destruct r as [[]|e].
  { apply carries_ret; [done|]. split; [done|]. destruct Hbind as [_ ->]. split; [by rewrite (ct_chunk _ _ Hs1)|]. pose proof (ct_size _ _ Hs1). cbn in *. lia. }
  destruct (negb _ && negb _); [by apply mark_fail_whole|].
  apply swp_bind, swp_try. apply (call_flight _ _ _ _ cl_snapshot Hin1). intros r st2 v2 Hin2 [-> Hr] Hs2.
  pose proof (posted_settles _ _ _ _ Hp1 Hs2) as Hp2. pose proof (posted_whole _ _ _ Hp2) as Hw2.
  destruct r as [observed|e2]; [|by apply mark_fail_whole].
  assert (describes observed (cow_view st2.2)) as Hd by (apply (describes_settles _ (cow_view st1.2)); [|done]; destruct Hr; split; [done|lia]).
  destruct session_id as [sid|] eqn:Esid; [|by apply attach_conflict_spec].
  rewrite <- Esid in *. destruct (IsOutcomeUnknown e); [by apply mark_fail_whole|].
  destruct (negb (bool_decide _)); [by apply fail_whole|].
  apply (carries_bind _ _ (λ x v, x = h ∧ posted id h v)); [by apply (guard_head id h); [..|auto]|]. intros x st3 Hin3 [-> Hp3].
  pose proof (posted_whole _ _ _ Hp3) as Hw3. rewrite bool_decide_eq_true_2 by done. cbn [negb].
  destruct (_ <? _); [by apply mark_fail_whole|]. by apply IH.
Qed.

Lemma publish_head_spec id rev session_head st :
  in_flight st → uploaded id rev (cow_view st.2) →
  carries (publish_head cs fresh_memory id session_head (mkCOWHead rev (wb_size b))) (λ _ v, posted id (mkCOWHead rev (wb_size b)) v) st.
Proof.
  intros Hin Hu. set (h := mkCOWHead rev (wb_size b)). unfold publish_head, carries. apply swp_bind, swp_try.
  apply (call_flight _ _ _ _ (cl_exchange id session_head h) Hin). intros r st1 v1 Hin1 HE Hs1.
  assert (uploaded id rev (cow_view st1.2) ∧ (∀ x, r ≠ Ok x) ∨ posted id h (cow_view st1.2)) as Hv.
  { assert (can_exchange id session_head h (cow_view st.2) → posted id h (put_head id h (cow_view st.2))) as Hput by (intros [_ Hok]; by apply put_head_posted).
    destruct r as [u|e]; cbn in HE; [right|destruct HE as [->|[Hc ->]]; [left|right]].
    - destruct HE as [Hc ->]. by eapply posted_settles; [apply Hput|].
    - split; [by eapply uploaded_settles|done].
    - by eapply posted_settles; [apply Hput|]. }
  assert (whole (cow_view st1.2)) as Hw by (destruct Hv as [[[Hn _] _]|Hp]; [apply untouched_whole, Hn|by eapply posted_whole]).
  destruct r as [u|e]; [destruct Hv as [[_ Hn]|Hp]; [by destruct (Hn u)|by apply carries_ret]|].
  assert (∀ e' st', in_flight st' → whole (cow_view st'.2) → carries (A := unit) (cow_fail e') (λ _ v, posted id h v) st') as Hfail by (intros; by apply fail_whole).
  destruct (decide (e = OutcomeUnknown)) as [->|Hne]; [|by destruct e; try done; apply Hfail].
  apply swp_bind, swp_try. apply (call_flight _ _ _ _ (cl_head id) Hin1). intros r st2 v2 Hin2 [-> Hr] Hs2.
  assert (uploaded id rev (cow_view st2.2) ∨ posted id h (cow_view st2.2)) as Hv2
    by (destruct Hv as [[Hu1 _]|Hp]; [left; by eapply uploaded_settles|right; by eapply posted_settles]).
  assert (whole (cow_view st2.2)) as Hw2 by (destruct Hv2 as [[Hn _]|Hp]; [apply untouched_whole, Hn|by eapply posted_whole]).
  destruct r as [x|e2]; [|by apply Hfail]. case_bool_decide as Ex; [|by apply Hfail]. apply carries_ret; [done|].
  destruct Hv2 as [[Hn _]|Hp]; [|done]. pose proof (nu_newer _ _ _ Hn x) as Hlt. rewrite (ct_head _ _ Hs2), Hr in Hlt. specialize (Hlt eq_refl). rewrite Ex in Hlt. cbn in Hlt. lia.
Qed.

Lemma deref_flight {A : Type} (f : WriteBuf → sio cst A) (P : A → CowStore → Prop) st : in_flight st → carries (f b) P st → carries (deref g ≫= f) P st.
Proof. intros Hin Hf. unfold carries. apply swp_bind. unfold swp at 1, deref. by rewrite (fl_generation _ Hin). Qed.

(** The identity a candidate is published under. *)
Lemma candidate_spec st :
  in_flight st → as_before (cow_view st.2) →
  carries (match session_id with Some id => mret id | None => guard (cow_call cs fresh_memory cb_allocate_chunk) end)
    (λ id v, as_before v ∧ 0 < id < cv_next_chunk v ∧ (session_id = None ∨ session_id = Some id)) st.
Proof.
  intros Hin Hu. pose proof Hu as (Hok & Hc & Hsid). destruct session_id as [id|] eqn:Es.
  - apply carries_ret; [done|]. split_and!; [done|..|by right]; destruct (so_attached _ _ Hok id Hsid) as [h Hh]; by destruct (so_head _ _ Hok id h Hh) as ([? ?] & _).
  - apply (guard_call _ _ _ _ cl_chunk Hin). intros r v v' [[-> Hr]|(n & Hn & -> & Hr)] Hs.
    { pose proof (untouched_settles _ _ (conj Hok (conj Hc (eq_trans Hsid (eq_sym Es)))) Hs). destruct r as [id|e]; [by destruct (Hr id)|by apply untouched_whole]. }
    assert (as_before (use_chunk n (cow_view st.2))) as Hu' by (split_and!; [by apply use_chunk_ok|done|by rewrite Es]).
    pose proof (untouched_settles _ _ Hu' Hs) as Hu2. destruct r as [id|e]; [|by apply untouched_whole].
    specialize (Hr id eq_refl). pose proof (ct_next_chunk _ _ Hs) as Hm. cbn in Hm. pose proof (so_chunks _ _ Hok). split_and!; [done|lia|lia|by left].
Qed.
Lemma allocate_revision_spec id st :
  in_flight st → as_before (cow_view st.2) → 0 < id < cv_next_chunk (cow_view st.2) → (session_id = None ∨ session_id = Some id) →
  carries (guard (cow_call cs fresh_memory (cb_allocate_revision id))) (λ rev v, numbered id rev v) st.
Proof.
  intros Hin Hu Hid Hsid. pose proof Hu as (Hok & Hc & Hch). apply (guard_call _ _ _ _ (cl_revision id) Hin). intros r v v' [[-> Hr]|(n & Hn & -> & Hr)] Hs.
  { pose proof (untouched_settles _ _ Hu Hs). destruct r as [rev|e]; [by destruct (Hr rev)|by apply untouched_whole]. }
  destruct (use_revision_ok cs _ id n Hok Hn) as [Hok' Hnext]. assert (as_before (use_revision id n (cow_view st.2))) as Hu' by done.
  destruct r as [rev|e]; [|apply untouched_whole; by eapply untouched_settles]. specialize (Hr rev eq_refl). pose proof (so_revisions _ _ Hok id).
  eapply numbered_settles; [|exact Hs]. split; [done|done|done|lia|]. intros h Hh. destruct (so_head _ _ Hok id h Hh) as (_ & _ & ? & _). lia.
Qed.
Lemma put_spec id rev st :
  in_flight st → numbered id rev (cow_view st.2) →
  carries (guard (cow_call cs fresh_memory (cb_put (COWObjectKey id rev) (CloneBuf b)))) (λ _ v, uploaded id rev v) st.
Proof.
  intros Hin Hn. pose proof Hn as [(Hok & Hc & Hch) Hid Hsid Hrev Hnew]. apply (guard_call _ _ _ _ (cl_put _ _) Hin). intros r v v' HE Hs.
  destruct (put_fresh cs _ id rev (buf_bytes b) Hok ltac:(lia) ltac:(lia) Hnew) as [Hok' Hcont].
  assert (uploaded id rev (put_object (COWObjectKey id rev) (buf_bytes b) (cow_view st.2))) as Hup.
  { split; [|apply lookup_insert_eq]. split; try done. split_and!; try done. rewrite <- Hc. unfold cow_content. cbn [put_object cv_chunk].
    by destruct (cv_chunk (cow_view st.2)); cbn [mbind option_bind]. }
  assert (v = cow_view st.2 ∨ v = put_object (COWObjectKey id rev) (buf_bytes b) (cow_view st.2)) as Hv by (destruct r as [u|e]; cbn in HE; unfold CloneBuf in HE; intuition).
  destruct r as [u|e].
  - cbn in HE. unfold CloneBuf in HE. destruct HE as [_ ->]. by eapply uploaded_settles.
  - apply untouched_whole. destruct Hv as [-> | ->]; (eapply untouched_settles; [|exact Hs]); [apply Hn|apply Hup].
Qed.

Lemma guard_lift {A : Type} (r : result A) (P : A → CowStore → Prop) st :
  in_flight st → whole (cow_view st.2) → (∀ a, r = Ok a → P a (cow_view st.2)) → carries (guard (s_lift r)) P st.
Proof. intros Hin Hw HP. unfold guard. destruct r as [a|e]; [|exact (fail_whole e P st Hin Hw)]. apply (carries_ret a); auto. Qed.

Lemma publish_spec n session_head end_ file st :
  in_flight st → as_before (cow_view st.2) →
  carries (publish index cs fresh_memory n session_id session_head g end_ file)
    (λ p v, posted p.1 p.2 v ∧ head_size p.2 = wb_size b ∧ cv_chunk v = Some p.1 ∧ end_ ≤ cv_size v) st.
Proof.
  revert file st. induction n as [|n IH]; intros file st Hin Hu; [apply fail_whole; [done|by apply untouched_whole]|]. cbn [publish].
  eapply carries_bind; [by apply candidate_spec|]. intros id st1 Hin1 (Hu1 & Hid & Hsid).
  apply (carries_bind _ _ (λ _ v, v = cow_view st1.2)).
  { by apply guard_lift; [..|apply untouched_whole|]. }
  intros ? st1' Hin1' Ev. rewrite <- Ev in *. eapply carries_bind; [by apply allocate_revision_spec|]. intros rev st2 Hin2 Hn.
  apply deref_flight; [done|]. eapply carries_bind; [by apply put_spec|]. intros ? st3 Hin3 Hup.
  eapply carries_bind; [by apply publish_head_spec|]. intros ? st4 Hin4 Hp.
  eapply carries_bind; [by apply finalize_spec|]. intros [|file'] st5 Hin5 [Hp5 Hout].
  - apply carries_ret; [done|]. by split_and!; try apply Hout.
  - destruct Hout as [Hs Hc]. apply IH; [done|]. pose proof Hp5 as [Hok _ _ Hch]. split_and!; [done| |congruence].
    unfold cow_content. rewrite Hc. destruct Hch as [Hch|[_ ->]]; [congruence|done].
Qed.

(** ** The whole flush *)
Lemma check_current_spec session_head file st :
  in_flight st → store_ok cs (cow_view st.2) → cow_content (cow_view st.2) = c0 → describes file (cow_view st.2) →
  carries (check_current cs fresh_memory session_id session_head file) (λ _ v, as_before v) st.
Proof.
  intros Hin Hok Hc [Hd _]. unfold check_current.
  destruct (bool_decide _) eqn:Ed; cbn [negb]; [|apply fail_whole; [done|split; auto]]. apply bool_decide_eq_true in Ed.
  assert (as_before (cow_view st.2)) as Hu by (split_and!; [done|done|congruence]).
  destruct session_id as [sid|] eqn:Es; [|by apply carries_ret].
  unfold carries. apply swp_bind, swp_try. apply (call_flight _ _ _ _ (cl_head sid) Hin). intros r st' v Hin' [-> Hr] Hs.
  pose proof (untouched_settles _ _ Hu Hs) as Hu'.
  assert (∀ e, carries (A := unit) (cow_fail e) (λ _ v, as_before v) st') as Hfail by (intros e; apply fail_whole; [done|by apply untouched_whole]).
  destruct r as [x|e]; [case_bool_decide; [by apply carries_ret|apply Hfail]|]. by destruct e; apply Hfail.
Qed.
Hypothesis Hstart : CalculateChunkStartOffset index cs = Ok start.

Lemma flush_publish_spec session_head st :
  in_flight st → store_ok cs (cow_view st.2) → cow_content (cow_view st.2) = c0 →
  carries (flush_publish index cs fresh_memory g session_id session_head) (λ p v, posted p.1 p.2 v ∧ head_size p.2 = wb_size b ∧ cv_chunk v = Some p.1 ∧ start + wb_size b ≤ cv_size v) st.
Proof.
  intros Hin Hok Hc. unfold flush_publish.
  apply (carries_bind _ _ (λ file v, store_ok cs v ∧ cow_content v = c0 ∧ describes file v)).
  { apply (guard_call _ _ _ _ cl_snapshot Hin). intros r v v' [-> Hr] Hs. pose proof (settles_store_ok cs _ _ Hs Hok) as Hok'.
    assert (cow_content v' = c0) as Hc' by (by rewrite (settles_content cs _ _ Hs Hok)). destruct r as [file|e]; [|by split; [|left]].
    split_and!; [done|done|]. apply (describes_settles _ (cow_view st.2)); [|done]. destruct Hr. split; [done|lia]. }
  intros file st1 Hin1 (Hok1 & Hc1 & Hd1). eapply carries_bind; [by apply check_current_spec|]. intros ? st2 Hin2 Hu2. cbn beta in Hu2.
  apply (carries_bind _ _ (λ x v, x = start ∧ as_before v)).
  { apply guard_lift; [done|by apply untouched_whole|]. rewrite Hstart. by intros x [= ->]. }
  intros x st3 Hin3 [-> Hu3]. apply deref_flight; [done|]. destruct (_ >? _); [apply fail_whole; [done|by apply untouched_whole]|]. by apply publish_spec.
Qed.
End Generation.
End Flush.
