(* ===== verification/CowSession.v ===== *)
(** * What a copy-on-write session shows

    The bytes a session shows its readers, as one map: those of the buffer while it has one,
    those of the current head otherwise.  Reads return them, writes replace the bytes they
    cover, truncation cuts them, a flush does not change them. *)

From stdpp Require Import gmap.
From S2P Require Import Prelude RedisKv Decimal StdMap ChunkGeometry InodeTypes Records MetaTxn MetaEngine StateIo CowChunk CowLocal CowPublished CowFlush.

Section Session.
Context {W : Type} `{CowBackend W} `{CowView W} `{!CowLaws W} (index cs start : Z) (fresh_memory : nat → bytes).
Hypothesis Hcs : 0 < cs.
Hypothesis Hmem : ∀ n, cs ≤ zlen (fresh_memory n).
Hypothesis Hstart : CalculateChunkStartOffset index cs = Ok start.
Abbreviation cst := (COWChunk * W)%type.

Definition head_byte (v : CowStore) (id : Z) (h : COWChunkHead) (k : Z) : ascii :=
  default Ascii.zero (o ← cv_object v !! COWObjectKey id (head_revision h); byte_at o k).
Definition clean_byte (s : COWChunk) (v : CowStore) (k : Z) : ascii :=
  match cc_attached_id s with
  | Some id => match cv_head v !! id with
               | Some h => if k <? VisibleBytesForHeadLocked s h then head_byte v id h k else Ascii.zero
               | None => Ascii.zero
               end
  | None => Ascii.zero
  end.
Definition cow_byte (s : COWChunk) (v : CowStore) (k : Z) : ascii :=
  match cc_state s with kClean => clean_byte s v k | _ => local s k end.

(** A clean session knows the revision it shows. *)
Definition linked (s : COWChunk) (v : CowStore) : Prop :=
  ∃ id h ph, cc_attached_id s = Some id ∧ cv_chunk v = Some id ∧ cv_head v !! id = Some h ∧
    cc_published_head s = Some ph ∧ head_revision ph = head_revision h ∧ 0 ≤ head_size ph ≤ cs ∧ cc_visible_prefix s ≤ cs.
Record cow_inv (s : COWChunk) (v : CowStore) : Prop := {
  ci_ok : cow_ok cs s;
  ci_store : store_ok cs v;
  ci_linked : cc_state s = kClean → linked s v;
}.

Lemma linked_settles s v v' : linked s v → cow_settles v v' → linked s v'.
Proof. intros (id & h & ph & A & B & C & D & E) Hs. exists id, h, ph. rewrite (ct_chunk _ _ Hs), (ct_head _ _ Hs). done. Qed.
Lemma head_byte_settles v v' id h k : store_ok cs v → cv_head v !! id = Some h → cow_settles v v' → head_byte v' id h k = head_byte v id h k.
Proof.
  intros Hok Hh Hs. unfold head_byte. destruct (so_head _ _ Hok id h Hh) as (_ & _ & _ & _ & o & Ho & _).
  rewrite Ho, (ct_object _ _ Hs id (head_revision h) o); [done| |done]. intros h'. rewrite Hh. by intros [= ->].
Qed.
Lemma cow_byte_settles s v v' k : store_ok cs v → cow_settles v v' → cow_byte s v' k = cow_byte s v k.
Proof.
  intros Hok Hs. unfold cow_byte. destruct (cc_state s); try done. unfold clean_byte. rewrite (ct_head _ _ Hs).
  destruct (cc_attached_id s) as [id|]; [|done]. destruct (cv_head v !! id) as [h|] eqn:Eh; [|done]. by rewrite (head_byte_settles v v' id h k Hok Eh Hs).
Qed.
Lemma cow_inv_settles s v v' : cow_inv s v → cow_settles v v' → cow_inv s v'.
Proof. intros [A B C] Hs. split; [done|by eapply settles_store_ok|]. intros E. eapply linked_settles; eauto. Qed.

(** ** Flush *)
Lemma settle_inv w0 g b session_id c0 id h st :
  in_flight cs w0 g b session_id st → buf_ok cs b → posted cs b c0 id h (cow_view st.2) →
  head_size h = wb_size b → cv_chunk (cow_view st.2) = Some id →
  let s' := settle id h g st.1 in
  cow_inv s' (cow_view st.2) ∧ cc_state s' ≠ kFlushing ∧ cc_attached_id s' = Some id ∧ wb_size b ≤ cc_visible_prefix s' ∧
  (cc_state s' = kDirty → wb_size b ≤ buffered s') ∧ ∀ k, 0 ≤ k → cow_byte s' (cow_view st.2) k = local st.1 k.
Proof.
  intros [F1 F2 F3 F4 F5 F6 F7] Hb Hp Hsz Hch. cbn zeta. destruct st as [s w]. cbn [fst snd] in *. destruct F1 as [B1 B2 B3 B4]. pose proof Hp as [P1 P2 P3 _].
  rewrite F2 in B2. destruct B2 as ([bc Hc] & _). unfold settle. rewrite F4. cbn [cc_wb set_published]. case_bool_decide as E.
  - assert (current_buf s = Some b) as Hcb by (unfold current_buf; by rewrite E).
    split_and!; try done.
    + split; [|done|].
      * split; cbn; try done; destruct Hb; lia.
      * intros _. exists id, h, h. split_and!; try done; cbn; destruct Hb; lia.
    + intros k Hk. unfold cow_byte, clean_byte, local. cbn. rewrite P2, Hcb. unfold VisibleBytesForHeadLocked. cbn. rewrite Z.eqb_refl. cbn [negb].
      rewrite Z.min_l by lia. rewrite Hsz. unfold local_byte, head_byte. unfold head_content in P3. rewrite P2 in P3. cbn [mbind option_bind] in P3.
      destruct (cv_object _ !! _) as [o|]; [|done]. cbn [mbind option_bind] in P3 |- *. injection P3 as Eo. rewrite <- Eo, byte_at_take, Hsz. by destruct (k <? _).
  - split_and!; try done.
    + split; [|done|done]. split; cbn; try done; destruct Hb; lia.
Qed.

Lemma retire_spec session_id session_head h s w (Q : result unit → cst → Prop) :
  (∀ w' later, cow_arrived w' = cow_arrived w ++ later → later = [] ∨ later = cb_during w' → cow_settles (cow_view w) (cow_view w') → Q (Ok tt) (s, w')) →
  swp (retire_previous session_id session_head h) Q (s, w).
Proof.
  intros HQ. assert (swp (mret tt : sio cst unit) Q (s, w)) as Hret by (apply swp_ret, (HQ w []); [by rewrite app_nil_r|by left|reflexivity]).
  unfold retire_previous. destruct session_id as [id|], session_head as [h0|]; try done. destruct (_ =? _); [done|].
  unfold swp, mbind, sio_bind, s_try, call_locked. destruct (cb_retire id (head_revision h0) w) as [r w'] eqn:E.
  destruct (cl_retire id (head_revision h0) w r w' E) as (Ha & _ & v & [-> _] & Hs). eapply HQ; [exact Ha|by right|done].
Qed.

(** The effect of a flush on what the session shows and on what is published.  The writes
    that arrive during its last call, which a successful flush makes under the lock, wait. *)
Definition flush_post (s : COWChunk) (w : W) (r : result unit) (st : cst) : Prop :=
  cow_inv st.1 (cow_view st.2) ∧ cc_state st.1 ≠ kFlushing ∧
  (∃ ws later, cow_arrived st.2 = cow_arrived w ++ ws ++ later ∧ (later = [] ∨ r = Ok tt ∧ later = cb_during st.2) ∧
     ∀ k, 0 ≤ k → cow_byte st.1 (cow_view st.2) k = written cs id ws (cow_byte s (cow_view w)) k) ∧
  (cow_content (cow_view st.2) = cow_content (cow_view w) ∨ cow_content (cow_view st.2) = buf_bytes <$> current_buf s) ∧
  (cc_state st.1 = kDirty → buffered s ≤ buffered st.1) ∧
  match r with
  | Ok _ => if bool_decide (cc_state s = kClean) || (buffered s =? 0) then st = (s, w)
            else cow_content (cow_view st.2) = buf_bytes <$> current_buf s ∧ start + buffered s ≤ cv_size (cow_view st.2) ∧
                 (cc_state st.1 = kClean → buffered s ≤ cc_visible_prefix st.1)
  | Err _ => cc_state st.1 = kDirty ∧ buffered s ≠ 0
  end.
Lemma flush_idle s w :
  cow_inv s (cow_view w) → cc_state s ≠ kFlushing → bool_decide (cc_state s = kClean) || (buffered s =? 0) = true → flush_post s w (Ok tt) (s, w).
Proof.
  intros Hinv Hne Hidle. unfold flush_post. cbn [fst snd]. rewrite Hidle. split_and!; try done; [|by left].
  exists [], []. split_and!; [by rewrite !app_nil_r|by left|done].
Qed.
Lemma flush_settled s w g b session_id p w1 s1 :
  in_flight cs w g b session_id (s1, w1) → current_buf s = Some b → buf_ok cs b → cc_state s = kDirty → wb_size b ≠ 0 →
  posted cs b (cow_content (cow_view w)) p.1 p.2 (cow_view w1) → head_size p.2 = wb_size b → cv_chunk (cow_view w1) = Some p.1 →
  start + wb_size b ≤ cv_size (cow_view w1) → ∀ w2 later, cow_arrived w2 = cow_arrived w1 ++ later → later = [] ∨ later = cb_during w2 →
  cow_settles (cow_view w1) (cow_view w2) → flush_post s w (Ok tt) (settle p.1 p.2 g s1, w2).
Proof.
  intros Hin Hc Hb Hst Hnz Hp Hsz Hch Hend w2 later Ha Hlt Hs. pose proof Hin as [_ _ _ _ _ (ws & Hws & Hl) _].
  destruct (settle_inv _ _ _ _ _ _ _ _ Hin Hb Hp Hsz Hch) as (Hinv & Hnf & Hat & Hpre & Hbuf & Hby). cbn [fst snd] in *. pose proof (po_store _ _ _ _ _ _ Hp) as Hok.
  assert (buffered s = wb_size b) as Ebuf by (unfold buffered; by rewrite Hc).
  assert (cow_content (cow_view w2) = buf_bytes <$> current_buf s) as Hcont.
  { rewrite (settles_content cs _ _ Hs Hok), Hc. unfold cow_content. rewrite Hch. cbn. apply (po_content _ _ _ _ _ _ Hp). }
  unfold flush_post. cbn [fst snd]. rewrite Ebuf, Hst, (proj2 (Z.eqb_neq _ 0)), bool_decide_eq_false_2 by done. cbn [orb]. split_and!; try done.
  - by eapply cow_inv_settles.
  - exists ws, later. split; [by rewrite Ha, Hws, app_assoc|]. split; [naive_solver|]. intros k Hk. rewrite (cow_byte_settles _ _ _ k Hok Hs), Hby, Hl by done.
    apply written_nonneg; [|done]. intros j Hj. unfold cow_byte, local. by rewrite Hst, Hc.
  - by right.
  - pose proof (ct_size _ _ Hs). lia.
Qed.
Lemma flush_aborted s w b session_id s1 w1 e :
  aborted cs w b session_id (cow_content (cow_view w)) (s1, w1) → current_buf s = Some b → cc_state s = kDirty → wb_size b ≠ 0 → flush_post s w (Err e) (s1, w1).
Proof.
  intros [A1 A2 A3 (ws & Hws & Hl) A5 A6 A7] Hc Hst Hnz. unfold flush_post. cbn [fst snd] in *.
  assert (buffered s = wb_size b) as Ebuf by (unfold buffered; by rewrite Hc). rewrite Ebuf, Hc. split_and!; try done; try congruence.
  - split; [done|done|congruence].
  - exists ws, []. split; [by rewrite app_nil_r|]. split; [by left|]. intros k Hk. unfold cow_byte at 1. rewrite A2, Hl by done. apply written_nonneg; [|done].
    intros j Hj. unfold cow_byte, local. by rewrite Hst, Hc.
Qed.
Lemma COWChunk_Flush_spec s w : cow_inv s (cow_view w) → cc_state s ≠ kFlushing → swp (COWChunk_Flush index cs fresh_memory) (flush_post s w) (s, w).
Proof.
  intros Hinv Hne. unfold COWChunk_Flush. apply swp_bind. unfold swp at 1, c_get. cbn [fst].
  destruct (cc_state s) eqn:Est; [|done|apply swp_ret, flush_idle; [done|by rewrite Est|by rewrite Est]].
  destruct (held_buf cs s (ci_ok _ _ Hinv) ltac:(by rewrite Est)) as (g & b & Ea & Hg & Hc & Hb). rewrite Ea, Hc.
  assert (buffered s = wb_size b) as Ebuf by (unfold buffered; by rewrite Hc).
  destruct (Z.eqb_spec (wb_size b) 0) as [Ez|Ez]; [apply swp_ret, flush_idle; [done|by rewrite Est|by rewrite Ebuf, Ez, orb_true_r]|].
  apply swp_bind. unfold swp at 1, c_modify. cbn [fst snd].
  assert (in_flight cs w g b (cc_attached_id s) (set_state kFlushing (Some g) s, w)) as Hin.
  { destruct (ci_ok _ _ Hinv) as [B1 B2 B3 B4]. split; cbn [fst snd]; try done.
    - split; try done. cbn. split; [by rewrite Est in B2; destruct B2|]. exists g. done.
    - exists []. split; [by rewrite app_nil_r|]. intros k _. cbn [fst]. unfold local. change (current_buf (set_state kFlushing (Some g) s)) with (current_buf s). by rewrite Hc.
    - change (buffered (set_state kFlushing (Some g) s)) with (buffered s). lia. }
  unfold flush_generation. apply swp_bind. eapply swp_mono; [|by apply (flush_publish_spec index cs start fresh_memory Hcs Hmem w g b (cc_attached_id s) (cow_content (cow_view w)) Hb Hstart (cc_published_head s) _ Hin); [apply Hinv|]].
  intros [p|e] [s1 w1]; [|intros Hab; by eapply flush_aborted]. intros [Hin1 (Hp & Hsz & Hch & Hend)]. cbn [snd] in *. apply swp_bind. unfold swp at 1, c_modify. cbn [fst snd].
  apply retire_spec. intros w2 later Ha Hlt Hs. by eapply flush_settled.
Qed.
(** ** Reads *)
Lemma swp_locked {A : Type} (f : W → result A * W) E (Q : result A → cst → Prop) s w :
  cow_performs f E → (∀ r w' v, E r (cow_view w) v → cow_settles v (cow_view w') → Q r (s, w')) → swp (call_locked f) Q (s, w).
Proof. intros Hf HQ. unfold swp, call_locked. destruct (f w) as [r w'] eqn:Ef. destruct (Hf w r w' Ef) as (_ & _ & v & HE & Hs). by eapply HQ. Qed.

(** What a read of [len] bytes at [offset] returns. *)
Definition read_of (s : COWChunk) (v : CowStore) (offset len : Z) (out : bytes) : Prop :=
  zlen out = len ∧ ∀ k, 0 ≤ k < len → byte_at out k = Some (cow_byte s v (offset + k)).
Definition read_post (s : COWChunk) (w : W) (offset len : Z) (r : result bytes) (st : cst) : Prop :=
  st.1 = s ∧ cow_settles (cow_view w) (cow_view st.2) ∧ ∀ out, r = Ok out → read_of s (cow_view w) offset len out.

Lemma linked_facts s v : store_ok cs v → cc_state s = kClean → 0 ≤ cc_visible_prefix s → linked s v →
  ∃ id h o, cc_attached_id s = Some id ∧ cv_chunk v = Some id ∧ cv_head v !! id = Some h ∧ IsValidHead h = true ∧ head_size h ≤ cs ∧ cc_visible_prefix s ≤ cs ∧
    cv_object v !! COWObjectKey id (head_revision h) = Some o ∧
    VisibleBytesForHeadLocked s h = Z.min (head_size h) (cc_visible_prefix s) ∧ 0 ≤ VisibleBytesForHeadLocked s h ≤ zlen o ∧
    ∀ k, 0 ≤ k → cow_byte s v k = if k <? VisibleBytesForHeadLocked s h then default Ascii.zero (byte_at o k) else Ascii.zero.
Proof.
  intros Hok Hst Hpre (id & h & ph & A & B & C & D & E & F & G). destruct (so_head _ _ Hok id h C) as (_ & Hv & _ & Hsz & o & Ho & Hlen).
  assert (VisibleBytesForHeadLocked s h = Z.min (head_size h) (cc_visible_prefix s)) as Hvis.
  { unfold VisibleBytesForHeadLocked. rewrite D, E, Z.eqb_refl. done. }
  exists id, h, o. rewrite Hvis. split_and!; try done; try lia.
  intros k Hk. unfold cow_byte, clean_byte. rewrite Hst, A, C, Hvis. unfold head_byte. rewrite Ho. done.
Qed.
Lemma read_published_spec n id offset len s w w1 :
  cow_inv s (cow_view w) → cc_state s = kClean → cc_attached_id s = Some id → 0 ≤ offset → 0 ≤ len → cow_settles (cow_view w) (cow_view w1) →
  swp (read_published cs n id offset len) (read_post s w offset len) (s, w1).
Proof.
  intros Hinv Hst Hid Ho Hl. pose proof Hinv as [Hcok Hok Hlink]. specialize (Hlink Hst).
  destruct (linked_facts s (cow_view w) Hok Hst (co_prefix _ _ Hcok) Hlink) as (id' & h & o & A & B & C & Hv & Hsz & Hpre & Hob & _ & Hvis & Hby).
  rewrite Hid in A. injection A as <-. revert w1. induction n as [|n IH]; intros w1 Hs; [by apply swp_fail|].
  assert (∀ e w', cow_settles (cow_view w) (cow_view w') → read_post s w offset len (Err e) (s, w')) as Herr by done.
  cbn [read_published]. apply swp_bind. unfold swp at 1, c_get. cbn [fst]. apply swp_bind, swp_try. apply (swp_locked _ _ _ _ _ (cl_head id)). intros r w2 v2 [-> Hr] Hs2.
  assert (cow_settles (cow_view w) (cow_view w2)) as Hw2 by (by etrans).
  destruct r as [x|e]; [|by destruct e; apply swp_fail, Herr]. rewrite (ct_head _ _ Hs), C in Hr. injection Hr as <-.
  apply swp_bind, swp_fail_if; [by intros; apply Herr|]. intros _. set (n0 := if _ <? _ then _ else _).
  assert (n0 = Z.max 0 (Z.min len (VisibleBytesForHeadLocked s h - offset))) as En by (subst n0; destruct (Z.ltb_spec offset (VisibleBytesForHeadLocked s h)); lia).
  destruct (Z.eqb_spec n0 0) as [Ez|Ez].
  { apply swp_ret. split_and!; [done|done|]. intros out [= <-]. split; [by apply zlen_zeros|]. intros k Hk. rewrite byte_at_zeros, Hby by lia.
    rewrite (proj2 (Z.leb_le 0 k)), (proj2 (Z.ltb_lt k len)), (proj2 (Z.ltb_ge (offset + k) _)) by lia. done. }
  apply swp_bind, swp_try. apply (swp_locked _ _ _ _ _ (cl_get _ _ _)). intros r w3 v3 [-> Hr] Hs3.
  assert (cow_settles (cow_view w) (cow_view w3)) as Hw3 by (by etrans). destruct r as [out|e].
  - destruct Hr as (o' & Ho' & ->). rewrite (ct_object _ _ Hw2 id (head_revision h) o) in Ho'; [|intros h'; rewrite C; by intros [= ->]|done]. injection Ho' as <-.
    assert (zlen (substr o offset n0) = n0) as Hz by (apply zlen_substr; lia).
    apply swp_bind, swp_fail_if; [by intros; apply Herr|]. intros _. apply swp_ret. split_and!; [done|done|]. intros out [= <-].
    split; [rewrite zlen_app, Hz, zlen_zeros; lia|]. intros k Hk. rewrite byte_at_app, Hz, Hby by lia. destruct (Z.ltb_spec k n0).
    + rewrite byte_at_substr, (proj2 (Z.leb_le 0 k)), (proj2 (Z.ltb_lt k n0)), (proj2 (Z.ltb_lt (offset + k) _)) by lia. cbn [andb].
      destruct (byte_at_inside o (offset + k)) as [y ->]; [lia|done].
    + rewrite byte_at_zeros, (proj2 (Z.leb_le 0 _)), (proj2 (Z.ltb_lt (k - n0) _)), (proj2 (Z.ltb_ge (offset + k) _)) by lia. done.
  - apply swp_bind. apply (swp_locked _ _ _ _ _ (cl_head id)). intros r w4 v4 [-> Hr4] Hs4. assert (cow_settles (cow_view w) (cow_view w4)) as Hw4 by (by etrans).
    destruct r as [x|e4]; [|by apply Herr]. destruct (_ =? _); [by apply swp_fail, Herr|by apply IH].
Qed.
Lemma COWChunk_Read_spec s w offset len :
  cow_inv s (cow_view w) → 0 ≤ offset → 0 ≤ len → swp (COWChunk_Read cs offset len) (read_post s w offset len) (s, w).
Proof.
  intros Hinv Ho Hl. assert (∀ e, read_post s w offset len (Err e) (s, w)) as Herr by (intros e; split; [done|split; [reflexivity|done]]).
  unfold COWChunk_Read. apply swp_bind, swp_fail_if; [by intros; apply Herr|]. intros _.
  destruct (Z.eqb_spec len 0) as [->|Hne]. { apply swp_ret. split; [done|split; [reflexivity|]]. intros out [= <-]. split; [done|lia]. }
  apply swp_bind. unfold swp at 1, c_get. cbn [fst]. destruct (decide (cc_state s = kClean)) as [Ec|Ec].
  - rewrite Ec. destruct (ci_linked _ _ Hinv Ec) as (id & h & ph & Hid & _). rewrite Hid. by apply read_published_spec.
  - destruct (held_buf cs s (ci_ok _ _ Hinv) Ec) as (a & b & _ & _ & Hb & Hbo). rewrite Hb.
    destruct (ReadLocal_spec cs b offset len Hbo Ho Hl) as (out & Hout & Hz & Hk).
    assert (read_post s w offset len (Ok out) (s, w)) as Hpost.
    { split; [done|split; [reflexivity|]]. intros out' [= <-]. split; [done|]. intros k Hk0. rewrite Hk by done. unfold cow_byte, local. rewrite Hb. by destruct (cc_state s). }
    destruct (cc_state s); try done; apply swp_lift; by rewrite Hout.
Qed.

(** ** Writes *)
Definition write_post (s : COWChunk) (w : W) (offset : Z) (data : bytes) (r : result unit) (st : cst) : Prop :=
  cow_settles (cow_view w) (cow_view st.2) ∧ match r with
  | Ok _ => in_bounds cs offset (zlen data) = true ∧ cow_inv st.1 (cow_view st.2) ∧ cc_state st.1 = (if bool_decide (cc_state s = kClean) then kDirty else cc_state s) ∧
      offset + zlen data ≤ buffered st.1 ∧
      ∀ k, 0 ≤ k → cow_byte st.1 (cow_view st.2) k = write_over cs id (offset, data) (cow_byte s (cow_view w)) k
  | Err _ => st.1 = s
  end.

(** Hydration brings the bytes of the head into a new buffer. *)
Definition hydrate_post (s : COWChunk) (w : W) (r : result unit) (st : cst) : Prop :=
  cow_settles (cow_view w) (cow_view st.2) ∧ match r with
  | Ok _ => cow_inv st.1 (cow_view st.2) ∧ cc_state st.1 = (if bool_decide (cc_state s = kClean) then kDirty else cc_state s) ∧
      ∀ k, 0 ≤ k → local st.1 k = cow_byte s (cow_view w) k
  | Err _ => st.1 = s
  end.
Lemma hydrated_inv s v h wb :
  cow_inv s v → cc_state s = kClean → buf_ok cs wb →
  let s' := set_state kDirty (cc_flushing_wb s) (set_wb (cc_heap s ++ [wb]) (Some (length (cc_heap s))) (set_published (cc_attached_id s) (Some h) (cc_visible_prefix s) s)) in
  cow_inv s' v ∧ ∀ k, local s' k = local_byte wb k.
Proof.
  intros [[B1 B2 B3 B4] Hok _] Hst Hb s'. rewrite Hst in B2. destruct B2 as (_ & Hf & Hat).
  assert (current_buf s' = Some wb) as Hc by (unfold current_buf, buf_at; cbn; by rewrite lookup_app_r, Nat.sub_diag by lia).
  split; [|intros k; unfold local; by rewrite Hc]. split; [|done|done]. split; cbn [s' set_state set_wb set_published cc_heap cc_state cc_flushing_wb cc_visible_prefix cc_attached_id cc_published_head].
  - apply Forall_app. split; [done|by constructor].
  - rewrite Hc. done.
  - done.
  - done.
Qed.
Lemma HydrateForWrite_spec s w w1 id h o :
  cow_settles (cow_view w) (cow_view w1) → store_ok cs (cow_view w) → cv_head (cow_view w) !! id = Some h →
  cv_object (cow_view w) !! COWObjectKey id (head_revision h) = Some o → 0 ≤ VisibleBytesForHeadLocked s h ≤ zlen o → VisibleBytesForHeadLocked s h ≤ cs →
  swp (HydrateForWrite cs fresh_memory id h) (λ r st, st.1 = s ∧ cow_settles (cow_view w) (cow_view st.2) ∧ ∀ wb, r = Ok wb →
    buf_ok cs wb ∧ ∀ k, 0 ≤ k → local_byte wb k = if k <? VisibleBytesForHeadLocked s h then default Ascii.zero (byte_at o k) else Ascii.zero) (s, w1).
Proof.
  intros Hs Hok Hh Hob Hvis Hfit. set (n := VisibleBytesForHeadLocked s h) in *. unfold HydrateForWrite. apply swp_bind. unfold swp at 1, c_get. cbn [fst].
  apply swp_bind, swp_fail_if; [by intros|]. intros _. fold n. set (wb0 := mkWriteBuf _ 0).
  assert (buf_ok cs wb0) as Hb0 by (split; cbn; [lia|apply Hmem]). rewrite Z.gtb_ltb. destruct (Z.ltb_spec 0 n).
  - apply swp_bind. apply (swp_locked _ _ _ _ _ (cl_get _ _ _)). intros r w2 v2 [-> Hr] Hs2. assert (cow_settles (cow_view w) (cow_view w2)) as Hw2 by (by etrans).
    destruct r as [out|e]; [|done]. destruct Hr as (o' & Ho' & ->). rewrite (ct_object _ _ Hs id (head_revision h) o) in Ho'; [|intros h'; rewrite Hh; by intros [= ->]|done].
    injection Ho' as <-. assert (zlen (substr o 0 n) = n) as Hz by (apply zlen_substr; lia). rewrite Hz, Z.eqb_refl.
    apply swp_bind, swp_fail_if; [done|]. intros _. apply swp_lift. split_and!; [done|done|].
    destruct (WriteBuf_Write_spec cs 0 (substr o 0 n) wb0 Hb0 ltac:(lia) ltac:(lia)) as (wb' & -> & Hb' & _ & Hk). intros wb [= <-]. split; [done|]. intros k Hk0. rewrite Hk by done.
    unfold write_over, fits. cbn [fst snd]. rewrite Hz, !Z.gtb_ltb, (proj2 (Z.ltb_ge cs 0)), (proj2 (Z.ltb_ge (cs - 0) n)), (proj2 (Z.leb_le 0 k)) by lia. cbn [orb negb andb].
    rewrite Z.add_0_l, Z.sub_0_r, byte_at_substr, (proj2 (Z.leb_le 0 k)) by lia. cbn [andb]. destruct (Z.ltb_spec k n).
    + destruct (byte_at_inside o (0 + k)) as [y Hy]; [lia|]. rewrite Hy. rewrite Z.add_0_l in Hy. by rewrite Hy.
    + rewrite local_byte_eq. cbn. by destruct (Z.ltb_spec k 0); [lia|].
  - apply swp_ret. split_and!; [done|done|]. intros wb [= <-]. split; [done|]. intros k Hk. rewrite local_byte_eq. cbn. destruct (Z.ltb_spec k 0), (Z.ltb_spec k n); done || lia.
Qed.
Lemma hydrate_spec s w : cow_inv s (cow_view w) → swp (hydrate cs fresh_memory) (hydrate_post s w) (s, w).
Proof.
  intros Hinv. unfold hydrate. apply swp_bind. unfold swp at 1, c_get. cbn [fst]. destruct (decide (cc_state s = kClean)) as [Ec|Ec].
  - pose proof Hinv as [Hcok Hok Hlink]. specialize (Hlink Ec). pose proof Hlink as (id0 & _ & ph & Hid0 & _ & _ & Hph & _ & _).
    destruct (linked_facts s (cow_view w) Hok Ec (co_prefix _ _ Hcok) Hlink) as (id & h & o & A & B & C & Hv & Hsz & Hpre & Hob & Hvis0 & Hvis & Hby).
    assert (∀ e w', cow_settles (cow_view w) (cow_view w') → hydrate_post s w (Err e) (s, w')) as Herr by done.
    rewrite Ec, A, Hph. apply swp_bind, swp_fail_if; [intros; apply Herr; reflexivity|]. intros _. apply swp_bind, swp_try. apply (swp_locked _ _ _ _ _ (cl_head id)).
    intros r w1 v1 [-> Hr] Hs1. destruct r as [x|e]; [|by destruct e; apply swp_fail, Herr]. rewrite C in Hr. injection Hr as <-.
    apply swp_bind. eapply swp_mono; [|apply (HydrateForWrite_spec s w w1 id h o Hs1 Hok C Hob Hvis); lia].
    intros [wb|e] [s' w2]; cbn [fst snd]; intros (-> & Hs2 & Hr); [|by apply Herr]. destruct (Hr wb eq_refl) as [Hb Hk].
    unfold swp, c_modify. cbn [fst snd]. split; [done|]. destruct (hydrated_inv s (cow_view w2) h wb ltac:(by eapply cow_inv_settles) Ec Hb) as [Hinv' Hl].
    split; [done|]. split; [by rewrite bool_decide_eq_true_2|]. intros k Hk0. rewrite Hl, Hk, Hby by done. done.
  - assert (hydrate_post s w (Ok tt) (s, w)) as Hpost.
    { split; [reflexivity|]. split; [done|]. split; [by rewrite bool_decide_eq_false_2|]. intros k _. unfold cow_byte. by destruct (cc_state s). }
    by destruct (cc_state s).
Qed.
Lemma COWChunk_Write_spec s w offset data :
  cow_inv s (cow_view w) → 0 ≤ offset → swp (COWChunk_Write cs fresh_memory offset data) (write_post s w offset data) (s, w).
Proof.
  intros Hinv Ho. unfold COWChunk_Write. apply swp_bind, swp_fail_if; [intros; split; [reflexivity|done]|]. intros Hin%negb_false_iff.
  apply swp_bind. eapply swp_mono; [|by apply hydrate_spec]. intros [u|e] [s1 w1]; [|done]. intros (Hs & Hinv1 & Hst & Hl). cbn [fst snd] in *.
  assert (cc_state s1 ≠ kClean) as Hne by (rewrite Hst; case_bool_decide; done).
  unfold swp, put_data. destruct (fork_buf_grows cs fresh_memory Hcs Hmem s1 (ci_ok _ _ Hinv1) Hne) as [Hf Hfl].
  destruct (write_buf_grows cs offset data (fork_buf fresh_memory s1)) as (s' & -> & Hw & Hbuf); try done.
  - apply Hf.
  - by rewrite (gw_state _ _ _ _ Hf).
  - rewrite (gw_state _ _ _ _ Hf), (gw_flushing _ _ _ _ Hf). done.
  - pose proof (grows_trans cs _ _ _ _ _ Hf Hw) as [G1 G2 _ _ _ _ G7]. split; [done|]. cbn [fst snd]. split_and!; try done.
    + split; [done|apply Hinv1|]. rewrite G2. done.
    + congruence.
    + intros k Hk. assert (cow_byte s' (cow_view w1) k = local s' k) as -> by (unfold cow_byte; rewrite G2; by destruct (cc_state s1)).
      rewrite G7 by done. cbn. unfold write_over. by rewrite Hl.
Qed.

(** ** Truncation *)
Lemma COWChunk_TruncateLocal_spec n s v :
  cow_inv s v → cc_state s ≠ kFlushing → 0 ≤ n →
  let s' := COWChunk_TruncateLocal n s in
  cow_inv s' v ∧ cc_state s' = cc_state s ∧ ∀ k, 0 ≤ k → cow_byte s' v k = if k <? n then cow_byte s v k else Ascii.zero.
Proof.
  intros Hinv Hne Hn. pose proof Hinv as [[B1 B2 B3 B4] Hok Hlink]. cbn zeta. unfold COWChunk_TruncateLocal. cbn [ClampPublishedPrefixLocked set_published cc_state].
  destruct (cc_state s) eqn:Est; [|done|].
  - destruct (held_buf cs s (ci_ok _ _ Hinv) ltac:(by rewrite Est)) as (a & b & Ea & Hb & Hc & Hbo). destruct (Truncate_spec cs n b Hbo Hn) as [Hb' Hk'].
    cbn [cc_wb ClampPublishedPrefixLocked set_published]. rewrite Ea. set (s' := set_wb _ _ _).
    assert (current_buf s' = Some (WriteBuf_Truncate n b)) as Hc' by (unfold current_buf, buf_at in *; cbn; rewrite list_lookup_alter_eq; cbn in *; by rewrite Hb).
    assert (cc_state s' = kDirty) as Est' by done. split_and!; [|done|].
    + split; [|done|by rewrite Est']. split; cbn [s' set_wb cc_heap ClampPublishedPrefixLocked set_published cc_state cc_attached_id cc_published_head cc_visible_prefix cc_flushing_wb].
      * apply Forall_lookup. intros i x. cbn. destruct (decide (i = a)) as [->|Hia]; [rewrite list_lookup_alter_eq|rewrite list_lookup_alter_ne by done; by apply Forall_lookup_1].
        unfold buf_at in Hb. rewrite Hb. by intros [= <-].
      * rewrite Est, Hc'. by destruct B2.
      * lia.
      * by rewrite B4, fmap_is_Some.
    + intros k _. unfold cow_byte, local. rewrite Est, Est', Hc', Hc. apply Hk'.
  - specialize (Hlink eq_refl). assert (cc_state s = kClean) as Ec by done. pose proof Hlink as (id & h & ph & A & B & C & D & E & F & G). split_and!; [|by cbn|].
    + split; [|done|].
      * split; cbn; try done; [by rewrite Est|lia|by rewrite B4, fmap_is_Some].
      * intros _. exists id, h, (mkCOWHead (head_revision ph) (Z.min (head_size ph) n)). cbn. rewrite D. split_and!; try done; lia.
    + intros k Hk. unfold cow_byte, clean_byte. cbn. rewrite Est, A, C. unfold VisibleBytesForHeadLocked. cbn. rewrite D. cbn. rewrite E, Z.eqb_refl. cbn [negb].
      destruct (Z.ltb_spec k (Z.min (head_size h) (Z.min (cc_visible_prefix s) n))), (Z.ltb_spec k n), (Z.ltb_spec k (Z.min (head_size h) (cc_visible_prefix s))); done || lia.
Qed.

End Session.
