(* ===== verification/CowMemory.v ===== *)
(** * A copy-on-write backend in memory

    A concrete backend that keeps the promises of CowPublished.v.  [cm_faults] scripts the
    calls that fail, and whether such a call had its effect before its reply was lost;
    [cm_incoming] scripts the writes other fibers hand to the session. *)

From stdpp Require Import gmap.
From S2P Require Import Prelude RedisKv Decimal StdMap ChunkGeometry InodeTypes Records MetaTxn MetaEngine StateIo CowChunk CowLocal CowPublished.

Record CowMemory := mkCowMemory {
  cm_store : CowStore; cm_faults : list (option (Status * bool));
  cm_incoming : list (list (Z * bytes)); cm_delivered : list (Z * bytes); cm_arrived : list (Z * bytes) }.

Definition advance (v : CowStore) (m : CowMemory) : CowMemory :=
  let batch := List.filter (λ x : Z * bytes, 0 <=? x.1) (default [] (head (cm_incoming m))) in
  mkCowMemory v (tail (cm_faults m)) (tail (cm_incoming m)) batch (cm_arrived m ++ batch).
(** A call that is in order answers [a] and moves the store to [v']. *)
Definition cm_reply {A : Type} (ok : bool) (a : A) (v' : CowStore) (m : CowMemory) : result A * CowMemory :=
  match head (cm_faults m) with
  | Some (Some (e, applied)) => (Err e, advance (if ok && applied then v' else cm_store m) m)
  | _ => if ok then (Ok a, advance v' m) else (Err AlreadyExists, advance (cm_store m) m)
  end.
(** A query answers what it finds. *)
Definition cm_find {A : Type} (a : option A) (m : CowMemory) : result A * CowMemory :=
  match a with
  | Some a => cm_reply true a (cm_store m) m
  | None => (Err NotFound, advance (cm_store m) m)
  end.
Definition cm_inode (n : Z) : SwordFsInode := mkInode 2 (mkAttr 0 2 S_IFREG 1 0 0 0 n 4096 0 0 0 0 0 0 0 0 0 0) 1 [] [].
Definition next_rev (m : CowMemory) (id : Z) : Z := next_revision (cm_store m) id.

#[export] Instance cow_memory : CowBackend CowMemory := {|
  cb_snapshot m := cm_find (Some (mkChunkSnapshot (cm_inode (cv_size (cm_store m))) (cv_chunk (cm_store m)) None)) m;
  cb_attach id e _ m := cm_reply (bool_decide (cv_chunk (cm_store m) = None)) tt (bind_chunk (Some id) (Z.max (cv_size (cm_store m)) e) (cm_store m)) m;
  cb_finalize id e _ m := cm_reply (bool_decide (cv_chunk (cm_store m) = Some id)) tt (bind_chunk (Some id) (Z.max (cv_size (cm_store m)) e) (cm_store m)) m;
  cb_allocate_chunk m := cm_reply true (cv_next_chunk (cm_store m)) (use_chunk (cv_next_chunk (cm_store m) + 1) (cm_store m)) m;
  cb_allocate_revision id m := cm_reply true (next_rev m id) (use_revision id (next_rev m id + 1) (cm_store m)) m;
  cb_head id m := cm_find (cv_head (cm_store m) !! id) m;
  cb_exchange id expected h m :=
    cm_reply (bool_decide (cv_head (cm_store m) !! id = expected) && IsValidHead h) tt (put_head id h (cm_store m)) m;
  cb_get key off n m := cm_find ((λ o, substr o off n) <$> cv_object (cm_store m) !! key) m;
  cb_put key o m := cm_reply true tt (put_object key o (cm_store m)) m;
  cb_retire _ _ m := cm_reply true tt (cm_store m) m;
  cb_during := cm_delivered;
|}.
#[export] Instance cow_memory_view : CowView CowMemory := {| cow_view := cm_store; cow_arrived := cm_arrived |}.

Lemma advance_laws v m (E : CowStore → Prop) : E v →
  cow_arrived (advance v m) = cow_arrived m ++ cb_during (advance v m) ∧ Forall (λ x, 0 ≤ x.1) (cb_during (advance v m)) ∧
  ∃ v0, E v0 ∧ cow_settles v0 (cow_view (advance v m)).
Proof.
  intros HE. split_and!; [done| |exists v; split; [done|reflexivity]].
  apply Forall_forall. intros x [_ Hx]%list_elem_of_In%List.filter_In. by apply Z.leb_le.
Qed.
Lemma reply_performs {A : Type} (f : CowMemory → result A * CowMemory) ok a next E :
  (∀ m, f m = cm_reply (ok m) (a m) (next m) m) → (∀ m, ok m = true → E (Ok (a m)) (cm_store m) (next m)) →
  (∀ m e, E (Err e) (cm_store m) (cm_store m)) → (∀ m e, ok m = true → E (Err e) (cm_store m) (next m)) → cow_performs f E.
Proof.
  intros Hf Hok Herr Hlost m r m'. rewrite Hf. unfold cm_reply. destruct (head _) as [[[e applied]|]|]; [|destruct (ok m) eqn:Eo..]; intros [= <- <-].
  - apply advance_laws. destruct (ok m) eqn:Eo, applied; cbn; auto.
  - apply advance_laws; auto.
  - apply advance_laws; auto.
  - apply advance_laws; auto.
  - apply advance_laws; auto.
Qed.
Lemma find_performs {A : Type} (f : CowMemory → result A * CowMemory) a (Q : A → CowStore → Prop) :
  (∀ m, f m = cm_find (a m) m) → (∀ m x, a m = Some x → Q x (cm_store m)) → cow_performs f (cow_query Q).
Proof.
  intros Hf HQ m r m'. rewrite Hf. unfold cm_find. destruct (a m) as [x|] eqn:Ea; [|intros [= <- <-]; by apply (advance_laws _ m (λ v, v = _ ∧ True))].
  revert m Ea r m'. intros m Ea r m' E.
  assert (cow_query Q r (cm_store m) (cm_store m)) as HE.
  { split; [done|]. unfold cm_reply in E. destruct (head _) as [[[? ?]|]|]; injection E as <- <-; auto. }
  unfold cm_reply in E. destruct (head _) as [[[? []]|]|]; injection E as <- <-; by apply advance_laws.
Qed.

#[export] Instance cow_memory_laws : CowLaws CowMemory.
Proof.
  split; intros.
  - apply (find_performs _ (λ m, Some (mkChunkSnapshot (cm_inode (cv_size (cm_store m))) (cv_chunk (cm_store m)) None))); [done|]. by intros m x [= <-].
  - by apply (find_performs _ (λ m, cv_head (cm_store m) !! id)).
  - apply (find_performs _ (λ m, (λ o, substr o off n) <$> cv_object (cm_store m) !! key)); [done|]. intros m x (o & -> & ?)%fmap_Some. eauto.
  - apply (reply_performs _ (λ _, true) (λ _, tt) (λ m, put_object key o (cm_store m))); cbn; auto.
  - apply (reply_performs _ (λ m, bool_decide (cv_head (cm_store m) !! id = expected) && IsValidHead replacement) (λ _, tt) (λ m, put_head id replacement (cm_store m))); [done|..]; cbn; auto.
    + intros m [E%bool_decide_eq_true ?]%andb_true_iff. by split.
    + intros m e [E%bool_decide_eq_true ?]%andb_true_iff. by right.
  - apply (reply_performs _ (λ _, true) (λ m, next_rev m id) (λ m, use_revision id (next_rev m id + 1) (cm_store m))); [done|..].
    + intros m _. right. exists (next_rev m id + 1). unfold next_rev. split_and!; [lia|done|]. intros ? [= <-]. lia.
    + intros m e. by left.
    + intros m e _. right. exists (next_rev m id + 1). unfold next_rev. by split_and!; [lia|..].
  - apply (reply_performs _ (λ _, true) (λ m, cv_next_chunk (cm_store m)) (λ m, use_chunk (cv_next_chunk (cm_store m) + 1) (cm_store m))); [done|..].
    + intros m _. right. eexists. split_and!; [|done|]; [lia|]. intros ? [= <-]. lia.
    + intros m e. by left.
    + intros m e _. right. eexists. split_and!; [|done|done]. lia.
  - apply (reply_performs _ (λ m, bool_decide (cv_chunk (cm_store m) = None)) (λ _, tt) (λ m, bind_chunk (Some id) (Z.max (cv_size (cm_store m)) e) (cm_store m))); [done|..]; cbn; auto.
    + intros m E%bool_decide_eq_true. done.
    + intros m e0 E%bool_decide_eq_true. right. split; [done|]. eauto 10.
  - apply (reply_performs _ (λ m, bool_decide (cv_chunk (cm_store m) = Some id)) (λ _, tt) (λ m, bind_chunk (Some id) (Z.max (cv_size (cm_store m)) e) (cm_store m))); [done|..]; cbn; auto.
    + intros m E%bool_decide_eq_true. done.
    + intros m e0 E%bool_decide_eq_true. right. split; [done|]. eauto 10.
  - by apply (reply_performs _ (λ _, true) (λ _, tt) cm_store).
Qed.

Definition empty_store (n : Z) : CowStore := mkCowStore None n ∅ ∅ ∅ 1.
Lemma empty_store_ok cs n : store_ok cs (empty_store n).
Proof. split; [done|intros id h; cbn; by rewrite lookup_empty|done|]. intros id. unfold next_revision. cbn. by rewrite lookup_empty. Qed.
Definition empty_cow (n : Z) (faults : list (option (Status * bool))) (incoming : list (list (Z * bytes))) : CowMemory :=
  mkCowMemory (empty_store n) faults incoming [] [].
