(* ===== verification/CowDurable.v ===== *)
(** * Copy-on-write sessions as byte maps

    The abstract chunk is a map from positions to bytes; [chunk_step] says what each
    operation of a session may do to it.  Any sequence of operations of a session over any
    lawful backend is a sequence of such steps, and a flush publishes all of the buffer or
    nothing of it. *)

From stdpp Require Import gmap.
From S2P Require Import Prelude RedisKv Decimal StdMap ChunkGeometry InodeTypes Records MetaTxn MetaEngine StateIo CowChunk CowLocal CowPublished CowFlush CowSession CowMemory.

(** ** Operations *)
Inductive cow_op := OpRead (offset len : Z) | OpWrite (offset : Z) (data : bytes) | OpTruncate (n : Z) | OpFlush.
Inductive cow_reply := ReplyBytes (out : bytes) | ReplyDone | ReplyFailed.
Definition cow_op_typed (op : cow_op) : Prop :=
  match op with OpRead offset len => 0 ≤ offset ∧ 0 ≤ len | OpWrite offset _ => 0 ≤ offset | OpTruncate n => 0 ≤ n | OpFlush => True end.

(** One operation of a run: what was asked and answered, the writes of other fibers that
    arrived while it ran, in order, and those of them that arrived during its last call. *)
Record cow_event := mkEvent { ev_op : cow_op; ev_reply : cow_reply; ev_arrived : list (Z * bytes); ev_last : list (Z * bytes) }.

Section Runs.
Context (cs : Z).
(** ** The specification: a map of bytes *)
Definition byte_map : Type := Z → ascii.
Definition same_bytes (m m' : byte_map) : Prop := ∀ k, 0 ≤ k → m k = m' k.
Inductive chunk_step (m : byte_map) : cow_event → byte_map → Prop :=
  | step_read offset len out ws ls :
      zlen out = len → (∀ k, 0 ≤ k < len → byte_at out k = Some (m (offset + k))) →
      chunk_step m (mkEvent (OpRead offset len) (ReplyBytes out) ws ls) m
  | step_write offset data ws ls m' :
      offset + zlen data ≤ cs → same_bytes m' (write_over cs id (offset, data) m) →
      chunk_step m (mkEvent (OpWrite offset data) ReplyDone ws ls) m'
  | step_truncate n ws ls m' :
      same_bytes m' (λ k, if k <? n then m k else Ascii.zero) → chunk_step m (mkEvent (OpTruncate n) ReplyDone ws ls) m'
  (** A flush changes nothing but what other writers wrote meanwhile.  The last call of a
      successful flush is made under the lock, so the writes of that moment still wait. *)
  | step_flush ws ls m' :
      same_bytes m' (written cs id ws m) → chunk_step m (mkEvent OpFlush ReplyDone ws ls) m'
  | step_flush_locked ws ls m' :
      same_bytes m' (written cs id ws m) → chunk_step m (mkEvent OpFlush ReplyDone (ws ++ ls) ls) m'
  | step_flush_failed ws ls m' :
      same_bytes m' (written cs id ws m) → chunk_step m (mkEvent OpFlush ReplyFailed ws ls) m'
  (** A read or a write that fails changes nothing. *)
  | step_failed op ws ls : op ≠ OpFlush → chunk_step m (mkEvent op ReplyFailed ws ls) m.
Inductive chunk_steps : byte_map → list cow_event → byte_map → Prop :=
  | steps_nil m m' : same_bytes m' m → chunk_steps m [] m'
  | steps_cons m e m1 l m' : chunk_step m e m1 → chunk_steps m1 l m' → chunk_steps m (e :: l) m'.

(** ** The implementation *)
Context {W : Type} `{CowBackend W} `{CowView W} (index : Z) (fresh_memory : nat → bytes).
Definition unit_reply (r : result unit) : cow_reply := match r with Ok _ => ReplyDone | Err _ => ReplyFailed end.
Definition cow_step (op : cow_op) (st : COWChunk * W) : cow_reply * (COWChunk * W) :=
  match op with
  | OpRead offset len => let '(r, st) := COWChunk_Read cs offset len st in (match r with Ok out => ReplyBytes out | Err _ => ReplyFailed end, st)
  | OpWrite offset data => let '(r, st) := COWChunk_Write cs fresh_memory offset data st in (unit_reply r, st)
  | OpTruncate n => (ReplyDone, (COWChunk_TruncateLocal n st.1, st.2))
  | OpFlush => let '(r, st) := COWChunk_Flush index cs fresh_memory st in (unit_reply r, st)
  end.
Definition event_of (op : cow_op) (ρ : cow_reply) (w w' : W) : cow_event :=
  mkEvent op ρ (drop (length (cow_arrived w)) (cow_arrived w')) (cb_during w').
Fixpoint cow_run (ops : list cow_op) (st : COWChunk * W) : list cow_event * (COWChunk * W) :=
  match ops with
  | [] => ([], st)
  | op :: ops =>
      let '(ρ, st1) := cow_step op st in
      let '(l, st2) := cow_run ops st1 in (event_of op ρ st.2 st1.2 :: l, st2)
  end.

Context `{!CowLaws W} (start : Z).
Hypothesis Hcs : 0 < cs.
Hypothesis Hmem : ∀ n, cs ≤ zlen (fresh_memory n).
Hypothesis Hstart : CalculateChunkStartOffset index cs = Ok start.
Definition idle_inv (st : COWChunk * W) : Prop := cow_inv cs st.1 (cow_view st.2) ∧ cc_state st.1 ≠ kFlushing.
Definition bytes_of (st : COWChunk * W) : byte_map := cow_byte st.1 (cow_view st.2).

Lemma cow_step_sound op s w ρ st' :
  idle_inv (s, w) → cow_op_typed op → cow_step op (s, w) = (ρ, st') →
  idle_inv st' ∧ ∃ m', chunk_step (bytes_of (s, w)) (event_of op ρ w st'.2) m' ∧ same_bytes (bytes_of st') m'.
Proof.
  intros [Hinv Hne] Hop E. cbn [fst snd] in *. destruct op as [offset len|offset data|n|]; cbn [cow_step] in E.
  - destruct Hop as [Ho Hl]. pose proof (COWChunk_Read_spec cs s w offset len Hinv Ho Hl) as HR. unfold swp in HR.
    destruct (COWChunk_Read cs offset len (s, w)) as [r [s1 w1]]. injection E as <- <-. destruct HR as (Es & Hs & Hout). cbn [fst snd] in Es, Hs. subst s1.
    split; [split; [by eapply cow_inv_settles|done]|]. exists (bytes_of (s, w)).
    split; [|intros k _; unfold bytes_of; cbn; apply (cow_byte_settles cs); [apply Hinv|done]].
    destruct r as [out|e]; [|by constructor]. destruct (Hout out eq_refl). by constructor.
  - pose proof (COWChunk_Write_spec cs fresh_memory Hcs Hmem s w offset data Hinv Hop) as HW. unfold swp in HW.
    destruct (COWChunk_Write cs fresh_memory offset data (s, w)) as [r [s1 w1]]. injection E as <- <-. destruct HW as [Hs HW]. cbn [fst snd] in *. destruct r as [u|e].
    + destruct HW as (Hin & Hinv1 & Hst & _ & Hk). split; [split; [done|cbn; rewrite Hst; by case_bool_decide]|]. exists (bytes_of (s1, w1)). split; [|done].
      constructor; [|done]. unfold in_bounds in Hin. zlia.
    + subst s1. split; [split; [by eapply cow_inv_settles|done]|]. exists (bytes_of (s, w)). split; [by constructor|].
      intros k _. unfold bytes_of. cbn. apply (cow_byte_settles cs); [apply Hinv|done].
  - injection E as <- <-. destruct (COWChunk_TruncateLocal_spec cs n s (cow_view w) Hinv Hne Hop) as (Hinv' & Hst & Hk). cbn [fst snd].
    split; [split; [done|cbn; by rewrite Hst]|]. eexists. split; [by constructor|done].
  - pose proof (COWChunk_Flush_spec index cs start fresh_memory Hcs Hmem Hstart s w Hinv Hne) as HF. unfold swp in HF.
    destruct (COWChunk_Flush index cs fresh_memory (s, w)) as [r [s1 w1]]. injection E as <- <-. destruct HF as (Hinv1 & Hst & (ws & later & Ha & Hlt & Hk) & _). cbn [fst snd] in *.
    split; [done|]. exists (bytes_of (s1, w1)). split; [|done]. unfold event_of. cbn [snd]. rewrite Ha, drop_app_length.
    destruct Hlt as [->|[-> ->]]; [rewrite app_nil_r; destruct r; by constructor|by constructor].
Qed.
Lemma chunk_step_proper m1 m2 e m1' : same_bytes m1 m2 → cow_op_typed (ev_op e) → chunk_step m1 e m1' → ∃ m2', chunk_step m2 e m2' ∧ same_bytes m1' m2'.
Proof.
  intros E Hop Hst. inversion Hst as [? ? ? ? ? Hz Hk|? ? ? ? ? Hin Hk|? ? ? ? Hk|ws ? ? Hk|ws ? ? Hk|ws ? ? Hk|]; subst.
  - eexists. split; [|exact E]. constructor; [done|]. intros k Hk0. destruct Hop. rewrite Hk, E by lia. done.
  - exists m1'. split; [|done]. constructor; [done|]. intros k Hk0. rewrite (Hk k Hk0). unfold write_over. by rewrite E.
  - exists m1'. split; [|done]. constructor. intros k Hk0. rewrite (Hk k Hk0), E by done. done.
  - exists m1'. split; [|done]. constructor. intros k Hk0. rewrite (Hk k Hk0). by apply written_nonneg.
  - exists m1'. split; [|done]. apply step_flush_locked. intros k Hk0. rewrite (Hk k Hk0). by apply written_nonneg.
  - exists m1'. split; [|done]. constructor. intros k Hk0. rewrite (Hk k Hk0). by apply written_nonneg.
  - exists m2. split; [by constructor|done].
Qed.
Lemma chunk_steps_proper m1 m2 l m' : same_bytes m1 m2 → Forall (cow_op_typed ∘ ev_op) l → chunk_steps m1 l m' → chunk_steps m2 l m'.
Proof.
  intros E Hl Hr. revert m2 E. induction Hr as [m m' Hm|m e m1 l m' Hst Hr IH]; intros m2 E.
  - constructor. intros k Hk. rewrite (Hm k Hk). by apply E.
  - inversion Hl; subst. destruct (chunk_step_proper _ _ _ _ E ltac:(done) Hst) as (m3 & Hst' & E'). econstructor; [exact Hst'|]. by apply IH.
Qed.
Lemma cow_run_sound ops st l st' :
  idle_inv st → Forall cow_op_typed ops → cow_run ops st = (l, st') → idle_inv st' ∧ Forall (cow_op_typed ∘ ev_op) l ∧ chunk_steps (bytes_of st) l (bytes_of st').
Proof.
  intros Hinv Hops. revert st l Hinv. induction Hops as [|op ops Hop _ IH]; intros st l Hinv; cbn [cow_run].
  { intros [= <- <-]. split_and!; [done|done|]. by constructor. }
  destruct (cow_step op st) as [ρ st1] eqn:E1. destruct (cow_run ops st1) as [l2 st2] eqn:E2. intros [= <- <-]. destruct st as [s w].
  destruct (cow_step_sound op s w ρ st1 Hinv Hop E1) as (Hinv1 & m1 & Hst & Hm). destruct (IH st1 l2 Hinv1 E2) as (Hinv2 & Hl2 & Hs2).
  split_and!; [done|by constructor|]. econstructor; [exact Hst|]. eapply chunk_steps_proper; [exact Hm|exact Hl2|exact Hs2].
Qed.
End Runs.


(** C4: A flush publishes all of the buffer or nothing of it: after it the attached chunk holds
    the bytes it held before or exactly those the buffer had when the flush began, also
    when calls fail, their replies are lost, transactions are applied in part and writes
    arrive meanwhile.  The session shows the same bytes as before under those writes.  A
    flush that succeeds has published, and the file reaches the end of the buffer; one
    that fails leaves the session with its buffer. *)
Theorem cow_flush_atomic {W : Type} `{CowBackend W} `{CowView W} `{!CowLaws W} (index cs start : Z) (fresh_memory : nat → bytes)
    (s : COWChunk) (w : W) :
  0 < cs → (∀ n, cs ≤ zlen (fresh_memory n)) → CalculateChunkStartOffset index cs = Ok start →
  cow_inv cs s (cow_view w) → cc_state s = kDirty → buffered s ≠ 0 →
  let '(r, (s', w')) := COWChunk_Flush index cs fresh_memory (s, w) in
  (cow_content (cow_view w') = cow_content (cow_view w) ∨ cow_content (cow_view w') = buf_bytes <$> current_buf s) ∧
  (∃ ws later, cow_arrived w' = cow_arrived w ++ ws ++ later ∧
     ∀ k, 0 ≤ k → cow_byte s' (cow_view w') k = written cs id ws (cow_byte s (cow_view w)) k) ∧
  match r with
  | Ok _ => cow_content (cow_view w') = buf_bytes <$> current_buf s ∧ start + buffered s ≤ cv_size (cow_view w')
  | Err _ => cc_state s' = kDirty ∧ buffered s ≤ buffered s'
  end.
Proof.
  intros Hcs Hmem Hstart Hinv Hst Hnz. pose proof (COWChunk_Flush_spec index cs start fresh_memory Hcs Hmem Hstart s w Hinv ltac:(by rewrite Hst)) as HF. unfold swp in HF.
  destruct (COWChunk_Flush index cs fresh_memory (s, w)) as [r [s' w']]. destruct HF as (_ & _ & (ws & later & Ha & _ & Hk) & Hc & Hbuf & Hr). cbn [fst snd] in *.
  split_and!; [done|eauto|]. destruct r as [u|e]; [|destruct Hr; auto]. rewrite Hst, bool_decide_eq_false_2, (proj2 (Z.eqb_neq _ 0)) in Hr by done. by destruct Hr as (? & ? & _).
Qed.

(** *** Sample sessions *)
Definition stale_memory (_ : nat) : bytes := lit "????????".
Lemma stale_memory_fits n : 8 ≤ zlen (stale_memory n).
Proof. done. Qed.
Definition new_session : COWChunk := new_cow stale_memory None None 0.
Lemma new_session_ok n f i : idle_inv 8 (new_session, empty_cow n f i).
Proof.
  split; [|done]. split; [|apply empty_store_ok|done]. split; [by repeat constructor|by split|done|]. cbn. by split; intros [].
Qed.

(** A write arrives during the upload: it is not part of what is published. *)
Definition busy_world : CowMemory := empty_cow 0 [] [[]; []; []; [(0, lit "new")]].
Definition written_session : COWChunk := (cow_run 8 1 stale_memory [OpWrite 2 (lit "abc")] (new_session, busy_world)).2.1.
Lemma written_session_ok : cow_inv 8 written_session (cow_view busy_world).
Proof.
  destruct (cow_run_sound 8 1 stale_memory 8 ltac:(done) stale_memory_fits ltac:(done) [OpWrite 2 (lit "abc")] (new_session, busy_world)
    (cow_run 8 1 stale_memory [OpWrite 2 (lit "abc")] (new_session, busy_world)).1 (cow_run 8 1 stale_memory [OpWrite 2 (lit "abc")] (new_session, busy_world)).2
    (new_session_ok _ _ _) ltac:(by repeat constructor) ltac:(by destruct (cow_run _ _ _ _ _))) as ([Hinv _] & _).
  assert ((cow_run 8 1 stale_memory [OpWrite 2 (lit "abc")] (new_session, busy_world)).2.2 = busy_world) as E by (by vm_compute). by rewrite E in Hinv.
Qed.
Lemma cow_flush_atomic_witness :
  let '(r, (s', w')) := COWChunk_Flush 1 8 stale_memory (written_session, busy_world) in
  r = Ok tt ∧ cow_content (cow_view w') = Some (zeros 2 ++ lit "abc") ∧ local s' 0 = "n"%char ∧ 8 + 5 ≤ cv_size (cow_view w').
Proof.
  assert (0 < 8) as H1 by done. assert (CalculateChunkStartOffset 1 8 = Ok 8) as H2 by done. assert (cc_state written_session = kDirty) as H3 by (by vm_compute).
  assert (buffered written_session = 5) as E5 by (by vm_compute). assert (buffered written_session ≠ 0) as H4 by (by rewrite E5).
  assert (buf_bytes <$> current_buf written_session = Some (zeros 2 ++ lit "abc")) as Ev by (by vm_compute).
  assert ((COWChunk_Flush 1 8 stale_memory (written_session, busy_world)).1 = Ok tt ∧ local (COWChunk_Flush 1 8 stale_memory (written_session, busy_world)).2.1 0 = "n"%char) as [Hr Hl] by (by vm_compute).
  pose proof (cow_flush_atomic 1 8 8 stale_memory written_session busy_world H1 stale_memory_fits H2 written_session_ok H3 H4) as H.
  destruct (COWChunk_Flush 1 8 stale_memory (written_session, busy_world)) as [r [s' w']]. cbn [fst snd] in Hr, Hl. subst r. destruct H as (_ & _ & Hc & Hs). rewrite Ev in Hc. rewrite E5 in Hs.
  split; [reflexivity|]. split; [exact Hc|]. split; [exact Hl|exact Hs].
Defined.

(** ** A session that cannot be flushed any more *)
(** The exchange of the head has succeeded, the transaction that follows loses its
    precondition, and reading the head back fails once. *)
Definition rewritten (faults : list (option (Status * bool))) : COWChunk * CowMemory :=
  let '(_, (s, w)) := cow_run 8 1 stale_memory [OpWrite 2 (lit "abc"); OpFlush; OpWrite 7 (lit "z")] (new_session, empty_cow 0 [] []) in
  (s, mkCowMemory (cm_store w) faults [] [] []).
Definition conflict : option (Status * bool) := Some (AlreadyExists, false).
Definition unavailable : option (Status * bool) := Some (Unavailable, false).

(** After its own head has been published, a flush whose check of that head fails once
    leaves the session holding the head from before: every later flush is refused, although
    the backend answers and the published head is the session's own.  The same failure of
    the call before leaves a session that the next flush completes. *)
Theorem cow_flush_stuck :
  let '(r, st) := COWChunk_Flush 1 8 stale_memory (rewritten [None; None; None; None; None; conflict; None; unavailable]) in
  let '(r', st') := COWChunk_Flush 1 8 stale_memory (rewritten [None; None; None; None; None; conflict; unavailable]) in
  r = Err Unavailable ∧ cm_faults st.2 = [] ∧ cow_content (cow_view st.2) = buf_bytes <$> current_buf st.1 ∧
  COWChunk_Flush 1 8 stale_memory st = (Err AlreadyExists, st) ∧
  r' = Err Unavailable ∧ cm_faults st'.2 = [] ∧ (COWChunk_Flush 1 8 stale_memory st').1 = Ok tt.
Proof. by vm_compute. Qed.
