(* ===== verification/ChunkFactory.v ===== *)
(** * The chunk factory

    [ChunkFactory] (src/src/chunk/ChunkFactory.cpp) opens the session of a chunk and makes
    the chunk at a new end of file safe ([SanitizeBoundary]), for the mechanism the mount
    selected; [SanitizeCOWBoundary] (src/src/chunk/cow/COWChunkBoundary.cpp) is the
    copy-on-write half of the latter.  [SlicePublicationRegistry] hands the slice sessions
    of an inode their common publication gate. *)

From stdpp Require Import gmap.
From S2P Require Import Prelude RedisKv Decimal StdMap ChunkGeometry InodeTypes SliceHistory DirtyRanges Records MetaTxn MetaEngine SliceChunk StateIo CowChunk CowLocal CowPublished CowFlush CowSession CowMemory.

(** ** The publication gates *)
Record SlicePublicationRegistry := mkRegistry { sr_gates : gmap Z nat; sr_created : Z; sr_next : nat }.
Definition new_registry : SlicePublicationRegistry := mkRegistry ∅ 0 0.
(** A new gate; every 256 of them the gates nobody holds are dropped.  [expired g] tells
    whether no session holds gate [g]. *)
Definition fresh_gate (expired : nat → bool) (ino : Z) (r : SlicePublicationRegistry) : nat * SlicePublicationRegistry :=
  let gate := sr_next r in
  let gates := <[ino := gate]> (sr_gates r) in
  let created := sr_created r + 1 in
  (gate, if created >=? 256
         then mkRegistry (filter (λ x : Z * nat, (x.2 =? gate)%nat || negb (expired x.2) = true) gates) 0 (S gate)
         else mkRegistry gates created (S gate)).
Definition ForInode (expired : nat → bool) (ino : Z) (r : SlicePublicationRegistry) : nat * SlicePublicationRegistry :=
  match sr_gates r !! ino with
  | Some gate => if expired gate then fresh_gate expired ino r else (gate, r)
  | None => fresh_gate expired ino r
  end.

(** Sessions come and go; [held] lists the inode and the gate of each. *)
Definition expired_in (held : list (Z * nat)) (gate : nat) : bool := negb (existsb (λ x : Z * nat, (x.2 =? gate)%nat) held).
Inductive registry_step : SlicePublicationRegistry * list (Z * nat) → SlicePublicationRegistry * list (Z * nat) → Prop :=
  | gate_open ino r held gate r' : ForInode (expired_in held) ino r = (gate, r') → registry_step (r, held) (r', (ino, gate) :: held)
  | gate_close r before x after : registry_step (r, before ++ x :: after) (r, before ++ after).
Record registry_inv (st : SlicePublicationRegistry * list (Z * nat)) : Prop := {
  ri_held : ∀ ino gate, (ino, gate) ∈ st.2 → sr_gates st.1 !! ino = Some gate;
  ri_bound : ∀ ino gate, sr_gates st.1 !! ino = Some gate → (gate < sr_next st.1)%nat;
  ri_apart : ∀ ino ino' gate, sr_gates st.1 !! ino = Some gate → sr_gates st.1 !! ino' = Some gate → ino = ino';
}.
Lemma expired_in_false held gate : expired_in held gate = false ↔ ∃ ino, (ino, gate) ∈ held.
Proof.
  unfold expired_in. rewrite negb_false_iff, existsb_exists. split.
  - intros ([ino g] & Hin & E%Nat.eqb_eq). cbn in E. subst. exists ino. by apply list_elem_of_In.
  - intros [ino Hin]. exists (ino, gate). split; [by apply list_elem_of_In|]. apply Nat.eqb_refl.
Qed.
Lemma fresh_gate_inv ino r held :
  registry_inv (r, held) → (∀ gate, (ino, gate) ∉ held) → registry_inv ((fresh_gate (expired_in held) ino r).2, (ino, sr_next r) :: held).
Proof.
  intros [A B C] Hno. cbn [fst snd] in *. unfold fresh_gate. set (gates := <[ino := sr_next r]> (sr_gates r)).
  assert (∀ i g, gates !! i = Some g → (g < S (sr_next r))%nat) as B'.
  { intros i g. unfold gates. destruct (decide (i = ino)) as [->|]; [rewrite lookup_insert_eq; intros [= <-]; lia|rewrite lookup_insert_ne by done]. intros ?%B. lia. }
  assert (∀ i i' g, gates !! i = Some g → gates !! i' = Some g → i = i') as C'.
  { intros i i' g. unfold gates. destruct (decide (i = ino)) as [->|], (decide (i' = ino)) as [->|]; rewrite ?lookup_insert_eq, ?lookup_insert_ne by done; try done; [| |by apply C].
    - intros [= <-] ?%B. lia.
    - intros ?%B [= <-]. lia. }
  assert (∀ i g, (i, g) ∈ (ino, sr_next r) :: held → gates !! i = Some g) as A'.
  { intros i g [[= -> ->]|Hin]%elem_of_cons; unfold gates; [by rewrite lookup_insert_eq|]. rewrite lookup_insert_ne; [by apply A|]. intros ->. by destruct (Hno g). }
  destruct (_ >=? _); cbn [fst snd]; split; cbn [fst snd sr_gates sr_next]; try done.
  - intros i g Hin. apply map_lookup_filter_Some. split; [by apply A'|]. cbn. apply elem_of_cons in Hin as [[= -> ->]|Hin]; [by rewrite Nat.eqb_refl|].
    rewrite (proj2 (expired_in_false held g)) by eauto. by rewrite orb_true_r.
  - intros i g [? _]%map_lookup_filter_Some. by eapply B'.
  - intros i i' g [? _]%map_lookup_filter_Some [? _]%map_lookup_filter_Some. by eapply C'.
Qed.
Lemma registry_step_inv st st' : registry_inv st → registry_step st st' → registry_inv st'.
Proof.
  intros Hinv Hst. destruct Hst as [ino r held gate r' E|r before x after].
  - pose proof Hinv as [A B C]. cbn [fst snd] in *. unfold ForInode in E.
    assert ((∀ g, (ino, g) ∉ held) → fresh_gate (expired_in held) ino r = (gate, r') → registry_inv (r', (ino, gate) :: held)) as Hfresh.
    { intros Hno Ef. pose proof (fresh_gate_inv ino r held Hinv Hno) as Hr. assert (gate = sr_next r) as -> by (unfold fresh_gate in Ef; by injection Ef). by rewrite Ef in Hr. }
    destruct (sr_gates r !! ino) as [g|] eqn:Eg; [destruct (expired_in held g) eqn:Ex|].
    + apply Hfresh; [|done]. intros g' Hg'. pose proof (A ino g' Hg'). assert (g' = g) as -> by congruence.
      assert (expired_in held g = false); [|congruence]. apply expired_in_false. eauto.
    + injection E as <- <-. split; cbn [fst snd]; try done. intros i g' [[= -> ->]|Hin]%elem_of_cons; [done|by apply A].
    + apply Hfresh; [|done]. intros g' Hg'. pose proof (A ino g' Hg'). congruence.
  - destruct Hinv as [A B C]. split; cbn [fst snd] in *; try done. intros i g Hin. apply A. apply elem_of_app in Hin as []; apply elem_of_app; [by left|right; by right].
Qed.
Lemma registry_reachable_inv st : rtc registry_step (new_registry, []) st → registry_inv st.
Proof.
  intros Hr. assert (registry_inv (new_registry, [])) as H0 by (split; cbn; [by intros ? ? ?%elem_of_nil|intros ? ?; by rewrite lookup_empty|intros ? ? ?; by rewrite lookup_empty]).
  revert H0. induction Hr as [|x y z Hxy _ IH]; intros Hx; [done|]. apply IH. by eapply registry_step_inv.
Qed.

(** ** Boundary sanitation *)
Section Sanitize.
Context {W : Type} (chunk_size : Z) (probe : W → result (option Z) * W).

Definition on_world {A : Type} (f : W → result A * W) : sio W A := f.
(** One round; [retry] is the next one, which re-reads the head. *)
Definition sanitize_round `{CowBackend W} (b : RetainedChunkBoundary) (retry : sio W unit) : sio W unit :=
  r ← s_try (on_world (cb_head (rcb_chunk_id b)));
  match r with
  | Err NotFound =>
      attached ← on_world probe;
      if bool_decide (attached = Some (rcb_chunk_id b)) then s_fail Malformed else mret tt
  | Err status => s_fail status
  | Ok current =>
      if head_size current <=? rcb_visible_prefix b then mret tt else
      r ← s_try (on_world (cb_exchange (rcb_chunk_id b) (Some current) (mkCOWHead (head_revision current) (rcb_visible_prefix b))));
      match r with
      | Ok _ => mret tt
      | Err status =>
          if bool_decide (status = NotFound) || (ToErrno status =? EEXIST) || IsOutcomeUnknown status
          then retry else s_fail status
      end
  end.
(** [for (;;)] with a bound on its rounds. *)
Fixpoint SanitizeCOWBoundary `{CowBackend W} (rounds : nat) (b : RetainedChunkBoundary) : sio W unit :=
  match rounds with
  | O => s_fail Internal
  | S rounds => sanitize_round b (SanitizeCOWBoundary rounds b)
  end.
Definition SanitizeCOWBoundaryImpl `{CowBackend W} (rounds : nat) (b : RetainedChunkBoundary) : sio W unit :=
  _ ← s_fail_if (negb (IsValidChunkID (rcb_chunk_id b)) || (rcb_visible_prefix b =? 0)) InvalidArgument;
  SanitizeCOWBoundary rounds b.
(** A durable zero record over the suffix. *)
Definition SanitizeSliceBoundary `{ChunkBackend W} (b : RetainedChunkBoundary) : sio W unit :=
  _ ← s_fail_if (negb (IsValidChunkID (rcb_chunk_id b)) || (rcb_visible_prefix b =? 0) || (rcb_visible_prefix b >=? chunk_size)
                 || (chunk_size >? UINT32_MAX)) InvalidArgument;
  attached ← on_world probe;
  if negb (bool_decide (attached = Some (rcb_chunk_id b))) then mret tt else
  let prefix := u32 (rcb_visible_prefix b) in
  r ← s_try (on_world (be_append (rcb_chunk_id b) (mkSliceRecord prefix 0 0 0 (u32 (chunk_size - prefix)))));
  match r with
  | Err NotFound =>
      attached ← on_world probe;
      if bool_decide (attached = Some (rcb_chunk_id b)) then s_fail Malformed else mret tt
  | Err status => s_fail status
  | Ok _ => mret tt
  end.

(** ** The factory *)
(** The selected mechanism and the type of the metadata the mount was given. *)
Record ChunkFactory := mkFactory { cf_chunk_type : ChunkType; cf_metadata : ChunkType }.
Definition SanitizeBoundary `{CowBackend W} `{ChunkBackend W} (f : ChunkFactory) (rounds : nat) (b : RetainedChunkBoundary) : sio W unit :=
  match cf_chunk_type f with
  | kChunkSlice => if bool_decide (cf_metadata f = kChunkSlice) then SanitizeSliceBoundary b else s_fail NotSupported
  | _ => if bool_decide (cf_metadata f = kCow) then SanitizeCOWBoundaryImpl rounds b else s_fail NotSupported
  end.

Inductive OpenedChunk := OpenedSlice (s : SliceChunk) | OpenedCow (s : COWChunk).
Definition OpenSlice `{ChunkBackend W} (create_if_missing : bool) : sio W (option SliceChunk) :=
  file ← on_world be_snapshot;
  mret (if bool_decide (fcs_chunk_id file = None) && negb create_if_missing then None else Some new_chunk).
Definition OpenCow `{CowBackend W} (fresh_memory : nat → bytes) (index : Z) (create_if_missing : bool) : sio W (option COWChunk) :=
  file ← on_world cb_snapshot;
  match fcs_chunk_id file with
  | Some id =>
      r ← s_try (on_world (cb_head id));
      match r with
      | Err NotFound => s_fail Malformed
      | Err status => s_fail status
      | Ok head =>
          _ ← s_fail_if (negb (IsValidHead head) || (head_size head >? chunk_size)) Malformed;
          start ← s_lift (CalculateChunkStartOffset index chunk_size);
          let eof := size (attr (fcs_inode file)) in
          let visible := if eof >? start then Z.min (head_size head) (eof - start) else 0 in
          mret (Some (new_cow fresh_memory (Some id) (Some head) visible))
      end
  | None => mret (if create_if_missing then Some (new_cow fresh_memory None None 0) else None)
  end.
Definition Factory_Open `{CowBackend W} `{ChunkBackend W} (fresh_memory : nat → bytes) (f : ChunkFactory) (index : Z) (create_if_missing : bool) : sio W (option OpenedChunk) :=
  _ ← s_fail_if (chunk_size =? 0) Internal;
  _ ← s_fail_if (negb (bool_decide (cf_metadata f = cf_chunk_type f))) Internal;
  match cf_chunk_type f with
  | kChunkSlice => c ← OpenSlice create_if_missing; mret (OpenedSlice <$> c)
  | kCow => c ← OpenCow fresh_memory index create_if_missing; mret (OpenedCow <$> c)
  | _ => s_fail NotSupported
  end.
End Sanitize.
