(* ===== verification/CowOpen.v ===== *)
(** * Opening and cutting copy-on-write chunks

    A session opened on a chunk shows what is published below the end of the file, and
    sanitation cuts the chunk at its boundary: it keeps the bytes below and makes the rest
    unreachable, or leaves the chunk as it was. *)

From stdpp Require Import gmap.
From S2P Require Import Prelude RedisKv Decimal StdMap ChunkGeometry InodeTypes Records MetaTxn MetaEngine StateIo CowChunk CowLocal CowPublished CowFlush CowSession CowMemory ChunkFactory.

Section Open.
Context {W : Type} `{CowBackend W} `{CowView W} `{!CowLaws W} (index cs start : Z) (fresh_memory : nat → bytes).
Hypothesis Hcs : 0 < cs.
Hypothesis Hmem : ∀ n, cs ≤ zlen (fresh_memory n).
Hypothesis Hstart : CalculateChunkStartOffset index cs = Ok start.

Lemma swp_world {A : Type} (f : W → result A * W) E (Q : result A → W → Prop) w :
  cow_performs f E → (∀ r w' v, cow_arrived w' = cow_arrived w ++ cb_during w' → E r (cow_view w) v → cow_settles v (cow_view w') → Q r w') → swp (on_world f) Q w.
Proof. intros Hf HQ. unfold swp, on_world. destruct (f w) as [r w'] eqn:Ef. destruct (Hf w r w' Ef) as (Ha & _ & v & HE & Hs). by eapply HQ. Qed.

(** ** Open *)
Definition open_post (create : bool) (w : W) (r : result (option COWChunk)) (w' : W) : Prop :=
  cow_settles (cow_view w) (cow_view w') ∧ match r with
  | Ok (Some c) => cow_inv cs c (cow_view w') ∧ cc_state c ≠ kFlushing ∧ (∀ k, 0 ≤ k → cow_byte c (cow_view w') k = cow_published start (cow_view w) k) ∧
      match cv_chunk (cow_view w) with
      | Some id => cc_state c = kClean ∧ ∀ h, cv_head (cow_view w) !! id = Some h → cc_visible_prefix c = Z.max 0 (Z.min (head_size h) (cv_size (cow_view w) - start))
      | None => cc_state c = kDirty ∧ buffered c = 0
      end
  | Ok None => create = false ∧ cv_chunk (cow_view w) = None
  | Err _ => True
  end.
Lemma opened_clean v v' id h o n :
  store_ok cs v → cow_settles v v' → cv_chunk v = Some id → cv_head v !! id = Some h → cv_object v !! COWObjectKey id (head_revision h) = Some o →
  n = Z.max 0 (Z.min (head_size h) (cv_size v - start)) →
  let c := new_cow fresh_memory (Some id) (Some h) n in
  cow_inv cs c v' ∧ ∀ k, 0 ≤ k → cow_byte c v' k = cow_published start v k.
Proof.
  intros Hok Hs Hid Hh Ho Hn c. destruct (so_head _ _ Hok id h Hh) as (_ & _ & _ & Hsz & o' & Ho' & Hlen). rewrite Ho in Ho'. injection Ho' as <-.
  assert (cow_inv cs c v) as Hinv.
  { split; [|done|].
    - split; cbn; try done. lia.
    - intros _. exists id, h, h. split_and!; try done; cbn; lia. }
  split; [by eapply cow_inv_settles|]. intros k Hk. rewrite (cow_byte_settles cs c v v' k Hok Hs).
  unfold cow_byte, clean_byte, cow_published, cow_content, head_content, head_byte. cbn [c new_cow cc_state cc_attached_id]. rewrite Hid. cbn [mbind option_bind]. rewrite Hh.
  cbn [mbind option_bind]. rewrite Ho. cbn [mbind option_bind]. rewrite byte_at_take. unfold VisibleBytesForHeadLocked. cbn [cc_published_head cc_visible_prefix].
  rewrite Z.eqb_refl. cbn [negb]. destruct (Z.ltb_spec k (Z.min (head_size h) n)), (Z.ltb_spec k (cv_size v - start)), (Z.ltb_spec k (head_size h)); done || lia.
Qed.
Lemma OpenCow_spec create w : store_ok cs (cow_view w) → swp (OpenCow cs fresh_memory index create) (open_post create w) w.
Proof.
  intros Hok. assert (∀ e w', cow_settles (cow_view w) (cow_view w') → open_post create w (Err e) w') as Herr by done.
  unfold OpenCow. apply swp_bind. apply (swp_world _ _ _ _ cl_snapshot). intros r w1 v1 _ [-> Hr] Hs1.
  destruct r as [file|e]; [|by apply Herr]. destruct Hr as [Hch Hsz]. rewrite Hch. destruct (cv_chunk (cow_view w)) as [id|] eqn:Hid.
  - destruct (so_attached _ _ Hok id Hid) as [h Hh]. destruct (so_head _ _ Hok id h Hh) as (_ & _ & _ & Hhs & o & Ho & _).
    apply swp_bind, swp_try. apply (swp_world _ _ _ _ (cl_head id)). intros r w2 v2 _ [-> Hr] Hs2. assert (cow_settles (cow_view w) (cow_view w2)) as Hs by (by etrans).
    destruct r as [x|e]; [|by destruct e; apply swp_fail, Herr]. rewrite (ct_head _ _ Hs1), Hh in Hr. injection Hr as <-.
    apply swp_bind, swp_fail_if; [by intros; apply Herr|]. intros _. apply swp_bind, swp_lift. rewrite Hstart. apply swp_ret. rewrite Hsz.
    set (n := if _ >? _ then _ else _). assert (n = Z.max 0 (Z.min (head_size h) (cv_size (cow_view w) - start))) as En.
    { subst n. rewrite Z.gtb_ltb. destruct (Z.ltb_spec start (cv_size (cow_view w))); lia. }
    destruct (opened_clean _ _ id h o n Hok Hs Hid Hh Ho En) as [Hinv Hby]. split; [done|]. rewrite Hid. split_and!; try done. intros h'. rewrite Hh. by intros [= <-].
  - apply swp_ret. destruct create; (split; [done|]); [|done]. rewrite Hid.
    assert (∀ k, local_byte (mkWriteBuf (fresh_memory 0) 0) k = Ascii.zero ∨ k < 0) as Hz by (intros k; rewrite local_byte_eq; cbn; destruct (Z.ltb_spec k 0); auto).
    split_and!; try done.
    + split; [|by eapply settles_store_ok|done]. split; [constructor; [|constructor]; split; cbn; [lia|apply Hmem]|by split|done|cbn; by split; intros []].
    + intros k Hk. unfold cow_published, cow_content. rewrite Hid. cbn. destruct (Hz k) as [E|?]; [|lia]. unfold cow_byte, local. cbn. rewrite E. by destruct (_ <? _).
Qed.

(** ** Sanitation *)
Context (probe : W → result (option Z) * W).
Hypothesis Hprobe : cow_performs probe (cow_query (λ a v, a = cv_chunk v)).
Definition cut (n : Z) (o : bytes) : bytes := take (Z.to_nat n) o.
Definition sanitize_post (b : RetainedChunkBoundary) (v : CowStore) (r : result unit) (w' : W) : Prop :=
  let id := rcb_chunk_id b in let n := rcb_visible_prefix b in let v' := cow_view w' in
  store_ok cs v' ∧ cv_chunk v' = cv_chunk v ∧ cv_size v ≤ cv_size v' ∧
  (∀ id', id' ≠ id → cv_head v' !! id' = cv_head v !! id' ∧ head_content v' id' = head_content v id') ∧
  (head_content v' id = head_content v id ∨ head_content v' id = cut n <$> head_content v id) ∧
  (r = Ok tt → cv_chunk v = Some id → head_content v' id = cut n <$> head_content v id ∧ ∀ h, cv_head v' !! id = Some h → head_size h ≤ n).
Lemma put_smaller_head v id h n :
  store_ok cs v → cv_head v !! id = Some h → 0 < n < head_size h →
  let v' := put_head id (mkCOWHead (head_revision h) n) v in
  store_ok cs v' ∧ head_content v' id = cut n <$> head_content v id ∧ ∀ id', id' ≠ id → cv_head v' !! id' = cv_head v !! id' ∧ head_content v' id' = head_content v id'.
Proof.
  intros [A B C D] Hh Hn v'. destruct (B id h Hh) as (B1 & B2 & B3 & B4 & o & Ho & Hlen). split_and!.
  - split; try done.
    + intros id' Hid'. cbn [v' put_head cv_head]. destruct (decide (id' = id)) as [->|]; [by rewrite lookup_insert_eq|rewrite lookup_insert_ne by done; by apply A].
    + intros id' h'. cbn [v' put_head cv_head]. destruct (decide (id' = id)) as [->|]; [rewrite lookup_insert_eq|rewrite lookup_insert_ne by done; apply B].
      intros [= <-]. change (next_revision v' id) with (next_revision v id). change (cv_next_chunk v') with (cv_next_chunk v). change (cv_object v') with (cv_object v).
      cbn [head_revision head_size]. split_and!; try exact B2; try lia.
      exists o. split; [done|lia].
  - unfold head_content. cbn [v' put_head cv_head cv_object]. rewrite lookup_insert_eq, Hh. cbn [mbind option_bind head_revision head_size]. rewrite Ho. cbn [mbind option_bind fmap option_fmap option_map].
    unfold cut. rewrite take_take. do 2 f_equal. lia.
  - intros id' Hne. unfold head_content. cbn [v' put_head cv_head cv_object]. by rewrite lookup_insert_ne.
Qed.
(** The chunk is whole, or cut already. *)
Definition sanitizing (b : RetainedChunkBoundary) (v v' : CowStore) : Prop :=
  store_ok cs v' ∧ cv_chunk v' = cv_chunk v ∧ cv_size v ≤ cv_size v' ∧
  (∀ id', id' ≠ rcb_chunk_id b → cv_head v' !! id' = cv_head v !! id' ∧ head_content v' id' = head_content v id') ∧
  (cv_head v' !! rcb_chunk_id b = cv_head v !! rcb_chunk_id b ∧ head_content v' (rcb_chunk_id b) = head_content v (rcb_chunk_id b) ∨
   (∃ h, cv_head v' !! rcb_chunk_id b = Some h ∧ head_size h = rcb_visible_prefix b) ∧ head_content v' (rcb_chunk_id b) = cut (rcb_visible_prefix b) <$> head_content v (rcb_chunk_id b)).
Lemma sanitizing_settles b v v1 v2 : sanitizing b v v1 → cow_settles v1 v2 → sanitizing b v v2.
Proof.
  intros (A & B & C & D & E) Hs. split_and!; [by eapply settles_store_ok|rewrite (ct_chunk _ _ Hs); done|pose proof (ct_size _ _ Hs); lia| |].
  - intros id' Hne. rewrite (ct_head _ _ Hs), (settles_head_content cs _ _ _ Hs A). by apply D.
  - by rewrite (ct_head _ _ Hs), (settles_head_content cs _ _ _ Hs A).
Qed.
Lemma sanitizing_post b v w' r :
  sanitizing b v (cow_view w') →
  (r = Ok tt → cv_chunk v = Some (rcb_chunk_id b) → ∃ h, cv_head (cow_view w') !! rcb_chunk_id b = Some h ∧ head_size h ≤ rcb_visible_prefix b) →
  sanitize_post b v r w'.
Proof.
  intros (A & B & C & D & E) Hr. unfold sanitize_post. split_and!; try done; [destruct E as [[_ ->]|[_ ->]]; auto|]. intros Ho Hc.
  destruct (Hr Ho Hc) as (h & Hh & Hsz). split; [|intros h'; rewrite Hh; by intros [= <-]]. destruct E as [[E1 E2]|[_ ->]]; [|done]. rewrite <- E2.
  unfold head_content. rewrite Hh. cbn [mbind option_bind]. destruct (cv_object _ !! _) as [o|]; [|done]. cbn [mbind option_bind fmap option_fmap option_map].
  unfold cut. rewrite take_take. do 2 f_equal. lia.
Qed.
Lemma SanitizeCOWBoundary_spec n b v w :
  0 < rcb_visible_prefix b → sanitizing b v (cow_view w) → swp (SanitizeCOWBoundary probe n b) (sanitize_post b v) w.
Proof.
  intros Hpre. revert w. induction n as [|n IH]; intros w Hz; cbn [SanitizeCOWBoundary]; [by apply swp_fail, sanitizing_post|]. unfold sanitize_round.
  assert (∀ e w', sanitizing b v (cow_view w') → sanitize_post b v (Err e) w') as Herr by (intros; by apply sanitizing_post).
  apply swp_bind, swp_try. apply (swp_world _ _ _ _ (cl_head (rcb_chunk_id b))). intros r w1 v1 _ [-> Hr] Hs1. pose proof (sanitizing_settles _ _ _ _ Hz Hs1) as Hz1.
  destruct r as [h|e].
  - assert (cv_head (cow_view w1) !! rcb_chunk_id b = Some h) as Hh by (by rewrite (ct_head _ _ Hs1)).
    destruct (Z.leb_spec (head_size h) (rcb_visible_prefix b)); [apply swp_ret, sanitizing_post; [done|eauto]|].
    apply swp_bind, swp_try. apply (swp_world _ _ _ _ (cl_exchange _ _ _)). intros r w2 v2 _ HE Hs2. pose proof Hz1 as (A & B & C & D & E).
    destruct (put_smaller_head _ _ h (rcb_visible_prefix b) A Hh ltac:(lia)) as (Hok' & Hcut & Hoth).
    assert (sanitizing b v (put_head (rcb_chunk_id b) (mkCOWHead (head_revision h) (rcb_visible_prefix b)) (cow_view w1))) as Hput.
    { split_and!; [done|done|done| |].
      - intros id' Hne. destruct (Hoth id' Hne) as [-> ->]. by apply D.
      - right. split; [eexists; split; [apply lookup_insert_eq|done]|]. rewrite Hcut. destruct E as [[_ ->]|[(h' & Hh' & ?) _]]; [done|]. rewrite Hh in Hh'. injection Hh' as <-. lia. }
    destruct r as [u|e].
    + destruct HE as [_ ->]. apply swp_ret, sanitizing_post; [by eapply sanitizing_settles|]. intros _ _. eexists. rewrite (ct_head _ _ Hs2). split; [apply lookup_insert_eq|done].
    + assert (sanitizing b v (cow_view w2)) as Hz2 by (eapply sanitizing_settles; [|exact Hs2]; destruct HE as [->|[_ ->]]; done).
      destruct (_ || _); [by apply IH|by apply swp_fail, Herr].
  - destruct (decide (e = NotFound)) as [->|Hne]; [|by destruct e; try done; apply swp_fail, Herr].
    apply swp_bind. apply (swp_world _ _ _ _ Hprobe). intros r w2 v2 _ [-> Ha] Hs2. pose proof (sanitizing_settles _ _ _ _ Hz1 Hs2) as Hz2.
    destruct r as [a|e]; [|by apply Herr]. case_bool_decide as Eb; [by apply swp_fail, Herr|]. apply swp_ret, sanitizing_post; [done|].
    intros _ Hc. destruct Eb. rewrite Ha. destruct Hz1 as (_ & -> & _). done.
Qed.
End Open.
