(* ===== verification/ChunkBoundary.v ===== *)
(** * The chunk at a new end of file

    What [ChunkFactory::SanitizeBoundary] promises to the file path, for both mechanisms:
    when it succeeds on a chunk that is still attached, the bytes below the boundary are
    those from before and every byte past it is zero, whatever grows the file later. *)

From stdpp Require Import gmap.
From S2P Require Import Prelude RedisKv Decimal StdMap ChunkGeometry InodeTypes SliceHistory DirtyRanges Records MetaTxn MetaEngine SliceChunk SliceLocal SlicePublished SliceMemory StateIo CowChunk CowLocal CowPublished CowFlush CowSession CowMemory ChunkFactory CowOpen.

(** ** Slices: a zero record over the suffix *)
Section Slices.
Context {W : Type} `{ChunkBackend W} `{BackendView W} `{!BackendLaws W} (cs : Z) (probe : W → result (option Z) * W).
Hypothesis Hcs : 0 < cs ≤ UINT32_MAX.
Hypothesis Hprobe : performs probe always (query (λ a v, a = pb_chunk v)).

Lemma zero_cover_stored v v' c l n k :
  pb_chunk v = Some c → pb_index v c = Some l → index_ok cs v [] c l → 0 < n < cs →
  indexed c (l ++ [mkSliceRecord n 0 0 0 (cs - n)]) v v' → 0 ≤ k < cs → stored cs v' [] k = if k <? n then stored cs v [] k else Ascii.zero.
Proof.
  intros Hc Hl Hi Hn (E1 & E2 & E3 & E4 & E5 & E6) Hk. unfold stored, visible_records. rewrite E1, Hc, E5, Hl. cbn [sanitized_records last].
  unfold source_byte at 1 2. rewrite E3. rewrite visible_snoc. unfold covers, record_source. cbn [sr_pos sr_len sr_id].
  destruct (Z.ltb_spec k n), (Z.leb_spec n k), (Z.ltb_spec k (n + (cs - n))); cbn [andb]; try lia; done.
Qed.
Definition slice_cut (v : Published) (c n : Z) (v' : Published) : Prop :=
  pb_chunk v' = pb_chunk v ∧ published_ok cs v' [] ∧ ∀ k, 0 ≤ k < cs → stored cs v' [] k = if k <? n then stored cs v [] k else Ascii.zero.
Lemma settles_cut v v1 v2 c n : slice_cut v c n v1 → settles v1 v2 → slice_cut v c n v2.
Proof.
  intros (A & B & C) Hs. split_and!; [by rewrite (st_chunk _ _ Hs)|by eapply settles_ok|]. intros k Hk. rewrite (settles_stored cs Hcs _ _ _ k Hs B). by apply C.
Qed.

Lemma zero_cover_ok v v' c l n :
  pb_chunk v = Some c → pb_index v c = Some l → published_ok cs v [] → 0 < n < cs →
  indexed c (l ++ [mkSliceRecord n 0 0 0 (cs - n)]) v v' → slice_cut v c n v'.
Proof.
  intros Hc Hl Hok Hn Hx. destruct (Hok c Hc) as (l0 & Hl0 & Hi). rewrite Hl in Hl0. injection Hl0 as <-. pose proof Hi as (Hne & Hall & _).
  pose proof Hx as (E1 & E2 & E3 & [E4 E4'] & E5 & E6). split_and!; [done| |intros k Hk; by apply (zero_cover_stored v v' c l n k)].
  intros c' Hc'. rewrite E1, Hc in Hc'. injection Hc' as <-. eexists. split; [exact E5|]. split_and!; [by intros []%app_nil| |done]. apply Forall_app.
  split; [eapply Forall_impl; [exact Hall|]; intros r; apply record_stored_mono; [by rewrite E3|lia]|]. constructor; [|constructor].
  unfold UINT32_MAX in *. split_and!; cbn [sr_pos sr_id sr_size sr_off sr_len]; try done.
  - unfold record_fields, in_range. cbn [sr_pos sr_id sr_size sr_off sr_len]. lia.
  - unfold ValidateRecord. cbn [sr_pos sr_id sr_size sr_off sr_len]. rewrite (wrap_id 32 (cs - n)) by (unfold in_range; lia). rewrite (proj2 (Z.eqb_neq (cs - n) 0)), Z.geb_leb, (proj2 (Z.leb_gt cs n)), Z.gtb_ltb, Z.ltb_irrefl by lia. done.
  - rewrite E4. destruct l as [|r0 l']; [done|]. inversion Hall as [|? ? (Hf & _ & Hid & _) _]; subst. unfold record_fields, in_range in Hf. lia.
Qed.
Lemma swp_performs {A : Type} (f : W → result A * W) pre E (Q : result A → W → Prop) w :
  performs f pre E → (∀ r w' v, E r (view w) v → settles v (view w') → Q r w') → swp (on_world f) Q w.
Proof. intros Hf HQ. unfold swp, on_world. destruct (f w) as [r w'] eqn:Ef. destruct (Hf w r w' Ef) as (_ & _ & _ & v & HE & Hs). by eapply HQ. Qed.
Definition slice_post (b : RetainedChunkBoundary) (w : W) (r : result unit) (w' : W) : Prop :=
  (settles (view w) (view w') ∨ slice_cut (view w) (rcb_chunk_id b) (rcb_visible_prefix b) (view w')) ∧
  (r = Ok tt → pb_chunk (view w) = Some (rcb_chunk_id b) → slice_cut (view w) (rcb_chunk_id b) (rcb_visible_prefix b) (view w')).
Lemma SanitizeSliceBoundary_spec b w : published_ok cs (view w) [] → 0 ≤ rcb_visible_prefix b → swp (SanitizeSliceBoundary cs probe b) (slice_post b w) w.
Proof.
  intros Hok Hnn. assert (∀ e w', settles (view w) (view w') → slice_post b w (Err e) w') as Herr by (intros; split; [by left|done]).
  unfold SanitizeSliceBoundary. apply swp_bind, swp_fail_if; [intros; by apply Herr|]. intros Hargs.
  apply orb_false_iff in Hargs as [Hargs _]. apply orb_false_iff in Hargs as [Hargs Hlt]. apply orb_false_iff in Hargs as [_ Hz].
  apply swp_bind. apply (swp_performs _ _ _ _ _ Hprobe). intros r w1 v1 [-> Ha] Hs1. destruct r as [a|e]; [|by apply Herr].
  case_bool_decide as Ea; cbn [negb]; [|apply swp_ret; split; [by left|]; intros _ Hc; congruence].
  assert (pb_chunk (view w1) = Some (rcb_chunk_id b)) as Hc1 by (rewrite (st_chunk _ _ Hs1); congruence). pose proof (settles_ok cs _ _ _ Hs1 Hok) as Hok1.
  destruct (Hok1 _ Hc1) as (l & Hl & _). assert (0 < rcb_visible_prefix b < cs) as Hn by zlia.
  unfold UINT32_MAX in Hcs. rewrite (wrap_id 32 (rcb_visible_prefix b)), (wrap_id 32 (cs - _)) by (unfold in_range; lia).
  apply swp_bind, swp_try. apply (swp_performs _ _ _ _ _ (law_append _ _)). intros r w2 v2 HE Hs2.
  assert ((∃ l0, pb_index (view w1) (rcb_chunk_id b) = Some l0 ∧ indexed (rcb_chunk_id b) (l0 ++ [mkSliceRecord (rcb_visible_prefix b) 0 0 0 (cs - rcb_visible_prefix b)]) (view w1) v2) →
    slice_cut (view w) (rcb_chunk_id b) (rcb_visible_prefix b) (view w2)) as Hcut.
  { intros (l0 & Hl0 & Hx). rewrite Hl in Hl0. injection Hl0 as <-. apply (settles_cut _ v2); [|done]. destruct (zero_cover_ok _ _ _ _ _ Hc1 Hl Hok1 Hn Hx) as (A & B & C).
    split_and!; [by rewrite A, (st_chunk _ _ Hs1)|done|]. intros k Hk. rewrite C by done. by rewrite (settles_stored cs Hcs _ _ _ k Hs1 Hok). }
  assert (v2 = view w1 ∨ slice_cut (view w) (rcb_chunk_id b) (rcb_visible_prefix b) (view w2)) as Hor by (destruct r as [u|e]; [right; auto|destruct e; cbn in HE; intuition]).
  assert (v2 = view w1 → settles (view w) (view w2)) as Hsame by (intros ->; by etrans).
  destruct r as [u|e]; [apply swp_ret; split; [right|intros _ _]; auto|].
  assert (∀ e', slice_post b w (Err e') w2) as Herr2 by (intros; split; [destruct Hor; auto|done]).
  destruct (decide (e = NotFound)) as [->|Hne]; [|by destruct e; try done; apply swp_fail, Herr2].
  cbn in HE. subst v2. specialize (Hsame eq_refl). apply swp_bind. apply (swp_performs _ _ _ _ _ Hprobe). intros r w3 v3 [-> Ha3] Hs3.
  assert (settles (view w) (view w3)) as Hs by (by etrans). destruct r as [a3|e]; [|by apply Herr]. case_bool_decide as E3; [by apply swp_fail, Herr|].
  apply swp_ret. split; [by left|]. intros _ Hc. destruct E3. rewrite Ha3, (st_chunk _ _ Hsame). done.
Qed.
End Slices.

(** ** Copy-on-write: the rounds of the retry loop *)
(** The exchange of the current head for a shorter one was answered in a way that makes the
    loop read the head again. *)
Definition retryable (e : Status) : bool := bool_decide (e = NotFound) || (ToErrno e =? EEXIST) || IsOutcomeUnknown e.
Section Rounds.
Context {W : Type} `{CowBackend W} `{CowView W} `{!CowLaws W} (cs : Z) (probe : W → result (option Z) * W).
(** What ends the loop: only finitely many such answers.  [budget] counts those to come. *)
Record finite_retries (id : Z) (budget : W → nat) : Prop := {
  fr_head w r w' : cb_head id w = (r, w') → (budget w' ≤ budget w)%nat;
  fr_exchange w h n e w' :
    store_ok cs (cow_view w) → cv_head (cow_view w) !! id = Some h → 0 < n < head_size h →
    cb_exchange id (Some h) (mkCOWHead (head_revision h) n) w = (Err e, w') → retryable e = true → (budget w' < budget w)%nat;
}.
Lemma exchange_store_ok id h n e w w' :
  store_ok cs (cow_view w) → cv_head (cow_view w) !! id = Some h → 0 < n < head_size h →
  cb_exchange id (Some h) (mkCOWHead (head_revision h) n) w = (Err e, w') → store_ok cs (cow_view w').
Proof.
  intros Hok Hh Hn E. destruct (cl_exchange id (Some h) _ w _ _ E) as (_ & _ & v & HE & Hs). destruct (put_smaller_head cs _ _ h n Hok Hh Hn) as (Hok' & _).
  eapply settles_store_ok; [exact Hs|]. by destruct HE as [->|[_ ->]].
Qed.
Lemma sanitize_more_rounds b budget n w :
  finite_retries (rcb_chunk_id b) budget → store_ok cs (cow_view w) → 0 < rcb_visible_prefix b → (budget w < n)%nat →
  SanitizeCOWBoundary probe (S n) b w = SanitizeCOWBoundary probe n b w.
Proof.
  intros Hfin Hok Hpre. revert w Hok. induction n as [|n IH]; intros w Hok Hn; [lia|].
  change (sanitize_round probe b (SanitizeCOWBoundary probe (S n) b) w = sanitize_round probe b (SanitizeCOWBoundary probe n b) w).
  unfold sanitize_round, mbind, sio_bind, s_try, on_world. destruct (cb_head (rcb_chunk_id b) w) as [r w1] eqn:E1.
  pose proof (fr_head _ _ Hfin _ _ _ E1) as Hl1. destruct (cl_head _ _ _ _ E1) as (_ & _ & v & [-> Hh] & Hs1).
  destruct r as [h|e]; [|done]. rewrite <- (ct_head _ _ Hs1) in Hh. pose proof (settles_store_ok cs _ _ Hs1 Hok) as Hok1.
  destruct (Z.leb_spec (head_size h) (rcb_visible_prefix b)) as [|Hgt]; [done|].
  destruct (cb_exchange _ _ _ w1) as [[u|e] w2] eqn:E2; [done|]. pose proof (exchange_store_ok _ _ _ _ _ _ Hok1 Hh (conj Hpre Hgt) E2) as Hok2.
  destruct (_ || _) eqn:Er; [|done]. pose proof (fr_exchange _ _ Hfin _ _ _ _ _ Hok1 Hh (conj Hpre Hgt) E2 Er). apply (IH w2 Hok2). lia.
Qed.
End Rounds.

Definition cm_probe (m : CowMemory) : result (option Z) * CowMemory := cm_find (Some (cv_chunk (cm_store m))) m.
Lemma cm_probe_performs : cow_performs cm_probe (cow_query (λ a v, a = cv_chunk v)).
Proof. apply (find_performs _ (λ m, Some (cv_chunk (cm_store m)))); [done|]. by intros m x [= <-]. Qed.
Lemma head_query id m r m' : cb_head id m = (r, m') → cm_store m' = cm_store m ∧ (length (cm_faults m') ≤ length (cm_faults m))%nat ∧ ∀ h, r = Ok h → cv_head (cm_store m) !! id = Some h.
Proof.
  assert (∀ v, length (cm_faults (advance v m)) ≤ length (cm_faults m))%nat as Hl by (intros v; cbn; destruct (cm_faults m); cbn; lia).
  cbn. unfold cm_find, cm_reply. destruct (cv_head (cm_store m) !! id) as [h|] eqn:Hh; [|intros [= <- <-]; by split_and!].
  destruct (head _) as [[[e []]|]|]; intros [= <- <-]; split_and!; try done; by intros ? [= <-].
Qed.
Lemma exchange_failed cs id h n m e m' :
  store_ok cs (cm_store m) → cv_head (cm_store m) !! id = Some h → 0 < n < head_size h →
  cb_exchange id (Some h) (mkCOWHead (head_revision h) n) m = (Err e, m') → store_ok cs (cm_store m') ∧ (length (cm_faults m') < length (cm_faults m))%nat.
Proof.
  intros Hok Hh Hn. destruct (so_head _ _ Hok id h Hh) as (_ & Hv & _). cbn. unfold cm_reply. rewrite Hh, bool_decide_eq_true_2 by done.
  change (IsValidHead (mkCOWHead (head_revision h) n)) with (IsValidHead h). rewrite Hv. cbn [andb].
  destruct (cm_faults m) as [|[[e0 applied]|] l] eqn:Ef; cbn [head]; try done. intros [= <- <-].
  assert (length (tail (cm_faults m)) < length (cm_faults m))%nat as Hl by (rewrite Ef; cbn; lia). rewrite <- Ef. split; [|done].
  destruct applied; cbn [advance cm_store]; [|done]. by destruct (put_smaller_head cs _ _ h n Hok Hh Hn).
Qed.
Lemma memory_retries cs id : finite_retries cs id (λ m : CowMemory, length (cm_faults m)).
Proof.
  split; [intros m r m' E; by destruct (head_query _ _ _ _ E) as (_ & ? & _)|]. intros m h n e m' Hok Hh Hn E _. by destruct (exchange_failed cs id h n m e m' Hok Hh Hn E).
Qed.

(** ** Claims *)
(** C32: Sanitation of a copy-on-write chunk only ever replaces its bytes by their prefix below
    the boundary, and when it returns success for an attached chunk it has: nothing past the
    boundary can become visible when the file grows again.  Other chunks keep their bytes.
    This holds over any backend that keeps its promises, lost replies and failing calls
    included, after any number of rounds of the retry loop.  The loop has no bound of its
    own: it returns when the exchange of the head is answered with a retryable error only
    finitely often, after one round more than there are such answers. *)
Theorem boundary_cut_cow {W : Type} `{CowBackend W} `{CowView W} `{!CowLaws W} (cs : Z) (probe : W → result (option Z) * W)
    (b : RetainedChunkBoundary) (w : W) :
  cow_performs probe (cow_query (λ a v, a = cv_chunk v)) → store_ok cs (cow_view w) → 0 ≤ rcb_visible_prefix b →
  (∀ rounds, let '(r, w') := SanitizeCOWBoundaryImpl probe rounds b w in sanitize_post cs b (cow_view w) r w') ∧
  (∀ budget rounds, finite_retries cs (rcb_chunk_id b) budget → (budget w < rounds)%nat →
     SanitizeCOWBoundaryImpl probe rounds b w = SanitizeCOWBoundaryImpl probe (S (budget w)) b w).
Proof.
  intros Hp Hok Hnn. split.
  - intros n. assert (swp (SanitizeCOWBoundaryImpl probe n b) (sanitize_post cs b (cow_view w)) w) as Hspec; [|unfold swp in Hspec; by destruct (SanitizeCOWBoundaryImpl probe n b w)].
    assert (sanitizing cs b (cow_view w) (cow_view w)) as Hz by (split_and!; try done; left; done).
    unfold SanitizeCOWBoundaryImpl. apply swp_bind, swp_fail_if; [intros _; by apply sanitizing_post|]. intros Hb%orb_false_iff.
    apply SanitizeCOWBoundary_spec; [done|zlia|done].
  - intros budget n Hfin Hn. unfold SanitizeCOWBoundaryImpl, mbind, sio_bind, s_fail_if. destruct (_ || _) eqn:Eb; [done|]. apply orb_false_iff in Eb. cbn [mret sio_ret].
    replace n with ((n - S (budget w)) + S (budget w))%nat by lia. generalize (n - S (budget w))%nat as extra.
    induction extra as [|extra IH]; [done|]. rewrite <- IH. apply (sanitize_more_rounds cs probe b budget); [done|done|zlia|lia].
Qed.
Definition cut_store : CowStore :=
  mkCowStore (Some 3) 20 {[ 3 := mkCOWHead 2 6 ]} {[ COWObjectKey 3 2 := lit "abcdef" ]} {[ 3 := 3 ]} 4.
Lemma cut_store_ok : store_ok 8 cut_store.
Proof.
  split; try done.
  - intros id [= <-]. cbn. by rewrite lookup_singleton_eq.
  - intros id h. cbn [cut_store cv_head]. intros [<- <-]%lookup_singleton_Some. split_and!; try done. exists (lit "abcdef"). split; [apply lookup_singleton_eq|done].
  - intros id. unfold next_revision. cbn [cut_store cv_revisions]. destruct (decide (id = 3)) as [->|]; [by rewrite lookup_singleton_eq|by rewrite lookup_singleton_ne].
Qed.
(** The reply to the exchange is lost: the second round finds the head cut. *)
Definition cut_world : CowMemory := mkCowMemory cut_store [None; Some (OutcomeUnknown, true)] [] [] [].
Lemma boundary_cut_cow_witness :
  let '(r, m') := SanitizeCOWBoundaryImpl cm_probe 5 (mkRetainedChunkBoundary 2 3 4) cut_world in
  r = Ok tt ∧ head_content (cm_store m') 3 = Some (lit "abcd").
Proof.
  assert (0 ≤ 4) as H2 by done.
  assert ((SanitizeCOWBoundaryImpl cm_probe 3 (mkRetainedChunkBoundary 2 3 4) cut_world).1 = Ok tt) as Hr by (by vm_compute).
  assert (cut 4 <$> head_content cut_store 3 = Some (lit "abcd")) as Hcut by (by vm_compute). assert ((length (cm_faults cut_world) < 5)%nat) as Hn by (cbn; lia).
  destruct (boundary_cut_cow 8 cm_probe (mkRetainedChunkBoundary 2 3 4) cut_world cm_probe_performs cut_store_ok H2) as [Hpost Hmore].
  specialize (Hpost 3%nat). rewrite (Hmore _ _ (memory_retries 8 3) Hn). change (S (length (cm_faults cut_world))) with 3%nat.
  destruct (SanitizeCOWBoundaryImpl _ _ _ _) as [r m']. cbn [fst] in Hr. subst r. destruct Hpost as (_ & _ & _ & _ & _ & H).
  split; [reflexivity|]. destruct (H eq_refl eq_refl) as [E _]. etransitivity; [exact E|exact Hcut].
Defined.

(** C33: Sanitation of a slice chunk leaves it as it was or covered with zeros from the boundary
    on, bytes below untouched, and when it returns success for an attached chunk it is
    covered, whatever the backend does to the calls. *)
Theorem boundary_cut_slice {W : Type} `{ChunkBackend W} `{BackendView W} `{!BackendLaws W} (cs : Z) (probe : W → result (option Z) * W)
    (b : RetainedChunkBoundary) (w : W) :
  0 < cs ≤ UINT32_MAX → performs probe always (query (λ a v, a = pb_chunk v)) → published_ok cs (view w) [] → 0 ≤ rcb_visible_prefix b →
  let '(r, w') := SanitizeSliceBoundary cs probe b w in slice_post cs b w r w'.
Proof.
  intros Hcs Hp Hok Hn. pose proof (SanitizeSliceBoundary_spec cs probe Hcs Hp b w Hok Hn) as Hs. unfold swp in Hs. by destruct (SanitizeSliceBoundary cs probe b w).
Qed.
Definition mm_probe (m : Memory) : result (option Z) * Memory := answer true (mm_chunk m) m m.
Lemma mm_probe_performs : performs mm_probe always (query (λ a v, a = pb_chunk v)).
Proof. law (λ _ : Memory, true) mm_chunk (λ m : Memory, m). Qed.
Definition covered_memory : Memory := mkMemory (Some 3) 20 [(3, [mkSliceRecord 0 5 8 0 8])] [(SliceObjectKey 5, lit "abcdefgh")] 6 4 [] [] [].
Lemma covered_ok : published_ok 8 (view covered_memory) [].
Proof.
  intros c [= <-]. exists [mkSliceRecord 0 5 8 0 8]. split; [done|]. split_and!; [done| |done]. repeat constructor; try done. intros _. by exists (lit "abcdefgh").
Qed.
Lemma boundary_cut_slice_witness :
  let '(r, w') := SanitizeSliceBoundary 8 mm_probe (mkRetainedChunkBoundary 2 3 4) covered_memory in
  r = Ok tt ∧ stored 8 (view w') [] 3 = "d"%char ∧ stored 8 (view w') [] 4 = Ascii.zero.
Proof.
  assert (0 < 8 ≤ UINT32_MAX) as H1 by done. assert (0 ≤ 4) as H2 by done.
  assert ((SanitizeSliceBoundary 8 mm_probe (mkRetainedChunkBoundary 2 3 4) covered_memory).1 = Ok tt) as Hr by (by vm_compute).
  assert (stored 8 (view covered_memory) [] 3 = "d"%char) as Hd by (by vm_compute).
  pose proof (boundary_cut_slice 8 mm_probe (mkRetainedChunkBoundary 2 3 4) covered_memory H1 mm_probe_performs covered_ok H2) as H.
  destruct (SanitizeSliceBoundary _ _ _ _) as [r w']. cbn [fst] in Hr. subst r. destruct H as [_ H]. destruct (H eq_refl eq_refl) as (_ & _ & Hk).
  split; [reflexivity|]. split; [rewrite Hk by done; exact Hd|rewrite Hk by done; reflexivity].
Defined.

(** C34: However sessions of any inodes come and go, two open slice sessions have the same
    publication gate exactly when they are sessions of the same inode: publications of one
    inode exclude each other and those of different inodes do not wait for each other,
    also when the registry drops the gates nobody holds. *)
Theorem publication_gates_shared (st : SlicePublicationRegistry * list (Z * nat)) ino ino' gate gate' :
  rtc registry_step (new_registry, []) st → (ino, gate) ∈ st.2 → (ino', gate') ∈ st.2 → ino = ino' ↔ gate = gate'.
Proof.
  intros Hr H1 H2. destruct (registry_reachable_inv st Hr) as [A _ C]. pose proof (A _ _ H1). pose proof (A _ _ H2). split; [intros ->|intros ->]; [congruence|by eapply C].
Qed.
Lemma publication_gates_shared_witness :
  ∃ r, rtc registry_step (new_registry, []) (r, [(7, 2%nat); (7, 2%nat); (8, 1%nat)]) ∧ (7 = 8 ↔ 2%nat = 1%nat).
Proof.
  assert (∃ r, rtc registry_step (new_registry, []) (r, [(7, 2%nat); (7, 2%nat); (8, 1%nat)])) as [r Hr].
  { eexists. eapply rtc_l; [by apply (gate_open 7)|]. eapply rtc_l; [apply (gate_close _ [] (7, 0%nat) [])|]. eapply rtc_l; [by apply (gate_open 8)|].
    eapply rtc_l; [by apply (gate_open 7)|]. eapply rtc_l; [by apply (gate_open 7)|]. apply rtc_refl. }
  exists r. split; [exact Hr|].
  apply (publication_gates_shared (r, [(7, 2%nat); (7, 2%nat); (8, 1%nat)]) 7 8 2 1 Hr); [left|right; right; left].
Defined.
