(* ===== verification/CowFrame.v ===== *)
(** * What a copy-on-write session leaves alone

    As SliceFrame.v: a relation on backends that every call respects holds across a whole
    read, write, flush or open. *)

From S2P Require Import Prelude RedisKv Decimal StdMap ChunkGeometry InodeTypes Records MetaTxn MetaEngine StateIo CowChunk ChunkFactory.

Section Frame.
Context {W : Type} `{CowBackend W} (index cs : Z) (fresh_memory : nat → bytes) (R : W → W → Prop) `{!PreOrder R}.

Definition cow_respects {A : Type} (f : W → result A * W) : Prop := ∀ w, R w (f w).2.
Class CowCallsRespect : Prop := {
  cc_snapshot : cow_respects cb_snapshot;
  cc_attach c e p : cow_respects (cb_attach c e p);
  cc_finalize c e p : cow_respects (cb_finalize c e p);
  cc_allocate_chunk : cow_respects cb_allocate_chunk;
  cc_allocate_revision c : cow_respects (cb_allocate_revision c);
  cc_head c : cow_respects (cb_head c);
  cc_exchange c e r : cow_respects (cb_exchange c e r);
  cc_get k o n : cow_respects (cb_get k o n);
  cc_put k o : cow_respects (cb_put k o);
  cc_retire c r : cow_respects (cb_retire c r);
}.
Context `{!CowCallsRespect}.

Definition preserves {A : Type} (m : sio (COWChunk * W) A) : Prop := ∀ st, R st.2 (m st).2.2.
Lemma preserves_ret {A : Type} (a : A) : preserves (mret a).
Proof. intros st. reflexivity. Qed.
Lemma preserves_fail {A : Type} e : preserves (s_fail (A := A) e).
Proof. intros st. reflexivity. Qed.
Lemma preserves_lift {A : Type} (r : result A) : preserves (s_lift r).
Proof. intros st. reflexivity. Qed.
Lemma preserves_fail_if b e : preserves (s_fail_if b e).
Proof. destruct b; [apply preserves_fail|apply preserves_ret]. Qed.
Lemma preserves_get : preserves c_get.
Proof. intros st. reflexivity. Qed.
Lemma preserves_modify f : preserves (c_modify f).
Proof. intros st. reflexivity. Qed.
Lemma preserves_deref a : preserves (deref a).
Proof. intros st. reflexivity. Qed.
Lemma preserves_put_data offset data : preserves (put_data fresh_memory offset data).
Proof. intros [s w]. unfold put_data. destruct (write_buf _ _ _). reflexivity. Qed.
Lemma preserves_bind {A B : Type} (m : sio (COWChunk * W) A) (f : A → sio (COWChunk * W) B) : preserves m → (∀ a, preserves (f a)) → preserves (m ≫= f).
Proof.
  intros Hm Hf st. unfold mbind, sio_bind. specialize (Hm st). destruct (m st) as [[a|e] st']; cbn in *; [|done]. etrans; [exact Hm|apply Hf].
Qed.
Lemma preserves_try {A : Type} (m : sio (COWChunk * W) A) : preserves m → preserves (s_try m).
Proof. intros Hm st. specialize (Hm st). unfold s_try. by destruct (m st). Qed.
Lemma preserves_call {A : Type} (f : W → result A * W) : cow_respects f → preserves (cow_call cs fresh_memory f).
Proof. intros Hf [s w]. specialize (Hf w). unfold cow_call. by destruct (f w). Qed.
Lemma preserves_locked {A : Type} (f : W → result A * W) : cow_respects f → preserves (call_locked f).
Proof. intros Hf [s w]. specialize (Hf w). unfold call_locked. by destruct (f w). Qed.

Create HintDb preserves.
#[local] Hint Resolve preserves_ret preserves_fail preserves_lift preserves_fail_if preserves_get preserves_modify preserves_deref preserves_put_data : preserves.
#[local] Hint Resolve cc_snapshot cc_attach cc_finalize cc_allocate_chunk cc_allocate_revision cc_head cc_exchange cc_get cc_put cc_retire : preserves.
Ltac frame := repeat first
  [ progress intros
  | solve [auto with preserves]
  | apply preserves_try
  | apply preserves_call
  | apply preserves_locked
  | apply preserves_bind
  | match goal with |- preserves (match ?x with _ => _ end) => destruct x end
  | match goal with |- cow_respects (match ?x with _ => _ end) => destruct x end ].

Lemma cow_fail_preserves {A : Type} e : preserves (cow_fail (A := A) e).
Proof. unfold cow_fail. frame. Qed.
#[local] Hint Resolve cow_fail_preserves : preserves.
Lemma guard_preserves {A : Type} (m : sio (COWChunk * W) A) : preserves m → preserves (guard m).
Proof. intros Hm. unfold guard. frame. Qed.
Lemma mark_preserves i h : preserves (mark_head_published i h).
Proof. unfold mark_head_published. frame. Qed.
#[local] Hint Resolve mark_preserves : preserves.
Ltac framed := repeat first [progress frame | apply guard_preserves].
Lemma attach_conflict_preserves i e h f o s : preserves (attach_conflict cs fresh_memory i e h f o s).
Proof. unfold attach_conflict. framed. Qed.
#[local] Hint Resolve attach_conflict_preserves : preserves.
Lemma finalize_preserves n s i j e h f : preserves (finalize cs fresh_memory n s i j e h f).
Proof. revert s f. induction n; intros; cbn [finalize]; framed. Qed.
Lemma publish_head_preserves i s h : preserves (publish_head cs fresh_memory i s h).
Proof. unfold publish_head. framed. Qed.
#[local] Hint Resolve finalize_preserves publish_head_preserves : preserves.
Lemma publish_preserves n i s a e f : preserves (publish index cs fresh_memory n i s a e f).
Proof. revert f. induction n; intros; cbn [publish]; framed. Qed.
Lemma check_current_preserves i s f : preserves (check_current cs fresh_memory i s f).
Proof. unfold check_current. framed. Qed.
#[local] Hint Resolve publish_preserves check_current_preserves : preserves.
Lemma COWChunk_Flush_preserves : preserves (COWChunk_Flush index cs fresh_memory).
Proof. unfold COWChunk_Flush, flush_generation, flush_publish, retire_previous. framed. Qed.
Lemma HydrateForWrite_preserves i h : preserves (HydrateForWrite cs fresh_memory i h).
Proof. unfold HydrateForWrite. framed. Qed.
#[local] Hint Resolve HydrateForWrite_preserves : preserves.
Lemma COWChunk_Write_preserves offset data : preserves (COWChunk_Write cs fresh_memory offset data).
Proof. unfold COWChunk_Write, hydrate. framed. Qed.
Lemma read_published_preserves n i offset len : preserves (read_published cs n i offset len).
Proof. induction n; cbn [read_published]; framed. Qed.
#[local] Hint Resolve read_published_preserves : preserves.
Lemma COWChunk_Read_preserves offset len : preserves (COWChunk_Read cs offset len).
Proof. unfold COWChunk_Read. framed. Qed.
End Frame.
