(* ===== verification/FileRw.v ===== *)
(** * The file read/write path

    [FileReadWriter] and [FileChunkManager] (src/src/vfs/FileReadWriter.cpp): one per open
    inode, shared by its handles.  It splits ranges over the chunk sessions of the file,
    keeps the size a reader sees from the persisted size and the accepted writes, and
    coordinates size changes with the metadata engine and the cached sessions.

    The critical sections under [size_mutex_] are functions on [SizeState], so that
    interleavings of the operations that share the operation lock can be stated; the
    operations themselves run on the state of the inode and the world behind the chunk,
    factory and metadata interfaces. *)

From stdpp Require Import gmap.
From S2P Require Import Prelude StdMap ChunkGeometry InodeTypes Acl InodeOps MetaTxn.

(** ** The size state *)
Record SizeState := mkSizeState {
  authoritative_size : option Z; live_size : option Z; size_state_epoch : Z; write_epoch : Z }.
Definition new_size_state : SizeState := mkSizeState None None 0 0.

(** The end of an accepted write. *)
Definition note_write (write_end : Z) (s : SizeState) : SizeState :=
  mkSizeState (authoritative_size s) (Some (Z.max (default 0 (live_size s)) write_end))
    (size_state_epoch s + 1) (write_epoch s + 1).
(** The first size learned from the metadata. *)
Definition adopt_size (size : Z) (s : SizeState) : SizeState :=
  match authoritative_size s with
  | Some _ => s
  | None => mkSizeState (Some size) (live_size s) (size_state_epoch s + 1) (write_epoch s)
  end.
Definition cached_size (s : SizeState) : option Z :=
  authoritative ← authoritative_size s; Some (Z.max authoritative (default 0 (live_size s))).
(** The size of an attribute reply whose metadata were read since [snapshot_epoch]. *)
Definition observe_attr (snapshot_epoch size : Z) (s : SizeState) : Z * SizeState :=
  let '(size, s) :=
    if size_state_epoch s =? snapshot_epoch
    then (size, mkSizeState (Some size) (live_size s) (size_state_epoch s) (write_epoch s))
    else (match authoritative_size s with Some a => Z.max size a | None => size end, s) in
  (match live_size s with Some l => Z.max size l | None => size end, s).
(** A flush that succeeded; the barrier was taken when it began. *)
Definition settle_flush (barrier_epoch : Z) (barrier_live_size : option Z) (s : SizeState) : SizeState :=
  mkSizeState
    (match barrier_live_size with
     | Some l => Some (Z.max (default 0 (authoritative_size s)) l)
     | None => authoritative_size s
     end)
    (if write_epoch s =? barrier_epoch then None else live_size s)
    (match barrier_live_size with Some _ => size_state_epoch s + 1 | None => size_state_epoch s end)
    (write_epoch s).
(** A size change that has been committed. *)
Definition reset_size (size : Z) (s : SizeState) : SizeState :=
  mkSizeState (Some size) None (size_state_epoch s + 1) (write_epoch s).

(** ** The interfaces the path runs on *)
Class FileBackend (C W : Type) := {
  (** [Chunk] *)
  ch_read : Z → Z → C → W → result bytes * W;
  ch_write : Z → bytes → C → W → Status * (C * W);
  ch_flush : C → W → Status * (C * W);
  ch_truncate : Z → C → W → C * W;
  ch_clamp : Z → C → W → C * W;
  ch_pending : C → bool;
  (** [ChunkFactory] *)
  cf_open : Z → bool → W → result (option C) * W;
  cf_sanitize : RetainedChunkBoundary → W → Status * W;
  (** [IMetaEngine], on this inode *)
  me_inode : W → result SwordFsInode * W;
  me_setattr : SwordFsAttr → Z → W → result SwordFsInode * W;
  me_setflags : Z → W → result SwordFsInode * W;
  me_mappings : W → result FileMappingSnapshot * W;
  me_shrink : ChunkSizePlan → SwordFsAttr → Z → W → result ChunkSizeCommitResult * W;
  me_grow : ChunkSizePlan → SwordFsAttr → Z → W → result ChunkSizeCommitResult * W;
}.

(** ** The state of one inode *)
Record FileReadWriter (C : Type) := mkFrw {
  frw_chunks : gmap Z C; frw_size : SizeState; frw_flags : Z; frw_flag_epoch : Z; frw_failed_closed : bool }.
Arguments mkFrw {C} _ _ _ _ _.
Arguments frw_chunks {C} _.
Arguments frw_size {C} _.
Arguments frw_flags {C} _.
Arguments frw_flag_epoch {C} _.
Arguments frw_failed_closed {C} _.
Definition new_frw {C : Type} : FileReadWriter C := mkFrw ∅ new_size_state 0 0 false.
Definition with_chunks {C : Type} (m : gmap Z C) (f : FileReadWriter C) : FileReadWriter C :=
  mkFrw m (frw_size f) (frw_flags f) (frw_flag_epoch f) (frw_failed_closed f).
Definition with_size {C : Type} (s : SizeState) (f : FileReadWriter C) : FileReadWriter C :=
  mkFrw (frw_chunks f) s (frw_flags f) (frw_flag_epoch f) (frw_failed_closed f).
Definition with_flags {C : Type} (flags epoch : Z) (f : FileReadWriter C) : FileReadWriter C :=
  mkFrw (frw_chunks f) (frw_size f) flags epoch (frw_failed_closed f).
Definition fail_closed {C : Type} (f : FileReadWriter C) : FileReadWriter C :=
  mkFrw (frw_chunks f) (frw_size f) (frw_flags f) (frw_flag_epoch f) true.

Definition O_ACCMODE : Z := 3.
Definition O_RDONLY : Z := 0.
Definition O_TRUNC : Z := 512.
Definition O_APPEND : Z := 1024.

Section FileReadWriter.
Context {C W : Type} `{FileBackend C W} (chunk_size now : Z).

Definition fstate : Type := FileReadWriter C * W.
Definition fio (A : Type) : Type := fstate → result A * fstate.
#[global] Instance fio_ret : MRet fio := λ A a st, (Ok a, st).
#[global] Instance fio_bind : MBind fio := λ A B f m st,
  match m st with
  | (Ok a, st) => f a st
  | (Err e, st) => (Err e, st)
  end.
Definition f_fail {A : Type} (s : Status) : fio A := λ st, (Err s, st).
Definition f_lift {A : Type} (r : result A) : fio A := λ st, (r, st).
Definition f_fail_if (b : bool) (s : Status) : fio unit := if b then f_fail s else mret tt.
Definition f_try {A : Type} (m : fio A) : fio (result A) := λ st, let '(r, st) := m st in (Ok r, st).
Definition f_get : fio (FileReadWriter C) := λ st, (Ok st.1, st).
Definition f_modify (f : FileReadWriter C → FileReadWriter C) : fio unit := λ st, (Ok tt, (f st.1, st.2)).
Definition f_size (f : SizeState → SizeState) : fio unit := f_modify (λ s, with_size (f (frw_size s)) s).
Definition f_call {A : Type} (f : W → result A * W) : fio A := λ '(s, w), let '(r, w) := f w in (r, (s, w)).
Definition f_check (s : Status) : fio unit := f_lift (check s).

(** ** [FileChunkManager] *)
Definition chunks_Get (idx : Z) (create_if_missing : bool) : fio (option C) :=
  s ← f_get;
  match frw_chunks s !! idx with
  | Some c => mret (Some c)
  | None =>
      session ← f_call (cf_open idx create_if_missing);
      s ← f_get;
      match frw_chunks s !! idx, session with
      | Some c, _ => mret (Some c)
      | None, Some c => _ ← f_modify (λ s, with_chunks (<[idx := c]> (frw_chunks s)) s); mret (Some c)
      | None, None => mret None
      end
  end.
(** Sessions are shared: an operation on one is seen through the map. *)
Definition on_chunk (idx : Z) (f : C → W → C * W) : fio unit := λ '(s, w),
  match frw_chunks s !! idx with
  | Some c => let '(c, w) := f c w in (Ok tt, (with_chunks (<[idx := c]> (frw_chunks s)) s, w))
  | None => (Ok tt, (s, w))
  end.
Definition GetPendingWrites (s : FileReadWriter C) : list Z :=
  fst <$> filter (λ x : Z * C, ch_pending x.2 = true) (map_to_list (frw_chunks s)).

Definition survives (boundary_idx boundary_size : Z) (x : Z * C) : Prop :=
  ¬ (boundary_idx < x.1 ∨ (x.1 = boundary_idx ∧ boundary_size = 0)).
#[global] Instance survives_dec boundary_idx boundary_size x : Decision (survives boundary_idx boundary_size x).
Proof. unfold survives. apply _. Defined.
(** A [CHECK] aborts the process; [TruncateToSize] is only called with valid sizes. *)
Definition TruncateToSize (size : Z) : fio unit :=
  boundary ← f_lift (CalculateChunkPosition size chunk_size);
  _ ← f_modify (λ s, with_chunks (filter (survives (cp_index boundary) (cp_offset_in_chunk boundary)) (frw_chunks s)) s);
  on_chunk (cp_index boundary) (ch_truncate (cp_offset_in_chunk boundary)).
Definition ClampCachedPublishedPrefix (index visible_prefix : Z) : fio unit := on_chunk index (ch_clamp visible_prefix).

(** ** [FileReadWriter] *)
Definition CheckSizeCommitSafety : fio unit :=
  s ← f_get; f_fail_if (frw_failed_closed s) IOError.

Definition write_chunk (idx offset : Z) (part : bytes) : fio unit := λ '(s, w),
  match frw_chunks s !! idx with
  | Some c => let '(status, (c, w)) := ch_write offset part c w in
              (check status, (with_chunks (<[idx := c]> (frw_chunks s)) s, w))
  | None => (Err Internal, (s, w))
  end.
Fixpoint write_chunks (fuel : nat) (cursor : Z) (rest : bytes) : fio unit :=
  match rest, fuel with
  | [], _ => mret tt
  | _, O => f_fail Internal
  | _, S fuel =>
      position ← f_lift (CalculateChunkPosition cursor chunk_size);
      c ← chunks_Get (cp_index position) true;
      match c with
      | None => f_fail Internal
      | Some _ =>
          let room := chunk_size - cp_offset_in_chunk position in
          let n := Z.min (zlen rest) room in
          _ ← write_chunk (cp_index position) (cp_offset_in_chunk position) (take (Z.to_nat n) rest);
          write_chunks fuel (cursor + n) (drop (Z.to_nat n) rest)
      end
  end.
Definition FileReadWriter_Write (data : bytes) (off open_flags : Z) : fio unit :=
  _ ← CheckSizeCommitSafety;
  s ← f_get;
  _ ← f_fail_if (HasInodeFlag (frw_flags s) kImmutable) NotPermitted;
  _ ← f_fail_if (HasInodeFlag (frw_flags s) kAppendOnly && (Z.land open_flags O_APPEND =? 0)) NotPermitted;
  write_end ← f_lift (CalculateFileRangeEnd off (zlen data));
  _ ← write_chunks (length data) off data;
  if zlen data =? 0 then mret tt else f_size (note_write write_end).

Definition GetVisibleSize : fio Z :=
  s ← f_get;
  match cached_size (frw_size s) with
  | Some size => mret size
  | None =>
      inode ← f_call me_inode;
      _ ← f_size (adopt_size (size (attr inode)));
      s ← f_get;
      mret (default 0 (cached_size (frw_size s)))
  end.
(** Each window of the request: a session's read, or a hole. *)
Fixpoint read_chunks (fuel : nat) (cursor remaining : Z) : fio (list (result bytes)) :=
  match fuel with
  | O => if remaining =? 0 then mret [] else f_fail Internal
  | S fuel =>
      if remaining =? 0 then mret [] else
      position ← f_lift (CalculateChunkPosition cursor chunk_size);
      c ← chunks_Get (cp_index position) false;
      let n := Z.min remaining (chunk_size - cp_offset_in_chunk position) in
      window ← match c with
               | Some c => f_try (f_call (ch_read (cp_offset_in_chunk position) n c))
               | None => mret (Ok (zeros n))
               end;
      others ← read_chunks fuel (cursor + n) (remaining - n);
      mret (window :: others)
  end.
(** [MultiChunkReadWriter::Collect]: the first error, in submission order. *)
Fixpoint Collect (windows : list (result bytes)) : result bytes :=
  match windows with
  | [] => Ok []
  | Err e :: _ => Err e
  | Ok b :: rest => others ← Collect rest; Ok (b ++ others)
  end.
Definition FileReadWriter_Read (n off : Z) : fio bytes :=
  _ ← CheckSizeCommitSafety;
  _ ← f_fail_if (off <? 0) InvalidArgument;
  if n =? 0 then mret [] else
  visible_size ← GetVisibleSize;
  _ ← f_fail_if (visible_size >? kMaxSupportedFileSize) Malformed;
  if off >=? visible_size then mret [] else
  let read_size := Z.min n (visible_size - off) in
  windows ← read_chunks (Z.to_nat read_size) off read_size;
  f_lift (Collect windows).

Definition set_inode_size (n : Z) (inode : SwordFsInode) : SwordFsInode := set_attr (set_size n (attr inode)) inode.
Definition FileReadWriter_GetAttr : fio SwordFsInode :=
  _ ← CheckSizeCommitSafety;
  s ← f_get;
  let snapshot_epoch := size_state_epoch (frw_size s) in
  inode ← f_call me_inode;
  s ← f_get;
  let '(n, sizes) := observe_attr snapshot_epoch (size (attr inode)) (frw_size s) in
  _ ← f_size (λ _, sizes);
  mret (set_inode_size n inode).

Definition InitializeCreatedState (size : Z) : fio unit := f_size (adopt_size size).
Definition SnapshotInodeFlagEpoch : fio Z := s ← f_get; mret (frw_flag_epoch s).
Definition ReconcileOpenState (size inode_flags observed_flag_epoch open_flags : Z) : fio unit :=
  _ ← f_modify (λ s, if frw_flag_epoch s =? observed_flag_epoch then with_flags inode_flags (frw_flag_epoch s) s else s);
  s ← f_get;
  let writable := negb (Z.land open_flags O_ACCMODE =? O_RDONLY) in
  _ ← f_fail_if (HasInodeFlag (frw_flags s) kImmutable && writable) NotPermitted;
  _ ← f_fail_if (HasInodeFlag (frw_flags s) kAppendOnly && writable &&
                 ((Z.land open_flags O_APPEND =? 0) || negb (Z.land open_flags O_TRUNC =? 0))) NotPermitted;
  f_size (adopt_size size).

Definition ApplyLiveSize (inode : SwordFsInode) (s : FileReadWriter C) : SwordFsInode :=
  if frw_failed_closed s then inode else
  match live_size (frw_size s) with
  | Some l => set_inode_size (Z.max (size (attr inode)) l) inode
  | None => inode
  end.
Definition LiveAttrGuard_Apply (inode : SwordFsInode) : fio SwordFsInode := s ← f_get; mret (ApplyLiveSize inode s).

(** *** Flush *)
Definition flush_chunk (idx : Z) : fio Status := λ '(s, w),
  match frw_chunks s !! idx with
  | Some c => let '(status, (c, w)) := ch_flush c w in
              (Ok status, (with_chunks (<[idx := c]> (frw_chunks s)) s, w))
  | None => (Ok OK, (s, w))
  end.
(** Every chunk is attempted once; the batches only bound how many run at a time. *)
Fixpoint flush_chunks (flushable : list Z) (first_error : Status) : fio Status :=
  match flushable with
  | [] => mret first_error
  | idx :: rest =>
      status ← flush_chunk idx;
      flush_chunks rest (if ok first_error then status else first_error)
  end.
Definition FlushPendingWritesLocked : fio unit :=
  _ ← CheckSizeCommitSafety;
  s ← f_get;
  let barrier_epoch := write_epoch (frw_size s) in
  let barrier_live_size := live_size (frw_size s) in
  first_error ← flush_chunks (GetPendingWrites s) OK;
  _ ← (if ok first_error then f_size (settle_flush barrier_epoch barrier_live_size) else mret tt);
  f_check first_error.
Definition FileReadWriter_Flush : fio unit := FlushPendingWritesLocked.

Definition FileReadWriter_SetInodeFlags (inode_flags : Z) : fio SwordFsInode :=
  _ ← f_fail_if (negb (HasOnlySupportedInodeFlags inode_flags)) InvalidArgument;
  _ ← CheckSizeCommitSafety;
  s ← f_get;
  _ ← (if negb (inode_flags =? frw_flags s) && negb (inode_flags =? 0) then FlushPendingWritesLocked else mret tt);
  inode ← f_call (me_setflags inode_flags);
  _ ← f_modify (λ s, with_flags inode_flags (frw_flag_epoch s + 1) s);
  s ← f_get;
  mret (ApplyLiveSize inode s).
(** *** Size changes *)
Definition sanitize_boundary (boundary : RetainedChunkBoundary) : fio Status :=
  f_call (λ w, let '(status, w) := cf_sanitize boundary w in (Ok status, w)).
(** Sanitize the boundary and tell the cached session. *)
Definition sanitize_and_clamp (boundary : option RetainedChunkBoundary) : fio unit :=
  match boundary with
  | None => mret tt
  | Some b =>
      status ← sanitize_boundary b;
      _ ← f_check status;
      ClampCachedPublishedPrefix (rcb_index b) (rcb_visible_prefix b)
  end.
(** The boundary of a truncation to the persisted size, which may have been left unsanitized. *)
Definition sanitize_unchanged (requested_size : Z) (mappings : list ChunkMapping) : fio unit :=
  let visible_prefix := requested_size mod chunk_size in
  if visible_prefix =? 0 then mret tt else
  let index := requested_size / chunk_size in
  match List.find (λ m, cm_index m =? index) mappings with
  | None => mret tt
  | Some it =>
      sanitize_and_clamp (Some (mkRetainedChunkBoundary index (cm_chunk_id it) visible_prefix))
  end.
Definition apply_size (size : Z) : fio unit :=
  _ ← TruncateToSize size;
  f_size (reset_size size).

Definition same_mappings (expected observed : list ChunkMapping) : bool :=
  bool_decide (((λ m, (cm_index m, cm_chunk_id m)) <$> expected) = ((λ m, (cm_index m, cm_chunk_id m)) <$> observed)).
(** What the metadata show after a commit whose outcome is unknown. *)
Inductive readback := rb_unchanged | rb_committed | rb_partial.
Definition classify (before observed : FileMappingSnapshot) (layout : ChunkSizeLayout) (target : Z) : readback :=
  let expected := List.filter (λ m, negb (ShouldDetach layout (cm_index m))) (fms_mappings before) in
  if (size (attr (fms_inode observed)) =? target) && same_mappings expected (fms_mappings observed) then rb_committed
  else if (size (attr (fms_inode observed)) =? size (attr (fms_inode before))) && same_mappings (fms_mappings before) (fms_mappings observed)
  then rb_unchanged else rb_partial.

(** After a commit that may have happened. *)
Definition reconcile (before : FileMappingSnapshot) (plan : ChunkSizePlan) (shrinking : bool) : fio unit :=
  r ← f_try (f_call me_mappings);
  match r with
  | Err _ => f_modify fail_closed
  | Ok observed =>
      match PlanChunkSizeLayout (if shrinking then target_eof plan else size (attr (fms_inode before))) chunk_size with
      | Err _ => f_modify fail_closed
      | Ok layout =>
          match classify before observed layout (target_eof plan) with
          | rb_partial => f_modify fail_closed
          | rb_unchanged => mret tt
          | rb_committed =>
              _ ← apply_size (size (attr (fms_inode observed)));
              match plan_boundary plan with
              | Some boundary =>
                  if shrinking && existsb (λ m, (cm_index m =? rcb_index boundary) && (cm_chunk_id m =? rcb_chunk_id boundary)) (fms_mappings observed)
                  then status ← sanitize_boundary boundary;
                       if ok status then ClampCachedPublishedPrefix (rcb_index boundary) (rcb_visible_prefix boundary)
                       else _ ← f_modify fail_closed; f_fail status
                  else mret tt
              | None => mret tt
              end
          end
      end
  end.

Definition change_size (before : FileMappingSnapshot) (requested : SwordFsAttr) (fields : Z) : fio SwordFsInode :=
  let old_size := size (attr (fms_inode before)) in
  plan ← f_lift (PlanChunkSizeChange old_size (size requested) chunk_size (fms_mappings before));
  let shrinking := size requested <? old_size in
  _ ← (if shrinking then mret tt else sanitize_and_clamp (plan_boundary plan));
  r ← f_try (f_call (if shrinking then me_shrink plan requested fields else me_grow plan requested fields));
  match r with
  | Err status =>
      _ ← (if IsOutcomeUnknown status || (ToErrno status =? EIO) then reconcile before plan shrinking else mret tt);
      f_fail status
  | Ok committed =>
      _ ← (if shrinking then
             match plan_boundary plan with
             | None => mret tt
             | Some boundary => _ ← apply_size (size (attr (csr_inode committed))); sanitize_and_clamp (Some boundary)
             end
           else mret tt);
      mret (csr_inode committed)
  end.
Definition keep_size (before : FileMappingSnapshot) (requested : SwordFsAttr) (fields : Z) : fio SwordFsInode :=
  let metadata_fields := Z.land fields (Z.lnot kSize) in
  let metadata_fields := if HasSetAttrField fields kMtime || HasSetAttrField fields kMtimeNow then metadata_fields
                         else Z.lor metadata_fields kMtimeNow in
  inode ← f_call (me_setattr requested metadata_fields);
  _ ← sanitize_unchanged (size requested) (fms_mappings before);
  mret inode.
Definition CommitSizeChangeLocked (requested : SwordFsAttr) (fields : Z) : fio SwordFsInode :=
  _ ← CheckSizeCommitSafety;
  before ← f_call me_mappings;
  _ ← f_lift (PrepareSetAttrMutation now (fms_inode before) requested fields);
  inode ← (if size requested =? size (attr (fms_inode before)) then keep_size before requested fields
           else change_size before requested fields);
  _ ← apply_size (size requested);
  mret inode.

Definition empty_attr : SwordFsAttr := mkAttr 0 0 0 0 0 0 0 0 0 0 0 0 0 0 0 0 0 0 0.
Definition FileReadWriter_Truncate (n : Z) : fio unit :=
  _ ← f_fail_if (n >? kMaxSupportedFileSize) InvalidArgument;
  _ ← CommitSizeChangeLocked (set_size n empty_attr) kSize;
  mret tt.
Definition FileReadWriter_SetAttr (requested : SwordFsAttr) (fields : Z) : fio SwordFsInode :=
  _ ← CheckSizeCommitSafety;
  _ ← f_fail_if (HasSetAttrField fields kSize && (size requested >? kMaxSupportedFileSize)) InvalidArgument;
  if HasSetAttrField fields kSize then CommitSizeChangeLocked requested fields else
  inode ← f_call (me_setattr requested fields);
  s ← f_get;
  mret (ApplyLiveSize inode s).

End FileReadWriter.
