(* ===== verification/FileSize.v ===== *)
(** * The size of an open file

    Writes, reads, attribute requests and one flush share the operation lock of a
    [FileReadWriter] and interleave at its size critical sections and metadata calls.  The
    step relation below takes one critical section, or one call, at a time.  The theorem: no
    reply is ever smaller than a write that has been accepted, although requests use metadata
    that were read earlier and a flush forgets the live size. *)

From S2P Require Import Prelude StdMap ChunkGeometry InodeTypes Acl InodeOps MetaTxn FileRw.

(** A request between its critical sections: the epoch it began in, and the size it fetched. *)
Inductive request :=
  | GetAttrWaits (epoch : Z) (fetched : option Z)
  | GetSizeWaits (fetched : option Z).

(** [persisted] is the size in the metadata, [accepted] the highest end of an accepted write,
    [flushing] the barrier of the flush in flight. *)
Record shared := mkShared {
  sh_size : SizeState; persisted : Z; accepted : Z; flushing : option (Z * option Z); requests : list request }.

Definition fetch_size (n : Z) (r : request) : request :=
  match r with GetAttrWaits e _ => GetAttrWaits e (Some n) | GetSizeWaits _ => GetSizeWaits (Some n) end.

(** [Some n] is a reply of size [n]. *)
Inductive step : shared → option Z → shared → Prop :=
  | step_write s p a fl rs (n : Z) :
      0 ≤ n → step (mkShared s p a fl rs) None (mkShared (note_write n s) p (Z.max a n) fl rs)
  | step_flush s p a rs :
      step (mkShared s p a None rs) None (mkShared s p a (Some (write_epoch s, live_size s)) rs)
  | step_publish s p a fl rs (p' : Z) :
      p ≤ p' → step (mkShared s p a fl rs) None (mkShared s p' a fl rs)
  | step_flushed s p a e l rs :
      default 0 l ≤ p → step (mkShared s p a (Some (e, l)) rs) None (mkShared (settle_flush e l s) p a None rs)
  | step_flush_failed s p a e l rs :
      step (mkShared s p a (Some (e, l)) rs) None (mkShared s p a None rs)
  | step_open s p a fl rs (n : Z) :
      0 ≤ n ≤ p → step (mkShared s p a fl rs) None (mkShared (adopt_size n s) p a fl rs)
  | step_getattr s p a fl rs :
      step (mkShared s p a fl rs) None (mkShared s p a fl (GetAttrWaits (size_state_epoch s) None :: rs))
  | step_getsize s p a fl rs :
      authoritative_size s = None → step (mkShared s p a fl rs) None (mkShared s p a fl (GetSizeWaits None :: rs))
  | step_fetch s p a fl rs1 r rs2 :
      step (mkShared s p a fl (rs1 ++ r :: rs2)) None (mkShared s p a fl (rs1 ++ fetch_size p r :: rs2))
  | step_getattr_reply s p a fl rs1 e n rs2 :
      step (mkShared s p a fl (rs1 ++ GetAttrWaits e (Some n) :: rs2)) (Some (observe_attr e n s).1)
           (mkShared (observe_attr e n s).2 p a fl (rs1 ++ rs2))
  | step_getsize_reply s p a fl rs1 n rs2 :
      step (mkShared s p a fl (rs1 ++ GetSizeWaits (Some n) :: rs2)) (cached_size (adopt_size n s))
           (mkShared (adopt_size n s) p a fl (rs1 ++ rs2))
  | step_cached s p a fl rs n :
      cached_size s = Some n → step (mkShared s p a fl rs) (Some n) (mkShared s p a fl rs)
  | step_truncate s p a (n : Z) :
      0 ≤ n → step (mkShared s p a None []) None (mkShared (reset_size n s) n n None []).
Inductive reaches : shared → Prop :=
  | reaches_new (p : Z) : 0 ≤ p → reaches (mkShared new_size_state p 0 None [])
  | reaches_step m o m' : reaches m → step m o m' → reaches m'.

(** [F] bounds the accepted writes that a flush has published. *)
Definition request_ok (F p epoch : Z) (r : request) : Prop :=
  match r with
  | GetAttrWaits e fetched => e ≤ epoch ∧ (∀ n, fetched = Some n → 0 ≤ n ≤ p ∧ (e = epoch → F ≤ n))
  | GetSizeWaits fetched => ∀ n, fetched = Some n → 0 ≤ n ≤ p
  end.
Record size_ok (F : Z) (m : shared) : Prop := {
  so_flushed : 0 ≤ F ≤ persisted m;
  so_known : F ≤ default 0 (authoritative_size (sh_size m));
  so_live : 0 ≤ default 0 (live_size (sh_size m)) ≤ accepted m;
  so_accepted : accepted m ≤ Z.max (default 0 (live_size (sh_size m))) F;
  so_bound : default 0 (authoritative_size (sh_size m)) ≤ Z.max (persisted m) (accepted m);
  so_barrier : ∀ e l, flushing m = Some (e, l) → e ≤ write_epoch (sh_size m) ∧ 0 ≤ default 0 l ≤ accepted m ∧
    (e = write_epoch (sh_size m) → live_size (sh_size m) = l);
  so_requests : Forall (request_ok F (persisted m) (size_state_epoch (sh_size m))) (requests m);
}.

Lemma request_later F F' p p' e e' r :
  request_ok F p e r → p ≤ p' → e ≤ e' → (e = e' → F' ≤ F) → request_ok F' p' e' r.
Proof.
  destruct r as [e0 [n|]|[n|]]; cbn; intros Hr Hp He HF; [|split; [lia|done]| |done].
  - destruct Hr as [? Hr]. destruct (Hr n eq_refl) as [? Hm]. split; [lia|]. intros ? [= <-]. split; [lia|]. intros ->.
    assert (e = e') by lia. subst. specialize (HF eq_refl). specialize (Hm eq_refl). lia.
  - intros ? [= <-]. specialize (Hr n eq_refl). lia.
Qed.
Lemma requests_later F F' p p' e e' rs :
  Forall (request_ok F p e) rs → p ≤ p' → e ≤ e' → (e = e' → F' ≤ F) → Forall (request_ok F' p' e') rs.
Proof. intros Hrs ? ? ?. eapply Forall_impl; [exact Hrs|]. intros r Hr. by eapply request_later. Qed.

Lemma observe_attr_spec e n s :
  let '(out, s') := observe_attr e n s in
  size_state_epoch s' = size_state_epoch s ∧ write_epoch s' = write_epoch s ∧ live_size s' = live_size s ∧
  authoritative_size s' = (if size_state_epoch s =? e then Some n else authoritative_size s) ∧
  (0 ≤ n → 0 ≤ default 0 (live_size s) → out = Z.max (if size_state_epoch s =? e then n else Z.max n (default n (authoritative_size s))) (default 0 (live_size s))).
Proof.
  unfold observe_attr. destruct (_ =? _); destruct s as [[a|] [l|] ? ?]; cbn; split_and!; done || lia.
Qed.

(** Every reply lies between the accepted writes and what is persisted or accepted. *)
Definition reply_ok (m : shared) (o : option Z) : Prop :=
  ∀ n, o = Some n → accepted m ≤ n ≤ Z.max (persisted m) (accepted m).
Ltac open_size H :=
  destruct H as [Hf Hk Hl Ha Hb Hbar Hrs]; cbn [sh_size persisted accepted flushing requests] in *.

Lemma adopt_ok F s p a fl rs n :
  size_ok F (mkShared s p a fl rs) → 0 ≤ n ≤ p →
  size_ok F (mkShared (adopt_size n s) p a fl rs) ∧ reply_ok (mkShared s p a fl rs) (cached_size (adopt_size n s)).
Proof.
  intros Hok Hn. unfold adopt_size, cached_size. destruct (authoritative_size s) as [x|] eqn:E.
  - split; [done|]. open_size Hok. rewrite E in *. intros ? [= <-]. cbn in *. lia.
  - open_size Hok. rewrite E in *. cbn in *. split; [|intros ? [= <-]; cbn; lia].
    split; cbn; try done; try lia. eapply requests_later; [done|lia|lia|lia].
Qed.
Lemma step_size_ok F m o m' : size_ok F m → step m o m' → (∃ F', size_ok F' m') ∧ reply_ok m o.
Proof.
  intros Hok Hst. destruct Hst as [s p a fl rs n Hn|s p a rs|s p a fl rs p' Hp|s p a e l rs Hl'|s p a e l rs|s p a fl rs n Hn|s p a fl rs
    |s p a fl rs Hnone|s p a fl rs1 r rs2|s p a fl rs1 e n rs2|s p a fl rs1 n rs2|s p a fl rs n Hc|s p a n Hn].
  6: { split; [|done]. exists F. by apply adopt_ok. }
  all: pose proof Hok as Hok0; open_size Hok; try (split; [|done]).
  - exists F. split; cbn; try lia; [|eapply requests_later; [done|lia|lia|lia]]. intros e l Hfl. destruct (Hbar e l Hfl) as (? & ? & _). split_and!; lia.
  - exists F. split; cbn; try done; try lia. intros e l [= <- <-]. split_and!; try lia. done.
  - exists F. split; cbn; try done; try lia. eapply requests_later; [done|lia|lia|lia].
  - destruct (Hbar e l eq_refl) as (? & ? & Hsame). exists (Z.max F (default 0 l)). unfold settle_flush. split; cbn [sh_size persisted accepted flushing requests authoritative_size live_size size_state_epoch write_epoch]; try lia; try done.
    + destruct l as [l|]; cbn in *; lia.
    + destruct (_ =? _); cbn; lia.
    + destruct (Z.eqb_spec (write_epoch s) e) as [Ew|]; [|lia]. rewrite (Hsame (eq_sym Ew)) in Ha. cbn in *. lia.
    + destruct l as [l|]; cbn in *; lia.
    + destruct l as [l|]; (eapply requests_later; [done|lia|lia|cbn; lia]).
  - exists F. by split.
  - exists F. split; try done. constructor; [|done]. cbn. split; [lia|done].
  - exists F. split; try done. constructor; [|done]. cbn. done.
  - exists F. split; try done. apply Forall_app in Hrs as [Hr1 Hr2]. apply Forall_cons in Hr2 as [Hr Hr2]. cbn. apply Forall_app. split; [done|].
    constructor; [|done]. destruct r as [e x|x]; cbn in *; [destruct Hr as [? _]; split; [done|]|]; intros ? [= <-]; lia.
  - apply Forall_app in Hrs as [Hr1 Hr2]. apply Forall_cons in Hr2 as [[He Hr] Hr2]. destruct (Hr n eq_refl) as [Hn HF].
    pose proof (observe_attr_spec e n s) as Ho. destruct (observe_attr e n s) as [out s']. destruct Ho as (E1 & E2 & E3 & E4 & Hout). cbn [fst snd].
    specialize (Hout ltac:(lia) ltac:(lia)). split.
    + exists F. split; cbn; rewrite ?E1, ?E2, ?E3; try done; try lia; [| |by apply Forall_app].
      * rewrite E4. destruct (Z.eqb_spec (size_state_epoch s) e); cbn; [apply HF; lia|lia].
      * rewrite E4. destruct (Z.eqb_spec (size_state_epoch s) e); cbn; lia.
    + intros ? [= <-]. cbn. rewrite Hout. destruct (Z.eqb_spec (size_state_epoch s) e) as [Ee|]; [specialize (HF (eq_sym Ee)); lia|].
      destruct (authoritative_size s) as [x|]; cbn in *; lia.
  - apply Forall_app in Hrs as [Hr1 Hr2]. apply Forall_cons in Hr2 as [Hr Hr2]. specialize (Hr n eq_refl). cbn in Hr.
    assert (size_ok F (mkShared s p a fl (rs1 ++ rs2))) as Hok1 by (split; try done; by apply Forall_app).
    destruct (adopt_ok F s p a fl _ n Hok1 Hr). split; [by exists F|done].
  - split; [by exists F|]. intros ? [= <-]. unfold cached_size in Hc. destruct (authoritative_size s) as [x|] eqn:E; [|done]. injection Hc as <-. cbn in *. lia.
  - exists n. split; cbn; done || lia.
Qed.
Lemma reaches_size_ok m : reaches m → ∃ F, size_ok F m.
Proof.
  induction 1 as [p Hp|m o m' _ [F HF] Hst]; [exists 0; split; cbn; done || lia|]. by destruct (step_size_ok F m o m' HF Hst).
Qed.

(** C28: However attribute requests, size look-ups, writes, publications and a flush interleave,
    with truncations in between, every size a request is answered with covers every write
    accepted so far, although the request may use metadata read before the flush that
    published it, and never exceeds what is persisted or accepted. *)
Theorem size_replies_cover_writes m o m' n :
  reaches m → step m o m' → o = Some n → accepted m ≤ n ≤ Z.max (persisted m) (accepted m).
Proof. intros [F HF]%reaches_size_ok Hst Ho. destruct (step_size_ok F m o m' HF Hst) as [_ Hr]. by apply Hr. Qed.

(** An attribute request fetches the old size, a write is accepted and flushed, then it replies. *)
Lemma size_replies_cover_writes_witness :
  ∃ m m', reaches m ∧ accepted m = 9 ∧ step m (Some 9) m' ∧ accepted m ≤ 9 ≤ Z.max (persisted m) (accepted m).
Proof.
  set (s0 := adopt_size 4 new_size_state). set (s1 := note_write 9 s0). set (s2 := settle_flush 1 (Some 9) s1).
  set (m := mkShared s2 9 9 None ([] ++ GetAttrWaits 1 (Some 4) :: [])).
  assert (reaches m) as Hm.
  { eapply reaches_step; [|apply (step_flushed s1 9 9 1 (Some 9)); done]. eapply reaches_step; [|apply (step_publish s1 4 9 (Some (1, Some 9)) _ 9); done].
    eapply reaches_step; [|apply (step_flush s1 4 9)]. eapply reaches_step; [|apply (step_write s0 4 0 None _ 9); done].
    eapply reaches_step; [|apply (step_fetch s0 4 0 None [] (GetAttrWaits 1 None) [])]. eapply reaches_step; [|apply (step_getattr s0 4 0 None [])].
    eapply reaches_step; [|apply (step_open new_size_state 4 0 None [] 4); done]. by apply reaches_new. }
  assert (step m (Some 9) (mkShared s2 9 9 None ([] ++ []))) as Hst by exact (step_getattr_reply s2 9 9 None [] 1 4 []).
  exists m, (mkShared s2 9 9 None []). split; [exact Hm|]. split; [done|]. split; [exact Hst|].
  exact (size_replies_cover_writes m (Some 9) _ 9 Hm Hst eq_refl).
Defined.
