(* ===== verification/FileData.v ===== *)
(** * The bytes of an open file

    What [FileReadWriter] relies on of its chunk sessions, as laws, and what its reads, writes
    and flushes then do to the bytes of the file: the file is one byte map although it is
    split over sessions that are opened on demand. *)

From stdpp Require Import gmap.
From S2P Require Import Prelude StdMap ChunkGeometry InodeTypes Acl InodeOps MetaTxn FileRw.

(** ** What a session promises *)
(** [cbyte i c w k] is what session [c] of chunk [i] shows at [k], [sbyte w i k] what a session
    opened now would show; [c_ok] and [o_ok] say that a session, or a chunk without one, is in order. *)
Class FileView (C W : Type) := {
  cbyte : Z → C → W → Z → ascii;
  sbyte : W → Z → Z → ascii;
  c_ok : Z → C → W → Prop;
  o_ok : Z → W → Prop;
}.

Section Laws.
Context {C W : Type} `{FileBackend C W} `{FileView C W} (cs : Z).

Definition chunk_index (i : Z) : Prop := 0 ≤ i ∧ i * cs ≤ kMaxSupportedFileSize.

(** Nothing changes for the chunks in [P]. *)
Definition calm_on (P : Z → Prop) (w w' : W) : Prop :=
  ∀ i, P i → (o_ok i w → o_ok i w') ∧ (∀ k, 0 ≤ k < cs → o_ok i w → sbyte w' i k = sbyte w i k) ∧
  ∀ c, c_ok i c w → c_ok i c w' ∧ ∀ k, 0 ≤ k < cs → cbyte i c w' k = cbyte i c w k.
Definition calm : W → W → Prop := calm_on (λ _, True).

Class FileLaws : Prop := {
  law_write i c w offset data status c' w' :
    chunk_index i → c_ok i c w → 0 ≤ offset → 0 < zlen data → offset + zlen data ≤ cs → ch_write offset data c w = (status, (c', w')) →
    calm w w' ∧ c_ok i c' w' ∧ ∀ k, 0 ≤ k < cs → cbyte i c' w' k =
      if ok status && (offset <=? k) && (k <? offset + zlen data) then default Ascii.zero (byte_at data (k - offset)) else cbyte i c w k;
  law_read i c w offset len r w' :
    chunk_index i → c_ok i c w → 0 ≤ offset → 0 < len → offset + len ≤ cs → ch_read offset len c w = (r, w') →
    calm w w' ∧ ∀ out, r = Ok out → zlen out = len ∧ ∀ k, 0 ≤ k < len → byte_at out k = Some (cbyte i c w (offset + k));
  law_open i create w r w' :
    chunk_index i → o_ok i w → cf_open i create w = (r, w') →
    calm w w' ∧ match r with
      | Ok (Some c) => c_ok i c w' ∧ ∀ k, 0 ≤ k < cs → cbyte i c w' k = sbyte w i k
      | Ok None => create = false ∧ ∀ k, 0 ≤ k < cs → sbyte w i k = Ascii.zero
      | Err _ => True
      end;
  law_flush i c w status c' w' :
    chunk_index i → c_ok i c w → ch_flush c w = (status, (c', w')) →
    calm_on (λ j, j ≠ i) w w' ∧ c_ok i c' w' ∧ (∀ k, 0 ≤ k < cs → cbyte i c' w' k = cbyte i c w k) ∧
    (status = OK → o_ok i w' ∧ ∀ k, 0 ≤ k < cs → sbyte w' i k = cbyte i c w k);
  law_pending i c w :
    chunk_index i → c_ok i c w → ch_pending c = false → o_ok i w ∧ ∀ k, 0 ≤ k < cs → sbyte w i k = cbyte i c w k;
  law_inode w r w' : me_inode w = (r, w') → calm w w';
}.

#[export] Instance calm_on_preorder P : PreOrder (calm_on P).
Proof.
  split; [by intros w i _; split_and!|]. intros w1 w2 w3 H12 H23 i Hi. destruct (H12 i Hi) as (A1 & B1 & D1), (H23 i Hi) as (A2 & B2 & D2).
  split_and!; [auto| |].
  - intros k Hk Ho. rewrite B2, B1; auto.
  - intros c Hc. destruct (D1 c Hc) as [Hc' E1]. destruct (D2 c Hc') as [? E2]. split; [done|]. intros k Hk. by rewrite E2, E1.
Qed.

(** ** The bytes of the file *)
Definition frw_ok (f : FileReadWriter C) (w : W) : Prop :=
  ∀ i, match frw_chunks f !! i with Some c => chunk_index i ∧ c_ok i c w | None => chunk_index i → o_ok i w end.
Lemma frw_at f w i : frw_ok f w → chunk_index i → match frw_chunks f !! i with Some c => c_ok i c w | None => o_ok i w end.
Proof. intros Hok Hi. specialize (Hok i). destruct (frw_chunks f !! i); [by destruct Hok|by apply Hok]. Qed.
Definition chunk_byte (f : FileReadWriter C) (w : W) (i k : Z) : ascii :=
  match frw_chunks f !! i with Some c => cbyte i c w k | None => sbyte w i k end.
Definition fbyte (f : FileReadWriter C) (w : W) (k : Z) : ascii := chunk_byte f w (k / cs) (k mod cs).
(** What a file opened now would show. *)
Definition dbyte (w : W) (k : Z) : ascii := sbyte w (k / cs) (k mod cs).

(** Only bytes in [P] change, and the size state does not. *)
Definition only_in (P : Z → Z → Prop) (st st' : FileReadWriter C * W) : Prop :=
  frw_ok st'.1 st'.2 ∧ with_chunks ∅ st'.1 = with_chunks ∅ st.1 ∧
  ∀ i k, chunk_index i → 0 ≤ k < cs → ¬ P i k → chunk_byte st'.1 st'.2 i k = chunk_byte st.1 st.2 i k.
Lemma calm_only f w w' : frw_ok f w → calm w w' → only_in (λ _ _, False) (f, w) (f, w').
Proof.
  intros Hok Hc. split_and!; [|done|]; cbn.
  - intros i. specialize (Hok i). destruct (Hc i I) as (A & B & D). destruct (frw_chunks f !! i); [destruct Hok; split; [done|by apply D]|auto].
  - intros i k Hi Hk _. pose proof (frw_at f w i Hok Hi) as Hoi. destruct (Hc i I) as (A & B & D). unfold chunk_byte.
    destruct (frw_chunks f !! i); [by apply D|by apply B].
Qed.
(** ** Running the path *)
Definition fwp {A : Type} (m : fio A) (Q : result A → FileReadWriter C * W → Prop) (st : FileReadWriter C * W) : Prop :=
  let '(r, st') := m st in Q r st'.
Lemma fwp_bind {A B : Type} (m : fio A) (f : A → fio B) Q st :
  fwp m (λ r st', match r with Ok a => fwp (f a) Q st' | Err e => Q (Err e) st' end) st → fwp (m ≫= f) Q st.
Proof. unfold fwp, mbind, fio_bind. by destruct (m st) as [[a|e] st']. Qed.
Lemma fwp_mono {A : Type} (m : fio A) (Q Q' : result A → FileReadWriter C * W → Prop) st :
  (∀ r st', Q r st' → Q' r st') → fwp m Q st → fwp m Q' st.
Proof. unfold fwp. intros HQ. destruct (m st). apply HQ. Qed.
Lemma fwp_fail_if b s (Q : result unit → FileReadWriter C * W → Prop) st :
  (b = true → Q (Err s) st) → (b = false → Q (Ok tt) st) → fwp (f_fail_if b s) Q st.
Proof. unfold fwp. intros. destruct b; cbn; auto. Qed.

Lemma only_trans P Q R st1 st2 st3 :
  only_in P st1 st2 → only_in Q st2 st3 → (∀ i k, P i k ∨ Q i k → R i k) → only_in R st1 st3.
Proof.
  intros (A1 & B1 & D1) (A2 & B2 & D2) HR. split_and!; [done|congruence|]. intros i k Hi Hk HnR. rewrite D2, D1; try done; intros ?; apply HnR, HR; auto.
Qed.
Lemma only_refl P f w : frw_ok f w → only_in P (f, w) (f, w).
Proof. intros Hok. unfold only_in. by split_and!. Qed.

Context `{!FileLaws}.
Hypothesis Hcs : 0 < cs ≤ UINT32_MAX.

Lemma position_of k :
  0 ≤ k ≤ kMaxSupportedFileSize → CalculateChunkPosition k cs = Ok (mkChunkPosition (k / cs) (k / cs * cs) (k mod cs)) ∧ chunk_index (k / cs).
Proof.
  intros Hk. unfold CalculateChunkPosition, chunk_index. rewrite (proj2 (Z.ltb_ge k 0)), (proj2 (Z.eqb_neq cs 0)) by lia. cbn [orb].
  pose proof (Z.div_mod k cs ltac:(lia)). pose proof (Z.mod_pos_bound k cs ltac:(lia)). assert (0 ≤ k / cs) by (apply Z.div_pos; lia).
  unfold kMaxSupportedFileSize, INT64_MAX in *. rewrite !u64_id by lia. split; [do 2 f_equal; lia|]. split; [done|]. unfold INT64_MAX. lia.
Qed.

Lemma chunks_Get_spec f w i create :
  frw_ok f w → chunk_index i →
  fwp (chunks_Get i create) (λ r st, only_in (λ _ _, False) (f, w) st ∧ match r with
    | Ok (Some c) => frw_chunks st.1 !! i = Some c
    | Ok None => create = false ∧ ∀ k, 0 ≤ k < cs → chunk_byte st.1 st.2 i k = Ascii.zero
    | Err _ => True
    end) (f, w).
Proof.
  intros Hok Hi. unfold chunks_Get, fwp, mbind, fio_bind, f_get, f_call. cbn [fst snd]. pose proof (frw_at f w i Hok Hi) as Hoi.
  destruct (frw_chunks f !! i) as [c|] eqn:E; [cbn; split; [by apply only_refl|done]|].
  destruct (cf_open i create w) as [r w'] eqn:Eo. destruct (law_open i create w r w' Hi Hoi Eo) as [Hcalm Hr].
  pose proof (calm_only f w w' Hok Hcalm) as Honly. destruct r as [[c|]|e]; cbn [fst snd]; rewrite ?E; cbn [fst snd frw_chunks with_chunks f_modify mret fio_ret].
  - destruct Hr as [Hc Hb]. split; [|by rewrite lookup_insert_eq]. destruct Honly as (A & _ & D). split_and!; [|done|]; cbn [fst snd frw_chunks with_chunks] in *.
    + intros j. cbn [frw_chunks with_chunks]. destruct (decide (j = i)) as [->|Hne]; [by rewrite lookup_insert_eq|]. rewrite lookup_insert_ne by done. by apply A.
    + intros j k Hj Hk Hn. unfold chunk_byte in *. cbn [frw_chunks with_chunks]. destruct (decide (j = i)) as [->|Hne]; [rewrite lookup_insert_eq, E; by apply Hb|].
      rewrite lookup_insert_ne by done. by apply D.
  - split; [done|]. destruct Hr as [-> Hz]. split; [done|]. intros k Hk. destruct Honly as (_ & _ & D). cbn [fst snd] in D |- *. rewrite D by (done || by intros []). unfold chunk_byte. rewrite E. by apply Hz.
  - done.
Qed.

(** The file range [from, from + len), chunk by chunk. *)
Definition in_span (from len : Z) (i k : Z) : Prop := from ≤ i * cs + k < from + len.
Lemma span_here k i p : 0 ≤ p < cs → i * cs + p = k → i = k / cs ∧ p = k mod cs.
Proof. intros Hp <-. rewrite Z.add_comm, Z.div_add, Z.mod_add, Z.div_small, Z.mod_small by lia. lia. Qed.

Lemma write_chunk_spec f w i c offset part :
  frw_ok f w → chunk_index i → frw_chunks f !! i = Some c → 0 ≤ offset → 0 < zlen part → offset + zlen part ≤ cs →
  fwp (write_chunk i offset part) (λ r st,
    only_in (λ j k, j = i ∧ offset ≤ k < offset + zlen part) (f, w) st ∧
    (r = Ok tt → ∀ k, offset ≤ k < offset + zlen part → chunk_byte st.1 st.2 i k = default Ascii.zero (byte_at part (k - offset)))) (f, w).
Proof.
  intros Hok Hi Hc Ho Hp Hin. pose proof (frw_at f w i Hok Hi) as Hci. rewrite Hc in Hci. unfold fwp, write_chunk. rewrite Hc.
  destruct (ch_write offset part c w) as [status [c' w']] eqn:Ew. destruct (law_write i c w offset part status c' w' Hi Hci Ho Hp Hin Ew) as (Hcalm & Hc' & Hb).
  pose proof (calm_only f w w' Hok Hcalm) as (Hok' & _ & Hsame). cbn [fst snd] in Hok', Hsame.
  assert (∀ k, 0 ≤ k < cs → chunk_byte (with_chunks (<[i:=c']> (frw_chunks f)) f) w' i k = cbyte i c' w' k) as Hat
    by (intros k _; unfold chunk_byte; cbn [frw_chunks with_chunks]; by rewrite lookup_insert_eq).
  split; [split_and!; [|done|]|].
  - intros j. cbn [fst snd frw_chunks with_chunks]. destruct (decide (j = i)) as [->|Hne]; [by rewrite lookup_insert_eq|].
    rewrite lookup_insert_ne by done. by apply Hok'.
  - intros j k Hj Hk Hn. cbn [fst snd]. destruct (decide (j = i)) as [->|Hne].
    + rewrite Hat, Hb by done. destruct (ok status), (Z.leb_spec offset k), (Z.ltb_spec k (offset + zlen part)); cbn [andb]; try (unfold chunk_byte; by rewrite Hc).
      destruct Hn. split; [done|lia].
    + rewrite <- (Hsame j k Hj Hk ltac:(by intros [])). unfold chunk_byte. cbn [frw_chunks with_chunks]. by rewrite lookup_insert_ne.
  - intros Er k Hk. cbn [fst snd]. rewrite Hat, Hb by lia. assert (ok status = true) as -> by (by destruct status).
    rewrite (proj2 (Z.leb_le _ _)), (proj2 (Z.ltb_lt _ _)) by lia. done.
Qed.

Lemma write_chunks_spec fuel cursor rest f w :
  frw_ok f w → 0 ≤ cursor → cursor + zlen rest ≤ kMaxSupportedFileSize → (length rest ≤ fuel)%nat →
  fwp (write_chunks cs fuel cursor rest) (λ r st, only_in (in_span cursor (zlen rest)) (f, w) st ∧
    (r = Ok tt → ∀ i k, chunk_index i → 0 ≤ k < cs → in_span cursor (zlen rest) i k →
       chunk_byte st.1 st.2 i k = default Ascii.zero (byte_at rest (i * cs + k - cursor)))) (f, w).
Proof.
  revert cursor rest f w. induction fuel as [|fuel IH]; intros cursor rest f w Hok Hc Hmax Hfuel.
  { destruct rest; [|cbn in Hfuel; lia]. split; [by apply only_refl|]. intros _ i k _ _ Hs. unfold in_span in Hs. change (zlen []) with 0 in Hs. lia. }
  destruct rest as [|x rest0] eqn:Erest.
  { split; [by apply only_refl|]. intros _ i k _ _ Hs. unfold in_span in Hs. change (zlen []) with 0 in Hs. lia. }
  cbn [write_chunks]. rewrite <- Erest in *. assert (0 < zlen rest) as Hlen by (rewrite Erest, zlen_cons; pose proof (zlen_nonneg rest0); lia).
  destruct (position_of cursor ltac:(lia)) as [Epos Hi]. apply fwp_bind. unfold f_lift, fwp at 1. rewrite Epos. cbn [cp_index cp_offset_in_chunk].
  apply fwp_bind. eapply fwp_mono; [|by apply (chunks_Get_spec f w (cursor / cs) true)]. intros r [f1 w1] [Ho1 Hr]. pose proof Ho1 as [Hok1 _]. cbn [fst snd] in *.
  destruct r as [[c|]|e]; [|by destruct Hr|split; [|done]; eapply only_trans; [exact Ho1|by apply only_refl|by intros ? ? [[]|?]]].
  pose proof (Z.mod_pos_bound cursor cs ltac:(lia)) as Hmod. pose proof (Z.div_mod cursor cs ltac:(lia)) as Hdiv.
  set (o := cursor mod cs) in *. set (n := Z.min (zlen rest) (cs - o)).
  assert (zlen (take (Z.to_nat n) rest) = n) as Htake by (unfold zlen in *; rewrite length_take; lia).
  assert (zlen (drop (Z.to_nat n) rest) = zlen rest - n) as Hdrop by (unfold zlen in *; rewrite length_drop; lia).
  apply fwp_bind. eapply fwp_mono; [|by apply (write_chunk_spec f1 w1 (cursor / cs) c o (take (Z.to_nat n) rest) Hok1 Hi Hr); lia].
  intros r [f2 w2] (Ho2 & Hb2). rewrite Htake in *. pose proof Ho2 as [Hok2 _]. cbn [fst snd] in *.
  assert (only_in (in_span cursor n) (f, w) (f2, w2)) as Ho12.
  { eapply only_trans; [exact Ho1|exact Ho2|]. intros j k [[]|[-> Hk]]. unfold in_span. lia. }
  destruct r as [[]|e]; [specialize (Hb2 eq_refl)|split; [|done]; apply (only_trans (in_span cursor n) (λ _ _, False) _ _ _ _ Ho12 (only_refl _ _ _ Hok2)); unfold in_span; intros j k [?|[]]; lia].
  eapply fwp_mono; [|apply IH; [done|lia|lia|rewrite length_drop; unfold zlen in *; lia]].
  intros r [f3 w3] [Ho3 Hb3]. rewrite Hdrop in *. cbn [fst snd] in *. split.
  { eapply only_trans; [exact Ho12|exact Ho3|]. unfold in_span. intros j k [?|?]; lia. }
  intros -> j k Hj Hk Hs. destruct (decide (cursor + n ≤ j * cs + k)) as [Hge|Hlt].
  - rewrite Hb3 by (done || unfold in_span in *; lia). f_equal. rewrite byte_at_drop by (unfold in_span in *; lia). f_equal. lia.
  - destruct Ho3 as (_ & _ & D). cbn [fst snd] in D. rewrite D by (done || unfold in_span in *; lia).
    assert (j = cursor / cs) as -> by (unfold in_span in *; nia). rewrite Hb2 by (unfold in_span in *; lia). f_equal.
    rewrite byte_at_take. rewrite (proj2 (Z.ltb_lt _ _)) by lia. f_equal. lia.
Qed.

(** *** Reads *)
Lemma read_window_spec f w i c offset n :
  frw_ok f w → chunk_index i → frw_chunks f !! i = Some c → 0 ≤ offset → 0 < n → offset + n ≤ cs →
  fwp (f_try (f_call (ch_read offset n c))) (λ r st, only_in (λ _ _, False) (f, w) st ∧ ∃ r', r = Ok r' ∧
    ∀ out, r' = Ok out → zlen out = n ∧ ∀ k, 0 ≤ k < n → byte_at out k = Some (chunk_byte f w i (offset + k))) (f, w).
Proof.
  intros Hok Hi Hc Ho Hn Hin. pose proof (frw_at f w i Hok Hi) as Hci. rewrite Hc in Hci. unfold fwp, f_try, f_call.
  destruct (ch_read offset n c w) as [r w'] eqn:Er. destruct (law_read i c w offset n r w' Hi Hci Ho Hn Hin Er) as [Hcalm Hr].
  split; [by apply calm_only|]. exists r. split; [done|]. intros out Hout. destruct (Hr out Hout) as [Hl Hb]. split; [done|].
  intros k Hk. unfold chunk_byte. rewrite Hc. by apply Hb.
Qed.

Definition reads (f : FileReadWriter C) (w : W) (from len : Z) (out : bytes) : Prop :=
  zlen out = len ∧ ∀ k, 0 ≤ k < len → byte_at out k = Some (fbyte f w (from + k)).
Lemma fbyte_at f w i k : 0 ≤ k < cs → fbyte f w (i * cs + k) = chunk_byte f w i k.
Proof. intros Hk. destruct (span_here (i * cs + k) i k Hk eq_refl) as [Hi Hm]. unfold fbyte. by rewrite <- Hi, <- Hm. Qed.
Lemma fbyte_same f w f' w' k :
  only_in (λ _ _, False) (f, w) (f', w') → 0 ≤ k ≤ kMaxSupportedFileSize → fbyte f' w' k = fbyte f w k.
Proof.
  intros (_ & _ & D) Hk. destruct (position_of k Hk) as [_ Hi]. unfold fbyte. apply D; [done|apply Z.mod_pos_bound; lia|by intros []].
Qed.

Lemma read_chunks_spec fuel cursor remaining f w :
  frw_ok f w → 0 ≤ cursor → 0 ≤ remaining → cursor + remaining ≤ kMaxSupportedFileSize → remaining ≤ Z.of_nat fuel →
  fwp (read_chunks cs fuel cursor remaining) (λ r st, only_in (λ _ _, False) (f, w) st ∧
    ∀ windows out, r = Ok windows → Collect windows = Ok out → reads f w cursor remaining out) (f, w).
Proof.
  revert cursor remaining f w. induction fuel as [|fuel IH]; intros cursor remaining f w Hok Hc Hr Hmax Hfuel; cbn [read_chunks].
  { rewrite (proj2 (Z.eqb_eq _ _)) by lia. split; [by apply only_refl|]. intros ? out [= <-] [= <-]. split; [change (zlen []) with 0; lia|lia]. }
  destruct (Z.eqb_spec remaining 0) as [->|Hne].
  { split; [by apply only_refl|]. intros ? out [= <-] [= <-]. split; [done|lia]. }
  destruct (position_of cursor ltac:(lia)) as [Epos Hi]. apply fwp_bind. unfold f_lift, fwp at 1. rewrite Epos. cbn [cp_index cp_offset_in_chunk].
  apply fwp_bind. eapply fwp_mono; [|by apply (chunks_Get_spec f w (cursor / cs) false)]. intros r [f1 w1] [Ho1 Hr1]. pose proof Ho1 as [Hok1 _]. cbn [fst snd] in *.
  destruct r as [c|e]; [|by split].
  pose proof (Z.mod_pos_bound cursor cs ltac:(lia)) as Hmod. pose proof (Z.div_mod cursor cs ltac:(lia)) as Hdiv.
  set (o := cursor mod cs) in *. set (n := Z.min remaining (cs - o)).
  apply fwp_bind. assert (fwp (match c with Some c => f_try (f_call (ch_read o n c)) | None => mret (Ok (zeros n)) end) (λ r st, only_in (λ _ _, False) (f1, w1) st ∧
    ∃ r', r = Ok r' ∧ ∀ out, r' = Ok out → zlen out = n ∧ ∀ k, 0 ≤ k < n → byte_at out k = Some (chunk_byte f1 w1 (cursor / cs) (o + k))) (f1, w1)) as Hwin.
  { destruct c as [c|]; [apply (read_window_spec f1 w1 (cursor / cs) c o n); try done; lia|]. destruct Hr1 as [_ Hz]. split; [by apply only_refl|].
    eexists. split; [done|]. intros out [= <-]. split; [apply zlen_zeros; lia|]. intros k Hk. rewrite byte_at_zeros, Hz by lia.
    by rewrite (proj2 (Z.leb_le _ _)), (proj2 (Z.ltb_lt _ _)) by lia. }
  eapply fwp_mono; [|exact Hwin]. intros r [f2 w2] (Ho2 & r' & -> & Hr'). cbn beta iota. pose proof Ho2 as [Hok2 _]. cbn [fst snd] in *.
  assert (only_in (λ _ _, False) (f, w) (f2, w2)) as Ho12 by (eapply only_trans; [exact Ho1|exact Ho2|by intros ? ? [[]|[]]]).
  apply fwp_bind. eapply fwp_mono; [|apply (IH (cursor + n) (remaining - n) f2 w2 Hok2); lia]. intros r [f3 w3] [Ho3 Hr3]. cbn [fst snd] in *.
  assert (only_in (λ _ _, False) (f, w) (f3, w3)) as Ho13 by (eapply only_trans; [exact Ho12|exact Ho3|by intros ? ? [[]|[]]]).
  destruct r as [others|e]; [|by split]. split; [done|]. intros ? out [= <-]. cbn [Collect].
  destruct r' as [b|e]; [|done]. destruct (Collect others) as [tl|e] eqn:Ec; [|done]. cbn. intros [= <-].
  destruct (Hr' b eq_refl) as [Hlb Hbb]. destruct (Hr3 others tl eq_refl Ec) as [Hlt Hbt]. split; [rewrite zlen_app; lia|].
  intros k Hk. rewrite byte_at_app, Hlb. destruct (Z.ltb_spec k n).
  - rewrite Hbb by lia. f_equal. rewrite <- (fbyte_at f1 w1 (cursor / cs) (o + k)) by lia.
    rewrite (fbyte_same f w f1 w1) by (done || lia). f_equal. lia.
  - rewrite Hbt by lia. f_equal. rewrite (fbyte_same f w f2 w2) by (done || lia). f_equal. lia.
Qed.

Lemma GetVisibleSize_spec f w :
  frw_ok f w → fwp GetVisibleSize (λ r st, frw_ok st.1 st.2 ∧ (∀ k, 0 ≤ k ≤ kMaxSupportedFileSize → fbyte st.1 st.2 k = fbyte f w k) ∧
    frw_chunks st.1 = frw_chunks f ∧ ∀ n, r = Ok n → cached_size (frw_size st.1) = Some n) (f, w).
Proof.
  intros Hok. unfold GetVisibleSize, fwp, mbind, fio_bind, f_get, f_call, f_size, f_modify. cbn [fst snd].
  destruct (cached_size (frw_size f)) as [n|] eqn:E; [cbn; split_and!; try done; by intros ? [= <-]|].
  destruct (me_inode w) as [r w'] eqn:Ei. pose proof (law_inode w r w' Ei) as Hcalm. pose proof (calm_only f w w' Hok Hcalm) as Honly.
  destruct r as [inode|e]; cbn [fst snd].
  - split_and!; [apply Honly|intros k Hk; apply (fbyte_same f w f w' k Honly Hk)|done|]. intros n [= <-]. cbn.
    unfold cached_size, adopt_size in *. destruct (authoritative_size (frw_size f)); done.
  - split_and!; [apply Honly|intros k Hk; apply (fbyte_same f w f w' k Honly Hk)|done|done].
Qed.

(** *** Flushes *)
(** Chunk [i] would survive the loss of every session. *)
Definition safe_at (f : FileReadWriter C) (w : W) (i : Z) : Prop :=
  o_ok i w ∧ ∀ k, 0 ≤ k < cs → sbyte w i k = chunk_byte f w i k.

Lemma flush_chunk_spec f w i :
  frw_ok f w → is_Some (frw_chunks f !! i) →
  fwp (flush_chunk i) (λ r st, only_in (λ _ _, False) (f, w) st ∧ ∃ status, r = Ok status ∧
    (∀ j, is_Some (frw_chunks f !! j) → is_Some (frw_chunks st.1 !! j)) ∧
    ∀ j, chunk_index j → (j = i ∧ status = OK) ∨ (j ≠ i ∧ safe_at f w j) → safe_at st.1 st.2 j) (f, w).
Proof.
  intros Hok [c Hc]. pose proof (Hok i) as Hci. rewrite Hc in Hci. destruct Hci as [Hi Hci]. unfold fwp, flush_chunk. rewrite Hc.
  destruct (ch_flush c w) as [status [c' w']] eqn:Ef. destruct (law_flush i c w status c' w' Hi Hci Ef) as (Hcalm & Hc' & Hsame & Hdur).
  set (f' := with_chunks (<[i:=c']> (frw_chunks f)) f).
  assert (∀ k, chunk_byte f' w' i k = cbyte i c' w' k) as Hat by (intros k; unfold chunk_byte, f'; cbn [frw_chunks with_chunks]; by rewrite lookup_insert_eq).
  assert (∀ j, j ≠ i → frw_chunks f' !! j = frw_chunks f !! j) as Hother by (intros j Hj; unfold f'; cbn [frw_chunks with_chunks]; by rewrite lookup_insert_ne).
  assert (∀ j k, chunk_index j → j ≠ i → 0 ≤ k < cs → chunk_byte f' w' j k = chunk_byte f w j k) as Hframe.
  { intros j k Hj Hne Hk. pose proof (frw_at f w j Hok Hj) as Hoj. destruct (Hcalm j Hne) as (_ & B & D). unfold chunk_byte. rewrite Hother by done.
    destruct (frw_chunks f !! j); [by apply D|by apply B]. }
  split; [split_and!; [|done|]|exists status; split_and!; [done| |]]; cbn [fst snd].
  - intros j. destruct (decide (j = i)) as [->|Hne]; [unfold f'; cbn [frw_chunks with_chunks]; by rewrite lookup_insert_eq|].
    rewrite Hother by done. specialize (Hok j). destruct (Hcalm j Hne) as (A & _ & D). destruct (frw_chunks f !! j); [destruct Hok; split; [done|by apply D]|auto].
  - intros j k Hj Hk _. destruct (decide (j = i)) as [->|Hne]; [|by apply Hframe]. rewrite Hat, Hsame by done. unfold chunk_byte. by rewrite Hc.
  - intros j Hs. destruct (decide (j = i)) as [->|Hne]; [unfold f'; cbn [frw_chunks with_chunks]; rewrite lookup_insert_eq; by eexists|by rewrite Hother].
  - intros j Hj [[-> ->]|[Hne [Ho Hb]]].
    + destruct (Hdur eq_refl) as [Ho Hb]. split; [done|]. intros k Hk. by rewrite Hat, Hsame, Hb.
    + destruct (Hcalm j Hne) as (A & B & _). split; [by apply A|]. intros k Hk. rewrite B, Hframe by done. by apply Hb.
Qed.

Lemma flush_chunks_spec l err f w :
  frw_ok f w → NoDup l → (∀ i, i ∈ l → is_Some (frw_chunks f !! i)) →
  fwp (flush_chunks l err) (λ r st, only_in (λ _ _, False) (f, w) st ∧ ∃ e, r = Ok e ∧
    (ok err = false → e = err) ∧
    (e = OK → (∀ j, chunk_index j → j ∉ l → safe_at f w j) → ∀ j, chunk_index j → safe_at st.1 st.2 j)) (f, w).
Proof.
  revert err f w. induction l as [|i l IH]; intros err f w Hok Hnd Hl; cbn [flush_chunks].
  { split; [by apply only_refl|]. exists err. split_and!; [done|done|]. intros _ Hs j Hj. apply Hs; [done|set_solver]. }
  apply NoDup_cons in Hnd as [Hi Hnd]. apply fwp_bind. eapply fwp_mono; [|by apply (flush_chunk_spec f w i Hok), Hl; left].
  intros r [f1 w1] (Ho1 & status & -> & Hdom & Hs1). cbn beta iota. pose proof Ho1 as [Hok1 _]. cbn [fst snd] in *.
  eapply fwp_mono; [|apply (IH (if ok err then status else err) f1 w1 Hok1 Hnd); intros j Hj; apply Hdom, Hl; by right].
  intros r [f2 w2] (Ho2 & e & -> & He & Hs2). split; [eapply only_trans; [exact Ho1|exact Ho2|by intros ? ? [[]|[]]]|].
  exists e. split_and!; [done|intros Herr; rewrite Herr in He; by apply He|].
  intros -> Hs j Hj. apply Hs2; [done| |done]. intros j' Hj' Hn'. apply Hs1; [done|]. destruct (decide (j' = i)) as [->|Hne]; [left|right].
  - split; [done|]. destruct (ok err) eqn:Eerr; [|specialize (He Eerr); subst; done]. destruct (ok status) eqn:Es; [by destruct status|].
    specialize (He eq_refl). subst. done.
  - split; [done|]. apply Hs; [done|]. set_solver.
Qed.

(** ** The operations *)
Lemma only_frw (f : FileReadWriter C) w f' w' P : only_in P (f, w) (f', w') → frw_size f' = frw_size f ∧ frw_flags f' = frw_flags f ∧ frw_failed_closed f' = frw_failed_closed f.
Proof. intros (_ & E & _). cbn in E. by injection E. Qed.

Lemma Write_file_spec f w data off open_flags :
  frw_ok f w → 0 ≤ off ≤ INT64_MAX → zlen data < 2 ^ 64 →
  fwp (FileReadWriter_Write cs data off open_flags) (λ r st, frw_ok st.1 st.2 ∧
    (∀ k, 0 ≤ k ≤ kMaxSupportedFileSize → ¬ off ≤ k < off + zlen data → fbyte st.1 st.2 k = fbyte f w k) ∧ match r with
    | Ok _ => off + zlen data ≤ kMaxSupportedFileSize ∧ (∀ k, 0 ≤ k < zlen data → byte_at data k = Some (fbyte st.1 st.2 (off + k))) ∧
        frw_size st.1 = if zlen data =? 0 then frw_size f else note_write (off + zlen data) (frw_size f)
    | Err _ => frw_size st.1 = frw_size f
    end) (f, w).
Proof.
  intros Hok Hoff Hlen. pose proof (zlen_nonneg data) as Hnn. unfold FileReadWriter_Write, CheckSizeCommitSafety.
  apply fwp_bind, fwp_bind. unfold fwp at 1, f_get. cbn [fst]. apply fwp_fail_if; intros _; [done|].
  apply fwp_bind. unfold fwp at 1, f_get. cbn [fst]. apply fwp_bind, fwp_fail_if; intros _; [done|]. apply fwp_bind, fwp_fail_if; intros _; [done|].
  apply fwp_bind. unfold fwp at 1, f_lift. rewrite CalculateFileRangeEnd_exact by lia. destruct (Z.leb_spec (off + zlen data) kMaxSupportedFileSize) as [Hmax|]; [|done].
  apply fwp_bind. eapply fwp_mono; [|by apply (write_chunks_spec (length data) off data f w Hok); lia]. intros r [f1 w1] [Ho Hb].
  destruct (only_frw _ _ _ _ _ Ho) as (Es & _). destruct Ho as (Hok1 & _ & D). cbn [fst snd] in *.
  assert (∀ k, 0 ≤ k ≤ kMaxSupportedFileSize → ¬ off ≤ k < off + zlen data → fbyte f1 w1 k = fbyte f w k) as Hkeep.
  { intros k Hk Hn. destruct (position_of k Hk) as [_ Hi]. pose proof (Z.div_mod k cs ltac:(lia)). unfold fbyte.
    apply D; [done|apply Z.mod_pos_bound; lia|]. unfold in_span. lia. }
  destruct r as [[]|e]; [|by split_and!].
  assert (∀ k, 0 ≤ k < zlen data → byte_at data k = Some (fbyte f1 w1 (off + k))) as Hdata.
  { intros k Hk. destruct (position_of (off + k) ltac:(lia)) as [_ Hi]. pose proof (Z.div_mod (off + k) cs ltac:(lia)). pose proof (Z.mod_pos_bound (off + k) cs ltac:(lia)).
    unfold fbyte. rewrite Hb by (done || unfold in_span; lia). replace (_ - off) with k by lia. by destruct (byte_at_inside data k) as [x ->]. }
  destruct (zlen data =? 0) eqn:E0; unfold fwp; cbn [f_size f_modify mret fio_ret fst snd].
  - by split_and!.
  - split_and!; try done. cbn. by rewrite Es.
Qed.

Lemma Read_file_spec f w n off :
  frw_ok f w → 0 ≤ n → off ≤ INT64_MAX →
  fwp (FileReadWriter_Read cs n off) (λ r st, frw_ok st.1 st.2 ∧
    (∀ k, 0 ≤ k ≤ kMaxSupportedFileSize → fbyte st.1 st.2 k = fbyte f w k) ∧
    ∀ out, r = Ok out → 0 < n → ∃ size, cached_size (frw_size st.1) = Some size ∧ reads f w off (Z.max 0 (Z.min n (size - off))) out) (f, w).
Proof.
  intros Hok Hn Hoff. unfold FileReadWriter_Read, CheckSizeCommitSafety.
  apply fwp_bind, fwp_bind. unfold fwp at 1, f_get. cbn [fst]. apply fwp_fail_if; intros _; [done|]. apply fwp_bind, fwp_fail_if; intros Eo; [done|].
  destruct (Z.eqb_spec n 0) as [->|Hne]; [split_and!; try done; lia|].
  apply fwp_bind. eapply fwp_mono; [|by apply GetVisibleSize_spec]. intros r [f1 w1] (Hok1 & Hb1 & Hm & Hsz). cbn [fst snd] in *.
  destruct r as [size|e]; [|by split_and!]. specialize (Hsz size eq_refl). apply fwp_bind, fwp_fail_if; intros Em; [by split_and!|].
  rewrite Z.geb_leb. destruct (Z.leb_spec size off) as [Hle|Hlt].
  { split_and!; try done. intros out [= <-] _. exists size. split; [done|]. rewrite Z.max_l by lia. split; [done|lia]. }
  apply fwp_bind. eapply fwp_mono; [|apply (read_chunks_spec _ off (Z.min n (size - off)) f1 w1 Hok1); zlia].
  intros r [f2 w2] [Ho2 Hr2]. destruct (only_frw _ _ _ _ _ Ho2) as (Es & _). pose proof Ho2 as [Hok2 _]. cbn [fst snd] in *.
  assert (∀ k, 0 ≤ k ≤ kMaxSupportedFileSize → fbyte f2 w2 k = fbyte f w k) as Hb2 by (intros k Hk; rewrite (fbyte_same f1 w1 f2 w2 k Ho2 Hk); by apply Hb1).
  destruct r as [windows|e]; [|by split_and!]. split_and!; [done|done|]. intros out Hc _. exists size. split; [cbn; by rewrite Es|]. rewrite Z.max_r by lia.
  destruct (Hr2 windows out eq_refl Hc) as [Hl Hb]. split; [done|]. intros k Hk. rewrite Hb, Hb1 by (done || zlia). done.
Qed.

Lemma Flush_file_spec f w :
  frw_ok f w →
  fwp FileReadWriter_Flush (λ r st, frw_ok st.1 st.2 ∧
    (∀ k, 0 ≤ k ≤ kMaxSupportedFileSize → fbyte st.1 st.2 k = fbyte f w k) ∧ match r with
    | Ok _ => (∀ k, 0 ≤ k ≤ kMaxSupportedFileSize → dbyte st.2 k = fbyte f w k) ∧
        frw_size st.1 = settle_flush (write_epoch (frw_size f)) (live_size (frw_size f)) (frw_size f)
    | Err _ => frw_size st.1 = frw_size f
    end) (f, w).
Proof.
  intros Hok. unfold FileReadWriter_Flush, FlushPendingWritesLocked, CheckSizeCommitSafety.
  apply fwp_bind, fwp_bind. unfold fwp at 1, f_get. cbn [fst]. apply fwp_fail_if; intros _; [done|].
  apply fwp_bind. unfold fwp at 1, f_get. cbn [fst].
  assert (∀ i, i ∈ GetPendingWrites f ↔ ∃ c, frw_chunks f !! i = Some c ∧ ch_pending c = true) as Hpend.
  { intros i. unfold GetPendingWrites. rewrite list_elem_of_fmap. split.
    - intros ([j c] & -> & [Hp Hin]%list_elem_of_filter). exists c. split; [by apply elem_of_map_to_list|done].
    - intros (c & Hc & Hp). exists (i, c). split; [done|]. apply list_elem_of_filter. split; [done|by apply elem_of_map_to_list]. }
  assert (NoDup (GetPendingWrites f)) as Hnd.
  { unfold GetPendingWrites. eapply sublist_NoDup; [apply (NoDup_fst_map_to_list (frw_chunks f))|]. apply fmap_sublist, sublist_filter. }
  apply fwp_bind. eapply fwp_mono; [|apply (flush_chunks_spec (GetPendingWrites f) OK f w Hok Hnd); intros i (c & Hc & _)%Hpend; by exists c].
  intros r [f1 w1] (Ho & e & -> & _ & Hsafe). destruct (only_frw _ _ _ _ _ Ho) as (Es & _). pose proof Ho as [Hok1 _]. cbn [fst snd] in *.
  pose proof (λ k, fbyte_same f w f1 w1 k Ho) as Hsame. destruct (ok e) eqn:Ee.
  - apply fwp_bind. unfold fwp, f_size, f_modify, f_check, f_lift, check. rewrite Ee. assert (e = OK) as -> by (by destruct e).
    split_and!; [exact Hok1|exact Hsame| |cbn; by rewrite Es]. intros k Hk. destruct (position_of k Hk) as [_ Hi]. pose proof (Z.mod_pos_bound k cs ltac:(lia)).
    assert (∀ j, chunk_index j → j ∉ GetPendingWrites f → safe_at f w j) as Hrest.
    { intros j Hj Hn. pose proof (frw_at f w j Hok Hj) as Hoj. unfold safe_at, chunk_byte. destruct (frw_chunks f !! j) as [c|] eqn:Ec; [|done].
      apply law_pending; [done|done|]. destruct (ch_pending c) eqn:Ep; [|done]. destruct Hn. apply Hpend. by exists c. }
    destruct (Hsafe eq_refl Hrest (k / cs) Hi) as [_ Hb]. cbn [snd]. unfold dbyte. rewrite Hb by done. rewrite <- (Hsame k Hk). done.
  - apply fwp_bind. unfold fwp, f_check, f_lift, check, mret, fio_ret. rewrite Ee. by split_and!.
Qed.

End Laws.
