(* ===== verification/FileSlices.v ===== *)
(** * Files of slice chunks

    The laws of FileData.v hold for slice chunk sessions over the in-memory backend: the file
    path of FileRw.v runs on the sessions of SliceChunk.v, and what SliceRead.v and
    SliceDurable.v prove of one session is what the file path relies on. *)

From stdpp Require Import gmap.
From S2P Require Import Prelude RedisKv Decimal StdMap ChunkGeometry InodeTypes Acl InodeOps SliceHistory DirtyRanges Records MetaTxn MetaEngine SliceChunk SliceLocal SlicePublished SliceMemory SliceRead SliceInv SliceFlush SliceGroup SliceDurable SliceFrame FileRw FileData.

(** The chunks of one file; they share its size. *)
Record FileMemory := mkFileMemory { fm_size : Z; fm_parts : gmap Z Memory }.
Definition part (i : Z) (w : FileMemory) : Memory :=
  let m := default (empty_memory []) (fm_parts w !! i) in with_chunk (mm_chunk m) (fm_size w) m.
Definition put (i : Z) (m : Memory) (w : FileMemory) : FileMemory := mkFileMemory (mm_size m) (<[i := m]> (fm_parts w)).
Definition resize_file (n : Z) (w : FileMemory) : FileMemory := mkFileMemory n (fm_parts w).
Definition empty_file : FileMemory := mkFileMemory 0 ∅.

Definition mappings_of (w : FileMemory) : list ChunkMapping :=
  omap (λ x, mkChunkMapping x.1 <$> mm_chunk x.2) (map_to_list (fm_parts w)).
Definition detach_past (cs n : Z) (w : FileMemory) : FileMemory :=
  mkFileMemory n (filter (λ x : Z * Memory, x.1 * cs < n) (fm_parts w)).
Definition zero_cover (cs : Z) (b : RetainedChunkBoundary) (w : FileMemory) : FileMemory :=
  let i := rcb_index b in
  if bool_decide (mm_chunk (part i w) = Some (rcb_chunk_id b))
  then put i (snd (be_append (rcb_chunk_id b) (mkSliceRecord (rcb_visible_prefix b) 0 0 0 (cs - rcb_visible_prefix b)) (part i w))) w
  else w.

Section Instance.
Context (cs : Z).

Definition on_part {A : Type} (i : Z) (m : io A) (s : SliceChunk) (w : FileMemory) : result A * (SliceChunk * FileMemory) :=
  let '(r, (s', m')) := m (s, part i w) in (r, (s', put i m' w)).
#[export] Instance slice_files : FileBackend (Z * SliceChunk) FileMemory := {|
  ch_read offset len c w := let '(r, (_, w')) := on_part c.1 (Read c.1 cs offset len) c.2 w in (r, w');
  ch_write offset data c w := let '(status, s) := Write cs offset data c.2 in (status, ((c.1, s), w));
  ch_flush c w := let '(r, (s, w')) := on_part c.1 (Flush c.1 cs) c.2 w in
                  (match r with Ok _ => OK | Err OK => Internal | Err e => e end, ((c.1, s), w'));
  ch_truncate n c w := let '(_, (s, w')) := on_part c.1 (TruncateLocal cs n) c.2 w in ((c.1, s), w');
  ch_clamp n c w := let '(_, (s, w')) := on_part c.1 (ClampPublishedPrefix cs n) c.2 w in ((c.1, s), w');
  ch_pending c := HasPendingWrites c.2;
  cf_open i create w := (Ok (if create || bool_decide (is_Some (mm_chunk (part i w))) then Some (i, new_chunk) else None), w);
  cf_sanitize b w := (OK, zero_cover cs b w);
  me_inode w := (Ok (mm_inode (fm_size w)), w);
  me_setattr _ _ w := (Ok (mm_inode (fm_size w)), w);
  me_setflags _ w := (Ok (mm_inode (fm_size w)), w);
  me_mappings w := (Ok (mkMappingSnapshot (mm_inode (fm_size w)) (mappings_of w)), w);
  me_shrink p a _ w := (Ok (mkCommitResult (mm_inode (size a)) (plan_boundary p) []), detach_past cs (size a) w);
  me_grow p a _ w := (Ok (mkCommitResult (mm_inode (size a)) (plan_boundary p) []), resize_file (size a) w);
|}.

Definition alone (m : Memory) : Prop := mm_incoming m = [].
Definition session (i : Z) (s : SliceChunk) (m : Memory) : Prop :=
  chunk_inv cs (i * cs) s (view m) ∧ sc_flushing s = false ∧ points s = (None, []) ∧ alone m.
#[export] Instance slice_view : FileView (Z * SliceChunk) FileMemory := {|
  cbyte i c w k := contents cs (i * cs) c.2 (view (part i w)) k;
  sbyte w i k := published cs (i * cs) (view (part i w)) [] k;
  c_ok i c w := c.1 = i ∧ session i c.2 (part i w);
  o_ok i w := session i new_chunk (part i w);
|}.

(** ** Frames *)
Hypothesis Hcs : 0 < cs ≤ UINT32_MAX.

Definition apart (m m' : Memory) : Prop :=
  mm_size m ≤ mm_size m' ∧ (alone m → alone m' ∧ mm_arrived m' = mm_arrived m).
#[local] Instance apart_preorder : PreOrder apart.
Proof.
  split; [by intros m; split|]. intros m1 m2 m3 [S1 A1] [S2 A2]. split; [lia|]. intros [H1 E1]%A1. destruct (A2 H1) as [H2 E2]. split; [done|congruence].
Qed.
Lemma answer_apart {A : Type} ok (a : A) m' m : apart m m' → apart m (answer ok a m' m).2.
Proof.
  assert (∀ m, apart m (deliver m)) as Hd.
  { intros m0. split; [done|]. unfold alone, deliver. cbn. intros ->. cbn. by rewrite app_nil_r. }
  intros Hm. unfold answer. destruct ok; [etrans; [exact Hm|apply Hd]|apply Hd].
Qed.
#[local] Instance memory_apart : CallsRespect apart.
Proof. split; intros; intros m; apply answer_apart; split; cbn; done || lia. Qed.

Lemma part_put_eq i m w : part i (put i m w) = m.
Proof. unfold part, put. cbn [fm_parts fm_size]. rewrite lookup_insert_eq. cbn. by destruct m. Qed.
Lemma part_put_ne i j m w : j ≠ i → part j (put i m w) = with_chunk (mm_chunk (part j w)) (mm_size m) (part j w).
Proof. intros Hne. unfold part, put. cbn [fm_parts fm_size]. by rewrite lookup_insert_ne. Qed.
Lemma part_settles i j m w : apart (part i w) m → j ≠ i → settles (view (part j w)) (view (part j (put i m w))) ∧ (alone (part j w) → alone (part j (put i m w))).
Proof. intros [Hs _] Hne. rewrite part_put_ne by done. split; [|done]. by split. Qed.

Lemma session_settles i s m m' :
  session i s m → settles (view m) (view m') → (alone m → alone m') →
  session i s m' ∧ ∀ k, contents cs (i * cs) s (view m') k = contents cs (i * cs) s (view m) k.
Proof.
  intros (Hinv & Hf & Hp & Ha) Hs Hal. destruct (inv_settles cs (i * cs) Hcs _ _ _ _ _ _ (head_ok_stable cs faults) Hinv Hs) as (Hinv' & Hc & _).
  split; [|done]. split_and!; auto.
Qed.
Lemma start_of i : chunk_index cs i → CalculateChunkStartOffset i cs = Ok (i * cs).
Proof.
  intros [Hi Hm]. unfold CalculateChunkStartOffset. rewrite (proj2 (Z.eqb_neq cs 0)) by lia.
  destruct (Z.eqb_spec i 0) as [->|Hne]; cbn [negb andb]; [done|].
  assert (cs ≤ kMaxSupportedFileSize / i) by (apply Z.div_le_lower_bound; lia). rewrite Z.gtb_ltb, (proj2 (Z.ltb_ge _ _)) by lia.
  unfold kMaxSupportedFileSize, INT64_MAX in *. by rewrite u64_id by lia.
Qed.
Lemma session_new_contents i m k : contents cs i new_chunk (view m) k = published cs i (view m) [] k.
Proof. done. Qed.
(** ** The laws *)
Lemma part_calm i w m :
  apart (part i w) m → settles (view (part i w)) (view m) → calm cs w (put i m w).
Proof.
  intros Hap Hs j _. assert (settles (view (part j w)) (view (part j (put i m w))) ∧ (alone (part j w) → alone (part j (put i m w)))) as [Hs' Ha'].
  { destruct (decide (j = i)) as [->|Hne]; [|by apply part_settles]. rewrite part_put_eq. split; [done|]. intros Hal. by destruct (proj2 Hap Hal). }
  cbn. split_and!.
  - intros Hn. by destruct (session_settles j new_chunk _ _ Hn Hs' Ha').
  - intros k _ Hn. destruct (session_settles j new_chunk _ _ Hn Hs' Ha') as [_ Hc]. apply (Hc k).
  - intros c [Hc1 Hc]. destruct (session_settles j c.2 _ _ Hc Hs' Ha') as [? Hb]. split; [done|]. intros k _. apply Hb.
Qed.
Lemma part_calm_ne i w m : apart (part i w) m → calm_on cs (λ j, j ≠ i) w (put i m w).
Proof.
  intros Hap j Hne. destruct (part_settles i j m w Hap Hne) as [Hs Ha]. cbn. split_and!.
  - intros Hn. by destruct (session_settles j new_chunk _ _ Hn Hs Ha).
  - intros k _ Hn. destruct (session_settles j new_chunk _ _ Hn Hs Ha) as [_ Hc]. apply (Hc k).
  - intros c [Hc1 Hc]. destruct (session_settles j c.2 _ _ Hc Hs Ha) as [? Hb]. split; [done|]. intros k _. apply Hb.
Qed.

Lemma session_write i s m offset data :
  chunk_index cs i → session i s m → 0 ≤ offset → 0 < zlen data → offset + zlen data ≤ cs →
  let s' := (Write cs offset data s).2 in
  (Write cs offset data s).1 = OK ∧ session i s' m ∧ ∀ k, contents cs (i * cs) s' (view m) k =
    if (offset <=? k) && (k <? offset + zlen data) then default Ascii.zero (byte_at data (k - offset)) else contents cs (i * cs) s (view m) k.
Proof.
  intros Hi (Hinv & Hf & Hp & Ha) Ho Hd Hin. cbn zeta. pose proof (fi_session _ _ _ _ _ _ _ Hinv) as Hs.
  pose proof (write_accepts_one cs s (offset, data) Hs Ho) as Hacc. cbn [fst snd] in Hacc. pose proof (ac_grown _ _ _ _ Hacc) as Hg.
  pose proof (Write_spec cs offset data s Hs Ho) as HW. cbn zeta in HW. destruct (_ || _) eqn:E; [apply orb_true_iff in E as []; zlia|].
  split; [by destruct HW|]. split.
  - split_and!; [|by rewrite (gr_flushing _ _ Hg)|by rewrite (grown_points _ _ Hg)|done]. eapply (inv_all i cs (i * cs) Hcs (start_of i Hi)), inv_accepts; [done|exact Hinv|exact Hacc].
  - intros k. unfold contents. rewrite (ac_dirty _ _ _ _ Hacc), (gr_boundaries _ _ Hg), written_default. cbn [written foldl]. unfold write_over, fits. cbn [fst snd].
    rewrite E. cbn [negb andb]. destruct (Z.leb_spec offset k), (Z.ltb_spec k (offset + zlen data)); cbn [andb]; try done.
    destruct (byte_at_inside data (k - offset)) as [x ->]; [lia|done].
Qed.

Lemma session_read i s m offset len r st :
  chunk_index cs i → session i s m → 0 ≤ offset → 0 < len → offset + len ≤ cs → Read i cs offset len (s, m) = (r, st) →
  apart m st.2 ∧ settles (view m) (view st.2) ∧
  ∀ out, r = Ok out → zlen out = len ∧ ∀ k, 0 ≤ k < len → byte_at out k = Some (contents cs (i * cs) s (view m) (offset + k)).
Proof.
  intros Hi (Hinv & _) Ho Hl Hin E. pose proof (Read_keeps i cs apart offset len (s, m)) as Hk. cbn [snd] in Hk. rewrite E in Hk. cbn [snd] in Hk.
  pose proof (fi_session _ _ _ _ _ _ _ Hinv) as Hs.
  pose proof (Read_spec i cs (i * cs) Hcs (start_of i Hi) s m offset len (bo_dirty _ _ _ (so_buffers _ _ Hs)) (fi_published _ _ _ _ _ _ _ Hinv) Ho ltac:(lia)) as HR.
  unfold wp in HR. rewrite E in HR. unfold out_of_range in HR. destruct (_ || _) eqn:Eo; [apply orb_true_iff in Eo as []; zlia|].
  destruct HR as [(ws & _ & _ & _ & Hv) Hr]. split_and!; [done|done|]. intros out ->. done.
Qed.

(** A session with nothing pending leaves a chunk a new session can open. *)
Lemma session_clean i s m :
  session i s m → (∀ k, eof cs (i * cs) (view m) ≤ k → stored cs (view m) [] k = Ascii.zero) → session i new_chunk m.
Proof.
  intros (Hinv & _ & Hp & Ha) Ht. injection Hp as _ Hb. split_and!; try done. apply chunk_inv_open.
  destruct Hinv as [_ Hpub (? & ? & Hi) _ _ _ _ _ _ _ _]. rewrite Hb in Hpub. split_and!; try done. intros c Hc. by destruct (Hi c Hc).
Qed.
Lemma session_flush i s m r s' m' :
  chunk_index cs i → session i s m → Flush i cs (s, m) = (r, (s', m')) →
  apart m m' ∧ session i s' m' ∧ (∀ k, contents cs (i * cs) s' (view m') k = contents cs (i * cs) s (view m) k) ∧
  (r = Ok tt → session i new_chunk m' ∧ ∀ k, published cs (i * cs) (view m') [] k = contents cs (i * cs) s (view m) k).
Proof.
  intros Hi (Hinv & Hf & Hp & Ha) E. pose proof (Flush_keeps i cs apart (s, m)) as Hk. cbn [snd] in Hk. rewrite E in Hk. cbn [snd] in Hk.
  destruct (proj2 Hk Ha) as [Ha' Harr].
  pose proof (Flush_spec i cs (i * cs) Hcs (start_of i Hi) s m Hinv) as HF. unfold wp in HF. rewrite E in HF.
  destruct HF as (Hinv' & (ws & Hws & Hc) & Hf' & Hp' & Hr). cbn [fst snd] in *.
  assert (ws = []) as -> by (cbn in Hws; rewrite Harr in Hws; by apply (app_inv_head (mm_arrived m)); rewrite app_nil_r).
  assert (session i s' m') as Hs' by (split_and!; [done|congruence|congruence|done]).
  split_and!; [done|done|exact Hc|]. intros ->. destruct Hr as [Hin Hpub]. rewrite Hp in Hp'. injection Hp' as _ Hb. split; [|intros k; rewrite <- (Hpub k); by rewrite Hb].
  apply (session_clean i s' m' Hs'). intros k Hk'. destruct (fi_tail _ _ _ _ _ _ _ Hin k Hk') as [Hz|[[c Hx] _]]; [by rewrite Hb in Hz|done].
Qed.
Lemma session_idle i s m :
  session i s m → HasPendingWrites s = false → session i new_chunk m ∧ ∀ k, published cs (i * cs) (view m) [] k = contents cs (i * cs) s (view m) k.
Proof.
  intros Hs Hp. pose proof Hs as (Hinv & _ & Hpt & _). injection Hpt as _ Hb. unfold HasPendingWrites in Hp. destruct (sc_dirty s) eqn:Ed; [|done]. split.
  - apply (session_clean i s m Hs). intros k Hk. destruct (fi_tail _ _ _ _ _ _ _ Hinv k Hk) as [Hz|[_ [c Hx]]]; [by rewrite Hb in Hz|]. by rewrite Ed in Hx.
  - intros k. unfold contents. by rewrite Ed, Hb.
Qed.

#[export] Instance slice_file_laws : FileLaws cs.
Proof.
  split.
  - intros i c w offset data status c' w' Hi [Hc1 Hc] Ho Hd Hin E. destruct (session_write i c.2 (part i w) offset data Hi Hc Ho Hd Hin) as (Es & Hs & Hb).
    cbn in E. destruct (Write cs offset data c.2) as [status0 s']. cbn [fst snd] in *. subst status0. injection E as <- <- <-.
    split; [reflexivity|]. split; [done|]. intros k _. apply Hb.
  - intros i c w offset len r w' Hi [Hc1 Hc] Ho Hl Hin E. cbn in E. unfold on_part in E. rewrite Hc1 in E.
    destruct (Read i cs offset len (c.2, part i w)) as [r0 [s0 m0]] eqn:ER. injection E as <- <-.
    destruct (session_read i c.2 (part i w) offset len r0 (s0, m0) Hi Hc Ho Hl Hin ER) as (Hap & Hv & Hr). split; [by apply part_calm|]. exact Hr.
  - intros i create w r w' Hi Ho E. cbn in E. injection E as <- <-. split; [reflexivity|]. destruct (create || _) eqn:Ec.
    + split; [by split|]. done.
    + apply orb_false_iff in Ec as [-> Hn]. apply bool_decide_eq_false, eq_None_not_Some in Hn. split; [done|]. intros k Hk. cbn.
      unfold published, stored, visible_records. cbn. change (mm_chunk (part i w)) with (pb_chunk (view (part i w))) in Hn. cbn in Hn. rewrite Hn. by destruct (_ <? _).
  - intros i c w status c' w' Hi [Hc1 Hc] E. cbn in E. unfold on_part in E. rewrite Hc1 in E.
    destruct (Flush i cs (c.2, part i w)) as [r0 [s0 m0]] eqn:EF. injection E as <- <- <-.
    destruct (session_flush i c.2 (part i w) r0 s0 m0 Hi Hc EF) as (Hap & Hs & Hb & Hd). cbn [c_ok o_ok cbyte sbyte slice_view fst snd]. rewrite !part_put_eq.
    split; [by apply part_calm_ne|]. split; [split; [done|exact Hs]|]. split; [intros k _; apply Hb|].
    intros Hok. destruct r0 as [[]|e]; [|by destruct e]. destruct (Hd eq_refl) as [Hn Hp]. split; [done|]. intros k _. apply Hp.
  - intros i c w Hi [Hc1 Hc] Hp. destruct (session_idle i c.2 (part i w) Hc Hp) as [Hn Hb]. split; [done|]. intros k _. apply Hb.
  - intros w r w' [= <- <-]. reflexivity.
Qed.

End Instance.

(** ** The file as one byte map *)
(** C26: A write to a file, split over as many chunk sessions as it touches and opening those it
    needs, leaves exactly the written bytes in the written range, no other byte of the file
    changed, and the end of the write in the live size; a write that fails has changed
    nothing outside its range and not the size. *)
Theorem file_write_exact {C W : Type} `{FileBackend C W} `{FileView C W} (cs : Z) `{!FileLaws cs}
    (f : FileReadWriter C) (w : W) (data : bytes) (off open_flags : Z) :
  0 < cs ≤ UINT32_MAX → frw_ok cs f w → 0 ≤ off ≤ INT64_MAX → zlen data < 2 ^ 64 →
  let '(r, (f', w')) := FileReadWriter_Write cs data off open_flags (f, w) in
  frw_ok cs f' w' ∧
  (∀ k, 0 ≤ k ≤ kMaxSupportedFileSize → ¬ off ≤ k < off + zlen data → fbyte cs f' w' k = fbyte cs f w k) ∧
  match r with
  | Ok _ => off + zlen data ≤ kMaxSupportedFileSize ∧ (∀ k, 0 ≤ k < zlen data → byte_at data k = Some (fbyte cs f' w' (off + k))) ∧
      frw_size f' = (if zlen data =? 0 then frw_size f else note_write (off + zlen data) (frw_size f))
  | Err _ => frw_size f' = frw_size f
  end.
Proof.
  intros Hcs Hok Ho Hd. pose proof (Write_file_spec cs Hcs f w data off open_flags Hok Ho Hd) as Hw. unfold fwp in Hw.
  by destruct (FileReadWriter_Write cs data off open_flags (f, w)) as [r [f' w']].
Qed.

(** C27: A read returns, for the part of the request below the visible size, exactly the bytes of
    the file, whichever chunk sessions and holes it crosses, and changes none of them. *)
Theorem file_read_exact {C W : Type} `{FileBackend C W} `{FileView C W} (cs : Z) `{!FileLaws cs}
    (f : FileReadWriter C) (w : W) (n off : Z) :
  0 < cs ≤ UINT32_MAX → frw_ok cs f w → 0 < n → off ≤ INT64_MAX →
  let '(r, (f', w')) := FileReadWriter_Read cs n off (f, w) in
  frw_ok cs f' w' ∧ (∀ k, 0 ≤ k ≤ kMaxSupportedFileSize → fbyte cs f' w' k = fbyte cs f w k) ∧
  ∀ out, r = Ok out → ∃ visible, cached_size (frw_size f') = Some visible ∧
    zlen out = Z.max 0 (Z.min n (visible - off)) ∧ ∀ k, 0 ≤ k < zlen out → byte_at out k = Some (fbyte cs f w (off + k)).
Proof.
  intros Hcs Hok Hn Ho. pose proof (Read_file_spec cs Hcs f w n off Hok ltac:(lia) Ho) as HR. unfold fwp in HR.
  destruct (FileReadWriter_Read cs n off (f, w)) as [r [f' w']]. destruct HR as (Hok' & Hb & Hr). split_and!; [done|done|].
  intros out Hout. destruct (Hr out Hout Hn) as (visible & Hv & Hl & Hbytes). exists visible. split_and!; [done|done|]. by rewrite Hl.
Qed.


(** *** A run over two chunks *)
#[local] Instance sample_laws : @FileLaws _ _ (slice_files 8) (slice_view 8) 8 := slice_file_laws 8 ltac:(done).
Abbreviation wr := (@FileReadWriter_Write _ _ (slice_files 8) 8 (lit "abcdefghij") 3 0).
Lemma empty_file_ok : @frw_ok _ _ (slice_view 8) 8 new_frw empty_file.
Proof.
  intros i. unfold new_frw. cbn [frw_chunks]. rewrite lookup_empty. intros _. cbn [o_ok slice_view].
  assert (part i empty_file = empty_memory []) as -> by (unfold part, empty_file; cbn [fm_parts fm_size]; by rewrite lookup_empty).
  split_and!; try done. apply chunk_inv_open. by split_and!.
Qed.
Lemma file_write_exact_witness :
  let '(r, (f', w')) := wr (new_frw, empty_file) in
  r = Ok tt ∧ @frw_ok _ _ (slice_view 8) 8 f' w' ∧ frw_size f' = mkSizeState None (Some 13) 1 1 ∧
  ∀ k, 0 ≤ k < 10 → byte_at (lit "abcdefghij") k = Some (@fbyte _ _ (slice_view 8) 8 f' w' (3 + k)).
Proof.
  assert (0 < 8 ≤ UINT32_MAX) as H1 by done. assert (0 ≤ 3 ≤ INT64_MAX) as H2 by done. assert (zlen (lit "abcdefghij") < 2 ^ 64) as H3 by done.
  pose proof (@file_write_exact _ _ (slice_files 8) (slice_view 8) 8 sample_laws new_frw empty_file (lit "abcdefghij") 3 0 H1 empty_file_ok H2 H3) as H.
  assert ((wr (new_frw, empty_file)).1 = Ok tt) as Hr by (by vm_compute).
  destruct (wr (new_frw, empty_file)) as [r [f' w']]. cbn [fst] in Hr. subst r. destruct H as (Hok & _ & _ & Hb & Hs).
  split; [reflexivity|]. split; [exact Hok|]. split; [exact Hs|exact Hb].
Defined.

(** The file after that write. *)
Definition sample_frw : FileReadWriter (Z * SliceChunk) := (wr (new_frw, empty_file)).2.1.
Definition sample_world : FileMemory := (wr (new_frw, empty_file)).2.2.
Lemma sample_ok : @frw_ok _ _ (slice_view 8) 8 sample_frw sample_world.
Proof.
  assert (0 < 8 ≤ UINT32_MAX) as H1 by done. assert (0 ≤ 3 ≤ INT64_MAX) as H2 by done. assert (zlen (lit "abcdefghij") < 2 ^ 64) as H3 by done.
  pose proof (@Write_file_spec _ _ (slice_files 8) (slice_view 8) 8 sample_laws H1 new_frw empty_file (lit "abcdefghij") 3 0 empty_file_ok H2 H3) as H.
  unfold fwp in H. unfold sample_frw, sample_world. destruct (wr (new_frw, empty_file)) as [r [f' w']]. by destruct H.
Qed.
Lemma file_read_exact_witness :
  (@FileReadWriter_Read _ _ (slice_files 8) 8 100 1 (sample_frw, sample_world)).1 = Ok ([Ascii.zero; Ascii.zero] ++ lit "abcdefghij") ∧
  ∀ k, 0 ≤ k < 12 → byte_at ([Ascii.zero; Ascii.zero] ++ lit "abcdefghij") k = Some (@fbyte _ _ (slice_view 8) 8 sample_frw sample_world (1 + k)).
Proof.
  assert (0 < 8 ≤ UINT32_MAX) as H1 by done. assert (0 < 100) as H2 by done. assert (1 ≤ INT64_MAX) as H3 by done.
  pose proof (@file_read_exact _ _ (slice_files 8) (slice_view 8) 8 sample_laws sample_frw sample_world 100 1 H1 sample_ok H2 H3) as H.
  assert ((@FileReadWriter_Read _ _ (slice_files 8) 8 100 1 (sample_frw, sample_world)).1 = Ok ([Ascii.zero; Ascii.zero] ++ lit "abcdefghij")) as Hr by (by vm_compute).
  destruct (FileReadWriter_Read 8 100 1 (sample_frw, sample_world)) as [r [f' w']]. cbn [fst] in Hr |- *. subst r. destruct H as (_ & _ & H).
  destruct (H _ eq_refl) as (visible & _ & _ & Hb). split; [reflexivity|]. intros k Hk. apply Hb. exact Hk.
Defined.
