(* ===== verification/FileCommit.v ===== *)
(** * Changing the size of an open file

    [FileReadWriter::CommitSizeChangeLocked]: whatever the metadata engine answers, the
    change afterwards happened entirely or not at all, in the metadata and in the size state
    of the inode alike, or every further operation on the inode is refused.  An answer that
    is lost is settled by reading the metadata back. *)

From stdpp Require Import gmap.
From S2P Require Import Prelude StdMap ChunkGeometry InodeTypes Acl InodeOps MetaTxn SliceChunk SliceMemory FileRw FileData FileSlices.

(** ** What the metadata engine promises *)
Section Sync.
Context {C W : Type} `{FileBackend C W} (cs now : Z) (psize : W → Z).

(** A call that leaves the persisted size alone. *)
Definition steady {A : Type} (f : W → A * W) : Prop := ∀ w, psize (f w).2 = psize w.
(** The answer may be wrong about what happened. *)
Definition ambiguous (s : Status) : bool := IsOutcomeUnknown s || (ToErrno s =? EIO).
Definition commits (n : Z) (f : W → result ChunkSizeCommitResult * W) : Prop := ∀ w,
  match (f w).1 with
  | Ok res => size (attr (csr_inode res)) = n ∧ psize (f w).2 = n
  | Err s => ambiguous s = true ∨ psize (f w).2 = psize w
  end.
Class SizeLaws : Prop := {
  sl_mappings w : psize (me_mappings w).2 = psize w ∧ ∀ snap, (me_mappings w).1 = Ok snap → size (attr (fms_inode snap)) = psize w;
  sl_setattr a fields : HasSetAttrField fields kSize = false → steady (me_setattr a fields);
  sl_sanitize b : steady (cf_sanitize b);
  sl_truncate n c : steady (ch_truncate n c);
  sl_clamp n c : steady (ch_clamp n c);
  sl_shrink plan a fields : commits (size a) (me_shrink plan a fields);
  sl_grow plan a fields : commits (size a) (me_grow plan a fields);
}.
Context `{!SizeLaws}.
Hypothesis Hcs : 0 < cs ≤ UINT32_MAX.

(** The change to [n] took place: the metadata and the inode hold [n], and no size of writes
    that are not flushed yet is left to be shown instead. *)
Definition took_place (n : Z) (st : FileReadWriter C * W) : Prop :=
  authoritative_size (frw_size st.1) = Some n ∧ live_size (frw_size st.1) = None ∧ psize st.2 = n.
(** It did not: the persisted size and the whole size state are those of before. *)
Definition left_alone (st0 st : FileReadWriter C * W) : Prop := frw_size st.1 = frw_size st0.1 ∧ psize st.2 = psize st0.2.
Definition settled (n : Z) (st0 st : FileReadWriter C * W) : Prop :=
  frw_failed_closed st.1 = true ∨ left_alone st0 st ∨ took_place n st.
Definition unsized (f : FileReadWriter C) : SizeState * bool := (frw_size f, frw_failed_closed f).

(** Steps that change neither the size state nor the persisted size. *)
Definition still {A : Type} (m : fio A) : Prop := ∀ st, unsized (m st).2.1 = unsized st.1 ∧ psize (m st).2.2 = psize st.2.
Lemma still_ret {A : Type} (a : A) : still (mret a).
Proof. done. Qed.
Lemma still_lift {A : Type} (r : result A) : still (f_lift r).
Proof. done. Qed.
Lemma still_fail_if b s : still (f_fail_if b s).
Proof. by destruct b. Qed.
Lemma still_get : still f_get.
Proof. done. Qed.
Lemma still_bind {A B : Type} (m : fio A) (f : A → fio B) : still m → (∀ a, still (f a)) → still (m ≫= f).
Proof.
  intros Hm Hf st. unfold mbind, fio_bind. specialize (Hm st). destruct (m st) as [[a|e] st']; [|done].
  destruct (Hf a st') as [E1 E2]. cbn [snd] in *. destruct Hm. split; congruence.
Qed.
Lemma still_try {A : Type} (m : fio A) : still m → still (f_try m).
Proof. intros Hm st. specialize (Hm st). unfold f_try. by destruct (m st). Qed.
Lemma still_call {A : Type} (f : W → result A * W) : steady f → still (f_call f).
Proof. intros Hf [s w]. specialize (Hf w). unfold f_call. by destruct (f w). Qed.
Lemma still_chunks f : still (f_modify (λ s, with_chunks (f s) s)).
Proof. done. Qed.
Lemma still_on_chunk i f : (∀ c, steady (f c)) → still (on_chunk i f).
Proof. intros Hf [s w]. unfold on_chunk. destruct (frw_chunks s !! i) as [c|]; [|done]. specialize (Hf c w). by destruct (f c w). Qed.
Lemma still_sanitize b : still (sanitize_boundary b).
Proof. apply still_call. intros w. pose proof (sl_sanitize b w). by destruct (cf_sanitize b w). Qed.
Lemma still_clamp i n : still (ClampCachedPublishedPrefix i n).
Proof. apply still_on_chunk. intros c. apply sl_clamp. Qed.
Lemma still_mappings : still (f_call me_mappings).
Proof. apply still_call. intros w. apply sl_mappings. Qed.

Lemma still_truncate n : still (TruncateToSize cs n).
Proof.
  unfold TruncateToSize. apply still_bind; [apply still_lift|]. intros p. apply still_bind; [apply still_chunks|]. intros _.
  apply still_on_chunk. intros c. apply sl_truncate.
Qed.
Lemma still_sanitize_clamp b : still (sanitize_and_clamp b).
Proof.
  destruct b as [b|]; [|apply still_ret]. apply still_bind; [apply still_sanitize|]. intros s. apply still_bind; [apply still_lift|]. intros _. apply still_clamp.
Qed.
Lemma still_unchanged n l : still (sanitize_unchanged cs n l).
Proof. unfold sanitize_unchanged. destruct (_ =? _); [apply still_ret|]. destruct (List.find _ _); [apply still_sanitize_clamp|apply still_ret]. Qed.
Lemma fwp_still {A : Type} (m : fio A) (Q : result A → FileReadWriter C * W → Prop) st :
  still m → (∀ r st', unsized st'.1 = unsized st.1 → psize st'.2 = psize st.2 → Q r st') → fwp m Q st.
Proof. intros Hm HQ. destruct (Hm st) as [E1 E2]. unfold fwp. destruct (m st) as [r st']. by apply HQ. Qed.

(** The size state a committed change leaves. *)
Definition resized (n : Z) (f f' : FileReadWriter C) : Prop := unsized f' = (reset_size n (frw_size f), frw_failed_closed f).
Lemma apply_size_spec n st :
  0 ≤ n ≤ kMaxSupportedFileSize → fwp (apply_size cs n) (λ r st', r = Ok tt ∧ resized n st.1 st'.1 ∧ psize st'.2 = psize st.2) st.
Proof.
  intros Hn. unfold apply_size. apply fwp_bind.
  assert ((TruncateToSize cs n st).1 = Ok tt) as Hok.
  { unfold TruncateToSize, mbind, fio_bind, f_lift, CalculateChunkPosition. rewrite (proj2 (Z.ltb_ge n 0)), (proj2 (Z.eqb_neq cs 0)) by lia. cbn [orb fst snd f_modify].
    unfold on_chunk. destruct (_ !! _) as [c|]; [|done]. by destruct (ch_truncate _ _ _). }
  unfold fwp at 1. pose proof (still_truncate n st) as [E1 E2]. destruct (TruncateToSize cs n st) as [r [f1 w1]]. cbn [fst snd] in *. subst r.
  injection E1 as E1 E1'. unfold fwp, f_size, f_modify. cbn [fst snd]. split_and!; [done| |done]. unfold resized, unsized. cbn. by rewrite E1, E1'.
Qed.

Lemma settled_still n st0 st st' : settled n st0 st → unsized st'.1 = unsized st.1 → psize st'.2 = psize st.2 → settled n st0 st'.
Proof. intros Hs E Ep. injection E as E1 E2. unfold settled, left_alone, took_place in *. by rewrite E1, E2, Ep. Qed.
Lemma settled_refl n st : settled n st st.
Proof. right. by left. Qed.
Lemma settled_resized n f st0 st' : resized n f st'.1 → psize st'.2 = n → settled n st0 st'.
Proof. unfold resized. intros E Ep. injection E as E1 E2. right. right. unfold took_place. by rewrite E1. Qed.

Lemma reconcile_spec before plan shrinking st0 st :
  0 ≤ target_eof plan ≤ kMaxSupportedFileSize → frw_size st.1 = frw_size st0.1 → size (attr (fms_inode before)) = psize st0.2 →
  fwp (reconcile cs before plan shrinking) (λ _ st', settled (target_eof plan) st0 st') st.
Proof.
  intros Ht Hsz Hb. unfold reconcile. apply fwp_bind.
  destruct st as [f w]. destruct (sl_mappings w) as [Ep Hsnap]. unfold fwp at 1, f_try, f_call. destruct (me_mappings w) as [r w1]. cbn [fst snd] in *.
  destruct r as [observed|e]; [|by left]. specialize (Hsnap observed eq_refl). destruct (PlanChunkSizeLayout _ cs) as [layout|e]; [|by left].
  unfold classify. destruct ((size (attr (fms_inode observed)) =? target_eof plan) && _) eqn:Ec.
  - apply andb_true_iff in Ec as [Ec%Z.eqb_eq _]. apply fwp_bind. eapply fwp_mono; [|apply apply_size_spec; lia].
    intros r [f2 w2] (-> & Hr & Ep2). cbn [fst snd] in *. rewrite Ec in Hr.
    assert (settled (target_eof plan) st0 (f2, w2)) as Hs by (eapply settled_resized; [exact Hr|cbn; lia]).
    destruct (plan_boundary plan) as [b|]; [|exact Hs]. destruct (_ && _); [|exact Hs]. apply fwp_bind. apply fwp_still; [apply still_sanitize|].
    intros r st' E1 E2. destruct r as [status|e]; [|by eapply settled_still]. destruct (ok status).
    + apply fwp_still; [apply still_clamp|]. intros r st2 E1' E2'. eapply settled_still; [exact Hs|congruence|congruence].
    + by left.
  - destruct ((size (attr (fms_inode observed)) =? size (attr (fms_inode before))) && _) eqn:Eu; unfold fwp; cbn; [|by left].
    apply andb_true_iff in Eu as [Eu%Z.eqb_eq _]. right. left. split; cbn; [done|congruence].
Qed.
Lemma plan_target old new l plan : PlanChunkSizeChange old new cs l = Ok plan → target_eof plan = new ∧ old ≤ kMaxSupportedFileSize ∧ new ≤ kMaxSupportedFileSize.
Proof.
  unfold PlanChunkSizeChange. destruct (_ || _) eqn:E; [done|]. rewrite !orb_false_iff in E. destruct E as [[_ E1] E2].
  intros Hp. split; [|zlia]. destruct (NormalizeMappings cs l); [|done]. cbn in Hp. destruct (PlanChunkSizeLayout old cs); [|done]. cbn in Hp.
  destruct (new <? old); [destruct (PlanChunkSizeLayout new cs); [|done]; cbn in Hp; by injection Hp as <-|]. destruct (new >? old); by injection Hp as <-.
Qed.

Lemma change_size_spec before requested fields st :
  0 ≤ size requested → size (attr (fms_inode before)) = psize st.2 → frw_failed_closed st.1 = false →
  fwp (change_size cs before requested fields) (λ r st', (∀ e, r = Err e → settled (size requested) st st') ∧
    ∀ inode, r = Ok inode → psize st'.2 = size requested ∧ frw_failed_closed st'.1 = false) st.
Proof.
  intros Hn Hb Hcl. unfold change_size. apply fwp_bind. unfold fwp at 1, f_lift.
  destruct (PlanChunkSizeChange _ _ _ _) as [plan|e] eqn:Eplan; [|split; [intros; apply settled_refl|done]]. destruct (plan_target _ _ _ _ Eplan) as (Et & ? & ?).
  set (shrinking := size requested <? size (attr (fms_inode before))) in *.
  apply fwp_bind. apply fwp_still. { destruct shrinking; [apply still_ret|apply still_sanitize_clamp]. }
  intros r st1 E1 Ep1. assert (settled (size requested) st st1) as Hs1 by (eapply settled_still; [apply settled_refl|done|done]). destruct r as [[]|e]; [|by split].
  apply fwp_bind. destruct st1 as [f1 w1]. unfold fwp at 1, f_try, f_call.
  assert (commits (size requested) (if shrinking then me_shrink plan requested fields else me_grow plan requested fields)) as Hcom
    by (destruct shrinking; [apply sl_shrink|apply sl_grow]).
  specialize (Hcom w1). destruct ((if shrinking then me_shrink plan requested fields else me_grow plan requested fields) w1) as [r w2]. cbn [fst snd] in *.
  injection E1 as E1 E1'. destruct r as [res|e].
  - destruct Hcom as [Hres Hp]. apply fwp_bind.
    assert (fwp (if shrinking then match plan_boundary plan with None => mret tt | Some boundary => apply_size cs (size (attr (csr_inode res))) ≫= (λ _, sanitize_and_clamp (Some boundary)) end else mret tt)
      (λ r st', psize st'.2 = size requested ∧ frw_failed_closed st'.1 = false ∧ ∀ e, r = Err e → settled (size requested) st st') (f1, w2)) as Hmid.
    { destruct shrinking; [|split_and!; [done|cbn; congruence|done]]. destruct (plan_boundary plan) as [b|]; [|split_and!; [done|cbn; congruence|done]].
      apply fwp_bind. eapply fwp_mono; [|apply apply_size_spec; lia]. intros r [f3 w3] (-> & Hr & Ep3). cbn [fst snd] in *.
      pose proof (settled_resized (size requested) f1 st (f3, w3)) as Hs3. unfold resized in Hr. injection Hr as Er Er'.
      apply fwp_still; [apply still_sanitize_clamp|]. intros r st4 E4 Ep4. cbn [fst snd] in *. pose proof E4 as E4'. injection E4' as _ E5. split_and!; [congruence|congruence|].
      intros e _. eapply settled_still; [apply Hs3; [unfold resized, unsized; rewrite Er, Er', Hres; done|cbn; congruence]|exact E4|exact Ep4]. }
    eapply fwp_mono; [|exact Hmid]. intros r st' (Hp' & Hcl' & He). destruct r as [[]|e].
    + split; [done|]. intros inode _. done.
    + split; [intros e' _; by eapply He|done].
  - apply fwp_bind. destruct (IsOutcomeUnknown e || (ToErrno e =? EIO)) eqn:Ea.
    + rewrite <- Et. eapply fwp_mono; [|apply (reconcile_spec before plan shrinking st); [lia|cbn; congruence|done]].
      intros r st' Hs'. destruct r as [[]|e']; by split.
    + destruct Hcom as [Ha|Hp]; [unfold ambiguous in Ha; congruence|]. split; [|done]. intros e' _. eapply (settled_still _ st (f1, w1)); [exact Hs1|done|exact Hp].
Qed.

Lemma no_size_field fields : HasSetAttrField (Z.land fields (Z.lnot kSize)) kSize = false ∧ HasSetAttrField (Z.lor (Z.land fields (Z.lnot kSize)) kMtimeNow) kSize = false.
Proof.
  assert (Z.land (Z.land fields (Z.lnot kSize)) kSize = 0) as E by (rewrite <- Z.land_assoc, (Z.land_comm (Z.lnot kSize)), Z.land_lnot_diag; apply Z.land_0_r).
  unfold HasSetAttrField, has_bits. rewrite Z.land_lor_distr_l, E. done.
Qed.
Lemma keep_size_still before requested fields : still (keep_size cs before requested fields).
Proof.
  unfold keep_size. apply still_bind; [|intros inode; apply still_bind; [apply still_unchanged|intros _; apply still_ret]].
  apply still_call, sl_setattr. destruct (no_size_field fields). by destruct (_ || _).
Qed.

Lemma CommitSizeChangeLocked_spec requested fields st :
  0 ≤ size requested ≤ kMaxSupportedFileSize →
  fwp (CommitSizeChangeLocked cs now requested fields) (λ r st', settled (size requested) st st' ∧ ∀ inode, r = Ok inode →
    frw_failed_closed st'.1 = false ∧ took_place (size requested) st') st.
Proof.
  intros Hn. unfold CommitSizeChangeLocked, CheckSizeCommitSafety. apply fwp_bind, fwp_bind. unfold fwp at 1, f_get. cbn [fst].
  apply fwp_fail_if; intros Hcl; [split; [by left|done]|]. apply fwp_bind. destruct st as [f w]. cbn [fst] in Hcl. unfold fwp at 1, f_call.
  destruct (sl_mappings w) as [Ep Hsnap]. destruct (me_mappings w) as [r w1]. cbn [fst snd] in *.
  assert (∀ st', settled (size requested) (f, w1) st' → settled (size requested) (f, w) st') as Hfrom by (intros st'; unfold settled, left_alone; cbn; by rewrite Ep).
  assert (settled (size requested) (f, w) (f, w1)) as Hs1 by apply Hfrom, settled_refl. destruct r as [before|e]; [|by split]. specialize (Hsnap before eq_refl).
  apply fwp_bind. unfold fwp at 1, f_lift. destruct (PrepareSetAttrMutation _ _ _ _) as [validated|e]; [|by split]. apply fwp_bind.
  eapply (fwp_mono _ (λ r st', (∀ e, r = Err e → settled (size requested) (f, w1) st') ∧ ∀ inode, r = Ok inode → psize st'.2 = size requested ∧ frw_failed_closed st'.1 = false)).
  - intros r st' [He Hok]. destruct r as [inode|e]; [|split; [by eapply Hfrom, He|done]]. destruct (Hok inode eq_refl) as [Hp Hcl'].
    apply fwp_bind. eapply fwp_mono; [|by apply apply_size_spec]. intros r st2 (-> & Hr & Ep2).
    unfold fwp, mret, fio_ret. split; [eapply settled_resized; [exact Hr|congruence]|]. intros inode' _. unfold resized in Hr. injection Hr as E1 E2.
    split; [congruence|]. unfold took_place. rewrite E1. cbn. split_and!; [done|done|congruence].
  - destruct (Z.eqb_spec (size requested) (size (attr (fms_inode before)))) as [Esz|Hne].
    + apply fwp_still; [apply keep_size_still|]. intros r st' E1 E2. cbn [fst snd] in *.
      split; [intros e _; eapply (settled_still _ (f, w1) (f, w1)); [apply settled_refl|done|done]|]. intros inode _. injection E1 as _ E1. split; congruence.
    + apply change_size_spec; [lia|cbn; congruence|done].
Qed.

End Sync.

(** C29: A size change, whatever the metadata engine answers, is settled when it returns.  Either
    it took place: the persisted size and the size the inode shows are the requested one and no
    live size of earlier writes is left.  Or nothing happened: the persisted size and the whole
    size state of the inode, live size included, are those of before.  Or the inode failed closed
    and refuses every further operation.  A lost reply is settled by reading the metadata back,
    and a success means that the change took place. *)
Theorem size_change_settled {C W : Type} `{FileBackend C W} (cs now : Z) (psize : W → Z) `{!SizeLaws psize}
    (requested : SwordFsAttr) (fields : Z) (f : FileReadWriter C) (w : W) :
  0 < cs ≤ UINT32_MAX → 0 ≤ size requested ≤ kMaxSupportedFileSize →
  let '(r, (f', w')) := CommitSizeChangeLocked cs now requested fields (f, w) in
  settled psize (size requested) (f, w) (f', w') ∧
  ∀ inode, r = Ok inode → frw_failed_closed f' = false ∧ took_place psize (size requested) (f', w').
Proof.
  intros Hcs Hn. pose proof (CommitSizeChangeLocked_spec cs now psize Hcs requested fields (f, w) Hn) as HC. unfold fwp in HC.
  by destruct (CommitSizeChangeLocked cs now requested fields (f, w)) as [r [f' w']].
Qed.

(** ** Failing closed *)
Inductive file_op :=
  | OpWrite (data : bytes) (off open_flags : Z) | OpRead (n off : Z) | OpGetAttr | OpFlush
  | OpSetInodeFlags (flags : Z) | OpTruncate (n : Z) | OpSetAttr (attr : SwordFsAttr) (fields : Z).
Definition run_op {C W : Type} `{FileBackend C W} (cs now : Z) (o : file_op) : fio (C := C) (W := W) unit :=
  match o with
  | OpWrite data off flags => FileReadWriter_Write cs data off flags
  | OpRead n off => _ ← FileReadWriter_Read cs n off; mret tt
  | OpGetAttr => _ ← FileReadWriter_GetAttr; mret tt
  | OpFlush => FileReadWriter_Flush
  | OpSetInodeFlags flags => _ ← FileReadWriter_SetInodeFlags flags; mret tt
  | OpTruncate n => FileReadWriter_Truncate cs now n
  | OpSetAttr a fields => _ ← FileReadWriter_SetAttr cs now a fields; mret tt
  end.
(** C30: Once a size change could not be settled, no operation on the inode succeeds or touches
    the sessions, the size state, the store or the metadata. *)
Theorem closed_refuses {C W : Type} `{FileBackend C W} (cs now : Z) (o : file_op) (f : FileReadWriter C) (w : W) :
  frw_failed_closed f = true → ∃ e, run_op cs now o (f, w) = (Err e, (f, w)).
Proof.
  intros Hcl. destruct o; cbn [run_op]; unfold FileReadWriter_Write, FileReadWriter_Read, FileReadWriter_GetAttr, FileReadWriter_Flush, FlushPendingWritesLocked,
    FileReadWriter_SetInodeFlags, FileReadWriter_Truncate, FileReadWriter_SetAttr, CommitSizeChangeLocked, CheckSizeCommitSafety, mbind, fio_bind, f_get, f_fail_if, f_fail, mret, fio_ret;
    cbn [fst snd]; rewrite ?Hcl; try (by eexists).
  - destruct (negb (HasOnlySupportedInodeFlags _)); [by eexists|]. cbn [fst snd]. rewrite Hcl. by eexists.
  - destruct (_ >? _); [by eexists|]. cbn [fst snd]. rewrite Hcl. by eexists.
Qed.

(** *** The file of FileSlices.v *)
Lemma capture_size cs n s m : mm_size (CaptureBoundary cs n (s, m)).2.2 = mm_size m.
Proof.
  unfold CaptureBoundary, mapped_records, mbind, io_bind, io_try, call, mret, io_ret, io_modify, io_lift, io_fail. cbn. 
  destruct (mm_chunk m) as [c|]; cbn; [|done]. unfold answer. cbn. destruct (bool_decide _); cbn; [|done]. by destruct (default [] _).
Qed.
#[local] Instance slice_size_laws cs : @SizeLaws _ _ (slice_files cs) fm_size.
Proof.
  split.
  - intros w. split; [done|]. by intros snap [= <-].
  - done.
  - intros b w. cbn. unfold zero_cover. case_bool_decide; [|done]. cbn. unfold answer. by destruct (bool_decide _).
  - intros n [i s] w. cbn. unfold on_part, TruncateLocal, mbind, io_bind. pose proof (capture_size cs n s (part i w)) as E.
    destruct (CaptureBoundary cs n (s, part i w)) as [[[]|e] [s1 m1]]; cbn in *; exact E.
  - intros n [i s] w. cbn. unfold on_part, ClampPublishedPrefix. pose proof (capture_size cs n s (part i w)) as E.
    destruct (CaptureBoundary cs n (s, part i w)) as [r [s1 m1]]; cbn in *; exact E.
  - intros plan a fields w. by split.
  - intros plan a fields w. by split.
Qed.
(** Truncating the two-chunk file of FileSlices.v into its second chunk. *)
Definition truncated : result SwordFsInode * (FileReadWriter (Z * SliceChunk) * FileMemory) :=
  @CommitSizeChangeLocked _ _ (slice_files 8) 8 77 (set_size 9 empty_attr) kSize (sample_frw, sample_world).
Lemma size_change_settled_witness :
  let '(r, (f', w')) := truncated in
  match r with Ok _ => True | Err _ => False end ∧ fm_size w' = 9 ∧ authoritative_size (frw_size f') = Some 9 ∧ live_size (frw_size f') = None.
Proof.
  assert (0 < 8 ≤ UINT32_MAX) as H1 by done. assert (0 ≤ size (set_size 9 empty_attr) ≤ kMaxSupportedFileSize) as H2 by done.
  pose proof (@size_change_settled _ _ (slice_files 8) 8 77 fm_size (slice_size_laws 8) (set_size 9 empty_attr) kSize sample_frw sample_world H1 H2) as H.
  assert (match truncated.1 with Ok _ => True | Err _ => False end) as Hr by (by vm_compute). fold truncated in H.
  destruct truncated as [r [f' w']]. cbn [fst] in Hr. destruct r as [inode|]; [|done]. destruct H as [_ Hok]. destruct (Hok inode eq_refl) as (_ & Ha & Hl & Hp).
  split; [exact I|]. split; [exact Hp|]. split; [exact Ha|exact Hl].
Defined.
Lemma closed_refuses_witness :
  ∃ e, @run_op _ _ (slice_files 8) 8 77 (OpRead 4 0) (fail_closed sample_frw, sample_world) = (Err e, (fail_closed sample_frw, sample_world)).
Proof. exact (@closed_refuses _ _ (slice_files 8) 8 77 (OpRead 4 0) (fail_closed sample_frw) sample_world eq_refl). Defined.
