(* ===== verification/CowFiles.v ===== *)
(** * Files of copy-on-write chunks

    The laws of FileData.v hold for copy-on-write sessions over the in-memory backend, whose
    calls may fail as scripted: what FileSlices.v proves of the file path holds for both
    mechanisms a volume can be formatted with. *)

From stdpp Require Import gmap.
From S2P Require Import Prelude RedisKv Decimal StdMap ChunkGeometry InodeTypes Acl InodeOps Records MetaTxn MetaEngine StateIo CowChunk CowLocal CowPublished CowFlush CowSession CowMemory ChunkFactory CowOpen ChunkBoundary CowFrame FileRw FileData FileSlices.

(** The chunks of one file; they share its size.  Every chunk has a store of its own: heads,
    objects and identities of different chunks have different keys in the code. *)
Record FileCow := mkFileCow { fc_size : Z; fc_parts : gmap Z CowMemory }.
Definition resized (n : Z) (m : CowMemory) : CowMemory :=
  mkCowMemory (bind_chunk (cv_chunk (cm_store m)) n (cm_store m)) (cm_faults m) (cm_incoming m) (cm_delivered m) (cm_arrived m).
Definition cpart (i : Z) (w : FileCow) : CowMemory := resized (fc_size w) (default (empty_cow 0 [] []) (fc_parts w !! i)).
Definition cput (i : Z) (m : CowMemory) (w : FileCow) : FileCow := mkFileCow (cv_size (cm_store m)) (<[i := m]> (fc_parts w)).
Definition status_of {A : Type} (r : result A) : Status := match r with Ok _ => OK | Err OK => Internal | Err e => e end.
Definition cow_mappings (w : FileCow) : list ChunkMapping :=
  omap (λ x, mkChunkMapping x.1 <$> cv_chunk (cm_store x.2)) (map_to_list (fc_parts w)).
Definition cow_detach_past (cs n : Z) (w : FileCow) : FileCow := mkFileCow n (filter (λ x : Z * CowMemory, x.1 * cs < n) (fc_parts w)).

Section Instance.
Context (cs : Z) (fresh_memory : nat → bytes).

Definition on_cpart {A : Type} (i : Z) (m : sio (COWChunk * CowMemory) A) (s : COWChunk) (w : FileCow) : result A * (COWChunk * FileCow) :=
  let '(r, (s', m')) := m (s, cpart i w) in (r, (s', cput i m' w)).
#[export] Instance cow_files : FileBackend (Z * COWChunk) FileCow := {|
  ch_read offset len c w := let '(r, (_, w')) := on_cpart c.1 (COWChunk_Read cs offset len) c.2 w in (r, w');
  ch_write offset data c w := let '(r, (s, w')) := on_cpart c.1 (COWChunk_Write cs fresh_memory offset data) c.2 w in (status_of r, ((c.1, s), w'));
  ch_flush c w := let '(r, (s, w')) := on_cpart c.1 (COWChunk_Flush c.1 cs fresh_memory) c.2 w in (status_of r, ((c.1, s), w'));
  ch_truncate n c w := ((c.1, COWChunk_TruncateLocal n c.2), w);
  ch_clamp n c w := ((c.1, ClampPublishedPrefixLocked n c.2), w);
  ch_pending c := COWChunk_HasPendingWrites c.2;
  cf_open i create w := let '(r, m) := OpenCow cs fresh_memory i create (cpart i w) in
                        (match r with Ok c => Ok (pair i <$> c) | Err e => Err e end, cput i m w);
  cf_sanitize b w := let i := rcb_index b in
                     let '(r, m) := SanitizeCOWBoundaryImpl cm_probe (S (length (cm_faults (cpart i w)))) b (cpart i w) in (status_of r, cput i m w);
  me_inode w := (Ok (cm_inode (fc_size w)), w);
  me_setattr _ _ w := (Ok (cm_inode (fc_size w)), w);
  me_setflags _ w := (Ok (cm_inode (fc_size w)), w);
  me_mappings w := (Ok (mkMappingSnapshot (cm_inode (fc_size w)) (cow_mappings w)), w);
  me_shrink p a _ w := (Ok (mkCommitResult (cm_inode (size a)) (plan_boundary p) []), cow_detach_past cs (size a) w);
  me_grow p a _ w := (Ok (mkCommitResult (cm_inode (size a)) (plan_boundary p) []), mkFileCow (size a) (fc_parts w));
|}.

Definition quiet (m : CowMemory) : Prop := cm_incoming m = [].
(** The head ends within the file. *)
Definition tight (i : Z) (v : CowStore) : Prop :=
  ∀ id h, cv_chunk v = Some id → cv_head v !! id = Some h → head_size h ≤ Z.max 0 (cv_size v - i * cs).
Definition cow_open_ok (i : Z) (m : CowMemory) : Prop := store_ok cs (cm_store m) ∧ tight i (cm_store m) ∧ quiet m.
Definition cow_session (i : Z) (s : COWChunk) (m : CowMemory) : Prop :=
  cow_inv cs s (cm_store m) ∧ cc_state s ≠ kFlushing ∧ quiet m ∧
  (cc_state s = kClean → tight i (cm_store m) ∧ ∀ id h, cv_chunk (cm_store m) = Some id → cv_head (cm_store m) !! id = Some h → head_size h ≤ cc_visible_prefix s) ∧
  (cc_state s = kDirty → buffered s = 0 → cv_chunk (cm_store m) = None).
#[export] Instance cow_file_view : FileView (Z * COWChunk) FileCow := {|
  cbyte i c w k := cow_byte c.2 (cm_store (cpart i w)) k;
  sbyte w i k := cow_published (i * cs) (cm_store (cpart i w)) k;
  c_ok i c w := c.1 = i ∧ cow_session i c.2 (cpart i w);
  o_ok i w := cow_open_ok i (cpart i w);
|}.

(** ** Frames *)
Hypothesis Hcs : 0 < cs ≤ UINT32_MAX.
Hypothesis Hmem : ∀ n, cs ≤ zlen (fresh_memory n).
Definition cow_apart (m m' : CowMemory) : Prop :=
  cv_size (cm_store m) ≤ cv_size (cm_store m') ∧ (quiet m → quiet m' ∧ cm_arrived m' = cm_arrived m).
#[local] Instance cow_apart_preorder : PreOrder cow_apart.
Proof.
  split; [by intros m; split|]. intros m1 m2 m3 [S1 A1] [S2 A2]. split; [lia|]. intros [H1 E1]%A1. destruct (A2 H1) as [H2 E2]. split; [done|congruence].
Qed.
Lemma advance_apart v m : cv_size (cm_store m) ≤ cv_size v → cow_apart m (advance v m).
Proof. intros Hs. split; [done|]. unfold quiet, advance. cbn. intros ->. cbn. by rewrite app_nil_r. Qed.
Lemma cm_reply_apart {A : Type} ok (a : A) v m : cv_size (cm_store m) ≤ cv_size v → cow_apart m (cm_reply ok a v m).2.
Proof. intros Hs. unfold cm_reply. destruct (head _) as [[[e applied]|]|], ok; try destruct applied; by apply advance_apart. Qed.
Lemma cm_find_apart {A : Type} (a : option A) m : cow_apart m (cm_find a m).2.
Proof. unfold cm_find. destruct a; [by apply cm_reply_apart|by apply advance_apart]. Qed.
#[local] Instance cow_memory_apart : CowCallsRespect cow_apart.
Proof. split; intros; intros m; first [apply cm_find_apart|apply cm_reply_apart; cbn; lia]. Qed.
Lemma OpenCow_apart i create m : cow_apart m (OpenCow cs fresh_memory i create m).2.
Proof.
  unfold OpenCow, mbind, sio_bind, s_try, on_world. pose proof (cc_snapshot cow_apart m) as H1. destruct (cb_snapshot m) as [[file|e] m1]; cbn [snd] in *; [|done].
  destruct (fcs_chunk_id file) as [id|]; [|done]. pose proof (cc_head cow_apart id m1) as H2. destruct (cb_head id m1) as [r m2]; cbn [snd] in *.
  assert (cow_apart m m2) as H12 by (by etrans). destruct r as [h|e]; [|by destruct e]. unfold s_fail_if. destruct (_ || _); [done|]. cbn. unfold s_lift. by destruct (CalculateChunkStartOffset i cs).
Qed.

Lemma cpart_put_eq i m w : cpart i (cput i m w) = m.
Proof. unfold cpart, cput. cbn [fc_parts fc_size]. rewrite lookup_insert_eq. cbn. destruct m as [[] ? ? ? ?]. done. Qed.
Lemma cpart_put_ne i j m w : j ≠ i → cpart j (cput i m w) = resized (cv_size (cm_store m)) (cpart j w).
Proof. intros Hne. unfold cpart, cput. cbn [fc_parts fc_size]. by rewrite lookup_insert_ne. Qed.
Lemma resized_settles n m : cv_size (cm_store m) ≤ n → cow_settles (cm_store m) (cm_store (resized n m)).
Proof. intros. by split. Qed.
Lemma tight_settles i v v' : tight i v → cow_settles v v' → tight i v'.
Proof. intros Ht Hs id h. rewrite (ct_chunk _ _ Hs), (ct_head _ _ Hs). intros H1 H2. specialize (Ht id h H1 H2). pose proof (ct_size _ _ Hs). lia. Qed.
Lemma session_moves i s m m' :
  cow_session i s m → cow_settles (cm_store m) (cm_store m') → (quiet m → quiet m') →
  cow_session i s m' ∧ ∀ k, cow_byte s (cm_store m') k = cow_byte s (cm_store m) k.
Proof.
  intros (Hinv & Hne & Hq & Hcl & Hd) Hs Hqq. split; [|intros k; apply (cow_byte_settles cs); [apply Hinv|done]]. split_and!; auto.
  - by eapply cow_inv_settles.
  - intros Hc. destruct (Hcl Hc) as [Ht Hv]. split; [by eapply tight_settles|]. intros id h. rewrite (ct_chunk _ _ Hs), (ct_head _ _ Hs). apply Hv.
  - intros E1 E2. rewrite (ct_chunk _ _ Hs). auto.
Qed.
Lemma open_moves i m m' :
  cow_open_ok i m → cow_settles (cm_store m) (cm_store m') → (quiet m → quiet m') →
  cow_open_ok i m' ∧ ∀ k, cow_published (i * cs) (cm_store m') k = cow_published (i * cs) (cm_store m) k.
Proof.
  intros (Hok & Ht & Hq) Hs Hqq. split; [split_and!; [by eapply settles_store_ok|by eapply tight_settles|auto]|]. intros k. unfold cow_published.
  rewrite (settles_content cs _ _ Hs Hok). pose proof (ct_size _ _ Hs). destruct (Z.ltb_spec k (cv_size (cm_store m) - i * cs)), (Z.ltb_spec k (cv_size (cm_store m') - i * cs)); try done; [lia|].
  unfold cow_content. destruct (cv_chunk (cm_store m)) as [id|] eqn:Hid; [|done]. cbn. unfold head_content. destruct (cv_head (cm_store m) !! id) as [h|] eqn:Hh; [|done].
  cbn [mbind option_bind]. destruct (cv_object _ !! _) as [o|]; [|done]. cbn [mbind option_bind]. rewrite byte_at_take. specialize (Ht id h Hid Hh).
  destruct (Z.ltb_spec k (head_size h)); [|done]. rewrite byte_at_outside; [done|lia].
Qed.
(** The parts that were not called only see the file grow. *)
Lemma cput_calm_on (P : Z → Prop) i m w :
  cow_apart (cpart i w) m → (P i → cow_settles (cm_store (cpart i w)) (cm_store m)) → calm_on cs P w (cput i m w).
Proof.
  intros Hap Hs j HP. assert (cow_settles (cm_store (cpart j w)) (cm_store (cpart j (cput i m w))) ∧ (quiet (cpart j w) → quiet (cpart j (cput i m w)))) as [Hs' Hq'].
  { destruct (decide (j = i)) as [->|Hne]; [rewrite cpart_put_eq; split; [by apply Hs|intros Hq; by destruct (proj2 Hap Hq)]|].
    rewrite cpart_put_ne by done. split; [|done]. apply resized_settles. apply Hap. }
  cbn. split_and!.
  - intros Ho. by destruct (open_moves j _ _ Ho Hs' Hq').
  - intros k _ Ho. destruct (open_moves j _ _ Ho Hs' Hq') as [_ Hk]. apply Hk.
  - intros c [Hc1 Hc]. destruct (session_moves j c.2 _ _ Hc Hs' Hq') as [? Hk]. split; [done|]. intros k _. apply Hk.
Qed.
(** ** The laws *)
Lemma cow_session_read i s m offset len r s' m' :
  cow_session i s m → 0 ≤ offset → 0 < len → COWChunk_Read cs offset len (s, m) = (r, (s', m')) →
  cow_apart m m' ∧ cow_settles (cm_store m) (cm_store m') ∧ ∀ out, r = Ok out → zlen out = len ∧ ∀ k, 0 ≤ k < len → byte_at out k = Some (cow_byte s (cm_store m) (offset + k)).
Proof.
  intros (Hinv & _) Ho Hl E. pose proof (COWChunk_Read_preserves cs cow_apart offset len (s, m)) as Hk. rewrite E in Hk. cbn [snd] in Hk.
  pose proof (COWChunk_Read_spec cs s m offset len Hinv Ho ltac:(lia)) as HR. unfold swp in HR. rewrite E in HR. destruct HR as (_ & Hs & Hout). by split_and!.
Qed.
Lemma cow_session_write i s m offset data r s' m' :
  cow_session i s m → 0 ≤ offset → 0 < zlen data → offset + zlen data ≤ cs → COWChunk_Write cs fresh_memory offset data (s, m) = (r, (s', m')) →
  cow_apart m m' ∧ cow_settles (cm_store m) (cm_store m') ∧ cow_session i s' m' ∧
  ∀ k, 0 ≤ k → cow_byte s' (cm_store m') k = if ok (status_of r) && (offset <=? k) && (k <? offset + zlen data) then default Ascii.zero (byte_at data (k - offset)) else cow_byte s (cm_store m) k.
Proof.
  intros Hses Ho Hd Hin E. pose proof Hses as (Hinv & Hne & Hq & Hcl & Hdt). pose proof (COWChunk_Write_preserves cs fresh_memory cow_apart offset data (s, m)) as Hk. rewrite E in Hk. cbn [snd] in Hk.
  pose proof (COWChunk_Write_spec cs fresh_memory ltac:(lia) Hmem s m offset data Hinv Ho) as HW. unfold swp in HW. rewrite E in HW. destruct HW as [Hs HW]. cbn [fst snd] in *.
  assert (quiet m → quiet m') as Hqq by (intros; by apply Hk). split_and!; [done|done|..].
  - destruct r as [u|e]; [|subst s'; by destruct (session_moves i s m m' Hses Hs Hqq)]. destruct HW as (_ & Hinv' & Hst & Hbuf & _).
    split_and!; [done|rewrite Hst; by case_bool_decide|auto| |].
    + rewrite Hst. case_bool_decide; [done|]. by destruct (cc_state s).
    + intros _ Hz. lia.
  - destruct r as [u|e].
    + destruct HW as (Hfit & _ & _ & _ & Hby). intros k Hk0. rewrite Hby by done. unfold write_over, fits. cbn [fst snd status_of ok]. unfold in_bounds in Hfit. rewrite Hfit. cbn [andb].
      destruct (Z.leb_spec offset k), (Z.ltb_spec k (offset + zlen data)); cbn [andb]; try done. by destruct (byte_at_inside data (k - offset)) as [x ->]; [lia|].
    + subst s'. intros k _. destruct (session_moves i s m m' Hses Hs Hqq) as [_ ->]. assert (ok (status_of (Err (A := unit) e)) = false) as -> by (by destruct e). done.
Qed.
Lemma flushed_published i b v k : buf_ok cs b → cow_content v = Some (buf_bytes b) → i * cs + wb_size b ≤ cv_size v → 0 ≤ k →
  cow_published (i * cs) v k = local_byte b k.
Proof.
  intros Hb Hc Hs Hk. unfold cow_published, local_byte. rewrite Hc. cbn [mbind option_bind]. destruct (Z.ltb_spec k (cv_size v - i * cs)); [done|].
  rewrite byte_at_outside; [done|]. rewrite (visible_zlen cs ltac:(lia) b Hb). lia.
Qed.
Lemma content_tight i b v : buf_ok cs b → store_ok cs v → cow_content v = Some (buf_bytes b) → i * cs + wb_size b ≤ cv_size v →
  tight i v ∧ ∀ id h, cv_chunk v = Some id → cv_head v !! id = Some h → head_size h = wb_size b.
Proof.
  intros Hb Hok Hc Hs. assert (∀ id h, cv_chunk v = Some id → cv_head v !! id = Some h → head_size h = wb_size b) as Hsz.
  { intros id h Hid Hh. destruct (so_head _ _ Hok id h Hh) as (_ & _ & _ & Hr & o & Ho & Hlen). unfold cow_content, head_content in Hc. rewrite Hid in Hc. cbn [mbind option_bind] in Hc.
    rewrite Hh in Hc. cbn [mbind option_bind] in Hc. rewrite Ho in Hc. cbn [mbind option_bind] in Hc. injection Hc as Hc. apply (f_equal zlen) in Hc.
    rewrite (visible_zlen cs ltac:(lia) b Hb) in Hc. unfold zlen in *. rewrite length_take in Hc. lia. }
  split; [|done]. intros id h Hid Hh. rewrite (Hsz id h Hid Hh). lia.
Qed.
Lemma cow_session_idle i s m :
  cow_session i s m → COWChunk_HasPendingWrites s = false → cow_open_ok i m ∧ ∀ k, 0 ≤ k → cow_published (i * cs) (cm_store m) k = cow_byte s (cm_store m) k.
Proof.
  intros (Hinv & Hne & Hq & Hcl & Hd) Hp. pose proof Hinv as [Hcok Hok Hlink]. destruct (cc_state s) eqn:Est; [|done|].
  - assert (buffered s = 0) as Hz.
    { destruct (held_buf cs s Hcok ltac:(by rewrite Est)) as (a & b & _ & _ & Hb & [? _]). unfold COWChunk_HasPendingWrites in Hp. rewrite Est, Hb, bool_decide_eq_false_2 in Hp by done.
      unfold buffered. rewrite Hb. cbn in Hp. zlia. }
    specialize (Hd eq_refl Hz). split; [split_and!; [done|intros id h; by rewrite Hd|done]|]. intros k Hk. unfold cow_published, cow_content, cow_byte, local. rewrite Hd, Est. cbn.
    unfold buffered in Hz. destruct (current_buf s) as [b|]; [rewrite local_byte_eq, Hz, (proj2 (Z.ltb_ge k 0)) by lia|]; by destruct (_ <? _).
  - destruct (Hcl eq_refl) as [Ht Hv]. split; [done|]. intros k Hk.
    destruct (linked_facts cs s (cm_store m) Hok Est (co_prefix _ _ Hcok) (Hlink eq_refl)) as (id & h & o & A & B & C & _ & Hsz & _ & Hob & Hvis & Hr & Hby).
    rewrite Hby by done. specialize (Ht id h B C). specialize (Hv id h B C). unfold cow_published, cow_content, head_content. rewrite B. cbn [mbind option_bind]. rewrite C. cbn [mbind option_bind].
    rewrite Hob. cbn [mbind option_bind]. rewrite byte_at_take, Hvis.
    destruct (Z.ltb_spec k (cv_size (cm_store m) - i * cs)), (Z.ltb_spec k (Z.min (head_size h) (cc_visible_prefix s))), (Z.ltb_spec k (head_size h)); done || lia.
Qed.
Lemma cow_session_flush i s m r s' m' :
  chunk_index cs i → cow_session i s m → COWChunk_Flush i cs fresh_memory (s, m) = (r, (s', m')) →
  cow_apart m m' ∧ cow_session i s' m' ∧ (∀ k, 0 ≤ k → cow_byte s' (cm_store m') k = cow_byte s (cm_store m) k) ∧
  (r = Ok tt → cow_open_ok i m' ∧ ∀ k, 0 ≤ k → cow_published (i * cs) (cm_store m') k = cow_byte s (cm_store m) k).
Proof.
  intros Hi Hses E. pose proof Hses as (Hinv & Hne & Hq & Hcl & Hd). pose proof (COWChunk_Flush_preserves i cs fresh_memory cow_apart (s, m)) as Hap. rewrite E in Hap. cbn [snd] in Hap.
  destruct (proj2 Hap Hq) as [Hq' Harr].
  pose proof (COWChunk_Flush_spec i cs (i * cs) fresh_memory ltac:(lia) Hmem (start_of cs Hcs i Hi) s m Hinv Hne) as HF. unfold swp in HF. rewrite E in HF.
  destruct HF as (Hinv' & Hne' & (ws & later & Hws & _ & Hby) & Hcont & Hbuf & Hr). cbn [fst snd] in *.
  assert (ws ++ later = []) as [-> ->]%app_eq_nil by (cbn in Hws; rewrite Harr in Hws; apply (app_inv_head (cm_arrived m)); by rewrite app_nil_r).
  destruct r as [u|e].
  - destruct (bool_decide (cc_state s = kClean) || (buffered s =? 0)) eqn:Eidle.
    + injection Hr as -> ->. split_and!; [done|done|done|]. intros _. apply cow_session_idle; [done|]. unfold COWChunk_HasPendingWrites. apply orb_true_iff in Eidle as [Ec|Ez]; [by rewrite Ec|].
      apply Z.eqb_eq in Ez. unfold buffered in Ez. destruct (current_buf s); [|by rewrite andb_false_r]. rewrite Ez. by rewrite andb_false_r.
    + apply orb_false_iff in Eidle as [Ec%bool_decide_eq_false Ez%Z.eqb_neq]. destruct Hr as (Hc & Hsz & Hpre).
      destruct (held_buf cs s (ci_ok _ _ _ Hinv) Ec) as (a & b & _ & _ & Hb & Hbo). assert (buffered s = wb_size b) as Ebuf by (unfold buffered; by rewrite Hb). rewrite Hb in Hc. cbn in Hc. rewrite Ebuf in *.
      destruct (content_tight i b (cm_store m') Hbo (ci_store _ _ _ Hinv') Hc Hsz) as [Ht Hhs].
      split_and!; [done| |done|].
      * split_and!; [done|done|done| |]; [intros Hclean; split; [done|]; intros id h H1 H2; rewrite (Hhs id h H1 H2); auto|]. intros Hdirty Hz. specialize (Hbuf Hdirty). destruct Hbo. lia.
      * intros _. split; [split_and!; [apply Hinv'|done|done]|]. intros k Hk. rewrite (flushed_published i b) by done. unfold cow_byte, local. rewrite Hb. by destruct (cc_state s).
  - destruct Hr as [Hst Hnz]. split_and!; [done| |done|done]. split_and!; [done|done|done|by rewrite Hst|]. intros _ Hz. specialize (Hbuf Hst).
    destruct Hinv as [Hcok _ _]. destruct (decide (cc_state s = kClean)) as [Ec|Ec]; [unfold buffered in Hnz, Hbuf; destruct Hcok as [_ Hs0 _ _]; rewrite Ec in Hs0; destruct Hs0 as (Hw & _); unfold current_buf in Hnz; by rewrite Hw in Hnz|].
    destruct (held_buf cs s Hcok Ec) as (a & b & _ & _ & Hb & [? _]). unfold buffered in *. rewrite Hb in *. lia.
Qed.
Lemma cow_open_session i create m r m' :
  chunk_index cs i → cow_open_ok i m → OpenCow cs fresh_memory i create m = (r, m') →
  cow_apart m m' ∧ cow_settles (cm_store m) (cm_store m') ∧ match r with
  | Ok (Some c) => cow_session i c m' ∧ ∀ k, 0 ≤ k → cow_byte c (cm_store m') k = cow_published (i * cs) (cm_store m) k
  | Ok None => create = false ∧ ∀ k, cow_published (i * cs) (cm_store m) k = Ascii.zero
  | Err _ => True
  end.
Proof.
  intros Hi (Hok & Ht & Hq) E. pose proof (OpenCow_apart i create m) as Hap. rewrite E in Hap. cbn [snd] in Hap.
  pose proof (OpenCow_spec i cs (i * cs) fresh_memory ltac:(lia) Hmem (start_of cs Hcs i Hi) create m Hok) as HO. unfold swp in HO. rewrite E in HO. destruct HO as [Hs HO]. change (cow_settles (cm_store m) (cm_store m')) in Hs.
  split_and!; [done|done|]. destruct r as [[c|]|e]; [|destruct HO as [-> Hn]; split; [done|]; intros k; unfold cow_published, cow_content; cbn in Hn; rewrite Hn; by destruct (_ <? _)|done].
  destruct HO as (Hinv & Hne & Hby & Hc). split; [|done]. assert (quiet m') as Hq' by (by apply Hap). split_and!; [done|done|done|..].
  - intros Hclean. cbn in Hc. destruct (cv_chunk (cm_store m)) as [id|] eqn:Hid; [|destruct Hc; congruence]. split; [by eapply tight_settles|]. intros id' h. rewrite (ct_chunk _ _ Hs), (ct_head _ _ Hs).
    cbn. rewrite Hid. intros [= <-] Hh. destruct Hc as [_ Hc]. rewrite (Hc h Hh). specialize (Ht id h Hid Hh). destruct (so_head _ _ Hok id h Hh) as (_ & _ & _ & ? & _). lia.
  - intros Hdirty _. rewrite (ct_chunk _ _ Hs). cbn in *. destruct (cv_chunk (cm_store m)); [destruct Hc; congruence|done].
Qed.

#[export] Instance cow_file_laws : FileLaws cs.
Proof.
  split.
  - intros i c w offset data status c' w' Hi [Hc1 Hc] Ho Hd Hin E. cbn [ch_read ch_write cow_files] in E. unfold on_cpart in E. rewrite Hc1 in E.
    destruct (COWChunk_Write cs fresh_memory offset data (c.2, cpart i w)) as [r [s m]] eqn:EW. injection E as <- <- <-.
    destruct (cow_session_write i c.2 (cpart i w) offset data r s m Hc Ho Hd Hin EW) as (Hap & Hs & Hses & Hb).
    split; [by apply cput_calm_on|]. cbn [c_ok o_ok cbyte sbyte cow_file_view fst snd]. rewrite !cpart_put_eq. split; [done|]. intros k Hk. apply Hb. lia.
  - intros i c w offset len r w' Hi [Hc1 Hc] Ho Hl Hin E. cbn [ch_read ch_write cow_files] in E. unfold on_cpart in E. rewrite Hc1 in E.
    destruct (COWChunk_Read cs offset len (c.2, cpart i w)) as [r0 [s0 m0]] eqn:ER. injection E as <- <-.
    destruct (cow_session_read i c.2 (cpart i w) offset len r0 s0 m0 Hc Ho Hl ER) as (Hap & Hs & Hr). split; [by apply cput_calm_on|exact Hr].
  - intros i create w r w' Hi Ho E. cbn [cf_open cow_files] in E. destruct (OpenCow cs fresh_memory i create (cpart i w)) as [r0 m0] eqn:EO. injection E as <- <-.
    destruct (cow_open_session i create (cpart i w) r0 m0 Hi Ho EO) as (Hap & Hs & Hr). split; [by apply cput_calm_on|].
    destruct r0 as [[c|]|e]; cbn [c_ok o_ok cbyte sbyte cow_file_view fst snd fmap option_fmap option_map]; [|destruct Hr; done|done]. rewrite !cpart_put_eq. destruct Hr as [Hses Hb]. split; [done|]. intros k Hk. apply Hb. lia.
  - intros i c w status c' w' Hi [Hc1 Hc] E. cbn [ch_flush cow_files] in E. unfold on_cpart in E. rewrite Hc1 in E.
    destruct (COWChunk_Flush i cs fresh_memory (c.2, cpart i w)) as [r0 [s0 m0]] eqn:EF. injection E as <- <- <-.
    destruct (cow_session_flush i c.2 (cpart i w) r0 s0 m0 Hi Hc EF) as (Hap & Hs & Hb & Hd). split; [by apply cput_calm_on|]. cbn [c_ok o_ok cbyte sbyte cow_file_view fst snd]. rewrite !cpart_put_eq.
    split; [done|]. split; [intros k Hk; apply Hb; lia|]. intros Hok. destruct r0 as [[]|e]; [|by destruct e]. destruct (Hd eq_refl) as [Hn Hp]. split; [done|]. intros k Hk. apply Hp. lia.
  - intros i c w Hi [Hc1 Hc] Hp. destruct (cow_session_idle i c.2 (cpart i w) Hc Hp) as [Hn Hb]. split; [done|]. intros k Hk. apply Hb. lia.
  - intros w r w' [= <- <-]. reflexivity.
Qed.

End Instance.

(** C31: Copy-on-write sessions keep every promise the file path relies on: reads, writes, opening
    and flushing of any number of chunk sessions of a file over backends whose calls may fail
    at any point act on one map of bytes per chunk, a flush that succeeds leaves a chunk that
    a new session shows unchanged, and no operation on one chunk disturbs another. *)
Theorem cow_files_lawful (cs : Z) (fresh_memory : nat → bytes) :
  0 < cs ≤ UINT32_MAX → (∀ n, cs ≤ zlen (fresh_memory n)) → @FileLaws _ _ (cow_files cs fresh_memory) (cow_file_view cs) cs.
Proof. intros Hcs Hmem. by apply cow_file_laws. Qed.
Definition noise (_ : nat) : bytes := lit "########".
Definition empty_cow_file (faults : list (option (Status * bool))) : FileCow := mkFileCow 0 {[ 0 := empty_cow 0 faults [] ]}.
Lemma empty_cow_file_ok faults : @frw_ok _ _ (cow_file_view 8) 8 new_frw (empty_cow_file faults).
Proof.
  intros i. unfold new_frw. cbn [frw_chunks]. rewrite lookup_empty. intros _. cbn [o_ok cow_file_view].
  assert (∃ f, cpart i (empty_cow_file faults) = empty_cow 0 f []) as [f ->].
  { unfold cpart, empty_cow_file. cbn [fc_parts fc_size]. destruct (decide (i = 0)) as [->|]; [rewrite lookup_singleton_eq; by exists faults|]. rewrite lookup_singleton_ne by done. by exists []. }
  split_and!; [apply empty_store_ok|by intros|done].
Qed.
(** Ten bytes over two chunks; the upload of the first flush loses its reply, the second
    flush completes. *)
Definition lossy_run : result unit * result unit * result bytes :=
  let '(_, st) := @FileReadWriter_Write _ _ (cow_files 8 noise) 8 (lit "abcdefghij") 3 0 (new_frw, empty_cow_file [None; None; None; None; Some (Unavailable, true)]) in
  let '(r1, st) := @FileReadWriter_Flush _ _ (cow_files 8 noise) st in
  let '(r2, st) := @FileReadWriter_Flush _ _ (cow_files 8 noise) st in
  (r1, r2, (@FileReadWriter_Read _ _ (cow_files 8 noise) 8 100 1 (new_frw, st.2)).1).
Lemma cow_files_lawful_witness :
  @FileLaws _ _ (cow_files 8 noise) (cow_file_view 8) 8 ∧ lossy_run = (Err Unavailable, Ok tt, Ok (zeros 2 ++ lit "abcdefghij")).
Proof. split; [apply (cow_files_lawful 8 noise); [done|intros n; done]|by vm_compute]. Defined.
