(* ===== verification/InodeFence.v ===== *)
(** * Open descriptors and the reclaim fence of an inode (src/src/vfs/InodeHandle.cpp,
    FileHandle.cpp, OrphanReclaimer.cpp)

    Fibers of one mount share the [InodeHandle] of an inode.  A fiber is a program whose
    calls are the critical sections of [state_mutex_] and the operations of the file path
    and the metadata engine; fibers interleave at calls.  An operation of the file path is
    one step here: FileSize.v has the interleavings inside them. *)

From stdpp Require Import gmap.
From S2P Require Import Prelude InodeTypes InodeOps ChunkGeometry SliceChunk StateIo FileRw FileSlices.

(** ** The state under [state_mutex_]; [None] is a failed [CHECK] *)
Record InodeHandle := mkInodeHandle { open_count : Z; reclaim_started : bool }.
Definition new_inode_handle : InodeHandle := mkInodeHandle 0 false.

Definition AcquireRefUnlessReclaiming (h : InodeHandle) : bool * InodeHandle :=
  if reclaim_started h then (false, h) else
  (true, mkInodeHandle (u64 (open_count h + 1)) (reclaim_started h)).
Definition PrepareClose (h : InodeHandle) : option (bool * InodeHandle) :=
  if negb (open_count h >? 0) then None else
  if open_count h =? 1 then Some (true, h) else
  Some (false, mkInodeHandle (u64 (open_count h - 1)) (reclaim_started h)).
Definition ReleaseRef (h : InodeHandle) : option InodeHandle :=
  if negb (open_count h >? 0) then None else
  Some (mkInodeHandle (u64 (open_count h - 1)) (reclaim_started h)).
Definition TryStartReclaim (h : InodeHandle) : bool * InodeHandle :=
  if negb (open_count h =? 0) || reclaim_started h then (false, h) else
  (true, mkInodeHandle (open_count h) true).
Definition FinishReclaim (h : InodeHandle) : option InodeHandle :=
  if negb (reclaim_started h) then None else Some (mkInodeHandle (open_count h) false).

(** The metadata calls on the inode that are not part of the file path:
    [IMetaEngine::Open], with the size and the flags it stores, and [PrepareReclaim]. *)
Class InodeMeta (W : Type) := {
  im_Open : W → (Status * (Z * Z)) * W;
  im_PrepareReclaim : W → Status * W;
}.

Section Fibers.
Context {C W : Type} `{FileBackend C W, InodeMeta W} (chunk_size now : Z).
Abbreviation fop := (fio (C := C) (W := W)).

Inductive call : Type → Type :=
  | acquire : call bool
  | prepare_close : call bool
  | release_ref : call unit
  | try_reclaim : call bool
  | finish_reclaim : call unit
  | rw {A : Type} (m : fop A) : call (result A)
  | snapshot_epoch : call Z
  | meta_open : call (Status * (Z * Z))
  | meta_reclaim : call Status.
Abbreviation fiber := (prog call).
Definition rw_status {A : Type} (m : fop A) : fiber Status :=
  r ← perform (rw m); mret (match r with Ok _ => OK | Err e => e end).

(** ** [InodeHandle] *)
Definition InodeHandle_Open (flags : Z) : fiber Status :=
  acquired ← perform acquire;
  if negb acquired then mret NotFound else
  let fail (status : Status) : fiber Status := _ ← perform release_ref; mret status in
  observed_flag_epoch ← perform snapshot_epoch;
  opened ← perform meta_open;
  let '(status, (authoritative_size, inode_flags)) := opened in
  if negb (ok status) then fail status else
  status ← rw_status (ReconcileOpenState authoritative_size inode_flags observed_flag_epoch flags);
  if negb (ok status) then fail status else
  if negb (Z.land flags O_TRUNC =? 0) then
    status ← rw_status (FileReadWriter_Truncate chunk_size now 0);
    if negb (ok status) then fail status else mret OK
  else mret OK.
Definition InodeHandle_OpenCreated : fiber Status :=
  acquired ← perform acquire;
  if negb acquired then mret NotFound else
  _ ← perform (rw (InitializeCreatedState 0));
  mret OK.
Definition InodeHandle_Close : fiber Status :=
  last ← perform prepare_close;
  if negb last then mret OK else
  status ← rw_status FileReadWriter_Flush;
  _ ← perform release_ref;
  mret status.

(** ** [FileHandle]: one descriptor *)
Definition writable (flags : Z) : bool := negb (Z.land flags O_ACCMODE =? O_RDONLY).
Inductive descriptor_op :=
  | DRead (n off : Z) | DWrite (data : bytes) (off : Z) | DFlush | DSetAttr (requested : SwordFsAttr) (fields : Z).
Definition FileHandle_op (flags : Z) (o : descriptor_op) : fiber Status :=
  match o with
  | DRead n off => rw_status (FileReadWriter_Read chunk_size n off)
  | DWrite data off => rw_status (FileReadWriter_Write chunk_size data off flags)
  | DFlush => rw_status FileReadWriter_Flush
  | DSetAttr requested fields =>
      if HasSetAttrField fields kSize && negb (writable flags) then mret InvalidArgument else
      rw_status (FileReadWriter_SetAttr chunk_size now requested fields)
  end.
Fixpoint FileHandle_ops (flags : Z) (ops : list descriptor_op) : fiber (list Status) :=
  match ops with
  | [] => mret []
  | o :: ops => status ← FileHandle_op flags o; rest ← FileHandle_ops flags ops; mret (status :: rest)
  end.
(** The life of a descriptor: opened, or created, used and, if that succeeded, released
    once, which the kernel guarantees.  The statuses are those the caller sees. *)
Definition descriptor (created : bool) (flags : Z) (ops : list descriptor_op) : fiber (list Status) :=
  opened ← (if created then InodeHandle_OpenCreated else InodeHandle_Open flags);
  if negb (ok opened) then mret [opened] else
  statuses ← FileHandle_ops flags ops;
  closed ← InodeHandle_Close;
  mret (opened :: statuses ++ [closed]).

(** ** [OrphanReclaimer::PrepareOrphan] *)
Definition PrepareOrphan : fiber Status :=
  claimed ← perform try_reclaim;
  if negb claimed then mret OK else
  status ← perform meta_reclaim;
  _ ← perform finish_reclaim;
  mret (if negb (ok status) then status else OK).
(** Operations without a descriptor go to the file path directly. *)
Definition undescribed {A : Type} (m : fop A) : fiber Status := rw_status m.

(** ** Running *)
Record world := mkWorld { wd_handle : InodeHandle; wd_file : FileReadWriter C * W }.
Definition on_handle {A : Type} (w : world) (r : option (A * InodeHandle)) : option (A * world) :=
  match r with Some (a, h) => Some (a, mkWorld h (wd_file w)) | None => None end.
Definition on_backend {A : Type} (w : world) (f : W → A * W) : option (A * world) :=
  let '(a, b) := f (wd_file w).2 in Some (a, mkWorld (wd_handle w) ((wd_file w).1, b)).
Definition exec {A : Type} (c : call A) (w : world) : option (A * world) :=
  match c in call A return option (A * world) with
  | acquire => on_handle w (Some (AcquireRefUnlessReclaiming (wd_handle w)))
  | prepare_close => on_handle w (PrepareClose (wd_handle w))
  | release_ref => on_handle w (pair tt <$> ReleaseRef (wd_handle w))
  | try_reclaim => on_handle w (Some (TryStartReclaim (wd_handle w)))
  | finish_reclaim => on_handle w (pair tt <$> FinishReclaim (wd_handle w))
  | rw m => let '(r, f) := m (wd_file w) in Some (r, mkWorld (wd_handle w) f)
  | snapshot_epoch =>
      match SnapshotInodeFlagEpoch (wd_file w) with
      | (Ok epoch, f) => Some (epoch, mkWorld (wd_handle w) f)
      | (Err _, _) => None
      end
  | meta_open => on_backend w im_Open
  | meta_reclaim => on_backend w im_PrepareReclaim
  end.

(** What a fiber holds, by the calls it has made. *)
Inductive held := nothing | a_descriptor | the_fence.
#[global] Instance held_eq_dec : EqDecision held.
Proof. solve_decision. Defined.
Definition held_after {A : Type} (c : call A) (h : held) : A → held :=
  match c in call A return A → held with
  | acquire => λ b, if b then a_descriptor else h
  | prepare_close => λ b, if b then h else nothing
  | release_ref => λ _, nothing
  | try_reclaim => λ b, if b then the_fence else h
  | finish_reclaim => λ _, nothing
  | rw _ => λ _, h
  | snapshot_epoch | meta_open => λ _, h
  | meta_reclaim => λ _, h
  end.
Abbreviation pool := (list (held * fiber (list Status))).
Definition holders (x : held) (p : pool) : nat := length (filter (λ t : held * fiber (list Status), t.1 = x) p).
(** Fibers that run on the handle. *)
Inductive entry : fiber (list Status) → Prop :=
  | entry_descriptor created flags ops : entry (descriptor created flags ops)
  | entry_reclaim : entry (s ← PrepareOrphan; mret [s])
  | entry_undescribed {A : Type} (m : fop A) : entry (s ← undescribed m; mret [s]).
Inductive step : world * pool → world * pool → Prop :=
  | step_spawn w p m : entry m → Z.of_nat (length p) + 1 < 2 ^ 64 → step (w, p) (w, p ++ [(nothing, m)])
  | step_call {B : Type} w p i h (c : call B) k b w' :
      p !! i = Some (h, Call c k) → exec c w = Some (b, w') →
      step (w, p) (w', <[i := (held_after c h b, k b)]> p)
  (** The last user of the handle has gone: [InodeHandleManager] makes a new one on demand. *)
  | step_expire w p : (∀ t, t ∈ p → ∃ a, t.2 = Done a) → step (w, p) (mkWorld new_inode_handle (new_frw, (wd_file w).2), [])
  (** Other mounts change the metadata and the store. *)
  | step_foreign w p b : step (w, p) (mkWorld (wd_handle w) ((wd_file w).1, b), p).
Definition initial (b : W) : world * pool := (mkWorld new_inode_handle (new_frw, b), []).
Definition reachable (b : W) (s : world * pool) : Prop := rtc step (initial b) s.
(** ** The discipline of fibers *)
Definition may {A : Type} (c : call A) (h : held) : Prop :=
  match c with
  | acquire | try_reclaim => h = nothing
  | prepare_close | release_ref | snapshot_epoch | meta_open => h = a_descriptor
  | finish_reclaim | meta_reclaim => h = the_fence
  | rw _ => True
  end.
Fixpoint permitted {A : Type} (m : fiber A) (Q : A → held → Prop) (h : held) : Prop :=
  match m with
  | Done a => Q a h
  | Call c k => may c h ∧ ∀ b, permitted (k b) Q (held_after c h b)
  end.
Lemma permitted_mono {A : Type} (m : fiber A) (Q Q' : A → held → Prop) h :
  (∀ a h, Q a h → Q' a h) → permitted m Q h → permitted m Q' h.
Proof. intros HQ. revert h. induction m as [a|B c k IH]; intros h; cbn; [apply HQ|]. intros [Hm Hk]. eauto. Qed.
Lemma permitted_bind {A B : Type} (m : fiber A) (f : A → fiber B) Q h :
  permitted m (λ a, permitted (f a) Q) h → permitted (m ≫= f) Q h.
Proof. revert h. induction m as [a|D c k IH]; intros h; cbn; [done|]. intros [Hm Hk]. eauto. Qed.
Lemma permitted_perform {A B : Type} (c : call A) (f : A → fiber B) Q h :
  may c h → (∀ a, permitted (f a) Q (held_after c h a)) → permitted (perform c ≫= f) Q h.
Proof. done. Qed.
Lemma permitted_rw {A : Type} (m : fop A) (Q : Status → held → Prop) h : (∀ s, Q s h) → permitted (rw_status m) Q h.
Proof. intros HQ. cbn. split; [done|]. intros [a|e]; cbn; apply HQ. Qed.

(** Opening returns with a descriptor exactly when it succeeds, and closing gives it back. *)
Definition opens (s : Status) (h : held) : Prop := h = if ok s then a_descriptor else nothing.
Lemma Open_permitted flags : permitted (InodeHandle_Open flags) opens nothing.
Proof.
  assert (∀ s, ok s = false → permitted (_ ← perform release_ref; mret s) opens a_descriptor) as Hf.
  { intros s Hs. cbn. split; [done|]. intros _. unfold opens. by rewrite Hs. }
  apply permitted_perform; [done|]. intros [|]; [|done]. apply permitted_perform; [done|]. intros epoch. apply permitted_perform; [done|]. intros [s [n fl]].
  cbn [held_after].
  destruct (ok s) eqn:Es; cbn [negb]; [|by apply Hf]. apply permitted_bind, permitted_rw. intros s1.
  destruct (ok s1) eqn:E1; cbn [negb]; [|by apply Hf]. case_match; [|done]. apply permitted_bind, permitted_rw. intros s2.
  destruct (ok s2) eqn:E2; cbn [negb]; [done|by apply Hf].
Qed.
Lemma OpenCreated_permitted : permitted InodeHandle_OpenCreated opens nothing.
Proof. split; [done|]. intros [|]; cbn; [|done]. by split. Qed.
Lemma Close_permitted : permitted InodeHandle_Close (λ _ h, h = nothing) a_descriptor.
Proof. apply permitted_perform; [done|]. intros [|]; cbn [negb]; [|done]. apply permitted_bind, permitted_rw. intros s. by split. Qed.
Lemma ops_permitted flags ops h : permitted (FileHandle_ops flags ops) (λ _ h', h' = h) h.
Proof.
  induction ops as [|o ops IH]; [done|]. cbn [FileHandle_ops]. apply permitted_bind.
  assert (∀ s, permitted (rest ← FileHandle_ops flags ops; mret (s :: rest)) (λ _ h', h' = h) h) as Hr.
  { intros s. apply permitted_bind. eapply permitted_mono; [|exact IH]. by intros a h' ->. }
  destruct o; cbn [FileHandle_op]; try (apply permitted_rw; exact Hr). case_match; [apply Hr|]. apply permitted_rw. exact Hr.
Qed.
Definition disciplined (t : held * fiber (list Status)) : Prop := permitted t.2 (λ _ h, h = nothing) t.1.
Lemma entry_disciplined m : entry m → disciplined (nothing, m).
Proof.
  unfold disciplined. cbn [fst snd]. destruct 1 as [created flags ops| |A m].
  - apply permitted_bind. eapply (permitted_mono _ opens); [|destruct created; [exact OpenCreated_permitted|apply Open_permitted]].
    intros s h ->. destruct (ok s) eqn:E; cbn [negb]; [|by destruct s]. apply permitted_bind.
    eapply permitted_mono; [|apply ops_permitted]. intros l h ->. apply permitted_bind.
    eapply permitted_mono; [|exact Close_permitted]. by intros s' h ->.
  - apply permitted_bind. split; [done|]. intros [|]; cbn [negb]; [|done]. by repeat split.
  - apply permitted_bind, permitted_rw. by intros s.
Qed.

(** ** The invariant *)
Lemma holders_insert x (p : pool) i t t' : p !! i = Some t →
  (holders x (<[i := t']> p) + (if decide (t.1 = x) then 1 else 0) = holders x p + (if decide (t'.1 = x) then 1 else 0))%nat.
Proof.
  unfold holders. revert i. induction p as [|u p IH]; intros [|i] Hi; [done|done| |].
  - injection Hi as ->. change (<[0%nat := t']> (t :: p)) with (t' :: p). rewrite !filter_cons. repeat case_decide; cbn [length]; lia.
  - specialize (IH i Hi). change (<[S i := t']> (u :: p)) with (u :: <[i := t']> p). rewrite !filter_cons. repeat case_decide; cbn [length]; lia.
Qed.
Lemma holders_app x (p q : pool) : holders x (p ++ q) = (holders x p + holders x q)%nat.
Proof. unfold holders. by rewrite filter_app, length_app. Qed.
Lemma holders_pos (p : pool) i t : p !! i = Some t → (0 < holders t.1 p)%nat.
Proof.
  intros Hi. pose proof (holders_insert t.1 p i t (if decide (t.1 = nothing) then the_fence else nothing, t.2) Hi) as E.
  destruct t as [[] m]; cbn [fst snd] in *; repeat case_decide; done || lia.
Qed.
Lemma holders_le x (p : pool) : (holders x p ≤ length p)%nat.
Proof. apply length_filter. Qed.
Record fence_inv (s : world * pool) : Prop := {
  fi_disciplined : ∀ i t, s.2 !! i = Some t → disciplined t;
  fi_size : Z.of_nat (length s.2) < 2 ^ 64;
  fi_count : open_count (wd_handle s.1) = Z.of_nat (holders a_descriptor s.2);
  fi_fence : holders the_fence s.2 = if reclaim_started (wd_handle s.1) then 1%nat else 0%nat;
  fi_apart : reclaim_started (wd_handle s.1) = true → holders a_descriptor s.2 = 0%nat;
}.
(** A call that may be made does not fail its [CHECK] and moves the handle as the holding moves. *)
Definition hb (b : bool) : Z := if b then 1 else 0.
Definition accounts (x x' : held) (h h' : InodeHandle) : Prop :=
  open_count h' - open_count h = hb (bool_decide (x' = a_descriptor)) - hb (bool_decide (x = a_descriptor)) ∧
  hb (reclaim_started h') - hb (reclaim_started h) = hb (bool_decide (x' = the_fence)) - hb (bool_decide (x = the_fence)) ∧
  (reclaim_started h' = true → open_count h' = 0).
Ltac account :=
  eexists _, _; (split; [reflexivity|]); unfold accounts; cbn; rewrite ?wrap_id by (unfold in_range; lia);
  repeat split; intros; unfold hb; repeat case_bool_decide; subst; auto; try done; lia.
Lemma exec_accounts {B : Type} (c : call B) (w : world) x :
  may c x → 0 ≤ open_count (wd_handle w) → open_count (wd_handle w) < 2 ^ 64 → (x = nothing → open_count (wd_handle w) + 1 < 2 ^ 64) →
  (x = a_descriptor → 0 < open_count (wd_handle w)) → (x = the_fence → reclaim_started (wd_handle w) = true) →
  (reclaim_started (wd_handle w) = true → open_count (wd_handle w) = 0) →
  ∃ b w', exec c w = Some (b, w') ∧ accounts x (held_after c x b) (wd_handle w) (wd_handle w').
Proof.
  destruct w as [[n r] f]. cbn [wd_handle open_count reclaim_started]. intros Hm Hp Hn Hn' Hd Hf Ha.
  assert (0 < n → r = false) as Hr by (destruct r; [specialize (Ha eq_refl); lia|done]).
  destruct c as [| | | | |A m| | |]; cbn [may] in Hm; try subst x; cbn [exec wd_handle wd_file on_handle on_backend].
  - specialize (Hn' eq_refl). unfold AcquireRefUnlessReclaiming. cbn. destruct r; account.
  - specialize (Hd eq_refl). rewrite (Hr Hd). unfold PrepareClose. cbn [open_count]. rewrite (proj2 (Z.gtb_lt _ _)) by lia. cbn. destruct (Z.eqb_spec n 1); account.
  - specialize (Hd eq_refl). rewrite (Hr Hd). unfold ReleaseRef. cbn [open_count]. rewrite (proj2 (Z.gtb_lt _ _)) by lia. account.
  - unfold TryStartReclaim. cbn. destruct (Z.eqb_spec n 0), r; account.
  - rewrite (Hf eq_refl). unfold FinishReclaim. cbn. account.
  - destruct (m f) as [r' f']. account.
  - account.
  - unfold on_backend. cbn [wd_file wd_handle]. destruct (im_Open f.2) as [r' f']. account.
  - unfold on_backend. cbn [wd_file wd_handle]. destruct (im_PrepareReclaim f.2) as [r' f']. account.
Qed.

Lemma exec_inv {B : Type} w (p : pool) i h (c : call B) k : fence_inv (w, p) → p !! i = Some (h, Call c k) →
  may c h ∧ ∃ b w', exec c w = Some (b, w') ∧ accounts h (held_after c h b) (wd_handle w) (wd_handle w').
Proof.
  intros [Hd Hs Hc Hf Ha] Hi. cbn [fst snd] in *. destruct (Hd _ _ Hi) as [Hm _]. split; [exact Hm|].
  pose proof (holders_pos _ _ _ Hi) as Hpos. pose proof (holders_le a_descriptor p) as Hle. cbn [fst] in Hpos.
  assert (h ≠ a_descriptor → holders a_descriptor p < length p)%nat as Hlt.
  { intros Hne. pose proof (holders_insert a_descriptor p i _ (a_descriptor, Call c k) Hi) as E. cbn [fst] in E.
    rewrite decide_False, decide_True in E by done. pose proof (holders_le a_descriptor (<[i := (a_descriptor, Call c k)]> p)) as E'.
    rewrite length_insert in E'. lia. }
  apply exec_accounts; [exact Hm|lia|lia|intros ->; specialize (Hlt ltac:(done)); lia|intros ->; lia|intros ->; by destruct (reclaim_started _); [|lia]|intros Hr; rewrite Hc, (Ha Hr); done].
Qed.

Lemma fence_inv_initial b : fence_inv (initial b).
Proof. by split. Qed.
Lemma fence_inv_call {B : Type} w (p : pool) i h (c : call B) k b w' :
  fence_inv (w, p) → p !! i = Some (h, Call c k) → exec c w = Some (b, w') → fence_inv (w', <[i := (held_after c h b, k b)]> p).
Proof.
  intros Hinv Hi Hex. destruct (exec_inv _ _ _ _ _ _ Hinv Hi) as (Hm & b' & w'' & E & Hn & Hr & Hap).
  rewrite E in Hex. injection Hex as -> ->. destruct Hinv as [Hd Hs Hc Hf Ha]. cbn [fst snd] in *.
  pose proof (holders_insert a_descriptor p i _ (held_after c h b, k b) Hi) as E1.
  pose proof (holders_insert the_fence p i _ (held_after c h b, k b) Hi) as E2. cbn [fst] in E1, E2.
  unfold hb in *. split; cbn [fst snd].
  - intros j t. rewrite list_lookup_insert_Some. intros [(-> & <- & _)|[_ Hj]]; [|by eapply Hd]. destruct (Hd _ _ Hi) as [_ Hk]. apply Hk.
  - by rewrite length_insert.
  - repeat case_bool_decide; repeat case_decide; lia || congruence.
  - destruct (reclaim_started (wd_handle w)), (reclaim_started (wd_handle w')); repeat case_bool_decide; repeat case_decide; lia || congruence.
  - intros Hr'. specialize (Hap Hr'). repeat case_bool_decide; repeat case_decide; lia || congruence.
Qed.
Lemma fence_inv_step s s' : step s s' → fence_inv s → fence_inv s'.
Proof.
  destruct 1 as [w p m Hm Hn|B w p i h c k b w' Hi Hex|w p Hall|w p b]; intros Hinv.
  - destruct Hinv as [Hd Hs Hc Hf Ha]. cbn [fst snd] in *. assert (∀ x, holders x [(nothing, m)] = if decide (nothing = x) then 1%nat else 0%nat) as E.
    { intros x. unfold holders. rewrite filter_cons, filter_nil. cbn [fst]. by destruct (decide (nothing = x)). }
    split; cbn [fst snd]; rewrite ?holders_app, ?E, ?decide_False, ?Nat.add_0_r by done; auto.
    + intros i t. rewrite lookup_app_Some. intros [?|[_ Ht]]; [by eapply Hd|]. apply list_lookup_singleton_Some in Ht as [_ <-]. by apply entry_disciplined.
    + rewrite length_app. cbn. lia.
  - by eapply fence_inv_call.
  - by split.
  - by destruct Hinv; split.
Qed.
Lemma fence_inv_reachable b s : reachable b s → fence_inv s.
Proof. intros H1. apply (rtc_ind_r _ _ (fence_inv_initial b)) in H1; [done|]. intros s1 s2 _ Hs. by apply fence_inv_step. Qed.

(** C35: However the fibers that open, create, use and close descriptors of an inode, the
    background reclaimer and operations without a descriptor interleave, the open count is the
    number of fibers that hold a descriptor, from before [Open] validates the inode until the
    flush of the last [Close] has returned; no [CHECK] of the handle fails; the metadata calls
    of an open are made by fibers whose descriptor is counted and [PrepareReclaim] only by the
    holder of the fence; and while a fiber holds the fence no other fiber holds a descriptor or
    the fence, so an inode is never frozen while it is open, being opened or being flushed. *)
Theorem inode_fence_safe b w (p : pool) : reachable b (w, p) →
  open_count (wd_handle w) = Z.of_nat (holders a_descriptor p) ∧
  (∀ i h B (c : call B) k, p !! i = Some (h, Call c k) → is_Some (exec c w) ∧ may c h) ∧
  (∀ i j h m m', p !! i = Some (the_fence, m) → p !! j = Some (h, m') → i ≠ j → h = nothing).
Proof.
  intros Hr. apply fence_inv_reachable in Hr as Hinv. split; [apply Hinv|]. split.
  - intros i h B c k Hi. destruct (exec_inv _ _ _ _ _ _ Hinv Hi) as (Hm & b' & w' & E & _). split; [by exists (b', w')|exact Hm].
  - intros i j h m m' Hi Hj Hne. destruct Hinv as [Hd Hs Hc Hf Ha]. cbn [fst snd] in *.
    pose proof (holders_pos _ _ _ Hi) as Hpos. pose proof (holders_pos _ _ _ Hj) as Hposj. cbn [fst] in *.
    assert (reclaim_started (wd_handle w) = true) as Hrs by (by destruct (reclaim_started _); [|lia]). rewrite Hrs in Hf. specialize (Ha Hrs).
    destruct h; [done|lia|]. pose proof (holders_insert the_fence p i _ (nothing, m) Hi) as E. cbn [fst] in E. rewrite decide_True, decide_False in E by done.
    assert (<[i := (nothing, m)]> p !! j = Some (the_fence, m')) as Hj' by (by rewrite list_lookup_insert_ne).
    pose proof (holders_pos _ _ _ Hj'). cbn [fst] in *. lia.
Qed.

End Fibers.

(** ** Running a schedule *)
Section Schedule.
Context {C W : Type} `{FileBackend C W, InodeMeta W}.
Abbreviation system := (world (C := C) (W := W) * list (held * prog (call (C := C) (W := W)) (list Status)))%type.
Fixpoint run_schedule (schedule : list nat) (s : system) : option system :=
  match schedule with
  | [] => Some s
  | i :: schedule =>
      match s.2 !! i return option system with
      | Some (h, Call c k) =>
          match exec c s.1 with
          | Some (b, w) => run_schedule schedule (w, <[i := (held_after c h b, k b)]> s.2)
          | None => None
          end
      | _ => None
      end
  end.
Lemma run_schedule_steps chunk_size now schedule s s' : run_schedule schedule s = Some s' → rtc (step chunk_size now) s s'.
Proof.
  revert s. induction schedule as [|i schedule IH]; intros [w p]; cbn [run_schedule fst snd]; [intros [= ->]; reflexivity|].
  destruct (p !! i) as [[h [a|B c k]]|] eqn:Ei; [done| |done]. destruct (exec c w) as [[b w']|] eqn:Ex; [|done].
  intros Hr. eapply rtc_l; [by eapply step_call|]. by apply IH.
Qed.
Lemma spawn_steps chunk_size now (w : world (C := C) (W := W)) ms p :
  Forall (entry chunk_size now) ms → Z.of_nat (length p + length ms) < 2 ^ 64 →
  rtc (step chunk_size now) (w, p) (w, p ++ map (pair nothing) ms).
Proof.
  intros Hms. revert p. induction Hms as [|m ms Hm _ IH]; intros p Hn; cbn [map]; [by rewrite app_nil_r|]. cbn [length] in Hn.
  eapply rtc_l; [apply (step_spawn _ _ _ _ m Hm); lia|]. 
  replace (p ++ (nothing, m) :: map (pair nothing) ms) with ((p ++ [(nothing, m)]) ++ map (pair nothing) ms) by (by rewrite <-app_assoc).
  apply IH. rewrite length_app. cbn. lia.
Qed.
End Schedule.

(** ** A write that no close flushes *)
#[local] Instance sample_files : FileBackend (Z * SliceChunk) FileMemory := slice_files 8.
#[local] Instance sample_meta : InodeMeta FileMemory := {|
  im_Open w := ((OK, (fm_size w, 0)), w); im_PrepareReclaim w := (OK, w) |}.
Definition O_WRONLY : Z := 1.
(** The first descriptor is closed without having written.  While its close is between its
    flush and its release, a second descriptor is opened, written, flushed and, as when a
    mapping is written back, written again and closed. *)
Definition two_descriptors : list (prog (call (C := Z * SliceChunk) (W := FileMemory)) (list Status)) :=
  [descriptor 8 77 false O_RDONLY [];
   descriptor 8 77 false O_WRONLY [DWrite (lit "ab") 0; DFlush; DWrite (lit "c") 2]].
Definition close_overlap : list nat := replicate 6 0%nat ++ replicate 8 1%nat ++ [0%nat].
Definition overlapped : option (world * list (held * prog (call (C := Z * SliceChunk) (W := FileMemory)) (list Status))) :=
  run_schedule close_overlap ((initial empty_file).1, map (pair nothing) two_descriptors).

Definition file_text (f : FileReadWriter (Z * SliceChunk)) (b : FileMemory) : result bytes := (FileReadWriter_Read 8 100 0 (f, b)).1.
Lemma two_descriptors_entries : Forall (entry 8 77) two_descriptors.
Proof. repeat constructor. Qed.
Lemma overlapped_run : match overlapped with
  | Some (w, p) => map snd p = [Done [OK; OK]; Done [OK; OK; OK; OK; OK]] ∧ open_count (wd_handle w) = 0 ∧
      file_text (wd_file w).1 (wd_file w).2 = Ok (lit "abc") ∧ file_text new_frw (wd_file w).2 = Ok (lit "ab")
  | None => False
  end.
Proof. vm_compute. split_and!; reflexivity. Qed.

(** C36: A close flushes only if it finds the count at one, and the last descriptor stays counted
    while its own close flushes: a descriptor opened, written and closed in that window is not
    flushed by its own close, and the close that drops the count to zero has already flushed.
    Every call of the run returns OK, no descriptor is left, and a new handle of the inode reads
    the file without the last write. *)
Theorem overlapped_close_loses_write : ∃ w p, reachable 8 77 empty_file (w, p) ∧
  map snd p = [Done [OK; OK]; Done [OK; OK; OK; OK; OK]] ∧ open_count (wd_handle w) = 0 ∧
  file_text (wd_file w).1 (wd_file w).2 = Ok (lit "abc") ∧ file_text new_frw (wd_file w).2 = Ok (lit "ab").
Proof.
  assert (Z.of_nat (length (@nil (held * prog (call (C := Z * SliceChunk) (W := FileMemory)) (list Status))) + length two_descriptors) < 2 ^ 64) as Hn by (vm_compute; reflexivity).
  pose proof (spawn_steps 8 77 (initial (C := Z * SliceChunk) empty_file).1 two_descriptors [] two_descriptors_entries Hn) as H1.
  pose proof overlapped_run as H2. destruct overlapped as [[w p]|] eqn:E; [|destruct H2]. exists w, p. split; [|exact H2].
  apply (run_schedule_steps 8 77) in E. exact (transitivity H1 E).
Qed.

(** The reclaimer claims the fence, and an open that comes second is refused. *)
Definition open_and_reclaim : list (prog (call (C := Z * SliceChunk) (W := FileMemory)) (list Status)) :=
  [descriptor 8 77 false O_RDONLY []; s ← PrepareOrphan; mret [s]].
Definition fenced : option (world * list (held * prog (call (C := Z * SliceChunk) (W := FileMemory)) (list Status))) :=
  run_schedule [1%nat; 0%nat] ((initial empty_file).1, map (pair nothing) open_and_reclaim).
Lemma fenced_run : match fenced with
  | Some (w, p) => map fst p = [nothing; the_fence] ∧ p !! 0%nat = Some (nothing, Done [NotFound]) ∧ holders a_descriptor p = 0%nat
  | None => False
  end.
Proof. vm_compute. split_and!; reflexivity. Qed.
Lemma inode_fence_safe_witness : match fenced with
  | Some (w, p) => p !! 0%nat = Some (nothing, Done [NotFound]) ∧ open_count (wd_handle w) = 0 ∧
      (∀ h B (c : call B) k, p !! 1%nat = Some (h, Call c k) → is_Some (exec c w) ∧ may c h)
  | None => False
  end.
Proof.
  assert (Z.of_nat (length (@nil (held * prog (call (C := Z * SliceChunk) (W := FileMemory)) (list Status))) + length open_and_reclaim) < 2 ^ 64) as Hn by (vm_compute; reflexivity).
  assert (Forall (entry 8 77) open_and_reclaim) as He by (repeat constructor).
  pose proof (spawn_steps 8 77 (initial (C := Z * SliceChunk) empty_file).1 open_and_reclaim [] He Hn) as H1.
  pose proof fenced_run as H2. destruct fenced as [[w p]|] eqn:E; [|destruct H2]. destruct H2 as (_ & H2 & H3).
  apply (run_schedule_steps 8 77) in E. pose proof (inode_fence_safe 8 77 empty_file w p (transitivity H1 E)) as (Hc & Hx & _).
  split; [exact H2|]. split; [rewrite Hc, H3; reflexivity|]. intros h B c k. apply Hx.
Defined.
