(* ===== verification/DirListing.v ===== *)
(** * Directory streams (src/src/metadata/redis/RedisDirIterator.cpp, src/src/vfs/DirHandle.cpp)

    A directory is a Redis hash, paged with HSCAN; the offset of an entry is its position in
    the stream, after the entries [.] and [..] which the engine puts in front. *)

From stdpp Require Import gmap.
From S2P Require Import Prelude InodeTypes Codec Records StateIo.

(** HSCAN of the hash of the directory: fields, values and the next cursor. *)
Class DirScan (S : Type) := { hscan : Z → S → result (list (bytes * bytes) * Z) * S }.

(** ** [RedisDirEntryCache] *)
Record RedisDirEntryCache := mkDirCache {
  dc_entries : list (bytes * bytes); dc_base_index : Z; dc_cursor : Z; dc_exhausted : bool }.
Definition Reset : RedisDirEntryCache := mkDirCache [] 0 0 false.

Section Cache.
Context `{FollyIO} {S : Type} `{DirScan S}.
(** The number of pages bounds the loop. *)
Fixpoint load_pages (fuel : nat) (index : Z) (c : RedisDirEntryCache) (s : S) : result unit * (RedisDirEntryCache * S) :=
  if dc_exhausted c then (Ok tt, (c, s)) else
  match fuel with
  | O => (Err Internal, (c, s))
  | Datatypes.S fuel =>
      match hscan (dc_cursor c) s with
      | (Err e, s) => (Err e, (c, s))
      | (Ok (values, next_cursor), s) =>
          let exhausted := dc_exhausted c || (next_cursor =? 0) in
          if index <? dc_base_index c + zlen values
          then (Ok tt, (mkDirCache values (dc_base_index c) next_cursor exhausted, s))
          else load_pages fuel index (mkDirCache (dc_entries c) (dc_base_index c + zlen values) next_cursor exhausted) s
      end
  end.
Definition EnsureLoaded (fuel : nat) (index : Z) (c : RedisDirEntryCache) (s : S) : result unit * (RedisDirEntryCache * S) :=
  let c := if index <? dc_base_index c then Reset else c in
  if index <? dc_base_index c + zlen (dc_entries c) then (Ok tt, (c, s)) else
  load_pages fuel index (mkDirCache [] (dc_base_index c + zlen (dc_entries c)) (dc_cursor c) (dc_exhausted c)) s.
Definition parse_named (x : bytes * bytes) : result SwordFsEntry :=
  entry ← Entry_ParseFrom x.2;
  if bool_decide (entry_name entry = x.1) then Ok entry else Err Malformed.
Definition cache_Get (fuel : nat) (index : Z) (c : RedisDirEntryCache) (s : S) : result SwordFsEntry * (RedisDirEntryCache * S) :=
  match EnsureLoaded fuel index c s with
  | (Err e, st) => (Err e, st)
  | (Ok _, (c, s)) =>
      (if index >=? dc_base_index c + zlen (dc_entries c) then Err EndOfDirectory else
       match dc_entries c !! Z.to_nat (index - dc_base_index c) with
       | Some x => parse_named x
       | None => Err Internal
       end, (c, s))
  end.

(** ** [RedisDirIterator] *)
Record RedisDirIterator := mkDirIterator {
  it_cache : RedisDirEntryCache; it_prefix_entries : list SwordFsEntry; it_position : Z; it_pending_next : option Z }.
Definition new_iterator (prefix : list SwordFsEntry) : RedisDirIterator := mkDirIterator Reset prefix 0 None.
Definition Seek (cookie : Z) (it : RedisDirIterator) : RedisDirIterator :=
  mkDirIterator (it_cache it) (it_prefix_entries it) cookie None.
Definition Peek (fuel : nat) : sio (RedisDirIterator * S) (SwordFsEntry * Z) := λ '(it, s),
  if bool_decide (is_Some (it_pending_next it)) then (Err InvalidArgument, (it, s)) else
  let next_cookie := u64 (it_position it + 1) in
  let found (c : RedisDirEntryCache) := mkDirIterator c (it_prefix_entries it) (it_position it) (Some next_cookie) in
  if it_position it <? zlen (it_prefix_entries it) then
    match it_prefix_entries it !! Z.to_nat (it_position it) with
    | Some entry => (Ok (entry, next_cookie), (found (it_cache it), s))
    | None => (Err Internal, (it, s))
    end
  else
    match cache_Get fuel (it_position it - zlen (it_prefix_entries it)) (it_cache it) s with
    | (Ok entry, (c, s)) => (Ok (entry, next_cookie), (found c, s))
    | (Err e, (c, s)) => (Err e, (mkDirIterator c (it_prefix_entries it) (it_position it) (it_pending_next it), s))
    end.
(** [None] is a failed [CHECK]. *)
Definition Advance (it : RedisDirIterator) : option RedisDirIterator :=
  match it_pending_next it with
  | Some next => Some (mkDirIterator (it_cache it) (it_prefix_entries it) next None)
  | None => None
  end.
Definition DT_DIR : Z := 4.
(** [RedisMetaImpl::OpenDir], once the directory has been read. *)
Definition prefix_entries (ino parent : Z) : list SwordFsEntry := [mkEntry (lit ".") DT_DIR ino; mkEntry (lit "..") DT_DIR parent].

(** ** [DirHandle::ReadDir] *)
(** libfuse: the record of one entry, from its name, inode number, mode and offset. *)
Variable fuse_add_direntry : bytes → Z → Z → Z → bytes.
Definition FuseAddEntry (entry : SwordFsEntry) (next_off : Z) : bytes :=
  fuse_add_direntry (entry_name entry) (entry_ino entry) (u32 (Z.shiftl (entry_type entry) 12)) next_off.
Fixpoint read_entries (pages fuel : nat) (size : Z) (out : bytes) : sio (RedisDirIterator * S) bytes := λ st,
  if negb (zlen out <? size) then (Ok out, st) else
  match fuel with
  | O => (Err Internal, st)
  | Datatypes.S fuel =>
      match Peek pages st with
      | (Err EndOfDirectory, st) => (Ok out, st)
      | (Err e, st) => (Err e, st)
      | (Ok (entry, next_off), (it, s)) =>
          let available := size - zlen out in
          let required := zlen (FuseAddEntry entry next_off) in
          if required >? available
          then (if bool_decide (out = []) then Err NoMemory else Ok out, (it, s))
          else match Advance it with
               | Some it => read_entries pages fuel size (out ++ FuseAddEntry entry next_off) (it, s)
               | None => (Err Internal, (it, s))
               end
      end
  end.
Definition ReadDir (pages fuel : nat) (off size : Z) : sio (RedisDirIterator * S) bytes := λ '(it, s),
  if size =? 0 then (Ok [], (it, s)) else
  read_entries pages fuel size [] (Seek (u64 off) it, s).
End Cache.

(** ** A directory that does not change while it is listed *)
Section Stable.
Context `{FollyIO} {S : Type} `{DirScan S}.
Context (scan : Z → list (bytes * bytes) * Z).
Inductive pages_from : Z → list (list (bytes * bytes)) → Prop :=
  | last_page c page : scan c = (page, 0) → pages_from c [page]
  | more_pages c page c' pages : scan c = (page, c') → c' ≠ 0 → pages_from c' pages → pages_from c (page :: pages).
(** A page that is returned is the one of the cursor; a failure is not the end of the stream. *)
Definition scan_stable : Prop := ∀ c s,
  match hscan c s with (Ok r, _) => r = scan c | (Err e, _) => e ≠ EndOfDirectory end.
Definition backend_error (e : Status) : Prop := e ≠ EndOfDirectory ∧ ∃ c s s', hscan (S := S) c s = (Err e, s').
Context (pages : list (list (bytes * bytes))).
Definition fields : list (bytes * bytes) := concat pages.
Definition cache_ok (c : RedisDirEntryCache) : Prop := ∃ seen rest,
  fields = seen ++ dc_entries c ++ rest ∧ dc_base_index c = zlen seen ∧
  if dc_exhausted c then rest = [] else ∃ left, pages_from (dc_cursor c) left ∧ rest = concat left ∧ (length left ≤ length pages)%nat.
Hypothesis Hstable : scan_stable.
Hypothesis Hpages : pages_from 0 pages.

Lemma Reset_ok : cache_ok Reset.
Proof. exists [], fields. split_and!; [done|done|]. cbn. by exists pages. Qed.
Lemma load_pages_ok left fuel index c s seen :
  pages_from (dc_cursor c) left → (length left ≤ fuel)%nat → (length left ≤ length pages)%nat → dc_exhausted c = false → dc_entries c = [] →
  fields = seen ++ concat left → dc_base_index c = zlen seen → dc_base_index c ≤ index →
  let '(r, (c', s')) := load_pages fuel index c s in
  cache_ok c' ∧
  match r with
  | Ok _ => dc_base_index c' ≤ index ∧ (index < dc_base_index c' + zlen (dc_entries c') ∨ dc_exhausted c' = true ∧ dc_entries c' = [])
  | Err e => backend_error e
  end.
Proof.
  intros Hl. revert fuel c s seen Hl. induction left as [|page left IH]; intros fuel c s seen Hl Hf Hn Hx He Hfl Hb Hi; [inversion Hl|].
  destruct fuel as [|fuel]; [cbn in Hf; lia|]. cbn [load_pages]. rewrite Hx. pose proof (Hstable (dc_cursor c) s) as Hs.
  destruct (hscan (dc_cursor c) s) as [[r|e] s1] eqn:Eh; cycle 1.
  { split; [|by split; [|eexists _, _, _]]. exists seen, (concat (page :: left)). rewrite Hx, He. split_and!; [done|done|]. by exists (page :: left). }
  subst r. assert (concat (page :: left) = page ++ concat left) as Ec by done. rewrite Ec in Hfl.
  destruct (scan (dc_cursor c)) as [values next] eqn:Es. cbn [orb].
  assert (values = page ∧ if next =? 0 then left = [] else pages_from next left) as [-> Hnext].
  { inversion Hl; simplify_eq; rewrite Es in *; simplify_eq; [done|]. split; [done|]. by rewrite (proj2 (Z.eqb_neq _ _)). }
  assert (∀ c', dc_entries c' = [] → dc_base_index c' = zlen (seen ++ page) → dc_exhausted c' = (next =? 0) → dc_cursor c' = next → cache_ok c') as Hnew.
  { intros c' E1 E2 E3 E4. exists (seen ++ page), (concat left). rewrite E1, E2, E3, E4, Hfl, app_assoc. split_and!; [done|done|].
    destruct (next =? 0); [by subst left|]. exists left. split_and!; [done|done|]. cbn in Hn. lia. }
  destruct (Z.ltb_spec index (dc_base_index c + zlen page)) as [Hlt|Hge].
  { split; cbn; [|split; [lia|by left]]. exists seen, (concat left). cbn. split_and!; [done|done|].
    destruct (next =? 0); [by subst left|]. exists left. split_and!; [done|done|]. cbn in Hn. lia. }
  destruct (Z.eqb_spec next 0) as [->|Hne].
  { subst left. assert (∀ c', dc_exhausted c' = true → load_pages fuel index c' s1 = (Ok tt, (c', s1))) as E by (intros c' E; destruct fuel; cbn; by rewrite E).
    rewrite E by done. split; [apply Hnew; cbn; rewrite ?zlen_app; done || lia|]. split; [cbn; lia|]. by right. }
  apply (IH fuel _ s1 (seen ++ page)); cbn in *; rewrite ?zlen_app, ?He; try done; try lia. by rewrite <-app_assoc.
Qed.
(** What the stream has at a position of the hash. *)
Definition ideal (index : Z) : result SwordFsEntry :=
  match fields !! Z.to_nat index with Some x => parse_named x | None => Err EndOfDirectory end.
Lemma EnsureLoaded_ok index c s : 0 ≤ index → cache_ok c →
  let '(r, (c', s')) := EnsureLoaded (length pages) index c s in
  cache_ok c' ∧
  match r with
  | Ok _ => dc_base_index c' ≤ index ∧ (index < dc_base_index c' + zlen (dc_entries c') ∨ dc_exhausted c' = true ∧ dc_entries c' = [])
  | Err e => backend_error e
  end.
Proof.
  intros Hi Hc. unfold EnsureLoaded. set (c1 := if index <? dc_base_index c then Reset else c).
  assert (cache_ok c1 ∧ dc_base_index c1 ≤ index) as [H1 Hb1].
  { unfold c1. destruct (Z.ltb_spec index (dc_base_index c)); [split; [apply Reset_ok|done]|done]. }
  clearbody c1. destruct (Z.ltb_spec index (dc_base_index c1 + zlen (dc_entries c1))) as [Hlt|Hge]; [split; [done|]; auto|].
  destruct H1 as (seen & rest & Hf & Hb & Hr). destruct (dc_exhausted c1) eqn:Ex.
  - subst rest. assert (∀ fuel c', dc_exhausted c' = true → load_pages fuel index c' s = (Ok tt, (c', s))) as E by (intros fuel c' E; destruct fuel; cbn; by rewrite E).
    rewrite E by done. split; [|split; [cbn; lia|by right]]. exists (seen ++ dc_entries c1), []. cbn. rewrite zlen_app, !app_nil_r in *. split_and!; [done|lia|done].
  - destruct Hr as (left & Hl & -> & Hn). rewrite app_assoc in Hf.
    apply (load_pages_ok left _ _ _ _ (seen ++ dc_entries c1)); cbn; rewrite ?zlen_app; try done; lia.
Qed.
Lemma cache_Get_ok index c s : 0 ≤ index → cache_ok c →
  let '(r, (c', s')) := cache_Get (length pages) index c s in
  cache_ok c' ∧ (r = ideal index ∨ ∃ e, r = Err e ∧ backend_error e).
Proof.
  intros Hi Hc. unfold cache_Get. pose proof (EnsureLoaded_ok index c s Hi Hc) as HE.
  destruct (EnsureLoaded (length pages) index c s) as [[[]|e] [c' s']]; [|destruct HE as [??]; split; [done|]; right; eauto].
  destruct HE as (Hc' & Hb & Hor). split; [done|]. left. unfold ideal. destruct Hc' as (seen & rest & Hf & Hbase & Hr). rewrite Hf.
  rewrite Z.geb_leb. destruct (Z.leb_spec (dc_base_index c' + zlen (dc_entries c')) index) as [Hge|Hlt].
  - destruct Hor as [|[Hx He]]; [lia|]. rewrite Hx in Hr. subst rest. rewrite lookup_ge_None_2; [done|]. rewrite He in *. unfold zlen in *. rewrite !length_app. cbn in *. lia.
  - unfold zlen in *. rewrite lookup_app_r by lia. rewrite lookup_app_l by lia.
    replace (Z.to_nat index - length seen)%nat with (Z.to_nat (index - dc_base_index c')) by lia.
    destruct (lookup_lt_is_Some_2 (dc_entries c') (Z.to_nat (index - dc_base_index c'))) as [x ->]; [lia|done].
Qed.

(** The stream: the entries in front, then those of the hash. *)
Context (front hashed : list SwordFsEntry).
Hypothesis Hhashed : Forall2 (λ x e, parse_named x = Ok e) fields hashed.
Definition listing : list SwordFsEntry := front ++ hashed.
Hypothesis Hlisting : zlen listing < 2 ^ 63.
Definition it_ok (it : RedisDirIterator) : Prop := cache_ok (it_cache it) ∧ it_prefix_entries it = front.
Lemma ideal_hashed index : ideal index = match hashed !! Z.to_nat index with Some e => Ok e | None => Err EndOfDirectory end.
Proof.
  unfold ideal. destruct (fields !! Z.to_nat index) as [x|] eqn:E.
  - destruct (Forall2_lookup_l _ _ _ _ _ Hhashed E) as (e & -> & He). exact He.
  - assert (hashed !! Z.to_nat index = None) as -> by (apply lookup_ge_None_2; rewrite <-(Forall2_length _ _ _ Hhashed); by apply lookup_ge_None_1). done.
Qed.
Lemma Peek_ok it s : it_ok it → it_pending_next it = None → 0 ≤ it_position it →
  let '(r, (it', s')) := Peek (length pages) (it, s) in
  it_ok it' ∧ it_position it' = it_position it ∧
  ((∃ e, listing !! Z.to_nat (it_position it) = Some e ∧ r = Ok (e, it_position it + 1) ∧ it_pending_next it' = Some (it_position it + 1)) ∨
   (listing !! Z.to_nat (it_position it) = None ∧ r = Err EndOfDirectory) ∨ ∃ e, r = Err e ∧ backend_error e).
Proof.
  intros [Hc Hf] Hp Hpos. cbn. rewrite Hp, bool_decide_eq_false_2 by (by intros [? ?]).
  assert (∀ e, listing !! Z.to_nat (it_position it) = Some e → u64 (it_position it + 1) = it_position it + 1) as Hu.
  { intros e He. apply lookup_lt_Some in He. apply wrap_id; [done|]. unfold in_range, zlen in *. lia. }
  rewrite Hf. unfold listing in *. destruct (Z.ltb_spec (it_position it) (zlen front)) as [Hlt|Hge].
  - unfold zlen in Hlt. destruct (lookup_lt_is_Some_2 front (Z.to_nat (it_position it))) as [e He]; [lia|]. rewrite He.
    assert ((front ++ hashed) !! Z.to_nat (it_position it) = Some e) as He' by (by apply lookup_app_l_Some).
    split; [done|]. split; [done|]. left. exists e. cbn. by rewrite (Hu e He').
  - pose proof (cache_Get_ok (it_position it - zlen front) (it_cache it) s ltac:(lia) Hc) as HG.
    destruct (cache_Get (length pages) (it_position it - zlen front) (it_cache it) s) as [r [c' s']]. destruct HG as [Hc' Hr].
    assert ((front ++ hashed) !! Z.to_nat (it_position it) = hashed !! Z.to_nat (it_position it - zlen front)) as El.
    { unfold zlen in *. rewrite lookup_app_r by lia. f_equal. lia. }
    destruct Hr as [->|(e & -> & He)]; [|split; [done|]; split; [done|]; right; right; eauto].
    rewrite ideal_hashed, <-El. destruct ((front ++ hashed) !! Z.to_nat (it_position it)) as [e|] eqn:E.
    + split; [done|]. split; [done|]. left. exists e. cbn. by rewrite (Hu e eq_refl).
    + split; [done|]. split; [done|]. right. by left.
Qed.

(** *** What a reply holds: as many entries as fit *)
Context (fuse_add_direntry : bytes → Z → Z → Z → bytes).
Abbreviation record := (FuseAddEntry fuse_add_direntry).
Hypothesis Hrecord : ∀ e off, 0 < zlen (record e off).
Fixpoint greedy (room position : Z) (l : list SwordFsEntry) : list (SwordFsEntry * Z) :=
  match l with
  | [] => []
  | e :: l =>
      let required := zlen (record e (position + 1)) in
      if required <=? room then (e, position + 1) :: greedy (room - required) (position + 1) l else []
  end.
Definition render (l : list (SwordFsEntry * Z)) : bytes := concat (map (λ x, record x.1 x.2) l).
Definition from (position : Z) : list SwordFsEntry := drop (Z.to_nat position) listing.
Lemma from_lookup position : 0 ≤ position → from position =
  match listing !! Z.to_nat position with Some e => e :: from (position + 1) | None => [] end.
Proof.
  intros Hp. unfold from. destruct (listing !! Z.to_nat position) as [e|] eqn:E.
  - rewrite (drop_S _ _ _ E). repeat f_equal. lia.
  - by apply drop_ge, lookup_ge_None_1.
Qed.
Definition served (out : bytes) (size position : Z) : result bytes :=
  let g := greedy (size - zlen out) position (from position) in
  if bool_decide (out ++ render g = []) && bool_decide (from position ≠ []) then Err NoMemory else Ok (out ++ render g).
Lemma read_entries_ok fuel size out it s : it_ok it → it_pending_next it = None → 0 ≤ it_position it → zlen out ≤ size → 0 < size →
  (length (from (it_position it)) < fuel)%nat →
  let '(r, (it', s')) := read_entries fuse_add_direntry (length pages) fuel size out (it, s) in
  it_ok it' ∧
  (r = served out size (it_position it) ∧ it_position it' = it_position it + zlen (greedy (size - zlen out) (it_position it) (from (it_position it))) ∨
   ∃ e, r = Err e ∧ backend_error e).
Proof.
  revert out it s. induction fuel as [|fuel IH]; intros out it s Hit Hp Hpos Ho Hsz Hf; [lia|]. cbn [read_entries].
  destruct (Z.ltb_spec (zlen out) size) as [Hlt|Hge]; cbn [negb]; cycle 1.
  { split; [done|]. left. assert (size = zlen out) as -> by lia. rewrite Z.sub_diag. unfold served.
    assert (greedy 0 (it_position it) (from (it_position it)) = []) as Eg.
    { destruct (from (it_position it)) as [|e l]; cbn; [done|]. pose proof (Hrecord e (it_position it + 1)). by rewrite (proj2 (Z.leb_gt _ _)) by lia. }
    rewrite Z.sub_diag, Eg. unfold render. cbn. rewrite app_nil_r. rewrite bool_decide_eq_false_2 by (intros ->; done). cbn. split; [done|unfold zlen; cbn; lia]. }
  pose proof (Peek_ok it s Hit Hp Hpos) as HP. destruct (Peek (length pages) (it, s)) as [r [it1 s1]]. destruct HP as (Hit1 & Hpos1 & HP).
  destruct HP as [(e & He & -> & Hnext)|[(Hn & ->)|(e & -> & Hb)]]; cycle 1.
  { split; [done|]. left. unfold served. rewrite from_lookup, Hn by done. cbn. unfold render. cbn. rewrite app_nil_r, andb_false_r. split; [done|unfold zlen; cbn; lia]. }
  { destruct e; try (by destruct Hb as [Hne _]); (split; [exact Hit1|]); right; eauto. }
  pose proof (from_lookup (it_position it) Hpos) as Ef. rewrite He in Ef. unfold served. rewrite Ef. cbn [greedy].
  rewrite Z.gtb_ltb, Z.leb_antisym. destruct (Z.ltb_spec (size - zlen out) (zlen (record e (it_position it + 1)))) as [Hbig|Hfits]; cbn [negb].
  { split; [done|]. left. unfold render. cbn. rewrite app_nil_r. split; [|unfold zlen; cbn; lia]. by case_bool_decide. }
  unfold Advance. rewrite Hnext. set (it2 := mkDirIterator _ _ _ None).
  specialize (IH (out ++ record e (it_position it + 1)) it2 s1). rewrite zlen_app in IH. cbn [it2 it_position it_pending_next] in IH.
  rewrite Ef in Hf. cbn [length] in Hf. specialize (IH Hit1 eq_refl ltac:(lia) ltac:(lia) Hsz ltac:(lia)).
  destruct (read_entries fuse_add_direntry (length pages) fuel size (out ++ record e (it_position it + 1)) (it2, s1)) as [r [it' s']].
  destruct IH as [Hit' [[-> Hpos']|Herr]]; (split; [exact Hit'|]); [left|by right]. pose proof (Hrecord e (it_position it + 1)) as Hr.
  rewrite Hpos', zlen_cons. unfold served. rewrite zlen_app, Z.sub_add_distr. unfold render. cbn [map concat fst snd]. rewrite <-app_assoc.
  assert (∀ l, out ++ record e (it_position it + 1) ++ l ≠ []) as Hnn by (intros l [_ [E _]%app_nil]%app_nil; by rewrite E in Hr).
  rewrite !(bool_decide_eq_false_2 (out ++ _ ++ _ = [])) by apply Hnn. split; [done|lia].
Qed.

Lemma ReadDir_ok off size it s : it_ok it → 0 ≤ off < 2 ^ 63 → 0 < size →
  let '(r, (it', s')) := ReadDir fuse_add_direntry (length pages) (length listing + 1) off size (it, s) in
  it_ok it' ∧
  (r = served [] size off ∧ it_position it' = off + zlen (greedy size off (from off)) ∨ ∃ e, r = Err e ∧ backend_error e).
Proof.
  intros Hit Hoff Hsz. unfold ReadDir. rewrite (proj2 (Z.eqb_neq _ _)) by lia. rewrite wrap_id by (unfold in_range; lia).
  assert (length (from off) < length listing + 1)%nat by (unfold from; rewrite length_drop; lia).
  replace (greedy size off (from off)) with (greedy (size - zlen (@nil ascii)) off (from off)) by (f_equal; unfold zlen; cbn; lia).
  apply (read_entries_ok _ size [] (Seek off it) s); try done; unfold zlen; cbn; lia.
Qed.

(** The entries of a stream with their offsets. *)
Fixpoint numbered (position : Z) (l : list SwordFsEntry) : list (SwordFsEntry * Z) :=
  match l with [] => [] | e :: l => (e, position + 1) :: numbered (position + 1) l end.
Lemma greedy_numbered room position l :
  numbered position l = greedy room position l ++ numbered (position + zlen (greedy room position l)) (drop (length (greedy room position l)) l).
Proof.
  revert room position. induction l as [|e l IH]; intros room position; cbn; [done|]. destruct (_ <=? room); cbn [length app drop].
  - f_equal. rewrite (IH (room - zlen (record e (position + 1))) (position + 1)) at 1. rewrite zlen_cons. do 2 f_equal. lia.
  - cbn. by rewrite Z.add_0_r.
Qed.
Lemma greedy_length room position l : (length (greedy room position l) ≤ length l)%nat.
Proof. revert room position. induction l as [|e l IH]; intros; cbn; [lia|]. destruct (_ <=? _); cbn; [specialize (IH (room - zlen (record e (position + 1))) (position + 1))|]; lia. Qed.
(** A reader that asks for the next part until a reply is empty; the offset it asks for, that
    of the last entry of the reply, is the position of the stream. *)
Fixpoint read_stream (n : nat) (size off : Z) : sio (RedisDirIterator * S) bytes := λ st,
  match n with
  | O => (Err Internal, st)
  | Datatypes.S n =>
      match ReadDir fuse_add_direntry (length pages) (length listing + 1) off size st with
      | (Err e, st) => (Err e, st)
      | (Ok out, st) =>
          if bool_decide (out = []) then (Ok [], st) else
          match read_stream n size (it_position st.1) st with
          | (Ok rest, st) => (Ok (out ++ rest), st)
          | (Err e, st) => (Err e, st)
          end
      end
  end.
Lemma read_stream_ok n size off it s : it_ok it → 0 ≤ off ≤ zlen listing → (∀ e o, e ∈ listing → zlen (record e o) ≤ size) → 0 < size → (length (from off) < n)%nat →
  let '(r, (it', s')) := read_stream n size off (it, s) in
  it_ok it' ∧ (r = Ok (render (numbered off (from off))) ∨ ∃ e, r = Err e ∧ backend_error e).
Proof.
  intros Hit Hoff Hfit Hsz. revert off it s Hit Hoff. induction n as [|n IH]; intros off it s Hit Hoff Hn; [lia|]. cbn [read_stream].
  pose proof (ReadDir_ok off size it s Hit ltac:(lia) Hsz) as HR.
  destruct (ReadDir fuse_add_direntry (length pages) (length listing + 1) off size (it, s)) as [r [it1 s1]].
  destruct HR as [Hit1 [[-> Hpos]|(e & -> & He)]]; [|split; [done|]; right; eauto]. unfold served. cbn [app].
  assert (size - zlen (@nil ascii) = size) as -> by (unfold zlen; cbn; lia). set (g := greedy size off (from off)) in *.
  destruct (from off) as [|e l] eqn:Ef.
  { cbn. split; [done|]. by left. }
  assert (e ∈ listing) as Hin by (rewrite <-(take_drop (Z.to_nat off) listing); apply elem_of_app; right; unfold from in Ef; rewrite Ef; by left).
  assert (∃ g', g = (e, off + 1) :: g') as [g' Eg] by (unfold g; cbn; rewrite (proj2 (Z.leb_le _ _)) by (by apply Hfit); eauto).
  pose proof (Hrecord e (off + 1)) as Hr. assert (render g ≠ []) as Hg.
  { rewrite Eg. unfold render. cbn. intros [E _]%app_nil. by rewrite E in Hr. }
  rewrite bool_decide_eq_false_2 by done. cbn [andb]. rewrite bool_decide_eq_false_2 by done. cbn [fst].
  pose proof (greedy_numbered size off (e :: l)) as Hs. fold g in Hs. pose proof (greedy_length size off (e :: l)) as Hl. fold g in Hl.
  assert (from (it_position it1) = drop (length g) (e :: l)) as Ef1.
  { rewrite <-Ef, Hpos. unfold from, zlen. rewrite drop_drop. f_equal. lia. }
  assert (length (from off) = length listing - Z.to_nat off)%nat as Hlen by (unfold from; by rewrite length_drop). rewrite Ef in Hlen.
  specialize (IH (it_position it1) it1 s1 Hit1). rewrite Ef1 in IH. rewrite length_drop in IH.
  assert (1 ≤ length g)%nat by (rewrite Eg; cbn; lia).
  specialize (IH ltac:(rewrite Hpos; unfold zlen in *; lia) ltac:(cbn [length] in *; lia)).
  destruct (read_stream n size (it_position it1) (it1, s1)) as [r [it' s']]. destruct IH as [Hit' [->|(e' & -> & He')]]; (split; [done|]); [left|right; eauto].
  f_equal. rewrite Hs, Hpos. unfold render. by rewrite map_app, concat_app.
Qed.

(** *** The listing and the hash *)
(** A full HSCAN of a hash that does not change returns every field with its value, and
    nothing else; Redis may return a field more than once. *)
Definition scans (dir : gmap bytes bytes) : Prop := ∀ x, x ∈ fields ↔ dir !! x.1 = Some x.2.
(** The hash holds the entry under its name. *)
Definition holds (dir : gmap bytes bytes) (e : SwordFsEntry) : Prop :=
  ∃ value, dir !! entry_name e = Some value ∧ Entry_ParseFrom value = Ok e.
Lemma parse_named_Ok x e : parse_named x = Ok e → entry_name e = x.1 ∧ Entry_ParseFrom x.2 = Ok e.
Proof. unfold parse_named. destruct (Entry_ParseFrom x.2) as [e'|]; cbn; [|done]. case_bool_decide; [|done]. by intros [= <-]. Qed.
Lemma listed_names : entry_name <$> hashed = fields.*1.
Proof.
  clear -Hhashed. revert Hhashed. generalize fields as l. intros l Hl. induction Hl as [|x e l k Hx _ IH]; [done|].
  rewrite !fmap_cons, IH. f_equal. by apply parse_named_Ok.
Qed.
Lemma listed_entries dir : scans dir → ∀ e, e ∈ hashed ↔ holds dir e.
Proof.
  intros Hd e. split.
  - intros (i & Hi)%list_elem_of_lookup. destruct (Forall2_lookup_r _ _ _ _ _ Hhashed Hi) as (x & Hx & [En Ep]%parse_named_Ok).
    exists x.2. rewrite En. split; [|done]. by apply Hd, list_elem_of_lookup_2 with i.
  - intros (value & Hv & Hp). assert ((entry_name e, value) ∈ fields) as (i & Hi)%list_elem_of_lookup by (by apply Hd).
    destruct (Forall2_lookup_l _ _ _ _ _ Hhashed Hi) as (e' & He' & [_ Ep]%parse_named_Ok). cbn in Ep. rewrite Hp in Ep. injection Ep as <-.
    by eapply list_elem_of_lookup_2.
Qed.

(** C37: Reading a directory that does not change, part by part into buffers that hold its
    largest record, ends and returns the entries [.] and [..] and then the entries of the hash,
    each with the offset of its successor, wherever the stream was before and whatever pages
    HSCAN cuts the hash into; or it fails because a command failed.  The entries listed are
    exactly those the hash holds under their names, and each name is listed once if HSCAN
    returns each field once; a field that HSCAN repeats is listed again. *)
Theorem directory_stream_complete dir size it s :
  scans dir → it_ok it → (∀ e o, e ∈ listing → zlen (record e o) ≤ size) → 0 < size →
  let '(r, (it', s')) := read_stream (Datatypes.S (length listing)) size 0 (it, s) in
  it_ok it' ∧ (r = Ok (render (numbered 0 (front ++ hashed))) ∨ ∃ e, r = Err e ∧ backend_error e) ∧
  (∀ e, e ∈ hashed ↔ holds dir e) ∧ (NoDup (fields.*1) → NoDup (entry_name <$> hashed)).
Proof.
  intros Hd Hit Hfit Hsz. assert (from 0 = listing) as E by done. pose proof (read_stream_ok (Datatypes.S (length listing)) size 0 it s Hit) as HR.
  rewrite E in HR. specialize (HR ltac:(pose proof (zlen_nonneg listing); lia) Hfit Hsz ltac:(lia)).
  destruct (read_stream _ _ _ _) as [r [it' s']]. destruct HR as [Hit' Hr]. split_and!; [done|done|by apply listed_entries|by rewrite listed_names].
Qed.

End Stable.

(** ** A directory of three entries on two pages *)
Definition field_of (e : SwordFsEntry) : bytes * bytes := (entry_name e, match Entry_SerializeTo e with Ok v => v | Err _ => [] end).
Definition sample_hashed : list SwordFsEntry := [mkEntry (lit "a") 8 11; mkEntry (lit "sub") 4 12; mkEntry (lit "b") 8 13].
Definition sample_pages : list (list (bytes * bytes)) := [map field_of (take 1 sample_hashed); map field_of (drop 1 sample_hashed)].
Definition sample_scan (cursor : Z) : list (bytes * bytes) * Z :=
  if cursor =? 0 then (map field_of (take 1 sample_hashed), 7) else (map field_of (drop 1 sample_hashed), 0).
#[export] Instance sample_dir : DirScan unit := {| hscan c s := (Ok (sample_scan c), s) |}.
Definition sample_direntry (name : bytes) (ino mode off : Z) : bytes := le_bytes 1 off ++ name.
Lemma sample_stable : scan_stable (S := unit) sample_scan.
Proof. by intros c s. Qed.
Lemma sample_pages_from : pages_from sample_scan 0 sample_pages.
Proof. apply (more_pages _ 0 _ 7); [done|done|]. by apply last_page. Qed.
Lemma sample_parses : Forall2 (λ x e, parse_named x = Ok e) (fields sample_pages) sample_hashed.
Proof. unfold fields, sample_pages, sample_hashed. cbn [map take drop concat app]. repeat (apply List.Forall2_cons; [by vm_compute|]). apply List.Forall2_nil. Qed.
Definition sample_front : list SwordFsEntry := prefix_entries 10 1.
Definition sample_hash : gmap bytes bytes := list_to_map (fields sample_pages).
Lemma sample_no_repeats : NoDup ((fields sample_pages).*1).
Proof. apply (bool_decide_eq_true_1 (NoDup ((fields sample_pages).*1))). vm_compute. reflexivity. Qed.
Lemma sample_hash_scanned : scans sample_pages sample_hash.
Proof. intros [k v]. cbn [fst snd]. apply elem_of_list_to_map, sample_no_repeats. Qed.
Lemma directory_stream_complete_witness :
  (read_stream sample_pages sample_front sample_hashed sample_direntry 6 5 0 (new_iterator sample_front, tt)).1 =
    Ok (render sample_direntry (numbered 0 (listing sample_front sample_hashed))) ∧
  (∀ e, e ∈ sample_hashed ↔ holds sample_hash e) ∧ NoDup (entry_name <$> sample_hashed).
Proof.
  assert (zlen (listing sample_front sample_hashed) < 2 ^ 63) as H1 by (vm_compute; reflexivity).
  assert (∀ e off, 0 < zlen (FuseAddEntry sample_direntry e off)) as H2.
  { intros e off. unfold FuseAddEntry, sample_direntry. rewrite zlen_app, zlen_le_bytes. pose proof (zlen_nonneg (entry_name e)). lia. }
  assert (it_ok sample_scan sample_pages sample_front (new_iterator sample_front)) as H3 by (split; [apply Reset_ok, sample_pages_from|done]).
  assert (∀ e o, e ∈ listing sample_front sample_hashed → zlen (FuseAddEntry sample_direntry e o) ≤ 5) as H4.
  { intros e o He. unfold FuseAddEntry, sample_direntry. rewrite zlen_app, zlen_le_bytes. assert (zlen (entry_name e) ≤ 4) as Hn; [|lia]. revert e He.
    apply Forall_forall. repeat (apply Forall_cons_2; [vm_compute; discriminate|]). apply Forall_nil_2. }
  assert (0 < 5) as H5 by lia.
  assert (read_stream sample_pages sample_front sample_hashed sample_direntry 6 5 0 (new_iterator sample_front, tt) = (Ok (render sample_direntry (numbered 0 (listing sample_front sample_hashed))), 
    (read_stream sample_pages sample_front sample_hashed sample_direntry 6 5 0 (new_iterator sample_front, tt)).2)) as H6 by (vm_compute; reflexivity).
  pose proof (directory_stream_complete sample_scan sample_pages sample_stable sample_pages_from sample_front sample_hashed sample_parses H1 sample_direntry H2 sample_hash 5 (new_iterator sample_front) tt sample_hash_scanned H3 H4 H5) as H.
  change (Datatypes.S (length (listing sample_front sample_hashed))) with 6%nat in H. rewrite H6 in H. rewrite H6.
  destruct (read_stream sample_pages sample_front sample_hashed sample_direntry 6 5 0 (new_iterator sample_front, tt)).2 as [it' s']. destruct H as (_ & Hr & Hh & Hd).
  split; [destruct Hr as [Hr|(e & He & _)]; [exact Hr|discriminate He]|]. split; [exact Hh|]. apply Hd, sample_no_repeats.
Defined.
