(* ===== verification/DirPlus.v ===== *)
(** * Directory streams with attributes ([DirHandle::ReadDirPlus], src/src/vfs/DirHandle.cpp)

    Entries are collected in batches whose inodes are read with one command; an entry whose
    inode is gone is left out, and the room it had reserved is used for the next ones. *)

From stdpp Require Import gmap.
From S2P Require Import Prelude InodeTypes Codec Records StateIo FileRw DirListing.

(** [IMetaEngine::GetInodes] *)
Class InodeBatch (S : Type) := { get_inodes : list Z → S → result (list (option SwordFsInode)) * S }.
(** libfuse: the record of an entry with attributes; without an inode the parameters are zero. *)
Class DirentryPlus := { fuse_add_direntry_plus : bytes → option SwordFsInode → Z → bytes }.

Record Candidate := mkCandidate { cd_entry : SwordFsEntry; cd_next_off : Z; cd_required : Z }.
Definition kAttrBatchSize : nat := 128.
(** [std::sort] by inode number, and [std::unique] *)
Definition ino_le {A : Type} (x y : Z * A) : Prop := x.1 ≤ y.1.
#[export] Instance ino_le_dec {A : Type} (x y : Z * A) : Decision (ino_le x y).
Proof. unfold ino_le. apply _. Defined.
Fixpoint unique_ino {A : Type} (l : list (Z * A)) : list (Z * A) :=
  match l with
  | [] => []
  | x :: l => match unique_ino l with
              | y :: l' => if x.1 =? y.1 then x :: l' else x :: y :: l'
              | [] => [x]
              end
  end.
Fixpoint lower_bound {A : Type} (l : list (Z * A)) (ino : Z) : option (Z * A) :=
  match l with
  | [] => None
  | x :: l => if x.1 <? ino then lower_bound l ino else Some x
  end.

Section DirPlus.
Context `{FollyIO} {S C : Type} `{DirScan S, InodeBatch S, DirentryPlus}.
(** The handles this mount has, and the state of their files. *)
Context (handles : Z → option (FileReadWriter C)).

Definition space (entry : SwordFsEntry) (next_off : Z) : Z := zlen (fuse_add_direntry_plus (entry_name entry) None next_off).
Inductive batch :=
  | batch_return (r : result bytes)
  | batch_of (candidates : list Candidate) (end_of_directory : bool) (blocked : option (Z * Z)).
Fixpoint collect (pages k : nat) (size : Z) (out : bytes) (candidates : list Candidate) (reserved current_cookie : Z)
    (st : RedisDirIterator * S) : batch * Z * (RedisDirIterator * S) :=
  match k with
  | O => (batch_of candidates false None, current_cookie, st)
  | Datatypes.S k =>
      match Peek pages st with
      | (Err EndOfDirectory, st) => (batch_of candidates true None, current_cookie, st)
      | (Err e, st) => (batch_return (Err e), current_cookie, st)
      | (Ok (entry, next_cookie), (it, s)) =>
          let required := space entry next_cookie in
          let available := size - zlen out in
          if required >? available - reserved then
            (if bool_decide (candidates = [])
             then batch_return (if bool_decide (out = []) then Err NoMemory else Ok out)
             else batch_of candidates false (Some (current_cookie, required)), current_cookie, (it, s))
          else match Advance it with
               | Some it => collect pages k size out (candidates ++ [mkCandidate entry next_cookie required])
                              (reserved + required) next_cookie (it, s)
               | None => (batch_return (Err Internal), current_cookie, (it, s))
               end
      end
  end.
(** The handles whose attribute locks are taken, in the order they are taken. *)
Definition tracked_handles (ids : list Z) : list (Z * FileReadWriter C) :=
  unique_ino (merge_sort ino_le (omap (λ i, pair i <$> handles i) ids)).
Definition overlay (tracked : list (Z * FileReadWriter C)) (inode : SwordFsInode) : SwordFsInode :=
  match lower_bound tracked (ino inode) with
  | Some (i, f) => if i =? ino inode then ApplyLiveSize inode f else inode
  | None => inode
  end.
Definition counted (entry : SwordFsEntry) : bool := negb (bool_decide (entry_name entry = lit ".")) && negb (bool_decide (entry_name entry = lit "..")).
(** The encoder appends the record and counts a lookup of the inode, except for [.] and [..]. *)
Fixpoint encode_batch (size : Z) (tracked : list (Z * FileReadWriter C)) (candidates : list Candidate) (inodes : list (option SwordFsInode))
    (out : bytes) (retained : list SwordFsInode) : Status * (bytes * list SwordFsInode) :=
  match candidates, inodes with
  | cd :: candidates, Some inode :: inodes =>
      if negb (ino inode =? entry_ino (cd_entry cd)) then (Malformed, (out, retained)) else
      let inode := overlay tracked inode in
      if cd_required cd >? size - zlen out then (Internal, (out, retained)) else
      encode_batch size tracked candidates inodes
        (out ++ fuse_add_direntry_plus (entry_name (cd_entry cd)) (Some inode) (cd_next_off cd))
        (if counted (cd_entry cd) then retained ++ [inode] else retained)
  | _ :: candidates, None :: inodes => encode_batch size tracked candidates inodes out retained
  | _, _ => (OK, (out, retained))
  end.
Definition plus_reply : Type := result bytes * list SwordFsInode * (RedisDirIterator * S).
Fixpoint read_plus (pages fuel : nat) (size : Z) (out : bytes) (retained : list SwordFsInode) (current_cookie : Z)
    (st : RedisDirIterator * S) : plus_reply :=
  if negb (zlen out <? size) then (Ok out, retained, st) else
  match fuel with
  | O => (Err Internal, retained, st)
  | Datatypes.S fuel =>
      match collect pages kAttrBatchSize size out [] 0 current_cookie st with
      | (batch_return r, _, st) => (r, retained, st)
      | (batch_of [] _ _, _, st) => (Ok out, retained, st)
      | (batch_of candidates end_of_directory blocked, current_cookie, (it, s)) =>
          let inode_ids := map (λ cd, entry_ino (cd_entry cd)) candidates in
          match get_inodes inode_ids s with
          | (Err e, s) => (Err e, retained, (it, s))
          | (Ok inodes, s) =>
              let '(status, (out, retained)) := encode_batch size (tracked_handles inode_ids) candidates inodes out retained in
              if negb (ok status) then (Err status, retained, (it, s)) else
              if end_of_directory then (Ok out, retained, (it, s)) else
              match blocked with
              | Some (blocked_cookie, blocked_required) =>
                  if blocked_required >? size - zlen out
                  then (if bool_decide (out = []) then Err NoMemory else Ok out, retained, (it, s))
                  else read_plus pages fuel size out retained blocked_cookie (Seek blocked_cookie it, s)
              | None => read_plus pages fuel size out retained current_cookie (it, s)
              end
          end
      end
  end.
Definition ReadDirPlus (pages fuel : nat) (off size : Z) : RedisDirIterator * S → plus_reply := λ '(it, s),
  if size =? 0 then (Ok [], [], (it, s)) else
  read_plus pages fuel size [] [] (u64 off) (Seek (u64 off) it, s).
End DirPlus.

(** ** The locks of a batch: one per tracked inode, in increasing order *)
#[local] Instance ino_le_total {A : Type} : Total (@ino_le A).
Proof. intros x y. unfold ino_le. lia. Qed.
#[local] Instance ino_le_trans {A : Type} : Transitive (@ino_le A).
Proof. intros x y z. unfold ino_le. lia. Qed.
Lemma unique_ino_head {A : Type} (l : list (Z * A)) x : head (unique_ino l) = Some x → head l = Some x.
Proof. destruct l as [|y l]; [done|]. cbn. destruct (unique_ino l) as [|z l']; [done|]. by destruct (y.1 =? z.1). Qed.
Lemma unique_ino_in {A : Type} (l : list (Z * A)) x : x ∈ unique_ino l → x ∈ l.
Proof.
  induction l as [|y l IH]; cbn; [done|]. destruct (unique_ino l) as [|z l']; [intros [->|?%not_elem_of_nil]%elem_of_cons; [by left|done]|].
  destruct (y.1 =? z.1); intros [->|Hx]%elem_of_cons; [by left| |by left|]; right; apply IH; [by right|done].
Qed.
Lemma unique_ino_keys {A : Type} (l : list (Z * A)) x : x ∈ l → ∃ y, y ∈ unique_ino l ∧ y.1 = x.1.
Proof.
  induction l as [|y l IH]; [by intros ?%not_elem_of_nil|]. cbn. intros [->|Hx]%elem_of_cons.
  - exists y. split; [|done]. destruct (unique_ino l) as [|z l']; [by left|]. destruct (y.1 =? z.1); by left.
  - destruct (IH Hx) as (w & Hw & Ew). destruct (unique_ino l) as [|z l']; [by apply not_elem_of_nil in Hw|].
    destruct (Z.eqb_spec y.1 z.1) as [E|E]; [|exists w; split; [by right|done]].
    apply elem_of_cons in Hw as [->|Hw]; [exists y|exists w]; (split; [|congruence]); [by left|by right].
Qed.
Lemma unique_ino_sorted {A : Type} (l : list (Z * A)) : StronglySorted ino_le l → StronglySorted (λ x y, x.1 < y.1) (unique_ino l).
Proof.
  induction 1 as [|x l Hs IH Hx]; cbn; [constructor|]. assert (∀ y, y ∈ unique_ino l → x.1 ≤ y.1) as Hle.
  { intros y Hy. apply unique_ino_in in Hy. rewrite Forall_forall in Hx. by apply Hx. }
  destruct (unique_ino l) as [|z l']; [by repeat constructor|]. apply StronglySorted_inv in IH as [Hs' Hz]. rewrite Forall_forall in Hz.
  destruct (Z.eqb_spec x.1 z.1) as [E|E]; constructor; [done| |by constructor; [|rewrite Forall_forall]|]; rewrite Forall_forall; intros y.
  - intros Hy. specialize (Hz y Hy). lia.
  - intros [->|Hy]%elem_of_cons; [specialize (Hle z ltac:(by left)); lia|]. specialize (Hz y Hy). specialize (Hle z ltac:(by left)). lia.
Qed.
Lemma lower_bound_key {A : Type} (l : list (Z * A)) i : StronglySorted ino_le l →
  match lower_bound l i with
  | Some x => x ∈ l ∧ ((∃ y, y ∈ l ∧ y.1 = i) → x.1 = i)
  | None => ∀ y, y ∈ l → y.1 ≠ i
  end.
Proof.
  induction 1 as [|x l Hs IH Hx]; cbn; [by intros y ?%not_elem_of_nil|]. rewrite Forall_forall in Hx. destruct (Z.ltb_spec x.1 i) as [Hlt|Hge].
  - destruct (lower_bound l i) as [y|].
    + destruct IH as [Hy IH]. split; [by right|]. intros (z & [->|Hz]%elem_of_cons & Ez); [lia|]. apply IH. eauto.
    + intros y [->|Hy]%elem_of_cons; [lia|]. by apply IH.
  - split; [by left|]. intros (y & [->|Hy]%elem_of_cons & Ey); [done|]. specialize (Hx y Hy). unfold ino_le in Hx. lia.
Qed.
Lemma lt_le_sorted {A : Type} (l : list (Z * A)) : StronglySorted (λ x y, x.1 < y.1) l → StronglySorted ino_le l.
Proof. induction 1 as [|x l Hs IH Hx]; constructor; [done|]. eapply Forall_impl; [exact Hx|]. cbn. unfold ino_le. lia. Qed.

Section Tracked.
Context {C : Type} (handles : Z → option (FileReadWriter C)).
Lemma tracked_sorted ids : StronglySorted (λ x y, x.1 < y.1) (tracked_handles handles ids).
Proof. apply unique_ino_sorted, StronglySorted_merge_sort; apply _. Qed.
Lemma tracked_in ids x : x ∈ tracked_handles handles ids → handles x.1 = Some x.2.
Proof.
  intros Hx%unique_ino_in. rewrite merge_sort_Permutation in Hx. apply list_elem_of_omap in Hx as (i & _ & Hi).
  destruct (handles i) as [f|] eqn:E; cbn in Hi; by simplify_eq.
Qed.
Lemma tracked_has ids i f : i ∈ ids → handles i = Some f → ∃ y, y ∈ tracked_handles handles ids ∧ y.1 = i.
Proof.
  intros Hi Hf. apply (unique_ino_keys _ (i, f)). rewrite merge_sort_Permutation. apply list_elem_of_omap. exists i. split; [done|]. by rewrite Hf.
Qed.
(** The attributes of an inode of the batch, with the live size of its handle if it has one. *)
Definition live_attr (inode : SwordFsInode) : SwordFsInode :=
  match handles (ino inode) with Some f => ApplyLiveSize inode f | None => inode end.
Lemma overlay_live ids inode : ino inode ∈ ids → overlay (tracked_handles handles ids) inode = live_attr inode.
Proof.
  intros Hi. unfold overlay, live_attr. pose proof (lower_bound_key _ (ino inode) (lt_le_sorted _ (tracked_sorted ids))) as HL.
  destruct (lower_bound (tracked_handles handles ids) (ino inode)) as [[i f]|]; cbn [fst] in *.
  - destruct HL as [Hin HL]. apply tracked_in in Hin. cbn in Hin. destruct (Z.eqb_spec i (ino inode)) as [->|Hne]; [by rewrite Hin|].
    destruct (handles (ino inode)) as [g|] eqn:E; [|done]. destruct Hne. apply HL. by eapply tracked_has.
  - destruct (handles (ino inode)) as [g|] eqn:E; [|done]. destruct (tracked_has _ _ _ Hi E) as (y & Hy & Ey). by destruct (HL y Hy).
Qed.
End Tracked.

(** ** What a reply holds *)
Section Spec.
Context `{FollyIO} {S C : Type} `{DirScan S, InodeBatch S, DirentryPlus} (handles : Z → option (FileReadWriter C)).
Context (scan : Z → list (bytes * bytes) * Z) (pages : list (list (bytes * bytes))) (front hashed : list SwordFsEntry) (inode_of : Z → option SwordFsInode).
(** The inodes do not change either; a batch that is read holds them in order. *)
Definition batch_stable : Prop := ∀ ids s,
  match get_inodes ids s with (Ok r, _) => r = map inode_of ids | (Err _, _) => True end.
(** libfuse sizes a record by its name. *)
Definition records_sized : Prop := ∀ name n off, 0 < zlen (fuse_add_direntry_plus name (Some n) off) ∧
  zlen (fuse_add_direntry_plus name (Some n) off) = zlen (fuse_add_direntry_plus name None off).
Hypothesis Hstable : scan_stable (S := S) scan.
Hypothesis Hpages : pages_from scan 0 pages.
Hypothesis Hhashed : Forall2 (λ x e, parse_named x = Ok e) (fields pages) hashed.
Hypothesis Hlisting : zlen (listing front hashed) < 2 ^ 63.
Hypothesis Hbatch : batch_stable.
Hypothesis Hino : ∀ i n, inode_of i = Some n → ino n = i.
Hypothesis Hsized : records_sized.
Abbreviation from := (from front hashed).
Abbreviation it_ok := (it_ok scan pages front).
Definition plus_error (e : Status) : Prop := backend_error (S := S) e ∨ ∃ ids s s', get_inodes (S := S) ids s = (Err e, s').

Fixpoint walk (room position : Z) (l : list SwordFsEntry) : list (SwordFsEntry * SwordFsInode * Z) * bool :=
  match l with
  | [] => ([], false)
  | e :: l =>
      if space e (position + 1) >? room then ([], true) else
      match inode_of (entry_ino e) with
      | Some n => let '(w, blocked) := walk (room - space e (position + 1)) (position + 1) l in
                  ((e, live_attr handles n, position + 1) :: w, blocked)
      | None => walk room (position + 1) l
      end
  end.
Definition render_plus (w : list (SwordFsEntry * SwordFsInode * Z)) : bytes :=
  concat (map (λ '(e, n, o), fuse_add_direntry_plus (entry_name e) (Some n) o) w).
Definition lookups (w : list (SwordFsEntry * SwordFsInode * Z)) : list SwordFsInode := map (λ x, x.1.2) (filter (λ x, counted x.1.1 = true) w).
Fixpoint present (position : Z) (l : list SwordFsEntry) : list (SwordFsEntry * SwordFsInode * Z) :=
  match l with
  | [] => []
  | e :: l => match inode_of (entry_ino e) with
              | Some n => (e, live_attr handles n, position + 1) :: present (position + 1) l
              | None => present (position + 1) l
              end
  end.
Fixpoint total (position : Z) (l : list SwordFsEntry) : Z :=
  match l with [] => 0 | e :: l => space e (position + 1) + total (position + 1) l end.
Fixpoint candidates_of (position : Z) (l : list SwordFsEntry) : list Candidate :=
  match l with [] => [] | e :: l => mkCandidate e (position + 1) (space e (position + 1)) :: candidates_of (position + 1) l end.
Lemma space_pos e o : 0 < space e o.
Proof. destruct (Hsized (entry_name e) (mkInode 0 empty_attr 0 [] []) o) as [Hp E]. unfold space. by rewrite <-E. Qed.
Lemma render_plus_cons e n o w : zlen (render_plus ((e, n, o) :: w)) = space e o + zlen (render_plus w).
Proof. unfold render_plus. cbn. rewrite zlen_app. by rewrite (proj2 (Hsized _ _ _)). Qed.
Lemma present_total position l : zlen (render_plus (present position l)) ≤ total position l.
Proof.
  revert position. induction l as [|e l IH]; intros position; cbn [present total]; [done|]. specialize (IH (position + 1)). pose proof (space_pos e (position + 1)).
  destruct (inode_of (entry_ino e)); rewrite ?render_plus_cons; lia.
Qed.
Lemma total_nonneg position l : 0 ≤ total position l.
Proof. pose proof (present_total position l). pose proof (zlen_nonneg (render_plus (present position l))). lia. Qed.
Lemma walk_app room position l rest : total position l ≤ room →
  walk room position (l ++ rest) =
    let '(w, b) := walk (room - zlen (render_plus (present position l))) (position + zlen l) rest in (present position l ++ w, b).
Proof.
  revert room position. induction l as [|e l IH]; intros room position; cbn [present total app walk].
  - intros _. unfold render_plus, zlen. cbn. rewrite Z.sub_0_r, Z.add_0_r. by destruct (walk room position rest).
  - intros Ht. pose proof (total_nonneg (position + 1) l). pose proof (space_pos e (position + 1)). rewrite Z.gtb_ltb, (proj2 (Z.ltb_ge _ _)) by lia.
    rewrite zlen_cons. replace (position + (zlen l + 1)) with (position + 1 + zlen l) by lia. destruct (inode_of (entry_ino e)) as [n|].
    + rewrite IH by lia. rewrite render_plus_cons, Z.sub_add_distr. by destruct (walk _ (position + 1 + zlen l) rest).
    + rewrite IH by lia. done.
Qed.
Lemma candidates_of_app position l l' : candidates_of position (l ++ l') = candidates_of position l ++ candidates_of (position + zlen l) l'.
Proof.
  revert position. induction l as [|e l IH]; intros position; cbn [candidates_of app]; [by rewrite Z.add_0_r|].
  rewrite IH, zlen_cons. do 3 f_equal. lia.
Qed.
Lemma encode_batch_ok size ids position l out retained :
  (∀ e, e ∈ l → entry_ino e ∈ ids) → total position l ≤ size - zlen out →
  encode_batch size (tracked_handles handles ids) (candidates_of position l) (map inode_of (map entry_ino l)) out retained =
    (OK, (out ++ render_plus (present position l), retained ++ lookups (present position l))).
Proof.
  revert position out retained. induction l as [|e l IH]; intros position out retained Hin Ht; cbn [candidates_of map encode_batch present].
  { unfold render_plus, lookups. cbn. by rewrite !app_nil_r. }
  cbn [total] in Ht. pose proof (total_nonneg (position + 1) l). pose proof (space_pos e (position + 1)).
  assert (∀ e, e ∈ l → entry_ino e ∈ ids) as Hin' by (intros e' He'; apply Hin; by right).
  destruct (inode_of (entry_ino e)) as [n|] eqn:En; [|apply IH; [done|lia]]. cbn [cd_entry cd_required cd_next_off].
  rewrite (Hino _ _ En), Z.eqb_refl. cbn [negb]. rewrite Z.gtb_ltb, (proj2 (Z.ltb_ge _ _)) by lia.
  rewrite overlay_live by (rewrite (Hino _ _ En); apply Hin; by left).
  rewrite IH; [|done|rewrite zlen_app, (proj2 (Hsized _ _ _)); unfold space in *; lia].
  unfold render_plus, lookups. cbn [map concat]. rewrite filter_cons. cbn [fst snd]. destruct (counted e) eqn:Ec.
  - rewrite decide_True by done. cbn [map]. by rewrite <-!app_assoc.
  - rewrite decide_False by done. by rewrite <-!app_assoc.
Qed.
(** What is known after a batch has been collected from [position]. *)
Definition collected (k : nat) (size : Z) (out : bytes) (position : Z) (b : batch) (cookie : Z) (it : RedisDirIterator) : Prop :=
  match b with
  | batch_return r =>
      (∃ e, r = Err e ∧ plus_error e) ∨
      (∃ e rest, from position = e :: rest ∧ size - zlen out < space e (position + 1) ∧ r = if bool_decide (out = []) then Err NoMemory else Ok out)
  | batch_of cds eod blocked => ∃ taken rest,
      from position = taken ++ rest ∧ cookie = position + zlen taken ∧ it_position it = cookie ∧ total position taken ≤ size - zlen out ∧
      cds = candidates_of position taken ∧
      ((eod = true ∧ rest = []) ∨
       (eod = false ∧ blocked = None ∧ length taken = k ∧ it_pending_next it = None) ∨
       (eod = false ∧ taken ≠ [] ∧ ∃ e rest', rest = e :: rest' ∧ blocked = Some (cookie, space e (cookie + 1))))
  end.
Lemma collect_ok k size out position taken it s : it_ok it → it_pending_next it = None → 0 ≤ position → it_position it = position + zlen taken →
  from position = taken ++ from (it_position it) → total position taken ≤ size - zlen out →
  let '(b, cookie, (it', s')) := collect (length pages) k size out (candidates_of position taken) (total position taken) (it_position it) (it, s) in
  it_ok it' ∧ collected (length taken + k) size out position b cookie it'.
Proof.
  revert taken it s. induction k as [|k IH]; intros taken it s Hit Hp Hpos Hat Hfrom Ht; cbn [collect].
  { split; [done|]. exists taken, (from (it_position it)). split_and!; try done. right. left. by rewrite Nat.add_0_r. }
  pose proof (zlen_nonneg taken). pose proof (Peek_ok scan pages Hstable Hpages front hashed Hhashed Hlisting it s Hit Hp ltac:(lia)) as HP.
  destruct (Peek (length pages) (it, s)) as [r [it1 s1]]. destruct HP as (Hit1 & Hpos1 & HP).
  pose proof (from_lookup front hashed (it_position it) ltac:(lia)) as Ef.
  destruct HP as [(e & He & -> & Hnext)|[(Hn & ->)|(e & -> & Hb)]]; cycle 1.
  { split; [done|]. rewrite Hn in Ef. exists taken, []. rewrite Hfrom, Ef, Hpos1. split_and!; try done. by left. }
  { destruct e; try (by destruct Hb as [Hne _]); (split; [exact Hit1|]); left; eexists; (split; [reflexivity|]); by left. }
  rewrite He in Ef. rewrite Z.gtb_ltb. destruct (Z.ltb_spec (size - zlen out - total position taken) (space e (it_position it + 1))) as [Hbig|Hfits].
  - split; [done|]. destruct taken as [|e0 taken].
    + cbn [candidates_of]. rewrite bool_decide_eq_true_2 by done. right. assert (position = it_position it) as -> by (unfold zlen in Hat; cbn in Hat; lia).
      exists e, (from (it_position it + 1)). split_and!; [done|cbn in Hbig; lia|done].
    + rewrite bool_decide_eq_false_2 by done. exists (e0 :: taken), (from (it_position it)). rewrite Hpos1. split_and!; try done. right. right. split_and!; try done. eauto.
  - unfold Advance. rewrite Hnext. set (it2 := mkDirIterator _ _ _ None). specialize (IH (taken ++ [e]) it2 s1). cbn [it2 it_position it_pending_next] in IH.
    assert (∀ l q, total q (l ++ [e]) = total q l + space e (q + zlen l + 1)) as Etot.
    { intros l. induction l as [|x l IHl]; intros q; cbn [app total]; [unfold zlen; cbn [length Z.of_nat]; rewrite !Z.add_0_r; lia|]. rewrite IHl, zlen_cons.
      replace (q + 1 + zlen l + 1) with (q + (zlen l + 1) + 1) by lia. lia. }
    rewrite candidates_of_app, Etot, <-Hat in IH. cbn [candidates_of] in IH.
    replace (length (taken ++ [e]) + k)%nat with (length taken + Datatypes.S k)%nat in IH by (rewrite length_app; cbn; lia).
    apply IH; try done; [rewrite zlen_app; unfold zlen at 2; cbn; lia|by rewrite Hfrom, Ef, <-app_assoc|lia].
Qed.

Definition plus_served (out : bytes) (w : list (SwordFsEntry * SwordFsInode * Z)) (blocked : bool) : result bytes :=
  if bool_decide (out ++ render_plus w = []) && blocked then Err NoMemory else Ok (out ++ render_plus w).
Definition plus_ok (size : Z) (out : bytes) (retained : list SwordFsInode) (position : Z) (r : result bytes) (retained' : list SwordFsInode) : Prop :=
  let '(w, blocked) := walk (size - zlen out) position (from position) in r = plus_served out w blocked ∧ retained' = retained ++ lookups w.
Lemma plus_ok_blocked size out retained position e rest : from position = e :: rest → size - zlen out < space e (position + 1) →
  plus_ok size out retained position (if bool_decide (out = []) then Err NoMemory else Ok out) retained.
Proof.
  intros Ef Hb. unfold plus_ok. rewrite Ef. cbn [walk]. rewrite Z.gtb_ltb, (proj2 (Z.ltb_lt _ _)) by lia. unfold plus_served, render_plus, lookups. cbn.
  rewrite !app_nil_r, andb_true_r. by case_bool_decide.
Qed.
Lemma plus_ok_end size out retained position : from position = [] → plus_ok size out retained position (Ok out) retained.
Proof. intros Ef. unfold plus_ok. rewrite Ef. cbn. unfold plus_served, render_plus, lookups. cbn. by rewrite !app_nil_r, andb_false_r. Qed.
Lemma from_app position taken rest : 0 ≤ position → from position = taken ++ rest → from (position + zlen taken) = rest.
Proof.
  intros Hp Ef. unfold DirListing.from, zlen in *. replace (Z.to_nat (position + Z.of_nat (length taken))) with (Z.to_nat position + length taken)%nat by lia.
  rewrite <-drop_drop, Ef. apply drop_app_length.
Qed.
(** A batch taken from the stream and encoded leaves the rest of the reply to the rest of the stream. *)
Lemma plus_ok_app size out retained position taken rest r retained' : from position = taken ++ rest → 0 ≤ position → total position taken ≤ size - zlen out →
  plus_ok size (out ++ render_plus (present position taken)) (retained ++ lookups (present position taken)) (position + zlen taken) r retained' →
  plus_ok size out retained position r retained'.
Proof.
  intros Ef Hp Ht. pose proof (from_app _ _ _ Hp Ef) as Er.
  unfold plus_ok. rewrite Er, Ef, walk_app, zlen_app, Z.sub_add_distr by done. destruct (walk _ (position + zlen taken) rest) as [w b].
  assert (∀ w1 w2, render_plus (w1 ++ w2) = render_plus w1 ++ render_plus w2) as E1 by (intros; unfold render_plus; by rewrite map_app, concat_app).
  assert (∀ w1 w2, lookups (w1 ++ w2) = lookups w1 ++ lookups w2) as E2 by (intros; unfold lookups; by rewrite filter_app, map_app).
  unfold plus_served. by rewrite E1, E2, <-!app_assoc.
Qed.
Lemma map_entry_ino position l : map (λ cd, entry_ino (cd_entry cd)) (candidates_of position l) = map entry_ino l.
Proof. revert position. induction l as [|e l IH]; intros position; cbn; [done|]. by rewrite IH. Qed.
Lemma read_plus_ok fuel size out retained it s : it_ok it → it_pending_next it = None → 0 ≤ it_position it → zlen out ≤ size → 0 < size →
  (length (from (it_position it)) < fuel)%nat →
  let '(r, retained', (it', s')) := read_plus handles (length pages) fuel size out retained (it_position it) (it, s) in
  it_ok it' ∧ (plus_ok size out retained (it_position it) r retained' ∨ ∃ e, r = Err e ∧ plus_error e).
Proof.
  revert out retained it s. induction fuel as [|fuel IH]; intros out retained it s Hit Hp Hpos Ho Hsz Hf; [lia|]. cbn [read_plus].
  destruct (Z.ltb_spec (zlen out) size) as [Hlt|Hge]; cbn [negb]; cycle 1.
  { split; [done|]. left. destruct (from (it_position it)) as [|e rest] eqn:Ef; [by apply plus_ok_end|].
    pose proof (space_pos e (it_position it + 1)). pose proof (plus_ok_blocked size out retained _ e rest Ef ltac:(lia)) as HB.
    rewrite bool_decide_eq_false_2 in HB by (intros ->; unfold zlen in Hge; cbn in Hge; lia). exact HB. }
  pose proof (collect_ok kAttrBatchSize size out (it_position it) [] it s Hit Hp Hpos) as HC. cbn [candidates_of total length Nat.add] in HC.
  specialize (HC ltac:(unfold zlen; cbn; lia) eq_refl ltac:(lia)).
  destruct (collect (length pages) kAttrBatchSize size out [] 0 (it_position it) (it, s)) as [[[r|cds eod blocked] cookie] [it1 s1]]; destruct HC as [Hit1 HC].
  { split; [done|]. destruct HC as [He|(e & rest & Ef & Hb & ->)]; [by right|]. left. by eapply plus_ok_blocked. }
  destruct HC as (taken & rest & Ef & Hck & Hat & Ht & -> & Hcase). destruct taken as [|e0 taken'] eqn:Etk.
  { cbn [candidates_of]. split; [done|]. left. destruct Hcase as [[_ ->]|[(_ & _ & Hk & _)|(_ & Hne & _)]]; [by apply plus_ok_end|done|done]. }
  cbn [candidates_of]. rewrite <-Etk in *. set (cds := _ :: candidates_of (it_position it + 1) taken').
  assert (cds = candidates_of (it_position it) taken) as -> by (by rewrite Etk). rewrite map_entry_ino.
  pose proof (Hbatch (map entry_ino taken) s1) as HI. destruct (get_inodes (map entry_ino taken) s1) as [[inodes|e] s2] eqn:Eg.
  2:{ split; [done|]. right. exists e. split; [done|]. right. eauto. }
  subst inodes. rewrite encode_batch_ok; [|intros e He; by apply (list_elem_of_fmap_2 entry_ino)|done]. cbn [ok negb].
  pose proof (present_total (it_position it) taken) as Hpt.
  pose proof (λ r rt, plus_ok_app size out retained (it_position it) taken rest r rt Ef Hpos Ht) as Happ. pose proof (zlen_nonneg taken).
  pose proof (from_app _ _ _ Hpos Ef) as Er. rewrite <-Hck in Happ, Er.
  assert (length rest < fuel)%nat as Hfl by (rewrite Ef, length_app, Etk in Hf; cbn [length] in Hf; lia).
  set (out1 := out ++ render_plus (present (it_position it) taken)) in *. set (ret1 := retained ++ lookups (present (it_position it) taken)) in *.
  assert (zlen out1 ≤ size) as Ho1 by (unfold out1; rewrite zlen_app; lia). clearbody out1 ret1.
  destruct Hcase as [[-> ->]|[(-> & -> & _ & Hp1)|(-> & _ & e & rest' & -> & ->)]].
  - split; [done|]. left. apply Happ. by apply plus_ok_end.
  - specialize (IH out1 ret1 it1 s2). rewrite Hat, Er in IH. specialize (IH Hit1 Hp1 ltac:(lia) Ho1 Hsz Hfl).
    destruct (read_plus handles (length pages) fuel size out1 ret1 cookie (it1, s2)) as [[r rt] [it' s']]. destruct IH as [Hit' [Hok|He]]; (split; [done|]); [left; by apply Happ|by right].
  - rewrite Z.gtb_ltb. destruct (Z.ltb_spec (size - zlen out1) (space e (cookie + 1))) as [Hbig|Hfits].
    { split; [done|]. left. apply Happ. by eapply plus_ok_blocked. }
    specialize (IH out1 ret1 (Seek cookie it1) s2). cbn [Seek it_position it_pending_next] in IH. rewrite Er in IH. specialize (IH Hit1 eq_refl ltac:(lia) Ho1 Hsz Hfl).
    destruct (read_plus handles (length pages) fuel size out1 ret1 cookie (Seek cookie it1, s2)) as [[r rt] [it' s']]. destruct IH as [Hit' [Hok|He]]; (split; [done|]); [left; by apply Happ|by right].
Qed.

Lemma walk_unblocked room position l : let '(w, blocked) := walk room position l in blocked = false → w = present position l.
Proof.
  revert room position. induction l as [|e l IH]; intros room position; cbn [walk present]; [done|]. destruct (_ >? room); [done|].
  destruct (inode_of (entry_ino e)) as [n|]; [|apply IH]. specialize (IH (room - space e (position + 1)) (position + 1)).
  destruct (walk (room - space e (position + 1)) (position + 1) l) as [w b]. intros Hb. by rewrite IH.
Qed.

(** C38: A readdirplus reply holds, in order, the entries from the requested offset whose inode
    still exists, with the attributes read for the batch and the live size of files this mount
    has open, as many as fit: room reserved for an entry without an inode is used for the next
    ones, an entry that does not fit ends the reply, an error is returned only if it would be
    empty then, and an empty reply means that nothing is left.  The lookups it counts are those
    of the entries it holds, except [.] and [..].  Otherwise a command failed. *)
Theorem readdirplus_exact off size it s : it_ok it → 0 ≤ off < 2 ^ 63 → 0 < size →
  let '(r, retained, (it', s')) := ReadDirPlus handles (length pages) (length (listing front hashed) + 1) off size (it, s) in
  it_ok it' ∧
  (let '(w, blocked) := walk size off (from off) in
   retained = lookups w ∧ (r = Ok (render_plus w) ∧ (w = [] → blocked = false ∧ present off (from off) = []) ∨ r = Err NoMemory ∧ w = [] ∧ blocked = true) ∨
   ∃ e, r = Err e ∧ plus_error e).
Proof.
  intros Hit Hoff Hsz. unfold ReadDirPlus. rewrite (proj2 (Z.eqb_neq _ _)) by lia. rewrite wrap_id by (unfold in_range; lia).
  pose proof (read_plus_ok (length (listing front hashed) + 1) size [] [] (Seek off it) s) as HR. cbn [Seek it_position it_pending_next] in HR.
  assert (length (from off) < length (listing front hashed) + 1)%nat as Hl by (unfold DirListing.from; rewrite length_drop; lia).
  specialize (HR Hit eq_refl ltac:(lia) ltac:(unfold zlen; cbn; lia) Hsz Hl).
  destruct (read_plus handles (length pages) (length (listing front hashed) + 1) size [] [] off (Seek off it, s)) as [[r rt] [it' s']].
  destruct HR as [Hit' HR]. split; [done|]. unfold plus_ok in HR. replace (size - zlen (@nil ascii)) with size in HR by (unfold zlen; cbn; lia).
  pose proof (walk_unblocked size off (from off)) as Hun. destruct (walk size off (from off)) as [w blocked] eqn:Ew. destruct HR as [[Hr ->]|He]; [left|by right]. split; [done|].
  unfold plus_served in Hr. cbn [app] in Hr. destruct w as [|[[e n] o] w].
  - destruct blocked; [by right|]. left. split; [done|]. intros _. split; [done|]. symmetry. by apply Hun.
  - left. rewrite bool_decide_eq_false_2 in Hr; [done|]. intros E. apply (f_equal zlen) in E. rewrite render_plus_cons in E. pose proof (space_pos e o).
    pose proof (zlen_nonneg (render_plus w)). unfold zlen at 2 in E. cbn in E. lia.
Qed.

End Spec.

(** ** The directory of DirListing.v, of which one inode has been removed meanwhile *)
Definition sample_inode_of (i : Z) : option SwordFsInode := if i =? 12 then None else Some (mkInode i (set_size (10 * i) empty_attr) 1 [] []).
#[local] Instance sample_batch : InodeBatch unit := {| get_inodes ids s := (Ok (map sample_inode_of ids), s) |}.
#[local] Instance sample_plus : DirentryPlus := {| fuse_add_direntry_plus name _ off := le_bytes 1 off ++ name |}.
(** The file "b" is open here and has grown to 999 bytes. *)
Definition sample_handles (i : Z) : option (FileReadWriter unit) :=
  if i =? 13 then Some (with_size (mkSizeState None (Some 999) 0 1) new_frw) else None.
Lemma readdirplus_exact_witness :
  let '(r, retained, _) := ReadDirPlus sample_handles 2 6 0 11 (new_iterator sample_front, tt) in
  retained = map (λ x, x.1.2) [((mkEntry (lit "a") 8 11, mkInode 11 (set_size 110 empty_attr) 1 [] []), 3); ((mkEntry (lit "b") 8 13, mkInode 13 (set_size 999 empty_attr) 1 [] []), 5)] ∧
  r = Ok (le_bytes 1 1 ++ lit "." ++ le_bytes 1 2 ++ lit ".." ++ le_bytes 1 3 ++ lit "a" ++ le_bytes 1 5 ++ lit "b").
Proof.
  assert (zlen (listing sample_front sample_hashed) < 2 ^ 63) as H1 by (vm_compute; reflexivity).
  assert (batch_stable (S := unit) sample_inode_of) as H2 by (intros ids s; reflexivity).
  assert (∀ i n, sample_inode_of i = Some n → ino n = i) as H3 by (intros i n; unfold sample_inode_of; destruct (i =? 12); [discriminate|]; intros E; injection E as <-; reflexivity).
  assert (records_sized) as H4.
  { intros name n off. cbn [fuse_add_direntry_plus sample_plus]. rewrite zlen_app, zlen_le_bytes. pose proof (zlen_nonneg name). split; [lia|reflexivity]. }
  assert (it_ok sample_scan sample_pages sample_front (new_iterator sample_front)) as H5 by (split; [apply Reset_ok, sample_pages_from|reflexivity]).
  assert (0 ≤ 0 < 2 ^ 63) as H6 by lia. assert (0 < 11) as H7 by lia.
  pose proof (readdirplus_exact sample_handles sample_scan sample_pages sample_front sample_hashed sample_inode_of sample_stable sample_pages_from sample_parses H1 H2 H3 H4 0 11 (new_iterator sample_front) tt H5 H6 H7) as H.
  change (length (listing sample_front sample_hashed) + 1)%nat with 6%nat in H. change (length sample_pages) with 2%nat in H.
  assert ((ReadDirPlus sample_handles 2 6 0 11 (new_iterator sample_front, tt)).1.1 = Ok (le_bytes 1 1 ++ lit "." ++ le_bytes 1 2 ++ lit ".." ++ le_bytes 1 3 ++ lit "a" ++ le_bytes 1 5 ++ lit "b")) as E by (vm_compute; reflexivity).
  assert (lookups (walk sample_handles sample_inode_of 11 0 (from sample_front sample_hashed 0)).1 = map (λ x, x.1.2) [((mkEntry (lit "a") 8 11, mkInode 11 (set_size 110 empty_attr) 1 [] []), 3); ((mkEntry (lit "b") 8 13, mkInode 13 (set_size 999 empty_attr) 1 [] []), 5)]) as El by (vm_compute; reflexivity).
  destruct (ReadDirPlus sample_handles 2 6 0 11 (new_iterator sample_front, tt)) as [[r retained] [it' s']]. cbn [fst] in E. destruct (walk sample_handles sample_inode_of 11 0 (from sample_front sample_hashed 0)) as [w b]. cbn [fst] in El.
  destruct H as [_ [[Hr _]|(e & He & _)]]; [|rewrite He in E; discriminate E]. split; [rewrite Hr; exact El|exact E].
Defined.
