(* ===== verification/CowCleanup.v ===== *)
(** * Deferred deletion of COW objects (src/src/chunk/cow/COWCleanup.cpp,
    src/src/chunk/internal/ChunkGcWorker.cpp)

    Cleanup work is queued as records; a worker of any mount takes a record, looks at the
    metadata again and deletes the object.  The participant is a program of calls, so that it
    can be run beside the mounts that write and the workers of other mounts. *)

From S2P Require Import Prelude ChunkGeometry StateIo Codec Records Decimal MetaTxn CowChunk.

(** ** The records *)
Inductive COWCleanupKind := kRevision | kDetachedChunk | kDetachedReclaim.
Definition COWCleanupKind_value (k : COWCleanupKind) : Z :=
  match k with kRevision => 1 | kDetachedChunk => 2 | kDetachedReclaim => 3 end.
Record COWDetachedChunk := mkDetached { dt_ino : Z; dt_index : Z; dt_chunk_id : Z }.
Inductive TypedPendingCleanup :=
  | RevisionCleanup (chunk_id revision : Z)
  | DetachedCleanup (detached : COWDetachedChunk).
Definition ValidTypedRevision (chunk_id revision : Z) : bool :=
  IsValidChunkID chunk_id && negb (revision =? 0) && (revision <=? kMaxCOWChunkRevisionValue).
Definition revision_work_id (chunk_id revision : Z) : bytes := lit "cow:revision:" ++ to_string chunk_id ++ lit ":" ++ to_string revision.
Definition chunk_work_id (chunk_id : Z) : bytes := lit "cow:chunk:" ++ to_string chunk_id.

Section Records.
Context `{FollyIO}.

Definition FreezeCOWRevisionDelete (id revision : Z) : result PendingDelete :=
  _ ← fail_if (negb (ValidTypedRevision id revision)) InvalidArgument;
  let e := enc_Header kCowTypedCleanup create in
  let e := enc_U32 (COWCleanupKind_value kRevision) e in
  let e := enc_U64 id e in
  let e := enc_U64 revision e in
  Ok (mkPendingDelete (revision_work_id id revision) (Finish e)).
Definition FreezeCOWDetachedDelete (ino : Z) (mapping : ChunkMapping) : result PendingDelete :=
  _ ← fail_if ((ino =? 0) || negb (IsValidChunkID (cm_chunk_id mapping))) InvalidArgument;
  let e := enc_Header kCowTypedCleanup create in
  let e := enc_U32 (COWCleanupKind_value kDetachedChunk) e in
  let e := enc_U64 ino e in
  let e := enc_U64 (cm_index mapping) e in
  let e := enc_U64 (cm_chunk_id mapping) e in
  Ok (mkPendingDelete (chunk_work_id (cm_chunk_id mapping)) (Finish e)).
Fixpoint encode_mappings (mappings : list ChunkMapping) (e : Appender) : result Appender :=
  match mappings with
  | [] => Ok e
  | mapping :: mappings =>
      _ ← fail_if (negb (IsValidChunkID (cm_chunk_id mapping))) InvalidArgument;
      encode_mappings mappings (enc_U64 (cm_chunk_id mapping) (enc_U64 (cm_index mapping) e))
  end.
Definition FreezeCOWDetachedReclaim (ino : Z) (mappings : list ChunkMapping) : result ReclaimWork :=
  _ ← fail_if ((ino =? 0) || (zlen mappings >? UINT32_MAX)) InvalidArgument;
  let e := enc_Header kCowTypedCleanup create in
  let e := enc_U32 (COWCleanupKind_value kDetachedReclaim) e in
  let e := enc_U64 ino e in
  let e := enc_U32 (zlen mappings) e in
  e ← encode_mappings mappings e;
  Ok (mkReclaimWork ino (Finish e)).
Definition COWCleanupWorkEncoder : ChunkCleanupWorkEncoder := {|
  EncodeDetachedDelete := FreezeCOWDetachedDelete; EncodeDetachedReclaim := FreezeCOWDetachedReclaim |}.
Definition CreateChunkCleanupWorkEncoder (chunk_type : ChunkType) : result ChunkCleanupWorkEncoder :=
  match chunk_type with
  | kChunkSlice => Ok SliceEncoder
  | kCow => Ok COWCleanupWorkEncoder
  | kRedisCache => Err NotSupported
  end.

(** [None]: the payload is not a typed one. *)
Definition DecodeTypedPending (work : PendingDelete) : result (option TypedPendingCleanup) :=
  let '(recognized, _, d) := dec_Header kCowTypedCleanup (new_decoder (pd_payload work)) in
  if negb recognized then Ok None else
  let '(_, raw_kind, d) := dec_U32 d in
  _ ← fail_if (failed d) Malformed;
  if raw_kind =? COWCleanupKind_value kRevision then
    let '(_, chunk_id, d) := dec_U64 d in
    let '(_, revision, d) := dec_U64 d in
    _ ← fail_if (negb (Done d) || negb (ValidTypedRevision chunk_id revision)) Malformed;
    _ ← fail_if (negb (bool_decide (pd_id work = revision_work_id chunk_id revision))) Malformed;
    Ok (Some (RevisionCleanup chunk_id revision))
  else if raw_kind =? COWCleanupKind_value kDetachedChunk then
    let '(_, ino, d) := dec_U64 d in
    let '(_, index, d) := dec_U64 d in
    let '(_, chunk_id, d) := dec_U64 d in
    _ ← fail_if (negb (Done d) || (ino =? 0) || negb (IsValidChunkID chunk_id)) Malformed;
    _ ← fail_if (negb (bool_decide (pd_id work = chunk_work_id chunk_id))) Malformed;
    Ok (Some (DetachedCleanup (mkDetached ino index chunk_id)))
  else Err Malformed.
Fixpoint decode_identities (count : nat) (ino : Z) (d : BufDecoder) : result (list COWDetachedChunk * BufDecoder) :=
  match count with
  | O => Ok ([], d)
  | S count =>
      let '(_, index, d) := dec_U64 d in
      let '(_, chunk_id, d) := dec_U64 d in
      _ ← fail_if (failed d || negb (IsValidChunkID chunk_id)) Malformed;
      '(chunks, d) ← decode_identities count ino d;
      Ok (mkDetached ino index chunk_id :: chunks, d)
  end.
Definition DecodeTypedReclaim (work : ReclaimWork) : result (option (list COWDetachedChunk)) :=
  let '(recognized, _, d) := dec_Header kCowTypedCleanup (new_decoder (rw_payload work)) in
  if negb recognized then Ok None else
  let '(_, raw_kind, d) := dec_U32 d in
  let '(_, ino, d) := dec_U64 d in
  let '(_, count, d) := dec_U32 d in
  _ ← fail_if (failed d || negb (raw_kind =? COWCleanupKind_value kDetachedReclaim) || (ino =? 0) || negb (ino =? rw_ino work)) Malformed;
  _ ← fail_if (count >? zlen (rw_payload work) `div` 16) Malformed;
  '(chunks, d) ← decode_identities (Z.to_nat count) ino d;
  _ ← fail_if (negb (Done d)) Malformed;
  Ok (Some chunks).
End Records.

(** ** The participant *)
Inductive cleanup_call : Type → Type :=
  | GetHead (chunk_id : Z) : cleanup_call (result COWChunkHead)
  | EraseHead (chunk_id : Z) (expected : COWChunkHead) : cleanup_call Status
  | DeleteObject (chunk_id revision : Z) : cleanup_call Status
  | ReachabilityProbe (ino index : Z) : cleanup_call (result (option Z))
  | CompleteDelete (id : bytes) : cleanup_call Status
  | CompleteReclaimOf (ino : Z) : cleanup_call Status.
Abbreviation cleanup := (prog cleanup_call).
(** The status, and whether the queue entry may be acknowledged. *)
Definition outcome : Type := Status * bool.

Section Participant.
Context `{FollyIO}.
(** Whether chunk metadata and the reachability probe were configured. *)
Context (has_metadata has_probe : bool).

Definition DeleteTypedRevision (chunk_id revision : Z) : cleanup outcome :=
  if negb has_metadata then mret (NotSupported, false) else
  head ← perform (GetHead chunk_id);
  let delete : cleanup outcome :=
    status ← perform (DeleteObject chunk_id revision);
    mret (if negb (ok status) then (status, false) else (OK, true)) in
  match head with
  | Ok h => if head_revision h =? revision then mret (OK, false) else delete
  | Err e => if negb (IsNotFound e) then mret (e, false) else delete
  end.
Definition RevalidateDetached (cleanup_ : COWDetachedChunk) : cleanup (result bool) :=
  if negb has_probe then mret (Err NotSupported) else
  attached ← perform (ReachabilityProbe (dt_ino cleanup_) (dt_index cleanup_));
  mret (match attached with
        | Err e => Err e
        | Ok attached => Ok (negb (bool_decide (attached = Some (dt_chunk_id cleanup_))))
        end).
Definition DeleteDetachedChunk (cleanup_ : COWDetachedChunk) : cleanup outcome :=
  detached ← RevalidateDetached cleanup_;
  match detached with
  | Err e => mret (e, false)
  | Ok false => mret (OK, true)
  | Ok true =>
      if negb has_metadata then mret (NotSupported, false) else
      head ← perform (GetHead (dt_chunk_id cleanup_));
      match head with
      | Err e => mret (if IsNotFound e then (OK, true) else (e, false))
      | Ok h =>
          status ← perform (DeleteObject (dt_chunk_id cleanup_) (head_revision h));
          if negb (ok status) then mret (status, false) else
          status ← perform (EraseHead (dt_chunk_id cleanup_) h);
          mret (if negb (ok status) then (status, false) else (OK, true))
      end
  end.
(** [None]: every identity is detached. *)
Fixpoint revalidate_all (chunks : list COWDetachedChunk) : cleanup (option outcome) :=
  match chunks with
  | [] => mret None
  | chunk :: chunks =>
      detached ← RevalidateDetached chunk;
      match detached with
      | Err e => mret (Some (e, false))
      | Ok false => mret (Some (OK, true))
      | Ok true => revalidate_all chunks
      end
  end.
Fixpoint delete_all (chunks : list COWDetachedChunk) : cleanup outcome :=
  match chunks with
  | [] => mret (OK, true)
  | chunk :: chunks =>
      r ← DeleteDetachedChunk chunk;
      let '(status, completed) := r in
      if negb (ok status) then mret (status, false) else
      if negb completed then mret (Internal, false) else delete_all chunks
  end.
Definition DeleteDetachedReclaim (chunks : list COWDetachedChunk) : cleanup outcome :=
  stale ← revalidate_all chunks;
  match stale with
  | Some r => mret r
  | None => delete_all chunks
  end.
Definition participant_DeletePending (work : PendingDelete) : cleanup outcome :=
  match DecodeTypedPending work with
  | Err e => mret (e, false)
  | Ok None => mret (Malformed, false)
  | Ok (Some (RevisionCleanup chunk_id revision)) => DeleteTypedRevision chunk_id revision
  | Ok (Some (DetachedCleanup detached)) => DeleteDetachedChunk detached
  end.
Definition participant_DeleteReclaim (work : ReclaimWork) : cleanup outcome :=
  match DecodeTypedReclaim work with
  | Err e => mret (e, false)
  | Ok None => mret (Malformed, false)
  | Ok (Some typed) => DeleteDetachedReclaim typed
  end.

(** ** [ChunkGcWorker] *)
Definition worker_DeletePending (work : PendingDelete) : cleanup Status :=
  r ← participant_DeletePending work;
  let '(status, completed) := r in
  if negb (ok status) then mret status else
  if negb completed then mret OK else perform (CompleteDelete (pd_id work)).
Definition worker_DeleteReclaim (work : ReclaimWork) : cleanup Status :=
  r ← participant_DeleteReclaim work;
  let '(status, completed) := r in
  if negb (ok status) then mret status else
  if negb completed then mret OK else perform (CompleteReclaimOf (rw_ino work)).
End Participant.

(** ** Frozen work is recognised *)
Section Roundtrip.
Context `{FollyIO} `{!FollyIOLaws}.
Definition revision_bytes (id revision : Z) : bytes := header_bytes kCowTypedCleanup ++ le_bytes 4 1 ++ le_bytes 8 id ++ le_bytes 8 revision.
Definition detached_bytes (ino index id : Z) : bytes :=
  header_bytes kCowTypedCleanup ++ le_bytes 4 2 ++ le_bytes 8 ino ++ le_bytes 8 index ++ le_bytes 8 id.
Definition identity_bytes (mappings : list ChunkMapping) : bytes :=
  concat (map (λ m, le_bytes 8 (cm_index m) ++ le_bytes 8 (cm_chunk_id m)) mappings).
Definition detached_reclaim_bytes (ino : Z) (mappings : list ChunkMapping) : bytes :=
  header_bytes kCowTypedCleanup ++ le_bytes 4 3 ++ le_bytes 8 ino ++ le_bytes 4 (zlen mappings) ++ identity_bytes mappings.
Lemma FreezeRevision_spec id revision work : FreezeCOWRevisionDelete id revision = Ok work →
  ValidTypedRevision id revision = true ∧ work = mkPendingDelete (revision_work_id id revision) (revision_bytes id revision).
Proof.
  unfold FreezeCOWRevisionDelete. destruct (ValidTypedRevision id revision); [|done]. cbn [negb fail_if mbind result_bind]. intros [= <-]. split; [done|].
  f_equal. unfold revision_bytes. solve_layout.
Qed.
Lemma FreezeDetached_spec ino m work : FreezeCOWDetachedDelete ino m = Ok work →
  ino ≠ 0 ∧ IsValidChunkID (cm_chunk_id m) = true ∧ work = mkPendingDelete (chunk_work_id (cm_chunk_id m)) (detached_bytes ino (cm_index m) (cm_chunk_id m)).
Proof.
  unfold FreezeCOWDetachedDelete. destruct (Z.eqb_spec ino 0); [done|]. destruct (IsValidChunkID _); [|done]. cbn [negb fail_if mbind result_bind orb].
  intros [= <-]. split_and!; [done|done|]. f_equal. unfold detached_bytes. solve_layout.
Qed.
Lemma encode_mappings_spec mappings e e' : encode_mappings mappings e = Ok e' →
  Forall (λ m, IsValidChunkID (cm_chunk_id m) = true) mappings ∧ appendTo e' = appendTo e ++ identity_bytes mappings.
Proof.
  revert e. induction mappings as [|m mappings IH]; intros e; cbn [encode_mappings].
  - intros [= ->]. split; [done|]. unfold identity_bytes. cbn. by rewrite app_nil_r.
  - destruct (IsValidChunkID (cm_chunk_id m)) eqn:Hv; [|done]. cbn [negb fail_if mbind result_bind]. intros [Hf ->]%IH. split; [by constructor|].
    rewrite !enc_U64_spec. unfold identity_bytes. cbn [map concat]. by rewrite <-!app_assoc.
Qed.
Lemma FreezeReclaim_spec ino mappings work : FreezeCOWDetachedReclaim ino mappings = Ok work →
  ino ≠ 0 ∧ zlen mappings ≤ UINT32_MAX ∧ Forall (λ m, IsValidChunkID (cm_chunk_id m) = true) mappings ∧
  work = mkReclaimWork ino (detached_reclaim_bytes ino mappings).
Proof.
  unfold FreezeCOWDetachedReclaim. destruct (Z.eqb_spec ino 0); [done|]. rewrite Z.gtb_ltb. destruct (Z.ltb_spec UINT32_MAX (zlen mappings)); [done|].
  cbn [negb fail_if mbind result_bind orb]. destruct (encode_mappings _ _) as [e|] eqn:E; [|done]. apply encode_mappings_spec in E as [Hf E].
  intros [= <-]. split_and!; [done|done|done|]. f_equal. unfold Finish, detached_reclaim_bytes. rewrite E. append_layouts. rewrite ?app_nil_l, <-!app_assoc. done.
Qed.
Ltac decode_frozen f :=
  match goal with |- context [new_decoder ?l] => pose proof (rem_new l) as [? ?] end; start_reads f.
Lemma DecodeRevision_frozen id revision : in_range 64 id → in_range 64 revision → ValidTypedRevision id revision = true →
  DecodeTypedPending (mkPendingDelete (revision_work_id id revision) (revision_bytes id revision)) = Ok (Some (RevisionCleanup id revision)).
Proof.
  intros Hi Hr Hv. unfold DecodeTypedPending. cbn [pd_payload pd_id]. decode_frozen revision_bytes. run_read. cbn [negb]. run_read. cbn [fail_if].
  match goal with F : failed _ = false |- _ => rewrite F end. cbn. run_read. run_read. end_reads. rewrite Hv. cbn. by rewrite bool_decide_eq_true_2.
Qed.
Lemma DecodeDetached_frozen ino index id : in_range 64 ino → in_range 64 index → in_range 64 id → ino ≠ 0 → IsValidChunkID id = true →
  DecodeTypedPending (mkPendingDelete (chunk_work_id id) (detached_bytes ino index id)) = Ok (Some (DetachedCleanup (mkDetached ino index id))).
Proof.
  intros Hi Hx Hc Hz Hv. unfold DecodeTypedPending. cbn [pd_payload pd_id]. decode_frozen detached_bytes. run_read. cbn [negb]. run_read. cbn [fail_if].
  match goal with F : failed _ = false |- _ => rewrite F end. cbn. run_read. run_read. run_read. end_reads. rewrite Hv.
  rewrite (proj2 (Z.eqb_neq _ _)) by done. cbn. by rewrite bool_decide_eq_true_2.
Qed.
Definition mapping_ok (m : ChunkMapping) : Prop := in_range 64 (cm_index m) ∧ in_range 64 (cm_chunk_id m).
Definition detached_of (ino : Z) (m : ChunkMapping) : COWDetachedChunk := mkDetached ino (cm_index m) (cm_chunk_id m).
Lemma decode_identities_frozen ino mappings d : Forall mapping_ok mappings → Forall (λ m, IsValidChunkID (cm_chunk_id m) = true) mappings →
  rem d = identity_bytes mappings → failed d = false →
  ∃ d', decode_identities (length mappings) ino d = Ok (map (detached_of ino) mappings, d') ∧ rem d' = [] ∧ failed d' = false.
Proof.
  intros Hm Hv. revert d. induction mappings as [|m mappings IH]; intros d R F; cbn [length decode_identities map].
  - exists d. by split_and!.
  - apply Forall_cons in Hm as [[Hi Hc] Hm]. apply Forall_cons in Hv as [Hv1 Hv]. unfold identity_bytes in R. cbn [map concat] in R. rewrite <-app_assoc in R.
    run_read. run_read. rewrite Hv1. match goal with F : failed _ = false |- _ => rewrite F end. cbn [orb negb fail_if mbind result_bind].
    match goal with R : rem ?d = _, F : failed ?d = false |- _ => destruct (IH Hm Hv d R F) as (d' & -> & Hr & Hf) end.
    exists d'. by split_and!.
Qed.
Lemma zlen_identity_bytes mappings : zlen (identity_bytes mappings) = 16 * zlen mappings.
Proof.
  induction mappings as [|m mappings IH]; [done|]. unfold identity_bytes in *. cbn [map concat]. rewrite !zlen_app, !zlen_le_bytes, zlen_cons, IH. lia.
Qed.
Lemma DecodeReclaim_frozen ino mappings : in_range 64 ino → ino ≠ 0 → zlen mappings ≤ UINT32_MAX → Forall mapping_ok mappings →
  Forall (λ m, IsValidChunkID (cm_chunk_id m) = true) mappings →
  DecodeTypedReclaim (mkReclaimWork ino (detached_reclaim_bytes ino mappings)) = Ok (Some (map (detached_of ino) mappings)).
Proof.
  intros Hi Hz Hn Hm Hv. unfold DecodeTypedReclaim. cbn [rw_payload rw_ino]. assert (in_range 32 (zlen mappings)) as Hr.
  { pose proof (zlen_nonneg mappings). split; [lia|]. unfold UINT32_MAX in Hn. lia. }
  assert (zlen mappings ≤ zlen (detached_reclaim_bytes ino mappings) `div` 16) as Hc.
  { unfold detached_reclaim_bytes. rewrite !zlen_app, zlen_identity_bytes. pose proof (zlen_nonneg (header_bytes kCowTypedCleanup)). pose proof (zlen_nonneg (le_bytes 4 3)).
    pose proof (zlen_nonneg (le_bytes 8 ino)). pose proof (zlen_nonneg (le_bytes 4 (zlen mappings))). apply Z.div_le_lower_bound; lia. }
  revert Hc. generalize (zlen (detached_reclaim_bytes ino mappings) `div` 16). intros bound Hc.
  match goal with |- context [new_decoder ?l] => pose proof (rem_new l) as [R F]; revert R F; generalize (new_decoder l) end. intros d R F.
  unfold detached_reclaim_bytes in R. run_read. cbn [negb]. run_read. run_read. run_read.
  match goal with F : failed _ = false |- _ => rewrite F end. cbn [orb negb COWCleanupKind_value]. rewrite (proj2 (Z.eqb_neq ino 0)), !Z.eqb_refl by done.
  cbn [orb negb Z.eqb Pos.eqb fail_if mbind result_bind]. rewrite Z.gtb_ltb, (proj2 (Z.ltb_ge _ _)) by lia. cbn [fail_if mbind result_bind].
  unfold zlen. rewrite Nat2Z.id.
  match goal with R : rem ?d = _, F : failed ?d = false |- _ => destruct (decode_identities_frozen ino mappings d Hm Hv R F) as (d' & -> & Hr' & Hf') end.
  cbn. by rewrite (Done_true d' Hr' Hf').
Qed.

(** C40: Cleanup work that was queued is recognised by the worker as what it was queued for: the
    record of a replaced revision, of a detached chunk or of all the chunks of a removed file
    decodes to exactly those identities. *)
Theorem frozen_work_decodes ino id revision mapping mappings : in_range 64 ino → in_range 64 id → in_range 64 revision →
  mapping_ok mapping → Forall mapping_ok mappings →
  (∀ work, FreezeCOWRevisionDelete id revision = Ok work → DecodeTypedPending work = Ok (Some (RevisionCleanup id revision))) ∧
  (∀ work, FreezeCOWDetachedDelete ino mapping = Ok work → DecodeTypedPending work = Ok (Some (DetachedCleanup (detached_of ino mapping)))) ∧
  (∀ work, FreezeCOWDetachedReclaim ino mappings = Ok work → DecodeTypedReclaim work = Ok (Some (map (detached_of ino) mappings))).
Proof.
  intros Hino Hid Hrev [Hm1 Hm2] Hms. split_and!.
  - intros work [Hv ->]%FreezeRevision_spec. by apply DecodeRevision_frozen.
  - intros work (Hz & Hv & ->)%FreezeDetached_spec. by apply DecodeDetached_frozen.
  - intros work (Hz & Hn & Hv & ->)%FreezeReclaim_spec. by apply DecodeReclaim_frozen.
Qed.

End Roundtrip.

(** ** Work of a file with two chunks *)
Definition sample_mappings : list ChunkMapping := [mkChunkMapping 0 41; mkChunkMapping 3 44].
Lemma frozen_work_decodes_witness :
  (∃ work, FreezeCOWRevisionDelete 41 7 = Ok work ∧ DecodeTypedPending work = Ok (Some (RevisionCleanup 41 7))) ∧
  (∃ work, FreezeCOWDetachedReclaim 5 sample_mappings = Ok work ∧ DecodeTypedReclaim work = Ok (Some [mkDetached 5 0 41; mkDetached 5 3 44])).
Proof.
  assert (∀ z, bool_decide (in_range 64 z) = true → in_range 64 z) as R by (intros z; apply bool_decide_eq_true_1).
  assert (Forall mapping_ok sample_mappings) as Hm by (repeat (apply Forall_cons_2; [split; by apply R|]); apply Forall_nil_2).
  assert (mapping_ok (mkChunkMapping 0 41)) as H1 by (split; by apply R).
  destruct (frozen_work_decodes 5 41 7 (mkChunkMapping 0 41) sample_mappings (R 5 eq_refl) (R 41 eq_refl) (R 7 eq_refl) H1 Hm) as (Hr & _ & Hd).
  split.
  - destruct (FreezeCOWRevisionDelete 41 7) as [work|e] eqn:E; [|vm_compute in E; discriminate E]. exists work. split; [reflexivity|]. by apply Hr.
  - destruct (FreezeCOWDetachedReclaim 5 sample_mappings) as [work|e] eqn:E; [|vm_compute in E; discriminate E]. exists work. split; [reflexivity|]. exact (Hd work eq_refl).
Defined.
