(* ===== verification/CowGc.v ===== *)
(** * Garbage collection of COW objects beside the mounts that write

    The workers of CowCleanup.v run, at any number of mounts, beside the publications of
    COWChunk.cpp, attachments and detachments (RedisMetaTxn.cpp) and boundary cuts, all
    interleaved at their calls.  [v_fresh], [v_minted], [v_put], [v_replaced], [v_was] and
    [v_ready] record what the mounts have done: chunks allocated and not yet attached, revisions
    allocated and not yet published, those among them whose upload was acknowledged, revisions
    a publication replaced, the positions chunks were ever attached at, and the chunks a first
    head was published for. *)

From stdpp Require Import gmap.
From S2P Require Import Prelude ChunkGeometry StateIo Codec Records CowCleanup.

Record volume := mkVol {
  v_head : gmap Z COWChunkHead; v_objects : gset (Z * Z); v_attached : gmap (Z * Z) Z;
  v_next_chunk : Z; v_next_revision : gmap Z Z;
  v_deletes : list PendingDelete; v_reclaims : list ReclaimWork;
  v_fresh : gset Z; v_minted : gset (Z * Z); v_put : gset (Z * Z); v_replaced : gset (Z * Z); v_was : gset ((Z * Z) * Z); v_ready : gset Z;
}.
Definition last_revision (v : volume) (c : Z) : Z := default 0 (v_next_revision v !! c).

Section Gc.
Context `{FollyIO} `{!FollyIOLaws} (has_metadata has_probe : bool).

(** ** The mounts *)
Inductive mount_step : volume → volume → Prop :=
  | allocate_chunk head objects attached n next d r fresh minted put replaced was ready :
      mount_step (mkVol head objects attached n next d r fresh minted put replaced was ready)
                 (mkVol head objects attached (n + 1) next d r ({[n + 1]} ∪ fresh) minted put replaced was ready)
  | allocate_revision v c : let rev := last_revision v c + 1 in
      mount_step v (mkVol (v_head v) (v_objects v) (v_attached v) (v_next_chunk v) (<[c := rev]> (v_next_revision v))
                      (v_deletes v) (v_reclaims v) (v_fresh v) ({[(c, rev)]} ∪ v_minted v) (v_put v) (v_replaced v) (v_was v) (v_ready v))
  | put_object v c rev (acknowledged : bool) : (c, rev) ∈ v_minted v →
      mount_step v (mkVol (v_head v) ({[(c, rev)]} ∪ v_objects v) (v_attached v) (v_next_chunk v) (v_next_revision v)
                      (v_deletes v) (v_reclaims v) (v_fresh v) (v_minted v)
                      (if acknowledged then {[(c, rev)]} ∪ v_put v else v_put v) (v_replaced v) (v_was v) (v_ready v))
  (** A first head is published by the session that allocated the chunk. *)
  | exchange_head v c expected h : v_head v !! c = expected → (c, head_revision h) ∈ v_put v → (expected = None → c ∈ v_fresh v) →
      mount_step v (mkVol (<[c := h]> (v_head v)) (v_objects v) (v_attached v) (v_next_chunk v) (v_next_revision v)
                      (v_deletes v) (v_reclaims v) (v_fresh v) (v_minted v ∖ {[(c, head_revision h)]}) (v_put v ∖ {[(c, head_revision h)]})
                      (match expected with Some e => {[(c, head_revision e)]} ∪ v_replaced v | None => v_replaced v end) (v_was v)
                      (match expected with Some _ => v_ready v | None => {[c]} ∪ v_ready v end))
  | trim_head v c h n : v_head v !! c = Some h →
      mount_step v (mkVol (<[c := mkCOWHead (head_revision h) n]> (v_head v)) (v_objects v) (v_attached v) (v_next_chunk v) (v_next_revision v)
                      (v_deletes v) (v_reclaims v) (v_fresh v) (v_minted v) (v_put v) (v_replaced v) (v_was v) (v_ready v))
  | attach v p c : v_attached v !! p = None → c ∈ v_fresh v → c ∈ v_ready v →
      mount_step v (mkVol (v_head v) (v_objects v) (<[p := c]> (v_attached v)) (v_next_chunk v) (v_next_revision v)
                      (v_deletes v) (v_reclaims v) (v_fresh v ∖ {[c]}) (v_minted v) (v_put v) (v_replaced v) ({[(p, c)]} ∪ v_was v) (v_ready v))
  | detach v p :
      mount_step v (mkVol (v_head v) (v_objects v) (delete p (v_attached v)) (v_next_chunk v) (v_next_revision v)
                      (v_deletes v) (v_reclaims v) (v_fresh v) (v_minted v) (v_put v) (v_replaced v) (v_was v) (v_ready v))
  (** Work is queued for a revision that was replaced and for chunks that were attached; the
      detachment itself may come before, after or never. *)
  | queue_revision v c rev work : (c, rev) ∈ v_replaced v → in_range 64 c → in_range 64 rev → FreezeCOWRevisionDelete c rev = Ok work →
      mount_step v (mkVol (v_head v) (v_objects v) (v_attached v) (v_next_chunk v) (v_next_revision v)
                      (v_deletes v ++ [work]) (v_reclaims v) (v_fresh v) (v_minted v) (v_put v) (v_replaced v) (v_was v) (v_ready v))
  | queue_detached v ino m work : ((ino, cm_index m), cm_chunk_id m) ∈ v_was v → in_range 64 ino → mapping_ok m → FreezeCOWDetachedDelete ino m = Ok work →
      mount_step v (mkVol (v_head v) (v_objects v) (v_attached v) (v_next_chunk v) (v_next_revision v)
                      (v_deletes v ++ [work]) (v_reclaims v) (v_fresh v) (v_minted v) (v_put v) (v_replaced v) (v_was v) (v_ready v))
  | queue_reclaim v ino ms work : (∀ m, m ∈ ms → ((ino, cm_index m), cm_chunk_id m) ∈ v_was v) → in_range 64 ino → Forall mapping_ok ms →
      FreezeCOWDetachedReclaim ino ms = Ok work →
      mount_step v (mkVol (v_head v) (v_objects v) (v_attached v) (v_next_chunk v) (v_next_revision v)
                      (v_deletes v) (v_reclaims v ++ [work]) (v_fresh v) (v_minted v) (v_put v) (v_replaced v) (v_was v) (v_ready v)).

(** ** The calls of a worker; a call that fails may have had its effect *)
Definition without_object (x : Z * Z) (v : volume) : volume :=
  mkVol (v_head v) (v_objects v ∖ {[x]}) (v_attached v) (v_next_chunk v) (v_next_revision v)
    (v_deletes v) (v_reclaims v) (v_fresh v) (v_minted v) (v_put v) (v_replaced v) (v_was v) (v_ready v).
Definition without_head (c : Z) (v : volume) : volume :=
  mkVol (delete c (v_head v)) (v_objects v) (v_attached v) (v_next_chunk v) (v_next_revision v)
    (v_deletes v) (v_reclaims v) (v_fresh v) (v_minted v) (v_put v) (v_replaced v) (v_was v) (v_ready v).
Definition with_queues (d : list PendingDelete) (r : list ReclaimWork) (v : volume) : volume :=
  mkVol (v_head v) (v_objects v) (v_attached v) (v_next_chunk v) (v_next_revision v)
    d r (v_fresh v) (v_minted v) (v_put v) (v_replaced v) (v_was v) (v_ready v).
Inductive answers (v : volume) : ∀ {B : Type}, cleanup_call B → B → volume → Prop :=
  | head_found c h : v_head v !! c = Some h → answers v (GetHead c) (Ok h) v
  | head_missing c : v_head v !! c = None → answers v (GetHead c) (Err NotFound) v
  | head_fails c e : e ≠ NotFound → answers v (GetHead c) (Err e) v
  | probed i x : answers v (ReachabilityProbe i x) (Ok (v_attached v !! (i, x))) v
  | probe_fails i x e : answers v (ReachabilityProbe i x) (Err e) v
  | object_deleted c rev e : answers v (DeleteObject c rev) e (without_object (c, rev) v)
  | object_kept c rev e : e ≠ OK → answers v (DeleteObject c rev) e v
  | head_erased c h e : v_head v !! c = Some h → answers v (EraseHead c h) e (without_head c v)
  | head_kept c h e : e ≠ OK → answers v (EraseHead c h) e v
  | delete_completed id e : answers v (CompleteDelete id) e (with_queues (filter (λ w, pd_id w ≠ id) (v_deletes v)) (v_reclaims v) v)
  | reclaim_completed i e : answers v (CompleteReclaimOf i) e (with_queues (v_deletes v) (filter (λ w, rw_ino w ≠ i) (v_reclaims v)) v)
  | complete_fails_delete id e : e ≠ OK → answers v (CompleteDelete id) e v
  | complete_fails_reclaim i e : e ≠ OK → answers v (CompleteReclaimOf i) e v.

(** ** The system *)
Definition gc_system : Type := volume * list (cleanup Status).
Inductive gc_step : gc_system → gc_system → Prop :=
  | step_mount v v' pool : mount_step v v' → gc_step (v, pool) (v', pool)
  | step_take_delete v pool work : work ∈ v_deletes v → gc_step (v, pool) (v, pool ++ [worker_DeletePending has_metadata has_probe work])
  | step_take_reclaim v pool work : work ∈ v_reclaims v → gc_step (v, pool) (v, pool ++ [worker_DeleteReclaim has_metadata has_probe work])
  | step_worker {B : Type} v pool i (c : cleanup_call B) k b v' :
      pool !! i = Some (Call c k) → answers v c b v' → gc_step (v, pool) (v', <[i := k b]> pool).
Definition empty_volume : volume := mkVol ∅ ∅ ∅ 0 ∅ [] [] ∅ ∅ ∅ ∅ ∅ ∅.
Definition gc_reachable (s : gc_system) : Prop := rtc gc_step (empty_volume, []) s.
(** ** What stays true *)
Definition retired (v : volume) (c rev : Z) : Prop :=
  (c, rev) ∉ v_minted v ∧ (∀ h, v_head v !! c = Some h → head_revision h ≠ rev) ∧ rev ≤ last_revision v c.
Definition dead (v : volume) (c : Z) : Prop := c ∉ v_fresh v ∧ c ≤ v_next_chunk v ∧ ∀ p, v_attached v !! p ≠ Some c.
Definition knows (v v' : volume) : Prop :=
  (∀ c rev, retired v c rev → retired v' c rev) ∧ (∀ c, dead v c → dead v' c) ∧ v_was v ⊆ v_was v'.
#[export] Instance knows_preorder : PreOrder knows.
Proof. split; [by intros v; split_and!|]. intros v1 v2 v3 (H1 & H2 & H3) (H4 & H5 & H6). split_and!; [auto|auto|set_solver]. Qed.
Record volume_ok (v : volume) : Prop := {
  ok_attached : ∀ p c, v_attached v !! p = Some c → ∃ h, v_head v !! c = Some h ∧ (c, head_revision h) ∈ v_objects v;
  ok_fresh : ∀ c h, c ∈ v_fresh v → v_head v !! c = Some h → (c, head_revision h) ∈ v_objects v;
  ok_ready : ∀ c, c ∈ v_ready v → c ∈ v_fresh v → is_Some (v_head v !! c);
  ok_put : ∀ c rev, (c, rev) ∈ v_put v → (c, rev) ∈ v_minted v ∧ (dead v c ∨ (c, rev) ∈ v_objects v);
  ok_head : ∀ c h, v_head v !! c = Some h → (c, head_revision h) ∉ v_minted v ∧ head_revision h ≤ last_revision v c;
  ok_minted : ∀ c rev, (c, rev) ∈ v_minted v → rev ≤ last_revision v c;
  ok_replaced : ∀ c rev, (c, rev) ∈ v_replaced v → retired v c rev;
  ok_was_attached : ∀ p c, v_attached v !! p = Some c → (p, c) ∈ v_was v;
  ok_was_once : ∀ p q c, (p, c) ∈ v_was v → (q, c) ∈ v_was v → p = q;
  ok_was : ∀ p c, (p, c) ∈ v_was v → c ∉ v_fresh v ∧ c ≤ v_next_chunk v;
  ok_fresh_bound : ∀ c, c ∈ v_fresh v → c ≤ v_next_chunk v;
  ok_head_bound : ∀ c h, v_head v !! c = Some h → c ≤ v_next_chunk v;
  ok_ready_bound : ∀ c, c ∈ v_ready v → c ≤ v_next_chunk v;
}.
Definition delete_ok (v : volume) (work : PendingDelete) : Prop :=
  match DecodeTypedPending work with
  | Ok (Some (RevisionCleanup c rev)) => retired v c rev
  | Ok (Some (DetachedCleanup d)) => ((dt_ino d, dt_index d), dt_chunk_id d) ∈ v_was v
  | _ => True
  end.
Definition reclaim_work_ok (v : volume) (work : ReclaimWork) : Prop :=
  match DecodeTypedReclaim work with
  | Ok (Some ds) => Forall (λ d, ((dt_ino d, dt_index d), dt_chunk_id d) ∈ v_was v) ds
  | _ => True
  end.
Definition queues_ok (v : volume) : Prop := Forall (delete_ok v) (v_deletes v) ∧ Forall (reclaim_work_ok v) (v_reclaims v).

(** What a worker may do. *)
Definition may_call {B : Type} (c : cleanup_call B) (v : volume) : Prop :=
  match c with
  | DeleteObject c rev => retired v c rev ∨ dead v c
  | EraseHead c _ => dead v c
  | _ => True
  end.
Fixpoint safe {A : Type} (m : cleanup A) (v : volume) : Prop :=
  match m with
  | StateIo.Done _ => True
  | Call c k => ∀ v', volume_ok v' → knows v v' → may_call c v' ∧ ∀ b v'', answers v' c b v'' → safe (k b) v''
  end.
Lemma safe_knows {A : Type} (m : cleanup A) v v' : knows v v' → safe m v → safe m v'.
Proof. destruct m as [a|B c k]; [done|]. cbn. intros Hk Hs v1 Hok Hk1. apply Hs; [done|]. by trans v'. Qed.

(** ** The mounts keep it *)
Lemma last_revision_insert v c rev c' :
  default 0 (<[c := rev]> (v_next_revision v) !! c') = if decide (c = c') then rev else last_revision v c'.
Proof. destruct (decide (c = c')) as [->|Hne]; [by rewrite lookup_insert_eq|by rewrite lookup_insert_ne]. Qed.
Lemma mount_knows v v' : volume_ok v → mount_step v v' → knows v v'.
Proof.
  intros Hok Hs. destruct Hs as [| | | v c expected h He Hp Hf| v c h n Hh| v p c Hp Hf Hr| v p | | |]; unfold knows, retired, dead; cbn [v_head v_objects v_attached v_next_chunk v_next_revision v_fresh v_minted v_was].
  - split_and!; [done| |done]. intros c (Hc & Hn & Ha). split_and!; [|lia|done]. rewrite elem_of_union, elem_of_singleton. intros [->|?]; [lia|done].
  - split_and!; [|done|done]. intros c' rev' (Hm & Hh & Hl). unfold last_revision in *. cbn. rewrite (last_revision_insert v).
    split_and!; [|done|case_decide; subst; unfold last_revision; lia]. rewrite elem_of_union, elem_of_singleton. intros [[= -> ->]|?]; [unfold rev, last_revision in Hl; lia|done].
  - split_and!; done.
  - split_and!; [|done|done]. intros c' rev' (Hm & Hh & Hl). split_and!; [set_solver| |done]. intros h'. rewrite lookup_insert_Some. intros [[<- <-]|[_ ?]]; [|by apply Hh].
    intros <-. apply Hm. by apply (ok_put v Hok).
  - split_and!; [|done|done]. intros c' rev' (Hm & Hh' & Hl). split_and!; [done| |done]. intros h'. rewrite lookup_insert_Some. intros [[<- <-]|[_ ?]]; cbn; by apply Hh'.
  - split_and!; [done| |set_solver]. intros c' (Hc & Hn & Ha). split_and!; [set_solver|done|]. intros q. rewrite lookup_insert_Some. intros [[<- <-]|[_ ?]]; [done|by apply (Ha q)].
  - split_and!; [done| |done]. intros c (Hc & Hn & Ha). split_and!; [done|done|]. intros q. rewrite lookup_delete_Some. intros [_ ?]. by apply (Ha q).
  - done.
  - done.
  - done.
Qed.

Lemma put_dead v v' c rev : volume_ok v → knows v v' → (c, rev) ∈ v_put v → (c, rev) ∈ v_minted v ∧ (dead v' c ∨ (c, rev) ∈ v_objects v).
Proof. intros Hok (_ & Kd & _) Hp. destruct (ok_put v Hok _ _ Hp) as [Hm [Hd|Ho]]; auto. Qed.
Lemma replaced_knows v v' c rev : volume_ok v → knows v v' → (c, rev) ∈ v_replaced v → retired v' c rev.
Proof. intros Hok (Kr & _) Hp. by apply Kr, ok_replaced. Qed.
Lemma put_live v c rev : volume_ok v → (c, rev) ∈ v_put v → c ∈ v_fresh v ∨ (∃ p, v_attached v !! p = Some c) → (c, rev) ∈ v_objects v.
Proof. intros Hok Hp Hl. destruct (ok_put v Hok _ _ Hp) as [_ [(Hd & _ & Ha)|Ho]]; [|done]. destruct Hl as [?|[p ?]]; [done|]. by destruct (Ha p). Qed.
Ltac vol := cbn [v_head v_objects v_attached v_next_chunk v_next_revision v_fresh v_minted v_put v_replaced v_was v_ready] in *.
Lemma exchange_ok v c expected h v' : volume_ok v → v_head v !! c = expected → (c, head_revision h) ∈ v_put v → (expected = None → c ∈ v_fresh v) →
  v' = mkVol (<[c := h]> (v_head v)) (v_objects v) (v_attached v) (v_next_chunk v) (v_next_revision v)
         (v_deletes v) (v_reclaims v) (v_fresh v) (v_minted v ∖ {[(c, head_revision h)]}) (v_put v ∖ {[(c, head_revision h)]})
         (match expected with Some e => {[(c, head_revision e)]} ∪ v_replaced v | None => v_replaced v end) (v_was v)
         (match expected with Some _ => v_ready v | None => {[c]} ∪ v_ready v end) →
  volume_ok v'.
Proof.
  intros Hok He Hp Hf Ev. assert (knows v v') as K by (subst v'; apply mount_knows; [done|by constructor]).
  pose proof (put_live v c (head_revision h) Hok Hp) as Hlive. destruct (ok_put v Hok _ _ Hp) as [Hm _].
  pose proof (λ c r, put_dead v v' c r Hok K) as Hput. pose proof (λ c r, replaced_knows v v' c r Hok K) as Hrep. subst v'.
  destruct Hok as [Ha Hfr Hrd _ Hhd Hmt _ Hwa Hwo Hwf Hfb Hhb Hrb]. split; vol; try done.
  - intros p c0 Hc0. destruct (decide (c = c0)) as [<-|Hne]; [rewrite lookup_insert_eq; eauto 7|]. rewrite lookup_insert_ne by done. eauto.
  - intros c0 h0 Hc0. rewrite lookup_insert_Some. intros [[<- <-]|[_ ?]]; eauto.
  - intros c0 Hc0 Hfr0. destruct (decide (c = c0)) as [<-|Hne]; [rewrite lookup_insert_eq; eauto|]. rewrite lookup_insert_ne by done.
    apply Hrd; [|done]. destruct expected; [done|set_solver].
  - intros c0 rev [Hp0 Hne]%elem_of_difference. destruct (Hput _ _ Hp0) as [Hm0 Hor]. split; [set_solver|done].
  - intros c0 h0. rewrite lookup_insert_Some. intros [[<- <-]|[Hne Hh0]]; [split; [set_solver|by apply Hmt]|]. destruct (Hhd _ _ Hh0). split; [set_solver|done].
  - intros c0 rev Hin. apply Hmt. set_solver.
  - intros c0 rev Hin. destruct expected as [e|]; [|by apply Hrep]. apply elem_of_union in Hin as [[= -> ->]%elem_of_singleton|Hin]; [|by apply Hrep].
    destruct (Hhd _ _ He) as [Hnm Hl]. split; [vol; set_solver|]. split; [|done]. intros h0. vol. rewrite lookup_insert_eq. intros [= <-] E. rewrite E in Hm. done.
  - intros c0 h0. rewrite lookup_insert_Some. intros [[<- <-]|[_ Hh0]]; [|by eapply Hhb]. destruct expected; [by eapply Hhb|]. by apply Hfb, Hf.
  - intros c0 Hin. destruct expected; [by apply Hrb|]. apply elem_of_union in Hin as [->%elem_of_singleton|Hin]; [by apply Hfb, Hf|by apply Hrb].
Qed.

Lemma last_revision_mono v v' c rev : v_next_revision v' = <[c := last_revision v c + 1]> (v_next_revision v) →
  last_revision v' rev = if decide (c = rev) then last_revision v c + 1 else last_revision v rev.
Proof. intros E. unfold last_revision at 1. rewrite E. apply last_revision_insert. Qed.
Lemma mount_ok v v' : volume_ok v → mount_step v v' → volume_ok v'.
Proof.
  intros Hok Hs. pose proof (mount_knows v v' Hok Hs) as K.
  pose proof (λ c r, put_dead v v' c r Hok K) as Hput. pose proof (λ c r, replaced_knows v v' c r Hok K) as Hrep. pose proof Hok as Hok'.
  destruct Hok as [Ha Hfr Hrd _ Hhd Hmt _ Hwa Hwo Hwf Hfb Hhb Hrb].
  destruct Hs as [| v c rev | v c rev ack Hm| v c expected h He Hp Hf| v c h n Hh| v p c Hp Hf Hr| v p | | |]; [| | |by eapply exchange_ok|..];
    (split; vol; try done; try eauto).
  (* allocate_chunk *)
  - intros c h [->%elem_of_singleton|Hc]%elem_of_union Hh; [|by eapply Hfr]. apply Hhb in Hh. lia.
  - intros c Hc [->%elem_of_singleton|?]%elem_of_union; [apply Hrb in Hc; lia|auto].
  - intros p c Hin. destruct (Hwf _ _ Hin) as [Hnf Hl]. split; [|lia]. intros [->%elem_of_singleton|?]%elem_of_union; [lia|done].
  - intros c [->%elem_of_singleton|Hc]%elem_of_union; [lia|]. apply Hfb in Hc. lia.
  - intros c h Hh. apply Hhb in Hh. lia.
  - intros c Hc. apply Hrb in Hc. lia.
  (* allocate_revision *)
  - intros c0 rev0 Hp. destruct (Hput _ _ Hp). split; [set_solver|done].
  - intros c0 h Hh. destruct (Hhd _ _ Hh) as [Hn Hl]. rewrite (last_revision_mono v _ c) by done. split; [|case_decide; subst; lia].
    intros [[= -> E]%elem_of_singleton|?]%elem_of_union; [unfold rev in E; lia|done].
  - intros c0 rev0. rewrite (last_revision_mono v _ c) by done. intros [[= -> ->]%elem_of_singleton|Hin]%elem_of_union; [by rewrite decide_True|].
    apply Hmt in Hin. case_decide; subst; lia.
  (* put_object *)
  - intros p c0 Hc0. destruct (Ha _ _ Hc0) as (h & Hh & Ho). exists h. split; [done|set_solver].
  - intros c0 h Hc0 Hh. apply elem_of_union. right. by eapply Hfr.
  - intros c0 rev0 Hin. assert ((c0, rev0) = (c, rev) ∨ (c0, rev0) ∈ v_put v) as [[= -> ->]|Hin'] by (destruct ack; [set_solver|by right]).
    + split; [done|]. right. set_solver.
    + destruct (Hput _ _ Hin') as [Hm' [Hd|Ho]]; (split; [done|]); [by left|right; set_solver].
  (* trim_head *)
  - intros p c0 Hc0. destruct (decide (c = c0)) as [<-|Hne]; [|rewrite lookup_insert_ne by done; eauto]. rewrite lookup_insert_eq. eexists. split; [done|].
    destruct (Ha _ _ Hc0) as (h' & Hh' & Ho). by simplify_eq.
  - intros c0 h0 Hc0. rewrite lookup_insert_Some. intros [[<- <-]|[_ ?]]; [cbn; eauto|eauto].
  - intros c0 Hr Hf. destruct (decide (c = c0)) as [<-|Hne]; [rewrite lookup_insert_eq; eauto|rewrite lookup_insert_ne by done; eauto].
  - intros c0 h0. rewrite lookup_insert_Some. intros [[<- <-]|[_ ?]]; [cbn [head_revision]; by apply Hhd|by apply Hhd].
  - intros c0 h0. rewrite lookup_insert_Some. intros [[<- <-]|[_ ?]]; by eapply Hhb.
  (* attach *)
  - intros q c0. rewrite lookup_insert_Some. intros [[<- <-]|[_ ?]]; [|eauto]. destruct (Hrd c Hr Hf) as [h Hh]. eauto.
  - intros c0 h [Hc0 _]%elem_of_difference. eauto.
  - intros c0 Hc0 [Hf0 _]%elem_of_difference. eauto.
  - intros q c0. rewrite lookup_insert_Some. intros [[<- <-]|[_ Hq]]; [set_solver|]. apply Hwa in Hq. set_solver.
  - intros q1 q2 c0 H1 H2. rewrite elem_of_union, elem_of_singleton in H1, H2.
    destruct H1 as [E1|H1], H2 as [E2|H2]; simplify_eq; [done|by destruct (Hwf _ _ H2)|by destruct (Hwf _ _ H1)|eauto].
  - intros q c0 [[= -> ->]%elem_of_singleton|Hin]%elem_of_union; [split; [set_solver|auto]|]. destruct (Hwf _ _ Hin). split; [set_solver|done].
  - intros c0 [Hc0 _]%elem_of_difference. eauto.
  (* detach *)
  - intros q c0 [_ Hq]%lookup_delete_Some. eauto.
  - intros q c0 [_ Hq]%lookup_delete_Some. eauto.
Qed.

(** ** The workers keep it *)
Lemma answers_ok {B : Type} v (c : cleanup_call B) b v' : volume_ok v → may_call c v → answers v c b v' → volume_ok v' ∧ knows v v'.
Proof.
  intros Hok Hm Ha. destruct Ha as [| | | | |c rev e| |c h e Hh| | | | |]; try (by split); cbn [may_call] in Hm.
  - split; [|by split_and!]. assert (∀ c' h, v_head v !! c' = Some h → ¬ dead v c' → (c', head_revision h) ∈ v_objects v → (c', head_revision h) ∈ v_objects v ∖ {[(c, rev)]}) as Hkeep.
    { intros c' h Hh Hnd Ho. apply elem_of_difference. split; [done|]. intros [= -> <-]%elem_of_singleton. destruct Hm as [(_ & Hne & _)|?]; [by apply (Hne h)|done]. }
    destruct Hok as [Ha Hfr Hrd Hput Hhd Hmt Hrp Hwa Hwo Hwf Hfb Hhb Hrb]. split; unfold without_object; vol; try done.
    + intros p c' Hc'. destruct (Ha _ _ Hc') as (h & Hh & Ho). exists h. split; [done|]. apply Hkeep; [done| |done]. intros (_ & _ & Hn). by apply (Hn p).
    + intros c' h Hc' Hh. apply Hkeep; [done| |by eapply Hfr]. by intros (Hn & _).
    + intros c' rev' Hp. destruct (Hput _ _ Hp) as [Hmt' Hor]. split; [done|]. destruct Hor as [Hd|Ho]; [by left|].
      destruct Hm as [(Hn & _)|Hd]; [right; set_solver|]. destruct (decide (c' = c)) as [->|]; [by left|right; set_solver].
  - assert (∀ c' h, delete c (v_head v) !! c' = Some h → v_head v !! c' = Some h ∧ c ≠ c') as Hdel by (intros c' h' [??]%lookup_delete_Some; done).
    assert (knows v (without_head c v)) as K.
    { split_and!; [|done|done]. intros c' rev' (H1 & H2 & H3). split_and!; [done| |done]. intros h' [Hh' _]%Hdel. by apply H2. }
    split; [|exact K]. pose proof (λ c r, replaced_knows v _ c r Hok K) as Hrep. destruct Hm as (Hnf & Hn & Hna).
    destruct Hok as [Ha Hfr Hrd Hput Hhd Hmt _ Hwa Hwo Hwf Hfb Hhb Hrb]. split; unfold without_head; vol; try done.
    + intros p c' Hc'. destruct (Ha _ _ Hc') as (h' & Hh' & Ho). exists h'. rewrite lookup_delete_ne; [done|]. intros <-. by apply (Hna p).
    + intros c' h' Hc' [Hh' _]%Hdel. eauto.
    + intros c' Hr Hf. rewrite lookup_delete_ne; [eauto|]. by intros <-.
    + intros c' h' [Hh' _]%Hdel. by apply Hhd.
    + intros c' h' [Hh' _]%Hdel. by eapply Hhb.
  - split; [by destruct Hok; split|by split_and!].
  - split; [by destruct Hok; split|by split_and!].
Qed.
Lemma safe_bind {A B : Type} (m : cleanup A) (f : A → cleanup B) v :
  safe m v → (∀ a v', volume_ok v' → knows v v' → safe (f a) v') → volume_ok v → safe (m ≫= f) v.
Proof.
  revert v. induction m as [a|D c k IH]; intros v Hs Hf Hok; cbn; [by apply Hf|]. intros v' Hok' K. destruct (Hs v' Hok' K) as [Hm Hk]. split; [done|].
  intros b v'' Ha. destruct (answers_ok _ _ _ _ Hok' Hm Ha) as [Hok'' K']. apply IH; [by apply Hk| |done].
  intros a v1 Hok1 K1. apply Hf; [done|]. trans v''; [by trans v'|done].
Qed.
(** A position that does not show the chunk any more proves that it is nowhere attached. *)
Lemma probed_dead v p c : volume_ok v → (p, c) ∈ v_was v → v_attached v !! p ≠ Some c → dead v c.
Proof.
  intros Hok Hw Hp. destruct (ok_was v Hok _ _ Hw). split_and!; [done|done|]. intros q Hq. apply Hp.
  assert (q = p) as -> by (eapply (ok_was_once v Hok); [by apply (ok_was_attached v Hok)|done]). done.
Qed.
Lemma DeleteTypedRevision_safe c rev v : retired v c rev → safe (DeleteTypedRevision has_metadata c rev) v.
Proof.
  intros Hr. unfold DeleteTypedRevision. destruct has_metadata; [|done]. cbn. intros v1 Hok1 (Kr & Kd & Kw). split; [done|]. intros b v2 Ha.
  assert (∀ v3, knows v1 v3 → safe (status ← perform (DeleteObject c rev); mret (if negb (ok status) then (status, false) else (OK, true))) v3) as Hd.
  { intros v3 (K3 & _). cbn. intros v4 Hok4 (K4 & _). split; [left; auto|]. done. }
  assert (v2 = v1) as -> by (by inversion Ha). destruct b as [h|e]; [destruct (_ =? _)|destruct (negb _)]; try done; by apply Hd.
Qed.

Definition read_answer (v : volume) {B : Type} (c : cleanup_call B) : B → volume → Prop :=
  match c in cleanup_call B return B → volume → Prop with
  | ReachabilityProbe i x => λ b v', v' = v ∧ ∀ a, b = Ok a → a = v_attached v !! (i, x)
  | GetHead _ => λ _ v', v' = v
  | _ => λ _ _, True
  end.
Lemma answers_read {B : Type} v (c : cleanup_call B) b v' : answers v c b v' → read_answer v c b v'.
Proof. destruct 1; cbn; try done. split; [done|]. by intros a [= <-]. Qed.
Abbreviation was_at v d := (((dt_ino d, dt_index d), dt_chunk_id d) ∈ v_was v).
(** Revalidation followed by [f], which may rely on the chunk being dead if it is told so. *)
Lemma Revalidate_safe {A : Type} d (f : result bool → cleanup A) v : was_at v d → volume_ok v →
  (∀ r v', volume_ok v' → knows v v' → (r = Ok true → dead v' (dt_chunk_id d)) → safe (f r) v') → safe (RevalidateDetached has_probe d ≫= f) v.
Proof.
  intros Hw Hok Hf. unfold RevalidateDetached. destruct has_probe; cbn [negb]; [|by apply (Hf (Err NotSupported))].
  intros v1 Hok1 K1. split; [done|]. intros b v2 [-> Ha]%answers_read. apply Hf; [done|done|].
  destruct b as [attached|e]; [|done]. intros [= Hb]. apply negb_true_iff, bool_decide_eq_false in Hb.
  apply (probed_dead v1 (dt_ino d, dt_index d)); [done|by apply (proj2 (proj2 K1))|]. by rewrite <-(Ha _ eq_refl).
Qed.
Lemma DeleteDetachedChunk_safe d v : was_at v d → volume_ok v → safe (DeleteDetachedChunk has_metadata has_probe d) v.
Proof.
  intros Hw Hok. apply Revalidate_safe; [done|done|]. intros r v1 Hok1 K1 Hdead. destruct r as [[|]|e]; [|done|done]. specialize (Hdead eq_refl).
  destruct has_metadata; [|done]. cbn. intros v2 Hok2 (_ & K2 & _). split; [done|]. intros b v3 Ha. assert (v3 = v2) as -> by (by inversion Ha).
  destruct b as [h|e]; [|done]. cbn. intros v4 Hok4 (_ & K4 & _). split; [right; auto|]. intros s v5 Ha5.
  destruct (ok s); [|done]. assert (dead v5 (dt_chunk_id d)) as Hd5.
  { destruct (answers_ok v4 (DeleteObject (dt_chunk_id d) (head_revision h)) s v5 Hok4 (or_intror (K4 _ (K2 _ Hdead))) Ha5) as [_ (_ & K5 & _)]. auto. }
  cbn. intros v6 Hok6 (_ & K6 & _). split; [auto|done].
Qed.

Lemma was_knows v v' ds : knows v v' → Forall (λ d, was_at v d) ds → Forall (λ d, was_at v' d) ds.
Proof. intros (_ & _ & Kw) Hw. eapply Forall_impl; [exact Hw|]. intros d. apply Kw. Qed.
Lemma revalidate_all_safe ds v : Forall (λ d, was_at v d) ds → volume_ok v → safe (revalidate_all has_probe ds) v.
Proof.
  revert v. induction ds as [|d ds IH]; intros v Hw Hok; [done|]. apply Forall_cons in Hw as [Hd Hw]. cbn [revalidate_all].
  apply Revalidate_safe; [done|done|]. intros [[|]|e] v' Hok' K _; [|done|done]. apply IH; [by eapply was_knows|done].
Qed.
Lemma delete_all_safe ds v : Forall (λ d, was_at v d) ds → volume_ok v → safe (delete_all has_metadata has_probe ds) v.
Proof.
  revert v. induction ds as [|d ds IH]; intros v Hw Hok; [done|]. apply Forall_cons in Hw as [Hd Hw]. cbn [delete_all].
  apply safe_bind; [by apply DeleteDetachedChunk_safe| |done]. intros [s completed] v' Hok' K. destruct (ok s), completed; cbn; try done. apply IH; [by eapply was_knows|done].
Qed.
Lemma DeletePending_safe work v : delete_ok v work → volume_ok v → safe (worker_DeletePending has_metadata has_probe work) v.
Proof.
  intros Hw Hok. unfold worker_DeletePending. apply safe_bind; [| |done].
  - unfold participant_DeletePending, delete_ok in *. destruct (DecodeTypedPending work) as [[[c rev|d]|]|e]; try done; [by apply DeleteTypedRevision_safe|by apply DeleteDetachedChunk_safe].
  - intros [s completed] v' Hok' K. by destruct (ok s), completed.
Qed.
Lemma DeleteReclaim_safe work v : reclaim_work_ok v work → volume_ok v → safe (worker_DeleteReclaim has_metadata has_probe work) v.
Proof.
  intros Hw Hok. unfold worker_DeleteReclaim. apply safe_bind; [| |done].
  - unfold participant_DeleteReclaim, reclaim_work_ok in *. destruct (DecodeTypedReclaim work) as [[ds|]|e]; try done.
    apply safe_bind; [by apply revalidate_all_safe| |done]. intros [r|] v' Hok' K; [done|]. apply delete_all_safe; [by eapply was_knows|done].
  - intros [s completed] v' Hok' K. by destruct (ok s), completed.
Qed.

(** ** The invariant of the system *)
Lemma delete_ok_knows v v' work : knows v v' → delete_ok v work → delete_ok v' work.
Proof. intros (Kr & Kd & Kw). unfold delete_ok. destruct (DecodeTypedPending work) as [[[c rev|d]|]|e]; auto. Qed.
Lemma reclaim_ok_knows v v' work : knows v v' → reclaim_work_ok v work → reclaim_work_ok v' work.
Proof. intros K. unfold reclaim_work_ok. destruct (DecodeTypedReclaim work) as [[ds|]|e]; auto. by apply was_knows. Qed.
Lemma queues_knows v v' d r : knows v v' → Forall (delete_ok v) d → Forall (reclaim_work_ok v) r → Forall (delete_ok v') d ∧ Forall (reclaim_work_ok v') r.
Proof. intros K Hd Hr. split; (eapply Forall_impl; [done|]); intros x; [by apply delete_ok_knows|by apply reclaim_ok_knows]. Qed.
Lemma mount_queues v v' : volume_ok v → mount_step v v' → queues_ok v → queues_ok v'.
Proof.
  intros Hok Hs [Hd Hr]. pose proof (mount_knows v v' Hok Hs) as K. pose proof (queues_knows v v' _ _ K Hd Hr) as [Hd' Hr'].
  destruct Hs as [| | | | | | |v c rev work Hin Hc Hrv E|v ino m work Hin Hi Hm E|v ino ms work Hin Hi Hm E]; try (by split).
  - split; cbn [v_deletes v_reclaims]; [|done]. apply Forall_app. split; [done|]. apply Forall_singleton. apply FreezeRevision_spec in E as [Hv ->].
    unfold delete_ok. rewrite DecodeRevision_frozen by done. apply (proj1 K), (ok_replaced v Hok), Hin.
  - split; cbn [v_deletes v_reclaims]; [|done]. apply Forall_app. split; [done|]. apply Forall_singleton. apply FreezeDetached_spec in E as (Hz & Hv & ->).
    destruct Hm. unfold delete_ok. by rewrite DecodeDetached_frozen.
  - split; cbn [v_deletes v_reclaims]; [done|]. apply Forall_app. split; [done|]. apply Forall_singleton. apply FreezeReclaim_spec in E as (Hz & Hn & Hv & ->).
    unfold reclaim_work_ok. rewrite DecodeReclaim_frozen by done. apply Forall_map, Forall_forall. exact Hin.
Qed.
Definition gc_inv (s : gc_system) : Prop := volume_ok s.1 ∧ queues_ok s.1 ∧ Forall (λ m, safe m s.1) s.2.
Lemma gc_inv_step s s' : gc_step s s' → gc_inv s → gc_inv s'.
Proof.
  destruct 1 as [v v' pool Hs|v pool work Hw|v pool work Hw|B v pool i c k b v' Hi Ha]; intros (Hok & Hq & Hp); cbn [fst snd] in *.
  - split_and!; cbn [fst snd]; [by eapply mount_ok|by eapply mount_queues|]. eapply Forall_impl; [exact Hp|]. intros m. apply safe_knows. by apply mount_knows.
  - split_and!; cbn [fst snd]; [done|done|]. apply Forall_app. split; [done|]. apply Forall_singleton. apply DeletePending_safe; [|done].
    destruct Hq as [Hd _]. rewrite Forall_forall in Hd. by apply Hd.
  - split_and!; cbn [fst snd]; [done|done|]. apply Forall_app. split; [done|]. apply Forall_singleton. apply DeleteReclaim_safe; [|done].
    destruct Hq as [_ Hr]. rewrite Forall_forall in Hr. by apply Hr.
  - pose proof (Forall_lookup_1 _ _ _ _ Hp Hi) as Hs. cbn in Hs. destruct (Hs v Hok (reflexivity v)) as [Hm Hk]. destruct (answers_ok v c b v' Hok Hm Ha) as [Hok' K].
    split_and!; cbn [fst snd]; [done| |].
    + destruct Hq as [Hd Hr]. destruct (queues_knows v v' _ _ K Hd Hr) as [Hd' Hr'].
      destruct Ha; try (by split); split; cbn [v_deletes v_reclaims with_queues]; try done; apply Forall_forall; intros w [_ Hw]%list_elem_of_filter; [rewrite Forall_forall in Hd'; by apply Hd'|rewrite Forall_forall in Hr'; by apply Hr'].
    + apply Forall_insert; [|by apply Hk]. eapply Forall_impl; [exact Hp|]. intros m. by apply safe_knows.
Qed.
Lemma gc_inv_reachable s : gc_reachable s → gc_inv s.
Proof.
  intros Hr. apply (rtc_ind_r gc_inv (empty_volume, [])) in Hr; [done| |intros s1 s2 _ Hs; by apply gc_inv_step].
  split_and!; [|done|done]. split; cbn; try (intros; set_solver); intros ? ?; rewrite lookup_empty; done.
Qed.

(** C39: Whatever the mounts publish, attach and detach, however the workers of all mounts
    interleave with them and with each other, and whether or not calls fail, garbage collection
    never removes what a reader needs: the head of an attached chunk exists and the object it
    names is in the store; and a chunk that has been published but not attached yet keeps both
    until it is. *)
Theorem gc_keeps_live_objects v pool : gc_reachable (v, pool) →
  (∀ p c, v_attached v !! p = Some c → ∃ h, v_head v !! c = Some h ∧ (c, head_revision h) ∈ v_objects v) ∧
  (∀ c, c ∈ v_fresh v → c ∈ v_ready v → ∃ h, v_head v !! c = Some h ∧ (c, head_revision h) ∈ v_objects v).
Proof.
  intros Hr. apply gc_inv_reachable in Hr as (Hok & _). split; [apply (ok_attached v Hok)|]. intros c Hf Hc.
  destruct (ok_ready v Hok c Hc Hf) as [h Hh]. exists h. split; [done|]. by apply (ok_fresh v Hok).
Qed.

End Gc.

(** ** A chunk that is published twice, and the worker that removes its first object *)
Definition first_head : COWChunkHead := mkCOWHead 1 10.
Definition second_head : COWChunkHead := mkCOWHead 2 12.
Ltac by_computation := apply (bool_decide_unpack _); vm_compute; exact I.
Ltac mount_by t := eapply rtc_l; [apply step_mount; t|];
  match goal with |- rtc _ (?v, _) _ => let v' := eval vm_compute in v in change v with v' end.
Definition first_retired : PendingDelete := match FreezeCOWRevisionDelete 1 1 with Ok w => w | Err _ => mkPendingDelete [] [] end.
Definition published_twice : volume :=
  mkVol {[1 := second_head]} {[(1, 1); (1, 2)]} {[(5, 0) := 1]} 1 {[1 := 2]} [first_retired] [] ∅ ∅ ∅ {[(1, 1)]} {[((5, 0), 1)]} {[1]}.
Lemma published_twice_reachable : gc_reachable true true (published_twice, []).
Proof.
  mount_by ltac:(apply allocate_chunk).
  mount_by ltac:(apply (allocate_revision _ 1)).
  mount_by ltac:(apply (put_object _ 1 1 true); by_computation).
  mount_by ltac:(apply (exchange_head _ 1 None first_head); [reflexivity|by_computation|intros _; by_computation]).
  mount_by ltac:(apply (attach _ (5, 0) 1); [reflexivity|by_computation|by_computation]).
  mount_by ltac:(apply (allocate_revision _ 1)).
  mount_by ltac:(apply (put_object _ 1 2 true); by_computation).
  mount_by ltac:(apply (exchange_head _ 1 (Some first_head) second_head); [reflexivity|by_computation|discriminate]).
  mount_by ltac:(apply (queue_revision _ 1 1 first_retired); [by_computation|by_computation|by_computation|vm_compute; reflexivity]).
  match goal with |- rtc _ (?v, _) _ => assert (published_twice = v) as E by (vm_compute; reflexivity) end. rewrite E. apply rtc_refl.
Qed.
Definition first_removed : volume := without_object (1, 1) published_twice.
Definition acknowledging : list (cleanup Status) := [perform (CompleteDelete (pd_id first_retired))].
Lemma first_removed_reachable : ∃ pool, gc_reachable true true (first_removed, pool).
Proof.
  eexists. eapply rtc_r; [eapply rtc_r; [eapply rtc_r; [apply published_twice_reachable|]|]|].
  - apply step_take_delete. apply list_elem_of_singleton. reflexivity.
  - eapply (step_worker _ _ _ _ 0); [vm_compute; reflexivity|]. apply (head_found _ 1 second_head). vm_compute. reflexivity.
  - eapply (step_worker _ _ _ _ 0); [vm_compute; reflexivity|]. apply (object_deleted _ 1 1 OK).
Qed.
Lemma gc_keeps_live_objects_witness : (1, 1) ∉ v_objects first_removed ∧
  ∃ h, v_head first_removed !! 1 = Some h ∧ (1, head_revision h) ∈ v_objects first_removed.
Proof.
  split; [by_computation|]. destruct first_removed_reachable as [pool Hr].
  destruct (gc_keeps_live_objects true true first_removed pool Hr) as [H _]. apply (H (5, 0) 1). vm_compute. reflexivity.
Defined.
